(* ===== verification/_CoqProject ===== *)
-Q . S2P
Prelude.v
Rounding.v
F64.v
F64Facts.v
F64Int.v
F64Text.v
Web.v
Text.v
Json.v
Core.v
Telemetry.v
Scheduler.v
SchedulerInv.v
SchedulerThms.v
SchedulerFair.v
Capacity.v
Coordinator.v
Valkey.v
Config.v
Admission.v
Serde.v
ConfigSerde.v
ConfigSerdeThms.v
ReloadCompare.v
Proxy.v
ProxyHttp.v
ProxySystem.v
ProxyInv.v
ProxyThms.v
Tasks.v
Admin.v
Identity.v
DurableQueue.v
DurableThms.v
Adapter.v
Providers.v
ProvidersThms.v
ProxyTelemetry.v
Protocol.v
Simulator.v
SimulatorThms.v
TraceSerde.v
Report.v
Cli.v
CliThms.v
Mtls.v
Commands.v
CommandsThms.v
FakeProvider.v
