(* ===== verification/Prelude.v ===== *)
(** * InferQoS: a verification development

    InferQoS is an admission-controlling proxy in front of inference servers.
    A request is identified, given a service class and an estimated amount of
    work, and then either forwarded at once, queued, or rejected, so that the
    configured capacity of every pool, the shares of the tenants and the
    concurrency limits hold, also when several proxies share a pool.

    ** The program's parts and their models

    The Rust workspace under src/crates has one crate per part.  A file models
    one part; a record is the state behind a mutex or an atomic, a function is
    a method (one critical section, or the code between two [await]s where the
    state is visible to others), a [result] is a [Result], an [outcome] says
    that a call may panic.

    - [Prelude]: results, panics, 64-bit integers (wrapping and saturating),
      decimal parsing, the iteration orders of [BTreeMap] (sorted) and
      [HashMap] (any order, the class [HashOrder]), [Iterator::max_by], and
      the tactics the files share.
    - [Rounding], [F64], [F64Facts], [F64Int], [F64Text]: the [f64] of Rust as
      the axiom-free [spec_float] of the Standard Library, with the order and
      error theory of its rounding in integers, its casts to integers, and its
      text: [Display] as the shortest decimal that reads back, [{:.n}].
    - [Web], [Text], [Json]: bytes, header maps, the class [UrlLib]; UTF-8,
      [lines] and [trim]; JSON values and the class [JsonLib].
    - [Core] (core/src/lib.rs): service classes, work units and estimates,
      identities, admission requests.
    - [Scheduler] (scheduler/src/lib.rs): [Inner] with [enqueue], [cancel],
      [pop_next], [snapshot].  [SchedulerInv] is the invariant,
      [SchedulerThms] the promises (refinement of a finite map, selection rule,
      order, round trips), [SchedulerFair] the quantitative ones (scores are
      numbers, deadlines, bounded overtaking).
    - [Capacity] (capacity/src/lib.rs): the ledger of one pool and its
      calibration.
    - [Coordinator] (coordinator/src/lib.rs): the trait as the class
      [Coordinator], the in-memory implementation, and the class
      [CoordinatorLaws] of what the proxy relies on.  [Valkey] is the shared
      implementation: its two Lua scripts on the hashes of a server, with lost
      requests and lost replies.
    - [Config] (config/src/lib.rs): the configuration, [validate],
      [expand_env], [from_path].  [Serde] is derived serialization: documents
      over the scalars of a format, a codec per type and the attributes as
      combinators with their laws; [ConfigSerde] gives every configuration type
      its codec and its defaults, [ConfigSerdeThms] proves them, [ReloadCompare]
      compares configurations as JSON values.
    - [Telemetry] (telemetry/src/lib.rs): instruments, the methods of
      [RuntimeMetrics] as the measurements they make, [init] and [shutdown].
    - [Identity] (identity/src/lib.rs): [resolve], the OIDC verifier and the
      lock around its keys.
    - [Admission], [Proxy], [ProxyHttp] (proxy/src/lib.rs): concurrency
      counters, tenant shares, the three leases of a request, reloads; the
      request handler cut at its waits, the guard of an active request, the
      dispatcher; stored bodies, headers, the management plane.
    - [ProxySystem], [ProxyInv], [ProxyThms]: the proxy with any number of
      requests in flight as a step relation, its invariant, and the theorems.
      [ProxyTelemetry] gives each step the measurements the code makes in it;
      [Tasks] holds the two loops that run in the background, the relay of a
      response with the renewal of its leases and the watch on the
      configuration file; [Admin] is the management router with its pages.
    - [Adapter] (core/src/lib.rs, provider-sdk/src/lib.rs): the trait of the
      providers as the class [ProviderAdapter], what the proxy relies on as
      [AdapterLaws], and the SDK's check.  [Providers], [ProvidersThms]
      (providers/src/lib.rs) is the HTTP adapter, [Protocol]
      (provider-protocol/src) the adapter for external providers over gRPC with
      the example server; both are instances of the two classes.
    - [DurableQueue], [DurableThms] (durable-queue/src/lib.rs): the trait as the
      class [DurableQueue] with its three implementations, and the interface
      [SettlingQueue] of the two network adapters.
    - [Simulator], [SimulatorThms], [TraceSerde], [Report]
      (simulator/src/lib.rs): reading and replaying a trace, its rows, and the
      report as text, JSON and HTML.
    - [Cli], [CliThms] (cli/src/main.rs): the commands' own logic; it uses the
      models of configuration, admission, scheduler and simulator.
      [Commands], [CommandsThms] are [main] and every command with all its
      effects: what it prints, writes and runs.
      [Mtls] follows client certificates from the handshake to the identity.
    - [FakeProvider] (fake-provider/src/main.rs): the development server.

    The proxy calls the scheduler, one ledger per pool, and a coordinator; it
    is proved against [CoordinatorLaws], which [InMemoryLaws] and [ValkeyLaws]
    discharge, so its theorems hold with either coordinator.

    ** What is proved

    - Scheduler: queues, index and counters always describe one finite map
      within the limits; a pop never panics, serves the greatest score, ties
      and queues in arrival order; draining returns every request once; no
      score is NaN; an expired request is urgent; overtaking is bounded in
      time.
    - Capacity and coordinator: totals stay within the configured limit, with
      explicit rounding bounds where sums of doubles are involved and exactly
      where amounts are whole, on Valkey for every interleaving of the calls of
      several proxies; a reservation or lease is released once; expiry returns
      capacity, renewal keeps it; calibration stays in its clamps.
    - Configuration: validation accepts exactly the well-formed
      configurations; environment expansion is correct and terminates; what
      validation accepts survives being written and read, and no setting of a
      file is ignored, unit variants apart; a reload never changes the parts
      that need a restart, compares them exactly, and arrives once the file
      holds still.
    - Admission: counters are exact and bounded, shares are guaranteed, a
      reservation is all or nothing, a class is an entitlement.
    - Proxy: under every interleaving of handlers, dispatcher, faults, reloads
      and drain, nothing panics, and counters, gauge and ledgers are exactly
      those of the requests in flight; guards release once; draining is final.
      The relay delivers messages in order and ends with a completed request; a
      renewed lease counts.
    - Telemetry and management: the instruments agree with the state and with
      the proxy's own counters, their labels are from a finite set; the metrics
      page can be read back to the bit, whatever the pools are called; without
      the token no page depends on the state.
    - Identity: a trusted identity has evidence, forwarded headers of strangers
      are ignored, required authentication fails closed.
    - Providers: a client chooses neither upstream nor credentials; amounts of
      work are finite and non-negative for every adapter; responses are relayed
      intact and their usage does not depend on how they are cut; plaintext
      connections to external adapters stay local.
    - Durable queue: jobs are conserved in order in memory; the network adapters
      settle only what they delivered, once, whatever the broker does; jobs make
      the round trip up to an exact size.
    - Simulator: replaying is total and independent of the file's order but for
      one index; peak, class counts and percentiles are exact, rates are
      probabilities.
    - Command line: draining ends, the policy test agrees with the proxy,
      fingerprints match exactly the lower-case entries, a deployment runs
      nothing unchecked; a command writes only what it is told to; the
      diagnostic bundle does not depend on secrets.

    ** Bounds and fuel

    [expand_env] recurses with the length of the text as fuel, which
    [expand_env_correct] shows to be enough; so do the trimming of text
    ([strip_all_done]) and the replacement in [init] ([replace_all_fuel]).  The wait for draining
    has 600 turns of fuel, enough by [drain_terminates].  All other recursion
    is structural.  Theorems about runs count their steps and ask for at most
    [2^64 - 1] of them, so that 64-bit counters do not wrap; sequence numbers
    of the scheduler are treated alike.  Exact sums in the simulator ask for
    traces of less than [2^53] tokens.

    ** Parameters

    YAML, JSON, CIDR, URL and UUID parsing, header syntax, token decoding and
    key fetching, credential libraries and request signing, the brokers, the
    network, the text form of numbers in Lua ([LuaText]), clocks, fresh
    identifiers, the file system and the process environment are arguments of
    the definitions that use them, with what the code relies on stated as
    classes of laws ([LuaTextLaws], [SerdeJsonLaws], [JsonLaws], [UrlLaws],
    [ScalarLaws], [TextLaws], [JsonTextLaws]), each with an instance.

    ** Not modelled

    Argument parsing (clap) and the dump of the JSON schema, which are
    libraries' work; sockets, signals, TLS and the OpenTelemetry SDK, whose
    answers are parameters; the text of the dashboard, which is data; opening
    connections to Valkey, NATS and the Azure identity service.  The compiled
    form of the generated protocol code is replaced by records of its
    messages. *)

From stdpp Require Import base gmap list sorting strings.
From Stdlib Require Import ZArith Lia Ascii String.
From stdpp Require Import list.

Open Scope Z_scope.

(** ** Results and panics *)

(** Rust's [Result<A, E>]. *)
Inductive result (E A : Type) : Type :=
| Ok (a : A)
| Err (e : E).
Arguments Ok {E A} a.
Arguments Err {E A} e.

(** The value of a call that may panic ([expect], [unwrap], [unreachable!]). *)
Inductive outcome (A : Type) : Type :=
| Returns (a : A)
| Panics.
Arguments Returns {A} a.
Arguments Panics {A}.

Definition is_ok {E A} (r : result E A) : bool := match r with Ok _ => true | Err _ => false end.

(** Rust's [?] on a [Result]. *)
Definition result_bind {E A B} (r : result E A) (k : A -> result E B) : result E B :=
  match r with Ok a => k a | Err e => Err e end.

Declare Scope inferqos_scope.
Delimit Scope inferqos_scope with iq.
Notation "'let?' x := r 'in' k" := (result_bind r (fun x => k))
  (at level 10, x name, r at level 100, k at level 200) : inferqos_scope.
Open Scope inferqos_scope.

(** ** Machine integers

    A [w]-bit unsigned integer is a [Z] in range; the release profile of the
    workspace leaves overflow checks off, so [+] and [-] wrap. *)

Definition U32_MAX : Z := 2 ^ 32 - 1.
Definition U64_MAX : Z := 2 ^ 64 - 1.
Definition USIZE_MAX : Z := U64_MAX.

Definition wrap64 (n : Z) : Z := n mod 2 ^ 64.
Definition wadd (a b : Z) : Z := wrap64 (a + b).
Definition wsub (a b : Z) : Z := wrap64 (a - b).
Definition sat_add (a b : Z) : Z := Z.min U64_MAX (a + b).
Definition sat_sub (a b : Z) : Z := Z.max 0 (a - b).
Definition sat_mul (a b : Z) : Z := Z.min U64_MAX (a * b).

Definition u64 (n : Z) : Prop := 0 <= n <= U64_MAX.

Lemma wrap64_id n : u64 n -> wrap64 n = n.
Proof. unfold u64, U64_MAX, wrap64. intros. apply Z.mod_small. lia. Qed.

Lemma wadd_id a b : u64 (a + b) -> wadd a b = a + b.
Proof. apply wrap64_id. Qed.

Lemma wsub_id a b : u64 (a - b) -> wsub a b = a - b.
Proof. apply wrap64_id. Qed.

(** ** Automation *)

(** Side conditions of the wrapping operations. *)
Ltac int64 := unfold u64, USIZE_MAX, U64_MAX in *; lia.

(** Every branch of the definition at hand, with the equations it gives. *)
Ltac branches := repeat case_match; simplify_eq/=.

(** ** Text *)

(** [str::parse::<u64>]: an optional [+], then one or more decimal digits whose
    value fits. *)
Fixpoint parse_digits (acc : Z) (s : string) : option Z :=
  match s with
  | EmptyString => Some acc
  | String c rest =>
      let d := Z.of_N (N_of_ascii c) - 48 in
      if (0 <=? d) && (d <=? 9) && (acc * 10 + d <=? U64_MAX) then parse_digits (acc * 10 + d) rest else None
  end.

Definition parse_u64 (s : string) : option Z :=
  match s with
  | EmptyString => None
  | String c rest =>
      if Ascii.eqb c "+" then match rest with EmptyString => None | _ => parse_digits 0 rest end
      else parse_digits 0 s
  end.

(** [char::to_ascii_lowercase] on bytes, and [str::eq_ignore_ascii_case]. *)
Definition ascii_lower (c : ascii) : ascii :=
  let n := N_of_ascii c in if ((65 <=? n) && (n <=? 90))%N then ascii_of_N (n + 32) else c.
Fixpoint to_lower (s : string) : string :=
  match s with EmptyString => EmptyString | String c rest => String (ascii_lower c) (to_lower rest) end.
Definition eq_ignore_ascii_case (a b : string) : bool := String.eqb (to_lower a) (to_lower b).

(** ** Map iteration orders *)

(** [BTreeMap::iter]: ascending keys.  [le] is the key order. *)
Section btree.
Context {K V : Type} `{Countable K} (le : relation K) `{!RelDecision le}.

Definition entry_le : relation (K * V) := fun a b => le a.1 b.1.
#[local] Instance entry_le_dec : RelDecision entry_le.
Proof. intros a b. unfold entry_le. apply _. Defined.

Definition btree_iter (m : gmap K V) : list (K * V) := merge_sort entry_le (map_to_list m).

Lemma btree_iter_perm m : btree_iter m ≡ₚ map_to_list m.
Proof. apply merge_sort_Permutation. Qed.

Lemma elem_of_btree_iter m k v : (k, v) ∈ btree_iter m <-> m !! k = Some v.
Proof. rewrite btree_iter_perm. apply elem_of_map_to_list. Qed.

Lemma btree_iter_nodup m : NoDup (btree_iter m).*1.
Proof. rewrite btree_iter_perm. apply NoDup_fst_map_to_list. Qed.

Lemma btree_iter_map m : list_to_map (btree_iter m) = m.
Proof. rewrite (list_to_map_proper _ (map_to_list m)); [apply list_to_map_to_list | apply btree_iter_nodup | apply btree_iter_perm]. Qed.
End btree.

(** [HashMap::iter]: some order, unspecified.  A definition that iterates a
    [HashMap] takes the order as this parameter, and its theorems hold for
    every order. *)
Class HashOrder : Type := {
  hash_iter : forall {K V : Type} `{Countable K}, gmap K V -> list (K * V);
  hash_iter_perm : forall {K V : Type} `{Countable K} (m : gmap K V),
    hash_iter m ≡ₚ map_to_list m
}.

(** One such order, for evaluation. *)
#[export] Instance insertion_order : HashOrder :=
  { hash_iter K V _ _ m := map_to_list m; hash_iter_perm K V _ _ m := reflexivity _ }.

(** ** [Iterator::max_by]: the last of the greatest elements *)

Definition max_by_step {A} (cmp : A -> A -> comparison) (x y : A) : A :=
  match cmp x y with Gt => x | _ => y end.

Definition max_by {A} (cmp : A -> A -> comparison) (l : list A) : option A :=
  match l with
  | [] => None
  | x :: rest => Some (foldl (max_by_step cmp) x rest)
  end.

Section max_by.
Context {A : Type} (cmp : A -> A -> comparison).
Lemma foldl_max_by_elem l x : foldl (max_by_step cmp) x l ∈ x :: l.
Proof.
  revert x. induction l as [|y l IH]; intros x; [left|]. cbn [foldl].
  specialize (IH (max_by_step cmp x y)).
  apply elem_of_cons in IH as [-> | IH]; [|set_solver].
  unfold max_by_step. destruct (cmp x y); set_solver.
Qed.

Lemma max_by_elem l x : max_by cmp l = Some x -> x ∈ l.
Proof. destruct l as [|y l]; [done|]. intros [= <-]. apply foldl_max_by_elem. Qed.

Lemma max_by_None l : max_by cmp l = None <-> l = [].
Proof. destruct l; cbn; split; congruence. Qed.

Hypothesis cmp_trans : forall x y z, cmp x y <> Gt -> cmp y z <> Gt -> cmp x z <> Gt.
Hypothesis cmp_total : forall x y, cmp x y = Gt -> cmp y x <> Gt.
Hypothesis cmp_refl : forall x, cmp x x <> Gt.

Lemma foldl_max_by_ge l x y : y ∈ x :: l -> cmp y (foldl (max_by_step cmp) x l) <> Gt.
Proof.
  revert x y. induction l as [|z l IH]; intros x y Hy; cbn [foldl].
  - apply list_elem_of_singleton in Hy as ->. apply cmp_refl.
  - assert (Hs : cmp x (max_by_step cmp x z) <> Gt /\ cmp z (max_by_step cmp x z) <> Gt).
    { unfold max_by_step. destruct (cmp x z) eqn:E; split; try apply cmp_refl; try congruence.
      apply cmp_total, E. }
    apply elem_of_cons in Hy as [-> | Hy]; [eapply cmp_trans; [apply Hs|]; apply IH; left|].
    apply elem_of_cons in Hy as [-> | Hy]; [eapply cmp_trans; [apply Hs|]; apply IH; left|].
    apply IH. right. exact Hy.
Qed.

Lemma max_by_ge l x y : max_by cmp l = Some x -> y ∈ l -> cmp y x <> Gt.
Proof. destruct l as [|z l]; [done|]. intros [= <-]. apply foldl_max_by_ge. Qed.
End max_by.

(** ** Sums over lists *)

Fixpoint zsum {A} (f : A -> Z) (l : list A) : Z :=
  match l with [] => 0 | x :: rest => f x + zsum f rest end.

Lemma zsum_app {A} (f : A -> Z) l1 l2 : zsum f (l1 ++ l2) = zsum f l1 + zsum f l2.
Proof. induction l1; cbn [zsum app]; lia. Qed.

Lemma zsum_nonneg {A} (f : A -> Z) l : Forall (fun x => 0 <= f x) l -> 0 <= zsum f l.
Proof. induction 1; cbn [zsum]; lia. Qed.

#[export] Instance zsum_perm {A} (f : A -> Z) : Proper ((≡ₚ) ==> (=)) (zsum f).
Proof. induction 1; cbn [zsum]; lia. Qed.

Lemma zsum_elem_le {A} (f : A -> Z) l x :
  Forall (fun x => 0 <= f x) l -> x ∈ l -> f x <= zsum f l.
Proof.
  intros HF Hx. induction HF as [|y l Hy HF IH]; [by apply not_elem_of_nil in Hx|].
  pose proof (zsum_nonneg f l HF). apply elem_of_cons in Hx as [-> | Hx]; cbn [zsum]; [lia|]. specialize (IH Hx). lia.
Qed.

Lemma filter_all {A} (P : A -> Prop) `{!forall x, Decision (P x)} (l : list A) : Forall P l -> filter P l = l.
Proof. induction 1 as [|x l Hx _ IH]; [done|]. rewrite filter_cons, decide_True by done. by rewrite IH. Qed.
