(* ===== verification/Rounding.v ===== *)
(** * Integer rounding: the arithmetic behind binary64

    A finite binary64 number is an integer multiple of [2^-1074].  In that
    unit the exact result of an addition, a multiplication or a division is a
    fraction [a / b] of integers, and IEEE 754's round-to-nearest-even is the
    integer function [rnd a b] below: keep 53 significant bits, ties to even.
    This file has the rounding function and its order theory (monotone,
    identity on representable integers, relative error at most [2^-53]); it
    mentions no floating-point type. *)

From Stdlib Require Import ZArith Lia.

Open Scope Z_scope.

(** ** Number of binary digits *)

Definition digits (n : Z) : Z := if n =? 0 then 0 else Z.log2 n + 1.

Lemma digits_nonneg n : 0 <= digits n.
Proof. unfold digits. destruct (n =? 0); [lia|]. pose proof (Z.log2_nonneg n). lia. Qed.

Lemma digits_le_iff n k : 0 <= n -> 0 <= k -> (digits n <= k <-> n < 2 ^ k).
Proof.
  intros Hn Hk. unfold digits. destruct (Z.eqb_spec n 0) as [->|].
  - split; intros _; [apply Z.pow_pos_nonneg; lia | lia].
  - rewrite Z.log2_lt_pow2 by lia. lia.
Qed.

Lemma digits_gt_iff n k : 0 <= n -> 0 <= k -> (k < digits n <-> 2 ^ k <= n).
Proof. intros Hn Hk. pose proof (digits_le_iff n k Hn Hk). lia. Qed.

Lemma digits_mono a b : 0 <= a <= b -> digits a <= digits b.
Proof.
  intros H. apply digits_le_iff; [lia | apply digits_nonneg |].
  apply Z.le_lt_trans with b; [lia |].
  apply digits_le_iff; [lia | apply digits_nonneg | lia].
Qed.

Lemma digits_mul_pow2 n k : 0 < n -> 0 <= k -> digits (n * 2 ^ k) = digits n + k.
Proof.
  intros Hn Hk. pose proof (Z.pow_pos_nonneg 2 k ltac:(lia) Hk).
  unfold digits. destruct (Z.eqb_spec n 0); [lia |].
  destruct (Z.eqb_spec (n * 2 ^ k) 0); [nia |].
  rewrite Z.log2_mul_pow2 by lia. lia.
Qed.

Lemma digits_div_pow2 n k : 0 <= n -> 0 <= k -> digits (n / 2 ^ k) = Z.max 0 (digits n - k).
Proof.
  intros Hn Hk. pose proof (Z.pow_pos_nonneg 2 k ltac:(lia) Hk).
  destruct (Z_lt_le_dec n (2 ^ k)) as [Hlt | Hge].
  - rewrite Z.div_small by lia. apply digits_le_iff in Hlt; [|lia..].
    change (digits 0) with 0. lia.
  - assert (1 <= n / 2 ^ k) by (apply Z.div_le_lower_bound; lia).
    apply digits_gt_iff in Hge as Hge'; [|lia..].
    unfold digits in *. destruct (Z.eqb_spec n 0); [lia|].
    destruct (Z.eqb_spec (n / 2 ^ k) 0); [lia|].
    rewrite <- Z.shiftr_div_pow2 by lia. rewrite Z.log2_shiftr by lia. lia.
Qed.

(** ** Rounding a fraction to the nearest integer, ties to even *)

Definition rne (a b : Z) : Z :=
  let q := a / b in
  match 2 * (a mod b) ?= b with
  | Lt => q
  | Gt => q + 1
  | Eq => if Z.even q then q else q + 1
  end.

(** [rne a b] is the integer [r] with [|a - r*b| <= b/2]. *)
Lemma rne_bounds a b : 0 < b -> 2 * a - b <= 2 * (rne a b * b) <= 2 * a + b.
Proof.
  intros Hb. unfold rne. pose proof (Z.div_mod a b ltac:(lia)). pose proof (Z.mod_pos_bound a b Hb).
  set (q := a / b) in *. set (r := a mod b) in *. clearbody q r.
  destruct (Z.compare_spec (2 * r) b); [destruct (Z.even q)|..]; nia.
Qed.

Lemma rne_mult k b : 0 < b -> rne (k * b) b = k.
Proof.
  intros Hb. unfold rne. rewrite Z.mod_mul, Z.div_mul by lia.
  destruct (Z.compare_spec (2 * 0) b); lia.
Qed.

Lemma rne_parity a b q : 0 < b -> 2 * a = 2 * q * b + b -> rne a b = if Z.even q then q else q + 1.
Proof.
  intros Hb H. pose proof (Z.div_mod a b ltac:(lia)) as E. pose proof (Z.mod_pos_bound a b Hb) as B.
  assert (Eq : a / b = q) by nia. assert (Er : 2 * (a mod b) = b) by nia.
  unfold rne. rewrite Eq, Er, Z.compare_refl. reflexivity.
Qed.

(** Monotone in the value of the fraction. *)
Lemma rne_mono a b c d : 0 < b -> 0 < d -> a * d <= c * b -> rne a b <= rne c d.
Proof.
  intros Hb Hd H. pose proof (rne_bounds a b Hb). pose proof (rne_bounds c d Hd).
  destruct (Z_le_gt_dec (rne a b) (rne c d)) as [|G]; [assumption | exfalso].
  (* both fractions sit exactly half way between [rne c d] and its successor *)
  assert (Hbd : 0 < b * d) by nia.
  assert (U : 2 * (rne a b * (b * d)) <= 2 * (a * d) + b * d) by nia.
  assert (L : 2 * (c * b) - b * d <= 2 * (rne c d * (b * d))) by nia.
  assert (E1 : rne a b = rne c d + 1) by nia. rewrite E1 in *.
  assert (E2 : 2 * a = 2 * rne c d * b + b) by nia.
  assert (E3 : 2 * c = 2 * rne c d * d + d) by nia.
  pose proof (rne_parity _ _ _ Hb E2). pose proof (rne_parity _ _ _ Hd E3).
  destruct (Z.even (rne c d)); lia.
Qed.

Lemma rne_prop a b c d : 0 < b -> 0 < d -> a * d = c * b -> rne a b = rne c d.
Proof. intros Hb Hd H. apply Z.le_antisymm; apply rne_mono; lia. Qed.

Lemma rne_nonneg a b : 0 <= a -> 0 < b -> 0 <= rne a b.
Proof. intros Ha Hb. rewrite <- (rne_mult 0 b Hb). apply rne_mono; nia. Qed.

(** ** Rounding to 53 significant bits *)

Definition PREC : Z := 53.

(** The exponent, in units of [2^-1074], at which [a/b] is rounded. *)
Definition rexp (a b : Z) : Z := Z.max 0 (digits (a / b) - PREC).

Definition rnd (a b : Z) : Z := rne a (b * 2 ^ rexp a b) * 2 ^ rexp a b.

(** An integer that needs no rounding: 53 significant bits at most. *)
Definition representable (n : Z) : Prop := n mod 2 ^ (Z.max 0 (digits n - PREC)) = 0.

Lemma rexp_nonneg a b : 0 <= rexp a b.
Proof. unfold rexp. lia. Qed.

Lemma pow2_rexp_pos a b : 0 < 2 ^ rexp a b.
Proof. apply Z.pow_pos_nonneg; [lia | apply rexp_nonneg]. Qed.

Lemma floor_mono a b c d : 0 < b -> 0 < d -> a * d <= c * b -> a / b <= c / d.
Proof.
  intros Hb Hd H. apply Z.div_le_lower_bound; [lia|].
  pose proof (Z.mul_div_le a b Hb). nia.
Qed.

Lemma rexp_mono a b c d : 0 <= a -> 0 < b -> 0 < d -> a * d <= c * b -> rexp a b <= rexp c d.
Proof.
  intros Ha Hb Hd H. unfold rexp. pose proof (floor_mono a b c d Hb Hd H).
  pose proof (digits_mono (a / b) (c / d) ltac:(split; [apply Z.div_pos; lia | lia])). lia.
Qed.

Lemma rnd_upper a b : 0 <= a -> 0 < b -> rnd a b <= 2 ^ (PREC + rexp a b).
Proof.
  intros Ha Hb. pose proof (pow2_rexp_pos a b). pose proof (rexp_nonneg a b).
  unfold rnd. rewrite Z.pow_add_r by (unfold PREC; lia).
  apply Z.mul_le_mono_nonneg_r; [lia|].
  rewrite <- (rne_mult (2 ^ PREC) (b * 2 ^ rexp a b)) by nia.
  assert (Hd : a / b < 2 ^ (PREC + rexp a b)).
  { apply digits_le_iff; [apply Z.div_pos; lia | unfold PREC; lia | unfold rexp; lia]. }
  apply rne_mono; [nia..|].
  rewrite Z.pow_add_r in Hd by (unfold PREC; lia).
  pose proof (Z.mul_succ_div_gt a b Hb).
  assert (a <= 2 ^ PREC * (b * 2 ^ rexp a b)) by nia. apply Z.mul_le_mono_nonneg_r; nia.
Qed.

Lemma rnd_lower a b : 0 <= a -> 0 < b -> 0 < rexp a b -> 2 ^ (PREC - 1 + rexp a b) <= rnd a b.
Proof.
  intros Ha Hb Hk. pose proof (pow2_rexp_pos a b).
  assert (Hd : 2 ^ (PREC - 1 + rexp a b) <= a / b).
  { apply digits_gt_iff; [apply Z.div_pos; lia | unfold PREC; lia | unfold rexp in *; lia]. }
  rewrite Z.pow_add_r in Hd |- * by (unfold PREC; lia).
  unfold rnd. apply Z.mul_le_mono_nonneg_r; [lia|].
  rewrite <- (rne_mult (2 ^ (PREC - 1)) (b * 2 ^ rexp a b)) by nia.
  apply rne_mono; [nia..|]. pose proof (Z.mul_div_le a b Hb).
  assert (2 ^ (PREC - 1) * (b * 2 ^ rexp a b) <= a) by nia. apply Z.mul_le_mono_nonneg_r; nia.
Qed.

(** Rounding is monotone in the value of the fraction. *)
Lemma rnd_mono a b c d : 0 <= a -> 0 < b -> 0 < d -> a * d <= c * b -> rnd a b <= rnd c d.
Proof.
  intros Ha Hb Hd H. assert (0 <= c) by nia.
  pose proof (rexp_mono a b c d Ha Hb Hd H) as Hk.
  destruct (Z.eq_dec (rexp a b) (rexp c d)) as [E | N].
  - pose proof (pow2_rexp_pos c d). unfold rnd. rewrite E. apply Z.mul_le_mono_nonneg_r; [lia|].
    apply rne_mono; [nia..|].
    replace (a * (d * 2 ^ rexp c d)) with (a * d * 2 ^ rexp c d) by ring.
    replace (c * (b * 2 ^ rexp c d)) with (c * b * 2 ^ rexp c d) by ring. nia.
  - pose proof (rexp_nonneg a b).
    apply Z.le_trans with (2 ^ (PREC + rexp a b)); [apply rnd_upper; lia|].
    apply Z.le_trans with (2 ^ (PREC - 1 + rexp c d)); [apply Z.pow_le_mono_r; unfold PREC; lia|].
    apply rnd_lower; lia.
Qed.

Lemma rnd_prop a b c d : 0 <= a -> 0 <= c -> 0 < b -> 0 < d -> a * d = c * b -> rnd a b = rnd c d.
Proof. intros. apply Z.le_antisymm; apply rnd_mono; lia. Qed.

Lemma rnd_nonneg a b : 0 <= a -> 0 < b -> 0 <= rnd a b.
Proof.
  intros Ha Hb. pose proof (pow2_rexp_pos a b). unfold rnd.
  pose proof (rne_nonneg a (b * 2 ^ rexp a b) Ha ltac:(nia)). nia.
Qed.

(** A representable integer is its own rounding. *)
Lemma rnd_exact n b : 0 <= n -> 0 < b -> representable n -> rnd (n * b) b = n.
Proof.
  intros Hn Hb Hr. unfold rnd, rexp. rewrite Z.div_mul by lia. unfold representable in Hr.
  set (k := Z.max 0 (digits n - PREC)) in *.
  assert (0 < 2 ^ k) by (apply Z.pow_pos_nonneg; lia).
  apply Z.mod_divide in Hr as [m E]; [|lia]. rewrite E at 1 2.
  replace (m * 2 ^ k * b) with (m * (b * 2 ^ k)) by ring.
  rewrite rne_mult by nia. reflexivity.
Qed.

Lemma representable_small n : 0 <= n <= 2 ^ PREC -> representable n.
Proof.
  intros [H0 H1]. unfold representable. destruct (Z.eq_dec n (2 ^ PREC)) as [-> | Hne]; [reflexivity|].
  assert (digits n <= PREC) by (apply digits_le_iff; unfold PREC in *; lia).
  rewrite Z.max_l by lia. apply Z.mod_1_r.
Qed.

Lemma representable_mul_pow2 m k : 0 <= m <= 2 ^ PREC -> 0 <= k -> representable (m * 2 ^ k).
Proof.
  intros Hm Hk. destruct (Z.eq_dec m 0) as [-> | Hm0]; [reflexivity|].
  unfold representable. rewrite digits_mul_pow2 by lia.
  assert (0 < 2 ^ k) by (apply Z.pow_pos_nonneg; lia).
  destruct (Z.eq_dec m (2 ^ PREC)) as [-> | Hne].
  - change (digits (2 ^ PREC)) with (PREC + 1). rewrite <- Z.pow_add_r by (unfold PREC; lia).
    rewrite Z.max_r by lia. replace (PREC + 1 + k - PREC) with (1 + k) by lia.
    apply Z.mod_divide; [apply Z.pow_nonzero; lia|].
    exists (2 ^ (PREC - 1)). rewrite <- Z.pow_add_r by (unfold PREC; lia). f_equal. lia.
  - assert (digits m <= PREC) by (apply digits_le_iff; unfold PREC in *; lia).
    set (j := Z.max 0 (digits m + k - PREC)).
    apply Z.mod_divide; [apply Z.pow_nonzero; lia|].
    exists (m * 2 ^ (k - j)). rewrite <- Z.mul_assoc, <- Z.pow_add_r by lia. f_equal. f_equal. lia.
Qed.

(** The result of a rounding is representable. *)
Lemma rnd_representable a b : 0 <= a -> 0 < b -> representable (rnd a b).
Proof.
  intros Ha Hb. pose proof (rnd_upper a b Ha Hb) as U. pose proof (pow2_rexp_pos a b).
  unfold rnd in *. apply representable_mul_pow2; [|apply rexp_nonneg].
  rewrite Z.pow_add_r in U by (unfold PREC; pose proof (rexp_nonneg a b); lia).
  split; [apply rne_nonneg; nia | nia].
Qed.

(** Relative error: [rnd] loses at most one part in [2^53]. *)
Lemma rnd_error a b : 0 <= a -> 0 < b ->
  a * (2 ^ PREC - 1) <= rnd a b * b * 2 ^ PREC <= a * (2 ^ PREC + 1) \/ rexp a b = 0.
Proof.
  intros Ha Hb. destruct (Z.eq_dec (rexp a b) 0) as [E | N]; [right; exact E | left].
  pose proof (rexp_nonneg a b) as Hk. pose proof (pow2_rexp_pos a b).
  pose proof (rne_bounds a (b * 2 ^ rexp a b) ltac:(nia)) as B.
  assert (Hd : 2 ^ (PREC - 1 + rexp a b) <= a / b).
  { apply digits_gt_iff; [apply Z.div_pos; lia | unfold PREC; lia | unfold rexp in *; lia]. }
  pose proof (Z.mul_div_le a b Hb).
  rewrite Z.pow_add_r in Hd by (unfold PREC; lia).
  replace (2 ^ PREC) with (2 * 2 ^ (PREC - 1)) by reflexivity.
  unfold rnd. set (p := 2 ^ (PREC - 1)) in *. assert (0 < p) by reflexivity.
  set (k := 2 ^ rexp a b) in *. set (r := rne a (b * k)) in *. clearbody p k r.
  assert (b * (p * k) <= a) by nia. nia.
Qed.

(** For an integer (the sum of two floats) the bound holds at every size. *)
Lemma rnd_error_int n : 0 <= n ->
  n * (2 ^ PREC - 1) <= rnd n 1 * 2 ^ PREC <= n * (2 ^ PREC + 1).
Proof.
  intros Hn. destruct (rnd_error n 1 Hn ltac:(lia)) as [H | E]; [lia|].
  assert (Hp : 0 < 2 ^ PREC) by reflexivity. unfold rnd. rewrite E.
  assert (R : rne n (1 * 2 ^ 0) = n) by (rewrite <- (Z.mul_1_r n) at 1; apply rne_mult; lia).
  rewrite R. lia.
Qed.
