(* ===== verification/F64.v ===== *)
(** * binary64: the [f64] of the Rust sources

    [f64] is the Standard Library's axiom-free [spec_float] at precision 53
    and maximal exponent 1024, with the operations the sources use: [+ - * /]
    rounding to nearest even, comparisons that are false on NaN, [max], [min],
    [clamp], [total_cmp], [abs], the [as] casts and the iterator [sum].

    [ext] maps a number to an integer multiple of [2^-1074] (infinities to
    [±2^2098]); comparison is comparison of [ext], and each arithmetic
    operation is the integer rounding of [Rounding.v]. *)

From Stdlib Require Import ZArith Lia Bool SpecFloat List.
From S2P Require Import Rounding.
Import ListNotations.

Open Scope Z_scope.

(** ** The type and its operations *)

Definition f64 : Type := spec_float.

Definition f_add (x y : f64) : f64 := SFadd 53 1024 x y.
Definition f_sub (x y : f64) : f64 := SFsub 53 1024 x y.
Definition f_mul (x y : f64) : f64 := SFmul 53 1024 x y.
Definition f_div (x y : f64) : f64 := SFdiv 53 1024 x y.
Definition f_abs (x : f64) : f64 := SFabs x.
Definition f_opp (x : f64) : f64 := SFopp x.

(** IEEE comparisons: false when an operand is NaN. *)
Definition f_lt (x y : f64) : bool := SFltb x y.
Definition f_le (x y : f64) : bool := SFleb x y.
Definition f_gt (x y : f64) : bool := SFltb y x.
Definition f_ge (x y : f64) : bool := SFleb y x.
Definition f_eq (x y : f64) : bool := SFeqb x y.

Definition is_nan (x : f64) : bool := match x with S754_nan => true | _ => false end.
Definition is_finite (x : f64) : bool :=
  match x with S754_finite _ _ _ | S754_zero _ => true | _ => false end.

(** [f64::max], [f64::min]: a NaN operand is ignored. *)
Definition f_max (x y : f64) : f64 :=
  if is_nan x then y else if is_nan y then x else if f_lt x y then y else x.
Definition f_min (x y : f64) : f64 :=
  if is_nan x then y else if is_nan y then x else if f_lt y x then y else x.

(** [f64::clamp]: a NaN stays NaN. *)
Definition f_clamp (x lo hi : f64) : f64 :=
  let x := if f_lt x lo then lo else x in if f_gt x hi then hi else x.

(** [as f64] from an integer of any width: nearest, ties to even. *)
Definition f_of_Z (n : Z) : f64 := binary_normalize 53 1024 n 0 false.

(** [RangeInclusive::contains]. *)
Definition f_in (lo hi x : f64) : bool := f_le lo x && f_le x hi.

(** [f64::total_cmp]: the order of the bit patterns (the model has one NaN, a
    positive one). *)
Definition total_rank (x : f64) : Z * Z * Z :=
  match x with
  | S754_infinity true => (-2, 0, 0)
  | S754_finite true m e => (-1, - e, - Zpos m)
  | S754_zero true => (0, 0, 0)
  | S754_zero false => (0, 1, 0)
  | S754_finite false m e => (1, e, Zpos m)
  | S754_infinity false => (2, 0, 0)
  | S754_nan => (3, 0, 0)
  end.
Definition lex3 (a b : Z * Z * Z) : comparison :=
  let '(a1, a2, a3) := a in let '(b1, b2, b3) := b in
  match a1 ?= b1 with
  | Eq => match a2 ?= b2 with Eq => a3 ?= b3 | c => c end
  | c => c
  end.
Definition total_cmp (x y : f64) : comparison := lex3 (total_rank x) (total_rank y).

(** [Iterator::sum::<f64>]: left to right from [-0.0]. *)
Definition f_sum (l : list f64) : f64 := fold_left f_add l (S754_zero true).

Definition f_zero : f64 := S754_zero false.
Definition f_inf : f64 := S754_infinity false.
Definition f_one : f64 := Eval vm_compute in f_of_Z 1.

(** A decimal literal [n/d]: the quotient of two exactly represented integers
    is the double nearest to the literal. *)
Definition f_lit (n d : Z) : f64 := f_div (f_of_Z n) (f_of_Z d).

(** [f64::EPSILON], [2^-52]. *)
Definition f_EPSILON : f64 := Eval vm_compute in f_div (f_of_Z 1) (f_of_Z (2 ^ 52)).

Definition valid (x : f64) : Prop := valid_binary 53 1024 x = true.

(** ** Values in units of [2^-1074] *)

Definition BIAS : Z := 1074.
Definition FMAX : Z := 2 ^ 2098.

Definition ext (x : f64) : Z :=
  match x with
  | S754_finite s m e => cond_Zopp s (Zpos m * 2 ^ (e + BIAS))
  | S754_infinity s => cond_Zopp s FMAX
  | _ => 0
  end.

Lemma FMAX_pos : 0 < FMAX.
Proof. apply Z.pow_pos_nonneg; lia. Qed.

Lemma FMAX_representable : representable FMAX.
Proof. vm_compute. reflexivity. Qed.

Lemma digits_pos m : Zpos (digits2_pos m) = digits (Zpos m).
Proof.
  unfold digits. change (Zpos m =? 0) with false. cbn match.
  assert (H : forall p, digits2_pos p = Pos.size p) by (induction p; simpl; congruence).
  rewrite H. destruct m; simpl; lia.
Qed.

Lemma Zdigits2_digits n : 0 <= n -> Zdigits2 n = digits n.
Proof. intros. destruct n; [reflexivity | apply digits_pos | lia]. Qed.

Lemma fexp64 n : fexp 53 1024 n = Z.max (n - PREC) (- BIAS).
Proof. reflexivity. Qed.

Lemma valid_finite s m e : valid (S754_finite s m e) <->
  Z.max (digits (Zpos m) + e - PREC) (- BIAS) = e /\ e <= 971.
Proof.
  unfold valid, valid_binary, bounded, canonical_mantissa.
  rewrite digits_pos, fexp64, andb_true_iff, Z.eqb_eq, Z.leb_le. reflexivity.
Qed.

Lemma valid_range s m e : valid (S754_finite s m e) ->
  - BIAS <= e <= 971 /\ Zpos m < 2 ^ PREC /\ (e = - BIAS \/ 2 ^ (PREC - 1) <= Zpos m).
Proof.
  rewrite valid_finite. intros [H1 H2]. unfold BIAS in *. repeat split; try lia.
  - apply digits_le_iff; unfold PREC in *; lia.
  - destruct (Z.eq_dec e (-1074)); [left; assumption | right].
    apply digits_gt_iff; unfold PREC in *; lia.
Qed.

Lemma pow2_pos k : 0 <= k -> 0 < 2 ^ k.
Proof. intros. apply Z.pow_pos_nonneg; lia. Qed.

Lemma valid_ext_lt s m e : valid (S754_finite s m e) -> 0 < Zpos m * 2 ^ (e + BIAS) < FMAX.
Proof.
  intros H. apply valid_range in H as ([He1 He2] & Hm & _).
  pose proof (pow2_pos (e + BIAS) ltac:(lia)). split; [lia|].
  apply Z.lt_le_trans with (2 ^ PREC * 2 ^ (e + BIAS)).
  - apply Z.mul_lt_mono_pos_r; lia.
  - rewrite <- Z.pow_add_r by (unfold PREC, BIAS in *; lia).
    apply Z.pow_le_mono_r; unfold PREC, BIAS in *; lia.
Qed.

(** ** Shifting and rounding a mantissa *)

(** [Loc mrs a b]: the record [mrs] describes the real [a/b], its integer part
    and where its fraction lies with respect to 0 and 1/2. *)
Definition Loc (mrs : shr_record) (a b : Z) : Prop :=
  shr_m mrs = a / b /\
  match shr_r mrs, shr_s mrs with
  | false, false => a mod b = 0
  | false, true => 0 < a mod b /\ 2 * (a mod b) < b
  | true, false => 2 * (a mod b) = b
  | true, true => b < 2 * (a mod b)
  end.

Lemma div_mod_double a b : 0 <= a -> 0 < b ->
  a / (2 * b) = a / b / 2 /\ a mod (2 * b) = b * ((a / b) mod 2) + a mod b.
Proof.
  intros Ha Hb. rewrite (Z.mul_comm 2 b), Z.rem_mul_r by lia.
  rewrite Z.div_div by lia. lia.
Qed.

Lemma shr_1_Loc mrs a b : 0 <= a -> 0 < b -> Loc mrs a b -> Loc (shr_1 mrs) a (2 * b).
Proof.
  intros Ha Hb [Hm H]. destruct (div_mod_double a b Ha Hb) as [Eq Er].
  pose proof (Z.mod_pos_bound a b Hb). pose proof (Z.div_pos a b Ha Hb).
  unfold Loc. rewrite Eq, Er. rewrite <- Hm in *.
  destruct mrs as [m r s]; cbn [shr_m shr_r shr_s] in *.
  destruct m as [|[p|p|]|p]; [| | | |lia]; cbn [shr_1 shr_m shr_r shr_s].
  - change (0 mod 2) with 0. change (0 / 2) with 0. destruct r, s; cbn [orb]; lia.
  - replace (Zpos p~1 / 2) with (Zpos p) by (apply (Z.div_unique_pos _ _ _ 1); lia).
    replace (Zpos p~1 mod 2) with 1 by (apply (Z.mod_unique_pos _ _ (Zpos p)); lia).
    destruct r, s; cbn [orb]; lia.
  - replace (Zpos p~0 / 2) with (Zpos p) by (apply (Z.div_unique_pos _ _ _ 0); lia).
    replace (Zpos p~0 mod 2) with 0 by (apply (Z.mod_unique_pos _ _ (Zpos p)); lia).
    destruct r, s; cbn [orb]; lia.
  - change (1 mod 2) with 1. change (1 / 2) with 0. destruct r, s; cbn [orb]; lia.
Qed.

Lemma iter_pos_comm {A} (f : A -> A) n x : iter_pos f n (f x) = f (iter_pos f n x).
Proof. revert x. induction n as [n IH | n IH |]; intros x; cbn; rewrite ?IH; reflexivity. Qed.

Lemma iter_pos_succ {A} (f : A -> A) n x : iter_pos f (Pos.succ n) x = iter_pos f n (f x).
Proof.
  revert x. induction n as [n IH | n IH |]; intros x; cbn; [|reflexivity..].
  rewrite !IH, !iter_pos_comm. reflexivity.
Qed.

Lemma shr_Loc mrs e n a b : 0 <= a -> 0 < b -> 0 <= n -> Loc mrs a b ->
  Loc (fst (shr mrs e n)) a (b * 2 ^ n) /\ snd (shr mrs e n) = e + n.
Proof.
  intros Ha Hb Hn HL. destruct n as [|p|p]; [| |lia].
  { cbn. rewrite Z.mul_1_r. split; [assumption | lia]. }
  cbn [shr fst snd]. split; [|reflexivity]. clear Hn.
  revert mrs b Hb HL. induction p as [|p IH] using Pos.peano_ind; intros mrs b Hb HL.
  - cbn [iter_pos]. replace (b * 2 ^ 1) with (2 * b) by ring. apply shr_1_Loc; assumption.
  - rewrite iter_pos_succ. rewrite Pos2Z.inj_succ, Z.pow_succ_r by lia.
    replace (b * (2 * 2 ^ Zpos p)) with ((2 * b) * 2 ^ Zpos p) by ring.
    apply IH; [lia|]. apply shr_1_Loc; assumption.
Qed.

Lemma round_Loc mrs a b : 0 < b -> Loc mrs a b ->
  round_nearest_even (shr_m mrs) (loc_of_shr_record mrs) = rne a b.
Proof.
  intros Hb [Hm H]. unfold rne. rewrite <- Hm. pose proof (Z.mod_pos_bound a b Hb).
  destruct mrs as [m [|] [|]]; cbn [shr_m shr_r shr_s] in *; cbn [loc_of_shr_record round_nearest_even];
    destruct (Z.compare_spec (2 * (a mod b)) b); try lia; try reflexivity.
Qed.

Lemma Loc_exact m : 0 <= m -> Loc (shr_record_of_loc m loc_Exact) m 1.
Proof. intros. split; cbn; [rewrite Z.div_1_r; reflexivity | apply Z.mod_1_r]. Qed.

(** The second normalisation of [binary_round_aux]: the rounded mantissa has at
    most 53 bits, or is [2^53] and is shifted once, exactly. *)
Lemma shr_fexp_exact q e : 0 <= q <= 2 ^ PREC -> - BIAS <= e ->
  (e = - BIAS \/ 2 ^ (PREC - 1) <= q) ->
  exists q' e', shr_fexp 53 1024 q e loc_Exact = (Build_shr_record q' false false, e') /\
    q' * 2 ^ (e' + BIAS) = q * 2 ^ (e + BIAS) /\ 0 <= q' < 2 ^ PREC /\ e <= e' /\
    (q' = 0 \/ Z.max (digits q' + e' - PREC) (- BIAS) = e').
Proof.
  intros [Hq0 Hq] He Hn. unfold shr_fexp. rewrite Zdigits2_digits, fexp64 by lia.
  destruct (Z.eq_dec q (2 ^ PREC)) as [-> | Hne].
  - exists (2 ^ (PREC - 1)), (e + 1). change (digits (2 ^ PREC)) with (PREC + 1).
    replace (Z.max (PREC + 1 + e - PREC) (- BIAS) - e) with 1 by lia. split; [reflexivity|].
    change (digits (2 ^ (PREC - 1))) with PREC.
    split; [|split; [split; [vm_compute; discriminate | reflexivity]|split; [lia | right; lia]]].
    replace (e + 1 + BIAS) with (1 + (e + BIAS)) by lia. rewrite Z.pow_add_r by lia.
    rewrite Z.mul_assoc. reflexivity.
  - assert (Hd : digits q <= PREC) by (apply digits_le_iff; unfold PREC in *; lia).
    exists q, e. split.
    + destruct (Z.max (digits q + e - PREC) (- BIAS) - e) as [|p|p] eqn:E; [reflexivity | lia | reflexivity].
    + repeat split; try lia. destruct (Z.eq_dec q 0); [left; assumption | right].
      destruct Hn as [-> | Hn]; [lia|].
      assert (PREC - 1 < digits q) by (apply digits_gt_iff; unfold PREC in *; lia). lia.
Qed.

(** What "[r] is [v] rounded" means: a valid number, the saturated value, and
    finite exactly below the overflow threshold. *)
Definition rounds_to (r : f64) (s : bool) (v : Z) : Prop :=
  valid r /\ ext r = cond_Zopp s (Z.min FMAX v) /\ is_nan r = false /\ is_finite r = (v <? FMAX).

Lemma digits_frac a b A B j : 0 <= a -> 0 < b -> 0 < B -> 0 <= j -> 0 < a / b ->
  A * b = a * B * 2 ^ j -> digits (A / B) = digits (a / b) + j.
Proof.
  intros Ha Hb HB Hj Hm E. pose proof (pow2_pos j Hj).
  assert (HA : 0 <= A) by nia.
  pose proof (Z.mul_div_le a b Hb). pose proof (Z.mul_succ_div_gt a b Hb).
  set (m := a / b) in *. clearbody m.
  assert (Hlo : m * 2 ^ j <= A / B).
  { apply Z.div_le_lower_bound; [lia|]. apply Z.mul_le_mono_pos_r with b; [lia|]. nia. }
  assert (Hhi : A / B < (m + 1) * 2 ^ j).
  { apply Z.div_lt_upper_bound; [lia|]. apply Z.mul_lt_mono_pos_r with b; [lia|].
    rewrite E. replace (B * ((m + 1) * 2 ^ j) * b) with (b * (m + 1) * (B * 2 ^ j)) by ring.
    replace (a * B * 2 ^ j) with (a * (B * 2 ^ j)) by ring. apply Z.mul_lt_mono_pos_r; nia. }
  pose proof (digits_nonneg m). apply Z.le_antisymm.
  - apply digits_le_iff; [nia | lia |]. rewrite Z.pow_add_r by lia.
    assert (m < 2 ^ digits m) by (apply digits_le_iff; lia). nia.
  - rewrite <- digits_mul_pow2 by lia. apply digits_mono. nia.
Qed.

Lemma rexp_frac a b A B e : 0 <= a -> 0 < b -> 0 <= A -> 0 < B ->
  (a / b = 0 -> e <= - BIAS) ->
  A * b * 2 ^ Z.max 0 (- (e + BIAS)) = a * B * 2 ^ Z.max 0 (e + BIAS) ->
  rexp A B = Z.max (digits (a / b) + e - PREC) (- BIAS) + BIAS.
Proof.
  intros Ha Hb HA HB H0 E. unfold rexp. pose proof (Z.div_pos a b Ha Hb) as Hm.
  destruct (Z_le_gt_dec 0 (e + BIAS)) as [Hj | Hj].
  - rewrite (Z.max_l 0 (- _)) in E by lia. rewrite Z.max_r, Z.mul_1_r in E by lia.
    destruct (Z.eq_dec (a / b) 0) as [Hz | Hnz].
    + assert (e + BIAS = 0) by lia. rewrite H in E. change (2 ^ 0) with 1 in E. rewrite Z.mul_1_r in E.
      assert (A / B = 0) as ->.
      { apply Z.div_small_iff in Hz; [|lia]. apply Z.div_small. nia. }
      rewrite Hz. change (digits 0) with 0. unfold PREC in *. lia.
    + rewrite (digits_frac a b A B (e + BIAS)) by lia. lia.
  - rewrite Z.max_r in E by lia. rewrite (Z.max_l 0 (e + BIAS)), Z.mul_1_r in E by lia.
    set (j := - (e + BIAS)) in *. pose proof (pow2_pos j ltac:(lia)).
    assert (A / B = a / b / 2 ^ j) as ->.
    { rewrite Z.div_div by lia. apply Z.le_antisymm; apply floor_mono; nia. }
    rewrite digits_div_pow2 by lia. unfold j, PREC. lia.
Qed.

(** The last step of [binary_round_aux]: zero, a finite number or infinity. *)
Lemma pack_spec s q e : 0 <= q < 2 ^ PREC -> - BIAS <= e ->
  (q = 0 \/ Z.max (digits q + e - PREC) (- BIAS) = e) ->
  rounds_to match q with
            | Z0 => S754_zero s
            | Zpos m => if e <=? 1024 - 53 then S754_finite s m e else S754_infinity s
            | Zneg _ => S754_nan
            end s (q * 2 ^ (e + BIAS)).
Proof.
  intros Hq He Hcan. pose proof FMAX_pos. change (1024 - 53) with 971.
  destruct q as [|p|p]; [| |lia].
  - unfold rounds_to, ext, is_nan, is_finite. rewrite Z.mul_0_l, Z.min_r by lia.
    split; [reflexivity | split; [destruct s; reflexivity | split; [reflexivity|]]].
    symmetry. apply Z.ltb_lt. assumption.
  - destruct Hcan as [|Hcan]; [discriminate|].
    destruct (Z.leb_spec e 971) as [Hle | Hgt].
    + assert (V : valid (S754_finite s p e)) by (apply valid_finite; split; assumption).
      pose proof (valid_ext_lt _ _ _ V). unfold rounds_to, ext, is_nan, is_finite.
      rewrite Z.min_r by lia. split; [exact V | split; [reflexivity | split; [reflexivity|]]].
      symmetry. apply Z.ltb_lt. lia.
    + assert (Hp : 2 ^ (PREC - 1) <= Zpos p) by (apply digits_gt_iff; unfold PREC, BIAS in *; lia).
      assert (FMAX <= Zpos p * 2 ^ (e + BIAS)).
      { apply Z.le_trans with (2 ^ (PREC - 1) * 2 ^ (e + BIAS)).
        - rewrite <- Z.pow_add_r by (unfold PREC, BIAS; lia). apply Z.pow_le_mono_r; unfold PREC, BIAS; lia.
        - apply Z.mul_le_mono_nonneg_r; [|assumption]. pose proof (pow2_pos (e + BIAS)). lia. }
      unfold rounds_to, ext, is_nan, is_finite. rewrite Z.min_l by lia.
      split; [reflexivity | split; [reflexivity | split; [reflexivity|]]].
      symmetry. apply Z.ltb_ge. assumption.
Qed.

Lemma binary_round_aux_spec s m e l a b A B :
  0 <= a -> 0 < b -> 0 <= A -> 0 < B ->
  Loc (shr_record_of_loc m l) a b ->
  e <= Z.max (digits m + e - PREC) (- BIAS) ->
  A * b * 2 ^ Z.max 0 (- (e + BIAS)) = a * B * 2 ^ Z.max 0 (e + BIAS) ->
  rounds_to (binary_round_aux 53 1024 s m e l) s (rnd A B).
Proof.
  intros Ha Hb HA HB HL He E.
  assert (Hm : m = a / b) by (destruct HL as [<- _]; destruct l as [|[]]; reflexivity).
  pose proof (Z.div_pos a b Ha Hb).
  assert (H0 : a / b = 0 -> e <= - BIAS).
  { intros Hz. rewrite Hm, Hz in He. change (digits 0) with 0 in He. unfold PREC in *. lia. }
  pose proof (rexp_frac a b A B e Ha Hb HA HB H0 E) as Hk. rewrite <- Hm in Hk.
  set (e' := Z.max (digits m + e - PREC) (- BIAS)) in *.
  assert (Hbias : - BIAS <= e') by (unfold e'; lia).
  set (n := e' - e) in *. pose proof (pow2_pos n ltac:(lia)) as Hpn.
  unfold binary_round_aux. unfold shr_fexp at 1. rewrite Zdigits2_digits, fexp64 by lia.
  fold e' n. destruct (shr_Loc _ e n a b Ha Hb ltac:(lia) HL) as [HL' He'].
  destruct (shr (shr_record_of_loc m l) e n) as [mrs' e1]. cbn [fst snd] in HL', He'.
  rewrite (round_Loc mrs' a (b * 2 ^ n)) by (nia || assumption).
  replace e1 with e' in * by lia. clear e1 He'.
  assert (Hq : rne a (b * 2 ^ n) = rne A (B * 2 ^ rexp A B)).
  { symmetry. pose proof (pow2_rexp_pos A B). apply rne_prop; [nia..|].
    rewrite Hk. destruct (Z_le_gt_dec 0 (e + BIAS)) as [Hj | Hj].
    - rewrite (Z.max_l 0 (- _)) in E by lia. rewrite Z.max_r, Z.mul_1_r in E by lia.
      replace (e' + BIAS) with (n + (e + BIAS)) by lia. rewrite Z.pow_add_r by lia.
      transitivity (A * b * 2 ^ n); [ring|]. rewrite E. ring.
    - rewrite Z.max_r in E by lia. rewrite (Z.max_l 0 (e + BIAS)), Z.mul_1_r in E by lia.
      replace n with ((e' + BIAS) + - (e + BIAS)) by lia. rewrite Z.pow_add_r by lia.
      transitivity (A * b * 2 ^ (- (e + BIAS)) * 2 ^ (e' + BIAS)); [ring|]. rewrite E. ring. }
  rewrite Hq. set (q := rne A (B * 2 ^ rexp A B)) in *.
  assert (Hv : rnd A B = q * 2 ^ (e' + BIAS)) by (unfold rnd; fold q; rewrite Hk; reflexivity).
  pose proof (pow2_pos (e' + BIAS) ltac:(lia)) as Hpe.
  assert (Hqb : 0 <= q <= 2 ^ PREC).
  { pose proof (rnd_upper A B HA HB) as U. pose proof (rnd_nonneg A B HA HB).
    rewrite Hk, Hv, (Z.pow_add_r 2 PREC) in U by (clear - Hbias; unfold PREC; lia). nia. }
  assert (Hqn : e' = - BIAS \/ 2 ^ (PREC - 1) <= q).
  { destruct (Z.eq_dec e' (- BIAS)); [left; assumption | right].
    pose proof (rnd_lower A B HA HB ltac:(lia)) as L.
    rewrite Hk, Hv, (Z.pow_add_r 2 (PREC - 1)) in L by (clear - Hbias; unfold PREC; lia). nia. }
  destruct (shr_fexp_exact q e' Hqb Hbias Hqn) as (q' & e'' & -> & Hval & Hq' & Hee & Hcan).
  cbn [shr_m]. rewrite Hv, <- Hval. apply pack_spec; [assumption | lia | assumption].
Qed.

(** ** The specification of each operation *)

Lemma shl_align_ge m e e' : e <= e' -> shl_align m e e' = (m, e).
Proof. intros H. unfold shl_align. destruct (e' - e) eqn:E; [reflexivity | reflexivity | lia]. Qed.

Lemma shl_align_lt m e e' : e' <= e ->
  Zpos (fst (shl_align m e e')) = Zpos m * 2 ^ (e - e') /\ snd (shl_align m e e') = e'.
Proof.
  intros H. unfold shl_align. destruct (e' - e) eqn:E.
  - replace (e - e') with 0 by lia. cbn. lia.
  - lia.
  - replace (e - e') with (Zpos p) by lia. cbn [fst snd]. split; [|reflexivity].
    assert (K : forall n x, Zpos (Pos.iter xO x n) = Zpos x * 2 ^ Zpos n).
    { induction n as [|n IH] using Pos.peano_ind; intros x; [cbn; lia|].
      rewrite Pos.iter_succ, Pos2Z.inj_xO, IH, Pos2Z.inj_succ, Z.pow_succ_r by lia. ring. }
    apply K.
Qed.

Lemma binary_round_spec s m e : - BIAS <= e ->
  rounds_to (binary_round 53 1024 s m e) s (rnd (Zpos m * 2 ^ (e + BIAS)) 1).
Proof.
  intros He. unfold binary_round. rewrite digits_pos, fexp64.
  set (f := Z.max (digits (Zpos m) + e - PREC) (- BIAS)).
  pose proof (pow2_pos (e + BIAS) ltac:(lia)).
  destruct (Z_le_gt_dec e f) as [Hle | Hgt].
  - rewrite shl_align_ge by assumption.
    apply binary_round_aux_spec with (a := Zpos m) (b := 1);
      [lia | lia | lia | lia | apply Loc_exact; lia | exact Hle |].
    rewrite (Z.max_l 0 (- _)), Z.max_r by lia. ring.
  - destruct (shl_align_lt m e f ltac:(lia)) as [Hm Hs].
    destruct (shl_align m e f) as [mz ez]. cbn [fst snd] in Hm, Hs. subst ez.
    assert (Hf : - BIAS <= f) by lia. pose proof (pow2_pos (e - f) ltac:(lia)).
    apply binary_round_aux_spec with (a := Zpos mz) (b := 1);
      [lia | lia | lia | lia | apply Loc_exact; lia | |].
    + rewrite Hm, digits_mul_pow2 by lia. lia.
    + rewrite (Z.max_l 0 (- _)), (Z.max_r 0) by lia. rewrite Hm.
      replace (e + BIAS) with ((e - f) + (f + BIAS)) by lia. rewrite Z.pow_add_r by lia. ring.
Qed.

(** Rounding of a signed integer. *)
Definition rndz (n : Z) : Z := if n <? 0 then - rnd (- n) 1 else rnd n 1.

Definition is_sum (r : f64) (n : Z) : Prop :=
  valid r /\ ext r = Z.max (- FMAX) (Z.min FMAX (rndz n)) /\ is_nan r = false /\
  is_finite r = (Z.abs (rndz n) <? FMAX).

Lemma rnd_0 b : 0 < b -> rnd 0 b = 0.
Proof. intros. rewrite <- (Z.mul_0_l b). apply rnd_exact; [lia | assumption | reflexivity]. Qed.

Lemma binary_normalize_spec m e : - BIAS <= e ->
  is_sum (binary_normalize 53 1024 m e false) (m * 2 ^ (e + BIAS)).
Proof.
  intros He. pose proof (pow2_pos (e + BIAS) ltac:(lia)). pose proof FMAX_pos.
  unfold is_sum, rndz, binary_normalize. destruct m as [|p|p].
  - rewrite Z.mul_0_l. change (0 <? 0) with false. cbn match. rewrite rnd_0 by lia.
    split; [reflexivity | split; [cbn [ext]; lia | split; [reflexivity|]]].
    symmetry. apply Z.ltb_lt. lia.
  - destruct (binary_round_spec false p e He) as (V & X & N & F).
    pose proof (rnd_nonneg (Zpos p * 2 ^ (e + BIAS)) 1 ltac:(lia) ltac:(lia)).
    destruct (Z.ltb_spec (Zpos p * 2 ^ (e + BIAS)) 0); [lia|].
    split; [exact V | split; [rewrite X; cbn [cond_Zopp]; lia | split; [exact N|]]].
    rewrite F, Z.abs_eq by lia. reflexivity.
  - destruct (binary_round_spec true p e He) as (V & X & N & F).
    replace (Zneg p * 2 ^ (e + BIAS)) with (- (Zpos p * 2 ^ (e + BIAS))) by lia.
    destruct (Z.ltb_spec (- (Zpos p * 2 ^ (e + BIAS))) 0); [|lia]. rewrite Z.opp_involutive.
    pose proof (rnd_nonneg (Zpos p * 2 ^ (e + BIAS)) 1 ltac:(lia) ltac:(lia)).
    split; [exact V | split; [rewrite X; cbn [cond_Zopp]; lia | split; [exact N|]]].
    rewrite F, Z.abs_opp, Z.abs_eq by lia. reflexivity.
Qed.

Lemma f_of_Z_spec n : is_sum (f_of_Z n) (n * 2 ^ BIAS).
Proof. apply (binary_normalize_spec n 0). unfold BIAS. lia. Qed.

Lemma ext_finite_bound x : valid x -> is_finite x = true -> - FMAX < ext x < FMAX.
Proof.
  pose proof FMAX_pos. destruct x as [s|s| |s m e]; try discriminate; cbn [ext]; intros V _; [lia|].
  pose proof (valid_ext_lt _ _ _ V). destruct s; cbn [cond_Zopp]; lia.
Qed.

(** A valid number is representable, so rounding its value is the identity. *)
Lemma ext_representable x : valid x -> representable (Z.abs (ext x)).
Proof.
  destruct x as [s|s| |s m e]; cbn [ext]; intros V; try reflexivity.
  - replace (Z.abs (cond_Zopp s FMAX)) with FMAX by (pose proof FMAX_pos; destruct s; cbn; lia).
    exact FMAX_representable.
  - apply valid_range in V as ([? ?] & ? & _). pose proof (pow2_pos (e + BIAS) ltac:(lia)).
    replace (Z.abs _) with (Zpos m * 2 ^ (e + BIAS)) by (destruct s; cbn [cond_Zopp]; lia).
    apply representable_mul_pow2; lia.
Qed.

Lemma rndz_ext x : valid x -> rndz (ext x) = ext x.
Proof.
  intros V. pose proof (ext_representable x V) as R. unfold rndz. destruct (Z.ltb_spec (ext x) 0).
  - rewrite Z.abs_neq in R by lia. rewrite <- (Z.mul_1_r (- ext x)), rnd_exact by (lia || assumption). lia.
  - rewrite Z.abs_eq in R by lia. rewrite <- (Z.mul_1_r (ext x)) at 1. apply rnd_exact; lia || assumption.
Qed.

Lemma is_sum_id x : valid x -> is_finite x = true -> is_sum x (ext x).
Proof.
  intros V F. pose proof (ext_finite_bound x V F). unfold is_sum. rewrite rndz_ext by assumption.
  split; [exact V | split; [lia | split; [destruct x; try discriminate; reflexivity|]]].
  rewrite F. symmetry. apply Z.ltb_lt. lia.
Qed.

Lemma f_add_spec x y : valid x -> valid y -> is_finite x = true -> is_finite y = true ->
  is_sum (f_add x y) (ext x + ext y).
Proof.
  intros Vx Vy Fx Fy. destruct x as [sx|sx| |sx mx ex]; try discriminate;
    destruct y as [sy|sy| |sy my ey]; try discriminate.
  - unfold f_add, SFadd. pose proof FMAX_pos.
    assert (K : forall s, is_sum (S754_zero s) 0) by (intros s; exact (is_sum_id (S754_zero s) eq_refl eq_refl)).
    destruct sx, sy; apply K.
  - cbn [f_add SFadd]. change (ext (S754_zero sx)) with 0. rewrite Z.add_0_l. apply is_sum_id; assumption.
  - cbn [f_add SFadd]. change (ext (S754_zero sy)) with 0. rewrite Z.add_0_r. apply is_sum_id; assumption.
  - unfold f_add, SFadd. set (ez := Z.min ex ey).
    apply valid_range in Vx as ([? _] & _), Vy as ([? _] & _).
    destruct (shl_align_lt mx ex ez ltac:(lia)) as [-> _], (shl_align_lt my ey ez ltac:(lia)) as [-> _].
    replace (ext _ + ext _) with
      ((cond_Zopp sx (Zpos mx * 2 ^ (ex - ez)) + cond_Zopp sy (Zpos my * 2 ^ (ey - ez))) * 2 ^ (ez + BIAS)).
    { apply binary_normalize_spec. lia. }
    assert (K : forall e, ez <= e -> 2 ^ (e + BIAS) = 2 ^ (e - ez) * 2 ^ (ez + BIAS)).
    { intros e ?. rewrite <- Z.pow_add_r by lia. f_equal. lia. }
    cbn [ext]. rewrite (K ex), (K ey) by lia. destruct sx, sy; cbn [cond_Zopp]; ring.
Qed.

Lemma ext_opp x : ext (f_opp x) = - ext x.
Proof. destruct x as [s|s| |s m e]; cbn; try reflexivity; destruct s; cbn; lia. Qed.

Lemma f_sub_spec x y : valid x -> valid y -> is_finite x = true -> is_finite y = true ->
  is_sum (f_sub x y) (ext x - ext y).
Proof.
  intros Vx Vy Fx Fy. assert (Vy' : valid (f_opp y)) by (destruct y; exact Vy).
  assert (Fy' : is_finite (f_opp y) = true) by (destruct y; exact Fy).
  pose proof (f_add_spec x (f_opp y) Vx Vy' Fx Fy') as H. rewrite ext_opp in H.
  replace (f_sub x y) with (f_add x (f_opp y)); [exact H|].
  destruct x as [sx|sx| |sx mx ex]; try discriminate; destruct y as [sy|sy| |sy my ey]; try discriminate;
    cbn [f_opp SFopp]; unfold f_add, f_sub, SFadd, SFsub; [destruct sx, sy; reflexivity | reflexivity.. |].
  rewrite <- Z.add_opp_r. destruct sy; reflexivity.
Qed.

(** Multiplication and division of non-negative numbers. *)
Lemma f_mul_spec sx mx ex sy my ey :
  valid (S754_finite sx mx ex) -> valid (S754_finite sy my ey) ->
  rounds_to (f_mul (S754_finite sx mx ex) (S754_finite sy my ey)) (xorb sx sy)
    (rnd (Zpos mx * 2 ^ (ex + BIAS) * (Zpos my * 2 ^ (ey + BIAS))) (2 ^ BIAS)).
Proof.
  intros Vx Vy. apply valid_range in Vx as ([Ex _] & Mx & Nx), Vy as ([Ey _] & My & Ny).
  pose proof (pow2_pos (ex + BIAS) ltac:(lia)). pose proof (pow2_pos (ey + BIAS) ltac:(lia)).
  pose proof (pow2_pos BIAS ltac:(unfold BIAS; lia)).
  unfold f_mul, SFmul. rewrite Pos2Z.inj_mul.
  apply binary_round_aux_spec with (a := Zpos mx * Zpos my) (b := 1);
    [lia | lia | nia | lia | apply Loc_exact; lia | |].
  - destruct (Z_le_gt_dec (ex + ey) (- BIAS)); [lia|].
    assert (2 ^ (PREC - 1) <= Zpos mx * Zpos my) by (unfold BIAS in *; destruct Nx, Ny; nia).
    assert (PREC - 1 < digits (Zpos mx * Zpos my)) by (apply digits_gt_iff; unfold PREC in *; lia). lia.
  - rewrite Z.mul_1_r.
    transitivity (Zpos mx * Zpos my * (2 ^ (ex + BIAS) * 2 ^ (ey + BIAS) * 2 ^ Z.max 0 (- (ex + ey + BIAS))));
      [ring|].
    transitivity (Zpos mx * Zpos my * (2 ^ BIAS * 2 ^ Z.max 0 (ex + ey + BIAS))); [|ring].
    f_equal. rewrite <- !Z.pow_add_r by (unfold BIAS in *; lia). f_equal. lia.
Qed.

Lemma new_location_Loc q r d a : 0 < d -> 0 <= r < d -> a = q * d + r ->
  Loc (shr_record_of_loc q (new_location d r)) a d.
Proof.
  intros Hd Hr E. assert (Eq : a / d = q) by (symmetry; apply Z.div_unique with r; lia).
  assert (Er : a mod d = r) by (symmetry; apply Z.mod_unique with q; lia).
  unfold Loc, new_location, new_location_even, new_location_odd. rewrite Eq, Er.
  destruct (Z.even d) eqn:Ev; destruct (Z.eqb_spec r 0) as [->|N]; try (split; reflexivity).
  - destruct (Z.compare_spec (2 * r) d); cbv beta iota delta [shr_record_of_loc shr_m shr_r shr_s]; lia.
  - assert (Hodd : 2 * r <> d) by (intros <-; rewrite Z.even_mul in Ev; discriminate).
    destruct (Z.compare_spec (2 * r + 1) d);
      cbv beta iota delta [shr_record_of_loc shr_m shr_r shr_s]; lia.
Qed.

Lemma f_div_spec sx mx ex sy my ey :
  valid (S754_finite sx mx ex) -> valid (S754_finite sy my ey) ->
  rounds_to (f_div (S754_finite sx mx ex) (S754_finite sy my ey)) (xorb sx sy)
    (rnd (Zpos mx * 2 ^ (ex + BIAS) * 2 ^ BIAS) (Zpos my * 2 ^ (ey + BIAS))).
Proof.
  intros Vx Vy. apply valid_range in Vx as ([Ex _] & _ & _), Vy as ([Ey _] & _ & _).
  pose proof (pow2_pos (ex + BIAS) ltac:(lia)). pose proof (pow2_pos (ey + BIAS) ltac:(lia)).
  pose proof (pow2_pos BIAS ltac:(unfold BIAS; lia)).
  unfold f_div, SFdiv, SFdiv_core_binary. rewrite !Zdigits2_digits, fexp64 by lia.
  set (dd := digits (Zpos mx) + ex - (digits (Zpos my) + ey)).
  set (e' := Z.min (Z.max (dd - PREC) (- BIAS)) (ex - ey)). set (s := ex - ey - e').
  pose proof (pow2_pos s ltac:(lia)).
  assert (Em : (match s with 0 => Zpos mx | Zpos _ => Z.shiftl (Zpos mx) s | Zneg _ => 0 end) = Zpos mx * 2 ^ s).
  { destruct s eqn:Es; [lia | apply Z.shiftl_mul_pow2; lia | lia]. }
  rewrite Em. clear Em. set (m' := Zpos mx * 2 ^ s).
  pose proof (Z_div_mod m' (Zpos my) ltac:(lia)) as D. destruct (Z.div_eucl m' (Zpos my)) as [q r].
  destruct D as [D Hr]. assert (Hm' : 0 < m') by (unfold m'; lia).
  assert (Hq : 0 <= q) by nia.
  apply binary_round_aux_spec with (a := m') (b := Zpos my);
    [lia | lia | lia | lia | apply new_location_Loc; lia | |].
  - assert (Hd : digits (Zpos mx) + s <= digits (Zpos my) + digits q).
    { unfold m' in *. rewrite <- digits_mul_pow2 by lia. fold m'.
      apply digits_le_iff; [lia | pose proof (digits_nonneg (Zpos my)); pose proof (digits_nonneg q); lia |].
      rewrite Z.pow_add_r by apply digits_nonneg.
      assert (Zpos my < 2 ^ digits (Zpos my)) by (apply digits_le_iff; try apply digits_nonneg; lia).
      assert (q < 2 ^ digits q) by (apply digits_le_iff; try apply digits_nonneg; lia). nia. }
    lia.
  - unfold m'.
    transitivity (Zpos mx * Zpos my * (2 ^ (ex + BIAS) * 2 ^ BIAS * 2 ^ Z.max 0 (- (e' + BIAS)))); [ring|].
    transitivity (Zpos mx * Zpos my * (2 ^ s * 2 ^ (ey + BIAS) * 2 ^ Z.max 0 (e' + BIAS))); [|ring].
    f_equal. rewrite <- !Z.pow_add_r by (unfold BIAS in *; lia). f_equal. lia.
Qed.

(** ** Comparison is comparison of values *)

Lemma pos_lex m1 e1 m2 e2 :
  valid (S754_finite false m1 e1) -> valid (S754_finite false m2 e2) -> e1 < e2 ->
  Zpos m1 * 2 ^ (e1 + BIAS) < Zpos m2 * 2 ^ (e2 + BIAS).
Proof.
  intros V1 V2 H. apply valid_range in V1 as ([? ?] & ? & _), V2 as ([? ?] & _ & [?|Hn]); [lia|].
  pose proof (pow2_pos (e1 + BIAS) ltac:(lia)).
  apply Z.lt_le_trans with (2 ^ PREC * 2 ^ (e1 + BIAS)); [apply Z.mul_lt_mono_pos_r; lia|].
  apply Z.le_trans with (2 ^ (PREC - 1) * 2 ^ (e2 + BIAS)).
  - rewrite <- !Z.pow_add_r by (unfold PREC; lia). apply Z.pow_le_mono_r; unfold PREC; lia.
  - apply Z.mul_le_mono_nonneg_r; [pose proof (pow2_pos (e2 + BIAS)); lia | exact Hn].
Qed.

Lemma pos_compare m1 e1 m2 e2 :
  valid (S754_finite false m1 e1) -> valid (S754_finite false m2 e2) ->
  match e1 ?= e2 with Lt => Lt | Gt => Gt | Eq => Pos.compare_cont Eq m1 m2 end =
  (Zpos m1 * 2 ^ (e1 + BIAS) ?= Zpos m2 * 2 ^ (e2 + BIAS)).
Proof.
  intros V1 V2. symmetry. destruct (Z.compare_spec e1 e2) as [-> | H | H].
  - apply valid_range in V1 as ([? ?] & _). pose proof (pow2_pos (e2 + BIAS) ltac:(lia)).
    rewrite <- Zmult_compare_compat_r by lia. reflexivity.
  - apply Z.compare_lt_iff. apply pos_lex; assumption.
  - apply Z.compare_gt_iff. apply pos_lex; assumption.
Qed.

Lemma f_cmp_ext x y : valid x -> valid y -> is_nan x = false -> is_nan y = false ->
  SFcompare x y = Some (ext x ?= ext y).
Proof.
  intros Vx Vy Nx Ny. pose proof FMAX_pos.
  assert (B : forall z, valid z -> is_finite z = true -> - FMAX < ext z < FMAX) by (apply ext_finite_bound).
  destruct x as [sx|sx| |sx mx ex]; try discriminate; destruct y as [sy|sy| |sy my ey]; try discriminate;
    unfold SFcompare; f_equal; symmetry;
    try (pose proof (B _ Vx eq_refl)); try (pose proof (B _ Vy eq_refl));
    try (pose proof (valid_ext_lt _ _ _ Vx)); try (pose proof (valid_ext_lt _ _ _ Vy)).
  all: try (destruct sx); try (destruct sy); cbn [ext cond_Zopp] in *;
    try (first [apply Z.compare_eq_iff | apply Z.compare_lt_iff | apply Z.compare_gt_iff]; lia).
  - rewrite Z.compare_opp, <- pos_compare by assumption. rewrite Z.compare_antisym.
    destruct (ex ?= ey) eqn:E; cbn; try reflexivity. apply Pos.compare_antisym.
  - symmetry. apply pos_compare; assumption.
Qed.

Lemma f_le_spec x y : valid x -> valid y ->
  (f_le x y = true <-> is_nan x = false /\ is_nan y = false /\ ext x <= ext y).
Proof.
  intros Vx Vy. unfold f_le, SFleb. destruct (is_nan x) eqn:Nx.
  { destruct x; try discriminate. cbn. split; [discriminate | intros [? _]; discriminate]. }
  destruct (is_nan y) eqn:Ny.
  { destruct y; try discriminate. destruct x; cbn; (split; [discriminate | intros (_ & ? & _); discriminate]). }
  rewrite f_cmp_ext by assumption. rewrite <- Z.compare_le_iff.
  destruct (ext x ?= ext y); split; try discriminate; try tauto.
  - intros _. repeat split. discriminate.
  - intros _. repeat split. discriminate.
Qed.

Lemma f_lt_spec x y : valid x -> valid y ->
  (f_lt x y = true <-> is_nan x = false /\ is_nan y = false /\ ext x < ext y).
Proof.
  intros Vx Vy. unfold f_lt, SFltb. destruct (is_nan x) eqn:Nx.
  { destruct x; try discriminate. cbn. split; [discriminate | intros [? _]; discriminate]. }
  destruct (is_nan y) eqn:Ny.
  { destruct y; try discriminate. destruct x; cbn; (split; [discriminate | intros (_ & ? & _); discriminate]). }
  rewrite f_cmp_ext by assumption. rewrite <- Z.compare_lt_iff.
  destruct (ext x ?= ext y); split; try discriminate; try tauto; intros (_ & _ & ?); discriminate.
Qed.

(** ** Numbers and non-negative numbers

    [num x]: a valid datum that is not NaN; [nn x]: also not below zero
    ([-0.0] and [+inf] included). *)

Definition num (x : f64) : Prop := valid x /\ is_nan x = false.
Definition nn (x : f64) : Prop := num x /\ 0 <= ext x.
Definition fin (x : f64) : Prop := valid x /\ is_finite x = true.

Lemma fin_num x : fin x -> num x.
Proof. intros [V F]. split; [exact V | destruct x; try discriminate; reflexivity]. Qed.

Lemma num_range x : num x -> - FMAX <= ext x <= FMAX.
Proof.
  intros [V N]. pose proof FMAX_pos. destruct (is_finite x) eqn:F.
  - pose proof (ext_finite_bound x V F). lia.
  - destruct x as [|[|]| |]; try discriminate; cbn [ext cond_Zopp]; lia.
Qed.

Lemma num_fin_iff x : num x -> (is_finite x = true <-> - FMAX < ext x < FMAX).
Proof.
  intros [V N]. split; [apply ext_finite_bound; assumption|].
  pose proof FMAX_pos. destruct x as [|[|]| |]; try discriminate; cbn [ext cond_Zopp is_finite]; intros; try reflexivity; lia.
Qed.

Lemma le_num x y : num x -> num y -> f_le x y = (ext x <=? ext y).
Proof.
  intros [Vx Nx] [Vy Ny]. pose proof (f_le_spec x y Vx Vy) as H.
  destruct (f_le x y); destruct (Z.leb_spec (ext x) (ext y)); try reflexivity; exfalso.
  - destruct (proj1 H eq_refl) as (_ & _ & ?). lia.
  - destruct H as [_ H]. discriminate H. auto.
Qed.

Lemma lt_num x y : num x -> num y -> f_lt x y = (ext x <? ext y).
Proof.
  intros [Vx Nx] [Vy Ny]. pose proof (f_lt_spec x y Vx Vy) as H.
  destruct (f_lt x y); destruct (Z.ltb_spec (ext x) (ext y)); try reflexivity; exfalso.
  - destruct (proj1 H eq_refl) as (_ & _ & ?). lia.
  - destruct H as [_ H]. discriminate H. auto.
Qed.

Lemma f_max_num x y : num x -> num y -> num (f_max x y) /\ ext (f_max x y) = Z.max (ext x) (ext y).
Proof.
  intros Hx Hy. unfold f_max. rewrite (proj2 Hx), (proj2 Hy), lt_num by assumption.
  destruct (Z.ltb_spec (ext x) (ext y)); split; assumption || lia.
Qed.

Lemma f_min_num x y : num x -> num y -> num (f_min x y) /\ ext (f_min x y) = Z.min (ext x) (ext y).
Proof.
  intros Hx Hy. unfold f_min. rewrite (proj2 Hx), (proj2 Hy), lt_num by assumption.
  destruct (Z.ltb_spec (ext y) (ext x)); split; assumption || lia.
Qed.

(** [max] with a number is a number even when the other operand is NaN. *)
Lemma f_max_valid x y : valid x -> num y -> num (f_max x y) /\ ext y <= ext (f_max x y).
Proof.
  intros Vx Hy. destruct (is_nan x) eqn:N.
  - unfold f_max. rewrite N. split; [exact Hy | lia].
  - destruct (f_max_num x y (conj Vx N) Hy) as [? ->]. split; [assumption | lia].
Qed.

Lemma f_clamp_num x lo hi : num x -> num lo -> num hi -> ext lo <= ext hi ->
  num (f_clamp x lo hi) /\ ext (f_clamp x lo hi) = Z.max (ext lo) (Z.min (ext hi) (ext x)).
Proof.
  intros Hx Hlo Hhi Hle. unfold f_clamp, f_gt. rewrite (lt_num x lo) by assumption.
  destruct (Z.ltb_spec (ext x) (ext lo)).
  - change (SFltb hi lo) with (f_lt hi lo). rewrite lt_num by assumption.
    destruct (Z.ltb_spec (ext hi) (ext lo)); split; assumption || lia.
  - change (SFltb hi x) with (f_lt hi x). rewrite lt_num by assumption.
    destruct (Z.ltb_spec (ext hi) (ext x)); split; assumption || lia.
Qed.

Lemma is_sum_fin r n : is_sum r n -> - FMAX < rndz n < FMAX -> fin r /\ ext r = rndz n.
Proof.
  intros (V & X & N & F) H. split; [split; [exact V | rewrite F; apply Z.ltb_lt; lia] | lia].
Qed.

Lemma is_sum_num r n : is_sum r n -> num r.
Proof. intros (V & _ & N & _). split; assumption. Qed.

Lemma rndz_nonneg n : 0 <= n -> rndz n = rnd n 1 /\ 0 <= rndz n.
Proof. intros. unfold rndz. destruct (Z.ltb_spec n 0); [lia|]. split; [reflexivity | apply rnd_nonneg; lia]. Qed.

(** Addition of non-negative numbers: never NaN, saturating rounding. *)
Lemma f_add_nn x y : nn x -> nn y ->
  nn (f_add x y) /\ ext (f_add x y) = Z.min FMAX (rnd (ext x + ext y) 1).
Proof.
  intros [[Vx Nx] Px] [[Vy Ny] Py]. pose proof FMAX_pos.
  assert (Hinf : forall v, FMAX <= v -> FMAX <= rnd v 1).
  { intros v Hv. rewrite <- (rnd_exact FMAX 1) at 1; [|lia | lia | exact FMAX_representable].
    apply rnd_mono; lia. }
  destruct (is_finite x) eqn:Fx; destruct (is_finite y) eqn:Fy.
  - destruct (f_add_spec x y Vx Vy Fx Fy) as (V & X & N & F).
    destruct (rndz_nonneg (ext x + ext y) ltac:(lia)) as [E P]. rewrite E in *.
    split; [split; [split; assumption | lia] | lia].
  - destruct y as [|[|]| |]; try discriminate; cbn [ext cond_Zopp] in *; [lia|].
    assert (f_add x (S754_infinity false) = S754_infinity false) as -> by (destruct x; try discriminate; reflexivity).
    cbn [ext cond_Zopp]. rewrite Z.min_l by (apply Hinf; lia). split; [split; [split; reflexivity | cbn; lia] | reflexivity].
  - destruct x as [|[|]| |]; try discriminate; cbn [ext cond_Zopp] in *; [lia|].
    assert (f_add (S754_infinity false) y = S754_infinity false) as -> by (destruct y; try discriminate; reflexivity).
    cbn [ext cond_Zopp]. rewrite Z.min_l by (apply Hinf; lia). split; [split; [split; reflexivity | cbn; lia] | reflexivity].
  - destruct x as [|[|]| |]; try discriminate; cbn [ext cond_Zopp] in *; [lia|].
    destruct y as [|[|]| |]; try discriminate; cbn [ext cond_Zopp] in *; [lia|].
    rewrite Z.min_l by (apply Hinf; lia). split; [split; [split; reflexivity | cbn; lia] | reflexivity].
Qed.

Lemma rounds_to_pos r v : 0 <= v -> rounds_to r false v -> nn r /\ ext r = Z.min FMAX v.
Proof.
  intros Hv (V & X & N & F). pose proof FMAX_pos. cbn [cond_Zopp] in X.
  split; [split; [split; assumption | lia] | exact X].
Qed.

Lemma rounds_to_neg r v : v = 0 \/ 0 <= v -> rounds_to r true v -> ext r <= 0.
Proof. intros Hv (V & X & N & F). pose proof FMAX_pos. cbn [cond_Zopp] in X. lia. Qed.

Lemma nn_zero_or x : nn x -> is_finite x = true ->
  (exists s, x = S754_zero s) \/ (exists m e, x = S754_finite false m e).
Proof.
  intros [[V N] P] F. destruct x as [s|s| |[] m e]; try discriminate; [left; eauto | | right; eauto].
  exfalso. pose proof (valid_ext_lt _ _ _ V). cbn [ext cond_Zopp] in P. lia.
Qed.

Lemma f_mul_nn x y : nn x -> nn y -> is_finite x = true -> is_finite y = true ->
  nn (f_mul x y) /\ ext (f_mul x y) = Z.min FMAX (rnd (ext x * ext y) (2 ^ BIAS)).
Proof.
  intros Hx Hy Fx Fy. pose proof FMAX_pos. pose proof (pow2_pos BIAS ltac:(unfold BIAS; lia)).
  assert (Z0 : forall s, nn (S754_zero s) /\ ext (S754_zero s) = Z.min FMAX (rnd 0 (2 ^ BIAS))).
  { intros s. rewrite rnd_0, Z.min_r by lia. split; [split; [split; reflexivity | cbn; lia] | reflexivity]. }
  destruct (nn_zero_or x Hx Fx) as [[sx ->] | (mx & ex & ->)], (nn_zero_or y Hy Fy) as [[sy ->] | (my & ey & ->)];
    try (change (ext (S754_zero sx)) with 0); try (change (ext (S754_zero sy)) with 0);
    rewrite ?Z.mul_0_l, ?Z.mul_0_r; try (apply Z0).
  - destruct Hx as [[Vx _] _], Hy as [[Vy _] _].
    pose proof (valid_ext_lt _ _ _ Vx). pose proof (valid_ext_lt _ _ _ Vy).
    apply rounds_to_pos; [apply rnd_nonneg; cbn [ext cond_Zopp]; nia |].
    exact (f_mul_spec _ _ _ _ _ _ Vx Vy).
Qed.

Lemma f_div_nn x y : nn x -> nn y -> is_finite x = true -> is_finite y = true -> 0 < ext y ->
  nn (f_div x y) /\ ext (f_div x y) = Z.min FMAX (rnd (ext x * 2 ^ BIAS) (ext y)).
Proof.
  intros Hx Hy Fx Fy Py. pose proof FMAX_pos. pose proof (pow2_pos BIAS ltac:(unfold BIAS; lia)).
  destruct (nn_zero_or y Hy Fy) as [[sy ->] | (my & ey & ->)]; [cbn in Py; lia|].
  destruct (nn_zero_or x Hx Fx) as [[sx ->] | (mx & ex & ->)].
  - change (ext (S754_zero sx)) with 0. rewrite Z.mul_0_l, rnd_0, Z.min_r by lia.
    cbn [f_div SFdiv]. split; [split; [split; reflexivity | cbn; lia] | reflexivity].
  - destruct Hx as [[Vx _] _], Hy as [[Vy _] _].
    pose proof (valid_ext_lt _ _ _ Vx). pose proof (valid_ext_lt _ _ _ Vy).
    apply rounds_to_pos; [apply rnd_nonneg; cbn [ext cond_Zopp]; nia |].
    exact (f_div_spec _ _ _ _ _ _ Vx Vy).
Qed.

(** ** [total_cmp] is a total order *)

Lemma lex3_spec a b : CompareSpec (a = b)
  (fst (fst a) < fst (fst b) \/ fst (fst a) = fst (fst b) /\ (snd (fst a) < snd (fst b) \/ snd (fst a) = snd (fst b) /\ snd a < snd b))
  (fst (fst b) < fst (fst a) \/ fst (fst b) = fst (fst a) /\ (snd (fst b) < snd (fst a) \/ snd (fst b) = snd (fst a) /\ snd b < snd a))
  (lex3 a b).
Proof.
  destruct a as [[a1 a2] a3], b as [[b1 b2] b3]. cbn [lex3 fst snd].
  destruct (Z.compare_spec a1 b1); [subst| |]; try (constructor; lia).
  destruct (Z.compare_spec a2 b2); [subst| |]; try (constructor; lia).
  destruct (Z.compare_spec a3 b3); [subst| |]; constructor; lia || reflexivity.
Qed.

(** On numbers that are not NaN, [total_cmp] refines the order of values. *)
Lemma total_cmp_lt x y : num x -> num y -> ext x < ext y -> total_cmp x y = Lt.
Proof.
  intros [Vx Nx] [Vy Ny] H. pose proof (f_cmp_ext x y Vx Vy Nx Ny) as C.
  rewrite (proj2 (Z.compare_lt_iff _ _) H) in C. clear H.
  destruct x as [[]|[]| |[] mx ex]; try discriminate; destruct y as [[]|[]| |[] my ey]; try discriminate;
    try reflexivity; injection C as C; unfold total_cmp, total_rank, lex3.
  - change (-1 ?= -1) with Eq. cbn match. rewrite Z.compare_opp, (Z.compare_antisym ex ey).
    destruct (ex ?= ey); cbn in C |- *; solve [congruence | exact C].
  - change (1 ?= 1) with Eq. cbn match. destruct (ex ?= ey); cbn in C |- *; solve [congruence | exact C].
Qed.

Lemma total_cmp_refl x : total_cmp x x = Eq.
Proof. unfold total_cmp. destruct (lex3_spec (total_rank x) (total_rank x)); [reflexivity | lia | lia]. Qed.

Lemma total_cmp_sym x y : total_cmp y x = CompOpp (total_cmp x y).
Proof.
  unfold total_cmp, lex3. destruct (total_rank x) as [[a1 a2] a3], (total_rank y) as [[b1 b2] b3].
  rewrite (Z.compare_antisym a1), (Z.compare_antisym a2), (Z.compare_antisym a3).
  destruct (a1 ?= b1), (a2 ?= b2); reflexivity.
Qed.

Lemma total_cmp_trans x y z : total_cmp x y <> Gt -> total_cmp y z <> Gt -> total_cmp x z <> Gt.
Proof.
  unfold total_cmp. destruct (lex3_spec (total_rank x) (total_rank y)) as [-> | H | H]; [trivial| |congruence].
  destruct (lex3_spec (total_rank y) (total_rank z)) as [E | H' | H']; [rewrite E in H| |congruence];
    intros _ _; destruct (lex3_spec (total_rank x) (total_rank z)); try discriminate; lia.
Qed.

Lemma total_cmp_eq_l x y z : total_cmp x y = Eq -> total_cmp x z = total_cmp y z.
Proof.
  unfold total_cmp. destruct (lex3_spec (total_rank x) (total_rank y)) as [-> | |]; congruence.
Qed.

(** ** Integers and the scale *)

(** One unit, in units of [2^-1074]. *)
Definition ONE : Z := 2 ^ BIAS.

Lemma ONE_pos : 0 < ONE.
Proof. apply pow2_pos. unfold BIAS. lia. Qed.

Lemma ext_f_one : ext f_one = ONE.
Proof. vm_compute. reflexivity. Qed.

Lemma f_one_fin : fin f_one.
Proof. split; reflexivity. Qed.

Lemma f_of_Z_nn n : 0 <= n <= 2 ^ 128 ->
  nn (f_of_Z n) /\ is_finite (f_of_Z n) = true /\ ext (f_of_Z n) = rnd (n * ONE) 1.
Proof.
  intros Hn. pose proof ONE_pos. destruct (rndz_nonneg (n * ONE) ltac:(nia)) as [E P].
  assert (U : rnd (n * ONE) 1 <= 2 ^ 128 * ONE).
  { rewrite <- (rnd_exact (2 ^ 128 * ONE) 1); [|nia|lia|].
    - apply rnd_mono; nia.
    - unfold ONE, BIAS. rewrite <- Z.pow_add_r by lia. rewrite <- (Z.mul_1_l (2 ^ _)).
      apply representable_mul_pow2; unfold PREC; lia. }
  assert (L : 2 ^ 128 * ONE < FMAX).
  { unfold ONE, FMAX, BIAS. rewrite <- Z.pow_add_r by lia. apply Z.pow_lt_mono_r; lia. }
  destruct (is_sum_fin _ _ (f_of_Z_spec n)) as [F X]; [fold ONE; pose proof FMAX_pos; lia|].
  fold ONE in X. rewrite E in X. rewrite X.
  split; [split; [apply fin_num, F | lia] | split; [apply F | reflexivity]].
Qed.

Lemma rnd_int n : 0 <= n <= 2 ^ PREC -> rnd (n * ONE) 1 = n * ONE.
Proof.
  intros H. pose proof ONE_pos. rewrite <- (Z.mul_1_r (n * ONE)) at 1. apply rnd_exact; [nia | lia |].
  apply representable_mul_pow2; [exact H | unfold BIAS; lia].
Qed.

Lemma f_of_Z_exact n : 0 <= n <= 2 ^ PREC ->
  nn (f_of_Z n) /\ is_finite (f_of_Z n) = true /\ ext (f_of_Z n) = n * ONE.
Proof.
  intros H. destruct (f_of_Z_nn n) as (N & F & X); [unfold PREC in H; lia|].
  rewrite rnd_int in X by exact H. auto.
Qed.

(** A rounded sum of non-negative numbers is at least each of them. *)
Lemma rnd_representable_id n : 0 <= n -> representable n -> rnd n 1 = n.
Proof. intros H R. rewrite <- (Z.mul_1_r n) at 1. apply rnd_exact; [exact H | lia | exact R]. Qed.

Lemma nn_representable x : nn x -> rnd (ext x) 1 = ext x.
Proof.
  intros [[V _] P]. apply rnd_representable_id; [exact P|].
  rewrite <- (Z.abs_eq (ext x)) by exact P. apply ext_representable, V.
Qed.

Lemma f_add_ge_l x y : nn x -> nn y -> ext x <= ext (f_add x y).
Proof.
  intros Hx Hy. destruct (f_add_nn x y Hx Hy) as [_ ->].
  pose proof (num_range x (proj1 Hx)). apply Z.min_glb; [lia|].
  rewrite <- (nn_representable x Hx) at 1. apply rnd_mono; destruct Hx, Hy; lia.
Qed.

Lemma f_add_ge_r x y : nn x -> nn y -> ext y <= ext (f_add x y).
Proof.
  intros Hx Hy. destruct (f_add_nn x y Hx Hy) as [_ ->].
  pose proof (num_range y (proj1 Hy)). apply Z.min_glb; [lia|].
  rewrite <- (nn_representable y Hy) at 1. apply rnd_mono; destruct Hx, Hy; lia.
Qed.

Lemma f_add_mono x y x' y' : nn x -> nn y -> nn x' -> nn y' -> ext x <= ext x' -> ext y <= ext y' ->
  ext (f_add x y) <= ext (f_add x' y').
Proof.
  intros Hx Hy Hx' Hy' L1 L2. destruct (f_add_nn x y Hx Hy) as [_ ->], (f_add_nn x' y' Hx' Hy') as [_ ->].
  apply Z.min_le_compat_l. apply rnd_mono; destruct Hx, Hy; lia.
Qed.

Lemma f_mul_mono x y x' y' : nn x -> nn y -> nn x' -> nn y' ->
  is_finite x' = true -> is_finite y' = true -> ext x <= ext x' -> ext y <= ext y' ->
  ext (f_mul x y) <= ext (f_mul x' y').
Proof.
  intros Hx Hy Hx' Hy' Fx' Fy' L1 L2. destruct Hx as [Nx Px] eqn:E1, Hy as [Ny Py] eqn:E2. clear E1 E2.
  assert (Fx : is_finite x = true).
  { apply num_fin_iff in Fx'; [|apply Hx']. apply num_fin_iff; [exact Nx | lia]. }
  assert (Fy : is_finite y = true).
  { apply num_fin_iff in Fy'; [|apply Hy']. apply num_fin_iff; [exact Ny | lia]. }
  destruct (f_mul_nn x y (conj Nx Px) (conj Ny Py) Fx Fy) as [_ ->], (f_mul_nn x' y' Hx' Hy' Fx' Fy') as [_ ->].
  pose proof (pow2_pos BIAS ltac:(unfold BIAS; lia)).
  apply Z.min_le_compat_l, rnd_mono; [nia | lia | lia |]. apply Z.mul_le_mono_nonneg_r; [lia | nia].
Qed.

Lemma rndz_mono a b : a <= b -> rndz a <= rndz b.
Proof.
  intros H. unfold rndz. destruct (Z.ltb_spec a 0), (Z.ltb_spec b 0); try lia.
  - pose proof (rnd_mono (- b) 1 (- a) 1 ltac:(lia) ltac:(lia) ltac:(lia) ltac:(lia)). lia.
  - pose proof (rnd_nonneg (- a) 1 ltac:(lia) ltac:(lia)). pose proof (rnd_nonneg b 1 ltac:(lia) ltac:(lia)). lia.
  - apply rnd_mono; lia.
Qed.

Lemma rndz_error n : Z.abs (rndz n - n) * 2 ^ PREC <= Z.abs n.
Proof.
  unfold rndz. destruct (Z.ltb_spec n 0).
  - pose proof (rnd_error_int (- n) ltac:(lia)). unfold PREC in *. lia.
  - pose proof (rnd_error_int n ltac:(lia)). unfold PREC in *. lia.
Qed.

(** The sum or difference of two finite numbers whose exact value lies between
    two doubles lies between them too. *)
Lemma is_sum_between r n lo hi : is_sum r n -> fin lo -> fin hi -> ext lo <= n <= ext hi ->
  fin r /\ ext r = rndz n /\ ext lo <= ext r <= ext hi.
Proof.
  intros HS Hlo Hhi H. pose proof (rndz_mono _ _ (proj1 H)) as L. pose proof (rndz_mono _ _ (proj2 H)) as U.
  rewrite rndz_ext in L by apply Hlo. rewrite rndz_ext in U by apply Hhi.
  pose proof (ext_finite_bound lo (proj1 Hlo) (proj2 Hlo)). pose proof (ext_finite_bound hi (proj1 Hhi) (proj2 Hhi)).
  destruct (is_sum_fin r n HS) as [F E]; [lia|]. split; [exact F | split; [exact E | lia]].
Qed.

Lemma ext_abs x : ext (f_abs x) = Z.abs (ext x).
Proof.
  pose proof FMAX_pos. destruct x as [s|[]| |s m e]; cbn [f_abs SFabs ext cond_Zopp]; try lia.
  pose proof (Z.pow_nonneg 2 (e + BIAS) ltac:(lia)). destruct s; cbn [cond_Zopp]; lia.
Qed.

Lemma f_abs_nn x : num x -> nn (f_abs x).
Proof.
  intros [V N]. pose proof (ext_abs x). split; [|lia]. destruct x as [| | |]; try discriminate; split; assumption || reflexivity.
Qed.
