(* ===== verification/F64Facts.v ===== *)
(** * Bounds on doubles

    Consequences of the rounding theorems of [F64] in the form the components
    use them: comparisons of a rounded value with a representable one, error
    bounds at a given scale, and closure properties of non-negative numbers. *)

From stdpp Require Import base list.
From Stdlib Require Import ZArith Lia SpecFloat.
From S2P Require Import Prelude Rounding F64.

Open Scope Z_scope.

Lemma rnd_le_representable a b n : 0 <= a -> 0 < b -> 0 <= n -> representable n -> a <= n * b -> rnd a b <= n.
Proof. intros Ha Hb Hn HR H. rewrite <- (rnd_exact n b Hn Hb HR). apply rnd_mono; nia. Qed.

Lemma rnd_ge_representable a b n : 0 <= a -> 0 < b -> 0 <= n -> representable n -> n * b <= a -> n <= rnd a b.
Proof. intros Ha Hb Hn HR H. rewrite <- (rnd_exact n b Hn Hb HR) at 1. apply rnd_mono; nia. Qed.

Lemma rnd_sum_error n : 0 <= n <= 2 ^ 54 * ONE -> rnd n 1 <= n + 2 * ONE.
Proof. intros H. pose proof (rnd_error_int n ltac:(lia)). unfold PREC in *. lia. Qed.

Lemma rnd_frac_error a b : 0 <= a <= 2 ^ 53 * ONE -> 0 < b -> a - ONE * b <= rnd a b * b <= a + ONE * b.
Proof.
  intros Ha Hb. pose proof ONE_pos. destruct (rnd_error a b ltac:(lia) Hb) as [H1 | E].
  - unfold PREC in *. nia.
  - unfold rnd. rewrite E, Z.mul_1_r, Z.mul_1_r. pose proof (rne_bounds a b Hb). nia.
Qed.

Lemma rnd_double a b : 0 < b <= a -> rnd a b * b <= 2 * a.
Proof.
  intros H. destruct (rnd_error a b ltac:(lia) ltac:(lia)) as [H1 | E].
  - unfold PREC in *. lia.
  - unfold rnd. rewrite E, Z.mul_1_r, Z.mul_1_r. pose proof (rne_bounds a b ltac:(lia)). lia.
Qed.

Lemma representable_nn x k : nn x -> 0 <= k -> representable (ext x * 2 ^ k).
Proof.
  intros [[V N] P] Hk. pose proof (pow2_pos k Hk). destruct x as [s|[]| |[] m e]; try discriminate.
  - reflexivity.
  - exfalso. vm_compute in P. by apply P.
  - change (ext _) with FMAX. unfold FMAX. rewrite <- Z.pow_add_r by lia. rewrite <- (Z.mul_1_l (2 ^ _)).
    apply representable_mul_pow2; unfold PREC; lia.
  - exfalso. pose proof (valid_ext_lt _ _ _ V). cbn [ext cond_Zopp] in P. lia.
  - cbn [ext cond_Zopp]. apply valid_range in V as ([Ve _] & Vm & _). rewrite <- Z.mul_assoc, <- Z.pow_add_r by lia.
    apply representable_mul_pow2; lia.
Qed.

Lemma pow2_ONE_representable k : 0 <= k -> representable (2 ^ k * ONE).
Proof.
  intros Hk. unfold ONE. rewrite <- Z.pow_add_r by (unfold BIAS; lia). rewrite <- (Z.mul_1_l (2 ^ _)).
  apply representable_mul_pow2; unfold PREC, BIAS; lia.
Qed.

(** Division by a positive number that may be infinite. *)
Lemma f_div_pos x y : nn x -> nn y -> is_finite x = true -> 0 < ext y ->
  nn (f_div x y) /\ ext (f_div x y) <= rnd (ext x * ONE) (ext y) /\
  (is_finite y = true -> ext (f_div x y) = Z.min FMAX (rnd (ext x * ONE) (ext y))).
Proof.
  intros Hx Hy Fx Py. pose proof ONE_pos. destruct (is_finite y) eqn:Fy.
  - destruct (f_div_nn x y Hx Hy Fx Fy Py) as [N E]. fold ONE in E. rewrite E. split; [exact N | split; [lia | done]].
  - destruct Hx as [Hx Px]. assert (E : f_div x y = S754_zero (match x, y with
      | S754_zero s, S754_infinity s' | S754_finite s _ _, S754_infinity s' => xorb s s' | _, _ => false end)).
    { destruct Hy as [[_ Ny] _]. destruct x, y; try discriminate; reflexivity. }
    rewrite E. cbn [ext]. pose proof (rnd_nonneg (ext x * ONE) (ext y) ltac:(nia) Py).
    split; [split; [split; reflexivity | cbn; lia] | split; [lia | done]].
Qed.

Lemma small_finite x k : nn x -> 0 <= k <= 1000 -> ext x <= 2 ^ k * ONE -> is_finite x = true.
Proof.
  intros Hx Hk H. apply num_fin_iff; [apply Hx|]. destruct Hx as [_ P]. pose proof FMAX_pos.
  assert (2 ^ k * ONE < FMAX); [|lia]. unfold ONE, FMAX, BIAS. rewrite <- Z.pow_add_r by lia.
  apply Z.pow_lt_mono_r; lia.
Qed.

(** The product of two numbers of at least one, with powers of two as bounds. *)
Lemma f_mul_pow2 x y i j : nn x -> nn y -> 0 <= i <= 400 -> 0 <= j <= 400 ->
  ONE <= ext x <= 2 ^ i * ONE -> ONE <= ext y <= 2 ^ j * ONE ->
  nn (f_mul x y) /\ ONE <= ext (f_mul x y) <= 2 ^ (i + j) * ONE /\ ext (f_mul x y) = rnd (ext x * ext y) ONE.
Proof.
  intros Hx Hy Hi Hj Lx Ly. pose proof ONE_pos.
  destruct (f_mul_nn x y Hx Hy) as [N E]; [eapply (small_finite x i); [done|lia|lia] | eapply (small_finite y j); [done|lia|lia] |].
  fold ONE in E. set (v := rnd (ext x * ext y) ONE) in *.
  assert (Hv : ONE <= v <= 2 ^ (i + j) * ONE).
  { pose proof (pow2_pos i ltac:(lia)). pose proof (pow2_pos j ltac:(lia)).
    assert (Hub : ext x * ext y <= (2 ^ i * ONE) * (2 ^ j * ONE)) by (apply Z.mul_le_mono_nonneg; lia).
    assert (Hlb : ONE * ONE <= ext x * ext y) by (apply Z.mul_le_mono_nonneg; lia).
    split; subst v.
    - apply rnd_ge_representable; [lia..| |exact Hlb].
      rewrite <- (Z.mul_1_l ONE). apply (pow2_ONE_representable 0). lia.
    - rewrite Z.pow_add_r by lia. apply rnd_le_representable; [lia..| |].
      + rewrite <- Z.pow_add_r by lia. apply pow2_ONE_representable. lia.
      + lia. }
  assert (2 ^ (i + j) * ONE < FMAX).
  { unfold ONE, FMAX, BIAS. rewrite <- Z.pow_add_r by lia. apply Z.pow_lt_mono_r; lia. }
  rewrite Z.min_r in E by lia. split; [exact N|]. rewrite E. split; [exact Hv | done].
Qed.

Lemma f_one_nn : nn f_one.
Proof. split; [split; reflexivity | vm_compute; congruence]. Qed.

Lemma f_mul_one x : nn x -> is_finite x = true ->
  nn (f_mul x f_one) /\ is_finite (f_mul x f_one) = true /\ ext (f_mul x f_one) = ext x.
Proof.
  intros Hx Fx. destruct (f_mul_nn x f_one Hx f_one_nn Fx eq_refl) as [N E]. fold ONE in E. pose proof ONE_pos.
  pose proof (proj1 (num_fin_iff x (proj1 Hx)) Fx). rewrite ext_f_one in E.
  rewrite rnd_exact in E; [|apply Hx | lia | rewrite <- (Z.abs_eq (ext x)) by apply Hx; apply ext_representable, Hx].
  rewrite Z.min_r in E by lia. split_and!; [done | | done]. apply num_fin_iff; [apply N | lia].
Qed.

Lemma f_sub_nn x y : nn x -> num y -> is_finite y = true -> ext y <= ext x -> nn (f_sub x y).
Proof.
  intros [[Vx Nx] Px] [Vy Ny] Fy L. destruct (is_finite x) eqn:Fx.
  - pose proof (f_sub_spec x y Vx Vy Fx Fy) as HS. pose proof HS as (_ & E & _).
    split; [exact (is_sum_num _ _ HS)|]. rewrite E. pose proof FMAX_pos.
    destruct (rndz_nonneg (ext x - ext y) ltac:(lia)). lia.
  - destruct x as [|[]| |]; try done. destruct y as [| | |]; try done; (split; [by split|]); vm_compute; congruence.
Qed.

Lemma u64_nn n : u64 n -> nn (f_of_Z n) /\ is_finite (f_of_Z n) = true /\ ext (f_of_Z n) = rnd (n * ONE) 1.
Proof. intros H. apply f_of_Z_nn. unfold u64, U64_MAX in H. lia. Qed.

(** [fold(INFINITY, f64::min)]: a number below each of them. *)
Lemma foldl_f_min_le l x : num x -> Forall num l ->
  num (foldl f_min x l) /\ ext (foldl f_min x l) <= ext x /\ Forall (fun y => ext (foldl f_min x l) <= ext y) l.
Proof.
  revert x. induction l as [|y l IH]; intros x Hx HF; cbn [foldl]; [split_and!; [done | lia | constructor]|].
  apply Forall_cons in HF as [Hy HF]. destruct (f_min_num x y Hx Hy) as [Hm Em].
  destruct (IH _ Hm HF) as (H1 & H2 & H3). split_and!; [done | lia |]. constructor; [lia | done].
Qed.

(** ** Sums *)

Lemma fold_add_nn l a : nn a -> Forall nn l ->
  nn (fold_left f_add l a) /\ ext a <= ext (fold_left f_add l a).
Proof.
  revert a. induction l as [|x l IH]; intros a Ha HF; cbn [fold_left]; [split; [done | lia]|].
  apply Forall_cons in HF as [Hx HF]. destruct (f_add_nn a x Ha Hx) as [Hs _].
  destruct (IH _ Hs HF) as [H1 H2]. pose proof (f_add_ge_l a x Ha Hx). split; [done | lia].
Qed.

(** [n] rounded additions of non-negative numbers lose at most a factor
    [(1 - 2^-53)^n], as long as the result is finite. *)
Lemma fold_add_lower l a : nn a -> Forall nn l -> ext (fold_left f_add l a) < FMAX ->
  (ext a + zsum ext l) * (2 ^ PREC - 1) ^ Z.of_nat (length l) <=
  ext (fold_left f_add l a) * (2 ^ PREC) ^ Z.of_nat (length l).
Proof.
  revert a. induction l as [|x l IH]; intros a Ha HF Hfin; cbn [fold_left zsum length] in *; [lia|].
  apply Forall_cons in HF as [Hx HF]. destruct (f_add_nn a x Ha Hx) as [Hs Es].
  destruct (fold_add_nn l _ Hs HF) as [_ Hge]. specialize (IH _ Hs HF Hfin).
  rewrite Nat2Z.inj_succ, !Z.pow_succ_r by lia. set (P := 2 ^ PREC) in *.
  assert (HP : 0 <= (P - 1) ^ Z.of_nat (length l)) by (apply Z.pow_nonneg; subst P; unfold PREC; lia).
  assert (HZ : 0 <= zsum ext l) by (apply zsum_nonneg; eapply Forall_impl; [exact HF | intros y [_ Hy]; exact Hy]).
  destruct (rnd_error_int (ext a + ext x) ltac:(destruct Ha, Hx; lia)) as [HR _]. fold P in HR.
  rewrite Z.min_r in Es by lia. rewrite <- Es in HR. set (r := ext (fold_left f_add l (f_add a x))) in *.
  set (s := ext (f_add a x)) in *. set (p := (P - 1) ^ Z.of_nat (length l)) in *. set (q := P ^ Z.of_nat (length l)) in *.
  assert (0 < P) by (subst P; unfold PREC; lia).
  assert ((ext a + ext x) * (P - 1) * p <= s * P * p) by (apply Z.mul_le_mono_nonneg_r; lia).
  assert (zsum ext l * (P - 1) * p <= zsum ext l * P * p) by (apply Z.mul_le_mono_nonneg_r; nia).
  assert (P * ((s + zsum ext l) * p) <= P * (r * q)) by (apply Z.mul_le_mono_nonneg_l; lia). lia.
Qed.

(** Sums of whole numbers are exact up to [2^53], and stay above [2^53] beyond. *)
Definition whole (x : f64) : Prop := nn x /\ ext x mod ONE = 0.

Lemma f_add_whole a x : whole a -> whole x -> nn (f_add a x) /\
  (ext a + ext x <= 2 ^ PREC * ONE -> whole (f_add a x) /\ ext (f_add a x) = ext a + ext x) /\
  (2 ^ PREC * ONE <= ext a + ext x -> 2 ^ PREC * ONE <= ext (f_add a x)).
Proof.
  intros [Na Ma] [Nx Mx]. pose proof ONE_pos. destruct (f_add_nn a x Na Nx) as [N E]. destruct Na as [_ Pa], Nx as [_ Px].
  assert (HF : 2 ^ PREC * ONE < FMAX).
  { unfold ONE, FMAX, BIAS, PREC. rewrite <- Z.pow_add_r by lia. apply Z.pow_lt_mono_r; lia. }
  split; [exact N|]. split; intros H1.
  - assert (Em : (ext a + ext x) mod ONE = 0) by (rewrite Z.add_mod, Ma, Mx by lia; reflexivity).
    assert (Er : rnd (ext a + ext x) 1 = ext a + ext x).
    { apply Z.mod_divide in Em as [k Ek]; [|lia]. rewrite Ek. apply rnd_int. nia. }
    rewrite Er, Z.min_r in E by lia. split; [split; [exact N | by rewrite E] | exact E].
  - rewrite E. apply Z.min_glb; [lia|]. apply rnd_ge_representable; [lia | lia | unfold PREC; lia | | lia].
    apply pow2_ONE_representable. unfold PREC. lia.
Qed.

Lemma fold_add_whole l a : whole a -> Forall whole l ->
  (ext a + zsum ext l <= 2 ^ PREC * ONE -> ext (fold_left f_add l a) = ext a + zsum ext l) /\
  (2 ^ PREC * ONE <= ext a + zsum ext l -> 2 ^ PREC * ONE <= ext (fold_left f_add l a)).
Proof.
  revert a. induction l as [|x l IH]; intros a Ha HF; cbn [fold_left zsum]; [split; lia|].
  apply Forall_cons in HF as [Hx HF]. destruct (f_add_whole a x Ha Hx) as (N & H1 & H2).
  assert (HN : Forall nn l) by (eapply Forall_impl; [exact HF | intros y [Hy _]; exact Hy]).
  assert (HZ : 0 <= zsum ext l) by (apply zsum_nonneg; eapply Forall_impl; [exact HN | intros y [_ Hy]; exact Hy]).
  destruct (Z.le_gt_cases (ext a + ext x) (2 ^ PREC * ONE)) as [Hle | Hgt].
  - destruct (H1 Hle) as [Hw E]. destruct (IH _ Hw HF) as [I1 I2]. rewrite E in I1, I2. split; intros; [rewrite I1; lia | apply I2; lia].
  - destruct (fold_add_nn l _ N HN) as [_ Hge]. split; intros; [lia|]. specialize (H2 ltac:(lia)). lia.
Qed.

Lemma neg_zero_whole : whole (S754_zero true).
Proof. split; [split; [split; reflexivity | vm_compute; congruence] | reflexivity]. Qed.

(** A rounded sum of whole numbers that stays below a limit under [2^53] is exact. *)
Lemma whole_sum_le l a L : whole a -> Forall whole l -> num L -> ext L < 2 ^ PREC * ONE ->
  f_gt (fold_left f_add l a) L = false -> ext a + zsum ext l <= ext L.
Proof.
  intros Ha Hl NL LL HG. destruct (fold_add_nn l a (proj1 Ha)) as [Nr _]; [eapply Forall_impl; [exact Hl | by intros x []]|].
  unfold f_gt in HG. change SFltb with f_lt in HG. rewrite lt_num in HG by (done || apply Nr). apply Z.ltb_ge in HG.
  destruct (fold_add_whole l a Ha Hl). lia.
Qed.
