(* ===== verification/F64Int.v ===== *)
(** * Doubles and integers: [as u64], [round], [ceil]

    The casts and roundings of [f64] the simulator uses, with the facts about
    non-negative numbers they are needed for. *)

From stdpp Require Import base list.
From Stdlib Require Import ZArith Lia SpecFloat.
From S2P Require Import Prelude Rounding F64 F64Facts.

Open Scope Z_scope.

(** [x as u64] (and [as usize]): towards zero, saturating, NaN is 0. *)
Definition f_as_u64 (x : f64) : Z :=
  match x with
  | S754_nan | S754_zero _ => 0
  | S754_infinity s => if s then 0 else U64_MAX
  | S754_finite s _ _ => if s then 0 else Z.min U64_MAX (ext x / ONE)
  end.

(** An integer with the sign of [x]. *)
Definition f_signed (s : bool) (n : Z) : f64 := if n =? 0 then S754_zero s else f_of_Z (if s then - n else n).

(** [f64::round]: to the nearest integer, halves away from zero. *)
Definition f_round (x : f64) : f64 :=
  match x with
  | S754_finite s _ _ => f_signed s ((2 * Z.abs (ext x) + ONE) / (2 * ONE))
  | _ => x
  end.

(** [f64::ceil]. *)
Definition f_ceil (x : f64) : f64 :=
  match x with
  | S754_finite s _ _ => f_signed s (if s then - ext x / ONE else (ext x + ONE - 1) / ONE)
  | _ => x
  end.

(** On a non-negative number both are a division. *)
Lemma f_as_u64_nn x : nn x -> is_finite x = true -> f_as_u64 x = Z.min U64_MAX (ext x / ONE).
Proof.
  intros H F. pose proof ONE_pos. destruct (nn_zero_or x H F) as [[s ->] | (m & e & ->)]; [|done].
  cbn [f_as_u64 ext]. rewrite Z.div_0_l by lia. unfold U64_MAX. lia.
Qed.

Lemma f_round_nn x : nn x -> ext x <= 2 ^ 52 * ONE ->
  nn (f_round x) /\ ext (f_round x) = (2 * ext x + ONE) / (2 * ONE) * ONE.
Proof.
  intros H L. pose proof ONE_pos. assert (F : is_finite x = true) by (eapply (small_finite x 52); [done | lia | lia]).
  destruct (nn_zero_or x H F) as [[s ->] | (m & e & ->)].
  - cbn [f_round ext]. split; [done|]. rewrite Z.mul_0_r, Z.add_0_l, Z.div_small by lia. done.
  - cbn [f_round]. destruct H as [_ P]. rewrite Z.abs_eq by done. set (n := (2 * _ + ONE) / (2 * ONE)).
    assert (N : 0 <= n <= 2 ^ PREC).
    { subst n. split; [apply Z.div_pos; lia|]. apply Z.div_le_upper_bound; [lia|]. change (2 ^ PREC) with (2 * 2 ^ 52). lia. }
    unfold f_signed. destruct (Z.eqb_spec n 0) as [-> | _]; [split; [split; [by split | cbn; lia] | done]|].
    destruct (f_of_Z_exact n N) as (G & _ & E). done.
Qed.

(** ** The index of a percentile *)

Lemma f_mul_le_l x p : nn x -> nn p -> is_finite x = true -> ext p <= ONE -> ext (f_mul x p) <= ext x.
Proof.
  intros Hx Hp Fx Lp. assert (Fp : is_finite p = true) by (eapply (small_finite p 0); [done | lia | lia]).
  destruct (f_mul_nn x p Hx Hp Fx Fp) as [_ ->]. fold ONE. pose proof ONE_pos. etrans; [apply Z.le_min_r|].
  apply rnd_le_representable; [destruct Hx, Hp; nia | lia | apply Hx | |destruct Hx; nia].
  rewrite <- (Z.abs_eq (ext x)) by apply Hx. apply ext_representable, Hx.
Qed.

(** [((n as f64) * p).round() as usize]. *)
Definition scaled_index (n : Z) (p : f64) : Z := f_as_u64 (f_round (f_mul (f_of_Z n) p)).

Lemma scaled_index_spec n p : 0 <= n <= 2 ^ 52 -> nn p -> ext p <= ONE ->
  scaled_index n p = (2 * ext (f_mul (f_of_Z n) p) + ONE) / (2 * ONE) /\ 0 <= ext (f_mul (f_of_Z n) p) <= n * ONE /\ 0 <= scaled_index n p <= n.
Proof.
  intros Hn Hp Lp. pose proof ONE_pos. destruct (f_of_Z_exact n ltac:(unfold PREC; lia)) as (Nn & Fn & En).
  assert (Fp : is_finite p = true) by (eapply (small_finite p 0); [done | lia | lia]).
  destruct (f_mul_nn _ _ Nn Hp Fn Fp) as [Nm _]. pose proof (f_mul_le_l _ _ Nn Hp Fn Lp) as Lm. rewrite En in Lm.
  set (x := f_mul (f_of_Z n) p) in *. assert (Px : 0 <= ext x) by apply Nm.
  destruct (f_round_nn x Nm ltac:(nia)) as [Nr Er].
  set (k := (2 * ext x + ONE) / (2 * ONE)) in *.
  assert (K : 0 <= k <= n).
  { subst k. split; [apply Z.div_pos; lia|]. apply Z.lt_succ_r, Z.div_lt_upper_bound; nia. }
  assert (E : scaled_index n p = k).
  { unfold scaled_index. fold x. rewrite f_as_u64_nn; [|done|].
    - rewrite Er, Z.div_mul by lia. unfold U64_MAX. lia.
    - eapply (small_finite _ 52); [done | lia |]. rewrite Er. nia. }
  rewrite E. split_and!; [done | lia.. ].
Qed.

Lemma scaled_index_mono n p q : 0 <= n <= 2 ^ 52 -> nn p -> nn q -> ext p <= ext q <= ONE -> scaled_index n p <= scaled_index n q.
Proof.
  intros Hn Hp Hq L. pose proof ONE_pos.
  destruct (scaled_index_spec n p Hn Hp ltac:(lia)) as (-> & _). destruct (scaled_index_spec n q Hn Hq ltac:(lia)) as (-> & _).
  apply Z.div_le_mono; [lia|]. destruct (f_of_Z_exact n ltac:(unfold PREC; lia)) as (Nn & Fn & En).
  assert (ext (f_mul (f_of_Z n) p) <= ext (f_mul (f_of_Z n) q)); [|lia].
  apply f_mul_mono; try done; [eapply (small_finite q 0); [done | lia | lia] | lia..].
Qed.
