(* ===== verification/F64Text.v ===== *)
(** * Numbers as text: [format!] of integers and doubles

    [Display] of unsigned integers, [{:.n}] and [Display] of [f64], which writes
    the shortest decimal that reads back as the same double, and the reader that
    undoes them.  A decimal is an integer [c] and a power of ten [p]. *)

From stdpp Require Import base list strings.
From Stdlib Require Import ZArith Lia Ascii SpecFloat.
From S2P Require Import Prelude Rounding F64 F64Facts.

Open Scope Z_scope.

(** ** Decimal digits *)

Definition digit_char (d : Z) : ascii := ascii_of_N (Z.to_N (48 + d)).
Definition digit_val (c : ascii) : option Z :=
  let d := Z.of_N (N_of_ascii c) - 48 in if (0 <=? d) && (d <=? 9) then Some d else None.

(** The last [k] digits of [n], in front of [s]. *)
Fixpoint digits_n (k : nat) (n : Z) (s : string) : string :=
  match k with O => s | S k => digits_n k (n / 10) (String (digit_char (n mod 10)) s) end.

(** The number of digits of [n]. *)
Fixpoint width (fuel : nat) (n : Z) : nat :=
  match fuel with
  | O => 1
  | S fuel => if n <? 10 then 1 else S (width fuel (n / 10))
  end.

(** [Display] of an unsigned integer, in front of [s]. *)
Definition decimal_before (n : Z) (s : string) : string := digits_n (width (Z.to_nat (Z.log2 n)) n) n s.
Definition decimal (n : Z) : string := decimal_before n EmptyString.

(** The digits at the head of a text: their value, their number, the rest. *)
Fixpoint take_digits (acc : Z) (count : nat) (s : string) : Z * nat * string :=
  match s with
  | EmptyString => (acc, count, s)
  | String c rest => match digit_val c with Some d => take_digits (acc * 10 + d) (S count) rest | None => (acc, count, s) end
  end.

(** A text that does not begin with a digit. *)
Definition no_digit (s : string) : Prop := match s with EmptyString => True | String c _ => digit_val c = None end.

Lemma digit_val_char d : 0 <= d <= 9 -> digit_val (digit_char d) = Some d.
Proof.
  intros H. unfold digit_val, digit_char. rewrite N_ascii_embedding by lia.
  replace (Z.of_N (Z.to_N (48 + d)) - 48) with d by lia. destruct (Z.leb_spec 0 d), (Z.leb_spec d 9); try lia. done.
Qed.

Lemma take_digits_stop acc count s : no_digit s -> take_digits acc count s = (acc, count, s).
Proof. destruct s as [|c s]; cbn; [done | by intros ->]. Qed.

Lemma take_digits_n k n s acc count : 0 <= n ->
  take_digits acc count (digits_n k n s) = take_digits (acc * 10 ^ Z.of_nat k + n mod 10 ^ Z.of_nat k) (count + k) s.
Proof.
  revert n s acc count. induction k as [|k IH]; intros n s acc count Hn; cbn [digits_n].
  - change (10 ^ Z.of_nat 0) with 1. rewrite Z.mod_1_r, Nat.add_0_r. f_equal. lia.
  - rewrite IH by (apply Z.div_pos; lia). pose proof (Z.mod_pos_bound n 10 ltac:(lia)).
    cbn [take_digits]. rewrite digit_val_char by lia. pose proof (Z.pow_pos_nonneg 10 (Z.of_nat k) ltac:(lia) ltac:(lia)).
    rewrite Nat2Z.inj_succ, Z.pow_succ_r, (Z.rem_mul_r n 10) by lia. f_equal; [|lia]. nia.
Qed.

Lemma width_spec fuel n : 0 <= n -> n < 10 * 2 ^ Z.of_nat fuel -> n < 10 ^ Z.of_nat (width fuel n).
Proof.
  revert n. induction fuel as [|fuel IH]; intros n Hn Hf; cbn [width].
  - change (10 ^ Z.of_nat 1) with 10. change (2 ^ Z.of_nat 0) with 1 in Hf. lia.
  - destruct (Z.ltb_spec n 10); [change (10 ^ Z.of_nat 1) with 10; lia|].
    rewrite Nat2Z.inj_succ, Z.pow_succ_r by lia. rewrite Nat2Z.inj_succ, Z.pow_succ_r in Hf by lia.
    assert (D : n / 10 < 10 ^ Z.of_nat (width fuel (n / 10))) by (apply IH; [apply Z.div_pos; lia | apply Z.div_lt_upper_bound; nia]).
    pose proof (Z.div_mod n 10 ltac:(lia)). pose proof (Z.mod_pos_bound n 10 ltac:(lia)). lia.
Qed.

(** The fuel is enough: a number is printed in full and read back. *)
Lemma take_decimal n s : 0 <= n -> no_digit s ->
  exists count, take_digits 0 0 (decimal_before n s) = (n, S count, s).
Proof.
  intros Hn Hs. unfold decimal_before. rewrite take_digits_n by done.
  assert (W : n < 10 ^ Z.of_nat (width (Z.to_nat (Z.log2 n)) n)).
  { apply width_spec; [done|]. rewrite Z2Nat.id by apply Z.log2_nonneg. destruct (Z.eq_dec n 0) as [-> | N0]; [reflexivity|].
    pose proof (Z.log2_spec n ltac:(lia)) as [_ L]. rewrite Z.pow_succ_r in L by apply Z.log2_nonneg.
    pose proof (Z.pow_pos_nonneg 2 (Z.log2 n) ltac:(lia) (Z.log2_nonneg n)). lia. }
  rewrite Z.mul_0_l, Z.mod_small, take_digits_stop by (lia || done).
  exists (pred (width (Z.to_nat (Z.log2 n)) n)). f_equal. f_equal. destruct (Z.to_nat (Z.log2 n)); cbn [width]; [done|]. by destruct (n <? 10).
Qed.

Lemma decimal_inj a b : 0 <= a -> 0 <= b -> decimal a = decimal b -> a = b.
Proof.
  intros Ha Hb E. destruct (take_decimal a EmptyString Ha I) as [ca Ea]. destruct (take_decimal b EmptyString Hb I) as [cb Eb].
  unfold decimal in E. rewrite E in Ea. congruence.
Qed.

(** ** The shortest decimal of a double

    A positive double is [X * 2^-BIAS]; [c * 10^p] reads back as it when
    rounding gives [X] again. *)

Section shortest.
Context (X : Z).

Definition ten_up (p : Z) : Z := 10 ^ Z.max 0 p.
Definition ten_down (p : Z) : Z := 10 ^ Z.max 0 (- p).

Definition reads (c p : Z) : Z := rnd (c * ten_up p * ONE) (ten_down p).

(** The multiple of [10^p] below. *)
Definition below (p : Z) : Z := X * ten_down p / (ten_up p * ONE).

(** Of the two multiples of [10^p] around, the closest that reads back. *)
Definition pick (p : Z) : option Z :=
  let c := below p in
  match reads c p =? X, reads (c + 1) p =? X with
  | true, true => Some (if 2 * (X * ten_down p - c * (ten_up p * ONE)) <? ten_up p * ONE then c else c + 1)
  | true, false => Some c
  | false, true => Some (c + 1)
  | false, false => None
  end.

Fixpoint search (fuel : nat) (p : Z) : Z * Z :=
  match pick p with
  | Some c => (c, p)
  | None => match fuel with O => (below p, p) | S fuel => search fuel (p - 1) end
  end.

(** A power of ten to start with: no multiple of a greater one can read back. *)
Definition first_power : Z :=
  let l := Z.log2 X - BIAS in
  if 0 <=? l + 2 then (l + 2) / 3 else - (- (l + 2) / 4) - 1.

Definition shortest : Z * Z := search (Z.to_nat (first_power + BIAS)) first_power.

Lemma ten_up_pos p : 0 < ten_up p.
Proof. apply Z.pow_pos_nonneg; lia. Qed.
Lemma ten_down_pos p : 0 < ten_down p.
Proof. apply Z.pow_pos_nonneg; lia. Qed.
#[local] Hint Resolve ten_up_pos ten_down_pos ONE_pos : core.

Lemma pick_reads p c : pick p = Some c -> reads c p = X.
Proof.
  unfold pick. destruct (Z.eqb_spec (reads (below p) p) X), (Z.eqb_spec (reads (below p + 1) p) X); intros [= <-]; try done.
  by case_match.
Qed.

Hypothesis HX : 0 < X.
Hypothesis HR : representable X.

Lemma below_spec p : below p * ten_up p * ONE <= X * ten_down p < (below p + 1) * ten_up p * ONE.
Proof.
  pose proof (ten_up_pos p). pose proof (ten_down_pos p). pose proof ONE_pos. assert (0 < ten_up p * ONE) by nia. unfold below.
  pose proof (Z.mul_div_le (X * ten_down p) (ten_up p * ONE) ltac:(lia)).
  pose proof (Z.mul_succ_div_gt (X * ten_down p) (ten_up p * ONE) ltac:(lia)). nia.
Qed.

Lemma below_nonneg p : 0 <= below p.
Proof. pose proof (ten_up_pos p). pose proof (ten_down_pos p). pose proof ONE_pos. apply Z.div_pos; nia. Qed.

Lemma pick_nonneg p c : pick p = Some c -> 0 <= c.
Proof. pose proof (below_nonneg p). unfold pick. intros E. repeat case_match; simplify_eq; lia. Qed.

(** Where the search fails, no multiple of the power of ten reads back. *)
Lemma pick_none p c : pick p = None -> 0 <= c -> reads c p <> X.
Proof.
  intros HN Hc E. pose proof (ten_up_pos p). pose proof (ten_down_pos p). pose proof ONE_pos. pose proof (below_spec p) as [B1 B2].
  pose proof (below_nonneg p).
  assert (N : reads (below p) p <> X /\ reads (below p + 1) p <> X).
  { unfold pick in HN. destruct (Z.eqb_spec (reads (below p) p) X), (Z.eqb_spec (reads (below p + 1) p) X); done. }
  assert (EX : rnd (X * ten_down p) (ten_down p) = X) by (apply rnd_exact; [lia | done | done]).
  destruct (Z.le_gt_cases c (below p)) as [L | L].
  - apply (proj1 N). apply Z.le_antisymm.
    + rewrite <- EX. apply rnd_mono; nia.
    + rewrite <- E. apply rnd_mono; [nia | done | done |]. apply Z.mul_le_mono_nonneg_r; [lia|]. nia.
  - apply (proj2 N). apply Z.le_antisymm.
    + rewrite <- E. apply rnd_mono; [nia | done | done |]. apply Z.mul_le_mono_nonneg_r; [lia|]. nia.
    + rewrite <- EX. apply rnd_mono; [nia | done | done |]. nia.
Qed.

(** In units of [10^-BIAS] the double has an exact decimal. *)
Lemma pick_exact p : p <= - BIAS -> pick p <> None.
Proof.
  intros Hp HN. pose proof (pick_none p (X * 5 ^ BIAS * 10 ^ (- p - BIAS)) HN ltac:(pose proof (Z.pow_pos_nonneg 5 BIAS); pose proof (Z.pow_nonneg 10 (-p - BIAS)); unfold BIAS in *; nia)) as E.
  apply E. unfold reads, ten_up, ten_down. rewrite Z.max_l, Z.max_r by (unfold BIAS in *; lia).
  change (10 ^ 0) with 1. rewrite Z.mul_1_r.
  replace (X * 5 ^ BIAS * 10 ^ (- p - BIAS) * ONE) with (X * 10 ^ (- p)).
  - apply rnd_exact; [lia | apply Z.pow_pos_nonneg; unfold BIAS in *; lia | done].
  - replace (- p) with ((- p - BIAS) + BIAS) at 1 by lia. rewrite Z.pow_add_r by (unfold BIAS in *; lia).
    change 10 with (5 * 2) at 2. rewrite Z.pow_mul_l. unfold ONE. lia.
Qed.

Lemma search_spec fuel p : p - Z.of_nat fuel <= - BIAS ->
  let '(c, q) := search fuel p in
  reads c q = X /\ 0 <= c /\ q <= p /\ forall q' c', q < q' <= p -> 0 <= c' -> reads c' q' <> X.
Proof.
  revert p. induction fuel as [|fuel IH]; intros p Hp; cbn [search]; destruct (pick p) as [c|] eqn:E.
  1, 3: split_and!; [by apply pick_reads | by eapply pick_nonneg | lia | intros; lia].
  - by destruct (pick_exact p); [lia|].
  - specialize (IH (p - 1) ltac:(lia)). destruct (search fuel (p - 1)) as [c q]. destruct IH as (E1 & Hc & Hq & H1). split_and!; [done | done | lia |].
    intros q' c' Hq' Hc'. destruct (Z.eq_dec q' p) as [-> |]; [by apply pick_none | apply H1; lia].
Qed.

Lemma representable_double : representable (2 * X).
Proof.
  unfold representable in *. replace (digits (2 * X)) with (digits X + 1) by (rewrite Z.mul_comm; symmetry; apply (digits_mul_pow2 X 1); lia).
  destruct (Z.le_gt_cases (digits X) (PREC - 1)).
  - rewrite Z.max_l by lia. apply Z.mod_1_r.
  - replace (Z.max 0 (digits X + 1 - PREC)) with (Z.max 0 (digits X - PREC) + 1) by lia.
    rewrite Z.pow_add_r by lia. change (2 ^ 1) with 2. rewrite (Z.mul_comm 2 X), Z.mul_mod_distr_r by (try apply Z.pow_nonzero; lia). lia.
Qed.

Lemma pow10_ge k : 0 <= k -> 2 ^ (3 * k) <= 10 ^ k <= 2 ^ (4 * k).
Proof. intros Hk. rewrite !Z.pow_mul_r by lia. split; apply Z.pow_le_mono_l; lia. Qed.

Lemma first_power_bound q : first_power < q -> 2 * X * ten_down q <= ten_up q * ONE.
Proof.
  unfold first_power. set (l := Z.log2 X - BIAS). intros Hq. pose proof ONE_pos. pose proof (Z.log2_nonneg X).
  pose proof (Z.log2_spec X HX) as [_ L]. assert (BX : 2 * X <= 2 ^ (l + 2 + BIAS)).
  { replace (l + 2 + BIAS) with (Z.succ (Z.succ (Z.log2 X))) by lia. rewrite Z.pow_succ_r by lia. lia. }
  destruct (Z.leb_spec 0 (l + 2)).
  - pose proof (Z.div_pos (l + 2) 3 ltac:(lia) ltac:(lia)). pose proof (Z.mul_succ_div_gt (l + 2) 3 ltac:(lia)).
    unfold ten_down, ten_up. rewrite Z.max_l, Z.max_r, Z.mul_1_r by lia. rewrite Z.pow_add_r in BX by (unfold BIAS; lia). fold ONE in BX.
    pose proof (pow10_ge q ltac:(lia)). pose proof (Z.pow_le_mono_r 2 (l + 2) (3 * q) ltac:(lia) ltac:(lia)). nia.
  - set (j := - (l + 2) / 4) in *. pose proof (Z.div_pos (- (l + 2)) 4 ltac:(lia) ltac:(lia)). pose proof (Z.mul_div_le (- (l + 2)) 4 ltac:(lia)).
    assert (D : ten_down q <= 2 ^ (- (l + 2))).
    { unfold ten_down. etransitivity; [|apply (Z.pow_le_mono_r 2 (4 * Z.max 0 (- q))); lia]. apply pow10_ge. lia. }
    assert (U : 1 <= ten_up q) by (pose proof (ten_up_pos q); lia). pose proof (ten_down_pos q).
    assert (EO : ONE = 2 ^ (l + 2 + BIAS) * 2 ^ (- (l + 2))) by (unfold ONE; rewrite <- Z.pow_add_r by lia; f_equal; lia).
    assert (2 * X * ten_down q <= ONE) by (rewrite EO; apply Z.mul_le_mono_nonneg; lia). nia.
Qed.

Lemma large_power q c : first_power < q -> 0 <= c -> reads c q <> X.
Proof.
  intros Hq Hc E. pose proof (first_power_bound q Hq). pose proof (ten_up_pos q). pose proof (ten_down_pos q). pose proof ONE_pos.
  unfold reads in E. destruct (Z.eq_dec c 0) as [-> |]; [rewrite !Z.mul_0_l, rnd_0 in E by done; lia|].
  assert (2 * X <= rnd (c * ten_up q * ONE) (ten_down q)); [|lia].
  apply rnd_ge_representable; [nia | done | lia | apply representable_double | nia].
Qed.

Lemma first_power_ge : - BIAS <= first_power.
Proof.
  unfold first_power. pose proof (Z.log2_nonneg X). set (l := Z.log2 X - BIAS).
  destruct (Z.leb_spec 0 (l + 2)); [pose proof (Z.div_pos (l + 2) 3); unfold BIAS in *; lia|].
  pose proof (Z.div_le_upper_bound (- (l + 2)) 4 (BIAS / 4) ltac:(lia)). assert (BIAS / 4 = 268) by reflexivity. unfold BIAS in *. lia.
Qed.

(** The search succeeds: the decimal reads back, and none with fewer digits
    after its last does. *)
Lemma shortest_spec : let '(c, q) := shortest in
  reads c q = X /\ 0 < c /\ forall q' c', q < q' -> 0 <= c' -> reads c' q' <> X.
Proof.
  unfold shortest. pose proof first_power_ge. pose proof (search_spec (Z.to_nat (first_power + BIAS)) first_power ltac:(lia)) as HS.
  destruct (search _ _) as [c q]. destruct HS as (E & Hc & Hq & HN). split_and!; [done | |].
  - destruct (Z.eq_dec c 0) as [-> |]; [|lia]. unfold reads in E. rewrite !Z.mul_0_l, rnd_0 in E by done. lia.
  - intros q' c' Hq' Hc'. destruct (Z.le_gt_cases q' first_power); [apply HN; lia | by apply large_power].
Qed.
End shortest.

(** ** [Display] of [f64] *)

(** [c * 10^p] in full, without exponent. *)
Definition decimal_text (c p : Z) : string :=
  if 0 <=? p then decimal (c * 10 ^ p)
  else decimal_before (c / 10 ^ (- p)) (String "." (digits_n (Z.to_nat (- p)) c EmptyString)).

Definition signed_text (negative : bool) (s : string) : string := if negative then String "-" s else s.

(** [{}]: the shortest decimal that reads back. *)
Definition f_display (x : f64) : string :=
  match x with
  | S754_nan => "NaN"
  | S754_infinity s => signed_text s "inf"
  | S754_zero s => signed_text s "0"
  | S754_finite s _ _ => let '(c, p) := shortest (Z.abs (ext x)) in signed_text s (decimal_text c p)
  end.

(** [{:.n}]: the exact value rounded to [n] decimals, halves to even. *)
Definition f_fixed (n : Z) (x : f64) : string :=
  let text s := signed_text s (decimal_text (rne (Z.abs (ext x) * 10 ^ n) ONE) (- n)) in
  match x with
  | S754_nan => "NaN"
  | S754_infinity s => signed_text s "inf"
  | S754_zero s | S754_finite s _ _ => text s
  end.

(** ** Reading it back *)

(** Digits, perhaps with a point: the number without its point, and the digits
    after it. *)
Definition read_number (s : string) : option (Z * nat) :=
  match take_digits 0 0 s with
  | (n, S _, EmptyString) => Some (n, 0%nat)
  | (n, S _, String "." rest) =>
      match take_digits n 0 rest with (n, S k, EmptyString) => Some (n, S k) | _ => None end
  | _ => None
  end.

(** The double closest to [n / 10^k], infinite from half an ulp above the
    greatest on. *)
Definition f_of_decimal (s : bool) (n : Z) (k : nat) : f64 :=
  match rnd (n * ONE) (10 ^ Z.of_nat k) with
  | Zpos m => binary_round 53 1024 s m (- BIAS)
  | _ => S754_zero s
  end.

Definition parse_unsigned (s : bool) (t : string) : option f64 :=
  match read_number t with
  | Some (n, k) => Some (f_of_decimal s n k)
  | None => if String.eqb t "inf" then Some (S754_infinity s) else if negb s && String.eqb t "NaN" then Some S754_nan else None
  end.

Definition parse_f64 (t : string) : option f64 :=
  match t with String "-" rest => parse_unsigned true rest | _ => parse_unsigned false t end.

(** A valid double is determined by its value. *)
Lemma ext_inj s m e s' m' e' : valid (S754_finite s m e) -> valid (S754_finite s' m' e') ->
  ext (S754_finite s m e) = ext (S754_finite s' m' e') -> S754_finite s m e = S754_finite s' m' e'.
Proof.
  intros V V' E. pose proof (valid_ext_lt _ _ _ V). pose proof (valid_ext_lt _ _ _ V').
  assert (s = s') as <- by (destruct s, s'; cbn [ext cond_Zopp] in E; lia || done).
  assert (EM : Z.pos m * 2 ^ (e + BIAS) = Z.pos m' * 2 ^ (e' + BIAS)) by (destruct s; cbn [ext cond_Zopp] in E; lia).
  pose proof (valid_range _ _ _ V) as ([? _] & _). pose proof (valid_range _ _ _ V') as ([? _] & _).
  apply valid_finite in V as [V _], V' as [V' _].
  pose proof (digits_mul_pow2 (Z.pos m) (e + BIAS) ltac:(lia) ltac:(lia)) as D. rewrite EM, digits_mul_pow2 in D by lia.
  assert (e = e') as <- by lia. pose proof (pow2_pos (e + BIAS) ltac:(lia)). f_equal. nia.
Qed.

Lemma read_decimal_text c p : 0 <= c -> exists n k, read_number (decimal_text c p) = Some (n, k) /\
  n * ten_down p = c * ten_up p * 10 ^ Z.of_nat k.
Proof.
  intros Hc. unfold decimal_text, decimal, read_number, ten_up, ten_down. destruct (Z.leb_spec 0 p) as [Hp | Hp].
  - rewrite (Z.max_l 0 (- p)), (Z.max_r 0 p) by lia. destruct (take_decimal (c * 10 ^ p) EmptyString) as [count ->]; [|done|].
    { pose proof (Z.pow_nonneg 10 p ltac:(lia)). nia. }
    exists (c * 10 ^ p), 0%nat. split; [done|]. change (10 ^ Z.of_nat 0) with 1. change (10 ^ 0) with 1. lia.
  - rewrite (Z.max_r 0 (- p)), (Z.max_l 0 p) by lia. set (k := Z.to_nat (- p)). assert (Ek : - p = Z.of_nat k) by lia. rewrite Ek.
    pose proof (Z.pow_pos_nonneg 10 (Z.of_nat k) ltac:(lia) ltac:(lia)).
    destruct (take_decimal (c / 10 ^ Z.of_nat k) (String "." (digits_n k c EmptyString))) as [count ->]; [apply Z.div_pos; lia | done |].
    rewrite take_digits_n by done. cbn [take_digits]. rewrite Nat.add_0_l. destruct k as [|k]; [lia|].
    exists c, (S k). rewrite Z.mul_comm, <- Z.div_mod by lia. split; [done|]. change (10 ^ 0) with 1. lia.
Qed.

Lemma read_number_first t r : read_number t = Some r -> parse_f64 t = parse_unsigned false t.
Proof.
  intros E. unfold parse_f64. destruct t as [|c t]; [done|]. destruct (Ascii.eqb_spec c "-") as [-> | N]; [done|].
  destruct c as [[] [] [] [] [] [] [] []]; try done.
Qed.

Lemma f_of_decimal_reads s m e c p n k : valid (S754_finite s m e) -> 0 <= n ->
  reads c p = Z.abs (ext (S754_finite s m e)) -> n * ten_down p = c * ten_up p * 10 ^ Z.of_nat k -> 0 <= c ->
  f_of_decimal s n k = S754_finite s m e.
Proof.
  intros V Hn ER EN Hc. pose proof (ext_representable _ V) as HR. pose proof (valid_ext_lt _ _ _ V) as B.
  assert (EX : Z.abs (ext (S754_finite s m e)) = Z.pos m * 2 ^ (e + BIAS)) by (destruct s; cbn [ext cond_Zopp]; lia).
  rewrite EX in ER, HR. set (X := Z.pos m * 2 ^ (e + BIAS)) in *.
  pose proof (ten_up_pos p). pose proof (ten_down_pos p). pose proof ONE_pos. pose proof (Z.pow_pos_nonneg 10 (Z.of_nat k) ltac:(lia) ltac:(lia)).
  assert (ER' : rnd (n * ONE) (10 ^ Z.of_nat k) = X) by (rewrite <- ER; unfold reads; apply rnd_prop; nia).
  unfold f_of_decimal. rewrite ER'. destruct X as [|x|] eqn:Ex; try lia.
  destruct (binary_round_spec s x (- BIAS) ltac:(lia)) as (Vr & Er & Nr & Fr).
  replace (- BIAS + BIAS) with 0 in * by lia. change (2 ^ 0) with 1 in *. rewrite Z.mul_1_r in *.
  rewrite (rnd_representable_id (Z.pos x)) in Er, Fr by (lia || done). rewrite Z.min_r in Er by lia.
  destruct (Z.ltb_spec (Z.pos x) FMAX); [|lia]. destruct (binary_round _ _ _ _ _) as [| | |s' m' e']; try discriminate.
  - destruct s; cbn [ext cond_Zopp] in Er; lia.
  - apply ext_inj; [done | done |]. rewrite Er. cbn [ext]. fold X. by rewrite Ex.
Qed.

Lemma parse_signed s t r : read_number t = Some r -> parse_f64 (signed_text s t) = parse_unsigned s t.
Proof. intros E. destruct s; [done | by eapply read_number_first]. Qed.

Lemma shortest_text_reads s m e : valid (S754_finite s m e) ->
  let '(c, p) := shortest (Z.abs (ext (S754_finite s m e))) in parse_f64 (signed_text s (decimal_text c p)) = Some (S754_finite s m e).
Proof.
  intros V. pose proof (valid_ext_lt _ _ _ V) as B. pose proof (ext_representable _ V) as HR.
  pose proof (shortest_spec (Z.abs (ext (S754_finite s m e))) ltac:(destruct s; cbn [ext cond_Zopp]; lia) HR) as HS.
  destruct (shortest _) as [c p]. destruct HS as (ER & Hc & _).
  destruct (read_decimal_text c p ltac:(lia)) as (n & k & E & EN). rewrite (parse_signed _ _ _ E). unfold parse_unsigned. rewrite E.
  f_equal. pose proof (ten_up_pos p). pose proof (ten_down_pos p). pose proof (Z.pow_pos_nonneg 10 (Z.of_nat k) ltac:(lia) ltac:(lia)).
  eapply f_of_decimal_reads; [done | nia | exact ER | exact EN | lia].
Qed.

(** What [Display] writes of a double reads back as the same double. *)
Lemma display_roundtrip x : valid x -> parse_f64 (f_display x) = Some x.
Proof.
  intros V. destruct x as [[]|[]| |s m e]; try reflexivity.
  unfold f_display. pose proof (shortest_text_reads s m e V) as H. by destruct (shortest _).
Qed.

(** The rounded decimal is within half a unit of its last digit. *)
Lemma fixed_error n x : 0 <= n ->
  Z.abs (2 * (rne (Z.abs (ext x) * 10 ^ n) ONE * ONE) - 2 * (Z.abs (ext x) * 10 ^ n)) <= ONE.
Proof. intros. pose proof (rne_bounds (Z.abs (ext x) * 10 ^ n) ONE ONE_pos). lia. Qed.

Example display_ex : f_display (f_lit 1 10) = "0.1"%string /\ f_display (f_lit 115 100) = "1.15"%string /\
  f_display (f_of_Z 50000) = "50000"%string /\ f_display (f_lit 1 3) = "0.3333333333333333"%string /\
  f_display (f_opp (f_lit 3 2)) = "-1.5"%string.
Proof. vm_compute. tauto. Qed.

Example fixed_ex : f_fixed 1 (f_lit 1 4) = "0.2"%string /\ f_fixed 1 (f_lit 3 4) = "0.8"%string /\ f_fixed 2 (f_of_Z 100) = "100.00"%string.
Proof. vm_compute. tauto. Qed.
