(* ===== verification/Web.v ===== *)
(** * Bytes, text, URLs and headers, as the network-facing crates use them

    What those crates call of the Standard Library of Rust and of the [http]
    and [url] crates: byte strings, [str] methods, header maps, and the class
    [UrlLib] of the URL operations, which are code outside the repository. *)

From stdpp Require Import base list strings.
From Stdlib Require Import ZArith Lia Ascii.
From S2P Require Import Prelude.

Open Scope Z_scope.

(** ** Bytes *)

Abbreviation Bytes := (list ascii).
Definition byte_len (b : Bytes) : Z := Z.of_nat (length b).
Definition byte_val (c : ascii) : Z := Z.of_N (N_of_ascii c).

Definition BACKSLASH : ascii := ascii_of_nat 92.
Definition QUOTE : ascii := ascii_of_nat 34.
Definition NEWLINE : ascii := ascii_of_nat 10.

Lemma byte_len_nonneg b : 0 <= byte_len b.
Proof. unfold byte_len. lia. Qed.

Lemma byte_len_app a b : byte_len (a ++ b) = byte_len a + byte_len b.
Proof. unfold byte_len. rewrite length_app. lia. Qed.

Lemma byte_val_range c : 0 <= byte_val c < 256.
Proof. unfold byte_val. pose proof (N_ascii_bounded c). lia. Qed.

(** ** Text *)

(** [str::strip_prefix]. *)
Fixpoint strip_prefix (p s : string) : option string :=
  match p, s with
  | EmptyString, _ => Some s
  | String a p', String b s' => if Ascii.eqb a b then strip_prefix p' s' else None
  | String _ _, EmptyString => None
  end.

(** A text between double quotes. *)
Definition quoted (s : string) : string := String QUOTE (s +:+ String QUOTE EmptyString).

(** ** Header maps

    A [HeaderMap] is the list of its entries; names are lower case. *)

(** [HeaderMap::append], [HeaderMap::insert] and [HeaderMap::get]. *)
Definition header_append (headers : list (string * string)) (name value : string) : list (string * string) :=
  headers ++ [(name, value)].
Definition header_insert (headers : list (string * string)) (name value : string) : list (string * string) :=
  filter (fun h => h.1 <> name) headers ++ [(name, value)].
Definition header_get (headers : list (string * string)) (name : string) : option string :=
  snd <$> head (filter (fun h => h.1 = name) headers).

Lemma header_get_insert headers name value : header_get (header_insert headers name value) name = Some value.
Proof.
  unfold header_get, header_insert. rewrite filter_app, list_filter_filter.
  rewrite (list_filter_iff _ (fun _ => False)) by (intros []; cbn; tauto).
  assert (E : filter (fun _ : string * string => False) headers = []) by (induction headers; done).
  rewrite E. cbn. by rewrite decide_True.
Qed.

Lemma header_get_insert_ne headers name name' value : name <> name' ->
  header_get (header_insert headers name value) name' = header_get headers name'.
Proof.
  intros N. unfold header_get, header_insert. rewrite filter_app, list_filter_filter. cbn.
  rewrite decide_False, app_nil_r by done.
  rewrite (list_filter_iff _ (fun h => h.1 = name')); [done|]. intros [n v]; cbn. split; [tauto | intros ->; by split].
Qed.

(** The names and values the [http] crate accepts. *)
Class HttpLib : Type := {
  header_name : string -> option string; (** [HeaderName::from_bytes], in lower case *)
  header_value : string -> option string; (** [HeaderValue::from_str] *)
  header_str : string -> option string (** [HeaderValue::to_str] *)
}.

Definition plain_http : HttpLib := {| header_name := fun n => Some (to_lower n); header_value := Some; header_str := Some |}.

(** ** URLs *)

(** [url::Url]. *)
Class UrlLib : Type := {
  url : Type;
  parse_url : string -> result string url; (** [Url::parse] *)
  url_join : url -> string -> result string url; (** [Url::join] *)
  url_scheme : url -> string; (** [Url::scheme] *)
  url_host : url -> option string; (** [Url::host_str] *)
  url_set_path : url -> string -> url; (** [Url::set_path] *)
  url_append_pair : url -> string -> string -> url; (** [query_pairs_mut().append_pair] *)
  url_text : url -> string (** [Url::as_str] *)
}.

(** The path and the query of a URL do not determine its host. *)
Class UrlLaws `{UrlLib} : Prop := {
  url_host_set_path : forall u path, url_host (url_set_path u path) = url_host u;
  url_host_append_pair : forall u name value, url_host (url_append_pair u name value) = url_host u
}.

(** URLs of the form [scheme://host/path], for evaluation. *)
Record PlainUrl : Type := mkPlainUrl { plain_scheme : string; plain_host : string; plain_path : string }.

Fixpoint split_on (sep s : string) : option (string * string) :=
  match strip_prefix sep s with
  | Some rest => Some (EmptyString, rest)
  | None => match s with
            | EmptyString => None
            | String c rest => match split_on sep rest with Some (a, b) => Some (String c a, b) | None => None end
            end
  end.

Definition plain_parse (s : string) : result string PlainUrl :=
  match split_on "://" s with
  | None => Err "relative URL without a base"%string
  | Some (scheme, rest) =>
      let '(host, path) := default (rest, EmptyString) (split_on "/" rest) in
      if String.eqb host EmptyString then Err "empty host"%string else Ok (mkPlainUrl scheme host ("/" +:+ path))
  end.

Definition plain_urls : UrlLib := {|
  url := PlainUrl;
  parse_url := plain_parse;
  url_join := fun base relative =>
    match plain_parse relative with
    | Ok u => Ok u
    | Err _ => match strip_prefix "//" relative with
               | Some rest => plain_parse (plain_scheme base +:+ ("://" +:+ rest))
               | None => Ok (mkPlainUrl (plain_scheme base) (plain_host base) ("/" +:+ relative))
               end
    end;
  url_scheme := plain_scheme;
  url_host := fun u => Some (plain_host u);
  url_set_path := fun u path => mkPlainUrl (plain_scheme u) (plain_host u) path;
  url_append_pair := fun u name value => mkPlainUrl (plain_scheme u) (plain_host u) (plain_path u +:+ ("?" +:+ (name +:+ ("=" +:+ value))));
  url_text := fun u => plain_scheme u +:+ ("://" +:+ (plain_host u +:+ plain_path u))
|}.

Lemma plain_url_laws : @UrlLaws plain_urls.
Proof. by split. Qed.

(** ** Responses *)

(** [Response::error_for_status] fails on client and server errors. *)
Definition status_is_error (status : Z) : bool := (400 <=? status) && (status <=? 599).
