(* ===== verification/Text.v ===== *)
(** * UTF-8 text: the [str] methods of the standard library in use

    A [str] is its UTF-8 bytes.  [from_utf8] (validation), [lines] and [trim],
    the parsers' view of a body. *)

From stdpp Require Import base list strings.
From Stdlib Require Import ZArith Lia Ascii.
From S2P Require Import Prelude Web.

Open Scope Z_scope.

Definition within (lo hi : Z) (c : ascii) : bool := (lo <=? byte_val c) && (byte_val c <=? hi).
Definition continuation : ascii -> bool := within 128 191.

(** [str::from_utf8]: no overlong forms, no surrogates, nothing above U+10FFFF. *)
Fixpoint utf8_valid (b : Bytes) : bool :=
  match b with
  | [] => true
  | c0 :: rest =>
      if byte_val c0 <? 128 then utf8_valid rest
      else if within 194 223 c0 then
        match rest with c1 :: rest => continuation c1 && utf8_valid rest | _ => false end
      else if within 224 239 c0 then
        match rest with
        | c1 :: c2 :: rest =>
            (if byte_val c0 =? 224 then within 160 191 c1
             else if byte_val c0 =? 237 then within 128 159 c1 else continuation c1)
            && continuation c2 && utf8_valid rest
        | _ => false
        end
      else if within 240 244 c0 then
        match rest with
        | c1 :: c2 :: c3 :: rest =>
            (if byte_val c0 =? 240 then within 144 191 c1
             else if byte_val c0 =? 244 then within 128 143 c1 else continuation c1)
            && continuation c2 && continuation c3 && utf8_valid rest
        | _ => false
        end
      else false
  end.

Definition from_utf8 (b : Bytes) : option Bytes := if utf8_valid b then Some b else None.

Definition CR : ascii := ascii_of_nat 13.

(** [str::lines]: lines end at a line feed, or a carriage return and a line
    feed; text after the last line feed is a line when there is any. *)
Definition strip_cr (line : Bytes) : Bytes :=
  match rev line with c :: l => if Ascii.eqb c CR then rev l else line | [] => line end.

Fixpoint lines_from (line : Bytes) (b : Bytes) : list Bytes :=
  match b with
  | [] => match line with [] => [] | _ => [line] end
  | c :: rest => if Ascii.eqb c NEWLINE then strip_cr line :: lines_from [] rest else lines_from (line ++ [c]) rest
  end.
Definition lines (b : Bytes) : list Bytes := lines_from [] b.

(** The encodings of the characters with the property [White_Space]. *)
Definition WHITE_SPACE : list Bytes :=
  map (map ascii_of_nat)
    [[9]; [10]; [11]; [12]; [13]; [32]; [194; 133]; [194; 160]; [225; 154; 128];
     [226; 128; 128]; [226; 128; 129]; [226; 128; 130]; [226; 128; 131]; [226; 128; 132]; [226; 128; 133];
     [226; 128; 134]; [226; 128; 135]; [226; 128; 136]; [226; 128; 137]; [226; 128; 138];
     [226; 128; 168]; [226; 128; 169]; [226; 128; 175]; [226; 129; 159]; [227; 128; 128]]%nat.

Fixpoint strip_bytes (p b : Bytes) : option Bytes :=
  match p, b with
  | [], _ => Some b
  | c :: p, d :: b => if Ascii.eqb c d then strip_bytes p b else None
  | _ :: _, [] => None
  end.

(** Removes one of the patterns from the front. *)
Fixpoint strip_any (ps : list Bytes) (b : Bytes) : option Bytes :=
  match ps with
  | [] => None
  | p :: ps => match strip_bytes p b with Some rest => Some rest | None => strip_any ps b end
  end.

(** Removes the patterns from the front as long as there is one; the length of
    the text is fuel enough, as every pattern is a character. *)
Fixpoint strip_all (fuel : nat) (ps : list Bytes) (b : Bytes) : Bytes :=
  match fuel with
  | O => b
  | S fuel => match strip_any ps b with Some rest => strip_all fuel ps rest | None => b end
  end.

(** [str::trim_start], [str::trim_end] and [str::trim]. *)
Definition trim_start (b : Bytes) : Bytes := strip_all (length b) WHITE_SPACE b.
Definition trim_end (b : Bytes) : Bytes := rev (strip_all (length b) (map (@rev ascii) WHITE_SPACE) (rev b)).
Definition trim (b : Bytes) : Bytes := trim_end (trim_start b).

(** ** Facts *)

Lemma lines_from_app line l rest : NEWLINE ∉ l -> lines_from line (l ++ NEWLINE :: rest) = strip_cr (line ++ l) :: lines_from [] rest.
Proof.
  revert line. induction l as [|c l IH]; intros line N; cbn.
  - by rewrite app_nil_r.
  - destruct (Ascii.eqb_spec c NEWLINE) as [-> | _]; [exfalso; apply N; left|].
    rewrite IH by (intros ?; apply N; by right). by rewrite <- app_assoc.
Qed.

Lemma lines_from_last line l : NEWLINE ∉ l -> lines_from line l = match line ++ l with [] => [] | _ => [line ++ l] end.
Proof.
  revert line. induction l as [|c l IH]; intros line N; cbn.
  - rewrite app_nil_r. done.
  - destruct (Ascii.eqb_spec c NEWLINE) as [-> | _]; [exfalso; apply N; left|].
    rewrite IH by (intros ?; apply N; by right). by rewrite <- app_assoc.
Qed.

(** Text made of terminated lines. *)
Definition unlines (ls : list Bytes) : Bytes := concat (map (fun l => l ++ [NEWLINE]) ls).

Lemma lines_unlines ls : Forall (fun l => NEWLINE ∉ l /\ strip_cr l = l) ls -> lines (unlines ls) = ls.
Proof.
  unfold lines, unlines. induction 1 as [|l ls [N C] _ IH]; [done|]. cbn. rewrite <- app_assoc. cbn.
  by rewrite lines_from_app, IH, app_nil_l, C.
Qed.

Lemma strip_bytes_some p b rest : strip_bytes p b = Some rest -> b = p ++ rest.
Proof.
  revert b. induction p as [|c p IH]; intros [|d b] E; simplify_eq/=; try done.
  destruct (Ascii.eqb_spec c d) as [-> | _]; [|done]. by rewrite (IH _ E).
Qed.

Lemma strip_bytes_app p b : strip_bytes p (p ++ b) = Some b.
Proof. induction p as [|c p IH]; [done|]. cbn. by rewrite Ascii.eqb_refl. Qed.

Lemma strip_any_some ps b rest : strip_any ps b = Some rest -> exists p, p ∈ ps /\ b = p ++ rest.
Proof.
  induction ps as [|p ps IH]; cbn; [done|]. destruct (strip_bytes p b) eqn:E.
  - intros [= ->]. exists p. split; [left | by apply strip_bytes_some].
  - intros H. destruct (IH H) as (p' & ? & ->). exists p'. split; [by right | done].
Qed.

(** With enough fuel nothing is left to strip. *)
Lemma strip_all_done fuel ps b : Forall (fun p => p <> []) ps -> (length b <= fuel)%nat -> strip_any ps (strip_all fuel ps b) = None.
Proof.
  intros NE. revert b. induction fuel as [|fuel IH]; intros b L; cbn.
  - destruct b; [|cbn in L; lia]. destruct (strip_any ps []) eqn:E; [|done].
    apply strip_any_some in E as (p & Hp & E). rewrite Forall_forall in NE. destruct p; [by destruct (NE [] Hp) | done].
  - destruct (strip_any ps b) as [rest|] eqn:E; [|done]. apply IH.
    apply strip_any_some in E as (p & Hp & ->). rewrite Forall_forall in NE. specialize (NE _ Hp).
    rewrite length_app in L. destruct p; [done | cbn in L; lia].
Qed.

Lemma strip_all_none fuel ps b : strip_any ps b = None -> strip_all fuel ps b = b.
Proof. destruct fuel; cbn; [done|]. by intros ->. Qed.

(** Text without white space at either end is its own trim. *)
Lemma trim_id b : strip_any WHITE_SPACE b = None -> strip_any (map (@rev ascii) WHITE_SPACE) (rev b) = None -> trim b = b.
Proof. intros H1 H2. unfold trim, trim_start, trim_end. rewrite (strip_all_none _ _ b), strip_all_none by done. apply rev_involutive. Qed.
