(* ===== verification/Json.v ===== *)
(** * JSON values, as the crates read them ([serde_json::Value])

    Values, [get], [as_u64] and the amount of text in a value.  Parsing is code
    outside the repository: the class [JsonLib]. *)

From stdpp Require Import base list strings.
From Stdlib Require Import ZArith Lia.
From S2P Require Import Prelude Web F64.

Open Scope Z_scope.

Inductive Number : Type :=
| PosInt (n : Z) (** a [u64] *)
| NegInt (n : Z) (** a negative [i64] *)
| Float (x : f64).

(** An object is the list of its entries, with distinct keys. *)
Inductive Value : Type :=
| Null
| Boolean (b : bool)
| Num (n : Number)
| Str (s : Bytes)
| Arr (l : list Value)
| Obj (fields : list (string * Value)).

(** [Value::get] with a string. *)
Definition get (v : Value) (key : string) : option Value :=
  match v with
  | Obj fields => snd <$> head (filter (fun f => f.1 = key) fields)
  | _ => None
  end.

(** [Value::as_u64]. *)
Definition as_u64 (v : Value) : option Z :=
  match v with Num (PosInt n) => Some n | _ => None end.

(** [Option::or_else]. *)
Definition or_else {A} (a : option A) (b : option A) : option A := match a with Some _ => a | None => b end.

(** [serde_json::from_slice::<Value>], also on the bytes of a [str]. *)
Class JsonLib : Type := { json_from_slice : Bytes -> option Value }.

Section Value_ind.
Context (P : Value -> Prop).
Hypotheses (HNull : P Null) (HBool : forall b, P (Boolean b)) (HNum : forall n, P (Num n)) (HStr : forall s, P (Str s)).
Hypothesis HArr : forall l, Forall P l -> P (Arr l).
Hypothesis HObj : forall fields, Forall (fun f => P f.2) fields -> P (Obj fields).

(** Induction with the hypothesis for the values in arrays and objects. *)
Fixpoint value_ind (v : Value) : P v :=
  match v with
  | Null => HNull
  | Boolean b => HBool b
  | Num n => HNum n
  | Str s => HStr s
  | Arr l => HArr l ((fix go l := match l return Forall P l with [] => Forall_nil_2 P | x :: l => Forall_cons_2 P x l (value_ind x) (go l) end) l)
  | Obj fields =>
      HObj fields ((fix go l := match l return Forall (fun f => P f.2) l with
                                | [] => Forall_nil_2 _
                                | x :: l => Forall_cons_2 (fun f : string * Value => P f.2) x l (value_ind x.2) (go l)
                                end) fields)
  end.
End Value_ind.

(** The bytes of text in a value, object keys apart. *)
Fixpoint text_size (v : Value) : Z :=
  match v with
  | Str s => byte_len s
  | Arr l => zsum text_size l
  | Obj fields => zsum (fun f => text_size f.2) fields
  | _ => 0
  end.

Lemma text_size_nonneg v : 0 <= text_size v.
Proof.
  induction v as [| | | s | l IH | l IH] using value_ind; cbn; try lia; [apply byte_len_nonneg | |].
  - by apply zsum_nonneg.
  - by apply zsum_nonneg.
Qed.

Lemma get_text_size v key w : get v key = Some w -> text_size w <= text_size v.
Proof.
  destruct v as [| | | | | fields]; cbn; try done. destruct (filter _ fields) as [|[k x] rest] eqn:E; cbn; [done|]. intros [= ->].
  assert (Hin : (k, w) ∈ fields) by (eapply (list_elem_of_filter (fun f => f.1 = key) fields (k, w)); rewrite E; left).
  refine (zsum_elem_le (fun f => text_size f.2) fields (k, w) _ Hin).
  apply Forall_forall. intros. apply text_size_nonneg.
Qed.
