(* ===== verification/Core.v ===== *)
(** * The provider-neutral domain types (crates/core)

    [ServiceClass] with its text form, [WorkUnits], [WorkEstimate],
    [IdentityContext], [AdmissionRequest], [AdmissionDecision] and the error
    type every other component uses. *)

From stdpp Require Import base gmap list strings countable.
From Stdlib Require Import ZArith Lia SpecFloat.
From S2P Require Import Prelude F64.

Open Scope Z_scope.

(** [uuid::Uuid], a 128-bit identifier. *)
Definition Uuid : Type := N.

(** [std::time::Duration] and [std::time::Instant], in nanoseconds. *)
Definition Duration : Type := Z.
Definition Instant : Type := Z.
Definition from_secs (s : Z) : Duration := s * 1000000000.
Definition from_millis (ms : Z) : Duration := ms * 1000000.

(** ** Service classes *)

Inductive ServiceClass : Type :=
| Realtime
| Interactive
| Standard
| Workflow
| Batch.

#[export] Instance ServiceClass_eq_dec : EqDecision ServiceClass.
Proof. solve_decision. Defined.

(** The declaration order, which the derived [Ord] uses. *)
Definition class_rank (c : ServiceClass) : Z :=
  match c with Realtime => 0 | Interactive => 1 | Standard => 2 | Workflow => 3 | Batch => 4 end.

Definition class_of_rank (n : Z) : option ServiceClass :=
  match n with
  | 0 => Some Realtime | 1 => Some Interactive | 2 => Some Standard
  | 3 => Some Workflow | 4 => Some Batch | _ => None
  end.

#[export] Program Instance ServiceClass_countable : Countable ServiceClass :=
  {| encode c := encode (class_rank c); decode p := decode p ≫= class_of_rank |}.
Next Obligation. intros []; rewrite decode_encode; reflexivity. Qed.

(** [impl fmt::Display for ServiceClass]. *)
Definition class_to_string (c : ServiceClass) : string :=
  match c with
  | Realtime => "realtime"
  | Interactive => "interactive"
  | Standard => "standard"
  | Workflow => "workflow"
  | Batch => "batch"
  end.

(** ** Errors *)

Inductive CoreError : Type :=
| InvalidServiceClass (value : string)
| InvalidWork (value : f64)
| Provider (message : string)
| Cancelled
| Deadline
| Capacity (retry : option Duration).

(** [impl FromStr for ServiceClass]. *)
Definition class_from_str (value : string) : result CoreError ServiceClass :=
  if String.eqb value "realtime" then Ok Realtime
  else if String.eqb value "interactive" then Ok Interactive
  else if String.eqb value "standard" then Ok Standard
  else if String.eqb value "workflow" then Ok Workflow
  else if String.eqb value "batch" then Ok Batch
  else Err (InvalidServiceClass value).

(** ** Work *)

Record WorkUnits : Type := mkWorkUnits { wu : f64 }.

(** [WorkUnits::new]. *)
Definition WorkUnits_new (value : f64) : result CoreError WorkUnits :=
  if is_finite value && f_ge value f_zero then Ok (mkWorkUnits value) else Err (InvalidWork value).

Inductive EstimateSource : Type :=
| ExactTokenizer
| CompatibleTokenizer
| TrustedClient
| ProviderMetadata
| Approximation.

(** [f32], used for the estimate's confidence only. *)
Definition f32 : Type := spec_float.
Definition f32_lit (n d : Z) : f32 :=
  SFdiv 24 128 (binary_normalize 24 128 n 0 false) (binary_normalize 24 128 d 0 false).

Record WorkEstimate : Type := mkWorkEstimate {
  input_tokens : Z;
  output_tokens : Z;
  cached_input_tokens : Z;
  provider_cost_coefficient : f64;
  normalized_units : WorkUnits;
  confidence : f32;
  source : EstimateSource
}.

(** [WorkEstimate::conservative]. *)
Definition conservative (input_tokens max_output_tokens : Z) (coefficient : f64) : result CoreError WorkEstimate :=
  let units := f_mul (f_of_Z (sat_add input_tokens max_output_tokens)) coefficient in
  let? normalized := WorkUnits_new units in
  Ok {| input_tokens := input_tokens;
        output_tokens := max_output_tokens;
        cached_input_tokens := 0;
        provider_cost_coefficient := coefficient;
        normalized_units := normalized;
        confidence := f32_lit 45 100;
        source := Approximation |}.

(** ** Requests and decisions *)

Record IdentityContext : Type := mkIdentity {
  principal : string;
  tenant : string;
  application : string;
  trusted : bool
}.

Record AdmissionRequest : Type := mkAdmissionRequest {
  req_id : Uuid;
  identity : IdentityContext;
  requested_class : ServiceClass;
  effective_class : ServiceClass;
  pool : string;
  estimate : WorkEstimate;
  deadline : Duration;
  queueable : bool
}.

Inductive AdmissionDecision : Type :=
| Admit (reservation_id : Uuid)
| Queue (position : Z) (retry_after_ms : Z)
| Reject (reason : string) (retry_after : option Z)
| Shadow (would : AdmissionDecision).

Record UpstreamHealth : Type := mkUpstreamHealth { healthy : bool; health_detail : string }.

Record ThrottleSignal : Type := mkThrottleSignal { retry_after : option Duration; status : Z }.

Definition HEADER_CLASS : string := "x-inferqos-class".
Definition HEADER_DEADLINE_MS : string := "x-inferqos-deadline-ms".
Definition HEADER_TENANT : string := "x-inferqos-tenant".
Definition HEADER_APPLICATION : string := "x-inferqos-application".
Definition HEADER_QUEUEABLE : string := "x-inferqos-queueable".
Definition HEADER_REQUEST_ID : string := "x-inferqos-request-id".

(** The work a request is charged for, as the scheduler and the ledger read it. *)
Definition req_units (r : AdmissionRequest) : f64 := wu (normalized_units (estimate r)).

(** ** Facts *)

Lemma class_from_to c : class_from_str (class_to_string c) = Ok c.
Proof. destruct c; reflexivity. Qed.

Lemma class_to_string_inj c1 c2 : class_to_string c1 = class_to_string c2 -> c1 = c2.
Proof. destruct c1, c2; cbn; congruence. Qed.

Lemma WorkUnits_new_ok v w : valid v -> WorkUnits_new v = Ok w -> nn (wu w) /\ is_finite (wu w) = true.
Proof.
  unfold WorkUnits_new, f_ge. intros V. destruct (is_finite v) eqn:F; cbn; [|done].
  destruct (SFleb f_zero v) eqn:L; [|done]. intros [= <-]. cbn.
  apply (f_le_spec f_zero v eq_refl V) in L as (_ & N & L). repeat split; done.
Qed.
