(* ===== verification/Telemetry.v ===== *)
(** * Telemetry (crates/telemetry)

    [RuntimeMetrics] hands measurements to the OpenTelemetry SDK; a method is
    the list of the measurements it makes.  [init] is the list of the effects it
    has on the process, and its result; the exporters, the subscriber and the
    environment are code outside the repository. *)

From stdpp Require Import base list strings.
From Stdlib Require Import ZArith Lia SpecFloat.
From S2P Require Import Prelude Rounding F64 F64Facts Core.

Open Scope Z_scope.

(** ** Instruments *)

Inductive Instrument : Type :=
| Requests
| Active
| AdmissionLatency
| QueueLatency
| EstimatedWork
| ActualWork
| EstimationError
| Throttles
| CoordinatorFailures.

#[export] Instance Instrument_eq_dec : EqDecision Instrument.
Proof. solve_decision. Defined.

(** [RuntimeMetrics::default]: the name and the unit of each instrument. *)
Definition instrument_name (i : Instrument) : string :=
  match i with
  | Requests => "inferqos.requests"
  | Active => "inferqos.active_requests"
  | AdmissionLatency => "inferqos.admission.decision.duration"
  | QueueLatency => "inferqos.scheduler.queue.duration"
  | EstimatedWork => "inferqos.work.estimated"
  | ActualWork => "inferqos.work.actual"
  | EstimationError => "inferqos.work.estimation_error"
  | Throttles => "inferqos.provider.throttles"
  | CoordinatorFailures => "inferqos.coordinator.failures"
  end.

Definition instrument_unit (i : Instrument) : option string :=
  match i with
  | AdmissionLatency | QueueLatency => Some "s"%string
  | EstimatedWork | ActualWork => Some "{work_unit}"%string
  | _ => None
  end.

(** [Counter<u64>], [UpDownCounter<i64>] and [Histogram<f64>]. *)
Inductive Reading : Type :=
| AddU64 (n : Z)
| AddI64 (n : Z)
| RecordF64 (x : f64).

Abbreviation Labels := (list (string * string)).

Record Measurement : Type := mkMeasurement { m_on : Instrument; m_reading : Reading; m_labels : Labels }.

(** ** [RuntimeMetrics] *)

(** [RuntimeMetrics::class]. *)
Definition class_labels (class : string) : Labels := [("inferqos.service_class"%string, class)].
Definition provider_labels (provider : string) : Labels := [("gen_ai.provider.name"%string, provider)].

Definition otel_request (class : string) (work : f64) : list Measurement :=
  [mkMeasurement Requests (AddU64 1) (class_labels class); mkMeasurement EstimatedWork (RecordF64 work) (class_labels class)].

Definition otel_active (delta : Z) (class : string) : list Measurement :=
  [mkMeasurement Active (AddI64 delta) (class_labels class)].

Definition otel_admission (seconds : f64) (class : string) : list Measurement :=
  [mkMeasurement AdmissionLatency (RecordF64 seconds) (class_labels class)].

Definition otel_queue (seconds : f64) (class : string) : list Measurement :=
  [mkMeasurement QueueLatency (RecordF64 seconds) (class_labels class)].

Definition otel_throttle (provider : string) : list Measurement :=
  [mkMeasurement Throttles (AddU64 1) (provider_labels provider)].

Definition otel_coordinator_failure : list Measurement := [mkMeasurement CoordinatorFailures (AddU64 1) []].

(** [(actual - estimated) / estimated]. *)
Definition relative_error (estimated actual : f64) : f64 := f_div (f_sub actual estimated) estimated.

Definition otel_reconciliation (estimated actual : f64) (class : string) : list Measurement :=
  mkMeasurement ActualWork (RecordF64 actual) (class_labels class) ::
  (if f_gt estimated f_zero
   then [mkMeasurement EstimationError (RecordF64 (relative_error estimated actual)) (class_labels class)] else []).

(** ** What a backend adds up *)

Definition reading_sum (r : Reading) : Z := match r with AddU64 n | AddI64 n => n | RecordF64 _ => 0 end.

(** The sum of a counter over the measurements whose labels are selected, and
    the number of samples of an instrument. *)
Definition counter (i : Instrument) (select : Labels -> bool) (log : list Measurement) : Z :=
  zsum (fun m => if bool_decide (m_on m = i) && select (m_labels m) then reading_sum (m_reading m) else 0) log.
Definition samples (i : Instrument) (log : list Measurement) : Z :=
  zsum (fun m => if bool_decide (m_on m = i) then 1 else 0) log.

Definition labelled (l : Labels) : Labels -> bool := fun x => bool_decide (x = l).
Definition any_label : Labels -> bool := fun _ => true.

(** Every set of labels the instruments can get, for the given names of
    providers. *)
Definition label_sets (providers : list string) : list Labels :=
  [] :: (class_labels ∘ class_to_string <$> [Realtime; Interactive; Standard; Workflow; Batch]) ++ (provider_labels <$> providers).

Lemma counter_app i sel log1 log2 : counter i sel (log1 ++ log2) = counter i sel log1 + counter i sel log2.
Proof. apply zsum_app. Qed.

Lemma samples_app i log1 log2 : samples i (log1 ++ log2) = samples i log1 + samples i log2.
Proof. apply zsum_app. Qed.

(** ** The relative error of an estimate *)

(** A negative numerator no larger than the denominator. *)
Lemma f_div_neg_ge x y : fin x -> nn y -> is_finite y = true -> - ext y <= ext x < 0 ->
  fin (f_div x y) /\ - ONE <= ext (f_div x y) <= 0.
Proof.
  intros [Vx Fx] Ny Fy [Lx Nx]. pose proof ONE_pos.
  destruct (nn_zero_or y Ny Fy) as [[sy ->] | (my & ey & ->)]; [cbn in Lx; lia|]. destruct Ny as [[Vy _] _].
  destruct x as [| | |[] mx ex]; try discriminate; cbn [ext cond_Zopp] in Nx; [|pose proof (valid_ext_lt _ _ _ Vx); lia].
  pose proof (valid_ext_lt _ _ _ Vx) as Bx. pose proof (valid_ext_lt _ _ _ Vy) as By. cbn [ext cond_Zopp] in Lx.
  destruct (f_div_spec _ _ _ _ _ _ Vx Vy) as (V & E & N & F).
  set (a := Z.pos mx * 2 ^ (ex + BIAS)) in *. set (b := Z.pos my * 2 ^ (ey + BIAS)) in *. fold ONE in *.
  assert (R : 0 <= rnd (a * ONE) b <= ONE).
  { split; [apply rnd_nonneg; nia|]. apply rnd_le_representable; [nia | lia | lia | | nia].
    rewrite <- (Z.mul_1_l ONE). exact (pow2_ONE_representable 0 ltac:(lia)). }
  assert (ONE < FMAX) by reflexivity. rewrite E. cbn [xorb cond_Zopp]. split; [split; [done|] | lia]. rewrite F. apply Z.ltb_lt. lia.
Qed.

(** The relative error of a positive estimate is a number, at least -1, and has
    the sign of the difference. *)
Lemma relative_error_range estimated actual :
  nn estimated -> is_finite estimated = true -> nn actual -> is_finite actual = true -> f_gt estimated f_zero = true ->
  num (relative_error estimated actual) /\ - ONE <= ext (relative_error estimated actual) /\
  (ext actual <= ext estimated -> ext (relative_error estimated actual) <= 0) /\
  (ext estimated <= ext actual -> 0 <= ext (relative_error estimated actual)).
Proof.
  intros Ne Fe Na Fa P. unfold f_gt in P. change (SFltb f_zero estimated) with (f_lt f_zero estimated) in P.
  rewrite lt_num in P by (try apply Ne; by split). apply Z.ltb_lt in P. change (ext f_zero) with 0 in P. pose proof ONE_pos.
  assert (Vo : fin (f_opp estimated)) by (destruct Ne as [[V _] _]; split; by destruct estimated).
  pose proof (f_sub_spec actual estimated ltac:(apply Na) ltac:(apply Ne) Fa Fe) as HS. destruct Na as [Na Pa].
  destruct (is_sum_between _ _ (f_opp estimated) actual HS) as (Fd & Ed & Bd); [done | by split; [apply Na|] | rewrite ext_opp; lia |].
  rewrite ext_opp in Bd. assert (Hz : rndz 0 = 0) by reflexivity.
  assert (Hs : (ext actual <= ext estimated -> ext (f_sub actual estimated) <= 0) /\ (ext estimated <= ext actual -> 0 <= ext (f_sub actual estimated))).
  { rewrite Ed. split; intros; rewrite <- Hz; apply rndz_mono; lia. }
  unfold relative_error. destruct (Z.lt_ge_cases (ext (f_sub actual estimated)) 0) as [L | L].
  - destruct (f_div_neg_ge (f_sub actual estimated) estimated Fd Ne Fe) as [F B]; [lia|].
    split_and!; [by apply fin_num | lia | lia |]. intros H'. apply Hs in H'. lia.
  - destruct (f_div_nn (f_sub actual estimated) estimated) as [N E]; try done; [by split; [apply fin_num|] | apply Fd |].
    split_and!; [apply N | destruct N; lia | | intros _; apply N].
    intros H'. apply Hs in H'. assert (Z0 : ext (f_sub actual estimated) = 0) by lia. rewrite E, Z0, Z.mul_0_l, rnd_0 by done. lia.
Qed.

(** ** Initialization *)

Inductive TelemetryError : Type := Configuration (detail : string).

(** What [init] does to the process: exporters for an endpoint, the global
    providers, and the log subscriber with its filter, in JSON or not, with the
    spans of the tracer or without. *)
Inductive Effect : Type :=
| BuildSpanExporter (endpoint : string)
| BuildMetricExporter (endpoint : string)
| SetTracerProvider (endpoint : string)
| SetMeterProvider (endpoint : string)
| InstallSubscriber (filter : string) (json : bool) (tracer : bool).

(** A provider is known by the endpoint it exports to. *)
Record TelemetryGuard : Type := mkTelemetryGuard { tracer : option string; meter : option string }.

(** The answers of the SDK, and of [EnvFilter::try_from_default_env]. *)
Record Sdk : Type := mkSdk {
  span_exporter : string -> result string unit;
  metric_exporter : string -> result string unit;
  try_init : result string unit; (** no subscriber is installed yet *)
  env_filter : option string
}.

Definition configuration {A} (r : result string A) : result TelemetryError A :=
  match r with Ok a => Ok a | Err e => Err (Configuration e) end.

(** [init]; [endpoint] is the variable [OTEL_EXPORTER_OTLP_ENDPOINT]. *)
Definition init (sdk : Sdk) (endpoint : option string) : list Effect * result TelemetryError TelemetryGuard :=
  let filter := default "inferqos=info"%string (env_filter sdk) in
  match endpoint with
  | Some endpoint =>
      match configuration (span_exporter sdk endpoint) with
      | Err e => ([], Err e)
      | Ok _ =>
          match configuration (metric_exporter sdk endpoint) with
          | Err e => ([BuildSpanExporter endpoint], Err e)
          | Ok _ =>
              let built := [BuildSpanExporter endpoint; BuildMetricExporter endpoint; SetTracerProvider endpoint; SetMeterProvider endpoint] in
              match configuration (try_init sdk) with
              | Err e => (built, Err e)
              | Ok _ => (built ++ [InstallSubscriber filter true true], Ok (mkTelemetryGuard (Some endpoint) (Some endpoint)))
              end
          end
      end
  | None =>
      match configuration (try_init sdk) with
      | Err e => ([], Err e)
      | Ok _ => ([InstallSubscriber filter false false], Ok (mkTelemetryGuard None None))
      end
  end.

(** [TelemetryGuard::shutdown]: the providers it shuts down, in order; their
    errors are dropped. *)
Definition shutdown (g : TelemetryGuard) : list string := option_list (tracer g) ++ option_list (meter g).

(** Nothing is exported unless an endpoint is set, and then both exporters go to
    it and both providers are shut down with the guard. *)
Lemma init_exports sdk endpoint effects guard : init sdk endpoint = (effects, Ok guard) ->
  (forall e, BuildSpanExporter e ∈ effects <-> endpoint = Some e) /\
  (forall e, BuildMetricExporter e ∈ effects <-> endpoint = Some e) /\
  shutdown guard = match endpoint with Some e => [e; e] | None => [] end /\
  length (filter (fun x => match x with InstallSubscriber _ _ _ => true | _ => false end = true) effects) = 1%nat.
Proof.
  unfold init. destruct endpoint as [e|]; [destruct (span_exporter sdk e), (metric_exporter sdk e)|]; destruct (try_init sdk);
    cbn [configuration]; try done; intros [= <- <-]; cbn [app]; split_and!; try done; intros x;
    rewrite ?elem_of_cons, elem_of_nil; naive_solver.
Qed.
