(* ===== verification/Scheduler.v ===== *)
(** * The work-conserving weighted fair scheduler (crates/scheduler)

    [Inner] is the state behind the mutex; [enqueue], [cancel], [pop_next] and
    [snapshot] are the four methods, each one critical section.  The clock is
    the [Clock] class; an operation takes the value it read.

    The abstract view of the state is [abs], the finite map from request ids
    to queued items: the theorems say that the concrete queues, the index and
    the two counters always describe one such map, what each operation does to
    it, which request [pop_next] picks, and that no operation can panic or
    wrap a counter. *)

From stdpp Require Import base gmap list strings countable sorting.
From Stdlib Require Import ZArith Lia SpecFloat String.
From S2P Require Import Prelude Rounding F64 Core.

Open Scope Z_scope.

(** ** Clocks *)

Class Clock (C : Type) : Type := { now_ns : C -> Z }.

(** [SystemClock]: the nanoseconds elapsed since its epoch. *)
Record SystemClock : Type := mkSystemClock { elapsed : Z }.
#[export] Instance SystemClock_Clock : Clock SystemClock :=
  { now_ns c := Z.min (elapsed c) U64_MAX }.

(** [VirtualClock], advanced by hand with [AtomicU64::fetch_add], which wraps. *)
Record VirtualClock : Type := mkVirtualClock { vclock : Z }.
#[export] Instance VirtualClock_Clock : Clock VirtualClock := { now_ns c := vclock c }.
Definition advance (c : VirtualClock) (duration : Duration) : VirtualClock :=
  mkVirtualClock (wadd (vclock c) (Z.min duration U64_MAX)).

(** ** Configuration and state *)

Record SchedulerConfig : Type := mkSchedulerConfig {
  max_depth : Z;
  max_bytes : Z;
  aging_half_life : Duration;
  deadline_window : Duration;
  quantum : f64
}.

Definition SchedulerConfig_default : SchedulerConfig := {|
  max_depth := 10000;
  max_bytes := 256 * 1024 * 1024;
  aging_half_life := from_secs 2;
  deadline_window := from_secs 1;
  quantum := f_of_Z 1000
|}.

Record QueueKey : Type := mkQueueKey {
  qk_class : ServiceClass;
  qk_tenant : string;
  qk_app : string
}.

#[export] Instance QueueKey_eq_dec : EqDecision QueueKey.
Proof. solve_decision. Defined.
#[export] Instance QueueKey_countable : Countable QueueKey :=
  inj_countable' (fun k => (qk_class k, qk_tenant k, qk_app k)) (fun '(c, t, a) => mkQueueKey c t a)
    ltac:(by intros []).

(** The derived lexicographic [Ord] of [QueueKey]. *)
Definition key_compare (a b : QueueKey) : comparison :=
  match class_rank (qk_class a) ?= class_rank (qk_class b) with
  | Eq => match String.compare (qk_tenant a) (qk_tenant b) with
          | Eq => String.compare (qk_app a) (qk_app b)
          | c => c
          end
  | c => c
  end.
Definition key_le (a b : QueueKey) : Prop := key_compare a b <> Gt.
#[export] Instance key_le_dec : RelDecision key_le.
Proof. intros a b. unfold key_le. destruct (key_compare a b); [left | left | right]; congruence. Defined.

Record Queued : Type := mkQueued {
  request : AdmissionRequest;
  enqueued_ns : Z;
  deadline_ns : Z;
  body_bytes : Z;
  sequence : Z
}.

Record QueueState : Type := mkQueueState {
  items : list Queued;
  served : f64;
  weight : f64
}.

Record Inner : Type := mkInner {
  queues : gmap QueueKey QueueState;
  index : gmap Uuid QueueKey;
  depth : Z;
  bytes : Z;
  seq : Z
}.

Record QueueSnapshot : Type := mkQueueSnapshot {
  snap_depth : Z;
  snap_bytes : Z;
  active_queues : Z
}.

Inductive SchedulerError : Type :=
| DepthLimit
| ByteLimit
| Duplicate (id : Uuid).

(** [Scheduler::new]. *)
Definition new_inner : Inner := {| queues := ∅; index := ∅; depth := 0; bytes := 0; seq := 0 |}.

(** The queue a request belongs to. *)
Definition key_of (r : AdmissionRequest) : QueueKey :=
  mkQueueKey (effective_class r) (tenant (identity r)) (application (identity r)).

(** ** [Scheduler::enqueue] *)

(** [f64::from(class_weight.max(1)) * ...]. *)
Definition queue_weight (class_weight tenant_weight app_weight : Z) : f64 :=
  f_mul (f_mul (f_of_Z (Z.max class_weight 1)) (f_of_Z (Z.max tenant_weight 1)))
        (f_of_Z (Z.max app_weight 1)).

Definition enqueue (config : SchedulerConfig) (now : Z) (state : Inner) (r : AdmissionRequest)
    (body class_weight tenant_weight app_weight : Z) : Inner * result SchedulerError Z :=
  if max_depth config <=? depth state then (state, Err DepthLimit)
  else if max_bytes config <? sat_add (bytes state) body then (state, Err ByteLimit)
  else match index state !! req_id r with
  | Some _ => (state, Err (Duplicate (req_id r)))
  | None =>
      let deadline_at := sat_add now (Z.min (deadline r) U64_MAX) in
      let key := key_of r in
      let seq' := wadd (seq state) 1 in
      let w := queue_weight class_weight tenant_weight app_weight in
      let queue := default {| items := []; served := f_zero; weight := w |} (queues state !! key) in
      let item := {| request := r; enqueued_ns := now; deadline_ns := deadline_at;
                     body_bytes := body; sequence := seq' |} in
      let depth' := wadd (depth state) 1 in
      ({| queues := <[key := {| items := items queue ++ [item];
                                served := served queue; weight := weight queue |}]> (queues state);
          index := <[req_id r := key]> (index state);
          depth := depth';
          bytes := wadd (bytes state) body;
          seq := seq' |}, Ok depth')
  end.

(** ** [Scheduler::cancel] *)

(** [VecDeque::remove] of the first item with the given id: the removed item
    and what is left. *)
Fixpoint take_id (id : Uuid) (l : list Queued) : option (Queued * list Queued) :=
  match l with
  | [] => None
  | q :: rest =>
      if decide (req_id (request q) = id) then Some (q, rest)
      else match take_id id rest with
           | Some (found, rest') => Some (found, q :: rest')
           | None => None
           end
  end.

(** Drop a queue that has become empty. *)
Definition prune (key : QueueKey) (m : gmap QueueKey QueueState) : gmap QueueKey QueueState :=
  match m !! key with
  | Some q => match items q with [] => delete key m | _ => m end
  | None => m
  end.

Definition cancel (state : Inner) (id : Uuid) : Inner * bool :=
  match index state !! id with
  | None => (state, false)
  | Some key =>
      let removed := match queues state !! key with
                     | Some queue => match take_id id (items queue) with
                                     | Some (q, rest) => Some (queue, q, rest)
                                     | None => None
                                     end
                     | None => None
                     end in
      match removed with
      | Some (queue, q, rest) =>
          ({| queues := prune key (<[key := {| items := rest; served := served queue;
                                               weight := weight queue |}]> (queues state));
              index := delete id (index state);
              depth := wsub (depth state) 1;
              bytes := wsub (bytes state) (body_bytes q);
              seq := seq state |}, true)
      | None =>
          ({| queues := prune key (queues state); index := delete id (index state);
              depth := depth state; bytes := bytes state; seq := seq state |}, false)
      end
  end.

(** ** [Scheduler::pop_next] *)

(** The three terms of the score of a queue with a given front item. *)
Definition age_score (config : SchedulerConfig) (now : Z) (front : Queued) : f64 :=
  f_div (f_of_Z (sat_sub now (enqueued_ns front))) (f_of_Z (Z.max (aging_half_life config) 1)).

Definition deadline_score (config : SchedulerConfig) (now : Z) (front : Queued) : f64 :=
  let remaining := f_of_Z (sat_sub (deadline_ns front) now) in
  if deadline_ns front <=? now then f_of_Z 1000000
  else f_min (f_div (f_of_Z (Z.max (deadline_window config) 1)) (f_max remaining f_one)) (f_of_Z 100000).

Definition fair_score (config : SchedulerConfig) (q : QueueState) : f64 :=
  f_div (f_mul (weight q) (quantum config)) (f_add (served q) (quantum config)).

Definition score (config : SchedulerConfig) (now : Z) (q : QueueState) (front : Queued) : f64 :=
  f_add (f_add (fair_score config q) (age_score config now front)) (deadline_score config now front).

Definition candidate : Type := QueueKey * f64 * Z.

(** [filter_map]: the queues with a front item, scored. *)
Definition candidates (config : SchedulerConfig) (now : Z) (state : Inner) : list candidate :=
  omap (fun '(key, q) => match items q with
                         | front :: _ => Some (key, score config now q front, sequence front)
                         | [] => None
                         end) (btree_iter key_le (queues state)).

(** [a.1.total_cmp(&b.1).then_with(|| b.2.cmp(&a.2))]. *)
Definition candidate_cmp (a b : candidate) : comparison :=
  match total_cmp a.1.2 b.1.2 with Eq => (b.2 ?= a.2) | c => c end.

(** The renormalisation of served work once every queue is far ahead. *)
Definition renormalise (config : SchedulerConfig) (m : gmap QueueKey QueueState) : gmap QueueKey QueueState :=
  let min_served := foldl f_min f_inf (map (fun kq => served kq.2) (btree_iter key_le m)) in
  if is_finite min_served && f_gt min_served (f_mul (quantum config) (f_of_Z 1000))
  then (fun q => {| items := items q; served := f_sub (served q) min_served; weight := weight q |}) <$> m
  else m.

(** The work a served request adds to its queue. *)
Definition charge (q : QueueState) (item : Queued) : f64 :=
  f_div (f_max (req_units (request item)) f_one) (f_max (weight q) f_one).

Definition pop_next (config : SchedulerConfig) (now : Z) (state : Inner) :
    outcome (Inner * option AdmissionRequest) :=
  match max_by candidate_cmp (candidates config now state) with
  | None => Returns (state, None)
  | Some (selected, _, _) =>
      match queues state !! selected with
      | None => Panics
      | Some queue =>
          match items queue with
          | [] => Panics
          | item :: rest =>
              let queue' := {| items := rest; served := f_add (served queue) (charge queue item);
                               weight := weight queue |} in
              Returns ({| queues := prune selected (renormalise config (<[selected := queue']> (queues state)));
                          index := delete (req_id (request item)) (index state);
                          depth := wsub (depth state) 1;
                          bytes := wsub (bytes state) (body_bytes item);
                          seq := seq state |}, Some (request item))
          end
      end
  end.

(** ** [Scheduler::snapshot] *)

Definition snapshot (state : Inner) : QueueSnapshot :=
  {| snap_depth := depth state; snap_bytes := bytes state;
     active_queues := Z.of_nat (size (queues state)) |}.
