(* ===== verification/SchedulerInv.v ===== *)
(** * The scheduler's invariant and its refinement of a finite map

    [Inv] relates the queues, the index and the counters of [Inner]; every
    operation preserves it ([enqueue_Inv], [cancel_Inv], [pop_Inv]).  [abs] is
    the abstract state, the finite map from request ids to queued items. *)

From stdpp Require Import base gmap strings countable sorting list.
From Stdlib Require Import ZArith Lia SpecFloat.
From S2P Require Import Prelude Rounding F64 Core Scheduler.

Open Scope Z_scope.

Definition item_id (it : Queued) : Uuid := req_id (request it).

(** All queued items, in no particular order between queues. *)
Definition all_items (m : gmap QueueKey QueueState) : list Queued :=
  map_to_list m ≫= fun kq => items kq.2.

(** ** The contents of a map of queues *)

Lemma all_items_empty : all_items ∅ = [].
Proof. unfold all_items. rewrite map_to_list_empty. reflexivity. Qed.

Lemma all_items_insert_fresh k q m : m !! k = None -> all_items (<[k:=q]> m) ≡ₚ items q ++ all_items m.
Proof. intros H. unfold all_items. rewrite map_to_list_insert by exact H. reflexivity. Qed.

Lemma all_items_lookup k q m : m !! k = Some q -> all_items m ≡ₚ items q ++ all_items (delete k m).
Proof.
  intros H. rewrite <- (insert_delete_id m k q H) at 1.
  apply all_items_insert_fresh, lookup_delete_eq.
Qed.

Lemma all_items_insert k q m : all_items (<[k:=q]> m) ≡ₚ items q ++ all_items (delete k m).
Proof. rewrite <- insert_delete_eq. apply all_items_insert_fresh, lookup_delete_eq. Qed.

Lemma all_items_none k m : m !! k = None -> all_items (delete k m) = all_items m.
Proof. intros H. by rewrite delete_id. Qed.

Lemma elem_of_all_items it m : it ∈ all_items m <-> exists k q, m !! k = Some q /\ it ∈ items q.
Proof.
  unfold all_items. rewrite list_elem_of_bind. split.
  - intros ([k q] & Hi & Hm). apply elem_of_map_to_list in Hm. eauto.
  - intros (k & q & Hm & Hi). exists (k, q). split; [exact Hi | by apply elem_of_map_to_list].
Qed.

Lemma all_items_fmap (f : QueueState -> QueueState) m :
  (forall q, items (f q) = items q) -> all_items (f <$> m) ≡ₚ all_items m.
Proof.
  intros Hf. unfold all_items. rewrite map_to_list_fmap.
  induction (map_to_list m) as [|[k q] l IH]; cbn; [reflexivity|]. rewrite Hf. by apply Permutation_app.
Qed.

Lemma all_items_prune k m : all_items (prune k m) ≡ₚ all_items m.
Proof.
  unfold prune. destruct (m !! k) as [q|] eqn:E; [|reflexivity].
  destruct (items q) eqn:Ei; [|reflexivity]. rewrite (all_items_lookup k q m E), Ei. reflexivity.
Qed.

Lemma lookup_prune k k' m q : prune k m !! k' = Some q -> m !! k' = Some q /\ (k' = k -> items q <> []).
Proof.
  unfold prune. destruct (m !! k) as [q'|] eqn:E.
  - destruct (items q') eqn:Ei.
    + rewrite lookup_delete_Some. intros [Hk Hq]. split; [exact Hq | congruence].
    + intros Hq. split; [exact Hq|]. intros ->. congruence.
  - intros Hq. split; [exact Hq|]. intros ->. congruence.
Qed.

(** Renormalisation changes served work only. *)
Lemma renormalise_items config m :
  exists f, (forall q, items (f q) = items q /\ weight (f q) = weight q) /\ renormalise config m = f <$> m.
Proof.
  unfold renormalise. cbv zeta. destruct (_ && _).
  - eexists. split; [|reflexivity]. done.
  - exists id. split; [done|]. by rewrite map_fmap_id.
Qed.

(** ** The invariant *)

Record wf_queues (m : gmap QueueKey QueueState) : Prop := {
  wf_keyed : forall k q it, m !! k = Some q -> it ∈ items q -> key_of (request it) = k;
  wf_nonempty : forall k q, m !! k = Some q -> items q <> []
}.

Record Inv (config : SchedulerConfig) (s : Inner) : Prop := {
  inv_queues : wf_queues (queues s);
  inv_nodup : NoDup (item_id <$> all_items (queues s));
  inv_index : forall id k, index s !! id = Some k <->
    exists it, it ∈ all_items (queues s) /\ item_id it = id /\ key_of (request it) = k;
  inv_depth : depth s = Z.of_nat (length (all_items (queues s)));
  inv_bytes : bytes s = zsum body_bytes (all_items (queues s));
  inv_body : Forall (fun it => 0 <= body_bytes it) (all_items (queues s));
  inv_max_depth : depth s <= Z.max 0 (max_depth config);
  inv_max_bytes : bytes s <= Z.max 0 (max_bytes config)
}.

(** The limits a [usize] can hold without the byte counter's saturating test
    becoming vacuous. *)
Definition wf_config (config : SchedulerConfig) : Prop :=
  0 <= max_depth config <= USIZE_MAX /\ 0 <= max_bytes config < USIZE_MAX.

Lemma new_Inv config : Inv config new_inner.
Proof.
  constructor; cbn [queues index depth bytes new_inner]; rewrite ?all_items_empty; cbn; try lia.
  - split; intros *; rewrite lookup_empty; done.
  - constructor.
  - intros id k. rewrite lookup_empty. split; [done|]. intros (it & H & _). by apply not_elem_of_nil in H.
  - constructor.
Qed.

Section facts.
Context (config : SchedulerConfig) (s : Inner).
Hypothesis HI : Inv config s.

Lemma inv_index_None id : index s !! id = None <-> id ∉ item_id <$> all_items (queues s).
Proof.
  rewrite eq_None_not_Some. split; intros H Hn; apply H.
  - apply list_elem_of_fmap in Hn as (it & -> & Hit). eexists. apply HI. eauto.
  - destruct Hn as [k Hk]. apply HI in Hk as (it & Hit & <- & _). apply list_elem_of_fmap. eauto.
Qed.

Lemma inv_counts it l : all_items (queues s) ≡ₚ it :: l ->
  depth s = 1 + Z.of_nat (length l) /\ bytes s = body_bytes it + zsum body_bytes l /\
  0 <= body_bytes it /\ 0 <= zsum body_bytes l /\ Forall (fun it => 0 <= body_bytes it) l.
Proof.
  intros E. rewrite (inv_depth _ _ HI), (inv_bytes _ _ HI), E. cbn [length zsum].
  pose proof (inv_body _ _ HI) as HB. rewrite E in HB. apply Forall_cons in HB as [H1 H2].
  pose proof (zsum_nonneg body_bytes l H2). repeat split; try lia. exact H2.
Qed.

(** The queue of a queued item. *)
Lemma inv_queue_of it : it ∈ all_items (queues s) ->
  exists q, queues s !! key_of (request it) = Some q /\ it ∈ items q.
Proof.
  intros H. apply elem_of_all_items in H as (k & q & Hq & Hi).
  pose proof (wf_keyed _ (inv_queues _ _ HI) k q it Hq Hi) as <-. eauto.
Qed.
End facts.

(** Removing one item, the common part of [cancel] and [pop_next]. *)
Lemma remove_Inv config s s' it :
  wf_config config -> Inv config s ->
  all_items (queues s) ≡ₚ it :: all_items (queues s') ->
  wf_queues (queues s') ->
  index s' = delete (item_id it) (index s) ->
  depth s' = wsub (depth s) 1 -> bytes s' = wsub (bytes s) (body_bytes it) ->
  Inv config s' /\ depth s' = depth s - 1 /\ bytes s' = bytes s - body_bytes it.
Proof.
  intros [Hd Hb] HI HP HW Hix Hdep Hbyt. unfold USIZE_MAX, U64_MAX in *.
  destruct (inv_counts config s HI _ _ HP) as (D & B & B0 & BL & HF).
  pose proof (inv_max_depth _ _ HI). pose proof (inv_max_bytes _ _ HI).
  rewrite wsub_id in Hdep by int64.
  rewrite wsub_id in Hbyt by int64.
  split; [|lia]. pose proof (inv_nodup _ _ HI) as HN. rewrite HP in HN.
  apply NoDup_cons in HN as [Hnew HN].
  constructor; try assumption; try lia.
  intros id k. rewrite Hix. split.
  - rewrite lookup_delete_Some, (inv_index _ _ HI). intros (Hne & x & Hx & <- & <-).
    rewrite HP in Hx. apply elem_of_cons in Hx as [-> | Hx]; [done | eauto].
  - intros (x & Hx & <- & <-). rewrite lookup_delete_Some. split.
    + intros E. apply Hnew. rewrite E. by apply list_elem_of_fmap_2.
    + apply (inv_index _ _ HI). exists x. rewrite HP. split; [by right | done].
Qed.

(** ** [enqueue] *)

(** The item [enqueue] appends. *)
Definition new_item (now : Z) (s : Inner) (r : AdmissionRequest) (body : Z) : Queued :=
  {| request := r; enqueued_ns := now; deadline_ns := sat_add now (Z.min (deadline r) U64_MAX);
     body_bytes := body; sequence := wadd (seq s) 1 |}.

(** When the three guards let a request in. *)
Definition accepts (config : SchedulerConfig) (s : Inner) (r : AdmissionRequest) (body : Z) : Prop :=
  depth s < max_depth config /\ sat_add (bytes s) body <= max_bytes config /\ index s !! req_id r = None.

Lemma enqueue_cases config now s r body cw tw aw s' out :
  enqueue config now s r body cw tw aw = (s', out) ->
  (accepts config s r body /\ out = Ok (wadd (depth s) 1) /\
   queues s' = <[key_of r := {| items := from_option items [] (queues s !! key_of r) ++ [new_item now s r body];
                                served := from_option served f_zero (queues s !! key_of r);
                                weight := from_option weight (queue_weight cw tw aw) (queues s !! key_of r) |}]>
                 (queues s) /\
   index s' = <[req_id r := key_of r]> (index s) /\ depth s' = wadd (depth s) 1 /\
   bytes s' = wadd (bytes s) body /\ seq s' = wadd (seq s) 1) \/
  (~ accepts config s r body /\ s' = s /\
   out = Err (if max_depth config <=? depth s then DepthLimit
              else if max_bytes config <? sat_add (bytes s) body then ByteLimit
              else Duplicate (req_id r))).
Proof.
  unfold enqueue, accepts. destruct (Z.leb_spec (max_depth config) (depth s)).
  { intros [= <- <-]. right. split; [lia | done]. }
  destruct (Z.ltb_spec (max_bytes config) (sat_add (bytes s) body)).
  { intros [= <- <-]. right. split; [lia | done]. }
  destruct (index s !! req_id r) eqn:E; intros [= <- <-].
  - right. split; [intros (_ & _ & ?); congruence | done].
  - left. destruct (queues s !! key_of r); done.
Qed.

Lemma enqueue_items now s r body q' :
  items q' = from_option items [] (queues s !! key_of r) ++ [new_item now s r body] ->
  all_items (<[key_of r := q']> (queues s)) ≡ₚ new_item now s r body :: all_items (queues s).
Proof.
  intros Hq. rewrite all_items_insert, Hq, <- app_assoc. destruct (queues s !! key_of r) as [q|] eqn:E; cbn.
  - rewrite (all_items_lookup _ _ _ E). symmetry. apply Permutation_middle.
  - rewrite all_items_none by exact E. reflexivity.
Qed.

(** The counters after an accepted request. *)
Lemma accepts_no_wrap config s r body : wf_config config -> Inv config s -> 0 <= body -> accepts config s r body ->
  wadd (depth s) 1 = depth s + 1 /\ wadd (bytes s) body = bytes s + body /\
  depth s + 1 <= max_depth config /\ bytes s + body <= max_bytes config.
Proof.
  intros [Hd Hb] HI H0 (A1 & A2 & _). unfold USIZE_MAX, U64_MAX, sat_add in *.
  pose proof (inv_depth _ _ HI). pose proof (zsum_nonneg _ _ (inv_body _ _ HI)). pose proof (inv_bytes _ _ HI).
  unfold U64_MAX in A2. rewrite !wadd_id by int64. lia.
Qed.

Lemma enqueue_Inv config now s r body cw tw aw s' out :
  wf_config config -> Inv config s -> 0 <= body ->
  enqueue config now s r body cw tw aw = (s', out) -> Inv config s'.
Proof.
  intros HC HI H0 E. apply enqueue_cases in E as [(HA & _ & Hq & Hix & Hd & Hb & _) | (_ & -> & _)]; [|done].
  destruct (accepts_no_wrap _ _ _ _ HC HI H0 HA) as (Wd & Wb & Ld & Lb). rewrite Wd in Hd. rewrite Wb in Hb.
  assert (HP : all_items (queues s') ≡ₚ new_item now s r body :: all_items (queues s)).
  { rewrite Hq. by apply enqueue_items. }
  destruct HA as (_ & _ & Hfresh). pose proof Hfresh as Hnew. apply (inv_index_None _ _ HI) in Hnew.
  constructor; try lia.
  - rewrite Hq. split.
    + intros k q it. rewrite lookup_insert_Some. intros [(<- & <-) | (_ & Hk)] Hit; cbn in *.
      * apply elem_of_app in Hit as [Hit | ->%list_elem_of_singleton]; [|done].
        destruct (queues s !! key_of r) eqn:Ek; cbn in Hit; [by eapply HI | by apply not_elem_of_nil in Hit].
      * by eapply HI.
    + intros k q. rewrite lookup_insert_Some. intros [(<- & <-) | (_ & Hk)]; cbn.
      * intros [_ ?]%app_nil. discriminate.
      * by eapply HI.
  - rewrite HP. apply NoDup_cons. split; [exact Hnew | apply HI].
  - intros id k. rewrite Hix, lookup_insert_Some. setoid_rewrite HP. split.
    + intros [(<- & <-) | (_ & Hk)]; [exists (new_item now s r body); split; [left | done]|].
      apply HI in Hk as (it & Hit & ?). exists it. split; [by right | done].
    + intros (it & [-> | Hit]%elem_of_cons & <- & <-); [by left|]. right. split.
      * intros Er. apply Hnew. rewrite Er. by apply list_elem_of_fmap_2.
      * apply HI. eauto.
  - rewrite Hd, HP, (inv_depth _ _ HI). cbn [length]. lia.
  - rewrite Hb, HP, (inv_bytes _ _ HI). cbn [zsum new_item body_bytes]. lia.
  - rewrite HP. constructor; [exact H0 | apply HI].
Qed.

(** ** [cancel] *)

Lemma take_id_Some id l q rest : take_id id l = Some (q, rest) ->
  item_id q = id /\ exists l1 l2, l = l1 ++ q :: l2 /\ rest = l1 ++ l2.
Proof.
  revert q rest. induction l as [|x l IH]; intros q rest; cbn [take_id]; [done|].
  destruct (decide _) as [E|].
  - intros [= <- <-]. split; [exact E|]. by exists [], l.
  - destruct (take_id id l) as [[y l']|] eqn:T; [|done]. intros [= <- <-].
    destruct (IH y l' eq_refl) as (E & l1 & l2 & -> & ->). split; [exact E|]. by exists (x :: l1), l2.
Qed.

Lemma take_id_elem id l : id ∈ item_id <$> l -> is_Some (take_id id l).
Proof.
  induction l as [|x l IH]; cbn [take_id]; [intros H; by apply not_elem_of_nil in H|].
  intros H. destruct (decide _) as [|n]; [done|]. cbn in H. apply elem_of_cons in H as [-> | H]; [done|].
  destruct (IH H) as [[y l'] ->]. done.
Qed.

(** Every queue of [m'] is a queue of [m] with items left out. *)
Definition shrinks (m m' : gmap QueueKey QueueState) : Prop :=
  forall k q', m' !! k = Some q' -> exists q, m !! k = Some q /\ items q' `sublist_of` items q.

(** Taking an item out of its queue, dropping the queue when that empties it;
    [m] is the map after the other queues' served work has changed or not. *)
Lemma remove_item_queues m m' k q it l1 l2 q' :
  wf_queues m -> m !! k = Some q -> items q = l1 ++ it :: l2 -> items q' = l1 ++ l2 ->
  (exists f, (forall x, items (f x) = items x) /\ m' = f <$> <[k := q']> m) ->
  all_items m ≡ₚ it :: all_items (prune k m') /\ wf_queues (prune k m') /\ shrinks m (prune k m').
Proof.
  intros HW Hk Hq Hq' (f & Hf & ->). split; [|split].
  - rewrite all_items_prune, all_items_fmap, all_items_insert, Hq' by exact Hf.
    rewrite (all_items_lookup _ _ _ Hk), Hq, <- !app_assoc. symmetry. apply Permutation_middle.
  - split.
    + intros k' x i [H _]%lookup_prune. rewrite lookup_fmap_Some in H. destruct H as (y & <- & Hy).
      rewrite Hf. rewrite lookup_insert_Some in Hy. destruct Hy as [(<- & <-) | (_ & Hy)].
      * intros Hi. apply (wf_keyed _ HW k q); [exact Hk|]. rewrite Hq. rewrite Hq' in Hi.
        rewrite elem_of_app in Hi. rewrite elem_of_app, elem_of_cons. tauto.
      * by apply HW.
    + intros k' x [H Hne]%lookup_prune. rewrite lookup_fmap_Some in H. destruct H as (y & <- & Hy).
      rewrite lookup_insert_Some in Hy. destruct Hy as [(<- & <-) | (_ & Hy)]; [by apply Hne|].
      rewrite Hf. by apply (wf_nonempty _ HW k').
  - intros k' x [H _]%lookup_prune. rewrite lookup_fmap_Some in H. destruct H as (y & <- & Hy). rewrite Hf.
    rewrite lookup_insert_Some in Hy. destruct Hy as [(<- & <-) | (_ & Hy)]; [|eauto].
    exists q. split; [exact Hk|]. rewrite Hq, Hq'. apply sublist_app; [done | by constructor].
Qed.

Lemma cancel_cases config s id s' b :
  Inv config s -> cancel s id = (s', b) ->
  (exists it, item_id it = id /\ it ∈ all_items (queues s) /\ b = true /\
     all_items (queues s) ≡ₚ it :: all_items (queues s') /\ wf_queues (queues s') /\
     index s' = delete id (index s) /\ depth s' = wsub (depth s) 1 /\
     bytes s' = wsub (bytes s) (body_bytes it) /\ seq s' = seq s /\ shrinks (queues s) (queues s')) \/
  (index s !! id = None /\ s' = s /\ b = false).
Proof.
  intros HI. unfold cancel. destruct (index s !! id) as [key|] eqn:E; [|intros [= <- <-]; by right].
  apply HI in E as (it & Hit & Hid & <-). destruct (inv_queue_of config s HI it Hit) as (q & Hq & Hiq).
  rewrite Hq. destruct (take_id_elem id (items q)) as [[y rest] T].
  { rewrite <- Hid. by apply list_elem_of_fmap_2. }
  rewrite T. intros [= <- <-]. left. apply take_id_Some in T as (Hy & l1 & l2 & Hl & ->).
  exists y. cbn [queues index depth bytes seq].
  set (q' := {| items := l1 ++ l2; served := served q; weight := weight q |}).
  destruct (remove_item_queues (queues s) (<[key_of (request it) := q']> (queues s)) _ q y l1 l2 q'
    (inv_queues _ _ HI) Hq Hl eq_refl)
    as (HP & HW & HS); [exists (fun x => x); split; [done | symmetry; apply map_fmap_id] |].
  split_and!; try done.
  rewrite HP. by left.
Qed.

Lemma cancel_Inv config s id s' b :
  wf_config config -> Inv config s -> cancel s id = (s', b) -> Inv config s'.
Proof.
  intros HC HI H. apply (cancel_cases config) in H as [(it & <- & _ & _ & HP & HW & Hix & Hd & Hb & _) | (_ & -> & _)];
    [|exact HI|exact HI].
  by eapply remove_Inv.
Qed.

(** ** [pop_next] *)

Lemma elem_of_candidates config now s k sc sq : (k, sc, sq) ∈ candidates config now s <->
  exists q front rest, queues s !! k = Some q /\ items q = front :: rest /\
    sc = score config now q front /\ sq = sequence front.
Proof.
  unfold candidates. rewrite list_elem_of_omap. split.
  - intros ([k' q] & Hq & E). apply elem_of_btree_iter in Hq. destruct (items q) as [|front rest] eqn:Ei; [done|].
    injection E as <- <- <-. eauto 8.
  - intros (q & front & rest & Hq & Ei & -> & ->). exists (k, q). rewrite Ei.
    split; [by apply elem_of_btree_iter | done].
Qed.

Lemma candidates_nil config now s : wf_queues (queues s) -> candidates config now s = [] -> queues s = ∅.
Proof.
  intros HW HC. apply map_empty. intros k. destruct (queues s !! k) as [q|] eqn:E; [|done].
  destruct (items q) as [|front rest] eqn:Ei; [by apply (wf_nonempty _ HW k q) in Ei|].
  assert (H : (k, score config now q front, sequence front) ∈ candidates config now s)
    by (apply elem_of_candidates; eauto 8).
  rewrite HC in H. by apply not_elem_of_nil in H.
Qed.

(** What [pop_next] does when it serves [it]. *)
Record served_step (s : Inner) (it : Queued) (s' : Inner) : Prop := {
  step_items : all_items (queues s) ≡ₚ it :: all_items (queues s');
  step_wf : wf_queues (queues s');
  step_index : index s' = delete (item_id it) (index s);
  step_depth : depth s' = wsub (depth s) 1;
  step_bytes : bytes s' = wsub (bytes s) (body_bytes it);
  step_seq : seq s' = seq s;
  step_shrinks : shrinks (queues s) (queues s')
}.

Lemma pop_cases config now s :
  wf_queues (queues s) ->
  (queues s = ∅ /\ pop_next config now s = Returns (s, None)) \/
  exists k q it rest s',
    max_by candidate_cmp (candidates config now s) = Some (k, score config now q it, sequence it) /\
    queues s !! k = Some q /\ items q = it :: rest /\
    pop_next config now s = Returns (s', Some (request it)) /\
    queues s' = prune k (renormalise config (<[k := {| items := rest; served := f_add (served q) (charge q it);
                                                       weight := weight q |}]> (queues s))) /\
    served_step s it s'.
Proof.
  intros HW. unfold pop_next. destruct (max_by _ _) as [[[k sc] sq]|] eqn:M.
  - right. pose proof (max_by_elem _ _ _ M) as (q & it & rest & Hk & Hi & -> & ->)%elem_of_candidates.
    rewrite Hk, Hi. eexists k, q, it, rest, _. do 3 (split; [done|]). split; [reflexivity|]. split; [reflexivity|].
    set (q' := {| items := rest; served := _; weight := _ |}).
    destruct (renormalise_items config (<[k := q']> (queues s))) as (f & Hf & Ef).
    destruct (remove_item_queues (queues s) (renormalise config (<[k := q']> (queues s))) k q it [] rest q' HW Hk Hi eq_refl)
      as (HP & HW' & HS); [exists f; split; [apply Hf | exact Ef] |].
    by constructor.
  - left. apply max_by_None in M. split; [by eapply candidates_nil | done].
Qed.

Lemma pop_Inv config now s s' r :
  wf_config config -> Inv config s -> pop_next config now s = Returns (s', r) -> Inv config s'.
Proof.
  intros HC HI H. destruct (pop_cases config now s (inv_queues _ _ HI)) as
    [(_ & E) | (k & q & it & rest & s1 & _ & _ & _ & E & _ & [])]; rewrite E in H; injection H as <- <-; [done|].
  by eapply remove_Inv.
Qed.

(** The candidate order is a total preorder. *)
Lemma candidate_cmp_refl c : candidate_cmp c c <> Gt.
Proof. unfold candidate_cmp. rewrite total_cmp_refl, Z.compare_refl. done. Qed.

Lemma candidate_cmp_total a b : candidate_cmp a b = Gt -> candidate_cmp b a <> Gt.
Proof.
  unfold candidate_cmp. rewrite (total_cmp_sym a.1.2 b.1.2). destruct (total_cmp a.1.2 b.1.2); cbn; try done.
  rewrite (Z.compare_antisym b.2). destruct (b.2 ?= a.2); done.
Qed.

Lemma candidate_cmp_trans a b c : candidate_cmp a b <> Gt -> candidate_cmp b c <> Gt -> candidate_cmp a c <> Gt.
Proof.
  unfold candidate_cmp. intros H1 H2.
  pose proof (total_cmp_trans a.1.2 b.1.2 c.1.2) as T.
  destruct (total_cmp a.1.2 b.1.2) eqn:E1; [| |done].
  - rewrite (total_cmp_eq_l _ _ _ E1). destruct (total_cmp b.1.2 c.1.2); [|done|done].
    rewrite Z.compare_gt_iff in *. lia.
  - destruct (total_cmp b.1.2 c.1.2) eqn:E2; [| |done].
    + assert (total_cmp c.1.2 b.1.2 = Eq) as E3 by (rewrite total_cmp_sym, E2; done).
      rewrite total_cmp_sym, (total_cmp_eq_l _ _ _ E3), total_cmp_sym, E1. done.
    + destruct (total_cmp a.1.2 c.1.2) eqn:E3; [|done|exfalso; by apply T].
      exfalso. rewrite (total_cmp_eq_l _ _ _ E3) in E1. rewrite total_cmp_sym, E2 in E1. done.
Qed.

Lemma max_candidate l best c : max_by candidate_cmp l = Some best -> c ∈ l -> candidate_cmp c best <> Gt.
Proof. apply max_by_ge; [apply candidate_cmp_trans | apply candidate_cmp_total | apply candidate_cmp_refl]. Qed.
