(* ===== verification/SchedulerThms.v ===== *)
(** * What the scheduler promises

    Reachable states, the bounds of the snapshot, work conservation, the
    selection rule, first-in-first-out service within a queue, the round trip
    of [enqueue] and [cancel], and the refinement of a finite map of requests. *)

From stdpp Require Import base gmap strings countable sorting relations list.
From Stdlib Require Import ZArith Lia SpecFloat.
From S2P Require Import Prelude Rounding F64 Core Scheduler SchedulerInv.

Open Scope Z_scope.

(** ** Steps and reachable states *)

(** The ranges the Rust types give the arguments of [enqueue]. *)
Definition typed_call (now : Z) (r : AdmissionRequest) (body cw tw aw : Z) : Prop :=
  u64 now /\ 0 <= body <= USIZE_MAX /\ 0 <= deadline r /\ valid (req_units r) /\
  0 <= cw <= U32_MAX /\ 0 <= tw <= U32_MAX /\ 0 <= aw <= U32_MAX.

(** One method call on the mutex-protected state; a pop that panicked would
    have no successor. *)
Inductive step (config : SchedulerConfig) (s : Inner) : Inner -> Prop :=
| step_enqueue now r body cw tw aw :
    typed_call now r body cw tw aw -> step config s (enqueue config now s r body cw tw aw).1
| step_cancel id : step config s (cancel s id).1
| step_pop now s' r : pop_next config now s = Returns (s', r) -> step config s s'.

Definition reachable (config : SchedulerConfig) : Inner -> Prop := rtc (step config) new_inner.

Lemma step_Inv config s s' : wf_config config -> Inv config s -> step config s s' -> Inv config s'.
Proof.
  intros HC HI [now r body cw tw aw (_ & Hb & _) | |]; [eapply enqueue_Inv | eapply cancel_Inv | eapply pop_Inv];
    eauto using surjective_pairing. lia.
Qed.

Lemma rtc_Inv config s s' : wf_config config -> Inv config s -> rtc (step config) s s' -> Inv config s'.
Proof. intros HC HI H. induction H; eauto using step_Inv. Qed.

(** ** The abstract state *)

Definition abs (s : Inner) : gmap Uuid Queued :=
  list_to_map ((fun it => (item_id it, it)) <$> all_items (queues s)).

Section abs.
Context (config : SchedulerConfig) (s : Inner).
Hypothesis HI : Inv config s.

Lemma abs_keys_nodup : NoDup (((fun it => (item_id it, it)) <$> all_items (queues s)).*1).
Proof. rewrite <- list_fmap_compose. apply (inv_nodup _ _ HI). Qed.

Lemma abs_lookup id it : abs s !! id = Some it <-> it ∈ all_items (queues s) /\ item_id it = id.
Proof.
  unfold abs. rewrite <- elem_of_list_to_map by apply abs_keys_nodup. rewrite list_elem_of_fmap.
  split; [intros (y & [= -> ->] & H) | intros [H <-]]; eauto.
Qed.

Lemma abs_list : map_to_list (abs s) ≡ₚ (fun it => (item_id it, it)) <$> all_items (queues s).
Proof. apply map_to_list_to_map, abs_keys_nodup. Qed.

Lemma abs_items : (map_to_list (abs s)).*2 ≡ₚ all_items (queues s).
Proof. rewrite abs_list, <- list_fmap_compose. by rewrite list_fmap_id. Qed.

Lemma abs_depth : depth s = Z.of_nat (size (abs s)).
Proof. by rewrite (inv_depth _ _ HI), <- (Permutation_length abs_items), length_fmap, length_map_to_list. Qed.

Lemma abs_bytes : bytes s = zsum body_bytes (map_to_list (abs s)).*2.
Proof. rewrite (inv_bytes _ _ HI). apply zsum_perm. symmetry. apply abs_items. Qed.

Lemma abs_index id : index s !! id = None <-> abs s !! id = None.
Proof.
  rewrite (inv_index_None _ _ HI), eq_None_not_Some. split; intros H Hn; apply H.
  - destruct Hn as [it [Hit <-]%abs_lookup]. by apply list_elem_of_fmap_2.
  - apply list_elem_of_fmap in Hn as (it & -> & Hit). exists it. by apply abs_lookup.
Qed.
End abs.

Lemma abs_remove config s s' it : Inv config s -> Inv config s' ->
  all_items (queues s) ≡ₚ it :: all_items (queues s') -> abs s' = delete (item_id it) (abs s).
Proof.
  intros HI HI' HP. apply map_eq. intros id. apply option_eq. intros x.
  rewrite lookup_delete_Some, (abs_lookup config s' HI'), (abs_lookup config s HI), HP, elem_of_cons.
  pose proof (inv_nodup _ _ HI) as HN. rewrite HP in HN. apply NoDup_cons in HN as [HN _].
  split.
  - intros [Hx <-]. split; [|by auto]. intros E. apply HN. rewrite E. by apply list_elem_of_fmap_2.
  - intros (Hne & [-> | Hx] & <-); [done | auto].
Qed.

Lemma abs_add config s s' it : Inv config s -> Inv config s' ->
  all_items (queues s') ≡ₚ it :: all_items (queues s) -> abs s' = <[item_id it := it]> (abs s).
Proof.
  intros HI HI' HP. pose proof (inv_nodup _ _ HI') as HN. rewrite HP in HN. apply NoDup_cons in HN as [HN _].
  rewrite (abs_remove config s' s it HI' HI HP), insert_delete_eq. symmetry. apply insert_id.
  apply (abs_lookup config s' HI'). rewrite HP. split; [by left | done].
Qed.

(** ** The specification of the scheduler as a finite map *)

Inductive event : Type :=
| EvEnqueue (now : Z) (r : AdmissionRequest) (body cw tw aw : Z) (out : result SchedulerError Z)
| EvCancel (id : Uuid) (found : bool)
| EvPop (now : Z) (r : option AdmissionRequest).

(** The method call behind an event. *)
Inductive does (config : SchedulerConfig) (s : Inner) : event -> Inner -> Prop :=
| do_enqueue now r body cw tw aw s' out :
    typed_call now r body cw tw aw -> enqueue config now s r body cw tw aw = (s', out) ->
    does config s (EvEnqueue now r body cw tw aw out) s'
| do_cancel id s' b : cancel s id = (s', b) -> does config s (EvCancel id b) s'
| do_pop now s' r : pop_next config now s = Returns (s', r) -> does config s (EvPop now r) s'.

(** What the events may do to the set of waiting requests, with no reference
    to queues, index or counters. *)
Inductive allowed (config : SchedulerConfig) (a : gmap Uuid Queued) : event -> gmap Uuid Queued -> Prop :=
| ok_enqueue now r body cw tw aw it :
    Z.of_nat (size a) < max_depth config ->
    zsum body_bytes (map_to_list a).*2 + body <= max_bytes config ->
    a !! req_id r = None -> request it = r -> body_bytes it = body -> enqueued_ns it = now ->
    deadline_ns it = sat_add now (Z.min (deadline r) U64_MAX) ->
    allowed config a (EvEnqueue now r body cw tw aw (Ok (Z.of_nat (size a) + 1))) (<[req_id r := it]> a)
| full_depth now r body cw tw aw :
    max_depth config <= Z.of_nat (size a) ->
    allowed config a (EvEnqueue now r body cw tw aw (Err DepthLimit)) a
| full_bytes now r body cw tw aw :
    Z.of_nat (size a) < max_depth config ->
    max_bytes config < zsum body_bytes (map_to_list a).*2 + body ->
    allowed config a (EvEnqueue now r body cw tw aw (Err ByteLimit)) a
| duplicate now r body cw tw aw :
    Z.of_nat (size a) < max_depth config ->
    zsum body_bytes (map_to_list a).*2 + body <= max_bytes config ->
    is_Some (a !! req_id r) ->
    allowed config a (EvEnqueue now r body cw tw aw (Err (Duplicate (req_id r)))) a
| ok_cancel id : is_Some (a !! id) -> allowed config a (EvCancel id true) (delete id a)
| no_cancel id : a !! id = None -> allowed config a (EvCancel id false) a
| ok_pop now it : a !! item_id it = Some it ->
    allowed config a (EvPop now (Some (request it))) (delete (item_id it) a)
| no_pop now : a = ∅ -> allowed config a (EvPop now None) a.

Lemma wf_sat_bytes config b n : wf_config config -> 0 <= b + n ->
  (sat_add b n <= max_bytes config <-> b + n <= max_bytes config).
Proof. unfold wf_config, sat_add, USIZE_MAX. lia. Qed.

Lemma enqueue_allowed config s now r body cw tw aw s' out :
  wf_config config -> Inv config s -> 0 <= body -> enqueue config now s r body cw tw aw = (s', out) ->
  allowed config (abs s) (EvEnqueue now r body cw tw aw out) (abs s').
Proof.
  intros HC HI H0 E. pose proof (enqueue_Inv _ _ _ _ _ _ _ _ _ _ HC HI H0 E) as HI'.
  pose proof (zsum_nonneg _ _ (inv_body _ _ HI)) as HB. rewrite <- (inv_bytes _ _ HI) in HB.
  pose proof (wf_sat_bytes config (bytes s) body HC ltac:(lia)) as HS.
  pose proof (abs_depth config s HI) as HD. pose proof (abs_bytes config s HI) as HY.
  apply enqueue_cases in E as [(HA & -> & Hq & _) | (HA & -> & ->)].
  - destruct (accepts_no_wrap _ _ _ _ HC HI H0 HA) as (-> & _). destruct HA as (A1 & A2 & A3).
    rewrite (abs_add config s s' (new_item now s r body) HI HI') by (rewrite Hq; by apply enqueue_items).
    rewrite HD. constructor; try done; [lia..|]. by apply (abs_index config s HI).
  - destruct (Z.leb_spec (max_depth config) (depth s)); [constructor; lia|].
    destruct (Z.ltb_spec (max_bytes config) (sat_add (bytes s) body)); [constructor; lia|].
    constructor; [lia..|]. apply not_eq_None_Some. rewrite <- (abs_index config s HI). intros A3. apply HA. done.
Qed.

Lemma cancel_allowed config s id s' b :
  wf_config config -> Inv config s -> cancel s id = (s', b) -> allowed config (abs s) (EvCancel id b) (abs s').
Proof.
  intros HC HI E. pose proof (cancel_Inv _ _ _ _ _ HC HI E) as HI'.
  apply (cancel_cases config) in E as [(it & <- & Hit & -> & HP & _) | (Hn & -> & ->)]; [| |exact HI].
  - rewrite (abs_remove config s s' it HI HI' HP). constructor. exists it. by apply (abs_lookup config s HI).
  - constructor. by apply (abs_index config s HI).
Qed.

Lemma abs_empty config s : Inv config s -> queues s = ∅ -> abs s = ∅.
Proof. intros _ E. unfold abs. by rewrite E, all_items_empty. Qed.

Lemma pop_allowed config now s s' r :
  wf_config config -> Inv config s -> pop_next config now s = Returns (s', r) ->
  allowed config (abs s) (EvPop now r) (abs s').
Proof.
  intros HC HI E. pose proof (pop_Inv _ _ _ _ _ HC HI E) as HI'.
  destruct (pop_cases config now s (inv_queues _ _ HI)) as
    [(Hq & E1) | (k & q & it & rest & s1 & _ & _ & _ & E1 & _ & HS)]; rewrite E1 in E; injection E as <- <-.
  - constructor. by eapply abs_empty.
  - rewrite (abs_remove config s s1 it HI HI' (step_items _ _ _ HS)). constructor.
    apply (abs_lookup config s HI). split; [|done]. rewrite (step_items _ _ _ HS). by left.
Qed.

(** ** Popping everything *)

Fixpoint drain (config : SchedulerConfig) (nows : list Z) (s : Inner) : outcome (Inner * list AdmissionRequest) :=
  match nows with
  | [] => Returns (s, [])
  | now :: rest =>
      match pop_next config now s with
      | Panics => Panics
      | Returns (s', r) =>
          match drain config rest s' with
          | Panics => Panics
          | Returns (s'', rs) => Returns (s'', option_list r ++ rs)
          end
      end
  end.

Lemma drain_all config nows s : wf_config config -> Inv config s -> Z.of_nat (length nows) = depth s ->
  exists s' rs, drain config nows s = Returns (s', rs) /\ rs ≡ₚ request <$> all_items (queues s) /\
    depth s' = 0 /\ bytes s' = 0 /\ queues s' = ∅.
Proof.
  intros HC. revert s. induction nows as [|now nows IH]; intros s HI HL; cbn [drain].
  - exists s, []. pose proof (inv_depth _ _ HI) as HD. cbn in HL. destruct (all_items (queues s)) as [|x l] eqn:E.
    + split_and!; try done. { by rewrite (inv_bytes _ _ HI), E. }
      apply map_empty. intros k. destruct (queues s !! k) as [q|] eqn:Hq; [|done]. exfalso.
      destruct (items q) as [|x l] eqn:Ei; [by apply (wf_nonempty _ (inv_queues _ _ HI) k q)|].
      assert (H : x ∈ all_items (queues s)) by (apply elem_of_all_items; exists k, q; rewrite Ei; split; [done | by left]).
      rewrite E in H. by apply not_elem_of_nil in H.
    + cbn [length] in HD. lia.
  - destruct (pop_cases config now s (inv_queues _ _ HI)) as
      [(Hq & E1) | (k & q & it & rest & s1 & _ & _ & _ & E1 & _ & [HP HW Hx Hd Hb _])].
    + rewrite (inv_depth _ _ HI), Hq, all_items_empty in HL. cbn [length] in HL. lia.
    + destruct (remove_Inv config s s1 it HC HI HP HW Hx Hd Hb) as (HI1 & D1 & _).
      destruct (IH s1 HI1 ltac:(cbn [length] in HL; lia)) as (s' & rs & E2 & HR & HE).
      exists s', (request it :: rs). rewrite E1, E2. split; [done|].
      split; [by rewrite HP, HR | done].
Qed.

(** ** Arrival order within a queue *)

(** Sequence numbers increase along every queue and do not exceed the counter. *)
Definition fifo (s : Inner) : Prop :=
  forall k q, queues s !! k = Some q ->
    StronglySorted Z.lt (sequence <$> items q) /\ Forall (fun it => sequence it <= seq s) (items q).

Lemma StronglySorted_sublist (l l' : list Z) : l' `sublist_of` l -> StronglySorted Z.lt l -> StronglySorted Z.lt l'.
Proof.
  induction 1 as [|x l1 l2 H IH|x l1 l2 H IH]; intros HS; [done| |]; apply StronglySorted_cons in HS as [HF HS]; [|auto].
  constructor; [auto|]. rewrite Forall_forall in HF |- *. eauto using elem_of_sublist.
Qed.

Lemma fifo_shrinks s s' : fifo s -> shrinks (queues s) (queues s') -> seq s' = seq s -> fifo s'.
Proof.
  intros HF HS Hs k q' Hq'. destruct (HS k q' Hq') as (q & Hq & Hsub). destruct (HF k q Hq) as [H1 H2]. split.
  - eapply StronglySorted_sublist; [|exact H1]. by apply fmap_sublist.
  - rewrite Hs. rewrite Forall_forall in H2 |- *. eauto using elem_of_sublist.
Qed.

Lemma fifo_enqueue config now s r body cw tw aw s' out :
  fifo s -> 0 <= seq s < U64_MAX -> enqueue config now s r body cw tw aw = (s', out) ->
  fifo s' /\ seq s <= seq s' <= seq s + 1.
Proof.
  intros HF H0 E. apply enqueue_cases in E as [(_ & _ & Hq & _ & _ & _ & Hs) | (_ & -> & _)]; [|split; [done | lia]].
  rewrite wadd_id in Hs by int64. split; [|lia].
  intros k q. rewrite Hq, lookup_insert_Some. intros [(<- & <-) | (_ & Hk)]; cbn [items].
  - set (old := from_option items [] (queues s !! key_of r)).
    assert (HO : StronglySorted Z.lt (sequence <$> old) /\ Forall (fun it => sequence it <= seq s) old).
    { subst old. destruct (queues s !! key_of r) eqn:E; [by eapply HF | split; constructor]. }
    destruct HO as [H1 H2]. rewrite fmap_app. split.
    + apply StronglySorted_app_2; [|exact H1 | repeat constructor].
      intros x1 x2 (it & -> & Hit)%list_elem_of_fmap ->%list_elem_of_singleton. cbn [new_item sequence].
      rewrite wadd_id by int64. eapply Forall_forall in H2; [|exact Hit]. cbn in H2. lia.
    + apply Forall_app. split; [eapply Forall_impl; [exact H2|]; cbn; lia|].
      repeat constructor. cbn [new_item sequence]. rewrite wadd_id by int64. lia.
  - destruct (HF k q Hk) as [H1 H2]. split; [exact H1|]. eapply Forall_impl; [exact H2|]. cbn. lia.
Qed.

Lemma fifo_step config s s' : wf_config config -> Inv config s -> fifo s -> 0 <= seq s < U64_MAX ->
  step config s s' -> fifo s' /\ seq s <= seq s' <= seq s + 1.
Proof.
  intros HC HI HF H0 [].
  - eapply fifo_enqueue; eauto using surjective_pairing.
  - destruct (cancel s id) as [s1 b] eqn:E.
    apply (cancel_cases config) in E as [(it & _ & _ & _ & _ & _ & _ & _ & _ & Hs & HS) | (_ & -> & _)];
      [|split; [done | cbn; lia]|done].
    split; [by eapply fifo_shrinks | cbn; lia].
  - destruct (pop_cases config now s (inv_queues _ _ HI)) as
      [(_ & E) | (k & q & it & rest & s1 & _ & _ & _ & E & _ & [])]; rewrite E in H; injection H as <- <-.
    + split; [done | lia].
    + split; [by eapply fifo_shrinks | lia].
Qed.

Lemma fifo_new : fifo new_inner.
Proof. intros k q. cbn. by rewrite lookup_empty. Qed.

Lemma fifo_steps config n s s' : wf_config config -> Inv config s -> fifo s -> 0 <= seq s ->
  seq s + Z.of_nat n <= U64_MAX -> nsteps (step config) n s s' ->
  Inv config s' /\ fifo s' /\ 0 <= seq s' <= seq s + Z.of_nat n.
Proof.
  intros HC HI HF H0 HN H. revert HI HF H0 HN. induction H as [s | n s1 s2 s3 H12 H23 IH]; intros HI HF H0 HN.
  { split_and!; try done; lia. }
  destruct (fifo_step config s1 s2 HC HI HF ltac:(lia) H12) as [HF2 Hs2].
  destruct IH as (HI3 & HF3 & Hs3); [by eapply step_Inv | done | lia | lia |]. split_and!; try done; lia.
Qed.

(** ** Undoing an [enqueue] *)

Lemma take_id_last id l x : id ∉ item_id <$> l -> item_id x = id -> take_id id (l ++ [x]) = Some (x, l).
Proof.
  intros Hl Hx. induction l as [|y l IH]; cbn [take_id app].
  - by rewrite decide_True.
  - cbn in Hl. apply not_elem_of_cons in Hl as [Hy Hl].
    rewrite decide_False, IH by (done || (intros E; by apply Hy)). done.
Qed.

Lemma cancel_enqueued config now s r body cw tw aw s1 d :
  wf_config config -> Inv config s -> 0 <= body ->
  enqueue config now s r body cw tw aw = (s1, Ok d) ->
  cancel s1 (req_id r) = ({| queues := queues s; index := index s; depth := depth s; bytes := bytes s;
                             seq := wadd (seq s) 1 |}, true).
Proof.
  intros HC HI H0 E. apply enqueue_cases in E as [(HA & _ & Hq & Hix & Hd & Hb & Hs) | (_ & _ & [=])].
  destruct (accepts_no_wrap _ _ _ _ HC HI H0 HA) as (Wd & Wb & Ld & Lb). rewrite Wd in Hd. rewrite Wb in Hb.
  destruct HA as (_ & _ & Hfresh). pose proof (proj1 (inv_index_None _ _ HI _) Hfresh) as Hnew.
  pose proof (inv_depth _ _ HI). pose proof (inv_bytes _ _ HI). pose proof (zsum_nonneg _ _ (inv_body _ _ HI)).
  destruct HC as [Hc1 Hc2]. unfold USIZE_MAX in *.
  unfold cancel. rewrite Hix, lookup_insert_eq, Hq, lookup_insert_eq. cbn [items served weight].
  rewrite take_id_last; [|intros Hin; apply Hnew|done].
  2: { apply list_elem_of_fmap in Hin as (it & -> & Hit). apply list_elem_of_fmap_2.
       destruct (queues s !! key_of r) as [q|] eqn:Ek; cbn in Hit; [|by apply not_elem_of_nil in Hit].
       apply elem_of_all_items. eauto. }
  cbn [new_item body_bytes]. rewrite Hd, Hb, Hs, !wsub_id by int64.
  rewrite delete_insert_id, insert_insert_eq by exact Hfresh.
  replace (depth s + 1 - 1) with (depth s) by lia. replace (bytes s + body - body) with (bytes s) by lia.
  f_equal. f_equal. unfold prune. rewrite lookup_insert_eq. cbn [items].
  destruct (queues s !! key_of r) as [q|] eqn:Ek; cbn.
  - pose proof (wf_nonempty _ (inv_queues _ _ HI) _ _ Ek). destruct (items q) eqn:Ei; [done|].
    rewrite <- Ei. rewrite insert_id; [done|]. rewrite Ek. by destruct q.
  - apply delete_insert_id, Ek.
Qed.

(** ** The properties *)

(** Concrete inputs for the witnesses. *)
Definition ex_estimate (units : Z) : WorkEstimate :=
  {| input_tokens := 1; output_tokens := 1; cached_input_tokens := 0; provider_cost_coefficient := f_one;
     normalized_units := mkWorkUnits (f_of_Z units); confidence := f32_lit 1 1; source := ExactTokenizer |}.
Definition ex_request (id : Uuid) (who : string) (c : ServiceClass) (units : Z) (dl : Duration) : AdmissionRequest :=
  {| req_id := id; identity := mkIdentity who who "app" true; requested_class := c; effective_class := c;
     pool := "p"; estimate := ex_estimate units; deadline := dl; queueable := true |}.
Definition ex_enqueue (s : Inner) (now : Z) (r : AdmissionRequest) : Inner :=
  (enqueue SchedulerConfig_default now s r 10 1 1 1).1.
Definition ex_a : AdmissionRequest := ex_request 1%N "a" Batch 5 (from_secs 60).
Definition ex_b : AdmissionRequest := ex_request 2%N "b" Interactive 7 (from_millis 1).
Definition ex_state : Inner := ex_enqueue (ex_enqueue new_inner 0 ex_a) 5 ex_b.

Lemma wf_default : wf_config SchedulerConfig_default.
Proof. split; split; vm_compute; congruence. Qed.

Lemma ex_steps : nsteps (step SchedulerConfig_default) 2 new_inner ex_state.
Proof. eapply nsteps_l, nsteps_once; apply step_enqueue; unfold typed_call, u64; split_and!; vm_compute; congruence. Qed.

Lemma ex_reachable : reachable SchedulerConfig_default ex_state.
Proof. eapply rtc_nsteps_2, ex_steps. Qed.

(** C1: In every state the methods can reach, the queues, the index and the
    two counters describe the same set of requests: every queue is non-empty
    and holds the requests of its own class, tenant and application, no id is
    queued twice, the index maps exactly the queued ids to their queues, the
    depth is the number of queued requests, the byte counter is the sum of
    their body sizes, and neither exceeds its limit. *)
Theorem reachable_invariant config s : wf_config config -> reachable config s -> Inv config s.
Proof. intros HC H. exact (rtc_Inv _ _ _ HC (new_Inv config) H). Qed.

Lemma reachable_invariant_witness : Inv SchedulerConfig_default ex_state.
Proof. apply reachable_invariant; [apply wf_default | apply ex_reachable]. Defined.

(** C2: The scheduler refines a finite map from ids to waiting requests: every
    method call, with the result it returns, is an allowed step of the map.
    In particular [enqueue] succeeds exactly when the number of requests, the
    sum of body sizes and the freshness of the id permit, reports the first
    limit that does not, and leaves the map unchanged on an error; [cancel]
    removes exactly the named request and says whether it was there;
    [pop_next] removes and returns one waiting request, and returns none only
    when nothing waits. *)
Theorem scheduler_refines_map config s ev s' :
  wf_config config -> Inv config s -> does config s ev s' ->
  Inv config s' /\ allowed config (abs s) ev (abs s').
Proof.
  intros HC HI [now r body cw tw aw s1 out (_ & [Hb _] & _) | |]; (split; [eauto using enqueue_Inv, cancel_Inv, pop_Inv|]).
  - by eapply enqueue_allowed.
  - by apply cancel_allowed.
  - by apply pop_allowed.
Qed.

Lemma scheduler_refines_map_witness :
  Inv SchedulerConfig_default (cancel ex_state 1%N).1 /\
  allowed SchedulerConfig_default (abs ex_state) (EvCancel 1%N true) (abs (cancel ex_state 1%N).1).
Proof.
  apply scheduler_refines_map; [apply wf_default | exact (rtc_Inv _ _ _ wf_default (new_Inv _) ex_reachable) |].
  constructor. vm_compute. reflexivity.
Defined.

(** C3: Work conservation: on every reachable state [pop_next] returns without
    panicking, and it returns a request exactly when one is queued. *)
Theorem pop_work_conserving config now s :
  wf_config config -> reachable config s ->
  exists s' r, pop_next config now s = Returns (s', r) /\ (is_Some r <-> 0 < depth s).
Proof.
  intros HC H. pose proof (rtc_Inv _ _ _ HC (new_Inv config) H) as HI.
  destruct (pop_cases config now s (inv_queues _ _ HI)) as
    [(Hq & E) | (k & q & it & rest & s1 & _ & _ & _ & E & _ & HS)].
  - exists s, None. split; [exact E|]. rewrite (inv_depth _ _ HI), Hq, all_items_empty.
    split; [by intros [? ?] | cbn; lia].
  - exists s1, (Some (request it)). split; [exact E|]. destruct (inv_counts _ _ HI _ _ (step_items _ _ _ HS)).
    split; [lia | done].
Qed.

Lemma pop_work_conserving_witness :
  exists s' r, pop_next SchedulerConfig_default 9 ex_state = Returns (s', r) /\ (is_Some r <-> 0 < depth ex_state).
Proof. apply pop_work_conserving; [apply wf_default | apply ex_reachable]. Defined.

(** C4: The selection rule: [pop_next] serves the front of a queue whose score
    (fair share, age and deadline pressure) is greatest in the total order of
    doubles among the fronts of all queues, and among equal scores the one
    that was enqueued first. *)
Theorem pop_selects_greatest config now s s' r :
  wf_config config -> reachable config s -> pop_next config now s = Returns (s', Some r) ->
  exists q it rest, queues s !! key_of r = Some q /\ items q = it :: rest /\ request it = r /\
    forall k' q' it' rest', queues s !! k' = Some q' -> items q' = it' :: rest' ->
      total_cmp (score config now q' it') (score config now q it) = Lt \/
      (total_cmp (score config now q' it') (score config now q it) = Eq /\ sequence it <= sequence it').
Proof.
  intros HC H E. pose proof (rtc_Inv _ _ _ HC (new_Inv config) H) as HI.
  destruct (pop_cases config now s (inv_queues _ _ HI)) as
    [(Hq & E1) | (k & q & it & rest & s1 & HM & Hk & Hi & E1 & _)]; rewrite E1 in E; [done|].
  injection E as <- <-. exists q, it, rest.
  assert (key_of (request it) = k) as -> by (eapply HI; [exact Hk | rewrite Hi; by left]).
  split_and!; [done..|]. intros k' q' it' rest' Hk' Hi'.
  pose proof (max_candidate _ _ (k', score config now q' it', sequence it') HM
    ltac:(apply elem_of_candidates; eauto 8)) as HG.
  unfold candidate_cmp in HG. cbn [fst snd] in HG. destruct (total_cmp _ _); [right | by left | done].
  split; [done|]. rewrite Z.compare_gt_iff in HG. lia.
Qed.

Lemma pop_selects_greatest_witness :
  exists q it rest, queues ex_state !! key_of ex_b = Some q /\ items q = it :: rest /\ request it = ex_b /\
    forall k' q' it' rest', queues ex_state !! k' = Some q' -> items q' = it' :: rest' ->
      total_cmp (score SchedulerConfig_default 9 q' it') (score SchedulerConfig_default 9 q it) = Lt \/
      (total_cmp (score SchedulerConfig_default 9 q' it') (score SchedulerConfig_default 9 q it) = Eq /\
       sequence it <= sequence it').
Proof.
  eapply pop_selects_greatest; [apply wf_default | apply ex_reachable |]. vm_compute. reflexivity.
Defined.

(** C5: First in, first out within a queue: for fewer than [2^64] method calls,
    the request [pop_next] serves has the smallest sequence number of all the
    queued requests of its class, tenant and application, so it was enqueued
    before each of them. *)
Theorem pop_fifo_within_queue config n now s s' r :
  wf_config config -> Z.of_nat n <= U64_MAX -> nsteps (step config) n new_inner s ->
  pop_next config now s = Returns (s', Some r) ->
  exists it, it ∈ all_items (queues s) /\ request it = r /\
    forall it', it' ∈ all_items (queues s) -> key_of (request it') = key_of r -> it' <> it ->
      sequence it < sequence it'.
Proof.
  intros HC HN H E. destruct (fifo_steps config n _ _ HC (new_Inv config) fifo_new ltac:(cbn; lia) ltac:(cbn; lia) H)
    as (HI & HF & _).
  destruct (pop_cases config now s (inv_queues _ _ HI)) as
    [(Hq & E1) | (k & q & it & rest & s1 & _ & Hk & Hi & E1 & _)]; rewrite E1 in E; [done|].
  injection E as <- <-. exists it.
  assert (key_of (request it) = k) as Ek by (eapply HI; [exact Hk | rewrite Hi; by left]).
  split; [apply elem_of_all_items; exists k, q; rewrite Hi; split; [done | by left]|]. split; [done|].
  intros it' Hit' Hkey Hne. destruct (inv_queue_of _ _ HI it' Hit') as (q' & Hq' & Hin).
  rewrite Hkey, Ek, Hk in Hq'. injection Hq' as <-. destruct (HF k q Hk) as [HS _]. rewrite Hi in HS, Hin.
  apply elem_of_cons in Hin as [-> | Hin]; [done|]. cbn in HS. apply StronglySorted_cons in HS as [HS _].
  eapply Forall_forall in HS; [exact HS|]. by apply list_elem_of_fmap_2.
Qed.

Lemma pop_fifo_within_queue_witness :
  exists it, it ∈ all_items (queues ex_state) /\ request it = ex_b /\
    forall it', it' ∈ all_items (queues ex_state) -> key_of (request it') = key_of ex_b -> it' <> it ->
      sequence it < sequence it'.
Proof.
  eapply (pop_fifo_within_queue SchedulerConfig_default 2 9); [apply wf_default | | apply ex_steps |]; vm_compute; [congruence | reflexivity].
Defined.

(** No request is lost or duplicated: from a reachable state, as many pops
    as there are queued requests, at any clock readings, return every queued
    request exactly once and leave the scheduler empty with both counters at
    zero. *)
Theorem drain_serves_everything config nows s :
  wf_config config -> reachable config s -> Z.of_nat (length nows) = depth s ->
  exists s' rs, drain config nows s = Returns (s', rs) /\ rs ≡ₚ request <$> all_items (queues s) /\
    depth s' = 0 /\ bytes s' = 0 /\ queues s' = ∅.
Proof. intros HC H. apply drain_all; [exact HC | exact (rtc_Inv _ _ _ HC (new_Inv config) H)]. Qed.

Lemma drain_serves_everything_witness :
  exists s' rs, drain SchedulerConfig_default [9; 3] ex_state = Returns (s', rs) /\
    rs ≡ₚ request <$> all_items (queues ex_state) /\ depth s' = 0 /\ bytes s' = 0 /\ queues s' = ∅.
Proof. apply drain_serves_everything; [apply wf_default | apply ex_reachable | reflexivity]. Defined.

(** Cancelling a request that was just accepted restores the queues, the
    index and both counters exactly; only the sequence counter has moved. *)
Theorem enqueue_cancel_roundtrip config now s r body cw tw aw s1 d :
  wf_config config -> reachable config s -> 0 <= body ->
  enqueue config now s r body cw tw aw = (s1, Ok d) ->
  cancel s1 (req_id r) = ({| queues := queues s; index := index s; depth := depth s; bytes := bytes s;
                             seq := wadd (seq s) 1 |}, true).
Proof. intros HC H. by apply cancel_enqueued, (rtc_Inv _ _ _ HC (new_Inv config) H). Qed.

Definition ex_c : AdmissionRequest := ex_request 3%N "a" Batch 5 (from_secs 60).

Lemma enqueue_cancel_roundtrip_witness :
  cancel (ex_enqueue ex_state 9 ex_c) (req_id ex_c) =
    ({| queues := queues ex_state; index := index ex_state; depth := depth ex_state; bytes := bytes ex_state;
        seq := wadd (seq ex_state) 1 |}, true).
Proof.
  apply (enqueue_cancel_roundtrip SchedulerConfig_default 9 ex_state ex_c 10 1 1 1 (ex_enqueue ex_state 9 ex_c) 3
    wf_default ex_reachable); [lia | vm_compute; reflexivity].
Defined.
