(* ===== verification/SchedulerFair.v ===== *)
(** * The scheduler's scores: no NaN, bounded fair share, deadlines, aging

    The score of a queue is a sum of three doubles.  This file bounds each
    term in units of [2^-1074] (see [F64]) and derives the quantitative
    properties of the selection rule. *)

From stdpp Require Import base gmap strings countable sorting relations list.
From Stdlib Require Import ZArith Lia SpecFloat.
From S2P Require Import Prelude Rounding F64 F64Facts Core Scheduler SchedulerInv SchedulerThms.

Open Scope Z_scope.

(** ** Weights, served work and charges *)

Definition wf_weight (w : f64) : Prop := nn w /\ ONE <= ext w <= 2 ^ 96 * ONE.

(** A quantum between one and [2^64] units (the default is 1000). *)
Definition wf_quantum (config : SchedulerConfig) : Prop :=
  nn (quantum config) /\ ONE <= ext (quantum config) <= 2 ^ 64 * ONE.

Definition wf_queue (q : QueueState) : Prop := wf_weight (weight q) /\ nn (served q).

Lemma queue_weight_wf cw tw aw : 0 <= cw <= U32_MAX -> 0 <= tw <= U32_MAX -> 0 <= aw <= U32_MAX ->
  wf_weight (queue_weight cw tw aw).
Proof.
  intros Hc Ht Ha. unfold queue_weight, U32_MAX in *. pose proof ONE_pos.
  assert (B : forall n, 0 <= n <= 2 ^ 32 - 1 -> nn (f_of_Z (Z.max n 1)) /\ ONE <= ext (f_of_Z (Z.max n 1)) <= 2 ^ 32 * ONE).
  { intros n Hn. destruct (f_of_Z_exact (Z.max n 1)) as (N & _ & ->); [unfold PREC; lia|]. split; [done | nia]. }
  destruct (B cw Hc) as [N1 L1], (B tw Ht) as [N2 L2], (B aw Ha) as [N3 L3].
  destruct (f_mul_pow2 _ _ 32 32 N1 N2 ltac:(lia) ltac:(lia) L1 L2) as (N4 & L4 & _).
  destruct (f_mul_pow2 _ _ (32 + 32) 32 N4 N3 ltac:(lia) ltac:(lia) L4 L3) as (N5 & L5 & _).
  by split.
Qed.

(** Every request costs a positive, finite or infinite, amount; NaN units count as one. *)
Lemma charge_nn q it : wf_weight (weight q) -> valid (req_units (request it)) ->
  nn (charge q it) /\ (is_finite (req_units (request it)) = true ->
    ext (charge q it) = Z.min FMAX (rnd (ext (f_max (req_units (request it)) f_one) * ONE) (ext (weight q)))).
Proof.
  intros [Hw Lw] Hu. unfold charge. pose proof ONE_pos.
  destruct (f_max_valid (req_units (request it)) f_one Hu (proj1 f_one_nn)) as [N1 L1]. rewrite ext_f_one in L1.
  destruct (f_max_num (weight q) f_one (proj1 Hw) (proj1 f_one_nn)) as [N2 E2]. rewrite ext_f_one, Z.max_l in E2 by lia.
  assert (F2 : is_finite (f_max (weight q) f_one) = true).
  { apply (small_finite _ 96); [split; [exact N2 | lia] | lia | lia]. }
  set (u := f_max (req_units (request it)) f_one) in *. set (w := f_max (weight q) f_one) in *.
  rewrite <- E2. destruct (is_finite u) eqn:Fu.
  - destruct (f_div_nn u w ltac:(split; [exact N1 | lia]) ltac:(split; [exact N2 | lia]) Fu F2 ltac:(lia)) as [N E].
    by split.
  - assert (Eu : u = S754_infinity false).
    { destruct N1 as [V1 N1]. by destruct u as [|[]| |]. }
    assert (Ei : f_div (S754_infinity false) w = S754_infinity false).
    { destruct (nn_zero_or w ltac:(split; [done|lia]) F2) as [[sg ->] | (m & e & ->)]; [cbn in E2; lia | done]. }
    rewrite Eu, Ei. pose proof FMAX_pos. split; [split; [split; reflexivity | cbn [ext cond_Zopp]; lia]|].
    intros Fr. exfalso. unfold u, f_max in Fu. destruct (is_nan (req_units (request it))); [done|]. cbn [is_nan f_one] in Fu.
    destruct (f_lt _ _); [done | congruence].
Qed.

(** The fair-share term: a number between zero and twice the weight, finite. *)
Lemma fair_score_bounds config q : wf_quantum config -> wf_queue q ->
  nn (fair_score config q) /\ ext (fair_score config q) <= 2 * ext (weight q).
Proof.
  intros [Hq Lq] [[Hw Lw] Hs]. unfold fair_score. pose proof ONE_pos.
  destruct (f_mul_pow2 (weight q) (quantum config) 96 64 Hw Hq ltac:(lia) ltac:(lia) Lw Lq) as (N1 & L1 & E1).
  destruct (f_add_nn (served q) (quantum config) Hs Hq) as [N2 _].
  pose proof (f_add_ge_r (served q) (quantum config) Hs Hq) as L2.
  destruct (f_div_pos _ _ N1 N2) as (N & L & _); [eapply (small_finite _ 160); [done | lia | lia] | lia |].
  split; [exact N|]. etransitivity; [exact L|].
  set (p := ext (f_mul _ _)) in *. set (d := ext (f_add _ _)) in *.
  apply rnd_le_representable; [nia | lia | lia | |].
  - rewrite Z.mul_comm. apply (representable_nn _ 1 Hw). lia.
  - pose proof (rnd_double (ext (weight q) * ext (quantum config)) ONE ltac:(nia)). rewrite <- E1 in H0. nia.
Qed.

Lemma fair_score_antitone config q q' : wf_quantum config -> wf_queue q -> wf_queue q' ->
  weight q' = weight q -> ext (served q) <= ext (served q') ->
  ext (fair_score config q') <= ext (fair_score config q).
Proof.
  intros [Hq Lq] [[Hw Lw] Hs] [_ Hs'] Ew L. unfold fair_score. rewrite Ew. pose proof ONE_pos.
  destruct (f_mul_pow2 (weight q) (quantum config) 96 64 Hw Hq ltac:(lia) ltac:(lia) Lw Lq) as (N1 & L1 & _).
  assert (F1 : is_finite (f_mul (weight q) (quantum config)) = true) by (eapply (small_finite _ 160); [done | lia | lia]).
  destruct (f_add_nn (served q) (quantum config) Hs Hq) as [N2 _].
  destruct (f_add_nn (served q') (quantum config) Hs' Hq) as [N3 _].
  pose proof (f_add_ge_r (served q) (quantum config) Hs Hq) as L2.
  pose proof (f_add_mono _ _ _ _ Hs Hq Hs' Hq L ltac:(lia)) as L3.
  destruct (f_div_pos _ _ N1 N2 F1 ltac:(lia)) as (Na & _ & Ea).
  destruct (f_div_pos _ _ N1 N3 F1 ltac:(lia)) as (Nb & Lb & Eb).
  destruct (is_finite (f_add (served q') (quantum config))) eqn:F3.
  - rewrite Eb, Ea by (done || (apply num_fin_iff; [apply N2|]; apply num_fin_iff in F3; [|apply N3]; destruct N2; lia)).
    apply Z.min_le_compat_l, rnd_mono; [nia | lia | lia | apply Z.mul_le_mono_nonneg_l; nia].
  - destruct Na as [_ Pa]. etransitivity; [|exact Pa].
    assert (f_add (served q') (quantum config) = S754_infinity false) as ->.
    { destruct N3 as [[_ N3] P3]. by destruct (f_add (served q') (quantum config)) as [|[]| |]. }
    destruct (nn_zero_or _ N1 F1) as [[sg ->] | (m & e & ->)]; cbn; lia.
Qed.

(** ** The invariant of the doubles *)

(** A [Duration] is below [2^94] nanoseconds. *)
Definition wf_times (config : SchedulerConfig) : Prop :=
  0 <= aging_half_life config < 2 ^ 94 /\ 0 <= deadline_window config < 2 ^ 94.

Definition item_ok (it : Queued) : Prop :=
  u64 (enqueued_ns it) /\ u64 (deadline_ns it) /\ valid (req_units (request it)).

Definition FInv (s : Inner) : Prop :=
  forall k q, queues s !! k = Some q -> wf_queue q /\ Forall item_ok (items q).

Lemma new_FInv : FInv new_inner.
Proof. intros k q. cbn. by rewrite lookup_empty. Qed.

Lemma enqueue_FInv config now s r body cw tw aw s' out :
  typed_call now r body cw tw aw -> FInv s -> enqueue config now s r body cw tw aw = (s', out) -> FInv s'.
Proof.
  intros (Hn & _ & Hd & Hu & Hc & Ht & Ha) HF E.
  apply enqueue_cases in E as [(_ & _ & Hq & _) | (_ & -> & _)]; [|done].
  intros k q. rewrite Hq, lookup_insert_Some. intros [(<- & <-) | (_ & Hk)]; [|by eapply HF].
  assert (HN : item_ok (new_item now s r body)).
  { unfold item_ok, new_item, u64, sat_add in *. cbn [enqueued_ns deadline_ns request]. split_and!; try done; lia. }
  destruct (queues s !! key_of r) as [q|] eqn:E; cbn [from_option].
  - destruct (HF _ _ E) as [HQ HI]. split; [exact HQ|]. cbn [items]. apply Forall_app. by split; [|constructor].
  - split; [split; [by apply queue_weight_wf | split; [split; reflexivity | cbn; lia]] |]. by constructor.
Qed.

Lemma FInv_served s (m : gmap QueueKey QueueState) : FInv s ->
  (forall k q', m !! k = Some q' -> exists q, queues s !! k = Some q /\ items q' `sublist_of` items q /\
     weight q' = weight q /\ nn (served q')) ->
  forall k q, m !! k = Some q -> wf_queue q /\ Forall item_ok (items q).
Proof.
  intros HF H k q' Hq'. destruct (H k q' Hq') as (q & Hq & Hsub & Hw & Hs). destruct (HF k q Hq) as [[HW _] HI].
  split; [split; [by rewrite Hw | done]|]. rewrite Forall_forall in HI |- *. eauto using elem_of_sublist.
Qed.

Lemma renormalise_nn config (m : gmap QueueKey QueueState) : (forall k q, m !! k = Some q -> nn (served q)) ->
  forall k q, renormalise config m !! k = Some q ->
    exists q0, m !! k = Some q0 /\ items q = items q0 /\ weight q = weight q0 /\ nn (served q).
Proof.
  intros Hm k q. unfold renormalise. cbv zeta.
  set (l := map (fun kq => served kq.2) (btree_iter key_le m)).
  assert (HL : Forall num l).
  { apply Forall_forall. intros x Hx. apply list_elem_of_fmap in Hx as ([k0 q0] & -> & H0).
    apply elem_of_btree_iter in H0. by apply (Hm k0). }
  destruct (foldl_f_min_le l f_inf) as (N & _ & HF); [by split | done |].
  destruct (_ && _) eqn:C; [|intros H; eauto 10].
  apply andb_prop in C as [C _]. rewrite lookup_fmap_Some. intros (q0 & <- & H0). exists q0.
  split_and!; [done..|]. cbn [served]. apply f_sub_nn; [by eapply Hm | done | done |].
  eapply Forall_forall in HF; [exact HF|]. apply list_elem_of_fmap. exists (k, q0). split; [done|].
  by apply elem_of_btree_iter.
Qed.

Lemma pop_FInv config now s s' r : wf_queues (queues s) -> FInv s ->
  pop_next config now s = Returns (s', r) -> FInv s'.
Proof.
  intros HW HF E. destruct (pop_cases config now s HW) as
    [(_ & E1) | (k & q & it & rest & s1 & _ & Hk & Hi & E1 & Hq & _)]; rewrite E1 in E; injection E as <- <-; [done|].
  intros k' q'. rewrite Hq. intros [H _]%lookup_prune. revert k' q' H. apply (FInv_served s); [done|].
  destruct (HF k q Hk) as [[HWk HS] HIt]. rewrite Hi in HIt. apply Forall_cons in HIt as [(_ & _ & HU) _].
  intros k' q'. intros H. apply renormalise_nn in H.
  - destruct H as (q0 & H0 & -> & -> & Hs). rewrite lookup_insert_Some in H0. destruct H0 as [(<- & <-) | (_ & H0)].
    + exists q. rewrite Hi. split_and!; try done. by constructor.
    + by exists q0.
  - intros k0 q0. rewrite lookup_insert_Some. intros [(<- & <-) | (_ & H0)]; [|by apply (HF k0)].
    cbn [served]. apply f_add_nn; [done|]. by apply charge_nn.
Qed.

Lemma cancel_FInv s id : FInv s -> FInv (cancel s id).1.
Proof.
  intros HF. unfold cancel. destruct (index s !! id) as [key|]; [|done].
  assert (HP : FInv {| queues := prune key (queues s); index := index s; depth := 0; bytes := 0; seq := 0 |}).
  { intros k q [H _]%lookup_prune. by apply (HF k). }
  destruct (queues s !! key) as [q|] eqn:Hq; [|done].
  destruct (take_id id (items q)) as [[y rest]|] eqn:T; [|done]. apply take_id_Some in T as (_ & l1 & l2 & El & ->).
  cbn [fst]. intros k' q' [H _]%lookup_prune. revert k' q' H. apply (FInv_served s); [done|].
  intros k' q'. rewrite lookup_insert_Some. intros [(<- & <-) | (_ & H)].
  - exists q. cbn. split_and!; [done | | done | by apply (HF _ _ Hq)]. rewrite El. apply sublist_app; [done | by constructor].
  - exists q'. split_and!; try done. by apply (HF _ _ H).
Qed.

Lemma step_FInv config s s' : Inv config s -> FInv s -> step config s s' -> FInv s'.
Proof.
  intros HI HF [now r body cw tw aw HT | id | now s1 r E].
  - eapply enqueue_FInv; eauto using surjective_pairing.
  - by apply cancel_FInv.
  - eapply pop_FInv; [apply HI | done | exact E].
Qed.

Lemma reachable_FInv config s : wf_config config -> reachable config s -> Inv config s /\ FInv s.
Proof.
  intros HC. unfold reachable. generalize (new_Inv config) new_FInv. generalize new_inner.
  intros s0 H1 H2 H. induction H; eauto using step_Inv, step_FInv.
Qed.

(** ** The three terms *)

Lemma duration_pos d : 0 <= d < 2 ^ 94 ->
  nn (f_of_Z (Z.max d 1)) /\ is_finite (f_of_Z (Z.max d 1)) = true /\ ONE <= ext (f_of_Z (Z.max d 1)).
Proof.
  intros H. pose proof ONE_pos. destruct (f_of_Z_nn (Z.max d 1) ltac:(lia)) as (N & F & E). split_and!; try done.
  rewrite E. apply rnd_ge_representable; [nia | lia | lia | | nia].
  rewrite <- (Z.mul_1_l ONE). apply (pow2_ONE_representable 0). lia.
Qed.

Lemma sat_sub_u64 a b : u64 a -> u64 b -> u64 (sat_sub a b).
Proof. unfold u64, sat_sub. lia. Qed.

Lemma age_score_nn config now it : wf_times config -> u64 now -> item_ok it -> nn (age_score config now it).
Proof.
  intros [Ha _] Hn (He & _ & _). destruct (duration_pos _ Ha) as (N2 & F2 & L2). pose proof ONE_pos.
  destruct (u64_nn _ (sat_sub_u64 _ _ Hn He)) as (N1 & F1 & _). apply f_div_nn; try done. lia.
Qed.

Lemma deadline_score_bounds config now it : wf_times config -> u64 now -> item_ok it ->
  nn (deadline_score config now it) /\
  (deadline_ns it <= now -> ext (deadline_score config now it) = 1000000 * ONE) /\
  (now < deadline_ns it -> ext (deadline_score config now it) <= 100000 * ONE).
Proof.
  intros [_ Hd] Hn (_ & Hl & _). pose proof ONE_pos.
  destruct (f_of_Z_exact 1000000) as (N6 & _ & E6); [unfold PREC; lia|].
  destruct (f_of_Z_exact 100000) as (N5 & _ & E5); [unfold PREC; lia|].
  unfold deadline_score. destruct (Z.leb_spec (deadline_ns it) now); [split_and!; [done | done | lia]|].
  destruct (duration_pos _ Hd) as (N1 & F1 & L1).
  destruct (u64_nn _ (sat_sub_u64 _ _ Hl Hn)) as (N2 & F2 & _).
  destruct (f_max_num _ f_one (proj1 N2) (proj1 f_one_nn)) as [N3 E3]. rewrite ext_f_one in E3.
  destruct (f_div_pos (f_of_Z (Z.max (deadline_window config) 1)) (f_max (f_of_Z (sat_sub (deadline_ns it) now)) f_one))
    as (N4 & _ & _); [done | split; [done | lia] | done | lia |].
  destruct (f_min_num _ (f_of_Z 100000) (proj1 N4) (proj1 N5)) as [N7 E7]. rewrite E5 in E7.
  split_and!; [split; [done|] | lia | lia]. rewrite E7. destruct N4 as [_ P4]. lia.
Qed.

Lemma deadline_score_max config now it : wf_times config -> u64 now -> item_ok it ->
  ext (deadline_score config now it) <= 1000000 * ONE.
Proof.
  intros HT Hn Hi. pose proof ONE_pos. destruct (deadline_score_bounds config now it HT Hn Hi) as (_ & H1 & H2).
  destruct (Z.le_gt_cases (deadline_ns it) now); [rewrite H1 by done; lia | specialize (H2 ltac:(lia)); lia].
Qed.

(** The score of a well-formed queue: a number at least as large as each term. *)
Lemma score_nn config now q it :
  wf_quantum config -> wf_times config -> u64 now -> wf_queue q -> item_ok it ->
  nn (score config now q it) /\ ext (deadline_score config now it) <= ext (score config now q it) /\
  ext (age_score config now it) <= ext (score config now q it).
Proof.
  intros HQ HT Hn Hq Hi. destruct (fair_score_bounds config q HQ Hq) as [N1 _].
  pose proof (age_score_nn config now it HT Hn Hi) as N2. destruct (deadline_score_bounds config now it HT Hn Hi) as [N3 _].
  destruct (f_add_nn _ _ N1 N2) as [N4 _]. pose proof (f_add_ge_r _ _ N1 N2). unfold score.
  split_and!; [by apply f_add_nn | by apply f_add_ge_r |]. etransitivity; [exact H | by apply f_add_ge_l].
Qed.

Lemma age_score_error config now it : 1 <= Z.max (aging_half_life config) 1 <= 2 ^ 53 -> now <= 2 ^ 53 ->
  0 <= enqueued_ns it <= now ->
  let t := now - enqueued_ns it in let h := Z.max (aging_half_life config) 1 in
  nn (age_score config now it) /\ (t - h) * ONE <= ext (age_score config now it) * h <= (t + h) * ONE.
Proof.
  intros Hh Hn He t h. pose proof ONE_pos. unfold age_score. fold h. unfold sat_sub. rewrite Z.max_r by lia. fold t.
  destruct (f_of_Z_exact t) as (N1 & F1 & E1); [unfold PREC; lia|].
  destruct (f_of_Z_exact h) as (N2 & F2 & E2); [unfold PREC; lia|].
  destruct (f_div_nn _ _ N1 N2 F1 F2 ltac:(nia)) as [N E]. fold ONE in E. split; [exact N|]. rewrite E, E1, E2.
  rewrite (rnd_prop (t * ONE * ONE) (h * ONE) (t * ONE) h) by nia.
  pose proof (rnd_frac_error (t * ONE) h ltac:(nia) ltac:(lia)).
  assert (rnd (t * ONE) h <= 2 ^ 53 * ONE).
  { apply rnd_le_representable; [nia | lia | nia | apply pow2_ONE_representable; lia | nia]. }
  assert (2 ^ 53 * ONE < FMAX).
  { unfold ONE, FMAX, BIAS. rewrite <- Z.pow_add_r by lia. apply Z.pow_lt_mono_r; lia. }
  rewrite Z.min_r by lia. lia.
Qed.

(** An upper bound on a score with its two rounded additions. *)
Lemma score_upper config now q it W D a :
  wf_quantum config -> wf_times config -> u64 now -> wf_queue q -> item_ok it ->
  0 <= W <= 2 ^ 40 -> 0 <= D <= 1000000 -> ext (weight q) <= W * ONE ->
  ext (deadline_score config now it) <= D * ONE -> ext (age_score config now it) <= a <= (2 ^ 53 + 1) * ONE ->
  ext (score config now q it) <= a + (2 * W + D + 4) * ONE.
Proof.
  intros HQ HT Hn Hq Hi HW HD Lw Ld La. pose proof ONE_pos.
  destruct (fair_score_bounds config q HQ Hq) as [N1 L1].
  pose proof (age_score_nn config now it HT Hn Hi) as N2. destruct (deadline_score_bounds config now it HT Hn Hi) as [N3 _].
  destruct (f_add_nn _ _ N1 N2) as [N4 E4]. destruct (f_add_nn _ _ N4 N3) as [N5 E5]. unfold score.
  destruct N1 as [_ P1], N2 as [_ P2], N3 as [_ P3], N4 as [_ P4].
  assert (W * ONE <= 2 ^ 40 * ONE) by nia. assert (D * ONE <= 1000000 * ONE) by nia.
  pose proof (rnd_sum_error (ext (fair_score config q) + ext (age_score config now it)) ltac:(lia)) as R1.
  pose proof (rnd_sum_error (ext (f_add (fair_score config q) (age_score config now it)) +
    ext (deadline_score config now it)) ltac:(lia)) as R2.
  lia.
Qed.

(** ** The properties *)

(** C6: The scores are well-behaved doubles: in every reachable state each
    queue's weight is at least one, its served work and its score are not NaN
    and not negative, and the fair-share term is at most twice the weight, so
    the comparison of scores orders queues by value. *)
Theorem scores_are_numbers config now s k q it rest :
  wf_config config -> wf_quantum config -> wf_times config -> u64 now -> reachable config s ->
  queues s !! k = Some q -> items q = it :: rest ->
  f_le f_one (weight q) = true /\ f_le f_zero (served q) = true /\ f_le f_zero (score config now q it) = true /\
  f_le (fair_score config q) (f_mul (f_of_Z 2) (weight q)) = true.
Proof.
  intros HC HQ HT Hn HR Hk Hi. destruct (reachable_FInv config s HC HR) as [_ HF].
  destruct (HF k q Hk) as [Hq HI]. rewrite Hi in HI. apply Forall_cons in HI as [HI _].
  destruct (score_nn config now q it HQ HT Hn Hq HI) as [[NS PS] _]. destruct (fair_score_bounds config q HQ Hq) as [[NF PF] LF].
  destruct Hq as [[HW LW] [NV PV]]. pose proof ONE_pos.
  assert (N2 : nn (f_of_Z 2) /\ ext (f_of_Z 2) = 2 * ONE) by (destruct (f_of_Z_exact 2) as (? & _ & ?); [unfold PREC; lia | done]).
  destruct (f_mul_pow2 (f_of_Z 2) (weight q) 1 96) as (NM & _ & EM); try done; try lia.
  rewrite !le_num by (done || apply HW || apply NM || apply f_one_nn). rewrite ext_f_one. change (ext f_zero) with 0.
  rewrite EM, (proj2 N2). rewrite (rnd_prop (2 * ONE * ext (weight q)) ONE (ext (weight q) * 2 ^ 1 * ONE) ONE) by (nia || ring).
  rewrite rnd_exact by (lia || by apply representable_nn). split_and!; apply Z.leb_le; lia.
Qed.

Lemma default_wf_quantum : wf_quantum SchedulerConfig_default.
Proof.
  destruct (f_of_Z_exact 1000) as (N & _ & E); [unfold PREC; lia|]. pose proof ONE_pos.
  split; [exact N|]. cbn [quantum SchedulerConfig_default]. rewrite E. lia.
Qed.

Lemma default_wf_times : wf_times SchedulerConfig_default.
Proof. split; split; vm_compute; congruence. Qed.

Lemma scores_are_numbers_witness : exists q it rest,
  queues ex_state !! key_of ex_b = Some q /\ items q = it :: rest /\
  f_le f_one (weight q) = true /\ f_le f_zero (served q) = true /\
  f_le f_zero (score SchedulerConfig_default 9 q it) = true /\
  f_le (fair_score SchedulerConfig_default q) (f_mul (f_of_Z 2) (weight q)) = true.
Proof.
  eexists _, _, _. split; [vm_compute; reflexivity | split; [vm_compute; reflexivity |]].
  eapply (scores_are_numbers _ 9 ex_state (key_of ex_b)); [apply wf_default | apply default_wf_quantum | apply default_wf_times |
    split; vm_compute; congruence | apply ex_reachable | vm_compute; reflexivity | vm_compute; reflexivity].
Defined.

(** Deadlines: if [pop_next] serves a request whose deadline has not passed
    while the front request of some queue is past its deadline, then the fair
    share plus age of the served request's queue is above 800000 (an expired
    front scores at least 1000000, the deadline term of any other at most
    100000). *)
Theorem expired_front_is_urgent config now s s' r k' q' it' rest' :
  wf_config config -> wf_quantum config -> wf_times config -> u64 now -> reachable config s ->
  pop_next config now s = Returns (s', Some r) ->
  queues s !! k' = Some q' -> items q' = it' :: rest' -> deadline_ns it' <= now ->
  exists q it rest, queues s !! key_of r = Some q /\ items q = it :: rest /\ request it = r /\
    (deadline_ns it <= now \/
     f_gt (f_add (fair_score config q) (age_score config now it)) (f_of_Z 800000) = true).
Proof.
  intros HC HQ HT Hn HR E Hk' Hi' Hexp. destruct (reachable_FInv config s HC HR) as [HI HF].
  destruct (pop_cases config now s (inv_queues _ _ HI)) as
    [(_ & E1) | (k & q & it & rest & s1 & HM & Hk & Hi & E1 & _)]; rewrite E1 in E; [done|]. injection E as <- <-.
  exists q, it, rest. assert (key_of (request it) = k) as -> by (eapply HI; [exact Hk | rewrite Hi; by left]).
  split_and!; [done..|]. destruct (Z.le_gt_cases (deadline_ns it) now) as [|Hlate]; [by left | right].
  pose proof (max_candidate _ _ (k', score config now q' it', sequence it') HM
    ltac:(apply elem_of_candidates; eauto 8)) as HG.
  destruct (HF k q Hk) as [Hq HIt], (HF k' q' Hk') as [Hq' HIt']. rewrite Hi in HIt. rewrite Hi' in HIt'.
  apply Forall_cons in HIt as [HIt _], HIt' as [HIt' _].
  destruct (score_nn config now q' it' HQ HT Hn Hq' HIt') as (N' & D' & _).
  destruct (deadline_score_bounds config now it' HT Hn HIt') as (_ & E' & _). rewrite E' in D' by done.
  destruct (deadline_score_bounds config now it HT Hn HIt) as (N3 & _ & D3). specialize (D3 ltac:(lia)).
  destruct (f_add_nn _ _ (proj1 (fair_score_bounds config q HQ Hq)) (age_score_nn config now it HT Hn HIt)) as [N4 _].
  destruct (f_of_Z_exact 800000) as (N8 & _ & E8); [unfold PREC; lia|].
  unfold f_gt. change SFltb with f_lt. rewrite lt_num by (apply N4 || apply N8). apply Z.ltb_lt.
  destruct (Z.lt_ge_cases (ext (f_of_Z 800000)) (ext (f_add (fair_score config q) (age_score config now it)))); [done | exfalso].
  destruct (f_add_nn _ _ N4 N3) as [N5 E5]. apply HG. unfold candidate_cmp. cbn [fst snd].
  rewrite total_cmp_sym, total_cmp_lt; [done | apply N5 | apply N' |].
  fold (score config now q it). unfold score in *. rewrite E5. pose proof ONE_pos. destruct N4 as [_ P4], N3 as [_ P3].
  pose proof (rnd_sum_error (ext (f_add (fair_score config q) (age_score config now it)) +
    ext (deadline_score config now it)) ltac:(lia)). lia.
Qed.

Lemma expired_front_is_urgent_witness :
  exists q it rest, queues ex_state !! key_of ex_b = Some q /\ items q = it :: rest /\ request it = ex_b /\
    (deadline_ns it <= 2000000 \/
     f_gt (f_add (fair_score SchedulerConfig_default q) (age_score SchedulerConfig_default 2000000 it))
       (f_of_Z 800000) = true).
Proof.
  eapply (expired_front_is_urgent _ 2000000 ex_state _ ex_b (key_of ex_b));
    [apply wf_default | apply default_wf_quantum | apply default_wf_times | split; vm_compute; congruence
    | apply ex_reachable | vm_compute; reflexivity | vm_compute; reflexivity | reflexivity | vm_compute; congruence].
Defined.

(** C7: Aging prevents starvation: with a clock below [2^53] ns (104 days), a
    request served by [pop_next] whose queue has weight at most [W] and whose
    deadline term is at most [D] was enqueued less than
    [aging_half_life * (2 W + D + 10)] after the front request of any other
    queue.  So a waiting front can only be overtaken by requests that arrive
    within this window. *)
Theorem bounded_overtaking config now s s' r W D k' q' it' rest' :
  wf_config config -> wf_quantum config -> wf_times config -> reachable config s ->
  0 <= now <= 2 ^ 53 -> Z.max (aging_half_life config) 1 <= 2 ^ 53 -> 0 <= W <= 2 ^ 40 -> 0 <= D <= 1000000 ->
  pop_next config now s = Returns (s', Some r) ->
  queues s !! k' = Some q' -> items q' = it' :: rest' ->
  exists q it rest, queues s !! key_of r = Some q /\ items q = it :: rest /\ request it = r /\
    (f_le (weight q) (f_of_Z W) = true -> f_le (deadline_score config now it) (f_of_Z D) = true ->
     enqueued_ns it <= now ->
     enqueued_ns it < enqueued_ns it' + Z.max (aging_half_life config) 1 * (2 * W + D + 10)).
Proof.
  intros HC HQ HT HR Hn Hh HW HD E Hk' Hi'. destruct (reachable_FInv config s HC HR) as [HI HF].
  assert (Hnu : u64 now) by (unfold u64, U64_MAX; lia).
  destruct (pop_cases config now s (inv_queues _ _ HI)) as
    [(_ & E1) | (k & q & it & rest & s1 & HM & Hk & Hi & E1 & _)]; rewrite E1 in E; [done|]. injection E as <- <-.
  exists q, it, rest. assert (key_of (request it) = k) as -> by (eapply HI; [exact Hk | rewrite Hi; by left]).
  split_and!; [done..|]. intros Lw Ld Hnow.
  pose proof (max_candidate _ _ (k', score config now q' it', sequence it') HM
    ltac:(apply elem_of_candidates; eauto 8)) as HG.
  destruct (HF k q Hk) as [Hq HIt], (HF k' q' Hk') as [Hq' HIt']. rewrite Hi in HIt. rewrite Hi' in HIt'.
  apply Forall_cons in HIt as [HIt _], HIt' as [HIt' _].
  destruct (f_of_Z_exact W) as (NW & _ & EW); [unfold PREC; lia|].
  destruct (f_of_Z_exact D) as (ND & _ & ED); [unfold PREC; lia|].
  rewrite le_num in Lw by (apply Hq || apply NW). rewrite EW in Lw. apply Z.leb_le in Lw.
  destruct (deadline_score_bounds config now it HT Hnu HIt) as (N3 & _).
  rewrite le_num in Ld by (apply N3 || apply ND). rewrite ED in Ld. apply Z.leb_le in Ld.
  destruct (Z.lt_ge_cases (enqueued_ns it)
    (enqueued_ns it' + Z.max (aging_half_life config) 1 * (2 * W + D + 10))) as [|Hge]; [done | exfalso; apply HG].
  pose proof ONE_pos. set (h := Z.max (aging_half_life config) 1) in *.
  assert (He : 0 <= enqueued_ns it) by apply HIt. assert (He' : 0 <= enqueued_ns it') by apply HIt'.
  destruct (age_score_error config now it ltac:(lia) ltac:(lia) ltac:(lia)) as [_ A]. fold h in A.
  destruct (age_score_error config now it' ltac:(lia) ltac:(lia) ltac:(nia)) as [_ A']. fold h in A'.
  destruct (score_nn config now q' it' HQ HT Hnu Hq' HIt') as (N' & _ & L').
  destruct (score_nn config now q it HQ HT Hnu Hq HIt) as (N & _ & _).
  assert (LA : ext (age_score config now it) <= (2 ^ 53 + 1) * ONE) by nia.
  pose proof (score_upper config now q it W D _ HQ HT Hnu Hq HIt HW HD Lw Ld (conj (Z.le_refl _) LA)) as U.
  unfold candidate_cmp. cbn [fst snd]. rewrite total_cmp_sym, total_cmp_lt; [done | apply N | apply N' |].
  apply Z.lt_le_trans with (ext (age_score config now it')); [|exact L'].
  eapply Z.le_lt_trans; [exact U|].
  apply (Z.mul_lt_mono_pos_r h); [lia|]. nia.
Qed.

Lemma bounded_overtaking_witness :
  exists q it rest, queues ex_state !! key_of ex_b = Some q /\ items q = it :: rest /\ request it = ex_b /\
    (f_le (weight q) (f_of_Z 1) = true -> f_le (deadline_score SchedulerConfig_default 9 it) (f_of_Z 100000) = true ->
     enqueued_ns it <= 9 ->
     enqueued_ns it < enqueued_ns (new_item 0 new_inner ex_a 10) +
       Z.max (aging_half_life SchedulerConfig_default) 1 * (2 * 1 + 100000 + 10)).
Proof.
  eapply (bounded_overtaking SchedulerConfig_default 9 ex_state _ ex_b 1 100000 (key_of ex_a));
    [apply wf_default | apply default_wf_quantum | apply default_wf_times | apply ex_reachable | lia
    | vm_compute; congruence | lia | lia | vm_compute; reflexivity | vm_compute; reflexivity | reflexivity].
Defined.

(** The queue after its front was served (before renormalisation). *)
Definition after_service (q : QueueState) (it : Queued) (rest : list Queued) : QueueState :=
  {| items := rest; served := f_add (served q) (charge q it); weight := weight q |}.

(** Served work is charged: serving a queue never raises its fair share,
    and of two requests the one with more estimated work is charged at least
    as much, so it leaves the queue with at most the other's fair share. *)
Theorem service_is_charged config q it1 it2 rest :
  wf_quantum config -> wf_queue q ->
  is_finite (req_units (request it1)) = true -> is_finite (req_units (request it2)) = true ->
  valid (req_units (request it1)) -> valid (req_units (request it2)) ->
  f_le (req_units (request it1)) (req_units (request it2)) = true ->
  f_le (fair_score config (after_service q it1 rest)) (fair_score config q) = true /\
  f_le (charge q it1) (charge q it2) = true /\
  f_le (fair_score config (after_service q it2 rest)) (fair_score config (after_service q it1 rest)) = true.
Proof.
  intros HQ Hq F1 F2 V1 V2 L. pose proof Hq as [[HW LW] HS]. pose proof ONE_pos.
  destruct (charge_nn q it1 (conj HW LW) V1) as [N1 E1]. destruct (charge_nn q it2 (conj HW LW) V2) as [N2 E2].
  specialize (E1 F1). specialize (E2 F2).
  destruct (f_max_num _ f_one (fin_num _ (conj V1 F1)) (proj1 f_one_nn)) as [_ M1].
  destruct (f_max_num _ f_one (fin_num _ (conj V2 F2)) (proj1 f_one_nn)) as [_ M2]. rewrite ext_f_one in M1, M2.
  rewrite le_num in L by (apply fin_num; by split). apply Z.leb_le in L.
  assert (LC : ext (charge q it1) <= ext (charge q it2)).
  { rewrite E1, E2, M1, M2. apply Z.min_le_compat_l, rnd_mono; [apply Z.mul_nonneg_nonneg; lia | lia | lia |].
    apply Z.mul_le_mono_nonneg_r; [lia|]. apply Z.mul_le_mono_nonneg_r; lia. }
  assert (Q1 : wf_queue (after_service q it1 rest)) by (split; [done | by apply f_add_nn]).
  assert (Q2 : wf_queue (after_service q it2 rest)) by (split; [done | by apply f_add_nn]).
  rewrite !le_num by (apply N1 || apply N2 || (apply fair_score_bounds; done)).
  split_and!; apply Z.leb_le; [| done |].
  - apply fair_score_antitone; try done. by apply f_add_ge_l.
  - apply fair_score_antitone; try done. apply f_add_mono; try done; lia.
Qed.

Lemma service_is_charged_witness :
  let q := {| items := []; served := f_zero; weight := f_one |} in
  let it units := {| request := ex_request 1%N "a" Batch units 9; enqueued_ns := 0; deadline_ns := 9;
                     body_bytes := 0; sequence := 1 |} in
  f_le (fair_score SchedulerConfig_default (after_service q (it 2) [])) (fair_score SchedulerConfig_default q) = true /\
  f_le (charge q (it 2)) (charge q (it 3)) = true /\
  f_le (fair_score SchedulerConfig_default (after_service q (it 3) []))
       (fair_score SchedulerConfig_default (after_service q (it 2) [])) = true.
Proof.
  apply service_is_charged; [apply default_wf_quantum | | vm_compute; reflexivity..].
  split; [split; [apply f_one_nn | split; vm_compute; congruence] | split; [split; reflexivity | vm_compute; congruence]].
Defined.
