(* ===== verification/Capacity.v ===== *)
(** * The local admission ledger (crates/capacity)

    [State] is the ledger behind the mutex of [CapacityModel]; [reserve],
    [track_distributed], [release], [charged_units] and [status] are its
    methods.  The identifier [Uuid::new_v4] draws is an argument of [reserve].

    All amounts are doubles, so the ledger's running total [reserved] is a
    rounded sum.  The theorems bound it by the configured capacity exactly as
    the code compares it, bound its drift from the exact sum of the
    outstanding charges, and keep the calibration inside its clamps. *)

From stdpp Require Import base gmap strings countable list.
From Stdlib Require Import ZArith Lia SpecFloat.
From S2P Require Import Prelude Rounding F64 F64Facts Core.

Open Scope Z_scope.

Record CapacityStatus : Type := mkCapacityStatus {
  configured_units : f64;
  reserved_units : f64;
  safety_factor : f64;
  estimate_error_ewma : f64;
  throttle_ewma : f64;
  status_confidence : f64;
  status_observations : Z
}.

Record State : Type := mkState {
  reservations : gmap Uuid f64;
  reserved : f64;
  safety : f64;
  error : f64;
  throttle : f64;
  observations : Z
}.

Record CapacityModel : Type := mkCapacityModel {
  configured : f64;
  alpha : f64;
  state : State
}.

(** [CapacityModel::new]. *)
Definition new_model (configured initial_safety : f64) : CapacityModel :=
  {| configured := configured;
     alpha := f_lit 8 100;
     state := {| reservations := ∅; reserved := f_zero;
                 safety := f_clamp initial_safety (f_of_Z 1) (f_of_Z 4);
                 error := f_zero; throttle := f_zero; observations := 0 |} |}.

Definition with_state (m : CapacityModel) (s : State) : CapacityModel :=
  {| configured := configured m; alpha := alpha m; state := s |}.

(** [CapacityModel::charged_units]. *)
Definition charged_units (m : CapacityModel) (predicted : WorkUnits) : f64 :=
  f_mul (wu predicted) (safety (state m)).

(** [CapacityModel::reserve]; [id] is the fresh identifier. *)
Definition reserve (m : CapacityModel) (id : Uuid) (predicted : WorkUnits) : CapacityModel * option Uuid :=
  let s := state m in
  let charged := f_mul (wu predicted) (safety s) in
  if negb (is_finite charged) || f_lt charged f_zero || f_gt (f_add (reserved s) charged) (configured m)
  then (m, None)
  else (with_state m {| reservations := <[id := charged]> (reservations s);
                        reserved := f_add (reserved s) charged;
                        safety := safety s; error := error s; throttle := throttle s;
                        observations := observations s |}, Some id).

(** [CapacityModel::track_distributed]. *)
Definition track_distributed (m : CapacityModel) (id : Uuid) (charged : f64) : CapacityModel :=
  let s := state m in
  with_state m {| reservations := <[id := charged]> (reservations s);
                  reserved := match reservations s !! id with
                              | None => f_add (reserved s) charged
                              | Some _ => reserved s
                              end;
                  safety := safety s; error := error s; throttle := throttle s;
                  observations := observations s |}.

(** The running total after a charge is returned: floored at zero, and set to
    zero when only floating-point residue is left. *)
Definition return_charge (configured reserved charged : f64) : f64 :=
  let r := f_max (f_sub reserved charged) f_zero in
  if f_lt r (f_mul (f_mul f_EPSILON (f_max configured f_one)) (f_of_Z 16)) then f_zero else r.

(** One exponentially weighted moving average step. *)
Definition ewma (alpha old sample : f64) : f64 :=
  f_add (f_mul (f_sub f_one alpha) old) (f_mul alpha sample).

(** [actual.map_or(1.0, |a| a.0 / predicted.0.max(1.0)).clamp(0.0, 10.0)]. *)
Definition work_ratio (predicted : WorkUnits) (actual : option WorkUnits) : f64 :=
  f_clamp match actual with
          | None => f_one
          | Some a => f_div (wu a) (f_max (wu predicted) f_one)
          end f_zero (f_of_Z 10).

Definition next_safety (old error throttle : f64) : f64 :=
  let target := f_clamp (f_add (f_add f_one (f_mul error (f_lit 15 10))) (f_mul throttle (f_of_Z 2)))
                        f_one (f_of_Z 4) in
  f_clamp (f_add (f_mul old (f_lit 9 10)) (f_mul target (f_lit 1 10))) f_one (f_of_Z 4).

Definition f_of_bool (b : bool) : f64 := if b then f_one else f_zero.

(** [CapacityModel::release]. *)
Definition release (m : CapacityModel) (id : Uuid) (predicted : WorkUnits) (actual : option WorkUnits)
    (throttled : bool) : CapacityModel * bool :=
  let s := state m in
  match reservations s !! id with
  | None => (m, false)
  | Some charged =>
      let error' := ewma (alpha m) (error s) (f_abs (f_sub (work_ratio predicted actual) f_one)) in
      let throttle' := ewma (alpha m) (throttle s) (f_of_bool throttled) in
      (with_state m {| reservations := delete id (reservations s);
                       reserved := return_charge (configured m) (reserved s) charged;
                       safety := next_safety (safety s) error' throttle';
                       error := error';
                       throttle := throttle';
                       observations := wadd (observations s) 1 |}, true)
  end.

(** [CapacityModel::status]. *)
Definition status (m : CapacityModel) : CapacityStatus :=
  let s := state m in
  {| configured_units := configured m;
     reserved_units := reserved s;
     safety_factor := safety s;
     estimate_error_ewma := error s;
     throttle_ewma := throttle s;
     status_confidence := f_min (f_div (f_of_Z (observations s)) (f_of_Z 100)) f_one;
     status_observations := observations s |}.

(** ** Calibration *)

(** The greatest values the two averages can take (reached as fixpoints of the
    rounded recurrence at ratio 10 and at permanent throttling). *)
Definition ERROR_MAX : f64 := Eval vm_compute in f_lit 9000000000000002 1000000000000000.

Definition wf_units (w : WorkUnits) : Prop := nn (wu w) /\ is_finite (wu w) = true.

Definition between (lo hi x : f64) : Prop := nn x /\ ext lo <= ext x <= ext hi.

Definition calibrated (s : State) : Prop :=
  between f_one (f_of_Z 4) (safety s) /\ between f_zero ERROR_MAX (error s) /\ between f_zero f_one (throttle s).

Lemma between_finite lo hi x : is_finite hi = true -> num hi -> between lo hi x -> is_finite x = true.
Proof.
  intros F N [[Nx Px] L]. apply num_fin_iff; [exact Nx|]. apply num_fin_iff in F; [|exact N]. pose proof FMAX_pos. lia.
Qed.

(** Constants are doubles: decide validity, sign and finiteness by computation. *)
Definition nnb (x : f64) : bool :=
  valid_binary 53 1024 x && is_finite x && match x with S754_finite true _ _ => false | _ => true end.

Lemma nnb_spec x : nnb x = true -> nn x /\ is_finite x = true.
Proof.
  unfold nnb. rewrite !andb_true_iff. intros ((V & F) & S). split; [|exact F].
  split; [split; [exact V | destruct x; done]|].
  destruct x as [| | |[] m e]; try done; cbn [ext cond_Zopp]; pose proof (valid_ext_lt _ _ _ V); lia.
Qed.

Ltac konst := match goal with |- nn ?x /\ is_finite ?x = true => apply nnb_spec; vm_compute; reflexivity end.

Lemma f_clamp_between x lo hi : num x -> nn lo -> num hi -> ext lo <= ext hi -> between lo hi (f_clamp x lo hi).
Proof.
  intros Hx [Hlo Plo] Hhi L. destruct (f_clamp_num x lo hi Hx Hlo Hhi L) as [N E].
  split; [split; [exact N|] |]; lia.
Qed.

(** A step of the average stays below a post-fixpoint of the recurrence: the
    recurrence is monotone in the old value and in the sample. *)
Lemma ewma_between alpha old sample oldmax samplemax :
  nn (f_sub f_one alpha) /\ is_finite (f_sub f_one alpha) = true -> nn alpha /\ is_finite alpha = true ->
  nn oldmax /\ is_finite oldmax = true -> nn samplemax /\ is_finite samplemax = true ->
  between f_zero oldmax old -> between f_zero samplemax sample ->
  between f_zero (ewma alpha oldmax samplemax) (ewma alpha old sample).
Proof.
  intros [Nb Fb] [Na Fa] [No Fo] [Ns Fs] Bo Bs. unfold ewma.
  pose proof (between_finite _ _ _ Fo (proj1 No) Bo) as F1. pose proof (between_finite _ _ _ Fs (proj1 Ns) Bs) as F2.
  destruct Bo as [N1 L1], Bs as [N2 L2].
  destruct (f_mul_nn _ _ Nb N1 Fb F1) as [M1 _]. destruct (f_mul_nn _ _ Na N2 Fa F2) as [M2 _].
  destruct (f_mul_nn _ _ Nb No Fb Fo) as [M3 _]. destruct (f_mul_nn _ _ Na Ns Fa Fs) as [M4 _].
  destruct (f_add_nn _ _ M1 M2) as [A1 _].
  split; [exact A1|]. split; [apply A1|]. apply f_add_mono; try assumption; apply f_mul_mono; try assumption; lia.
Qed.

(** The ratio of actual to predicted work, and its distance from one. *)
Lemma work_ratio_between predicted actual : valid (wu predicted) ->
  (forall a, actual = Some a -> wf_units a) -> between f_zero (f_of_Z 10) (work_ratio predicted actual).
Proof.
  intros Vp Ha. unfold work_ratio. apply f_clamp_between; [| split; [split; reflexivity | vm_compute; congruence]
    | split; reflexivity | vm_compute; congruence].
  destruct actual as [a|]; [|apply f_one_nn]. destruct (Ha a eq_refl) as [Na Fa].
  destruct (f_max_valid (wu predicted) f_one Vp (proj1 f_one_nn)) as [N L]. rewrite ext_f_one in L. pose proof ONE_pos.
  apply f_div_pos; try done; [split; [done | lia] | lia].
Qed.

Lemma error_sample_between r : between f_zero (f_of_Z 10) r -> between f_zero (f_of_Z 9) (f_abs (f_sub r f_one)).
Proof.
  intros B. pose proof (between_finite f_zero (f_of_Z 10) r ltac:(reflexivity) ltac:(split; reflexivity) B) as F.
  destruct B as [[N P] L].
  destruct (is_sum_between (f_sub r f_one) (ext r - ext f_one) (f_opp f_one) (f_of_Z 9)) as (Fs & _ & Ls).
  - apply f_sub_spec; [apply N | reflexivity | exact F | reflexivity].
  - split; reflexivity.
  - split; reflexivity.
  - change (ext (f_opp f_one)) with (- ext f_one). change (ext (f_of_Z 9)) with (9 * ext f_one).
    change (ext (f_of_Z 10)) with (10 * ext f_one) in L. lia.
  - split; [apply f_abs_nn, fin_num, Fs|]. rewrite ext_abs. change (ext f_zero) with 0.
    change (ext (f_opp f_one)) with (- ext f_one) in Ls. change (ext (f_of_Z 9)) with (9 * ext f_one) in *.
    pose proof ONE_pos. rewrite ext_f_one in *. lia.
Qed.

Lemma next_safety_between old e t : between f_one (f_of_Z 4) old -> between f_zero ERROR_MAX e -> between f_zero f_one t ->
  between f_one (f_of_Z 4) (next_safety old e t).
Proof.
  intros Bo Be Bt. unfold next_safety.
  assert (C : forall x, num x -> between f_one (f_of_Z 4) (f_clamp x f_one (f_of_Z 4))).
  { intros x Hx. apply f_clamp_between; [done | apply f_one_nn | split; reflexivity | vm_compute; congruence]. }
  assert (F4 : forall x, between f_one (f_of_Z 4) x -> is_finite x = true).
  { intros x. apply between_finite; [reflexivity | split; reflexivity]. }
  pose proof (between_finite _ _ _ (eq_refl : is_finite ERROR_MAX = true) ltac:(split; reflexivity) Be) as Fe.
  pose proof (between_finite _ _ _ (eq_refl : is_finite f_one = true) ltac:(split; reflexivity) Bt) as Ft.
  assert (K : forall x, nnb x = true -> nn x /\ is_finite x = true) by apply nnb_spec.
  destruct (K (f_lit 15 10)) as [N1 F1]; [by vm_compute|]. destruct (K (f_of_Z 2)) as [N2 F2]; [by vm_compute|].
  destruct (K (f_lit 9 10)) as [N3 F3]; [by vm_compute|]. destruct (K (f_lit 1 10)) as [N5 F5]; [by vm_compute|].
  destruct Be as [Ne _], Bt as [Nt _].
  assert (T : num (f_add (f_add f_one (f_mul e (f_lit 15 10))) (f_mul t (f_of_Z 2)))).
  { apply f_add_nn; [apply f_add_nn; [apply f_one_nn|]|]; by apply f_mul_nn. }
  pose proof (C _ T) as BT. apply C.
  refine (proj1 (proj1 (f_add_nn _ _ (proj1 (f_mul_nn _ _ _ N3 _ F3)) (proj1 (f_mul_nn _ _ _ N5 _ F5))))).
  - apply Bo.
  - exact (F4 _ Bo).
  - apply BT.
  - exact (F4 _ BT).
Qed.

(** ** The ledger *)

Definition wf_model (m : CapacityModel) : Prop := nn (configured m) /\ is_finite (configured m) = true /\ alpha m = f_lit 8 100.

(** The exact sum of the outstanding charges, in units of [2^-1074]. *)
Definition outstanding (s : State) : Z := zsum ext (map_to_list (reservations s)).*2.

Definition ledger_ok (m : CapacityModel) : Prop :=
  between f_zero (configured m) (reserved (state m)) /\
  forall id c, reservations (state m) !! id = Some c -> between f_zero (configured m) c.

Lemma release_calibrated m id predicted actual throttled m' b :
  wf_model m -> valid (wu predicted) -> (forall a, actual = Some a -> wf_units a) -> calibrated (state m) ->
  release m id predicted actual throttled = (m', b) -> calibrated (state m').
Proof.
  intros (_ & _ & Ea) Vp Ha HC E. unfold release in E. destruct (reservations (state m) !! id); [|by injection E as <- <-].
  injection E as <- <-. cbn [state with_state]. destruct HC as (B1 & B2 & B3). rewrite Ea.
  assert (BE : between f_zero ERROR_MAX (ewma (f_lit 8 100) (error (state m)) (f_abs (f_sub (work_ratio predicted actual) f_one)))).
  { destruct (ewma_between (f_lit 8 100) (error (state m)) (f_abs (f_sub (work_ratio predicted actual) f_one)) ERROR_MAX (f_of_Z 9))
      as [N L]; [konst.. | done | by apply error_sample_between, work_ratio_between |].
    split; [exact N|]. split; [apply L|]. etransitivity; [apply L | vm_compute; congruence]. }
  assert (BT : between f_zero f_one (ewma (f_lit 8 100) (throttle (state m)) (f_of_bool throttled))).
  { destruct (ewma_between (f_lit 8 100) (throttle (state m)) (f_of_bool throttled) f_one f_one)
      as [N L]; [konst.. | done | |].
    - destruct throttled; (split; [split; [split; reflexivity | vm_compute; congruence] | split; vm_compute; congruence]).
    - split; [exact N|]. split; [apply L|]. etransitivity; [apply L | vm_compute; congruence]. }
  split_and!; [by apply next_safety_between | exact BE | exact BT].
Qed.

Lemma reserve_cases m id predicted m' out : reserve m id predicted = (m', out) ->
  (m' = m /\ out = None) \/
  (out = Some id /\ is_finite (charged_units m predicted) = true /\ f_lt (charged_units m predicted) f_zero = false /\
   f_gt (f_add (reserved (state m)) (charged_units m predicted)) (configured m) = false /\
   configured m' = configured m /\ alpha m' = alpha m /\
   reservations (state m') = <[id := charged_units m predicted]> (reservations (state m)) /\
   reserved (state m') = f_add (reserved (state m)) (charged_units m predicted) /\
   safety (state m') = safety (state m) /\ error (state m') = error (state m) /\ throttle (state m') = throttle (state m)).
Proof.
  unfold reserve. fold (charged_units m predicted). destruct (negb _ || _ || _) eqn:C; intros [= <- <-]; [by left | right].
  apply orb_false_iff in C as [[C1 C2]%orb_false_iff C3]. apply negb_false_iff in C1. split_and!; done.
Qed.

Lemma charged_valid m predicted : valid (wu predicted) -> calibrated (state m) ->
  is_finite (charged_units m predicted) = true -> fin (charged_units m predicted).
Proof.
  intros V (B & _) F. split; [|exact F].
  pose proof (between_finite f_one (f_of_Z 4) _ eq_refl ltac:(split; reflexivity) B) as Fs.
  unfold charged_units in *. destruct B as [[[Vs _] _] _].
  destruct (wu predicted) as [s|s| |s m0 e]; try reflexivity; destruct (safety (state m)) as [s'|s'| |s' m' e'] eqn:ES;
    try reflexivity; try discriminate. apply (f_mul_spec _ _ _ _ _ _ V Vs).
Qed.

(** A reservation: the total stays below the limit and moves by the charge,
    up to one rounding. *)
Lemma reserve_ledger m id predicted m' :
  wf_model m -> valid (wu predicted) -> calibrated (state m) -> ledger_ok m ->
  reserve m id predicted = (m', Some id) ->
  let c := charged_units m predicted in
  between f_zero (configured m) c /\ ledger_ok m' /\
  Z.abs (ext (reserved (state m')) - (ext (reserved (state m)) + ext c)) * 2 ^ PREC <= 2 * ext (configured m).
Proof.
  intros (Nc & Fc & _) V HC [[Nr Lr] HL] E c. apply reserve_cases in E as [[_ [=]] |
    (_ & F & Hlt & Hgt & Ec & _ & Er & Ed & _)]. fold c in F, Hlt, Hgt, Er, Ed.
  pose proof (charged_valid m predicted V HC F) as Hfin. fold c in Hfin.
  rewrite lt_num in Hlt by (apply fin_num, Hfin || (split; reflexivity)). change (ext f_zero) with 0 in *.
  apply Z.ltb_ge in Hlt. assert (Nn : nn c) by (split; [apply fin_num, Hfin | exact Hlt]).
  destruct (f_add_nn _ _ Nr Nn) as [Ns Es]. unfold f_gt in Hgt. change SFltb with f_lt in Hgt.
  rewrite lt_num in Hgt by (apply Nc || apply Ns). apply Z.ltb_ge in Hgt.
  pose proof (f_add_ge_r _ _ Nr Nn) as Lc.
  assert (Bc : between f_zero (configured m) c) by (split; [exact Nn | change (ext f_zero) with 0; lia]).
  split; [exact Bc|]. split.
  - split; rewrite Ec.
    + rewrite Ed. split; [exact Ns | split; [apply Ns | exact Hgt]].
    + intros i x. rewrite Er, lookup_insert_Some. intros [(<- & <-) | (_ & H)]; [exact Bc | by eapply HL].
  - rewrite Ed, Es. destruct (num_fin_iff _ (proj1 Nc)) as [HF _]. specialize (HF Fc).
    rewrite Es in Hgt. rewrite Z.min_r by lia. destruct (rnd_error_int (ext (reserved (state m)) + ext c)) as [L1 L2]; [destruct Nr, Nn; lia|].
    assert (rnd (ext (reserved (state m)) + ext c) 1 <= ext (configured m)) by lia.
    unfold PREC in *. lia.
Qed.

(** The residue threshold, [EPSILON * max(configured, 1) * 16]. *)
Lemma residue_threshold conf : nn conf -> is_finite conf = true ->
  let T := f_mul (f_mul f_EPSILON (f_max conf f_one)) (f_of_Z 16) in
  nn T /\ ext T * 2 ^ PREC <= 33 * Z.max (ext conf) ONE.
Proof.
  intros Nc Fc T. pose proof ONE_pos. pose proof FMAX_pos.
  destruct (f_max_num conf f_one (proj1 Nc) (proj1 f_one_nn)) as [Nm Em]. rewrite ext_f_one in Em.
  set (X := Z.max (ext conf) ONE) in *.
  assert (Fm : is_finite (f_max conf f_one) = true) by (unfold f_max; repeat case_match; done).
  assert (NE : nn f_EPSILON /\ is_finite f_EPSILON = true) by konst.
  assert (N16 : nn (f_of_Z 16) /\ is_finite (f_of_Z 16) = true) by konst.
  destruct (f_mul_nn f_EPSILON (f_max conf f_one)) as [N1 E1]; [apply NE | split; [done | lia] | apply NE | done |].
  rewrite Em in E1. change (ext f_EPSILON) with (2 ^ 1022) in E1.
  assert (HX : ONE <= X) by lia.
  rewrite (rnd_prop (2 ^ 1022 * X) (2 ^ BIAS) X (2 ^ 52)) in E1;
    [| apply Z.mul_nonneg_nonneg; lia | lia | fold ONE; lia | lia | change (2 ^ BIAS) with (2 ^ 1022 * 2 ^ 52); ring].
  assert (B1 : rnd X (2 ^ 52) * 2 ^ 52 * 2 ^ PREC <= X * (2 ^ PREC + 1)).
  { destruct (rnd_error X (2 ^ 52) ltac:(lia) ltac:(lia)) as [[_ H1] | H1]; [exact H1 | exfalso].
    unfold rexp in H1. assert (2 ^ 1022 <= X / 2 ^ 52).
    { apply Z.div_le_lower_bound; [lia|]. etransitivity; [|exact HX]. vm_compute. congruence. }
    assert (1022 < digits (X / 2 ^ 52)) by (apply digits_gt_iff; lia). unfold PREC in H1. lia. }
  assert (F1 : is_finite (f_mul f_EPSILON (f_max conf f_one)) = true).
  { apply num_fin_iff; [apply N1|]. destruct N1 as [_ P1]. apply num_fin_iff in Fm; [|exact Nm]. rewrite Em in Fm.
    unfold PREC in *. lia. }
  destruct (f_mul_nn _ (f_of_Z 16) N1 (proj1 N16) F1 (proj2 N16)) as [N2 E2]. fold T in N2, E2.
  split; [exact N2|]. destruct N1 as [_ P1]. set (P := ext (f_mul f_EPSILON (f_max conf f_one))) in *.
  change (ext (f_of_Z 16)) with (16 * 2 ^ BIAS) in E2.
  rewrite (rnd_prop (P * (16 * 2 ^ BIAS)) (2 ^ BIAS) (16 * P) 1) in E2;
    [| apply Z.mul_nonneg_nonneg; fold ONE; lia | lia | fold ONE; lia | lia | ring].
  pose proof (rnd_error_int (16 * P) ltac:(lia)). unfold PREC in *. lia.
Qed.

(** Returning a charge: the total stays in range; it is zero when the exact
    difference is negative and otherwise within [34] units in the last place
    of the exact difference. *)
Lemma return_charge_spec conf r c : nn conf -> is_finite conf = true ->
  between f_zero conf r -> between f_zero conf c ->
  let v := ext r - ext c in let r' := return_charge conf r c in
  between f_zero conf r' /\ (v < 0 -> ext r' = 0) /\
  (0 <= v -> Z.abs (ext r' - v) * 2 ^ PREC <= 34 * Z.max (ext conf) ONE).
Proof.
  intros Nc Fc Br Bc v r'. pose proof ONE_pos.
  pose proof (between_finite _ _ _ Fc (proj1 Nc) Br) as Fr. pose proof (between_finite _ _ _ Fc (proj1 Nc) Bc) as Fx.
  destruct Br as [[[Vr Xr] Pr] Lr], Bc as [[[Vx Xx] Px] Lx]. change (ext f_zero) with 0 in *.
  destruct (is_sum_between (f_sub r c) v (f_opp conf) conf) as (Fs & Es & _).
  { by apply f_sub_spec. }
  { split; [destruct conf as [| | |]; exact (proj1 (proj1 Nc)) | destruct conf as [| | |]; done]. }
  { split; [apply Nc | done]. }
  { rewrite ext_opp. lia. }
  destruct (f_max_num (f_sub r c) f_zero (fin_num _ Fs)) as [Nm Em]; [split; reflexivity|]. change (ext f_zero) with 0 in Em.
  destruct (residue_threshold conf Nc Fc) as [NT LT].
  pose proof (rndz_error v) as Hv. pose proof (rndz_mono v (ext conf) ltac:(lia)) as Hm. rewrite rndz_ext in Hm by apply Nc.
  assert (Z0 : between f_zero conf f_zero).
  { split; [split; [split; reflexivity | vm_compute; congruence] | change (ext f_zero) with 0; lia]. }
  subst r'. unfold return_charge. rewrite lt_num by (done || apply NT).
  destruct (Z.ltb_spec (ext (f_max (f_sub r c) f_zero)) (ext (f_mul (f_mul f_EPSILON (f_max conf f_one)) (f_of_Z 16)))) as [Hlt|Hge].
  - split; [exact Z0|]. split; [done|]. intros Hp. rewrite Em, Es in Hlt. change (ext f_zero) with 0.
    destruct (rndz_nonneg v Hp) as [_ Hn]. unfold PREC in *. lia.
  - rewrite Em, Es. split; [split; [split; [exact Nm | lia] | change (ext f_zero) with 0; lia]|]. split.
    + intros Hn. pose proof (rndz_mono v 0 ltac:(lia)). change (rndz 0) with 0 in H0. lia.
    + intros Hp. destruct (rndz_nonneg v Hp) as [_ Hn]. unfold PREC in *. lia.
Qed.

Lemma outstanding_insert s s' id c : reservations s !! id = None -> reservations s' = <[id := c]> (reservations s) ->
  outstanding s' = outstanding s + ext c.
Proof. intros H E. unfold outstanding. rewrite E, map_to_list_insert by exact H. cbn. lia. Qed.

Lemma outstanding_delete s s' id c : reservations s !! id = Some c -> reservations s' = delete id (reservations s) ->
  outstanding s = outstanding s' + ext c.
Proof.
  intros H E. unfold outstanding. rewrite E, <- (map_to_list_delete (reservations s) id c H). cbn. lia.
Qed.

Lemma outstanding_nonneg m : ledger_ok m -> 0 <= outstanding (state m).
Proof.
  intros [_ H]. apply zsum_nonneg, Forall_forall. intros x ([i y] & -> & Hx)%list_elem_of_fmap.
  apply elem_of_map_to_list in Hx. by apply (H i).
Qed.

(** ** Histories of the standalone ledger *)

Inductive cstep (m : CapacityModel) : CapacityModel -> Prop :=
| c_reserve id predicted m' out :
    valid (wu predicted) -> reservations (state m) !! id = None -> reserve m id predicted = (m', out) -> cstep m m'
| c_release id predicted actual throttled m' b :
    valid (wu predicted) -> (forall a, actual = Some a -> wf_units a) ->
    release m id predicted actual throttled = (m', b) -> cstep m m'.

(** The distance between the running total and the exact sum of the charges. *)
Definition drift (m : CapacityModel) : Z := outstanding (state m) - ext (reserved (state m)).

(** One step may add this much to it, times [2^53]. *)
Definition drift_step (m : CapacityModel) : Z := 34 * Z.max (ext (configured m)) ONE.

Definition good (m : CapacityModel) : Prop := wf_model m /\ calibrated (state m) /\ ledger_ok m.

Lemma release_cases m id predicted actual throttled m' b : release m id predicted actual throttled = (m', b) ->
  (reservations (state m) !! id = None /\ m' = m /\ b = false) \/
  (exists c, reservations (state m) !! id = Some c /\ b = true /\ configured m' = configured m /\ alpha m' = alpha m /\
     reservations (state m') = delete id (reservations (state m)) /\
     reserved (state m') = return_charge (configured m) (reserved (state m)) c).
Proof.
  unfold release. destruct (reservations (state m) !! id) as [c|]; intros [= <- <-]; [right; by exists c | by left].
Qed.

Lemma cstep_good m m' : good m -> cstep m m' ->
  good m' /\ configured m' = configured m /\
  Z.abs (drift m') * 2 ^ PREC <= Z.abs (drift m) * 2 ^ PREC + drift_step m.
Proof.
  intros (HW & HC & HL) HS. pose proof HW as (Nc & Fc & Ea). unfold drift, drift_step. pose proof ONE_pos.
  destruct HS as [id predicted m' out V Hf E | id predicted actual throttled m' b V Ha E].
  - destruct out as [i|].
    2: { apply reserve_cases in E as [[-> _] | [[=] _]]. split; [exact (conj HW (conj HC HL)) | split; [reflexivity | lia]]. }
    assert (i = id) as -> by (apply reserve_cases in E as [[_ [=]] | [[=] _]]; done).
    destruct (reserve_ledger m id predicted m' HW V HC HL E) as (Bc & HL' & HD).
    apply reserve_cases in E as [[_ [=]] | (_ & _ & _ & _ & Ec & Ea' & Er & _ & Es & Ee & Et)].
    pose proof (outstanding_insert _ _ _ _ Hf Er) as EO. destruct Nc as [_ Pc].
    split; [|split; [exact Ec | rewrite EO; unfold PREC in *; lia]].
    split_and!; [| |exact HL']; [unfold wf_model; by rewrite Ec, Ea' | unfold calibrated; by rewrite Es, Ee, Et].
  - pose proof (release_calibrated m id predicted actual throttled m' b HW V Ha HC E) as HC'.
    apply release_cases in E as [(_ & -> & _) | (c & Hc & _ & Ec & Ea' & Er & Ed)].
    { split; [exact (conj HW (conj HC HL)) | split; [reflexivity | lia]]. }
    destruct HL as [Br HR]. destruct (return_charge_spec _ _ _ Nc Fc Br (HR _ _ Hc)) as (B' & Hneg & Hpos).
    pose proof (outstanding_delete _ _ _ _ Hc Er) as EO.
    assert (HL' : ledger_ok m').
    { split; rewrite Ec; [by rewrite Ed|]. intros i x. rewrite Er, lookup_delete_Some. intros [_ Hi]. by eapply HR. }
    pose proof (outstanding_nonneg m' HL'). rewrite <- Ed in Hneg, Hpos.
    split; [split_and!; [unfold wf_model; by rewrite Ec, Ea' | exact HC' | exact HL']|]. split; [exact Ec|].
    unfold PREC in *. destruct Nc as [_ Pc].
    destruct (Z.lt_ge_cases (ext (reserved (state m)) - ext c) 0); [rewrite Hneg by done | specialize (Hpos ltac:(lia))]; lia.
Qed.

Lemma csteps_good n m m' : good m -> nsteps cstep n m m' ->
  good m' /\ configured m' = configured m /\
  Z.abs (drift m') * 2 ^ PREC <= Z.abs (drift m) * 2 ^ PREC + Z.of_nat n * drift_step m.
Proof.
  intros HG H. revert HG. induction H as [m | n m1 m2 m3 H12 H23 IH]; intros HG; [split_and!; [done | done | lia]|].
  destruct (cstep_good m1 m2 HG H12) as (HG2 & E2 & D2). destruct (IH HG2) as (HG3 & E3 & D3).
  split_and!; [done | congruence |]. unfold drift_step in *. rewrite E2 in D3. lia.
Qed.

Lemma new_good conf s0 : nn conf -> is_finite conf = true -> num s0 -> good (new_model conf s0) /\ drift (new_model conf s0) = 0.
Proof.
  intros Nc Fc Ns. split; [|reflexivity].
  assert (B0 : forall hi, nn hi -> between f_zero hi f_zero).
  { intros hi [_ P]. split; [split; [split; reflexivity | vm_compute; congruence] | change (ext f_zero) with 0; lia]. }
  split_and!; [done | split; [|split] | split]; cbn [state new_model safety error throttle reserved reservations configured].
  - apply f_clamp_between; [done | apply f_one_nn | split; reflexivity | vm_compute; congruence].
  - apply B0. split; [split; reflexivity | vm_compute; congruence].
  - apply B0, f_one_nn.
  - by apply B0.
  - intros i c. by rewrite lookup_empty.
Qed.

(** ** Histories with distributed reservations *)

Inductive mstep (m : CapacityModel) : CapacityModel -> Prop :=
| m_reserve id predicted m' out : reserve m id predicted = (m', out) -> mstep m m'
| m_track id charged : mstep m (track_distributed m id charged)
| m_release id predicted actual throttled m' b :
    valid (wu predicted) -> (forall a, actual = Some a -> wf_units a) ->
    release m id predicted actual throttled = (m', b) -> mstep m m'.

Definition calibration_inv (m : CapacityModel) : Prop :=
  alpha m = f_lit 8 100 /\ calibrated (state m) /\ u64 (observations (state m)).

Lemma mstep_calibration m m' : nn (configured m) /\ is_finite (configured m) = true ->
  calibration_inv m -> mstep m m' -> configured m' = configured m /\ calibration_inv m'.
Proof.
  intros [Nc Fc] (Ea & HC & HO) [id predicted m1 out E | id charged | id predicted actual throttled m1 b V Ha E].
  - unfold reserve in E. destruct (_ || _); injection E as <- <-; exact (conj eq_refl (conj Ea (conj HC HO))).
  - exact (conj eq_refl (conj Ea (conj HC HO))).
  - pose proof (release_calibrated m id predicted actual throttled m1 b (conj Nc (conj Fc Ea)) V Ha HC E) as HC'.
    unfold release in E. destruct (reservations (state m) !! id); injection E as <- <-;
      [|exact (conj eq_refl (conj Ea (conj HC HO)))].
    split; [reflexivity|]. split; [exact Ea|]. split; [exact HC'|]. cbn [observations state with_state].
    unfold wadd, wrap64, u64, U64_MAX. pose proof (Z.mod_pos_bound (observations (state m) + 1) (2 ^ 64) ltac:(lia)). lia.
Qed.

Lemma new_calibration conf s0 : calibrated (state (new_model conf s0)) -> calibration_inv (new_model conf s0).
Proof. intros HC. split_and!; [done | done |]. split; vm_compute; congruence. Qed.

Lemma msteps_calibration m m' : nn (configured m) /\ is_finite (configured m) = true ->
  calibration_inv m -> rtc mstep m m' -> configured m' = configured m /\ calibration_inv m'.
Proof.
  intros HC HI H. revert HC HI. induction H as [m | m1 m2 m3 H12 H23 IH]; intros HC HI; [done|].
  destruct (mstep_calibration m1 m2 HC HI H12) as [E2 HI2]. destruct (IH ltac:(by rewrite E2) HI2) as [E3 HI3].
  split; [congruence | done].
Qed.

Lemma between_in lo hi x : num lo -> num hi -> between lo hi x -> f_in lo hi x = true.
Proof.
  intros Nl Nh [[N P] L]. unfold f_in. rewrite !le_num by done. apply andb_true_iff. split; apply Z.leb_le; lia.
Qed.

Lemma confidence_between n : u64 n -> between f_zero f_one (f_min (f_div (f_of_Z n) (f_of_Z 100)) f_one).
Proof.
  intros Hn. destruct (u64_nn n Hn) as (N & F & _).
  destruct (f_div_pos (f_of_Z n) (f_of_Z 100)) as (Nd & _); [done | | done | vm_compute; reflexivity |].
  { split; [split; reflexivity | vm_compute; congruence]. }
  destruct (f_min_num _ f_one (proj1 Nd) (proj1 f_one_nn)) as [Nm Em]. destruct Nd as [_ Pd]. pose proof ONE_pos.
  rewrite ext_f_one in Em. split; [split; [done | lia]|]. rewrite ext_f_one. change (ext f_zero) with 0. lia.
Qed.

Lemma ewma_zero_le x : nn x -> is_finite x = true -> ext (ewma (f_lit 8 100) x f_zero) <= ext x.
Proof.
  intros N F. unfold ewma. pose proof ONE_pos.
  assert (K : nn (f_sub f_one (f_lit 8 100)) /\ is_finite (f_sub f_one (f_lit 8 100)) = true) by konst.
  destruct K as [K1 K2]. destruct (f_mul_nn _ _ K1 N K2 F) as [N1 E1].
  change (f_mul (f_lit 8 100) f_zero) with f_zero.
  destruct (f_add_nn _ f_zero N1) as [_ E]; [split; [split; reflexivity | vm_compute; congruence]|].
  rewrite E. change (ext f_zero) with 0. rewrite Z.add_0_r, nn_representable by done. rewrite E1.
  etransitivity; [apply Z.le_min_r|]. etransitivity; [apply Z.le_min_r|]. fold ONE. destruct K1 as [_ PK], N as [NN PN].
  apply rnd_le_representable; [nia | lia | lia | |].
  - rewrite <- (Z.mul_1_r (ext x)). apply (representable_nn x 0); [by split | lia].
  - rewrite Z.mul_comm. apply Z.mul_le_mono_nonneg_l; [lia|]. vm_compute. congruence.
Qed.

(** ** The properties *)

Definition ex_units (n : Z) : WorkUnits := mkWorkUnits (f_of_Z n).
Definition ex_model : CapacityModel := new_model (f_of_Z 4096) f_one.
Definition ex_model1 : CapacityModel := (reserve ex_model 1%N (ex_units 517)).1.

Lemma ex_conf : nn (f_of_Z 4096) /\ is_finite (f_of_Z 4096) = true.
Proof. konst. Qed.



(** C9: The calibration stays inside its clamps: after any sequence of
    reservations, tracked distributed leases and releases the reported safety
    factor is in [1, 4], the error average in [0, 9.000000000000002], the
    throttle average and the confidence in [0, 1]; none of them is NaN. *)
Theorem calibration_clamped conf s0 m :
  nn conf -> is_finite conf = true -> num s0 -> rtc mstep (new_model conf s0) m ->
  let st := status m in
  f_in f_one (f_of_Z 4) (safety_factor st) = true /\ f_in f_zero ERROR_MAX (estimate_error_ewma st) = true /\
  f_in f_zero f_one (throttle_ewma st) = true /\ f_in f_zero f_one (status_confidence st) = true.
Proof.
  intros Nc Fc Ns H. destruct (new_good conf s0 Nc Fc Ns) as [(_ & HC & _) _].
  destruct (msteps_calibration (new_model conf s0) m (conj Nc Fc) (new_calibration conf s0 HC) H)
    as (_ & _ & (B1 & B2 & B3) & HO).
  split_and!; apply between_in; try done; try (by split). by apply confidence_between.
Qed.

Lemma calibration_clamped_witness :
  let st := status (track_distributed ex_model 7%N (f_of_Z 9)) in
  f_in f_one (f_of_Z 4) (safety_factor st) = true /\ f_in f_zero ERROR_MAX (estimate_error_ewma st) = true /\
  f_in f_zero f_one (throttle_ewma st) = true /\ f_in f_zero f_one (status_confidence st) = true.
Proof.
  apply (calibration_clamped (f_of_Z 4096) f_one); [apply ex_conf | apply ex_conf | apply f_one_nn |].
  apply rtc_once, m_track.
Defined.

(** A reservation is released exactly once: after a successful [reserve]
    with a fresh id, the first [release] of that id reports success and
    restores the table of reservations, and any further one reports failure
    and changes nothing. *)
Theorem release_exactly_once m id predicted m1 p1 a1 t1 p2 a2 t2 :
  reservations (state m) !! id = None -> reserve m id predicted = (m1, Some id) ->
  exists m2, release m1 id p1 a1 t1 = (m2, true) /\ reservations (state m2) = reservations (state m) /\
    release m2 id p2 a2 t2 = (m2, false).
Proof.
  intros Hf E. apply reserve_cases in E as [[_ [=]] | (_ & _ & _ & _ & _ & _ & Er & _)].
  destruct (release m1 id p1 a1 t1) as [m2 b] eqn:E2. exists m2. pose proof E2 as E3.
  apply release_cases in E3 as [(Hn & _) | (c & _ & -> & _ & _ & Er2 & _)]; [by rewrite Er, lookup_insert_eq in Hn|].
  rewrite Er, delete_insert_id in Er2 by done. split_and!; [done | done |].
  unfold release. by rewrite Er2, Hf.
Qed.

Lemma release_exactly_once_witness :
  exists m2, release ex_model1 1%N (ex_units 517) (Some (ex_units 24)) true = (m2, true) /\
    reservations (state m2) = reservations (state ex_model) /\
    release m2 1%N (ex_units 517) None false = (m2, false).
Proof. apply (release_exactly_once ex_model 1%N (ex_units 517)); vm_compute; reflexivity. Defined.

(** Calibration relaxes: a release whose work is not reported (or was
    predicted exactly) and that was not throttled never raises the error or the
    throttle average. *)
Theorem calibration_relaxes conf s0 m id predicted m' :
  nn conf -> is_finite conf = true -> num s0 -> rtc mstep (new_model conf s0) m ->
  release m id predicted None false = (m', true) ->
  f_le (error (state m')) (error (state m)) = true /\ f_le (throttle (state m')) (throttle (state m)) = true.
Proof.
  intros Nc Fc Ns H E. destruct (new_good conf s0 Nc Fc Ns) as [(_ & HC & _) _].
  destruct (msteps_calibration (new_model conf s0) m (conj Nc Fc) (new_calibration conf s0 HC) H)
    as (_ & Ea & (B1 & B2 & B3) & _).
  unfold release in E. destruct (reservations (state m) !! id); [|discriminate E]. injection E as <-.
  cbn [state with_state error throttle]. rewrite Ea. change (f_of_bool false) with f_zero.
  change (f_abs (f_sub (work_ratio predicted None) f_one)) with f_zero.
  assert (R : forall x hi, nn hi -> is_finite hi = true -> between f_zero hi x -> f_le (ewma (f_lit 8 100) x f_zero) x = true).
  { intros x hi Nh Fh B. pose proof (between_finite _ _ _ Fh (proj1 Nh) B) as F. destruct B as [N L].
    rewrite le_num; [apply Z.leb_le; by apply ewma_zero_le | | apply N].
    destruct (ewma_between (f_lit 8 100) x f_zero x f_zero) as [[Ne _] _];
      [konst | konst | by split | konst | split; [done | split; [apply N | lia]] | | exact Ne].
    split; [split; [split; reflexivity|] | split]; vm_compute; congruence. }
  split; [apply (R _ ERROR_MAX) | apply (R _ f_one)]; try assumption; try reflexivity; [|apply f_one_nn].
  apply nnb_spec. vm_compute. reflexivity.
Qed.

Lemma calibration_relaxes_witness : exists m',
  release (track_distributed ex_model 7%N (f_of_Z 9)) 7%N (ex_units 3) None false = (m', true) /\
  f_le (error (state m')) (error (state (track_distributed ex_model 7%N (f_of_Z 9)))) = true /\
  f_le (throttle (state m')) (throttle (state (track_distributed ex_model 7%N (f_of_Z 9)))) = true.
Proof.
  eexists. split; [vm_compute; reflexivity|].
  apply (calibration_relaxes (f_of_Z 4096) f_one _ 7%N (ex_units 3)); [apply ex_conf | apply ex_conf | apply f_one_nn | |].
  - apply rtc_once, m_track.
  - vm_compute. reflexivity.
Defined.
