(* ===== verification/Coordinator.v ===== *)
(** * Capacity reservation coordinators (crates/coordinator)

    The [Coordinator] class is the Rust trait: every method takes the state and
    the environment of the call ([Env]: the clocks it reads, the identifier
    [Uuid::new_v4] draws, what happens to the connection) and returns the new
    state and the result.  [InMemory] is the standalone implementation; the
    Valkey implementation runs its Lua scripts on a server hash.

    [CoordinatorLaws] is what the proxy relies on: which leases are held after
    each call. *)

From stdpp Require Import base gmap strings countable list fin_maps propset.
From Stdlib Require Import ZArith Lia SpecFloat.
From S2P Require Import Prelude Rounding F64 F64Facts Core.

Open Scope Z_scope.

Record Lease : Type := mkLease {
  lease_id : Uuid;
  lease_pool : string;
  lease_units : f64;
  expires_at : Instant;
  lease_scope : option string
}.

Inductive CoordinatorError : Type :=
| InvalidUnits
| Clock
| Redis (detail : string)
| Unhealthy (pong : string).

(** What can happen to a call on a remote server. *)
Inductive fault : Type :=
| NoFault
| RequestLost (** the server never ran the command *)
| ReplyLost. (** the server ran it, the caller got an error *)

Record Env : Type := mkEnv {
  env_now : Instant; (** [Instant::now()] *)
  env_wall_ms : option Z; (** milliseconds since the Unix epoch, if not before it *)
  env_server_ms : Z; (** the clock of the server, for the expiry of its keys *)
  env_id : Uuid; (** [Uuid::new_v4()] *)
  env_fault : fault
}.

(** [trait Coordinator]. *)
Class Coordinator (S : Type) : Type := {
  c_reserve : S -> Env -> string -> f64 -> f64 -> Duration -> S * result CoordinatorError (option Lease);
  c_reserve_scoped : S -> Env -> string -> string -> f64 -> f64 -> f64 -> Duration ->
    S * result CoordinatorError (option Lease);
  c_release : S -> Env -> Lease -> S * result CoordinatorError unit;
  c_renew : S -> Env -> Lease -> Duration -> S * result CoordinatorError bool;
  c_healthy : S -> Env -> result CoordinatorError unit
}.

(** [validate_limits]. *)
Definition validate_limits (pool_limit scope_limit units : f64) : result CoordinatorError unit :=
  if negb (is_finite pool_limit) || negb (is_finite scope_limit) || negb (is_finite units)
     || f_lt pool_limit f_zero || f_lt scope_limit f_zero || f_lt units f_zero
  then Err InvalidUnits else Ok tt.

(** ** The in-memory coordinator *)

Record Entry : Type := mkEntry { amount : f64; expiry : Instant; entry_scope : option string }.
Abbreviation PoolLeases := (gmap Uuid Entry).
Abbreviation LeaseState := (gmap string (gmap Uuid Entry)).

Section in_memory.
Context {HO : HashOrder}.

(** [leases.retain(|_, (_, expires, _)| *expires > now)]. *)
Definition retain_live (now : Instant) (leases : PoolLeases) : PoolLeases :=
  filter (fun kv => now < expiry kv.2) leases.

(** [leases.values().map(amount).sum()], over the entries that [keep] selects. *)
Definition used_by (keep : Entry -> bool) (leases : PoolLeases) : f64 :=
  f_sum (amount <$> (filter (fun e => keep e = true) (hash_iter leases).*2)).

Definition in_scope (scope : string) (e : Entry) : bool := bool_decide (entry_scope e = Some scope).

Definition in_memory_reserve (all : LeaseState) (env : Env) (pool : string) (limit units : f64) (ttl : Duration) :
    LeaseState * result CoordinatorError (option Lease) :=
  if negb (is_finite units) || f_lt units f_zero then (all, Err InvalidUnits)
  else
    let now := env_now env in
    let leases := retain_live now (default ∅ (all !! pool)) in
    let used := used_by (fun _ => true) leases in
    if f_gt (f_add used units) limit then (<[pool := leases]> all, Ok None)
    else
      let lease := {| lease_id := env_id env; lease_pool := pool; lease_units := units;
                      expires_at := now + ttl; lease_scope := None |} in
      (<[pool := <[lease_id lease := mkEntry units (expires_at lease) None]> leases]> all, Ok (Some lease)).

Definition in_memory_reserve_scoped (all : LeaseState) (env : Env) (pool scope : string)
    (pool_limit scope_limit units : f64) (ttl : Duration) : LeaseState * result CoordinatorError (option Lease) :=
  match validate_limits pool_limit scope_limit units with
  | Err e => (all, Err e)
  | Ok _ =>
      let now := env_now env in
      let leases := retain_live now (default ∅ (all !! pool)) in
      let used := used_by (fun _ => true) leases in
      let scope_used := used_by (in_scope scope) leases in
      if f_gt (f_add used units) pool_limit || f_gt (f_add scope_used units) scope_limit
      then (<[pool := leases]> all, Ok None)
      else
        let lease := {| lease_id := env_id env; lease_pool := pool; lease_units := units;
                        expires_at := now + ttl; lease_scope := Some scope |} in
        (<[pool := <[lease_id lease := mkEntry units (expires_at lease) (lease_scope lease)]> leases]> all,
         Ok (Some lease))
  end.

Definition in_memory_release (all : LeaseState) (lease : Lease) : LeaseState * result CoordinatorError unit :=
  (match all !! lease_pool lease with
   | Some pool => <[lease_pool lease := delete (lease_id lease) pool]> all
   | None => all
   end, Ok tt).

Definition in_memory_renew (all : LeaseState) (env : Env) (lease : Lease) (ttl : Duration) :
    LeaseState * result CoordinatorError bool :=
  match all !! lease_pool lease with
  | None => (all, Ok false)
  | Some pool =>
      match pool !! lease_id lease with
      | None => (all, Ok false)
      | Some e =>
          (<[lease_pool lease := <[lease_id lease := mkEntry (amount e) (env_now env + ttl) (entry_scope e)]> pool]> all,
           Ok true)
      end
  end.

#[export] Instance InMemory : Coordinator LeaseState := {
  c_reserve := in_memory_reserve;
  c_reserve_scoped := in_memory_reserve_scoped;
  c_release s _ l := in_memory_release s l;
  c_renew := in_memory_renew;
  c_healthy _ _ := Ok tt
}.
End in_memory.

(** ** What clients rely on *)

(** The leases a state holds, as pool and identifier. *)
Class CoordinatorLaws (S : Type) `{Coordinator S} : Type := {
  held : S -> propset (string * Uuid);
  reserve_granted : forall s env pool limit units ttl s' l,
    c_reserve s env pool limit units ttl = (s', Ok (Some l)) ->
    lease_pool l = pool /\ lease_id l = env_id env /\ lease_units l = units /\
    held s' ⊆ {[ (pool, env_id env) ]} ∪ held s;
  reserve_refused : forall s env pool limit units ttl s',
    c_reserve s env pool limit units ttl = (s', Ok None) -> held s' ⊆ held s;
  reserve_scoped_granted : forall s env pool scope pl sl units ttl s' l,
    c_reserve_scoped s env pool scope pl sl units ttl = (s', Ok (Some l)) ->
    lease_pool l = pool /\ lease_id l = env_id env /\ lease_units l = units /\
    held s' ⊆ {[ (pool, env_id env) ]} ∪ held s;
  reserve_scoped_refused : forall s env pool scope pl sl units ttl s',
    c_reserve_scoped s env pool scope pl sl units ttl = (s', Ok None) -> held s' ⊆ held s;
  release_drops : forall s env l s',
    c_release s env l = (s', Ok tt) -> held s' ⊆ held s ∖ {[ (lease_pool l, lease_id l) ]};
  release_keeps : forall s env l s' r, c_release s env l = (s', r) -> held s' ⊆ held s
}.

(** ** The in-memory coordinator keeps the laws *)

Definition in_memory_held (s : LeaseState) : propset (string * Uuid) :=
  {[ pi | exists m e, s !! pi.1 = Some m /\ m !! pi.2 = Some e ]}.

Lemma elem_of_held s p i : (p, i) ∈ in_memory_held s <-> exists m e, s !! p = Some m /\ m !! i = Some e.
Proof. unfold in_memory_held. by rewrite elem_of_PropSet. Qed.

Lemma retain_live_lookup now (m : PoolLeases) i e : retain_live now m !! i = Some e <-> m !! i = Some e /\ now < expiry e.
Proof. unfold retain_live. by rewrite map_lookup_filter_Some. Qed.

(** Replacing a pool by one with no new leases but [extra]. *)
Lemma held_update (s : LeaseState) (pool : string) (m' : PoolLeases) (extra : propset (string * Uuid)) :
  (forall i e, m' !! i = Some e -> (pool, i) ∈ extra \/ exists e', default ∅ (s !! pool) !! i = Some e') ->
  in_memory_held (<[pool := m']> s) ⊆ extra ∪ in_memory_held s.
Proof.
  intros H [p i] (m & e & Hm & He)%elem_of_held. apply elem_of_union.
  rewrite lookup_insert_Some in Hm. destruct Hm as [(<- & <-) | (_ & Hm)].
  - destruct (H i e He) as [|[e' He']]; [by left | right]. apply elem_of_held.
    destruct (s !! pool) as [m|] eqn:Em; cbn in He'; [eauto | by rewrite lookup_empty in He'].
  - right. apply elem_of_held. eauto.
Qed.

Lemma held_retain (s : LeaseState) (pool : string) now : in_memory_held (<[pool := retain_live now (default ∅ (s !! pool))]> s) ⊆ in_memory_held s.
Proof.
  pose proof (held_update s pool (retain_live now (default ∅ (s !! pool))) ∅) as H. rewrite (left_id ∅ (∪)) in H.
  apply H. intros i e [He _]%retain_live_lookup. right. eauto.
Qed.

Lemma held_grant (s : LeaseState) (pool : string) now i e :
  in_memory_held (<[pool := <[i := e]> (retain_live now (default ∅ (s !! pool)))]> s) ⊆ {[ (pool, i) ]} ∪ in_memory_held s.
Proof.
  apply held_update. intros j x. rewrite lookup_insert_Some. intros [(<- & <-) | (_ & H)]; [left; by apply elem_of_singleton|].
  apply retain_live_lookup in H as [H _]. right. eauto.
Qed.

Section laws.
Context {HO : HashOrder}.

Lemma in_memory_reserve_cases s env pool limit units ttl s' r :
  in_memory_reserve s env pool limit units ttl = (s', r) ->
  let leases := retain_live (env_now env) (default ∅ (s !! pool)) in
  (s' = s /\ r = Err InvalidUnits /\ (is_finite units && negb (f_lt units f_zero)) = false) \/
  (is_finite units = true /\ f_lt units f_zero = false /\
   ((f_gt (f_add (used_by (fun _ => true) leases) units) limit = true /\ s' = <[pool := leases]> s /\ r = Ok None) \/
    (f_gt (f_add (used_by (fun _ => true) leases) units) limit = false /\
     s' = <[pool := <[env_id env := mkEntry units (env_now env + ttl) None]> leases]> s /\
     r = Ok (Some (mkLease (env_id env) pool units (env_now env + ttl) None))))).
Proof.
  unfold in_memory_reserve. cbv zeta. destruct (is_finite units), (f_lt units f_zero); cbn [negb orb andb]; intros E;
    try (injection E as <- <-; by left).
  right. split; [done|]. split; [done|]. destruct (f_gt _ _); injection E as <- <-; [by left | by right].
Qed.

Lemma in_memory_reserve_scoped_cases s env pool scope pl sl units ttl s' r :
  in_memory_reserve_scoped s env pool scope pl sl units ttl = (s', r) ->
  let leases := retain_live (env_now env) (default ∅ (s !! pool)) in
  (s' = s /\ r = Err InvalidUnits /\ is_ok (validate_limits pl sl units) = false) \/
  (validate_limits pl sl units = Ok tt /\
   ((f_gt (f_add (used_by (fun _ => true) leases) units) pl || f_gt (f_add (used_by (in_scope scope) leases) units) sl = true /\
     s' = <[pool := leases]> s /\ r = Ok None) \/
    (f_gt (f_add (used_by (fun _ => true) leases) units) pl = false /\
     f_gt (f_add (used_by (in_scope scope) leases) units) sl = false /\
     s' = <[pool := <[env_id env := mkEntry units (env_now env + ttl) (Some scope)]> leases]> s /\
     r = Ok (Some (mkLease (env_id env) pool units (env_now env + ttl) (Some scope)))))).
Proof.
  unfold in_memory_reserve_scoped. cbv zeta. unfold validate_limits. destruct (_ || f_lt units f_zero) eqn:V; intros E.
  - injection E as <- <-. by left.
  - right. split; [done|]. revert E. destruct (f_gt _ _ || _) eqn:G; intros E; injection E as <- <-; [by left | right].
    apply orb_false_iff in G as [G1 G2]. done.
Qed.

#[export] Program Instance InMemoryLaws : CoordinatorLaws LeaseState := { held := in_memory_held }.
Next Obligation.
  intros s env pool limit units ttl s' l [(_ & [=] & _) | (_ & _ & [(_ & _ & [=]) | (_ & -> & [= ->])])]%in_memory_reserve_cases.
  split_and!; try done. apply held_grant.
Qed.
Next Obligation.
  intros s env pool limit units ttl s' [(_ & [=] & _) | (_ & _ & [(_ & -> & _) | (_ & _ & [=])])]%in_memory_reserve_cases.
  apply held_retain.
Qed.
Next Obligation.
  intros s env pool scope pl sl units ttl s' l [(_ & [=] & _) | (_ & [(_ & _ & [=]) | (_ & _ & -> & [= ->])])]%in_memory_reserve_scoped_cases.
  split_and!; try done. apply held_grant.
Qed.
Next Obligation.
  intros s env pool scope pl sl units ttl s' [(_ & [=] & _) | (_ & [(_ & -> & _) | (_ & _ & _ & [=])])]%in_memory_reserve_scoped_cases.
  apply held_retain.
Qed.
Next Obligation.
  intros s env l s' E0. cbn in E0. unfold in_memory_release in E0. injection E0 as <-.
  intros [p i] (m & e & Hm & He)%elem_of_held. apply elem_of_difference.
  destruct (s !! lease_pool l) as [pool|] eqn:E.
  - rewrite lookup_insert_Some in Hm. destruct Hm as [(<- & <-) | (Hne & Hm)].
    + rewrite lookup_delete_Some in He. destruct He as [Hi He]. split; [apply elem_of_held; eauto|].
      rewrite elem_of_singleton. intros [=]; congruence.
    + split; [apply elem_of_held; eauto|]. rewrite elem_of_singleton. intros [=]; congruence.
  - split; [apply elem_of_held; eauto|]. rewrite elem_of_singleton. intros [=]; congruence.
Qed.
Next Obligation.
  intros s env l s' r E0. cbn in E0. unfold in_memory_release in E0. injection E0 as <- <-.
  destruct (s !! lease_pool l) as [pool|] eqn:E; [|done].
  pose proof (held_update s (lease_pool l) (delete (lease_id l) pool) ∅) as H. rewrite (left_id ∅ (∪)) in H. apply H.
  intros i e [_ He]%lookup_delete_Some. right. rewrite E. eauto.
Qed.
End laws.

(** ** How much a pool holds *)

(** The exact sum, in units of [2^-1074], of the stored amounts that [keep]
    selects (expired leases that have not been purged included). *)
Definition pool_sum (keep : Entry -> bool) (m : PoolLeases) : Z :=
  zsum ext (amount <$> filter (fun e => keep e = true) (map_to_list m).*2).

Definition amounts_ok (m : PoolLeases) : Prop := forall i e, m !! i = Some e -> nn (amount e).

Lemma amounts_ok_values keep m l : amounts_ok m -> l ≡ₚ (map_to_list m).*2 ->
  Forall nn (amount <$> filter (fun e => keep e = true) l).
Proof.
  intros H HP. apply Forall_forall. intros x (e & -> & [_ He]%list_elem_of_filter)%list_elem_of_fmap.
  rewrite HP in He. apply list_elem_of_fmap in He as ([i e'] & -> & Hi). apply elem_of_map_to_list in Hi. by apply (H i).
Qed.

Lemma pool_sum_nonneg keep m : amounts_ok m -> 0 <= pool_sum keep m.
Proof.
  intros H. apply zsum_nonneg. eapply Forall_impl; [by apply (amounts_ok_values keep m)|]. by intros x [_ Hx].
Qed.

Lemma pool_sum_split keep m i e : m !! i = Some e -> amounts_ok m ->
  pool_sum keep m = (if keep e then ext (amount e) else 0) + pool_sum keep (delete i m).
Proof.
  intros Hi H. unfold pool_sum. rewrite <- (map_to_list_delete m i e Hi), fmap_cons, filter_cons.
  cbn [snd]. destruct (keep e); reflexivity.
Qed.

Lemma pool_sum_delete keep m i : amounts_ok m -> pool_sum keep (delete i m) <= pool_sum keep m.
Proof.
  intros H. destruct (m !! i) as [e|] eqn:E.
  - rewrite (pool_sum_split keep m i e E H). destruct (H i e E) as [_ P]. destruct (keep e); lia.
  - rewrite delete_id by done. lia.
Qed.

Lemma amounts_ok_delete m i : amounts_ok m -> amounts_ok (delete i m).
Proof. intros H j e [_ He]%lookup_delete_Some. by apply (H j). Qed.

Lemma amounts_ok_insert m i e : amounts_ok m -> nn (amount e) -> amounts_ok (<[i := e]> m).
Proof. intros H He j x. rewrite lookup_insert_Some. intros [(<- & <-) | (_ & Hx)]; [done | by apply (H j)]. Qed.

Lemma pool_sum_insert keep m i e : amounts_ok m -> nn (amount e) ->
  pool_sum keep (<[i := e]> m) <= (if keep e then ext (amount e) else 0) + pool_sum keep m.
Proof.
  intros H He. rewrite (pool_sum_split keep (<[i := e]> m) i e) by (apply lookup_insert_eq || by apply amounts_ok_insert).
  rewrite delete_insert_eq. pose proof (pool_sum_delete keep m i H). lia.
Qed.

Lemma size_delete_le (m : PoolLeases) i : (size (delete i m) <= size m)%nat.
Proof. rewrite map_size_delete. destruct (m !! i); cbn; lia. Qed.

Lemma size_insert_le (m : PoolLeases) i e : (size (<[i := e]> m) <= S (size m))%nat.
Proof. rewrite map_size_insert. destruct (m !! i); cbn; lia. Qed.

(** Purging is a sequence of deletions. *)
Lemma retain_live_sub now (m : PoolLeases) : amounts_ok m ->
  amounts_ok (retain_live now m) /\ (size (retain_live now m) <= size m)%nat /\
  forall keep, pool_sum keep (retain_live now m) <= pool_sum keep m.
Proof.
  unfold retain_live. induction m as [|i e m Hi IH] using map_ind; intros H.
  { rewrite map_filter_empty. done. }
  assert (Hm : amounts_ok m) by (rewrite <- (delete_insert_id m i e Hi); by apply amounts_ok_delete).
  assert (He : nn (amount e)) by (apply (H i); apply lookup_insert_eq). destruct (IH Hm) as (I1 & I2 & I3).
  assert (HI : forall keep, pool_sum keep (<[i := e]> m) = (if keep e then ext (amount e) else 0) + pool_sum keep m).
  { intros keep. rewrite (pool_sum_split keep _ i e (lookup_insert_eq _ _ _) H). by rewrite delete_insert_id. }
  rewrite map_size_insert_None by done. destruct (decide (now < expiry e)) as [Hl | Hl].
  - rewrite map_filter_insert_True by done. split_and!.
    + by apply amounts_ok_insert.
    + etransitivity; [apply size_insert_le | lia].
    + intros keep. rewrite HI. etransitivity; [by apply pool_sum_insert|]. specialize (I3 keep). lia.
  - rewrite map_filter_insert_False, delete_id by done. split_and!; [done | lia |].
    intros keep. rewrite HI. specialize (I3 keep). destruct He. destruct (keep e); lia.
Qed.

(** ** The two limits *)

Definition P53 : Z := 2 ^ PREC.

(** [x <= L * (1 - 2^-53)^-n]: at most [L] up to [n] roundings. *)
Definition within (n : nat) (x L : Z) : Prop := x * (P53 - 1) ^ Z.of_nat n <= L * P53 ^ Z.of_nat n.

Lemma within_weaken n n' x x' L : within n x L -> (n <= n')%nat -> 0 <= x' <= x -> within n' x' L.
Proof.
  unfold within, P53, PREC. intros H Hn Hx. replace (Z.of_nat n') with (Z.of_nat n + Z.of_nat (n' - n)) by lia.
  rewrite !Z.pow_add_r by lia. set (a := (2 ^ 53 - 1) ^ Z.of_nat n) in *. set (b := (2 ^ 53) ^ Z.of_nat n) in *.
  assert (Ha : 0 <= a) by (apply Z.pow_nonneg; lia). assert (Hb : 0 <= b) by (apply Z.pow_nonneg; lia).
  assert (Hc : 0 <= (2 ^ 53 - 1) ^ Z.of_nat (n' - n) <= (2 ^ 53) ^ Z.of_nat (n' - n)).
  { split; [apply Z.pow_nonneg; lia | apply Z.pow_le_mono_l; lia]. }
  set (c := (2 ^ 53 - 1) ^ Z.of_nat (n' - n)) in *. set (d := (2 ^ 53) ^ Z.of_nat (n' - n)) in *.
  assert (x' * a <= L * b) by nia. assert (0 <= x' * a) by nia.
  assert (x' * a * c <= L * b * d) by (apply Z.mul_le_mono_nonneg; lia). lia.
Qed.

Lemma within_whole x L : x <= L -> within 0 x L.
Proof. unfold within. cbn [Z.of_nat Z.pow]. rewrite !Z.pow_0_r. lia. Qed.

Lemma values_perm {HO : HashOrder} (m : PoolLeases) : (hash_iter m).*2 ≡ₚ (map_to_list m).*2.
Proof. by rewrite hash_iter_perm. Qed.

Lemma used_by_sum {HO : HashOrder} keep (m : PoolLeases) :
  zsum ext (amount <$> filter (fun e => keep e = true) (hash_iter m).*2) = pool_sum keep m.
Proof. apply zsum_perm. by rewrite values_perm. Qed.

Lemma used_by_length {HO : HashOrder} keep (m : PoolLeases) :
  (length (amount <$> filter (fun e => keep e = true) (hash_iter m).*2) <= size m)%nat.
Proof.
  rewrite length_fmap. etransitivity; [apply length_filter|]. rewrite values_perm, length_fmap, length_map_to_list. lia.
Qed.

(** A grant under limit [L]: what the pool holds afterwards. *)
Lemma grant_within {HO : HashOrder} keep (m : PoolLeases) units L :
  amounts_ok m -> nn units -> num L -> is_finite L = true ->
  f_gt (f_add (used_by keep m) units) L = false ->
  within (S (size m)) (pool_sum keep m + ext units) (ext L).
Proof.
  intros H Hu NL FL HG. set (l := amount <$> filter (fun e => keep e = true) (hash_iter m).*2).
  assert (Hl : Forall nn l) by (apply (amounts_ok_values keep m); [done | apply values_perm]).
  assert (E : f_add (used_by keep m) units = fold_left f_add (l ++ [units]) (S754_zero true)).
  { rewrite fold_left_app. reflexivity. }
  pose proof (proj1 neg_zero_whole) as N0.
  destruct (fold_add_nn (l ++ [units]) (S754_zero true) N0) as [Nr _]; [apply Forall_app; by split; [|constructor]|].
  unfold f_gt in HG. change SFltb with f_lt in HG. rewrite E, lt_num in HG by (done || apply Nr). apply Z.ltb_ge in HG.
  apply num_fin_iff in FL; [|done].
  pose proof (fold_add_lower (l ++ [units]) (S754_zero true) N0 ltac:(apply Forall_app; by split; [|constructor]) ltac:(lia)) as HB.
  rewrite zsum_app in HB. cbn [zsum] in HB. change (ext (S754_zero true)) with 0 in HB.
  rewrite (used_by_sum keep m : zsum ext l = _) in HB.
  pose proof (used_by_length keep m) as HL. fold l in HL. pose proof (pool_sum_nonneg keep m H). destruct Hu as [_ Pu].
  apply (within_weaken (length (l ++ [units])) _ (pool_sum keep m + ext units)); [|rewrite length_app; cbn [length]; lia | lia].
  unfold within, P53. replace (0 + (pool_sum keep m + (ext units + 0))) with (pool_sum keep m + ext units) in HB by lia.
  etransitivity; [exact HB|]. apply Z.mul_le_mono_nonneg_r; [apply Z.pow_nonneg; unfold PREC; lia | lia].
Qed.

(** The same with whole amounts and a limit below [2^53]: no rounding at all. *)
Lemma grant_whole {HO : HashOrder} keep (m : PoolLeases) units L :
  (forall i e, m !! i = Some e -> whole (amount e)) -> whole units -> num L -> ext L < 2 ^ PREC * ONE ->
  f_gt (f_add (used_by keep m) units) L = false -> pool_sum keep m + ext units <= ext L.
Proof.
  intros H Hu NL LL HG. set (l := amount <$> filter (fun e => keep e = true) (hash_iter m).*2).
  assert (Hl : Forall whole (l ++ [units])).
  { apply Forall_app. split; [|by constructor]. apply Forall_forall. intros x (e & -> & [_ He]%list_elem_of_filter)%list_elem_of_fmap.
    rewrite values_perm in He. apply list_elem_of_fmap in He as ([i e'] & -> & Hi). apply elem_of_map_to_list in Hi. by apply (H i). }
  assert (E : f_add (used_by keep m) units = fold_left f_add (l ++ [units]) (S754_zero true)).
  { rewrite fold_left_app. reflexivity. }
  destruct (fold_add_nn (l ++ [units]) (S754_zero true) (proj1 neg_zero_whole)) as [Nr _].
  { eapply Forall_impl; [exact Hl | by intros x []]. }
  unfold f_gt in HG. change SFltb with f_lt in HG. rewrite E, lt_num in HG by (done || apply Nr). apply Z.ltb_ge in HG.
  destruct (fold_add_whole _ _ neg_zero_whole Hl) as [F1 F2]. rewrite zsum_app in F1, F2. cbn [zsum] in F1, F2.
  change (ext (S754_zero true)) with 0 in F1, F2. rewrite (used_by_sum keep m : zsum ext l = _) in F1, F2. lia.
Qed.

(** ** Histories *)

Section histories.
Context {HO : HashOrder}.
Context (limit : string -> f64) (scope_limit : string -> string -> f64) (units_ok : string -> f64 -> Prop).

(** One call, each pool and scope being used with its own limits. *)
Inductive kstep (s : LeaseState) : LeaseState -> Prop :=
| k_reserve env pool units ttl s' r :
    units_ok pool units -> in_memory_reserve s env pool (limit pool) units ttl = (s', r) -> kstep s s'
| k_reserve_scoped env pool scope units ttl s' r :
    units_ok pool units ->
    in_memory_reserve_scoped s env pool scope (limit pool) (scope_limit pool scope) units ttl = (s', r) -> kstep s s'
| k_release lease s' r : in_memory_release s lease = (s', r) -> kstep s s'
| k_renew env lease ttl s' r : in_memory_renew s env lease ttl = (s', r) -> kstep s s'.

(** The induction, for a bound [B] and a class [A] of amounts. *)
Context (A : f64 -> Prop) (B : nat -> Z -> Z -> Prop).
Hypothesis A_nn : forall x, A x -> nn x.
Hypothesis A_units : forall pool units, units_ok pool units -> is_finite units = true -> f_lt units f_zero = false -> A units.
Hypothesis B_weaken : forall n n' x x' L, B n x L -> (n <= n')%nat -> 0 <= x' <= x -> B n' x' L.
Hypothesis B_zero : forall n L, 0 <= L -> B n 0 L.
Hypothesis B_pool : forall pool (m : PoolLeases) units, (forall i e, m !! i = Some e -> A (amount e)) -> A units ->
  f_gt (f_add (used_by (fun _ => true) m) units) (limit pool) = false ->
  B (S (size m)) (pool_sum (fun _ => true) m + ext units) (ext (limit pool)).
Hypothesis B_scope : forall pool scope (m : PoolLeases) units, (forall i e, m !! i = Some e -> A (amount e)) -> A units ->
  f_gt (f_add (used_by (in_scope scope) m) units) (scope_limit pool scope) = false ->
  B (S (size m)) (pool_sum (in_scope scope) m + ext units) (ext (scope_limit pool scope)).
Hypothesis limits_nonneg : forall pool scope, 0 <= ext (limit pool) /\ 0 <= ext (scope_limit pool scope).

Record pool_inv (n : nat) (pool : string) (m : PoolLeases) : Prop := {
  pool_amounts : forall i e, m !! i = Some e -> A (amount e);
  pool_size : (size m <= n)%nat;
  pool_bound : B n (pool_sum (fun _ => true) m) (ext (limit pool));
  scope_bound : forall scope, B n (pool_sum (in_scope scope) m) (ext (scope_limit pool scope))
}.

Definition hist_inv (n : nat) (s : LeaseState) : Prop := forall pool, pool_inv n pool (default ∅ (s !! pool)).

Lemma A_ok m : (forall i e, m !! i = Some e -> A (amount e)) -> amounts_ok m.
Proof. intros H i e Hi. by eapply A_nn, H. Qed.

Lemma pool_inv_empty n pool : pool_inv n pool ∅.
Proof.
  split; [intros i e; by rewrite lookup_empty | rewrite map_size_empty; lia | |];
    [|intros scope]; unfold pool_sum; rewrite map_to_list_empty; cbn; by apply B_zero, limits_nonneg.
Qed.

(** A pool that shrank, or whose amounts did not change. *)
Lemma pool_inv_sub n n' pool (m m' : PoolLeases) : pool_inv n pool m -> (n <= n')%nat ->
  (forall i e, m' !! i = Some e -> A (amount e)) -> (size m' <= size m)%nat ->
  (forall keep, pool_sum keep m' <= pool_sum keep m) -> pool_inv n' pool m'.
Proof.
  intros [H1 H2 H3 H4] Hn HA Hs HS. pose proof (fun keep => pool_sum_nonneg keep m' (A_ok _ HA)) as H0.
  split; [done | lia | |]; [|intros scope]; (eapply B_weaken; [eauto | lia | split; eauto]).
Qed.

Lemma pool_inv_retain n pool now (m : PoolLeases) : pool_inv n pool m -> pool_inv n pool (retain_live now m).
Proof.
  intros H. destruct (retain_live_sub now m (A_ok _ (pool_amounts _ _ _ H))) as (_ & S2 & S3).
  eapply pool_inv_sub; [exact H | lia | | done | done].
  intros i e [Hi _]%retain_live_lookup. by eapply (pool_amounts _ _ _ H).
Qed.

Lemma pool_inv_grant n pool (m : PoolLeases) i units t sc : pool_inv n pool m -> A units ->
  B (S (size m)) (pool_sum (fun _ => true) m + ext units) (ext (limit pool)) ->
  (forall scope, sc = Some scope -> B (S (size m)) (pool_sum (in_scope scope) m + ext units) (ext (scope_limit pool scope))) ->
  pool_inv (S n) pool (<[i := mkEntry units t sc]> m).
Proof.
  intros H HA H1 H2. pose proof H as [P1 P2 P3 P4]. pose proof (A_ok _ P1) as HO'. pose proof (A_nn _ HA) as [Nu Pu].
  assert (HI : forall keep, 0 <= pool_sum keep (<[i := mkEntry units t sc]> m) <=
    (if keep (mkEntry units t sc) then ext units else 0) + pool_sum keep m).
  { intros keep. split; [apply pool_sum_nonneg, amounts_ok_insert; done | by apply pool_sum_insert]. }
  split.
  - intros j e. rewrite lookup_insert_Some. intros [(<- & <-) | (_ & He)]; [done | by eapply P1].
  - etransitivity; [apply size_insert_le | lia].
  - eapply B_weaken; [exact H1 | lia |]. specialize (HI (fun _ => true)). cbn in HI. lia.
  - intros scope. specialize (HI (in_scope scope)). destruct (in_scope scope (mkEntry units t sc)) eqn:Hs.
    + apply bool_decide_eq_true in Hs. eapply B_weaken; [by apply H2 | lia | lia].
    + eapply B_weaken; [apply P4 | lia | lia].
Qed.

Lemma hist_inv_update n s pool m : hist_inv n s -> pool_inv (S n) pool m -> hist_inv (S n) (<[pool := m]> s).
Proof.
  intros H Hm p. destruct (decide (p = pool)) as [-> | Hne]; [by rewrite lookup_insert_eq|].
  rewrite lookup_insert_ne by done. eapply pool_inv_sub; [apply H | lia | apply H | done | done].
Qed.

Lemma hist_inv_mono n s : hist_inv n s -> hist_inv (S n) s.
Proof. intros H p. eapply pool_inv_sub; [apply H | lia | apply H | done | done]. Qed.

Lemma pool_inv_S n pool m : pool_inv n pool m -> pool_inv (S n) pool m.
Proof. intros H. eapply pool_inv_sub; [exact H | lia | apply H | done | done]. Qed.

Lemma renew_sum (m : PoolLeases) i e t keep : amounts_ok m -> m !! i = Some e ->
  (forall sc a t1 t2, keep (mkEntry a t1 sc) = keep (mkEntry a t2 sc)) ->
  pool_sum keep (<[i := mkEntry (amount e) t (entry_scope e)]> m) = pool_sum keep m.
Proof.
  intros H Hi Hk. rewrite (pool_sum_split keep m i e Hi H).
  rewrite (pool_sum_split keep (<[i := mkEntry (amount e) t (entry_scope e)]> m) i (mkEntry (amount e) t (entry_scope e)))
    by (apply lookup_insert_eq || (apply amounts_ok_insert; [done | exact (H i e Hi)])).
  rewrite delete_insert_eq. cbn [amount]. destruct e as [a t0 sc]. cbn [amount entry_scope]. by rewrite (Hk sc a t t0).
Qed.

Lemma pool_inv_renew n pool (m : PoolLeases) i e t : pool_inv n pool m -> m !! i = Some e ->
  pool_inv n pool (<[i := mkEntry (amount e) t (entry_scope e)]> m).
Proof.
  intros [P1 P2 P3 P4] Hi. pose proof (A_ok _ P1) as HO'. split.
  - intros j x. rewrite lookup_insert_Some. intros [(<- & <-) | (_ & He)]; [exact (P1 i e Hi) | by eapply P1].
  - rewrite map_size_insert, Hi. cbn. lia.
  - rewrite renew_sum; try done.
  - intros scope. rewrite renew_sum; try done.
Qed.

Lemma kstep_inv n s s' : hist_inv n s -> kstep s s' -> hist_inv (S n) s'.
Proof.
  intros H []; rename H0 into HU || idtac.
  - apply in_memory_reserve_cases in H1 as [(-> & _) | (F & L & [(_ & -> & _) | (G & -> & _)])]; [by apply hist_inv_mono| |];
      (apply hist_inv_update; [done|]).
    + apply pool_inv_S, pool_inv_retain, H.
    + apply pool_inv_grant; [apply pool_inv_retain, H | by eapply A_units | | done].
      apply B_pool; [apply pool_inv_retain with (1 := H pool) | by eapply A_units | done].
  - apply in_memory_reserve_scoped_cases in H1 as [(-> & _) | (V & [(_ & -> & _) | (G1 & G2 & -> & _)])];
      [by apply hist_inv_mono| |]; (apply hist_inv_update; [done|]).
    + apply pool_inv_S, pool_inv_retain, H.
    + assert (A units).
      { unfold validate_limits in V. destruct (_ || f_lt units f_zero) eqn:E; [done|].
        rewrite !orb_false_iff, !negb_false_iff in E. destruct E as (((((_ & _) & F) & _) & _) & L). by eapply A_units. }
      apply pool_inv_grant; [apply pool_inv_retain, H | done | |].
      * apply B_pool; [apply pool_inv_retain with (1 := H pool) | done | done].
      * intros sc [= <-]. apply B_scope; [apply pool_inv_retain with (1 := H pool) | done | done].
  - unfold in_memory_release in HU. injection HU as <- _. destruct (s !! lease_pool lease) as [m|] eqn:E; [|by apply hist_inv_mono].
    apply hist_inv_update; [done|]. pose proof (H (lease_pool lease)) as HP. rewrite E in HP. cbn in HP.
    eapply pool_inv_sub; [exact HP | lia | | apply size_delete_le |].
    + intros i e [_ He]%lookup_delete_Some. by eapply (pool_amounts _ _ _ HP).
    + intros keep. apply pool_sum_delete, (A_ok _ (pool_amounts _ _ _ HP)).
  - unfold in_memory_renew in HU. destruct (s !! lease_pool lease) as [m|] eqn:E; [|injection HU as <- _; by apply hist_inv_mono].
    destruct (m !! lease_id lease) as [e|] eqn:Ee; injection HU as <- _; [|by apply hist_inv_mono].
    apply hist_inv_update; [done|]. pose proof (H (lease_pool lease)) as HP. rewrite E in HP. cbn in HP.
    by apply pool_inv_S, pool_inv_renew.
Qed.

Lemma ksteps_inv n s : nsteps kstep n ∅ s -> hist_inv n s.
Proof.
  assert (G : forall n s0 s k, hist_inv k s0 -> nsteps kstep n s0 s -> hist_inv (n + k)%nat s).
  { clear n s. intros n s0 s k Hk H. revert k Hk. induction H as [|n a b c Hab Hbc IH]; intros k Hk; [done|].
    replace (S n + k)%nat with (n + S k)%nat by lia. by eapply IH, kstep_inv. }
  intros H. replace n with (n + 0)%nat by lia. eapply G; [|exact H].
  intros pool. rewrite lookup_empty. apply pool_inv_empty.
Qed.
End histories.

(** ** The properties *)

Lemma not_negative units : valid units -> is_finite units = true -> f_lt units f_zero = false -> nn units.
Proof.
  intros V F L. assert (N : num units) by (apply fin_num; by split). split; [exact N|].
  rewrite lt_num in L by (done || by split). by apply Z.ltb_ge in L.
Qed.

(** Inputs for the witnesses. *)
Definition ex_env (now : Z) (i : N) : Env := mkEnv now (Some 0) 0 i NoFault.
Definition ex_pool : string := "pool".
Definition ex_s1 : LeaseState := (in_memory_reserve ∅ (ex_env 5 1) ex_pool (f_of_Z 2) f_one 10).1.
Definition ex_s2 : LeaseState := (in_memory_reserve_scoped ex_s1 (ex_env 6 2) ex_pool "batch" (f_of_Z 2) (f_of_Z 1) f_one 10).1.

Definition ex_scope_limit (pool scope : string) : f64 := f_of_Z 1.
Definition ex_limit (pool : string) : f64 := f_of_Z 2.

Lemma ex_ksteps (ok : string -> f64 -> Prop) : ok ex_pool f_one -> nsteps (kstep ex_limit ex_scope_limit ok) 2 ∅ ex_s2.
Proof.
  intros H. apply (nsteps_l _ _ _ ex_s1).
  - eapply (k_reserve _ _ _ _ (ex_env 5 1) ex_pool f_one 10); [exact H | apply surjective_pairing].
  - apply nsteps_once. eapply (k_reserve_scoped _ _ _ _ (ex_env 6 2) ex_pool "batch" f_one 10); [exact H | apply surjective_pairing].
Qed.

(** C10: The hard limits of the in-memory coordinator: after any [n] calls of
    reserve, reserve_scoped, release and renew, with any clock and any
    HashMap iteration order, the exact sum of the units of all stored leases
    of a pool is at most the pool's limit, and the sum of those of a scope at
    most the scope's limit, up to the factor [(1 - 2^-53)^-n] of the rounded
    additions; this counts leases that have expired but are not purged yet. *)
Theorem leases_within_limits {HO : HashOrder} limit scope_limit n s pool scope :
  (forall p sc, nn (limit p) /\ is_finite (limit p) = true /\ nn (scope_limit p sc) /\ is_finite (scope_limit p sc) = true) ->
  nsteps (kstep limit scope_limit (fun _ u => valid u)) n ∅ s ->
  within n (pool_sum (fun _ => true) (default ∅ (s !! pool))) (ext (limit pool)) /\
  within n (pool_sum (in_scope scope) (default ∅ (s !! pool))) (ext (scope_limit pool scope)).
Proof.
  intros HL H. destruct (ksteps_inv limit scope_limit (fun _ u => valid u) nn within) with n s pool as [_ _ H3 H4]; try done.
  - intros p u V F L. by apply not_negative.
  - intros. by eapply within_weaken.
  - intros. by eapply within_weaken; [apply (within_whole 0 L) | lia | lia].
  - intros p m u Hm Hu G. destruct (HL p scope) as (N & F & _). apply grant_within; try done. apply N.
  - intros p sc m u Hm Hu G. destruct (HL p sc) as (_ & _ & N & F). apply grant_within; try done. apply N.
  - intros p sc. destruct (HL p sc) as ((_ & P1) & _ & (_ & P2) & _). done.
Qed.

Lemma leases_within_limits_witness :
  within 2 (pool_sum (fun _ => true) (default ∅ (ex_s2 !! ex_pool))) (ext (ex_limit ex_pool)) /\
  within 2 (pool_sum (in_scope "batch") (default ∅ (ex_s2 !! ex_pool))) (ext (ex_scope_limit ex_pool "batch")).
Proof.
  apply leases_within_limits.
  - intros p sc. split_and!; try reflexivity; (split; [split; reflexivity | vm_compute; congruence]).
  - apply ex_ksteps. reflexivity.
Defined.

(** Slots are counted exactly: when every reservation is for one unit
    (concurrency slots) and the limits are below [2^53], the number of stored
    leases of a pool never exceeds its limit, and the number of those of a
    scope never exceeds the scope's limit. *)
Theorem slots_within_limits {HO : HashOrder} limit scope_limit n s pool scope :
  (forall p sc, nn (limit p) /\ ext (limit p) < 2 ^ PREC * ONE /\
     nn (scope_limit p sc) /\ ext (scope_limit p sc) < 2 ^ PREC * ONE) ->
  nsteps (kstep limit scope_limit (fun _ u => u = f_one)) n ∅ s ->
  let leases := (map_to_list (default ∅ (s !! pool))).*2 in
  Z.of_nat (length leases) * ONE <= ext (limit pool) /\
  Z.of_nat (length (filter (fun e => in_scope scope e = true) leases)) * ONE <= ext (scope_limit pool scope).
Proof.
  intros HL H leases. pose proof ONE_pos.
  assert (W1 : whole f_one) by (split; [apply f_one_nn | by vm_compute]).
  destruct (ksteps_inv limit scope_limit (fun _ u => u = f_one) (fun x => x = f_one) (fun _ x L => x <= L))
    with n s pool as [H1 _ H3 H4]; try done; try (intros; lia).
  - intros x ->. apply f_one_nn.
  - intros p m u Hm -> G. destruct (HL p scope) as (N & L & _). apply grant_whole; try done; [|apply N].
    intros i e Hi. by rewrite (Hm i e Hi).
  - intros p sc m u Hm -> G. destruct (HL p sc) as (_ & _ & N & L). apply grant_whole; try done; [|apply N].
    intros i e Hi. by rewrite (Hm i e Hi).
  - intros p sc. destruct (HL p sc) as ((_ & P1) & _ & (_ & P2) & _). done.
  - assert (HC : forall keep, pool_sum keep (default ∅ (s !! pool)) =
      Z.of_nat (length (filter (fun e => keep e = true) leases)) * ONE).
    { intros keep. unfold pool_sum. fold leases.
      assert (HF : Forall (fun e => amount e = f_one) (filter (fun e => keep e = true) leases)).
      { apply Forall_forall. intros e [_ He]%list_elem_of_filter. apply list_elem_of_fmap in He as ([i e'] & -> & Hi).
        apply elem_of_map_to_list in Hi. by apply (H1 i). }
      induction HF as [|e l He _ IH]; [done|]. rewrite fmap_cons. cbn [zsum length]. rewrite IH, He, ext_f_one. lia. }
    rewrite HC in H3. specialize (H4 scope). rewrite HC in H4. split; [|exact H4].
    rewrite filter_all in H3 by (by apply Forall_forall). exact H3.
Qed.

Lemma slots_within_limits_witness :
  Z.of_nat (length (map_to_list (default ∅ (ex_s2 !! ex_pool))).*2) * ONE <= ext (ex_limit ex_pool) /\
  Z.of_nat (length (filter (fun e => in_scope "batch" e = true) (map_to_list (default ∅ (ex_s2 !! ex_pool))).*2)) * ONE <=
    ext (ex_scope_limit ex_pool "batch").
Proof.
  apply (slots_within_limits ex_limit ex_scope_limit 2 ex_s2 ex_pool "batch").
  - intros p sc. split_and!; try (split; [split; reflexivity | vm_compute; congruence]); vm_compute; reflexivity.
  - by apply ex_ksteps.
Defined.

(** The life of a lease: a granted reservation with a fresh id is stored
    until it is released; the release removes exactly this lease, a second
    release changes nothing, and a renewal after it reports failure and
    changes nothing. *)
Theorem lease_released_once {HO : HashOrder} s env pool limit units ttl s1 l env' ttl' :
  default ∅ (s !! pool) !! env_id env = None ->
  in_memory_reserve s env pool limit units ttl = (s1, Ok (Some l)) ->
  (exists e, default ∅ (s1 !! pool) !! lease_id l = Some e /\ amount e = units) /\
  exists s2, in_memory_release s1 l = (s2, Ok tt) /\
    s2 = <[pool := retain_live (env_now env) (default ∅ (s !! pool))]> s /\
    in_memory_release s2 l = (s2, Ok tt) /\ in_memory_renew s2 env' l ttl' = (s2, Ok false).
Proof.
  intros Hf [(_ & [=] & _) | (_ & _ & [(_ & _ & [=]) | (_ & -> & [= ->])])]%in_memory_reserve_cases.
  cbn [lease_pool lease_id]. rewrite lookup_insert_eq. cbn [default].
  split; [eexists; split; [apply lookup_insert_eq | done]|].
  assert (Hr : retain_live (env_now env) (default ∅ (s !! pool)) !! env_id env = None).
  { destruct (retain_live _ _ !! env_id env) as [e|] eqn:E; [|done]. apply retain_live_lookup in E as [E _]. congruence. }
  eexists. unfold in_memory_release, in_memory_renew. cbn [lease_pool lease_id]. rewrite lookup_insert_eq. split; [done|].
  rewrite delete_insert_id, insert_insert_eq by done. rewrite lookup_insert_eq, Hr, delete_id, insert_insert_eq by done. done.
Qed.

Lemma lease_released_once_witness :
  (exists e, default ∅ (ex_s1 !! ex_pool) !! 1%N = Some e /\ amount e = f_one) /\
  exists s2, in_memory_release ex_s1 (mkLease 1%N ex_pool f_one 15 None) = (s2, Ok tt) /\
    s2 = <[ex_pool := retain_live 5 (default ∅ ((∅ : LeaseState) !! ex_pool))]> ∅ /\
    in_memory_release s2 (mkLease 1%N ex_pool f_one 15 None) = (s2, Ok tt) /\
    in_memory_renew s2 (ex_env 9 4) (mkLease 1%N ex_pool f_one 15 None) 10 = (s2, Ok false).
Proof.
  exact (lease_released_once ∅ (ex_env 5 1) ex_pool (f_of_Z 2) f_one 10 ex_s1 (mkLease 1%N ex_pool f_one 15 None) (ex_env 9 4) 10
    eq_refl eq_refl).
Defined.

(** Expiry returns capacity: once every stored lease of a pool has expired,
    a reservation of units within the limit is granted, and the expired leases
    are gone. *)
Theorem expiry_recovers_capacity {HO : HashOrder} s env pool limit units ttl :
  (forall i e, default ∅ (s !! pool) !! i = Some e -> expiry e <= env_now env) ->
  nn units -> is_finite units = true -> num limit -> f_le units limit = true ->
  exists l, in_memory_reserve s env pool limit units ttl =
    (<[pool := {[env_id env := mkEntry units (env_now env + ttl) None]}]> s, Ok (Some l)).
Proof.
  intros He Nu Fu NL HL. unfold in_memory_reserve. rewrite Fu.
  assert (f_lt units f_zero = false) as ->.
  { rewrite lt_num by (apply Nu || split; reflexivity). apply Z.ltb_ge. destruct Nu. change (ext f_zero) with 0. lia. }
  assert (retain_live (env_now env) (default ∅ (s !! pool)) = ∅) as ->.
  { apply map_empty. intros i. destruct (retain_live _ _ !! i) as [e|] eqn:E; [|done].
    apply retain_live_lookup in E as [E1 E2]. specialize (He i e E1). lia. }
  cbn [negb orb]. unfold used_by. assert (hash_iter (∅ : PoolLeases) = []) as ->.
  { apply Permutation_nil. by rewrite hash_iter_perm, map_to_list_empty. }
  cbn [fmap list_fmap filter list_filter f_sum fold_left].
  assert (f_gt (f_add (S754_zero true) units) limit = false) as ->.
  { unfold f_gt. change SFltb with f_lt. destruct (f_add_nn (S754_zero true) units (proj1 neg_zero_whole) Nu) as [N E].
    rewrite lt_num by (done || apply N). apply Z.ltb_ge. rewrite E. change (ext (S754_zero true)) with 0.
    rewrite le_num in HL by (done || apply Nu). apply Z.leb_le in HL.
    rewrite Z.add_0_l, nn_representable by done. lia. }
  eexists. cbn [lease_id expires_at]. by rewrite insert_empty.
Qed.

Lemma expiry_recovers_capacity_witness : exists l, in_memory_reserve ex_s1 (ex_env 15 3) ex_pool (f_of_Z 1) f_one 10 =
  (<[ex_pool := {[3%N := mkEntry f_one (15 + 10) None]}]> ex_s1, Ok (Some l)).
Proof.
  apply (expiry_recovers_capacity ex_s1 (ex_env 15 3)).
  - intros i e. change (default ∅ (ex_s1 !! ex_pool)) with ({[1%N := mkEntry f_one 15 None]} : PoolLeases).
    rewrite lookup_singleton_Some. intros [_ <-]. cbn. lia.
  - apply f_one_nn.
  - reflexivity.
  - split; reflexivity.
  - reflexivity.
Defined.

(** Renewal extends a lease: after a successful renewal at time [t] for
    [ttl], every reservation in that pool before [t + ttl] still counts the
    lease's units. *)
Theorem renewal_holds_capacity {HO : HashOrder} s env l ttl s1 env' limit units ttl' s2 r :
  in_memory_renew s env l ttl = (s1, Ok true) -> env_now env' < env_now env + ttl -> env_id env' <> lease_id l ->
  in_memory_reserve s1 env' (lease_pool l) limit units ttl' = (s2, r) ->
  exists e e', default ∅ (s !! lease_pool l) !! lease_id l = Some e /\
    default ∅ (s2 !! lease_pool l) !! lease_id l = Some e' /\ amount e' = amount e /\ expiry e' = env_now env + ttl.
Proof.
  unfold in_memory_renew. destruct (s !! lease_pool l) as [m|] eqn:Em; [|done].
  destruct (m !! lease_id l) as [e|] eqn:Ee; [|done]. intros [= <-] Ht Hid Hr.
  exists e, (mkEntry (amount e) (env_now env + ttl) (entry_scope e)). split; [done|]. split; [|done].
  set (m1 := <[lease_id l := mkEntry (amount e) (env_now env + ttl) (entry_scope e)]> m) in *.
  assert (HL : retain_live (env_now env') m1 !! lease_id l = Some (mkEntry (amount e) (env_now env + ttl) (entry_scope e))).
  { apply retain_live_lookup. split; [apply lookup_insert_eq | exact Ht]. }
  apply in_memory_reserve_cases in Hr. rewrite lookup_insert_eq in Hr. cbn [default] in Hr.
  destruct Hr as [(-> & _) | (_ & _ & [(_ & -> & _) | (_ & -> & _)])]; rewrite lookup_insert_eq; cbn [default].
  - apply lookup_insert_eq.
  - exact HL.
  - etransitivity; [by apply lookup_insert_ne | exact HL].
Qed.

Lemma renewal_holds_capacity_witness : exists e e',
  default ∅ (ex_s1 !! ex_pool) !! 1%N = Some e /\
  default ∅ ((in_memory_reserve (in_memory_renew ex_s1 (ex_env 14 9) (mkLease 1%N ex_pool f_one 15 None) 10).1
                (ex_env 20 4) ex_pool (f_of_Z 1) f_one 10).1 !! ex_pool) !! 1%N = Some e' /\
  amount e' = amount e /\ expiry e' = 14 + 10.
Proof.
  eapply (renewal_holds_capacity ex_s1 (ex_env 14 9) (mkLease 1%N ex_pool f_one 15 None) 10 _ (ex_env 20 4)).
  - vm_compute. reflexivity.
  - cbn. lia.
  - done.
  - apply surjective_pairing.
Defined.
