(* ===== verification/Valkey.v ===== *)
(** * The shared coordinator on Valkey (crates/coordinator, [ValkeyCoordinator])

    The server keeps one hash per pool; a lease is the field
    [amount:expiry:scope] under its identifier.  [reserve_script] and
    [renew_script] are the two Lua scripts, each atomic on the server; the
    operations around them read the client's clock and meet the faults of the
    connection ([Env]).  A script that fails keeps the writes it has made.

    Numbers are doubles in Lua.  Their text forms are code outside the
    repository, the class [LuaText]; what the scripts rely on is
    [LuaTextLaws].  A hash is listed in any order. *)

From stdpp Require Import base gmap strings countable list fin_maps propset.
From Stdlib Require Import ZArith Lia SpecFloat Ascii.
From S2P Require Import Prelude Rounding F64 F64Facts Core Coordinator.

Open Scope Z_scope.

(** ** Text *)

Class LuaText : Type := {
  lua_tostring : f64 -> string; (** [tostring] of a number, ["%.14g"] *)
  lua_tonumber : string -> option f64; (** [tonumber], nil on other text *)
  arg_f64 : f64 -> string; (** a script argument of type [f64] *)
  arg_u64 : Z -> string; (** a script argument of type [u64] *)
  uuid_text : Uuid -> string (** [Uuid::to_string] *)
}.

Fixpoint no_colon (s : string) : bool :=
  match s with EmptyString => true | String c rest => negb (Ascii.eqb c ":") && no_colon rest end.

(** Arguments are read back exactly, a number with at most 14 digits is printed
    and read back exactly, no number prints a colon, identifiers differ. *)
Class LuaTextLaws `{LuaText} : Prop := {
  tonumber_arg_f64 : forall x, is_finite x = true -> lua_tonumber (arg_f64 x) = Some x;
  tonumber_arg_u64 : forall n, 0 <= n <= U64_MAX -> lua_tonumber (arg_u64 n) = Some (f_of_Z n);
  tonumber_tostring : forall n, 0 <= n < 10 ^ 14 -> lua_tonumber (lua_tostring (f_of_Z n)) = Some (f_of_Z n);
  tostring_no_colon : forall x, no_colon (lua_tostring x) = true;
  arg_u64_no_colon : forall n, no_colon (arg_u64 n) = true;
  uuid_text_inj : forall a b, uuid_text a = uuid_text b -> a = b
}.

(** [string.find(s, ':')] and the two [string.sub] around it. *)
Fixpoint split_colon (s : string) : option (string * string) :=
  match s with
  | EmptyString => None
  | String c rest =>
      if Ascii.eqb c ":" then Some (EmptyString, rest)
      else match split_colon rest with Some (a, b) => Some (String c a, b) | None => None end
  end.

(** ** The server *)

Record RedisHash : Type := mkRedisHash {
  hash_fields : gmap string string;
  hash_deadline : option Z (** [PEXPIRE], on the server's clock *)
}.
Abbreviation ServerState := (gmap string RedisHash).

(** A key past its deadline does not exist. *)
Definition fields_of (s : ServerState) (clock : Z) (key : string) : gmap string string :=
  match s !! key with
  | Some h => match hash_deadline h with
              | Some d => if d <=? clock then ∅ else hash_fields h
              | None => hash_fields h
              end
  | None => ∅
  end.

(** Writing a hash; one without fields disappears. *)
Definition put_hash (s : ServerState) (key : string) (fields : gmap string string) (deadline : option Z) : ServerState :=
  if bool_decide (fields = ∅) then delete key s else <[key := mkRedisHash fields deadline]> s.

Definition deadline_of (s : ServerState) (clock : Z) (key : string) : option Z :=
  match s !! key with
  | Some h => match hash_deadline h with
              | Some d => if d <=? clock then None else Some d
              | None => None
              end
  | None => None
  end.

Section valkey.
Context `{LuaText} {HO : HashOrder} (namespace : string).

(** [ValkeyCoordinator::key]. *)
Definition pool_key (pool : string) : string := namespace +:+ (":leases:" +:+ pool).

(** The integer [redis.call] makes of a number argument, if it is one. *)
Definition lua_int (x : f64) : option Z :=
  if is_finite x && (ext x mod ONE =? 0) && (Z.abs (ext x) <? 10 ^ 17 * ONE) then Some (ext x / ONE) else None.

(** The loop of the reserve script over the listed fields; [None] is a Lua error. *)
Fixpoint scan (now : f64) (scope : string) (l : list (string * string)) (fields : gmap string string) (used scope_used : f64) :
    gmap string string * option (f64 * f64) :=
  match l with
  | [] => (fields, Some (used, scope_used))
  | (id, value) :: rest =>
      match split_colon value with
      | None => (fields, None)
      | Some (amount_text, after) =>
          match split_colon after with
          | None => (fields, None)
          | Some (expires_text, entry_scope) =>
              match lua_tonumber expires_text with
              | None => (fields, None)
              | Some expires =>
                  if f_le expires now then scan now scope rest (delete id fields) used scope_used
                  else match lua_tonumber amount_text with
                       | None => (fields, None)
                       | Some amount =>
                           scan now scope rest fields (f_add used amount)
                             (if String.eqb entry_scope scope then f_add scope_used amount else scope_used)
                       end
              end
          end
      end
  end.

(** [RESERVE_SCRIPT]: the server after it, and its reply. *)
Definition reserve_script (s : ServerState) (clock : Z) (key now_arg limit_arg units_arg lease expiry_arg scope scope_limit_arg : string) :
    ServerState * result string Z :=
  match lua_tonumber now_arg, lua_tonumber limit_arg, lua_tonumber units_arg, lua_tonumber expiry_arg, lua_tonumber scope_limit_arg with
  | Some now, Some limit, Some units, Some expiry, Some scope_limit =>
      let fields := fields_of s clock key in
      match scan now scope (hash_iter fields) fields f_zero f_zero with
      | (fields, None) => (put_hash s key fields (deadline_of s clock key), Err "script error"%string)
      | (fields, Some (used, scope_used)) =>
          if f_gt (f_add used units) limit || f_gt (f_add scope_used units) scope_limit
          then (put_hash s key fields (deadline_of s clock key), Ok 0)
          else
            let fields := <[lease := lua_tostring units +:+ (":" +:+ (lua_tostring expiry +:+ (":" +:+ scope)))]> fields in
            match lua_int (f_max (f_of_Z 1000) (f_add (f_sub expiry now) (f_of_Z 1000))) with
            | None => (put_hash s key fields (deadline_of s clock key), Err "value is not an integer or out of range"%string)
            | Some ms => (put_hash s key fields (Some (clock + ms)), Ok 1)
            end
      end
  | _, _, _, _, _ => (s, Err "script error"%string)
  end.

(** The script of [renew]. *)
Definition renew_script (s : ServerState) (clock : Z) (key lease expiry_arg : string) (pexpire : Z) : ServerState * result string Z :=
  let fields := fields_of s clock key in
  match fields !! lease with
  | None => (s, Ok 0)
  | Some value =>
      match split_colon value with
      | None => (s, Err "script error"%string)
      | Some (amount_text, after) =>
          match split_colon after with
          | None => (s, Err "script error"%string)
          | Some (_, scope) =>
              let fields := <[lease := amount_text +:+ (":" +:+ (expiry_arg +:+ (":" +:+ scope)))]> fields in
              if 2 ^ 63 <=? clock + pexpire
              then (put_hash s key fields (deadline_of s clock key), Err "invalid expire time"%string)
              else (put_hash s key fields (Some (clock + pexpire)), Ok 1)
          end
      end
  end.

(** [HDEL key field]. *)
Definition hdel (s : ServerState) (clock : Z) (key field : string) : ServerState :=
  put_hash s key (delete field (fields_of s clock key)) (deadline_of s clock key).

(** A command over the network. *)
Definition remote {A} (env : Env) (s : ServerState) (ran : ServerState * result string A) : ServerState * result CoordinatorError A :=
  match env_fault env with
  | NoFault => (ran.1, match ran.2 with Ok a => Ok a | Err e => Err (Redis e) end)
  | RequestLost => (s, Err (Redis "connection lost"))
  | ReplyLost => (ran.1, Err (Redis "connection lost"))
  end.

(** [ttl.as_millis().min(u64::MAX as u128) as u64]. *)
Definition ttl_millis (ttl : Duration) : Z := Z.min (ttl / 1000000) U64_MAX.

Definition valkey_reserve_scoped (s : ServerState) (env : Env) (pool scope : string) (limit scope_limit units : f64)
    (ttl : Duration) : ServerState * result CoordinatorError (option Lease) :=
  match validate_limits limit scope_limit units with
  | Err e => (s, Err e)
  | Ok _ =>
      match env_wall_ms env with
      | None => (s, Err Coordinator.Clock)
      | Some wall =>
          let now := wrap64 wall in
          let '(s, reply) := remote env s
            (reserve_script s (env_server_ms env) (pool_key pool) (arg_u64 now) (arg_f64 limit) (arg_f64 units)
               (uuid_text (env_id env)) (arg_u64 (sat_add now (ttl_millis ttl))) scope (arg_f64 scope_limit)) in
          (s, let? accepted := reply in
              Ok (if accepted =? 1
                  then Some {| lease_id := env_id env; lease_pool := pool; lease_units := units;
                               expires_at := env_now env + ttl;
                               lease_scope := if String.eqb scope EmptyString then None else Some scope |}
                  else None))
      end
  end.

Definition valkey_reserve (s : ServerState) (env : Env) (pool : string) (limit units : f64) (ttl : Duration) :
    ServerState * result CoordinatorError (option Lease) :=
  if negb (is_finite units) || f_lt units f_zero then (s, Err InvalidUnits)
  else valkey_reserve_scoped s env pool EmptyString limit limit units ttl.

Definition valkey_release (s : ServerState) (env : Env) (lease : Lease) : ServerState * result CoordinatorError unit :=
  remote env s (hdel s (env_server_ms env) (pool_key (lease_pool lease)) (uuid_text (lease_id lease)), Ok tt).

Definition valkey_renew (s : ServerState) (env : Env) (lease : Lease) (ttl : Duration) : ServerState * result CoordinatorError bool :=
  match env_wall_ms env with
  | None => (s, Err Coordinator.Clock)
  | Some wall =>
      let now := wrap64 wall in
      let '(s, reply) := remote env s
        (renew_script s (env_server_ms env) (pool_key (lease_pool lease)) (uuid_text (lease_id lease))
           (arg_u64 (sat_add now (ttl_millis ttl))) (sat_add (ttl_millis ttl) 1000)) in
      (s, let? renewed := reply in Ok (renewed =? 1))
  end.

(** [PING]; a server that answers anything else is not modelled. *)
Definition valkey_healthy (s : ServerState) (env : Env) : result CoordinatorError unit :=
  (remote env s (s, Ok tt)).2.

#[export] Instance Valkey : Coordinator ServerState := {
  c_reserve := valkey_reserve;
  c_reserve_scoped := valkey_reserve_scoped;
  c_release := valkey_release;
  c_renew := valkey_renew;
  c_healthy := valkey_healthy
}.
End valkey.

(** ** What the scripts leave in a hash *)

Section scripts.
Context `{LuaTextLaws} {HO : HashOrder} (namespace : string).
Local Abbreviation key := (pool_key namespace).

Lemma string_app_inj (a b c : string) : a +:+ b = a +:+ c -> b = c.
Proof. apply (inj (String.append a)). Qed.

Lemma pool_key_inj p q : key p = key q -> p = q.
Proof. unfold pool_key. intros E%string_app_inj. by apply string_app_inj in E. Qed.

Lemma scan_subset now scope l fields used sused : (scan now scope l fields used sused).1 ⊆ fields.
Proof.
  revert fields used sused. induction l as [|[id v] l IH]; intros fields used sused; cbn [scan]; [done|].
  repeat case_match; try done. etransitivity; [apply IH | apply delete_subseteq].
Qed.

Definition valkey_held (s : ServerState) : propset (string * Uuid) :=
  {[ pi | exists h, s !! key pi.1 = Some h /\ is_Some (hash_fields h !! uuid_text pi.2) ]}.

Lemma elem_of_valkey_held s p i : (p, i) ∈ valkey_held s <-> exists h, s !! key p = Some h /\ is_Some (hash_fields h !! uuid_text i).
Proof. unfold valkey_held. by rewrite elem_of_PropSet. Qed.

Lemma fields_of_held s clock p i : is_Some (fields_of s clock (key p) !! uuid_text i) -> (p, i) ∈ valkey_held s.
Proof.
  rewrite elem_of_valkey_held. unfold fields_of. destruct (s !! key p) as [h|]; [|by rewrite lookup_empty; intros []].
  destruct (hash_deadline h) as [d|]; [destruct (d <=? clock); [by rewrite lookup_empty; intros []|]|]; eauto.
Qed.

(** A write to one hash: everything but the fields of [extra] was there. *)
Lemma held_put s clock p fields d extra :
  (forall i, is_Some (fields !! uuid_text i) -> (p, i) ∈ extra \/ is_Some (fields_of s clock (key p) !! uuid_text i)) ->
  valkey_held (put_hash s (key p) fields d) ⊆ extra ∪ valkey_held s.
Proof.
  intros HF [q i]. rewrite elem_of_valkey_held, elem_of_union. unfold put_hash.
  assert (Hrest : forall h, s !! key q = Some h -> is_Some (hash_fields h !! uuid_text i) -> (q, i) ∈ extra \/ (q, i) ∈ valkey_held s).
  { intros h Hh Hi. right. apply elem_of_valkey_held. eauto. }
  case_bool_decide; intros (h & Hh & Hi).
  - apply lookup_delete_Some in Hh as [_ Hh]. eauto.
  - apply lookup_insert_Some in Hh as [[Ek <-] | [_ Hh]]; [|eauto]. apply pool_key_inj in Ek as <-.
    destruct (HF i Hi); [by left | right; by eapply fields_of_held].
Qed.

Lemma held_put_same s clock p fields d : fields ⊆ fields_of s clock (key p) -> valkey_held (put_hash s (key p) fields d) ⊆ valkey_held s.
Proof.
  intros Hs. pose proof (held_put s clock p fields d ∅) as HP. rewrite (left_id ∅ (∪)) in HP. apply HP.
  intros i [v Hv]. right. eapply lookup_weaken in Hv; [|exact Hs]. eauto.
Qed.

Definition entry_text (units expiry : f64) (scope : string) : string :=
  lua_tostring units +:+ (":" +:+ (lua_tostring expiry +:+ (":" +:+ scope))).

(** What a reservation does to the hash of its pool: it purges, and then either
    refuses, fails, or adds the lease (which it may still do when it fails). *)
Inductive reserve_effect (s : ServerState) (clock : Z) (k : string) (limit units scope_limit expiry : f64) (lease scope : string) :
    ServerState -> result string Z -> Prop :=
| effect_purged fields e : fields ⊆ fields_of s clock k ->
    reserve_effect s clock k limit units scope_limit expiry lease scope (put_hash s k fields (deadline_of s clock k)) (Err e)
| effect_refused fields : fields ⊆ fields_of s clock k ->
    reserve_effect s clock k limit units scope_limit expiry lease scope (put_hash s k fields (deadline_of s clock k)) (Ok 0)
| effect_granted fields now used sused d reply :
    scan now scope (hash_iter (fields_of s clock k)) (fields_of s clock k) f_zero f_zero = (fields, Some (used, sused)) ->
    f_gt (f_add used units) limit = false -> f_gt (f_add sused units) scope_limit = false ->
    (reply = Ok 1 \/ exists e, reply = Err e) ->
    reserve_effect s clock k limit units scope_limit expiry lease scope
      (put_hash s k (<[lease := entry_text units expiry scope]> fields) d) reply.

Lemma reserve_script_effect s clock k a1 a2 a3 lease a5 scope a7 s' reply :
  reserve_script s clock k a1 a2 a3 lease a5 scope a7 = (s', reply) ->
  (s' = s /\ exists e, reply = Err e) \/
  exists limit units expiry scope_limit, lua_tonumber a2 = Some limit /\ lua_tonumber a3 = Some units /\
    lua_tonumber a5 = Some expiry /\ lua_tonumber a7 = Some scope_limit /\
    reserve_effect s clock k limit units scope_limit expiry lease scope s' reply.
Proof.
  unfold reserve_script. destruct (lua_tonumber a1) as [now|], (lua_tonumber a2) as [limit|], (lua_tonumber a3) as [units|],
    (lua_tonumber a5) as [expiry|], (lua_tonumber a7) as [sl|]; try (intros [= <- <-]; left; by eauto).
  intros E. right. exists limit, units, expiry, sl. split_and!; try done. revert E.
  destruct (scan _ _ _ _ _ _) as [fields [[used sused]|]] eqn:ES;
    pose proof (scan_subset now scope (hash_iter (fields_of s clock k)) (fields_of s clock k) f_zero f_zero) as HS;
    rewrite ES in HS; cbn [fst] in HS; [|intros [= <- <-]; by apply effect_purged].
  destruct (f_gt (f_add used units) limit) eqn:G1; [intros [= <- <-]; by apply effect_refused|].
  destruct (f_gt (f_add sused units) sl) eqn:G2; [intros [= <- <-]; by apply effect_refused|]. cbn [orb].
  destruct (lua_int _); intros [= <- <-]; eapply effect_granted; eauto.
Qed.

(** ** The laws *)

Lemma effect_held s clock p limit units scope_limit expiry i scope s' reply :
  reserve_effect s clock (key p) limit units scope_limit expiry (uuid_text i) scope s' reply ->
  valkey_held s' ⊆ {[ (p, i) ]} ∪ valkey_held s /\ (reply = Ok 0 -> valkey_held s' ⊆ valkey_held s) /\
  (forall n, reply = Ok n -> n = 0 \/ n = 1).
Proof.
  intros [fields e Hf | fields Hf | fields now used sused d r ES _ _ Hr].
  - pose proof (held_put_same s clock p fields (deadline_of s clock (key p)) Hf). split_and!; [set_solver | done | done].
  - pose proof (held_put_same s clock p fields (deadline_of s clock (key p)) Hf).
    split_and!; [set_solver | done | intros n [= <-]; by left].
  - pose proof (scan_subset now scope (hash_iter (fields_of s clock (key p))) (fields_of s clock (key p)) f_zero f_zero) as HS.
    rewrite ES in HS. cbn [fst] in HS. split_and!.
    + apply (held_put s clock). intros j. destruct (decide (i = j)) as [<- | Hne]; [left; by apply elem_of_singleton|].
      rewrite lookup_insert_ne by (intros E%uuid_text_inj; done). intros [v Hv]. right. eapply lookup_weaken in Hv; [|exact HS]. eauto.
    + destruct Hr as [-> | [e ->]]; done.
    + intros n ->. destruct Hr as [[= ->] | [e [=]]]. by right.
Qed.

Lemma script_held s clock p a1 a2 a3 i a5 scope a7 s' reply :
  reserve_script s clock (key p) a1 a2 a3 (uuid_text i) a5 scope a7 = (s', reply) ->
  valkey_held s' ⊆ {[ (p, i) ]} ∪ valkey_held s /\ (reply = Ok 0 -> valkey_held s' ⊆ valkey_held s) /\
  (forall n, reply = Ok n -> n = 0 \/ n = 1).
Proof.
  intros [[-> [e ->]] | (limit & units & expiry & sl & _ & _ & _ & _ & HE)]%reserve_script_effect; [|by eapply effect_held].
  split_and!; [set_solver | done | done].
Qed.

(** The caller's view: what a granted and a refused reservation leave held. *)
Lemma valkey_reserve_held s env p scope l sl u ttl s' out :
  valkey_reserve_scoped namespace s env p scope l sl u ttl = (s', Ok out) ->
  match out with
  | Some lease => lease_pool lease = p /\ lease_id lease = env_id env /\ lease_units lease = u /\
      valkey_held s' ⊆ {[ (p, env_id env) ]} ∪ valkey_held s
  | None => valkey_held s' ⊆ valkey_held s
  end.
Proof.
  unfold valkey_reserve_scoped. destruct (validate_limits l sl u); [|done]. destruct (env_wall_ms env); [|done].
  unfold remote. destruct (env_fault env); [|done..].
  destruct (reserve_script _ _ _ _ _ _ _ _ _ _) as [s1 reply] eqn:E. apply script_held in E as (H1 & H2 & H3).
  cbn [fst snd]. destruct reply as [n|e]; [|done]. cbn. destruct (H3 n eq_refl) as [-> | ->]; cbn; intros [= <- <-]; [by apply H2 | done].
Qed.

Lemma hdel_held s clock p i : valkey_held (hdel s clock (key p) (uuid_text i)) ⊆ valkey_held s ∖ {[ (p, i) ]}.
Proof.
  intros [q j] Hq. unfold hdel in Hq. apply elem_of_difference. split.
  - revert Hq. apply (held_put_same s clock). apply delete_subseteq.
  - rewrite elem_of_singleton. intros [= -> ->]. apply elem_of_valkey_held in Hq as (h & Hh & Hj). unfold put_hash in Hh.
    case_bool_decide; [by rewrite lookup_delete_eq in Hh|]. rewrite lookup_insert_eq in Hh. injection Hh as <-.
    cbn in Hj. rewrite lookup_delete_eq in Hj. by destruct Hj.
Qed.

(** Every theorem of the proxy about a coordinator holds for Valkey. *)
#[export] Program Instance ValkeyLaws : CoordinatorLaws ServerState (H := Valkey namespace) := { held := valkey_held }.
Next Obligation.
  intros s env pool limit units ttl s' l E. cbn in E. unfold valkey_reserve in E. destruct (_ || _); [done|].
  by apply valkey_reserve_held in E.
Qed.
Next Obligation.
  intros s env pool limit units ttl s' E. cbn in E. unfold valkey_reserve in E. destruct (_ || _); [done|].
  by apply valkey_reserve_held in E.
Qed.
Next Obligation. intros s env pool scope pl sl units ttl s' l E. by apply valkey_reserve_held in E. Qed.
Next Obligation. intros s env pool scope pl sl units ttl s' E. by apply valkey_reserve_held in E. Qed.
Next Obligation.
  intros s env l s' E. cbn in E. unfold valkey_release, remote in E. destruct (env_fault env); [|done..].
  injection E as <-. apply hdel_held.
Qed.
Next Obligation.
  intros s env l s' r E. cbn in E. unfold valkey_release, remote in E.
  pose proof (hdel_held s (env_server_ms env) (lease_pool l) (lease_id l)) as HD.
  destruct (env_fault env); injection E as <- <-; cbn; set_solver.
Qed.

(** ** Stored amounts *)

Definition value_amount (v : string) : f64 := default f_zero (split_colon v ≫= fun p => lua_tonumber p.1).
Definition value_scope (v : string) : string := default EmptyString (split_colon v ≫= fun p => snd <$> split_colon p.2).

(** A well-formed entry with a whole amount. *)
Definition good_value (v : string) : Prop :=
  exists a rest e x, split_colon v = Some (a, rest) /\ split_colon rest = Some (e, value_scope v) /\
    lua_tonumber a = Some x /\ whole x.

Lemma split_colon_app a rest : no_colon a = true -> split_colon (a +:+ (":" +:+ rest)) = Some (a, rest).
Proof.
  induction a as [|c a IH]; [done|]. cbn [no_colon]. intros [Hc Ha]%andb_true_iff. apply negb_true_iff in Hc.
  change (split_colon (String c (a +:+ (":" +:+ rest))) = Some (String c a, rest)). cbn [split_colon]. by rewrite Hc, IH.
Qed.

Lemma split_colon_no_colon s a b : split_colon s = Some (a, b) -> no_colon a = true.
Proof.
  revert a b. induction s as [|c s IH]; intros a b; cbn [split_colon]; [done|].
  destruct (Ascii.eqb c ":") eqn:Ec; [by intros [= <- _]|].
  destruct (split_colon s) as [[a' b']|]; [|done]. intros [= <- _]. cbn [no_colon]. rewrite Ec. by apply (IH a' b').
Qed.

Lemma entry_good a e scope x : no_colon a = true -> no_colon e = true -> lua_tonumber a = Some x -> whole x ->
  let v := a +:+ (":" +:+ (e +:+ (":" +:+ scope))) in good_value v /\ value_amount v = x /\ value_scope v = scope.
Proof.
  intros Ha He Hx Hw v. assert (E1 : split_colon v = Some (a, e +:+ (":" +:+ scope))) by (by apply split_colon_app).
  assert (E2 : split_colon (e +:+ (":" +:+ scope)) = Some (e, scope)) by (by apply split_colon_app).
  assert (ES : value_scope v = scope) by (unfold value_scope; rewrite E1; cbn; by rewrite E2).
  split_and!; [|unfold value_amount; rewrite E1; cbn; by rewrite Hx | done].
  exists a, (e +:+ (":" +:+ scope)), e, x. rewrite ES. done.
Qed.

Lemma good_value_amount v : good_value v -> whole (value_amount v).
Proof. intros (a & rest & e & x & E1 & _ & E2 & Hw). unfold value_amount. rewrite E1. cbn. by rewrite E2. Qed.

(** The exact sum of the amounts that [keep] selects by scope. *)
Definition stored (keep : string -> bool) (fields : gmap string string) : Z :=
  zsum ext (value_amount <$> filter (fun v => keep (value_scope v) = true) (map_to_list fields).*2).

Definition all_good (fields : gmap string string) : Prop := forall id v, fields !! id = Some v -> good_value v.

Lemma all_good_list fields (l : list (string * string)) : all_good fields -> l ⊆+ map_to_list fields ->
  Forall good_value l.*2.
Proof.
  intros HG Hl. apply Forall_forall. intros v ([id w] & -> & Hi)%list_elem_of_fmap.
  eapply elem_of_submseteq in Hi; [|exact Hl]. apply elem_of_map_to_list in Hi. by apply (HG id).
Qed.

Lemma stored_list_nonneg keep (vs : list string) : Forall good_value vs ->
  0 <= zsum ext (value_amount <$> filter (fun v => keep (value_scope v) = true) vs).
Proof.
  intros HG. apply zsum_nonneg, Forall_forall. intros x (v & -> & [_ Hv]%list_elem_of_filter)%list_elem_of_fmap.
  rewrite Forall_forall in HG. by destruct (good_value_amount v (HG v Hv)) as [[_ ?] _].
Qed.

Lemma stored_subset keep f g : all_good g -> f ⊆ g -> all_good f /\ 0 <= stored keep f <= stored keep g.
Proof.
  intros HG Hs. assert (HF : all_good f) by (intros id v Hv; eapply HG, lookup_weaken; eauto). split; [done|].
  apply map_to_list_submseteq in Hs as [k Hk]%submseteq_Permutation. unfold stored. rewrite Hk.
  rewrite !fmap_app, filter_app, !fmap_app, zsum_app.
  assert (HK : Forall good_value k.*2) by (eapply all_good_list; [exact HG | rewrite Hk; by apply submseteq_inserts_l]).
  pose proof (stored_list_nonneg keep _ HK). pose proof (stored_list_nonneg keep _ (all_good_list f _ HF (reflexivity _))). lia.
Qed.

Lemma stored_insert keep f id v : all_good f -> good_value v ->
  all_good (<[id := v]> f) /\ stored keep (<[id := v]> f) <= (if keep (value_scope v) then ext (value_amount v) else 0) + stored keep f.
Proof.
  intros HG Hv. split; [intros j w; rewrite lookup_insert_Some; intros [[_ <-] | [_ Hw]]; [done | by apply (HG j)]|].
  destruct (stored_subset keep (delete id f) f HG (delete_subseteq _ _)) as [_ HS]. unfold stored at 1.
  rewrite <- insert_delete_eq, map_to_list_insert by apply lookup_delete_eq. rewrite fmap_cons, filter_cons. cbn [snd].
  destruct (keep (value_scope v)); cbn [decide decide_rel bool_decide]; [rewrite decide_True by done | rewrite decide_False by done];
    fold (stored keep (delete id f)); [rewrite fmap_cons; cbn [zsum]; fold (stored keep (delete id f))|]; lia.
Qed.

(** What the loop keeps and sums. *)
Lemma scan_spec now scope l pre fields u su fields' u' su' :
  scan now scope l fields u su = (fields', Some (u', su')) -> map_to_list fields ≡ₚ l ++ pre ->
  exists kept, map_to_list fields' ≡ₚ kept ++ pre /\
    u' = fold_left f_add (value_amount <$> kept.*2) u /\
    su' = fold_left f_add (value_amount <$> filter (fun v => String.eqb (value_scope v) scope = true) kept.*2) su.
Proof.
  revert pre fields u su. induction l as [|[id v] l IH]; intros pre fields u su; cbn [scan].
  { intros [= <- <- <-] HP. by exists []. }
  destruct (split_colon v) as [[a rest]|] eqn:E1; [|done]. destruct (split_colon rest) as [[e sc]|] eqn:E2; [|done].
  destruct (lua_tonumber e) as [expires|]; [|done]. intros E HP.
  assert (Hid : fields !! id = Some v) by (apply elem_of_map_to_list; rewrite HP; by left).
  destruct (f_le expires now).
  - apply (IH pre) in E; [done|]. rewrite <- (map_to_list_delete fields id v Hid) in HP. by apply Permutation_cons_inv in HP.
  - destruct (lua_tonumber a) as [x|] eqn:E3; [|done].
    destruct (IH ((id, v) :: pre) _ _ _ E) as (kept & HK & Eu & Esu); [by rewrite HP, <- Permutation_middle|].
    assert (EA : value_amount v = x) by (unfold value_amount; rewrite E1; cbn; by rewrite E3).
    assert (ES : value_scope v = sc) by (unfold value_scope; rewrite E1; cbn; by rewrite E2).
    exists ((id, v) :: kept). split_and!.
    + by rewrite HK, <- Permutation_middle.
    + rewrite !fmap_cons. cbn [snd fold_left]. by rewrite EA.
    + rewrite fmap_cons, filter_cons. cbn [snd]. rewrite ES. destruct (String.eqb sc scope) eqn:Eq.
      * rewrite decide_True by done. rewrite fmap_cons. cbn [fold_left]. by rewrite EA.
      * by rewrite decide_False.
Qed.

(** A grant with whole amounts keeps the limit exactly. *)
Lemma grant_stored keep (vs : list string) units L : Forall good_value vs -> whole units -> num L -> ext L < 2 ^ PREC * ONE ->
  f_gt (f_add (fold_left f_add (value_amount <$> filter (fun v => keep (value_scope v) = true) vs) f_zero) units) L = false ->
  zsum ext (value_amount <$> filter (fun v => keep (value_scope v) = true) vs) + ext units <= ext L.
Proof.
  intros HV Hu NL LL HG. set (l := value_amount <$> filter _ vs) in *.
  assert (W0 : whole f_zero) by (split; [split; [split; reflexivity | vm_compute; congruence] | by vm_compute]).
  assert (Hl : Forall whole (l ++ [units])).
  { apply Forall_app. split; [|by constructor]. apply Forall_forall.
    intros x (v & -> & [_ Hv]%list_elem_of_filter)%list_elem_of_fmap. rewrite Forall_forall in HV. by apply good_value_amount, HV. }
  pose proof (whole_sum_le (l ++ [units]) f_zero L W0 Hl NL LL) as HS. rewrite fold_left_app in HS. specialize (HS HG).
  rewrite zsum_app in HS. cbn [zsum] in HS. change (ext f_zero) with 0 in HS. lia.
Qed.

(** ** Histories of the shared server *)

Context (limit : string -> f64) (scope_limit : string -> string -> f64).
Hypothesis limits_ok : forall p sc, nn (limit p) /\ is_finite (limit p) = true /\ ext (limit p) < 2 ^ PREC * ONE /\
  nn (scope_limit p sc) /\ is_finite (scope_limit p sc) = true /\ ext (scope_limit p sc) < 2 ^ PREC * ONE.

Definition unit_count (u : f64) : Prop := exists n, 0 <= n < 10 ^ 14 /\ u = f_of_Z n.

(** A call of any proxy, with its own clock and its own faults; every pool and
    every scope is used with one limit. *)
Inductive vstep (s : ServerState) : ServerState -> Prop :=
| v_reserve env pool units ttl s' r : unit_count units ->
    valkey_reserve namespace s env pool (limit pool) units ttl = (s', r) -> vstep s s'
| v_reserve_scoped env pool scope units ttl s' r : unit_count units -> scope <> EmptyString ->
    valkey_reserve_scoped namespace s env pool scope (limit pool) (scope_limit pool scope) units ttl = (s', r) -> vstep s s'
| v_release env lease s' r : valkey_release namespace s env lease = (s', r) -> vstep s s'
| v_renew env lease ttl s' r : valkey_renew namespace s env lease ttl = (s', r) -> vstep s s'.

Record fields_ok (pool : string) (fields : gmap string string) : Prop := {
  fo_good : all_good fields;
  fo_pool : stored (fun _ => true) fields <= ext (limit pool);
  fo_scope : forall scope, scope <> EmptyString -> stored (fun sc => String.eqb sc scope) fields <= ext (scope_limit pool scope)
}.

Definition server_ok (s : ServerState) : Prop := forall pool h, s !! key pool = Some h -> fields_ok pool (hash_fields h).

Lemma fields_ok_subset pool f g : fields_ok pool g -> f ⊆ g -> fields_ok pool f.
Proof.
  intros [G1 G2 G3] Hs. split.
  - apply (stored_subset (fun _ => true) f g G1 Hs).
  - etransitivity; [apply (stored_subset (fun _ => true) f g G1 Hs) | done].
  - intros scope Hn. etransitivity; [apply (stored_subset _ f g G1 Hs) | by apply G3].
Qed.

Lemma fields_ok_empty pool : fields_ok pool ∅.
Proof.
  destruct (limits_ok pool EmptyString) as ((_ & P1) & _). split.
  - intros id v. by rewrite lookup_empty.
  - unfold stored. rewrite map_to_list_empty. cbn. lia.
  - intros scope _. destruct (limits_ok pool scope) as (_ & _ & _ & (_ & P2) & _). unfold stored. rewrite map_to_list_empty. cbn. lia.
Qed.

Lemma server_fields_ok s clock pool : server_ok s -> fields_ok pool (fields_of s clock (key pool)).
Proof.
  intros HS. unfold fields_of. destruct (s !! key pool) as [h|] eqn:E; [|apply fields_ok_empty].
  destruct (hash_deadline h) as [d|]; [destruct (d <=? clock); [apply fields_ok_empty|]|]; by apply HS.
Qed.

Lemma put_ok s pool fields d : server_ok s -> fields_ok pool fields -> server_ok (put_hash s (key pool) fields d).
Proof.
  intros HS HF q h. unfold put_hash. case_bool_decide.
  - rewrite lookup_delete_Some. intros [_ Hh]. by apply HS.
  - rewrite lookup_insert_Some. intros [[Ek <-] | [_ Hh]]; [apply pool_key_inj in Ek as <-; done | by apply HS].
Qed.

Lemma unit_count_entry u expiry scope : unit_count u ->
  whole u /\ is_finite u = true /\ good_value (entry_text u expiry scope) /\ value_amount (entry_text u expiry scope) = u /\
  value_scope (entry_text u expiry scope) = scope.
Proof.
  intros (n & Hn & ->). destruct (f_of_Z_exact n) as (N & F & X); [unfold PREC; lia|].
  assert (W : whole (f_of_Z n)) by (split; [done | rewrite X; apply Z_mod_mult]). split; [done|]. split; [done|].
  apply (entry_good (lua_tostring (f_of_Z n)) (lua_tostring expiry) scope (f_of_Z n)); auto using tostring_no_colon, tonumber_tostring.
Qed.

Lemma granted_ok s clock pool now scope fields used sused units expiry lease :
  server_ok s -> unit_count units ->
  scan now scope (hash_iter (fields_of s clock (key pool))) (fields_of s clock (key pool)) f_zero f_zero = (fields, Some (used, sused)) ->
  f_gt (f_add used units) (limit pool) = false ->
  (scope <> EmptyString -> f_gt (f_add sused units) (scope_limit pool scope) = false) ->
  fields_ok pool (<[lease := entry_text units expiry scope]> fields).
Proof.
  intros HS HU ES G1 G2. destruct (unit_count_entry units expiry scope HU) as (Wu & _ & Vg & Va & Vs).
  pose proof (scan_subset now scope (hash_iter (fields_of s clock (key pool))) (fields_of s clock (key pool)) f_zero f_zero) as HF.
  rewrite ES in HF. apply (fields_ok_subset pool) in HF; [cbn [fst] in HF | by apply server_fields_ok].
  apply (scan_spec _ _ _ []) in ES as (kept & HK & Eu & Esu); [|by rewrite app_nil_r, hash_iter_perm].
  rewrite app_nil_r in HK. destruct HF as [F1 F2 F3].
  assert (HKG : Forall good_value kept.*2) by (eapply all_good_list; [exact F1 | by rewrite HK]).
  assert (HST : forall keep, stored keep fields = zsum ext (value_amount <$> filter (fun v => keep (value_scope v) = true) kept.*2)).
  { intros keep. unfold stored. by rewrite HK. }
  assert (HI : forall keep, stored keep (<[lease := entry_text units expiry scope]> fields) <=
    (if keep scope then ext units else 0) + stored keep fields).
  { intros keep. destruct (stored_insert keep fields lease _ F1 Vg) as [_ HX]. by rewrite Vs, Va in HX. }
  split.
  - by apply (stored_insert (fun _ => true)).
  - etransitivity; [apply HI|]. rewrite HST. destruct (limits_ok pool EmptyString) as ((N & _) & _ & L & _). rewrite Z.add_comm.
    apply (grant_stored (fun _ => true)); try done. rewrite filter_all by (by apply Forall_forall). by rewrite <- Eu.
  - intros sc Hn. etransitivity; [apply HI|]. cbn beta. destruct (String.eqb_spec scope sc) as [<- |]; [|apply F3 in Hn; lia].
    rewrite HST, Z.add_comm. destruct (limits_ok pool scope) as (_ & _ & _ & (N & _) & _ & L).
    apply (grant_stored (fun x => String.eqb x scope)); try done. rewrite <- Esu. by apply G2.
Qed.

Lemma reserve_effect_ok s clock pool units sl expiry lease scope s' reply :
  server_ok s -> unit_count units -> (scope <> EmptyString -> sl = scope_limit pool scope) ->
  reserve_effect s clock (key pool) (limit pool) units sl expiry lease scope s' reply -> server_ok s'.
Proof.
  intros HS HU Hsl [fields e Hf | fields Hf | fields now used sused d r ES G1 G2 _]; apply put_ok; try done.
  - eapply fields_ok_subset; [by apply server_fields_ok | exact Hf].
  - eapply fields_ok_subset; [by apply server_fields_ok | exact Hf].
  - eapply granted_ok; [done | done | exact ES | exact G1 |]. intros Hn. by rewrite <- Hsl.
Qed.

Lemma reserve_scoped_ok s env pool scope sl units ttl s' r :
  server_ok s -> unit_count units -> is_finite sl = true -> (scope <> EmptyString -> sl = scope_limit pool scope) ->
  valkey_reserve_scoped namespace s env pool scope (limit pool) sl units ttl = (s', r) -> server_ok s'.
Proof.
  intros HS HU Fs Hsl. unfold valkey_reserve_scoped. destruct (validate_limits _ _ _); [|by intros [= <- <-]].
  destruct (env_wall_ms env); [|by intros [= <- <-]]. unfold remote.
  destruct (reserve_script _ _ _ _ _ _ _ _ _ _) as [s1 reply] eqn:E.
  assert (HS1 : server_ok s1).
  { apply reserve_script_effect in E as [[-> _] | (l & u & ex & sl' & E2 & E3 & _ & E7 & HE)]; [done|].
    destruct (unit_count_entry units f_zero scope HU) as (_ & Fu & _). destruct (limits_ok pool scope) as (_ & Fl & _).
    rewrite tonumber_arg_f64 in E2, E3, E7 by done. simplify_eq. by eapply reserve_effect_ok. }
  destruct (env_fault env); intros [= <- <-]; done.
Qed.

Lemma hdel_ok s clock pool field : server_ok s -> server_ok (hdel s clock (key pool) field).
Proof. intros HS. apply put_ok; [done|]. eapply fields_ok_subset; [by apply server_fields_ok | apply delete_subseteq]. Qed.

(** A renewal rewrites the expiry and nothing else. *)
Lemma renewed_ok pool fields lease v a rest e scope text : fields_ok pool fields -> fields !! lease = Some v ->
  split_colon v = Some (a, rest) -> split_colon rest = Some (e, scope) -> no_colon text = true ->
  fields_ok pool (<[lease := a +:+ (":" +:+ (text +:+ (":" +:+ scope)))]> fields).
Proof.
  intros [F1 F2 F3] Hv E1 E2 Ht. destruct (F1 _ _ Hv) as (a' & rest' & e' & x & E1' & E2' & Ex & Wx).
  rewrite E1 in E1'. injection E1' as <- <-. rewrite E2 in E2'. injection E2' as <- Esc.
  pose proof (split_colon_no_colon _ _ _ E1) as Ha.
  destruct (entry_good a text scope x Ha Ht Ex Wx) as (Vg & Va & Vs). set (w := a +:+ _) in *.
  assert (EA : value_amount v = x) by (unfold value_amount; rewrite E1; cbn; by rewrite Ex).
  assert (HI : forall keep, stored keep (<[lease := w]> fields) = stored keep fields).
  { intros keep. unfold stored. rewrite <- insert_delete_eq, map_to_list_insert by apply lookup_delete_eq.
    rewrite <- (map_to_list_delete fields lease v Hv), !fmap_cons, !filter_cons. cbn [snd]. rewrite Vs, Esc.
    destruct (decide (keep (value_scope v) = true)); rewrite ?fmap_cons; cbn [zsum]; [by rewrite Va, EA | done]. }
  split; [by apply (stored_insert (fun _ => true)) | by rewrite HI | intros sc Hn; rewrite HI; by apply F3].
Qed.

Lemma vstep_ok s s' : server_ok s -> vstep s s' -> server_ok s'.
Proof.
  intros HS [env pool units ttl s1 r HU E | env pool scope units ttl s1 r HU Hn E | env lease s1 r E | env lease ttl s1 r E].
  - unfold valkey_reserve in E. destruct (_ || _); [by injection E as <- <-|].
    eapply reserve_scoped_ok; [done | done | | | exact E]; [apply (limits_ok pool EmptyString) | done].
  - eapply reserve_scoped_ok; [done | done | | | exact E]; [apply (limits_ok pool scope) | done].
  - unfold valkey_release, remote in E. destruct (env_fault env); injection E as <- <-; auto using hdel_ok.
  - unfold valkey_renew, remote in E. destruct (env_wall_ms env); [|by injection E as <- <-].
    destruct (renew_script _ _ _ _ _ _) as [s2 reply] eqn:ER.
    assert (HS2 : server_ok s2).
    { unfold renew_script in ER. destruct (fields_of _ _ _ !! _) as [v|] eqn:Ev; [|by injection ER as <- <-].
      destruct (split_colon v) as [[a rest]|] eqn:E1; [|by injection ER as <- <-].
      destruct (split_colon rest) as [[e sc]|] eqn:E2; [|by injection ER as <- <-].
      destruct (_ <=? _); injection ER as <- <-; (apply put_ok; [done|]);
        (eapply renewed_ok; [by apply server_fields_ok | exact Ev | exact E1 | exact E2 | apply arg_u64_no_colon]). }
    destruct (env_fault env); injection E as <- <-; done.
Qed.

Lemma vsteps_ok n s s' : server_ok s -> nsteps vstep n s s' -> server_ok s'.
Proof. intros HS HR. induction HR; eauto using vstep_ok. Qed.
End scripts.

(** ** A text form that satisfies the laws *)

#[local] Instance spec_float_eq_dec : EqDecision spec_float.
Proof. solve_decision. Defined.
#[local] Instance spec_float_countable : Countable spec_float.
Proof.
  refine (inj_countable'
    (fun x => match x with
              | S754_zero s => inl (inl s) | S754_infinity s => inl (inr (Some s)) | S754_nan => inl (inr None)
              | S754_finite s m e => inr (s, m, e) end)
    (fun c => match c with
              | inl (inl s) => S754_zero s | inl (inr (Some s)) => S754_infinity s | inl (inr None) => S754_nan
              | inr (s, m, e) => S754_finite s m e end) _).
  by intros [].
Defined.

Fixpoint bits_text (p : positive) : string :=
  match p with xH => EmptyString | xO q => String "0" (bits_text q) | xI q => String "1" (bits_text q) end.
Fixpoint read_bits (s : string) : option positive :=
  match s with
  | EmptyString => Some xH
  | String c rest =>
      match read_bits rest with
      | Some q => if Ascii.eqb c "0" then Some (xO q) else if Ascii.eqb c "1" then Some (xI q) else None
      | None => None
      end
  end.

Lemma read_bits_text p : read_bits (bits_text p) = Some p.
Proof. induction p as [p IH | p IH |]; cbn; by rewrite ?IH. Qed.

Lemma bits_text_no_colon p : no_colon (bits_text p) = true.
Proof. induction p; cbn; done. Qed.

Definition plain_text : LuaText := {|
  lua_tostring x := bits_text (encode (x : spec_float));
  lua_tonumber s := read_bits s ≫= (decode : positive -> option spec_float);
  arg_f64 x := bits_text (encode (x : spec_float));
  arg_u64 n := bits_text (encode (f_of_Z n : spec_float));
  uuid_text u := bits_text (encode u)
|}.

Lemma plain_text_laws : LuaTextLaws (H := plain_text).
Proof.
  assert (HR : forall x : spec_float, read_bits (bits_text (encode x)) ≫= (decode : positive -> option spec_float) = Some x).
  { intros x. rewrite read_bits_text. cbn. apply decode_encode. }
  split; cbn; intros; auto using bits_text_no_colon.
  assert (E : read_bits (bits_text (encode a)) = read_bits (bits_text (encode b))) by (by f_equal).
  rewrite !read_bits_text in E. injection E as E. by apply (inj encode) in E.
Qed.

(** ** The property *)

Definition ex_units : string -> f64 := fun _ => f_of_Z 2.
Definition ex_server : gmap string RedisHash :=
  (valkey_reserve (H := plain_text) "inferqos:v2" ∅ (mkEnv 5 (Some 1000) 1000 7%N NoFault) "main" (f_of_Z 2) (f_of_Z 1) (from_secs 300)).1.



(** The lease really is there. *)
Example ex_server_holds :
  size (from_option hash_fields ∅ (ex_server !! pool_key "inferqos:v2" "main")) = 1%nat.
Proof. vm_compute. reflexivity. Qed.
