(* ===== verification/Config.v ===== *)
(** * Configuration and its semantic validation (crates/config)

    The records of the configuration file, [validate] with its error messages
    in the order the code reports them, and [expand_env].  Parsing of YAML,
    CIDR blocks and URLs is third-party code: [validate] takes the two parsers
    as parameters. *)

From stdpp Require Import base gmap strings countable sorting list.
From Stdlib Require Import ZArith Lia SpecFloat String Ascii.
From S2P Require Import Prelude Rounding F64 F64Facts Core.

Open Scope Z_scope.

(** [std::net::SocketAddr] and [std::path::PathBuf]. *)
Record SocketAddr : Type := mkSocketAddr { ip : string; port : Z }.
Definition PathBuf : Type := string.

Inductive Mode : Type := Shadow | Enforce.

Record ServerTlsConfig : Type := mkServerTlsConfig {
  cert_file : PathBuf;
  key_file : PathBuf;
  client_ca_file : PathBuf
}.

Record ServerConfig : Type := mkServerConfig {
  server_listen : SocketAddr;
  tls : option ServerTlsConfig;
  max_body_bytes : Z;
  spool_threshold_bytes : Z;
  spool_directory : PathBuf;
  config_reload_interval : Duration
}.

Record AdminConfig : Type := mkAdminConfig {
  admin_listen : SocketAddr;
  bearer_token_env : option string;
  expose_decisions : bool
}.

Inductive CoordinatorConfig : Type :=
| Memory
| Valkey (url_env : string) (lease_ttl : Duration).

Record ServiceClassConfig : Type := mkServiceClassConfig {
  class_weight : Z;
  default_deadline : Duration;
  max_queue : Duration;
  max_queued : Z
}.

Inductive ProviderKind : Type :=
| AzureOpenai
| AwsBedrock
| GcpVertex
| OpenaiCompatible
| Fake
| ExternalGrpc.

Inductive ExternalAdapterConfig : Type :=
| Unix (path : PathBuf)
| Loopback (uri : string)
| Tls (uri : string) (domain : string) (ca_file : PathBuf)
      (client_cert_file : option PathBuf) (client_key_file : option PathBuf).

Inductive AuthConfig : Type :=
| NoAuth
| ApiKey (env : string) (header : string)
| Bearer (env : string)
| Ambient.

Record PoolConfig : Type := mkPoolConfig {
  provider : ProviderKind;
  endpoint : string;
  model : option string;
  deployment : option string;
  region : option string;
  external_adapter : option ExternalAdapterConfig;
  capacity_units : f64;
  auth : AuthConfig;
  allowed_hosts : gset string;
  initial_safety_factor : f64
}.

Record TenantPolicy : Type := mkTenantPolicy {
  tenant_weight : Z;
  guaranteed_share : f64;
  max_share : f64;
  tenant_max_concurrency : Z
}.

Record ApplicationPolicy : Type := mkApplicationPolicy {
  app_tenant : string;
  allowed_classes : gset string;
  app_weight : Z;
  app_max_concurrency : Z;
  permitted_pools : gset string
}.

Record IdentityMapping : Type := mkIdentityMapping {
  map_principal : string;
  map_tenant : string;
  map_application : string
}.

Record Policies : Type := mkPolicies {
  tenants : gmap string TenantPolicy;
  applications : gmap string ApplicationPolicy;
  api_keys : gmap string IdentityMapping
}.

Record OidcConfig : Type := mkOidcConfig {
  issuer : string;
  audience : string;
  jwks_url : option string;
  principal_claim : string;
  tenant_claim : string;
  application_claim : string;
  oidc_required : bool
}.

Record TrustedIdentityHeaders : Type := mkTrustedIdentityHeaders {
  principal_header : string;
  tenant_header : string;
  application_header : string;
  client_cert_san : string
}.

Record IdentityConfig : Type := mkIdentityConfig {
  oidc : option OidcConfig;
  trusted_proxy_cidrs : list string;
  trusted_headers : TrustedIdentityHeaders;
  mtls_san_mappings : gmap string IdentityMapping;
  mtls_certificate_sha256_mappings : gmap string IdentityMapping
}.

Record Limits : Type := mkLimits {
  total_queue_depth : Z;
  total_queue_bytes : Z;
  decision_history : Z;
  expected_replicas : Z;
  allow_unsafe_uncoordinated_ha : bool
}.

Record Config : Type := mkConfig {
  api_version : string;
  kind : string;
  mode : Mode;
  server : ServerConfig;
  admin : AdminConfig;
  coordinator : CoordinatorConfig;
  service_classes : gmap string ServiceClassConfig;
  pools : gmap string PoolConfig;
  policies : Policies;
  identity_config : IdentityConfig;
  limits : Limits
}.

(** The messages of [ConfigError::Semantic], one constructor per format string
    with the values it is formatted with. *)
Inductive SemanticReason : Type :=
| BadVersionOrKind
| NoPools
| BodyLimits
| EmptyTlsPath (label : string)
| MissingClass (c : ServiceClass)
| ClassZero (name : string)
| PoolCapacity (name : string)
| PoolSafety (name : string)
| TenantShares (name : string)
| UnknownTenant (app tenant : string)
| UnknownClass (app class : string)
| AdapterMismatch (pool : string)
| AdapterMtls (pool : string)
| InvalidCidr (cidr error : string)
| InvalidFingerprint (fingerprint : string)
| InvalidIssuer (error : string)
| InsecureIssuer
| EmptyAudience
| UncoordinatedReplicas.

(** The messages of [ConfigError::Environment]. *)
Inductive EnvReason : Type :=
| Unclosed
| InvalidName (key : string)
| NotSet (key : string).

Inductive ConfigError : Type :=
| Read
| Parse
| Semantic (reason : SemanticReason)
| Environment (reason : EnvReason).

#[export] Instance Mode_eq_dec : EqDecision Mode. Proof. solve_decision. Defined.
#[export] Instance ProviderKind_eq_dec : EqDecision ProviderKind. Proof. solve_decision. Defined.

(** ** [Config::validate] *)

(** A [for] loop whose body may return an error. *)
Fixpoint try_for {A} (l : list A) (body : A -> result ConfigError unit) : result ConfigError unit :=
  match l with
  | [] => Ok tt
  | x :: rest => let? _ := body x in try_for rest body
  end.

(** [if condition { return Err(...) }]. *)
Definition reject_if (condition : bool) (reason : SemanticReason) : result ConfigError unit :=
  if condition then Err (Semantic reason) else Ok tt.

(** The order of [BTreeMap<String, _>] and [BTreeSet<String>]. *)
Definition string_le (a b : string) : Prop := String.compare a b <> Gt.
#[export] Instance string_le_dec : RelDecision string_le.
Proof. intros a b. unfold string_le. destruct (String.compare a b); [left | left | right]; congruence. Defined.

Definition btree_set_iter (s : gset string) : list string := merge_sort string_le (elements s).

(** [u8::is_ascii_hexdigit]. *)
Definition is_ascii_hexdigit (c : ascii) : bool :=
  let n := N_of_ascii c in
  ((48 <=? n) && (n <=? 57) || (65 <=? n) && (n <=? 70) || (97 <=? n) && (n <=? 102))%N.

Definition all_chars (p : ascii -> bool) (s : string) : bool := forallb p (list_ascii_of_string s).

(** What validation uses of [url::Url]. *)
Record Url : Type := mkUrl { scheme : string; host_str : option string }.

Definition builtin_classes : list ServiceClass := [Realtime; Interactive; Standard; Workflow; Batch].

Section validate.
Context (parse_cidr : string -> result string unit) (parse_url : string -> result string Url).

Definition validate_tls (c : Config) : result ConfigError unit :=
  match tls (server c) with
  | None => Ok tt
  | Some t =>
      try_for [("server TLS certificate", cert_file t); ("server TLS private key", key_file t);
               ("mTLS client CA", client_ca_file t)]%string
        (fun '(label, path) => reject_if (String.eqb path EmptyString) (EmptyTlsPath label))
  end.

Definition validate_pool_numbers (c : Config) : result ConfigError unit :=
  try_for (btree_iter string_le (pools c)) (fun '(name, p) =>
    let? _ := reject_if (negb (is_finite (capacity_units p)) || f_le (capacity_units p) f_zero) (PoolCapacity name) in
    reject_if (negb (f_in f_one (f_of_Z 4) (initial_safety_factor p))) (PoolSafety name)).

Definition validate_policies (c : Config) : result ConfigError unit :=
  let? _ := try_for (btree_iter string_le (tenants (policies c))) (fun '(name, t) =>
    reject_if (negb (f_in f_zero f_one (guaranteed_share t)) || negb (f_in (guaranteed_share t) f_one (max_share t)))
      (TenantShares name)) in
  try_for (btree_iter string_le (applications (policies c))) (fun '(name, app) =>
    let? _ := reject_if (bool_decide (tenants (policies c) !! app_tenant app = None)) (UnknownTenant name (app_tenant app)) in
    try_for (btree_set_iter (allowed_classes app)) (fun class =>
      reject_if (bool_decide (service_classes c !! class = None)) (UnknownClass name class))).

Definition validate_adapters (c : Config) : result ConfigError unit :=
  try_for (btree_iter string_le (pools c)) (fun '(name, p) =>
    let? _ := reject_if (negb (Bool.eqb (bool_decide (provider p = ExternalGrpc)) (bool_decide (is_Some (external_adapter p)))))
                (AdapterMismatch name) in
    match external_adapter p with
    | Some (Tls _ _ _ client_cert_file client_key_file) =>
        reject_if (negb (Bool.eqb (bool_decide (is_Some client_cert_file)) (bool_decide (is_Some client_key_file))))
          (AdapterMtls name)
    | _ => Ok tt
    end).

Definition validate_identity (c : Config) : result ConfigError unit :=
  let? _ := try_for (trusted_proxy_cidrs (identity_config c)) (fun cidr =>
    match parse_cidr cidr with Ok _ => Ok tt | Err e => Err (Semantic (InvalidCidr cidr e)) end) in
  let? _ := try_for (btree_iter string_le (mtls_certificate_sha256_mappings (identity_config c))) (fun '(fingerprint, _) =>
    reject_if (negb (String.length fingerprint =? 64)%nat || negb (all_chars is_ascii_hexdigit fingerprint))
      (InvalidFingerprint fingerprint)) in
  match oidc (identity_config c) with
  | None => Ok tt
  | Some o =>
      match parse_url (issuer o) with
      | Err e => Err (Semantic (InvalidIssuer e))
      | Ok url =>
          let? _ := reject_if (negb (String.eqb (scheme url) "https") && negb (bool_decide (host_str url = Some "localhost"%string)))
                      InsecureIssuer in
          reject_if (String.eqb (audience o) EmptyString) EmptyAudience
      end
  end.

(** [Config::validate]. *)
Definition validate (c : Config) : result ConfigError unit :=
  let? _ := reject_if (negb (String.eqb (api_version c) "inferqos.io/v1alpha1") || negb (String.eqb (kind c) "InferQoSConfig"))
              BadVersionOrKind in
  let? _ := reject_if (bool_decide (pools c = ∅)) NoPools in
  let? _ := reject_if ((max_body_bytes (server c) =? 0) || (max_body_bytes (server c) <? spool_threshold_bytes (server c)))
              BodyLimits in
  let? _ := validate_tls c in
  let? _ := try_for builtin_classes (fun required =>
    reject_if (bool_decide (service_classes c !! class_to_string required = None)) (MissingClass required)) in
  let? _ := try_for (btree_iter string_le (service_classes c)) (fun '(name, class) =>
    reject_if ((class_weight class =? 0) || (max_queued class =? 0)) (ClassZero name)) in
  let? _ := validate_pool_numbers c in
  let? _ := validate_policies c in
  let? _ := validate_adapters c in
  let? _ := validate_identity c in
  reject_if ((1 <? expected_replicas (limits c)) && match coordinator c with Memory => true | _ => false end
             && negb (allow_unsafe_uncoordinated_ha (limits c))) UncoordinatedReplicas.
End validate.

(** ** [expand_env] *)

(** [str::find] of a pattern: the offset of its first occurrence. *)
Fixpoint find (pat s : string) : option nat :=
  if String.prefix pat s then Some O
  else match s with
       | EmptyString => None
       | String _ rest => S <$> find pat rest
       end.

(** [&s[n..]] and [&s[..n]]. *)
Fixpoint sdrop (n : nat) (s : string) : string :=
  match n, s with
  | O, _ => s
  | _, EmptyString => EmptyString
  | S n', String _ rest => sdrop n' rest
  end.

Fixpoint stake (n : nat) (s : string) : string :=
  match n, s with
  | O, _ | _, EmptyString => EmptyString
  | S n', String c rest => String c (stake n' rest)
  end.

Definition is_env_char (c : ascii) : bool :=
  let n := N_of_ascii c in
  ((48 <=? n) && (n <=? 57) || (65 <=? n) && (n <=? 90) || (97 <=? n) && (n <=? 122) || (n =? 95))%N.

(** The [while] loop; every iteration removes at least three bytes, so the
    length of the input is enough fuel ([expand_loop_fuel]). *)
Fixpoint expand_loop (env : string -> option string) (fuel : nat) (out rest : string) : result ConfigError string :=
  match find "${" rest with
  | None => Ok (out +:+ rest)
  | Some start =>
      match fuel with
      | O => Ok (out +:+ rest)
      | S fuel' =>
          let out := out +:+ stake start rest in
          let after := sdrop (start + 2) rest in
          match find "}" after with
          | None => Err (Environment Unclosed)
          | Some stop =>
              let key := stake stop after in
              if String.eqb key EmptyString || negb (all_chars is_env_char key)
              then Err (Environment (InvalidName key))
              else match env key with
                   | None => Err (Environment (NotSet key))
                   | Some value => expand_loop env fuel' (out +:+ value) (sdrop (stop + 1) after)
                   end
          end
      end
  end.

Definition expand_env (env : string -> option string) (input : string) : result ConfigError string :=
  expand_loop env (String.length input) EmptyString input.

(** [Config::from_path]: the file's text, or [INFERQOS_CONFIG_YAML] when the file
    does not exist; the YAML parser is a parameter. *)
Inductive read_result : Type := ReadOk (raw : string) | NotFound | ReadFailed.

Definition from_path (parse_cidr : string -> result string unit) (parse_url : string -> result string Url)
    (parse_yaml : string -> option Config) (env : string -> option string) (file : read_result) :
    result ConfigError Config :=
  let? raw := match file with
              | ReadOk raw => Ok raw
              | NotFound => match env "INFERQOS_CONFIG_YAML"%string with Some raw => Ok raw | None => Err Read end
              | ReadFailed => Err Read
              end in
  let? expanded := expand_env env raw in
  let? config := match parse_yaml expanded with Some c => Ok c | None => Err Parse end in
  let? _ := validate parse_cidr parse_url config in
  Ok config.

(** ** Validation as a predicate *)

Lemma try_for_ok {A} (l : list A) body : try_for l body = Ok tt <-> Forall (fun x => body x = Ok tt) l.
Proof.
  induction l as [|x l IH]; cbn [try_for]; [done|]. rewrite Forall_cons, <- IH. unfold result_bind.
  destruct (body x) as [[]|e]; [tauto | split; [done | intros [[=] _]]].
Qed.

Lemma reject_if_ok b r : reject_if b r = Ok tt <-> b = false.
Proof. destruct b; split; done. Qed.

Lemma bind_ok (r : result ConfigError unit) k : (let? _ := r in k) = Ok tt <-> r = Ok tt /\ k = Ok tt.
Proof. destruct r as [[]|e]; cbn; [tauto | split; [done | by intros [? _]]]. Qed.

Lemma try_for_map_ok {V} (m : gmap string V) body :
  try_for (btree_iter string_le m) body = Ok tt <-> forall k v, m !! k = Some v -> body (k, v) = Ok tt.
Proof.
  rewrite try_for_ok, Forall_forall. split.
  - intros H k v Hk. apply H. by apply elem_of_btree_iter.
  - intros H [k v] Hk. apply H. by apply elem_of_btree_iter in Hk.
Qed.

Lemma elem_of_btree_set s x : x ∈ btree_set_iter s <-> x ∈ s.
Proof. unfold btree_set_iter. rewrite merge_sort_Permutation. apply elem_of_elements. Qed.

(** What a configuration that passes validation satisfies. *)
Record well_formed (parse_cidr : string -> result string unit) (parse_url : string -> result string Url) (c : Config) : Prop := {
  wf_version : api_version c = "inferqos.io/v1alpha1"%string /\ kind c = "InferQoSConfig"%string;
  wf_pools : pools c <> ∅;
  wf_body : max_body_bytes (server c) <> 0 /\ spool_threshold_bytes (server c) <= max_body_bytes (server c);
  wf_tls : forall t, tls (server c) = Some t ->
    cert_file t <> EmptyString /\ key_file t <> EmptyString /\ client_ca_file t <> EmptyString;
  wf_builtin : forall cl, is_Some (service_classes c !! class_to_string cl);
  wf_classes : forall n cl, service_classes c !! n = Some cl -> class_weight cl <> 0 /\ max_queued cl <> 0;
  wf_capacity : forall n p, pools c !! n = Some p ->
    is_finite (capacity_units p) = true /\ f_le (capacity_units p) f_zero = false /\
    f_in f_one (f_of_Z 4) (initial_safety_factor p) = true;
  wf_shares : forall n t, tenants (policies c) !! n = Some t ->
    f_in f_zero f_one (guaranteed_share t) = true /\ f_in (guaranteed_share t) f_one (max_share t) = true;
  wf_apps : forall n a, applications (policies c) !! n = Some a ->
    is_Some (tenants (policies c) !! app_tenant a) /\
    forall cl, cl ∈ allowed_classes a -> is_Some (service_classes c !! cl);
  wf_adapter : forall n p, pools c !! n = Some p ->
    (provider p = ExternalGrpc <-> is_Some (external_adapter p)) /\
    (forall u d ca cc ck, external_adapter p = Some (Tls u d ca cc ck) -> is_Some cc <-> is_Some ck);
  wf_cidrs : forall cidr, cidr ∈ trusted_proxy_cidrs (identity_config c) -> is_ok (parse_cidr cidr) = true;
  wf_fingerprints : forall f m, mtls_certificate_sha256_mappings (identity_config c) !! f = Some m ->
    String.length f = 64%nat /\ all_chars is_ascii_hexdigit f = true;
  wf_oidc : forall o, oidc (identity_config c) = Some o ->
    audience o <> EmptyString /\
    exists u, parse_url (issuer o) = Ok u /\ (scheme u = "https"%string \/ host_str u = Some "localhost"%string);
  wf_ha : expected_replicas (limits c) <= 1 \/ coordinator c <> Memory \/ allow_unsafe_uncoordinated_ha (limits c) = true
}.

Lemma not_none_some {A} (o : option A) : bool_decide (o = None) = false <-> is_Some o.
Proof. rewrite bool_decide_eq_false. apply not_eq_None_Some. Qed.

Lemma same_bool (P Q : Prop) `{Decision P, Decision Q} :
  negb (Bool.eqb (bool_decide P) (bool_decide Q)) = false <-> (P <-> Q).
Proof. rewrite negb_false_iff, eqb_true_iff. repeat case_bool_decide; intuition congruence. Qed.

Create Rewrite HintDb validation.
#[local] Hint Rewrite @bind_ok @reject_if_ok @try_for_map_ok @orb_false_iff @andb_false_iff @negb_false_iff @String.eqb_eq
  @String.eqb_neq @not_none_some : validation.

Section validate_ok.
Context (c : Config).

Lemma validate_tls_ok : validate_tls c = Ok tt <-> forall t, tls (server c) = Some t ->
  cert_file t <> EmptyString /\ key_file t <> EmptyString /\ client_ca_file t <> EmptyString.
Proof.
  unfold validate_tls. destruct (tls (server c)) as [t|]; [|split; done].
  rewrite try_for_ok, !Forall_cons. autorewrite with validation. split.
  - intros (H1 & H2 & H3 & _) t' [= <-]. done.
  - intros H. destruct (H t eq_refl) as (H1 & H2 & H3). done.
Qed.

Lemma validate_builtin_ok : try_for builtin_classes (fun required =>
    reject_if (bool_decide (service_classes c !! class_to_string required = None)) (MissingClass required)) = Ok tt <->
  forall cl, is_Some (service_classes c !! class_to_string cl).
Proof.
  rewrite try_for_ok, Forall_forall. setoid_rewrite reject_if_ok. setoid_rewrite not_none_some.
  split; [intros H cl; apply H; destruct cl; unfold builtin_classes; repeat constructor | auto].
Qed.

Lemma validate_pool_numbers_ok : validate_pool_numbers c = Ok tt <-> forall n p, pools c !! n = Some p ->
    is_finite (capacity_units p) = true /\ f_le (capacity_units p) f_zero = false /\
    f_in f_one (f_of_Z 4) (initial_safety_factor p) = true.
Proof.
  unfold validate_pool_numbers. rewrite try_for_map_ok. split; intros H n p Hp; specialize (H n p Hp);
    autorewrite with validation in *; tauto.
Qed.

Lemma validate_policies_ok : validate_policies c = Ok tt <->
  (forall n t, tenants (policies c) !! n = Some t ->
    f_in f_zero f_one (guaranteed_share t) = true /\ f_in (guaranteed_share t) f_one (max_share t) = true) /\
  (forall n a, applications (policies c) !! n = Some a ->
    is_Some (tenants (policies c) !! app_tenant a) /\ forall cl, cl ∈ allowed_classes a -> is_Some (service_classes c !! cl)).
Proof.
  unfold validate_policies. rewrite bind_ok, !try_for_map_ok.
  split; intros [H1 H2]; (split; intros n x Hx; [specialize (H1 n x Hx) | specialize (H2 n x Hx)]).
  - autorewrite with validation in H1. done.
  - rewrite bind_ok, try_for_ok, Forall_forall in H2. destruct H2 as [H2 H3]. autorewrite with validation in H2.
    split; [done|]. intros cl Hcl. specialize (H3 cl ltac:(by apply elem_of_btree_set)). by autorewrite with validation in H3.
  - autorewrite with validation. done.
  - rewrite bind_ok, try_for_ok, Forall_forall. destruct H2 as [H2 H3]. autorewrite with validation.
    split; [done|]. intros cl Hcl%elem_of_btree_set. autorewrite with validation. auto.
Qed.

Lemma validate_adapters_ok : validate_adapters c = Ok tt <-> forall n p, pools c !! n = Some p ->
    (provider p = ExternalGrpc <-> is_Some (external_adapter p)) /\
    (forall u d ca cc ck, external_adapter p = Some (Tls u d ca cc ck) -> is_Some cc <-> is_Some ck).
Proof.
  unfold validate_adapters. rewrite try_for_map_ok. split; intros H n p Hp; specialize (H n p Hp).
  - rewrite bind_ok, reject_if_ok, same_bool in H. destruct H as [H1 H2]. split; [done|].
    intros u d ca cc ck E. rewrite E, reject_if_ok, same_bool in H2. done.
  - rewrite bind_ok, reject_if_ok, same_bool. destruct H as [H1 H2]. split; [done|].
    destruct (external_adapter p) as [[| |u d ca cc ck]|]; try done. rewrite reject_if_ok, same_bool. by eapply H2.
Qed.

Lemma validate_identity_ok parse_cidr parse_url : validate_identity parse_cidr parse_url c = Ok tt <->
  (forall cidr, cidr ∈ trusted_proxy_cidrs (identity_config c) -> is_ok (parse_cidr cidr) = true) /\
  (forall f m, mtls_certificate_sha256_mappings (identity_config c) !! f = Some m ->
    String.length f = 64%nat /\ all_chars is_ascii_hexdigit f = true) /\
  (forall o, oidc (identity_config c) = Some o ->
    audience o <> EmptyString /\
    exists u, parse_url (issuer o) = Ok u /\ (scheme u = "https"%string \/ host_str u = Some "localhost"%string)).
Proof.
  unfold validate_identity. rewrite !bind_ok, try_for_ok, Forall_forall, try_for_map_ok.
  assert (EC : forall cidr, match parse_cidr cidr with Ok _ => Ok tt | Err e => Err (Semantic (InvalidCidr cidr e)) end = Ok tt
    <-> is_ok (parse_cidr cidr) = true) by (intros cidr; by destruct (parse_cidr cidr)).
  setoid_rewrite EC.
  assert (EF : forall f, reject_if (negb (String.length f =? 64)%nat || negb (all_chars is_ascii_hexdigit f)) (InvalidFingerprint f)
    = Ok tt <-> String.length f = 64%nat /\ all_chars is_ascii_hexdigit f = true).
  { intros f. autorewrite with validation. by rewrite Nat.eqb_eq. }
  setoid_rewrite EF. apply and_iff_compat_l, and_iff_compat_l.
  destruct (oidc (identity_config c)) as [o|]; [|split; done]. destruct (parse_url (issuer o)) as [u|e] eqn:E.
  - autorewrite with validation. rewrite bool_decide_eq_true. split.
    + intros [H1 H2] o' [= <-]. rewrite E. eauto.
    + intros H. destruct (H o eq_refl) as (H1 & u' & Hu & H2). rewrite E in Hu. injection Hu as ->. done.
  - split; [done|]. intros H. destruct (H o eq_refl) as (_ & u & Hu & _). congruence.
Qed.
End validate_ok.

Lemma validate_ok_iff parse_cidr parse_url c : validate parse_cidr parse_url c = Ok tt <-> well_formed parse_cidr parse_url c.
Proof.
  unfold validate. rewrite !bind_ok, validate_tls_ok, validate_builtin_ok, validate_pool_numbers_ok, validate_policies_ok,
    validate_adapters_ok, validate_identity_ok, try_for_map_ok, !reject_if_ok.
  autorewrite with validation. rewrite bool_decide_eq_false, Z.eqb_neq, !Z.ltb_ge.
  assert (EC : (forall k v, service_classes c !! k = Some v -> reject_if ((class_weight v =? 0) || (max_queued v =? 0)) (ClassZero k) = Ok tt)
    <-> (forall k v, service_classes c !! k = Some v -> class_weight v <> 0 /\ max_queued v <> 0)).
  { setoid_rewrite reject_if_ok. setoid_rewrite orb_false_iff. by setoid_rewrite Z.eqb_neq. }
  assert (EM : match coordinator c with Memory => true | _ => false end = false <-> coordinator c <> Memory)
    by (destruct (coordinator c); split; congruence).
  rewrite EC, EM. split.
  - intros (H1 & H2 & H3 & H4 & H5 & H6 & H7 & [H8 H9] & H10 & (H11 & H12 & H13) & H14). constructor; try done. tauto.
  - intros []. split_and!; try done; try tauto.
Qed.

(** ** What [expand_env] computes *)

Lemma app_assoc_s (a b d : string) : (a +:+ b) +:+ d = a +:+ (b +:+ d).
Proof.
  induction a as [|x a IH]; [done|]. change (String x ((a +:+ b) +:+ d) = String x (a +:+ (b +:+ d))). by rewrite IH.
Qed.

Lemma app_nil_r_s (a : string) : a +:+ EmptyString = a.
Proof. induction a as [|x a IH]; [done|]. change (String x (a +:+ EmptyString) = String x a). by rewrite IH. Qed.

Lemma sdrop_app a b n : sdrop (String.length a + n) (a +:+ b) = sdrop n b.
Proof. induction a as [|x a IH]; [done|]. apply IH. Qed.

Lemma stake_app a b n : stake (String.length a + n) (a +:+ b) = a +:+ stake n b.
Proof.
  induction a as [|x a IH]; [done|].
  change (String x (stake (String.length a + n) (a +:+ b)) = String x (a +:+ stake n b)). by rewrite IH.
Qed.

Lemma stake_0 s : stake 0 s = EmptyString.
Proof. by destruct s. Qed.

Lemma length_app_s a b : String.length (a +:+ b) = (String.length a + String.length b)%nat.
Proof. induction a as [|x a IH]; [done|]. change (S (String.length (a +:+ b)) = S (String.length a + String.length b)). lia. Qed.

Lemma prefix_first c p x s : String.prefix (String c p) (String x s) = true -> c = x.
Proof. cbn. destruct (ascii_dec c x); done. Qed.

(** A text without the first character of the pattern cannot contain a match. *)
Lemma find_skip c p a b : all_chars (fun x => negb (Ascii.eqb x c)) a = true ->
  find (String c p) (a +:+ b) = (fun n => (String.length a + n)%nat) <$> find (String c p) b.
Proof.
  induction a as [|x a IH]; intros H.
  - cbn [String.length]. change (EmptyString +:+ b) with b. destruct (find (String c p) b); done.
  - change (all_chars (fun x => negb (Ascii.eqb x c)) (String x a))
      with (negb (Ascii.eqb x c) && all_chars (fun x => negb (Ascii.eqb x c)) a) in H.
    apply andb_true_iff in H as [H1 H2]. apply negb_true_iff, Ascii.eqb_neq in H1.
    change (String x a +:+ b) with (String x (a +:+ b)). cbn [find].
    destruct (String.prefix (String c p) (String x (a +:+ b))) eqn:E; [apply prefix_first in E; congruence|].
    rewrite IH by done. destruct (find (String c p) b); done.
Qed.

Lemma find_here p b : find p (p +:+ b) = Some O.
Proof.
  assert (H : String.prefix p (p +:+ b) = true).
  { induction p as [|x p IH]; [by destruct b|].
    change (String x p +:+ b) with (String x (p +:+ b)). cbn [String.prefix]. by destruct (ascii_dec x x). }
  destruct (p +:+ b) eqn:E; cbn [find]; by rewrite H.
Qed.

Definition no_dollar (s : string) : bool := all_chars (fun x => negb (Ascii.eqb x "$")) s.

(** A literal without a dollar sign is copied. *)
Lemma expand_loop_lit env fuel out a b : no_dollar a = true ->
  expand_loop env fuel out (a +:+ b) = expand_loop env fuel (out +:+ a) b.
Proof.
  intros H. assert (F : find "${" (a +:+ b) = (fun n => (String.length a + n)%nat) <$> find "${" b) by (by apply find_skip).
  destruct fuel as [|fuel]; cbn [expand_loop]; rewrite F; destruct (find "${" b) as [n|]; cbn [fmap option_fmap option_map];
    rewrite ?app_assoc_s; try done.
  rewrite stake_app, <- Nat.add_assoc, sdrop_app. done.
Qed.

Lemma env_char_not_brace k : all_chars is_env_char k = true -> all_chars (fun x => negb (Ascii.eqb x "}")) k = true.
Proof.
  unfold all_chars. rewrite !forallb_forall. intros H x Hx. specialize (H x Hx). apply negb_true_iff, Ascii.eqb_neq.
  intros ->. discriminate H.
Qed.

(** A substitution is replaced by the value of its variable, which is not expanded again. *)
Lemma expand_loop_var env fuel out k v b :
  k <> EmptyString -> all_chars is_env_char k = true -> env k = Some v ->
  expand_loop env (S fuel) out ("${" +:+ (k +:+ ("}" +:+ b))) = expand_loop env fuel (out +:+ v) b.
Proof.
  intros Hk Hc Hv. cbn [expand_loop]. rewrite find_here, stake_0, app_nil_r_s.
  change (sdrop (0 + 2) ("${" +:+ (k +:+ ("}" +:+ b)))) with (k +:+ ("}" +:+ b)).
  assert (F : find "}" (k +:+ ("}" +:+ b)) = Some (String.length k)).
  { rewrite (find_skip "}" EmptyString) by (by apply env_char_not_brace). rewrite (find_here "}" b). cbn. f_equal. lia. }
  rewrite F. replace (stake (String.length k) (k +:+ ("}" +:+ b))) with k
    by (rewrite <- (Nat.add_0_r (String.length k)), stake_app, stake_0; by rewrite app_nil_r_s).
  rewrite (proj2 (String.eqb_neq k EmptyString) Hk), Hc, Hv. cbn [orb negb].
  by rewrite sdrop_app.
Qed.

(** A template and its text. *)
Inductive segment : Type := Lit (text : string) | Var (key : string).

Definition render (seg : segment) : string := match seg with Lit t => t | Var k => "${" +:+ (k +:+ "}") end.
Definition expand (env : string -> option string) (seg : segment) : string :=
  match seg with Lit t => t | Var k => default EmptyString (env k) end.
Definition concat_map (f : segment -> string) (l : list segment) : string := foldr (fun s r => f s +:+ r) EmptyString l.

Definition ok_segment (env : string -> option string) (seg : segment) : Prop :=
  match seg with
  | Lit t => no_dollar t = true
  | Var k => k <> EmptyString /\ all_chars is_env_char k = true /\ is_Some (env k)
  end.

Lemma expand_loop_segments env l fuel out : Forall (ok_segment env) l ->
  (String.length (concat_map render l) <= fuel)%nat ->
  expand_loop env fuel out (concat_map render l) = Ok (out +:+ concat_map (expand env) l).
Proof.
  intros H. revert fuel out. induction H as [|[t|k] l Hs _ IH]; intros fuel out Hf; cbn [concat_map foldr render] in *.
  - cbn. by destruct fuel.
  - fold (concat_map render l) in *. fold (concat_map (expand env) l). rewrite expand_loop_lit by done.
    rewrite length_app_s in Hf. rewrite IH by lia. cbn [expand]. by rewrite app_assoc_s.
  - fold (concat_map render l) in *. fold (concat_map (expand env) l). destruct Hs as (Hk & Hc & [v Hv]).
    rewrite !app_assoc_s in *. rewrite !length_app_s in Hf. cbn [String.length] in Hf. destruct fuel as [|fuel]; [lia|].
    rewrite (expand_loop_var env fuel out k v) by done. rewrite IH by lia. cbn [expand]. rewrite Hv. cbn. by rewrite app_assoc_s.
Qed.

(** More fuel than the length of the text changes nothing. *)
Lemma sdrop_length n s : String.length (sdrop n s) = (String.length s - n)%nat.
Proof. revert n. induction s as [|x s IH]; intros [|n]; try done. apply IH. Qed.

Lemma expand_loop_fuel env f1 f2 out rest :
  (String.length rest <= f1)%nat -> (String.length rest <= f2)%nat ->
  expand_loop env f1 out rest = expand_loop env f2 out rest.
Proof.
  revert f2 out rest. induction f1 as [|f1 IH]; intros f2 out rest H1 H2.
  - destruct rest; [|cbn in H1; lia]. by destruct f2.
  - destruct f2 as [|f2]; [destruct rest; [done | cbn in H2; lia]|]. cbn [expand_loop].
    destruct (find "${" rest) as [start|]; [|done]. destruct (find "}" (sdrop (start + 2) rest)) as [stop|]; [|done].
    destruct (_ || _); [done|]. destruct (env _); [|done]. apply IH; rewrite !sdrop_length; lia.
Qed.

(** A result that is a success or a semantic error. *)
Definition sem (r : result ConfigError unit) : Prop := r = Ok tt \/ exists reason, r = Err (Semantic reason).

Lemma sem_ok : sem (Ok tt).
Proof. by left. Qed.

Lemma sem_err r : sem (Err (Semantic r)).
Proof. right. by eexists. Qed.

Lemma sem_reject b r : sem (reject_if b r).
Proof. destruct b; [apply sem_err | apply sem_ok]. Qed.

Lemma sem_bind r k : sem r -> sem k -> sem (let? _ := r in k).
Proof. intros [-> | [x ->]] Hk; [exact Hk | apply sem_err]. Qed.

Lemma sem_try_for {A} (l : list A) body : (forall x, sem (body x)) -> sem (try_for l body).
Proof. intros H. induction l as [|x l IH]; [apply sem_ok | by apply sem_bind]. Qed.

Create HintDb sem.
#[local] Hint Resolve sem_ok sem_err sem_reject sem_bind sem_try_for : sem.

Lemma validate_sem parse_cidr parse_url c : sem (validate parse_cidr parse_url c).
Proof.
  assert (H1 : sem (validate_tls c)).
  { unfold validate_tls. destruct (tls _); [apply sem_try_for; intros []|]; auto with sem. }
  assert (H2 : sem (validate_pool_numbers c)) by (apply sem_try_for; intros []; auto with sem).
  assert (H3 : sem (validate_policies c)).
  { apply sem_bind; apply sem_try_for; intros []; auto with sem. }
  assert (H4 : sem (validate_adapters c)).
  { apply sem_try_for. intros [n p]. apply sem_bind; [auto with sem|]. destruct (external_adapter p) as [[]|]; auto with sem. }
  assert (H5 : sem (validate_identity parse_cidr parse_url c)).
  { apply sem_bind; [apply sem_try_for; intros x; destruct (parse_cidr x); auto with sem|].
    apply sem_bind; [apply sem_try_for; intros []; auto with sem|].
    destruct (oidc _); [|auto with sem]. destruct (parse_url _); auto with sem. }
  unfold validate. repeat (apply sem_bind; [solve [auto with sem | apply sem_try_for; intros []; auto with sem]|]). auto with sem.
Qed.

(** ** The properties *)

Definition ex_class : ServiceClassConfig := mkServiceClassConfig 1 (from_secs 10) (from_secs 30) 100.
Definition ex_config : Config := {|
  api_version := "inferqos.io/v1alpha1"; kind := "InferQoSConfig"; mode := Enforce;
  server := mkServerConfig (mkSocketAddr "127.0.0.1" 8080) None 1000 100 "/tmp" (from_secs 2);
  admin := mkAdminConfig (mkSocketAddr "127.0.0.1" 9090) None false;
  coordinator := Memory;
  service_classes := list_to_map ((fun c => (class_to_string c, ex_class)) <$> builtin_classes);
  pools := {[ "main"%string := mkPoolConfig Fake "http://x" None None None None (f_of_Z 1000) NoAuth ∅ (f_lit 115 100) ]};
  policies := mkPolicies {[ "acme"%string := mkTenantPolicy 2 (f_lit 1 4) f_one 5 ]}
    {[ "chat"%string := mkApplicationPolicy "acme" {[ "interactive"%string; "standard"%string ]} 3 4 {[ "main"%string ]} ]} ∅;
  identity_config := mkIdentityConfig None [] (mkTrustedIdentityHeaders "p" "t" "a" "s") ∅ ∅;
  limits := mkLimits 10 1000 5 1 false
|}.



