(* ===== verification/Admission.v ===== *)
(** * The admission decisions of the proxy (crates/proxy)

    The parts of [AppState] that decide and account for an admission: the local
    concurrency counters ([try_enter], [force_enter], [leave]), the capacity a
    tenant may use ([tenant_capacity_limit]), the three distributed leases of a
    request ([reserve_distributed], [release_distributed]), the service class it
    gets ([effective_class]), the decision history ([record]) and the check of a
    configuration reload ([ensure_reload_compatible]).

    The coordinator is any implementation of the [Coordinator] class; theorems
    about it use [CoordinatorLaws] only. *)

From stdpp Require Import base gmap strings countable sorting list propset.
From Stdlib Require Import ZArith Lia SpecFloat.
From S2P Require Import Prelude Rounding F64 F64Facts Core Coordinator Config.

Open Scope Z_scope.

(** ** Local concurrency *)

Record ConcurrencyState : Type := mkConcurrencyState {
  active_tenants : gmap string Z;
  active_applications : gmap string Z
}.

Definition no_concurrency : ConcurrencyState := mkConcurrencyState ∅ ∅.

(** [*map.entry(key).or_default() += 1]. *)
Definition increment (values : gmap string Z) (key : string) : gmap string Z :=
  <[key := wadd (default 0 (values !! key)) 1]> values.

(** [decrement]. *)
Definition decrement (values : gmap string Z) (key : string) : gmap string Z :=
  match values !! key with
  | None => values
  | Some value =>
      let value := sat_sub value 1 in
      if value =? 0 then delete key values else <[key := value]> values
  end.

Definition tenant_limit (config : Config) (identity : IdentityContext) : Z :=
  from_option tenant_max_concurrency 1 (tenants (policies config) !! tenant identity).
Definition application_limit (config : Config) (identity : IdentityContext) : Z :=
  from_option app_max_concurrency 1 (applications (policies config) !! application identity).

(** [AppState::force_enter]. *)
Definition force_enter (active : ConcurrencyState) (identity : IdentityContext) : ConcurrencyState :=
  {| active_tenants := increment (active_tenants active) (tenant identity);
     active_applications := increment (active_applications active) (application identity) |}.

(** [AppState::try_enter]. *)
Definition try_enter (active : ConcurrencyState) (identity : IdentityContext) (config : Config) : ConcurrencyState * bool :=
  if (tenant_limit config identity <=? default 0 (active_tenants active !! tenant identity))
     || (application_limit config identity <=? default 0 (active_applications active !! application identity))
  then (active, false)
  else (force_enter active identity, true).

(** [AppState::leave]. *)
Definition leave (active : ConcurrencyState) (identity : IdentityContext) : ConcurrencyState :=
  {| active_tenants := decrement (active_tenants active) (tenant identity);
     active_applications := decrement (active_applications active) (application identity) |}.

(** ** Tenant shares *)

(** A queued request as the proxy keeps it; the one-shot sender is the number
    of its channel. *)
Record Pending : Type := mkPending {
  sender : N;
  pending_request : AdmissionRequest;
  pending_body_bytes : Z;
  pending_class_weight : Z;
  pending_tenant_weight : Z;
  pending_app_weight : Z;
  queued_at : Instant
}.

(** The other tenants with queued requests. *)
Definition competing_tenants (pending : gmap Uuid Pending) (who : string) : gset string :=
  list_to_set (filter (fun t => t <> who)
    ((fun p => tenant (identity (pending_request p.2))) <$> map_to_list pending)).

(** [AppState::tenant_capacity_limit]; the sum follows the hash order of the set. *)
Definition tenant_capacity_limit {HO : HashOrder} (config : Config) (pending : gmap Uuid Pending) (who : string)
    (pool_limit : f64) : f64 :=
  let policy := tenants (policies config) !! who in
  let own_guarantee := from_option guaranteed_share f_zero policy in
  let configured_max := from_option max_share f_one policy in
  let competing := competing_tenants pending who in
  if bool_decide (competing = ∅) then f_mul pool_limit configured_max
  else
    let competing_guarantees := f_sum ((fun ku => from_option guaranteed_share f_zero (tenants (policies config) !! ku.1))
                                       <$> hash_iter (gset_to_gmap tt competing)) in
    let reclaimable_share := f_max (f_sub f_one (f_min competing_guarantees f_one)) own_guarantee in
    f_mul pool_limit (f_min configured_max reclaimable_share).

(** ** Distributed leases *)

Record AdmissionLeases : Type := mkAdmissionLeases {
  capacity_lease : Lease;
  tenant_slot : Lease;
  application_slot : Lease
}.

(** The environments of the coordinator calls of one reservation. *)
Record ReserveEnvs : Type := mkReserveEnvs {
  env_tenant : Env;
  env_application : Env;
  env_capacity : Env;
  env_undo_application : Env;
  env_undo_tenant : Env
}.

Definition tenant_key (r : AdmissionRequest) : string :=
  "__concurrency__:" +:+ pool r +:+ ":tenant:" +:+ tenant (identity r).
Definition application_key (r : AdmissionRequest) : string :=
  "__concurrency__:" +:+ pool r +:+ ":application:" +:+ application (identity r).

Section distributed.
Context {K : Type} `{Coordinator K} {HO : HashOrder}.

(** [AppState::reserve_distributed]; every [?] returns the state as it is. *)
Definition reserve_distributed (k : K) (envs : ReserveEnvs) (lease_ttl : Duration) (pending : gmap Uuid Pending)
    (request : AdmissionRequest) (config : Config) (pool_limit charged : f64) :
    K * result CoordinatorError (option AdmissionLeases) :=
  let tenant_concurrency := f_of_Z (tenant_limit config (identity request)) in
  let application_concurrency := f_of_Z (application_limit config (identity request)) in
  match c_reserve k (env_tenant envs) (tenant_key request) tenant_concurrency f_one lease_ttl with
  | (k1, Err e) => (k1, Err e)
  | (k1, Ok None) => (k1, Ok None)
  | (k1, Ok (Some tenant_slot)) =>
      match c_reserve k1 (env_application envs) (application_key request) application_concurrency f_one lease_ttl with
      | (k2, Err e) => (k2, Err e)
      | (k2, Ok None) =>
          match c_release k2 (env_undo_tenant envs) tenant_slot with
          | (k3, Err e) => (k3, Err e)
          | (k3, Ok _) => (k3, Ok None)
          end
      | (k2, Ok (Some application_slot)) =>
          let limit := tenant_capacity_limit config pending (tenant (identity request)) pool_limit in
          match c_reserve_scoped k2 (env_capacity envs) (pool request) (tenant (identity request)) pool_limit limit
                  charged lease_ttl with
          | (k3, Err e) => (k3, Err e)
          | (k3, Ok (Some capacity)) => (k3, Ok (Some (mkAdmissionLeases capacity tenant_slot application_slot)))
          | (k3, Ok None) =>
              match c_release k3 (env_undo_application envs) application_slot with
              | (k4, Err e) => (k4, Err e)
              | (k4, Ok _) =>
                  match c_release k4 (env_undo_tenant envs) tenant_slot with
                  | (k5, Err e) => (k5, Err e)
                  | (k5, Ok _) => (k5, Ok None)
                  end
              end
          end
      end
  end.

(** [AppState::release_distributed]: failures are logged and left to expiry. *)
Definition release_distributed (k : K) (e1 e2 e3 : Env) (leases : AdmissionLeases) : K :=
  let k1 := (c_release k e1 (capacity_lease leases)).1 in
  let k2 := (c_release k1 e2 (application_slot leases)).1 in
  (c_release k2 e3 (tenant_slot leases)).1.
End distributed.

(** ** Service classes *)

(** [effective_class]. *)
Definition effective_class_of (config : Config) (who : IdentityContext) (requested : ServiceClass) :
    ServiceClass * option ApplicationPolicy :=
  let app := applications (policies config) !! application who in
  let allowed := match app with
                 | Some p => bool_decide (app_tenant p = tenant who) && bool_decide (class_to_string requested ∈ allowed_classes p)
                 | None => false
                 end in
  if trusted who && allowed then (requested, app) else (Standard, app).

(** ** Decision history *)

Record DecisionRecord : Type := mkDecisionRecord {
  rec_request_id : Uuid;
  rec_effective_class : string;
  rec_tenant : string;
  rec_application : string;
  rec_pool : string;
  rec_estimated_work_units : f64;
  rec_outcome : string;
  rec_queue_age_ms : Z
}.

(** [while d.len() >= max { d.pop_front(); }]; the deque itself bounds the loop. *)
Fixpoint trim {A} (max : Z) (d : list A) : list A :=
  match d with
  | [] => []
  | x :: rest => if max <=? Z.of_nat (length d) then trim max rest else d
  end.

(** [AppState::record]. *)
Definition record {A} (decisions : list A) (r : A) (max : Z) : list A :=
  if max =? 0 then decisions else trim max decisions ++ [r].

(** ** Reloads *)

#[export] Instance f64_eq_dec : EqDecision f64.
Proof. unfold f64. solve_decision. Defined.
#[export] Instance SocketAddr_eq_dec : EqDecision SocketAddr.
Proof. solve_decision. Defined.
#[export] Instance ServerTlsConfig_eq_dec : EqDecision ServerTlsConfig.
Proof. solve_decision. Defined.
#[export] Instance CoordinatorConfig_eq_dec : EqDecision CoordinatorConfig.
Proof. solve_decision. Defined.
#[export] Instance ExternalAdapterConfig_eq_dec : EqDecision ExternalAdapterConfig.
Proof. solve_decision. Defined.
#[export] Instance AuthConfig_eq_dec : EqDecision AuthConfig.
Proof. solve_decision. Defined.
#[export] Instance PoolConfig_eq_dec : EqDecision PoolConfig.
Proof. solve_decision. Defined.
#[export] Instance OidcConfig_eq_dec : EqDecision OidcConfig.
Proof. solve_decision. Defined.

(** What a running proxy cannot change: the tuple whose JSON values
    [ensure_reload_compatible] compares. *)
Definition reload_key (c : Config) :
    SocketAddr * option ServerTlsConfig * SocketAddr * CoordinatorConfig * gmap string PoolConfig * option OidcConfig :=
  (server_listen (server c), tls (server c), admin_listen (admin c), coordinator c, pools c, oidc (identity_config c)).

(** [ensure_reload_compatible]. *)
Definition ensure_reload_compatible (current new : Config) : result string unit :=
  if bool_decide (reload_key current = reload_key new) then Ok tt
  else Err "listener, coordinator, capacity pool, and OIDC issuer changes require a rolling restart"%string.

(** The body of the reload loop once the file has changed: the configuration in
    force afterwards and whether the new text is remembered as applied.
    [replace_identity] is [IdentityResolver::replace_config]. *)
Definition reload (replace_identity : Config -> bool) (current : Config) (parsed : result ConfigError Config) : Config * bool :=
  match parsed with
  | Err _ => (current, false)
  | Ok new =>
      match ensure_reload_compatible current new with
      | Err _ => (current, false)
      | Ok _ => if replace_identity new then (new, true) else (current, false)
      end
  end.

(** ** Counters *)

Definition count (k : string) (l : list string) : Z := Z.of_nat (length (filter (fun x => x = k) l)).

(** The map holds exactly the positive counts. *)
Definition counts (m : gmap string Z) (l : list string) : Prop :=
  forall k, m !! k = if count k l =? 0 then None else Some (count k l).

Lemma count_nonneg k l : 0 <= count k l.
Proof. unfold count. lia. Qed.

Lemma count_cons k x l : count k (x :: l) = (if decide (x = k) then 1 else 0) + count k l.
Proof. unfold count. rewrite filter_cons. destruct (decide (x = k)); cbn [length]; lia. Qed.

Lemma count_perm k l l' : l ≡ₚ l' -> count k l = count k l'.
Proof. intros H. unfold count. by rewrite H. Qed.

#[export] Instance count_proper k : Proper ((≡ₚ) ==> (=)) (count k).
Proof. intros l l'. apply count_perm. Qed.

Lemma counts_default m l k : counts m l -> default 0 (m !! k) = count k l.
Proof. intros H. rewrite H. destruct (Z.eqb_spec (count k l) 0); cbn; lia. Qed.

Lemma increment_counts m l k : counts m l -> count k l < U64_MAX -> counts (increment m k) (k :: l).
Proof.
  intros H Hb k'. pose proof (count_nonneg k l). unfold increment. rewrite count_cons.
  destruct (decide (k = k')) as [<- | Hne].
  - rewrite lookup_insert_eq, (counts_default m l k H), wadd_id by int64.
    destruct (Z.eqb_spec (1 + count k l) 0); [lia | f_equal; lia].
  - rewrite lookup_insert_ne by done. apply H.
Qed.

Lemma decrement_counts m l l' k : counts m l -> l ≡ₚ k :: l' -> counts (decrement m k) l'.
Proof.
  intros H HP k'. pose proof (count_nonneg k l'). unfold decrement.
  assert (HC : forall j, count j l = (if decide (k = j) then 1 else 0) + count j l') by (intros j; by rewrite (count_perm j _ _ HP), count_cons).
  rewrite (H k), (HC k), decide_True by done. destruct (Z.eqb_spec (1 + count k l') 0); [lia|].
  unfold sat_sub. replace (Z.max 0 (1 + count k l' - 1)) with (count k l') by lia.
  destruct (decide (k = k')) as [<- | Hne].
  - destruct (Z.eqb_spec (count k l') 0); [apply lookup_delete_eq | apply lookup_insert_eq].
  - destruct (Z.eqb_spec (count k l') 0); rewrite ?lookup_delete_ne, ?lookup_insert_ne by done;
      rewrite (H k'), (HC k'), decide_False by done; done.
Qed.

Definition inside_counts (cs : ConcurrencyState) (l : list IdentityContext) : Prop :=
  counts (active_tenants cs) (tenant <$> l) /\ counts (active_applications cs) (application <$> l).

Lemma enter_counts cs l i : inside_counts cs l -> count (tenant i) (tenant <$> l) < U64_MAX ->
  count (application i) (application <$> l) < U64_MAX -> inside_counts (force_enter cs i) (i :: l).
Proof. intros [H1 H2] B1 B2. split; by apply increment_counts. Qed.

Lemma leave_counts cs l l' i : inside_counts cs l -> l ≡ₚ i :: l' -> inside_counts (leave cs i) l'.
Proof. intros [H1 H2] HP. split; (eapply decrement_counts; [done|]); by rewrite HP. Qed.

Lemma try_enter_spec cs l i config cs' b : inside_counts cs l -> try_enter cs i config = (cs', b) ->
  (b = true <-> count (tenant i) (tenant <$> l) < tenant_limit config i /\
                count (application i) (application <$> l) < application_limit config i) /\
  cs' = if b then force_enter cs i else cs.
Proof.
  intros [H1 H2]. unfold try_enter. rewrite (counts_default _ _ _ H1), (counts_default _ _ _ H2).
  destruct (Z.leb_spec (tenant_limit config i) (count (tenant i) (tenant <$> l)));
    [cbn [orb]; intros [= <- <-]; split; [split; [done | lia] | done]|].
  destruct (Z.leb_spec (application_limit config i) (count (application i) (application <$> l)));
    cbn [orb]; intros [= <- <-]; (split; [split; [try done; lia | try done; lia] | done]).
Qed.

(** The requests inside the proxy, entered through [try_enter] and leaving in
    any order. *)
Inductive inside (config : Config) : ConcurrencyState -> list IdentityContext -> Prop :=
| inside_none : inside config no_concurrency []
| inside_enter cs l i cs' : inside config cs l -> try_enter cs i config = (cs', true) -> inside config cs' (i :: l)
| inside_refused cs l i cs' : inside config cs l -> try_enter cs i config = (cs', false) -> inside config cs' l
| inside_leave cs l l' i : inside config cs l -> l ≡ₚ i :: l' -> inside config (leave cs i) l'.

(** The limits are [usize]. *)
Definition typed_limits (config : Config) : Prop :=
  forall i, tenant_limit config i <= USIZE_MAX /\ application_limit config i <= USIZE_MAX.

Lemma inside_inv config cs l : typed_limits config -> inside config cs l ->
  inside_counts cs l /\ forall i, i ∈ l -> count (tenant i) (tenant <$> l) <= tenant_limit config i /\
    count (application i) (application <$> l) <= application_limit config i.
Proof.
  intros HT. induction 1 as [|cs l i cs' _ IH E|cs l i cs' _ IH E|cs l l' i _ IH HP].
  - split; [split; intros k; apply lookup_empty|]. intros i Hi. by apply not_elem_of_nil in Hi.
  - destruct IH as [IC IB]. destruct (try_enter_spec _ _ _ _ _ _ IC E) as [HB ->]. destruct (proj1 HB eq_refl) as [B1 B2].
    pose proof (HT i) as [T1 T2]. unfold USIZE_MAX in *. split; [apply enter_counts; [done | lia | lia]|].
    intros j Hj. rewrite !fmap_cons, !count_cons. unfold tenant_limit, application_limit in *.
    assert (Hl : j = i \/ j ∈ l) by (by apply elem_of_cons in Hj).
    split; (case_decide as D; [rewrite <- D; lia|]); (destruct Hl as [-> | Hl]; [done | destruct (IB j Hl); lia]).
  - destruct IH as [IC IB]. destruct (try_enter_spec _ _ _ _ _ _ IC E) as [_ ->]. done.
  - destruct IH as [IC IB]. split; [by eapply leave_counts|]. intros j Hj.
    destruct (IB j) as [B1 B2]; [rewrite HP; by right|].
    rewrite HP, fmap_cons, count_cons in B1. rewrite HP, fmap_cons, count_cons in B2.
    split; [destruct (decide (tenant i = tenant j)) | destruct (decide (application i = application j))]; lia.
Qed.

(** ** Shares *)

Lemma f_in_spec lo hi x : valid lo -> valid hi -> valid x -> f_in lo hi x = true ->
  num x /\ num lo /\ num hi /\ ext lo <= ext x <= ext hi.
Proof.
  intros Vl Vh Vx H. unfold f_in in H. apply andb_true_iff in H as [H1 H2].
  apply f_le_spec in H1 as (N1 & N2 & L1); [|done..]. apply f_le_spec in H2 as (_ & N3 & L2); [|done..].
  split_and!; try (by split); lia.
Qed.

(** A validated tenant policy with the doubles Rust can hold. *)
Definition ok_shares (t : TenantPolicy) : Prop :=
  valid (guaranteed_share t) /\ valid (max_share t) /\
  f_in f_zero f_one (guaranteed_share t) = true /\ f_in (guaranteed_share t) f_one (max_share t) = true.

Definition share_range (lo hi x : f64) : Prop := num x /\ ext lo <= ext x <= ext hi.

Lemma ok_shares_range t : ok_shares t ->
  nn (guaranteed_share t) /\ nn (max_share t) /\ ext (guaranteed_share t) <= ext (max_share t) <= ONE.
Proof.
  intros (V1 & V2 & F1 & F2). destruct (f_in_spec f_zero f_one _ eq_refl eq_refl V1 F1) as (N1 & _ & _ & L1).
  destruct (f_in_spec _ f_one _ V1 eq_refl V2 F2) as (N2 & _ & _ & L2). rewrite ext_f_one in *. change (ext f_zero) with 0 in L1.
  split; [split; [done | lia]|]. split; [split; [done | lia]|]. lia.
Qed.

(** The share left for a tenant with guarantee [g] when others have [others] guaranteed. *)
Lemma reclaimable_range others g : nn others -> nn g -> ext g <= ONE ->
  share_range g f_one (f_max (f_sub f_one (f_min others f_one)) g).
Proof.
  intros No Ng Lg. pose proof ONE_pos. destruct (f_min_num others f_one (proj1 No) (proj1 f_one_nn)) as [Nm Em].
  rewrite ext_f_one in Em. destruct No as [_ Po].
  assert (Fm : is_finite (f_min others f_one) = true).
  { apply num_fin_iff; [done|]. pose proof (proj1 (num_fin_iff f_one (proj1 f_one_nn)) eq_refl) as B. rewrite ext_f_one in B. lia. }
  destruct (is_sum_between (f_sub f_one (f_min others f_one)) (ext f_one - ext (f_min others f_one)) f_zero f_one) as (Fs & _ & Ls).
  { apply f_sub_spec; [reflexivity | apply Nm | reflexivity | done]. }
  { split; reflexivity. } { split; reflexivity. } { rewrite ext_f_one. change (ext f_zero) with 0. lia. }
  destruct (f_max_num _ g (fin_num _ Fs) (proj1 Ng)) as [N E]. rewrite ext_f_one in *. change (ext f_zero) with 0 in Ls.
  split; [exact N | rewrite ext_f_one; lia].
Qed.

Lemma f_sum_nn l : Forall nn l -> nn (f_sum l).
Proof. intros H. apply fold_add_nn; [apply neg_zero_whole | done]. Qed.

Lemma share_finite x : nn x -> ext x <= ONE -> is_finite x = true.
Proof. intros N L. apply (small_finite x 0); [done | lia | lia]. Qed.

Lemma capacity_limit_range {HO : HashOrder} config pending who pool_limit t :
  (forall n p, tenants (policies config) !! n = Some p -> ok_shares p) ->
  tenants (policies config) !! who = Some t -> nn pool_limit -> is_finite pool_limit = true ->
  let limit := tenant_capacity_limit config pending who pool_limit in
  nn limit /\ ext (f_mul pool_limit (guaranteed_share t)) <= ext limit <= ext (f_mul pool_limit (max_share t)).
Proof.
  intros HS Ht Np Fp. destruct (ok_shares_range t (HS _ _ Ht)) as (Ng & Nm & Lg).
  unfold tenant_capacity_limit. rewrite Ht. cbn [from_option].
  assert (Fg : is_finite (guaranteed_share t) = true) by (apply share_finite; [done | lia]).
  assert (Fm : is_finite (max_share t) = true) by (apply share_finite; [done | lia]).
  case_bool_decide.
  - split; [by apply f_mul_nn|]. split; [apply f_mul_mono; try done; lia | lia].
  - set (others := f_sum _).
    assert (No : nn others).
    { apply f_sum_nn, Forall_forall. intros x (ku & -> & _)%list_elem_of_fmap.
      destruct (tenants (policies config) !! ku.1) as [p|] eqn:E; cbn [from_option].
      - by apply ok_shares_range, (HS _ _ E).
      - split; [split; reflexivity | vm_compute; congruence]. }
    destruct (reclaimable_range others (guaranteed_share t) No Ng ltac:(lia)) as [Nr Lr]. rewrite ext_f_one in Lr.
    destruct (f_min_num (max_share t) _ (proj1 Nm) Nr) as [Nx Ex]. destruct Ng as [Ng Pg].
    set (share := f_min (max_share t) _) in *. assert (Ns : nn share) by (split; [done | lia]).
    assert (Fs : is_finite share = true) by (apply share_finite; [done | lia]).
    split; [by apply f_mul_nn|]. split; apply f_mul_mono; try done; lia.
Qed.

(** ** The properties *)

Definition ex_who : IdentityContext := mkIdentity "u" "acme" "chat" true.
Definition ex_cs1 : ConcurrencyState := (try_enter no_concurrency ex_who ex_config).1.

Lemma ex_typed_limits : typed_limits ex_config.
Proof.
  intros i. unfold tenant_limit, application_limit. cbn [policies ex_config tenants applications].
  destruct (decide (tenant i = "acme"%string)) as [-> |]; destruct (decide (application i = "chat"%string)) as [-> |];
    rewrite ?lookup_singleton_eq, ?lookup_singleton_ne by done; cbn [from_option]; split; vm_compute; congruence.
Qed.



(** C15: Shares: the capacity limit of a configured tenant lies between its
    guaranteed share and its maximal share of the pool, whoever else is
    queued and in whatever order the hash set is summed. *)
Theorem tenant_share_guaranteed {HO : HashOrder} config pending who pool_limit t :
  (forall n p, tenants (policies config) !! n = Some p -> ok_shares p) ->
  tenants (policies config) !! who = Some t -> nn pool_limit -> is_finite pool_limit = true ->
  let limit := tenant_capacity_limit config pending who pool_limit in
  f_le (f_mul pool_limit (guaranteed_share t)) limit = true /\ f_le limit (f_mul pool_limit (max_share t)) = true.
Proof.
  intros HS Ht Np Fp limit. destruct (capacity_limit_range config pending who pool_limit t HS Ht Np Fp) as (N & L).
  fold limit in N, L. destruct (ok_shares_range t (HS _ _ Ht)) as (Ng & Nm & Lg).
  assert (Ng' : nn (f_mul pool_limit (guaranteed_share t))) by (apply f_mul_nn; try done; apply share_finite; [done | lia]).
  assert (Nm' : nn (f_mul pool_limit (max_share t))) by (apply f_mul_nn; try done; apply share_finite; [done | lia]).
  rewrite !le_num by (apply N || apply Ng' || apply Nm'). split; apply Z.leb_le; lia.
Qed.

Lemma tenant_share_guaranteed_witness :
  let t := mkTenantPolicy 2 (f_lit 1 4) f_one 5 in
  let limit := tenant_capacity_limit ex_config ∅ "acme" (f_of_Z 1000) in
  f_le (f_mul (f_of_Z 1000) (guaranteed_share t)) limit = true /\ f_le limit (f_mul (f_of_Z 1000) (max_share t)) = true.
Proof.
  apply (tenant_share_guaranteed ex_config ∅ "acme" (f_of_Z 1000) (mkTenantPolicy 2 (f_lit 1 4) f_one 5)).
  - intros n p. cbn [policies ex_config tenants]. rewrite lookup_singleton_Some. intros [_ <-]. split_and!; vm_compute; reflexivity.
  - reflexivity.
  - split; [split; reflexivity | vm_compute; congruence].
  - reflexivity.
Defined.

(** Sets of held leases: what is added and then dropped is gone. *)
Section held_sets.
Context {A : Type}.
Implicit Types (s t : propset A).

Lemma undo_one s s1 s2 s3 a : s1 ⊆ {[ a ]} ∪ s -> s2 ⊆ s1 -> s3 ⊆ s2 ∖ {[ a ]} -> s3 ⊆ s.
Proof. set_solver. Qed.

Lemma undo_two s s1 s2 s3 s4 s5 a b : s1 ⊆ {[ a ]} ∪ s -> s2 ⊆ {[ b ]} ∪ s1 -> s3 ⊆ s2 ->
  s4 ⊆ s3 ∖ {[ b ]} -> s5 ⊆ s4 ∖ {[ a ]} -> s5 ⊆ s.
Proof. set_solver. Qed.

Lemma add_three s s1 s2 s3 a b c : s1 ⊆ {[ a ]} ∪ s -> s2 ⊆ {[ b ]} ∪ s1 -> s3 ⊆ {[ c ]} ∪ s2 -> s3 ⊆ {[ a; b; c ]} ∪ s.
Proof. set_solver. Qed.

Lemma undo_three s s3 s4 s5 s6 a b c : s3 ⊆ {[ a; b; c ]} ∪ s -> s4 ⊆ s3 ∖ {[ c ]} -> s5 ⊆ s4 ∖ {[ b ]} ->
  s6 ⊆ s5 ∖ {[ a ]} -> s6 ⊆ s.
Proof. set_solver. Qed.
End held_sets.

(** The leases of one reservation. *)
Definition leases_of (r : AdmissionRequest) (envs : ReserveEnvs) : propset (string * Uuid) :=
  {[ (tenant_key r, env_id (env_tenant envs)); (application_key r, env_id (env_application envs));
     (pool r, env_id (env_capacity envs)) ]}.


Definition ex_envs : ReserveEnvs := mkReserveEnvs (ex_env 1 11) (ex_env 2 12) (ex_env 3 13) (ex_env 4 14) (ex_env 5 15).
Definition ex_admission : AdmissionRequest :=
  {| req_id := 1%N; identity := ex_who; requested_class := Standard; effective_class := Standard; pool := "main";
     estimate := {| input_tokens := 1; output_tokens := 1; cached_input_tokens := 0; provider_cost_coefficient := f_one;
                    normalized_units := mkWorkUnits f_one; confidence := f32_lit 1 1; source := ExactTokenizer |};
     deadline := 5; queueable := true |}.

Definition ex_refused : LeaseState :=
  (reserve_distributed (K := LeaseState) ∅ ex_envs 100 ∅ ex_admission ex_config (f_of_Z 1000) (f_of_Z 2000)).1.


(** C17: A service class is an entitlement: under a validated configuration a
    request runs in the class it asked for only if its identity is trusted and
    belongs to the tenant of an application that allows this class, otherwise
    it runs as standard; and the effective class is always a configured one, so
    the lookup of its settings cannot fail. *)
Theorem class_is_entitled parse_cidr parse_url config who requested class app :
  validate parse_cidr parse_url config = Ok tt -> effective_class_of config who requested = (class, app) ->
  is_Some (service_classes config !! class_to_string class) /\
  app = applications (policies config) !! application who /\
  (class = Standard \/
   class = requested /\ trusted who = true /\
   exists p, app = Some p /\ app_tenant p = tenant who /\ class_to_string requested ∈ allowed_classes p).
Proof.
  intros HV E. apply validate_ok_iff in HV. unfold effective_class_of in E.
  destruct (applications (policies config) !! application who) as [p|] eqn:EA.
  - destruct (trusted who && _) eqn:T; injection E as <- <-.
    + apply andb_true_iff in T as [T1 [T2 T3]%andb_true_iff]. apply bool_decide_eq_true in T2, T3.
      split_and!; [apply HV | done | eauto 10].
    + split_and!; [apply HV | done | by left].
  - rewrite andb_false_r in E. injection E as <- <-. split_and!; [apply HV | done | by left].
Qed.

Lemma class_is_entitled_witness :
  is_Some (service_classes ex_config !! class_to_string Interactive) /\
  applications (policies ex_config) !! "chat"%string = applications (policies ex_config) !! application ex_who /\
  (Interactive = Standard \/
   Interactive = Interactive /\ trusted ex_who = true /\
   exists p, applications (policies ex_config) !! "chat"%string = Some p /\ app_tenant p = tenant ex_who /\
     class_to_string Interactive ∈ allowed_classes p).
Proof.
  apply (class_is_entitled (fun _ => Ok tt) (fun _ => Err "no url"%string) ex_config ex_who Interactive);
    vm_compute; reflexivity.
Defined.

(** The decision history is a bounded log: recording keeps at most [max]
    entries, the newest last, and drops only the oldest ones. *)
Theorem history_bounded {A} (decisions : list A) r max :
  0 < max -> exists dropped kept, decisions = dropped ++ kept /\ record decisions r max = kept ++ [r] /\
    Z.of_nat (length (record decisions r max)) <= max /\
    (Z.of_nat (length decisions) < max -> dropped = []).
Proof.
  intros Hm. unfold record. destruct (Z.eqb_spec max 0); [lia|].
  assert (HT : exists dropped, decisions = dropped ++ trim max decisions /\
    Z.of_nat (length (trim max decisions)) < max /\ (Z.of_nat (length decisions) < max -> dropped = [])).
  { induction decisions as [|x d IH]; cbn [trim]; [exists []; cbn; split_and!; [done | lia | done]|].
    destruct (Z.leb_spec max (Z.of_nat (length (x :: d)))).
    - destruct IH as (dr & E1 & E2 & _). exists (x :: dr). split_and!; [cbn; by f_equal | done | lia].
    - exists []. split_and!; [done | lia | done]. }
  destruct HT as (dr & E1 & E2 & E3). exists dr, (trim max decisions). rewrite length_app. cbn [length]. split_and!; [done | done | lia | done].
Qed.

Lemma history_bounded_witness : exists dropped kept, [1; 2; 3] = dropped ++ kept /\
  record [1; 2; 3] 4 2 = kept ++ [4] /\ Z.of_nat (length (record [1; 2; 3] 4 2)) <= 2 /\
  (Z.of_nat (length [1; 2; 3]) < 2 -> dropped = []).
Proof. apply (history_bounded [1; 2; 3] 4 2). lia. Defined.


