(* ===== verification/Serde.v ===== *)
(** * Derived serialization ([serde])

    A document is the tree a deserializer offers to the derived code of a type,
    or a serializer receives from it; its scalars belong to the format (YAML for
    the configuration file, JSON for the comparison of two configurations) and
    are a class.  A codec is the pair of the derived [Serialize] and
    [Deserialize]; the combinators below are the attributes the repository
    uses: strict structs ([deny_unknown_fields]), [default], [Option], enums
    tagged by a field, [BTreeMap], [BTreeSet] and [Vec]. *)

From stdpp Require Import base gmap strings list sorting.
From Stdlib Require Import ZArith Lia String Ascii.
From S2P Require Import Prelude F64 Core Config.

Open Scope Z_scope.

(** The scalars of a format.  The flag of [read_text] says that the text is read
    from a buffered value, which a tagged enum does: then [123] is a number, and
    otherwise it may be read as text. *)
Class Scalars : Type := {
  Scalar : Type;
  write_null : Scalar;
  is_null : Scalar -> bool;
  write_text : string -> Scalar;
  read_text : bool -> Scalar -> option string;
  write_u64 : Z -> Scalar;
  read_u64 : Scalar -> option Z;
  write_f64 : f64 -> Scalar;
  read_f64 : Scalar -> option f64;
  write_bool : bool -> Scalar;
  read_bool : Scalar -> option bool
}.

Definition in_u64 (n : Z) : Prop := 0 <= n < 2 ^ 64.
Definition in_u32 (n : Z) : Prop := 0 <= n < 2 ^ 32.
#[export] Instance in_u64_dec n : Decision (in_u64 n). Proof. unfold in_u64. apply _. Defined.
#[export] Instance in_u32_dec n : Decision (in_u32 n). Proof. unfold in_u32. apply _. Defined.

(** What is written is read back; doubles that are not finite have no form in
    JSON. *)
Class ScalarLaws `{Scalars} : Prop := {
  null_null : is_null write_null = true;
  text_not_null : forall s, is_null (write_text s) = false;
  read_write_text : forall b s, read_text b (write_text s) = Some s;
  read_write_u64 : forall n, in_u64 n -> read_u64 (write_u64 n) = Some n;
  read_u64_range : forall s n, read_u64 s = Some n -> in_u64 n;
  read_write_f64 : forall x, is_finite x = true -> read_f64 (write_f64 x) = Some x;
  read_write_bool : forall b, read_bool (write_bool b) = Some b
}.

Section serde.
Context {SC : Scalars}.

Inductive Doc : Type :=
| Leaf (s : Scalar)
| Seq (l : list Doc)
| Mapping (fields : list (string * Doc)).

Section Doc_ind.
Context (P : Doc -> Prop).
Hypothesis HLeaf : forall s, P (Leaf s).
Hypothesis HSeq : forall l, Forall P l -> P (Seq l).
Hypothesis HMapping : forall fields, Forall (fun f => P f.2) fields -> P (Mapping fields).

(** Induction with the hypothesis for the documents below. *)
Fixpoint doc_ind (d : Doc) : P d :=
  match d with
  | Leaf s => HLeaf s
  | Seq l => HSeq l ((fix go l := match l return Forall P l with [] => Forall_nil_2 P | x :: l => Forall_cons_2 P x l (doc_ind x) (go l) end) l)
  | Mapping fields =>
      HMapping fields ((fix go l := match l return Forall (fun f => P f.2) l with
                                    | [] => Forall_nil_2 _
                                    | x :: l => Forall_cons_2 (fun f : string * Doc => P f.2) x l (doc_ind x.2) (go l)
                                    end) fields)
  end.
End Doc_ind.

Record Codec (A : Type) : Type := mkCodec { encode : A -> Doc; decode : bool -> Doc -> option A }.
Arguments mkCodec {A}.
Arguments encode {A}.
Arguments decode {A}.

(** ** Scalars *)

Definition read_leaf {A} (r : Scalar -> option A) (d : Doc) : option A := match d with Leaf s => r s | _ => None end.

Definition text : Codec string := mkCodec (fun s => Leaf (write_text s)) (fun buffered => read_leaf (read_text buffered)).
Definition number (bound : Z) : Codec Z :=
  mkCodec (fun n => Leaf (write_u64 n)) (fun _ => read_leaf (fun s => n ← read_u64 s; if n <? bound then Some n else None)).
Definition usize : Codec Z := number (2 ^ 64).
Definition u32 : Codec Z := number (2 ^ 32).
Definition double : Codec f64 := mkCodec (fun x => Leaf (write_f64 x)) (fun _ => read_leaf read_f64).
Definition flag : Codec bool := mkCodec (fun b => Leaf (write_bool b)) (fun _ => read_leaf read_bool).

(** A type with a text form: [Display] and [FromStr]. *)
Definition textual {A} (show : A -> string) (parse : string -> option A) : Codec A :=
  mkCodec (fun a => encode text (show a)) (fun buffered d => decode text buffered d ≫= parse).

(** ** Containers *)

Definition null_leaf (d : Doc) : bool := match d with Leaf s => is_null s | _ => false end.

Definition optional {A} (c : Codec A) : Codec (option A) :=
  mkCodec (fun o => match o with Some a => encode c a | None => Leaf write_null end)
    (fun buffered d => if null_leaf d then Some None else Some <$> decode c buffered d).

Definition listed {A} (c : Codec A) : Codec (list A) :=
  mkCodec (fun l => Seq (encode c <$> l)) (fun buffered d => match d with Seq l => mapM (decode c buffered) l | _ => None end).

Definition text_set : Codec (gset string) :=
  mkCodec (fun s => encode (listed text) (btree_set_iter s)) (fun buffered d => list_to_set <$> decode (listed text) buffered d).

(** A later entry replaces an earlier one with the same key. *)
Definition decode_entry {A} (c : Codec A) (buffered : bool) (f : string * Doc) : option (string * A) := pair f.1 <$> decode c buffered f.2.
Definition text_map {A} (c : Codec A) : Codec (gmap string A) :=
  mkCodec (fun m => Mapping (prod_map id (encode c) <$> btree_iter string_le m))
    (fun buffered d => match d with
                       | Mapping fields => (fun l => list_to_map (reverse l)) <$> mapM (decode_entry c buffered) fields
                       | _ => None
                       end).

(** ** Structs *)

(** The value of a key: its last entry. *)
Fixpoint entry (fields : list (string * Doc)) (key : string) : option Doc :=
  match fields with
  | [] => None
  | (k, d) :: rest => match entry rest key with Some d' => Some d' | None => if String.eqb k key then Some d else None end
  end.

Fixpoint distinct (keys : list string) : bool :=
  match keys with [] => true | k :: rest => negb (existsb (String.eqb k) rest) && distinct rest end.

(** [deny_unknown_fields]: a field is one of the struct's, and occurs once. *)
Definition strict (names : list string) (fields : list (string * Doc)) : bool :=
  distinct (fst <$> fields) && forallb (fun f => existsb (String.eqb f.1) names) fields.

Definition struct {A} (names : list string) (write : A -> list (string * Doc)) (read : bool -> list (string * Doc) -> option A) : Codec A :=
  mkCodec (fun a => Mapping (write a))
    (fun buffered d => match d with Mapping fields => if strict names fields then read buffered fields else None | _ => None end).

(** Without that attribute: unknown fields are skipped, known ones occur once. *)
Definition known_once (names : list string) (fields : list (string * Doc)) : bool :=
  distinct (filter (fun k => existsb (String.eqb k) names = true) (fst <$> fields)).

Definition lenient {A} (names : list string) (write : A -> list (string * Doc)) (read : bool -> list (string * Doc) -> option A) : Codec A :=
  mkCodec (fun a => Mapping (write a))
    (fun buffered d => match d with Mapping fields => if known_once names fields then read buffered fields else None | _ => None end).

(** A field that must be there, and one with a default. *)
Definition required {A} (c : Codec A) (buffered : bool) (fields : list (string * Doc)) (name : string) : option A :=
  entry fields name ≫= decode c buffered.
Definition defaulted {A} (c : Codec A) (otherwise : A) (buffered : bool) (fields : list (string * Doc)) (name : string) : option A :=
  match entry fields name with Some d => decode c buffered d | None => Some otherwise end.

(** ** Enums *)

(** Unit variants by name. *)
Definition variants {A} (name : A -> string) (all : list A) : Codec A :=
  textual name (fun s => head (filter (fun a => name a = s) all)).

(** [#[serde(tag = "...")]]: the document is buffered, the tag chosen and the
    other fields given to the variant.  A unit variant does not look at them. *)
Definition tagged {A} (tag : string) (write : A -> string * list (string * Doc)) (read : string -> list (string * Doc) -> option A) : Codec A :=
  mkCodec (fun a => let '(variant, fields) := write a in Mapping ((tag, encode text variant) :: fields))
    (fun _ d => match d with
                | Mapping fields =>
                    match filter (fun f => f.1 = tag) fields with
                    | [(_, v)] => decode text true v ≫= (fun variant => read variant (filter (fun f => f.1 <> tag) fields))
                    | _ => None
                    end
                | _ => None
                end).

Definition variant {A} (names : list string) (read : list (string * Doc) -> option A) (fields : list (string * Doc)) : option A :=
  if strict names fields then read fields else None.

(** ** Laws *)

(** Reading undoes writing. *)
Class Faithful {A} (c : Codec A) (ok : A -> Prop) : Prop := faithful b a : ok a -> decode c b (encode c a) = Some a.

(** Every setting of the document is in the value: [kept d e] when each key of
    [d] is a key of [e], to the leaves.  The fields beside the tag of a unit
    variant are the exception. *)
Inductive kept : Doc -> Doc -> Prop :=
| kept_leaf s e : kept (Leaf s) (Leaf e)
| kept_seq l l' : (forall d, d ∈ l -> exists d', d' ∈ l' /\ kept d d') -> kept (Seq l) (Seq l')
| kept_mapping fields fields' : (forall k d, entry fields k = Some d -> exists d', (k, d') ∈ fields' /\ kept d d') ->
    kept (Mapping fields) (Mapping fields')
| kept_unit fields tag s : kept (Mapping fields) (Mapping [(tag, Leaf s)]).

Class Keeps {A} (c : Codec A) : Prop := keeps b d a : decode c b d = Some a -> kept d (encode c a).

Definition any {A} (_ : A) : Prop := True.
Definition when_some {A} (ok : A -> Prop) (o : option A) : Prop := forall a, o = Some a -> ok a.

Class NotNull {A} (c : Codec A) : Prop := not_null a : null_leaf (encode c a) = false.
#[export] Instance struct_not_null {A} names (write : A -> list (string * Doc)) read : NotNull (struct names write read).
Proof. done. Qed.
#[export] Instance tagged_not_null {A} tag (write : A -> string * list (string * Doc)) read : NotNull (tagged tag write read).
Proof. intros a. cbn. by destruct (write a). Qed.

Section laws.
Context {SL : ScalarLaws}.

#[export] Instance text_faithful : Faithful text any.
Proof. intros b a _. apply read_write_text. Qed.

#[export] Instance number_faithful bound : Faithful (number bound) (fun n => in_u64 n /\ n < bound).
Proof. intros b n [H L]. cbn. rewrite (read_write_u64 n H). cbn. by rewrite (proj2 (Z.ltb_lt _ _) L). Qed.

#[export] Instance usize_faithful : Faithful usize in_u64.
Proof. intros b n H. apply number_faithful. split; [done | apply H]. Qed.

#[export] Instance u32_faithful : Faithful u32 in_u32.
Proof. intros b n H. apply number_faithful. unfold in_u64, in_u32 in *. lia. Qed.

#[export] Instance double_faithful : Faithful double (fun x => is_finite x = true).
Proof. intros b x H. by apply read_write_f64. Qed.

#[export] Instance flag_faithful : Faithful flag any.
Proof. intros b x _. apply read_write_bool. Qed.

Lemma textual_faithful {A} (show : A -> string) parse (ok : A -> Prop) :
  (forall a, ok a -> parse (show a) = Some a) -> Faithful (textual show parse) ok.
Proof. intros H b a Ha. cbn. rewrite read_write_text. by apply H. Qed.

#[export] Instance text_not_null_leaf : NotNull text.
Proof. intros s. apply text_not_null. Qed.

#[export] Instance optional_faithful {A} (c : Codec A) ok `{!Faithful c ok, !NotNull c} : Faithful (optional c) (when_some ok).
Proof.
  intros b [a|] H; cbn; [|by rewrite null_null]. by rewrite not_null, (faithful b a (H a eq_refl)).
Qed.

Lemma mapM_encode {A} (c : Codec A) ok `{!Faithful c ok} b l : Forall ok l -> mapM (decode c b) (encode c <$> l) = Some l.
Proof. induction 1 as [|a l Ha _ IH]; [done|]. cbn. by rewrite faithful, IH. Qed.

#[export] Instance listed_faithful {A} (c : Codec A) ok `{!Faithful c ok} : Faithful (listed c) (Forall ok).
Proof. intros b l H. by apply mapM_encode with ok. Qed.

#[export] Instance text_set_faithful : Faithful text_set any.
Proof.
  intros b s _. cbn -[listed]. rewrite faithful by (by apply Forall_forall). cbn. f_equal. unfold btree_set_iter.
  rewrite merge_sort_Permutation. apply list_to_set_elements_L.
Qed.

#[export] Instance text_map_faithful {A} (c : Codec A) ok `{!Faithful c ok} : Faithful (text_map c) (map_Forall (fun _ => ok)).
Proof.
  intros b m H. unfold text_map. cbn [encode decode].
  assert (E : forall l, Forall (fun f => ok f.2) l -> mapM (decode_entry c b) (prod_map id (encode c) <$> l) = Some l).
  { induction 1 as [|[k a] l Ha _ IH]; [done|]. cbn in Ha.
    assert (Ea : decode_entry c b (prod_map id (encode c) (k, a)) = Some (k, a)) by (unfold decode_entry; cbn; by rewrite faithful).
    rewrite fmap_cons. cbn [mapM]. by rewrite Ea, IH. }
  rewrite E by (apply Forall_forall; intros [k a] Hk%elem_of_btree_iter; by apply (H k a)). cbn. f_equal.
  rewrite <- (btree_iter_map (H := _) string_le m) at 2. apply list_to_map_proper; [|by rewrite reverse_Permutation].
  rewrite fmap_reverse, reverse_Permutation. apply btree_iter_nodup.
Qed.
End laws.

(** A struct is faithful when its fields are. *)
Lemma struct_faithful {A} names (write : A -> list (string * Doc)) read (ok : A -> Prop) :
  (forall a, ok a -> strict names (write a) = true) -> (forall b a, ok a -> read b (write a) = Some a) -> Faithful (struct names write read) ok.
Proof. intros HS HR b a Ha. unfold struct. cbn [decode encode]. rewrite (HS a Ha). by apply HR. Qed.

Lemma lenient_faithful {A} names (write : A -> list (string * Doc)) read (ok : A -> Prop) :
  (forall a, ok a -> known_once names (write a) = true) -> (forall b a, ok a -> read b (write a) = Some a) -> Faithful (lenient names write read) ok.
Proof. intros HS HR b a Ha. unfold lenient. cbn [decode encode]. rewrite (HS a Ha). by apply HR. Qed.

Lemma variants_faithful `{!ScalarLaws} {A} (name : A -> string) all :
  (forall a b, name a = name b -> a = b) -> (forall a, a ∈ all) -> Faithful (variants name all) any.
Proof.
  intros HI HA. apply textual_faithful. intros a _. destruct (filter (fun x => name x = name a) all) as [|x l] eqn:E.
  - exfalso. apply (not_elem_of_nil a). rewrite <- E. by apply list_elem_of_filter.
  - cbn. f_equal. apply HI. apply (list_elem_of_filter (fun x => name x = name a) all x). rewrite E. left.
Qed.

(** ** Settings are kept *)

#[export] Instance text_keeps : Keeps text.
Proof. intros b [s | |] a; cbn; try done. intros _. constructor. Qed.

#[export] Instance number_keeps bound : Keeps (number bound).
Proof. intros b [s | |] a; cbn; try done. intros _. constructor. Qed.

#[export] Instance double_keeps : Keeps double.
Proof. intros b [s | |] a; cbn; try done. intros _. constructor. Qed.

#[export] Instance flag_keeps : Keeps flag.
Proof. intros b [s | |] a; cbn; try done. intros _. constructor. Qed.

#[export] Instance textual_keeps {A} (show : A -> string) parse : Keeps (textual show parse).
Proof. intros b [s | |] a; cbn; try done. intros _. constructor. Qed.

#[export] Instance optional_keeps {A} (c : Codec A) `{!Keeps c} : Keeps (optional c).
Proof.
  intros b d o. cbn. destruct (null_leaf d) eqn:EN.
  - intros [= <-]. destruct d; [constructor | done | done].
  - intros (a & E & ->)%fmap_Some. by apply (keeps b).
Qed.

#[export] Instance listed_keeps {A} (c : Codec A) `{!Keeps c} : Keeps (listed c).
Proof.
  intros b [| l |] a; cbn; try done. intros F%mapM_Some. constructor. intros d [i Hi]%list_elem_of_lookup.
  destruct (Forall2_lookup_l _ _ _ _ _ F Hi) as (x & Hx & E). exists (encode c x). split; [|by apply (keeps b)].
  apply list_elem_of_fmap. exists x. split; [done|]. by apply list_elem_of_lookup_2 with i.
Qed.

#[export] Instance text_set_keeps : Keeps text_set.
Proof.
  intros b d s. cbn -[listed]. intros (l & E & ->)%fmap_Some. pose proof (keeps b d l E) as K. inversion K as [|l1 l2 HL | |]; subst.
  constructor. intros d Hd. destruct (HL d Hd) as (d' & Hd' & K'). exists d'. split; [|done].
  apply list_elem_of_fmap in Hd' as (t & -> & Ht). apply list_elem_of_fmap. exists t. split; [done|]. unfold btree_set_iter.
  rewrite merge_sort_Permutation, elem_of_elements. by apply elem_of_list_to_set.
Qed.
Lemma entry_elem fields k d : entry fields k = Some d -> (k, d) ∈ fields.
Proof.
  induction fields as [|[k' d'] rest IH]; cbn; [done|]. destruct (entry rest k); [intros E; right; by apply IH|].
  destruct (String.eqb_spec k' k) as [-> |]; [intros [= ->]; left | done].
Qed.

#[export] Instance text_map_keeps {A} (c : Codec A) `{!Keeps c} : Keeps (text_map c).
Proof.
  intros b [| | fields] m; cbn; try done. intros (l & F%mapM_Some & ->)%fmap_Some. constructor. intros k d He.
  assert (HE : exists a, (list_to_map (reverse l) : gmap string A) !! k = Some a /\ decode c b d = Some a).
  { revert d He. induction F as [|[k' d'] [k'' a] fields l E F IH]; [done|]. apply fmap_Some in E as (a' & E & [= -> ->]).
    intros d He. cbn in He. rewrite reverse_cons, list_to_map_app. destruct (entry fields k) as [d0|] eqn:E0.
    - injection He as <-. destruct (IH d0 eq_refl) as (x & Hx & Ex). exists x. split; [|done]. by apply lookup_union_Some_l.
    - assert (HN : (list_to_map (reverse l) : gmap string A) !! k = None).
      { apply not_elem_of_list_to_map_1. rewrite fmap_reverse, elem_of_reverse. clear - F E0. induction F as [|[k1 d1] [k2 x] fields l E F IH]; [set_solver|].
        apply fmap_Some in E as (x' & _ & [= -> ->]). cbn in E0. destruct (entry fields k); [done|]. destruct (String.eqb_spec k1 k); [done|].
        cbn. set_solver. }
      destruct (String.eqb_spec k' k) as [-> |]; [|done]. injection He as <-. exists a'. split; [|done].
      rewrite lookup_union_r by done. cbn. apply lookup_insert_eq. }
  destruct HE as (a & Ha & E). exists (encode c a). split; [|by apply (keeps b)].
  apply list_elem_of_fmap. exists (k, a). split; [done|]. by apply elem_of_btree_iter.
Qed.

Lemma strict_known names fields k d : strict names fields = true -> entry fields k = Some d -> k ∈ names.
Proof.
  unfold strict. intros [_ HF]%andb_true_iff He%entry_elem. rewrite forallb_forall in HF.
  apply list_elem_of_In in He. pose proof (HF _ He) as HE. cbn in HE. apply existsb_exists in HE as (n & Hn & E). apply String.eqb_eq in E as ->. by apply list_elem_of_In.
Qed.

Lemma required_kept {A} (c : Codec A) `{!Keeps c} b fields k a d : required c b fields k = Some a -> entry fields k = Some d -> kept d (encode c a).
Proof. unfold required. intros E He. rewrite He in E. by apply (keeps b). Qed.

Lemma defaulted_kept {A} (c : Codec A) `{!Keeps c} o b fields k a d :
  defaulted c o b fields k = Some a -> entry fields k = Some d -> kept d (encode c a).
Proof. unfold defaulted. intros E He. rewrite He in E. by apply (keeps b). Qed.

(** What a struct's reader does with its fields. *)
Definition reads_all {A} (names : list string) (write : A -> list (string * Doc)) (read : list (string * Doc) -> option A) : Prop :=
  forall fields a, read fields = Some a -> Forall (fun k => forall d, entry fields k = Some d -> exists d', (k, d') ∈ write a /\ kept d d') names.

Lemma struct_keeps {A} names (write : A -> list (string * Doc)) read :
  (forall b, reads_all names write (read b)) -> Keeps (struct names write read).
Proof.
  intros HR b [| | fields] a; cbn; try done. destruct (strict names fields) eqn:ES; [|done]. intros E. constructor. intros k d He.
  pose proof (HR b fields a E) as HF. rewrite Forall_forall in HF. by apply (HF k (strict_known _ _ _ _ ES He)).
Qed.

Lemma entry_filter tag fields k : k <> tag -> entry (filter (fun f => f.1 <> tag) fields) k = entry fields k.
Proof.
  intros Hk. induction fields as [|[k' d] fields IH]; [done|]. rewrite filter_cons. cbn [fst]. destruct (decide (k' <> tag)) as [|E].
  - cbn. by rewrite IH.
  - cbn. rewrite IH. destruct (entry fields k); [done|]. destruct (String.eqb_spec k' k); [|done]. subst. by destruct E.
Qed.

Lemma tagged_faithful `{!ScalarLaws} {A} tag (write : A -> string * list (string * Doc)) read (ok : A -> Prop) :
  (forall a, ok a -> Forall (fun f => f.1 <> tag) (write a).2) -> (forall a, ok a -> read (write a).1 (write a).2 = Some a) ->
  Faithful (tagged tag write read) ok.
Proof.
  intros HT HR b a Ha. specialize (HT a Ha). specialize (HR a Ha). unfold tagged. cbn [decode encode]. destruct (write a) as [v fields]. cbn in HT, HR.
  assert (E : filter (fun f : string * Doc => f.1 = tag) fields = []).
  { clear - HT. induction HT as [|f l Hf _ IH]; [done|]. by rewrite filter_cons_False. }
  assert (E' : filter (fun f : string * Doc => f.1 <> tag) fields = fields).
  { clear - HT. induction HT as [|f l Hf _ IH]; [done|]. by rewrite filter_cons_True, IH. }
  rewrite filter_cons_True by done. rewrite E. rewrite filter_cons_False by (by intros N; apply N). rewrite E', (faithful true v) by done. done.
Qed.

Lemma tagged_keeps {A} tag (write : A -> string * list (string * Doc)) read :
  (forall v fields a, read v fields = Some a ->
     (write a).2 = [] \/ forall k d, entry fields k = Some d -> exists d', (k, d') ∈ (write a).2 /\ kept d d') ->
  Keeps (tagged tag write read).
Proof.
  intros HR b [| | fields] a; unfold tagged; cbn [decode encode]; try done.
  destruct (filter (fun f => f.1 = tag) fields) as [|[t v] [|]] eqn:EF; try done. intros (vt & EV & ER)%bind_Some.
  destruct v as [s | |]; try done. specialize (HR _ _ _ ER). destruct (write a) as [v' fields']. cbn in HR. destruct HR as [-> | HR]; [apply kept_unit|].
  constructor. intros k d He. destruct (decide (k = tag)) as [-> | Hk].
  - apply entry_elem in He. assert (Hd : (tag, d) ∈ filter (fun f : string * Doc => f.1 = tag) fields) by (by apply list_elem_of_filter).
    rewrite EF in Hd. apply list_elem_of_singleton in Hd as [= <- ->]. eexists. split; [left | constructor].
  - rewrite <- (entry_filter tag) in He by done. destruct (HR k d He) as (d' & Hd & K). exists d'. split; [by right | done].
Qed.

Lemma variant_keeps {A} names (write : A -> list (string * Doc)) read fields a :
  reads_all names write read -> variant names read fields = Some a ->
  forall k d, entry fields k = Some d -> exists d', (k, d') ∈ write a /\ kept d d'.
Proof.
  unfold variant. intros HR E k d He. destruct (strict names fields) eqn:ES; [|done]. pose proof (HR fields a E) as HF.
  rewrite Forall_forall in HF. by apply (HF k (strict_known _ _ _ _ ES He)).
Qed.

(** Reading a faithful form determines the value. *)
Lemma encode_inj {A} (c : Codec A) ok `{!Faithful c ok} x y : ok x -> ok y -> encode c x = encode c y -> x = y.
Proof. intros Hx Hy E. pose proof (faithful true x Hx) as F. rewrite E, (faithful true y Hy) in F. by injection F. Qed.
End serde.

Arguments mkCodec {SC A}.
Arguments encode {SC A}.
Arguments decode {SC A}.
