(* ===== verification/ConfigSerde.v ===== *)
(** * The configuration as a document (crates/config)

    The derived [Serialize] and [Deserialize] of every configuration type, with
    the defaults the source names.  Text forms of durations ([humantime_serde])
    and socket addresses are a class; the YAML parser and the JSON serializer
    are the [Scalars] of [Serde]. *)

From stdpp Require Import base gmap strings list sorting.
From Stdlib Require Import ZArith Lia String Ascii.
From S2P Require Import Prelude Rounding F64 F64Facts F64Text Core Config Serde Admission.

Open Scope string_scope.
Open Scope Z_scope.

(** ** Defaults *)

Definition one : Z := 1.
Definition one_f64 : f64 := f_one.
Definition default_concurrency : Z := 100.
Definition default_body_bytes : Z := 16 * 1024 * 1024.
Definition default_spool_threshold : Z := 256 * 1024.
Definition default_reload_interval : Duration := from_secs 2.
(** The literal [1.15]. *)
Definition default_safety : f64 := f_lit 115 100.
Definition default_auth_header : string := "api-key".
Definition default_queue_depth : Z := 10000.
Definition default_queue_bytes : Z := 256 * 1024 * 1024.
Definition default_decisions : Z := 2048.
Definition default_replicas : Z := 1.
Definition default_subject_claim : string := "sub".
Definition default_tenant_claim : string := "tenant".
Definition default_application_claim : string := "application".
Definition default_principal_header : string := "x-inferqos-principal".
Definition default_tenant_header : string := "x-inferqos-tenant".
Definition default_application_header : string := "x-inferqos-application".
Definition default_client_san_header : string := "x-forwarded-client-cert-san".

Definition default_trusted_headers : TrustedIdentityHeaders :=
  mkTrustedIdentityHeaders default_principal_header default_tenant_header default_application_header default_client_san_header.
Definition default_limits : Limits := mkLimits default_queue_depth default_queue_bytes default_decisions 1 false.
Definition default_policies : Policies := mkPolicies ∅ ∅ ∅.
Definition default_identity : IdentityConfig := mkIdentityConfig None [] default_trusted_headers ∅ ∅.

(** ** Text forms *)

Class TextForms : Type := {
  show_duration : Duration -> string;
  parse_duration : string -> option Duration;
  show_addr : SocketAddr -> string;
  parse_addr : string -> option SocketAddr;
  addr_ok : SocketAddr -> Prop; (** the addresses [FromStr] can yield *)
  temp_dir : PathBuf
}.

(** The seconds of a [Duration] are a [u64]. *)
Definition duration_ok (d : Duration) : Prop := 0 <= d < 2 ^ 64 * 1000000000.
#[export] Instance duration_ok_dec d : Decision (duration_ok d). Proof. unfold duration_ok. apply _. Defined.

Class TextLaws `{TextForms} : Prop := {
  duration_text : forall d, duration_ok d -> parse_duration (show_duration d) = Some d;
  addr_text : forall a, addr_ok a -> parse_addr (show_addr a) = Some a
}.

Definition mode_name (m : Mode) : string := match m with Shadow => "shadow" | Enforce => "enforce" end.

Definition provider_kind_name (k : ProviderKind) : string :=
  match k with
  | AzureOpenai => "azure-openai"
  | AwsBedrock => "aws-bedrock"
  | GcpVertex => "gcp-vertex"
  | OpenaiCompatible => "openai-compatible"
  | Fake => "fake"
  | ExternalGrpc => "external-grpc"
  end.

Section codecs.
Context {SC : Scalars} {TF : TextForms}.

(** [Path::join]. *)
Definition path_join (dir file : string) : PathBuf :=
  dir +:+ (if String.eqb (sdrop (String.length dir - 1) dir) "/" then EmptyString else "/") +:+ file.
Definition default_spool_directory : PathBuf := path_join temp_dir "inferqos-spool".

Definition duration : Codec Duration := textual show_duration parse_duration.
Definition address : Codec SocketAddr := textual show_addr parse_addr.
Definition mode_codec : Codec Mode := variants mode_name [Shadow; Enforce].
Definition provider_codec : Codec ProviderKind :=
  variants provider_kind_name [AzureOpenai; AwsBedrock; GcpVertex; OpenaiCompatible; Fake; ExternalGrpc].

(** ** Structs and enums *)

Definition tls_codec : Codec ServerTlsConfig := struct ["cert_file"; "key_file"; "client_ca_file"]
  (fun t => [("cert_file", encode text (cert_file t)); ("key_file", encode text (key_file t)); ("client_ca_file", encode text (client_ca_file t))])
  (fun b fs =>
    cert ← required text b fs "cert_file"; key ← required text b fs "key_file"; ca ← required text b fs "client_ca_file";
    Some (mkServerTlsConfig cert key ca)).

Definition server_codec : Codec ServerConfig := struct
  ["listen"; "tls"; "max_body_bytes"; "spool_threshold_bytes"; "spool_directory"; "config_reload_interval"]
  (fun s => [("listen", encode address (server_listen s)); ("tls", encode (optional tls_codec) (tls s));
             ("max_body_bytes", encode usize (max_body_bytes s)); ("spool_threshold_bytes", encode usize (spool_threshold_bytes s));
             ("spool_directory", encode text (spool_directory s)); ("config_reload_interval", encode duration (config_reload_interval s))])
  (fun b fs =>
    listen ← required address b fs "listen"; tls ← defaulted (optional tls_codec) None b fs "tls";
    body ← defaulted usize default_body_bytes b fs "max_body_bytes"; spool ← defaulted usize default_spool_threshold b fs "spool_threshold_bytes";
    dir ← defaulted text default_spool_directory b fs "spool_directory";
    interval ← defaulted duration default_reload_interval b fs "config_reload_interval";
    Some (mkServerConfig listen tls body spool dir interval)).

Definition admin_codec : Codec AdminConfig := struct ["listen"; "bearer_token_env"; "expose_decisions"]
  (fun a => [("listen", encode address (admin_listen a)); ("bearer_token_env", encode (optional text) (bearer_token_env a));
             ("expose_decisions", encode flag (expose_decisions a))])
  (fun b fs =>
    listen ← required address b fs "listen"; env ← defaulted (optional text) None b fs "bearer_token_env";
    expose ← defaulted flag false b fs "expose_decisions"; Some (mkAdminConfig listen env expose)).

Definition coordinator_fields (c : CoordinatorConfig) : string * list (string * Doc) :=
  match c with
  | Memory => ("memory", [])
  | Valkey url_env lease_ttl => ("valkey", [("url_env", encode text url_env); ("lease_ttl", encode duration lease_ttl)])
  end.

Definition coordinator_codec : Codec CoordinatorConfig := tagged "type" coordinator_fields
  (fun v fs =>
    if String.eqb v "memory" then Some Memory
    else if String.eqb v "valkey" then
      variant ["url_env"; "lease_ttl"] (fun fs =>
        url_env ← required text true fs "url_env"; lease_ttl ← required duration true fs "lease_ttl"; Some (Valkey url_env lease_ttl)) fs
    else None).

Definition class_codec : Codec ServiceClassConfig := struct ["weight"; "default_deadline"; "max_queue"; "max_queued"]
  (fun c => [("weight", encode u32 (class_weight c)); ("default_deadline", encode duration (default_deadline c));
             ("max_queue", encode duration (max_queue c)); ("max_queued", encode usize (max_queued c))])
  (fun b fs =>
    weight ← required u32 b fs "weight"; deadline ← required duration b fs "default_deadline";
    queue ← required duration b fs "max_queue"; queued ← required usize b fs "max_queued";
    Some (mkServiceClassConfig weight deadline queue queued)).

Definition adapter_fields (a : ExternalAdapterConfig) : string * list (string * Doc) :=
  match a with
  | Unix path => ("unix", [("path", encode text path)])
  | Loopback uri => ("loopback", [("uri", encode text uri)])
  | Tls uri domain ca cert key =>
      ("tls", [("uri", encode text uri); ("domain", encode text domain); ("ca_file", encode text ca);
               ("client_cert_file", encode (optional text) cert); ("client_key_file", encode (optional text) key)])
  end.

Definition adapter_codec : Codec ExternalAdapterConfig := tagged "transport" adapter_fields
  (fun v fs =>
    if String.eqb v "unix" then variant ["path"] (fun fs => path ← required text true fs "path"; Some (Unix path)) fs
    else if String.eqb v "loopback" then variant ["uri"] (fun fs => uri ← required text true fs "uri"; Some (Loopback uri)) fs
    else if String.eqb v "tls" then
      variant ["uri"; "domain"; "ca_file"; "client_cert_file"; "client_key_file"] (fun fs =>
        uri ← required text true fs "uri"; domain ← required text true fs "domain"; ca ← required text true fs "ca_file";
        cert ← defaulted (optional text) None true fs "client_cert_file"; key ← defaulted (optional text) None true fs "client_key_file";
        Some (Tls uri domain ca cert key)) fs
    else None).

Definition auth_fields (a : AuthConfig) : string * list (string * Doc) :=
  match a with
  | NoAuth => ("none", [])
  | ApiKey env header => ("api-key", [("env", encode text env); ("header", encode text header)])
  | Bearer env => ("bearer", [("env", encode text env)])
  | Ambient => ("ambient", [])
  end.

Definition auth_codec : Codec AuthConfig := tagged "type" auth_fields
  (fun v fs =>
    if String.eqb v "none" then Some NoAuth
    else if String.eqb v "api-key" then
      variant ["env"; "header"] (fun fs =>
        env ← required text true fs "env"; header ← defaulted text default_auth_header true fs "header"; Some (ApiKey env header)) fs
    else if String.eqb v "bearer" then variant ["env"] (fun fs => env ← required text true fs "env"; Some (Bearer env)) fs
    else if String.eqb v "ambient" then Some Ambient
    else None).

Definition pool_codec : Codec PoolConfig := struct
  ["provider"; "endpoint"; "model"; "deployment"; "region"; "external_adapter"; "capacity_units"; "auth"; "allowed_hosts"; "initial_safety_factor"]
  (fun p => [("provider", encode provider_codec (provider p)); ("endpoint", encode text (endpoint p)); ("model", encode (optional text) (model p));
             ("deployment", encode (optional text) (deployment p)); ("region", encode (optional text) (region p));
             ("external_adapter", encode (optional adapter_codec) (external_adapter p)); ("capacity_units", encode double (capacity_units p));
             ("auth", encode auth_codec (auth p)); ("allowed_hosts", encode text_set (allowed_hosts p));
             ("initial_safety_factor", encode double (initial_safety_factor p))])
  (fun b fs =>
    kind ← required provider_codec b fs "provider"; endpoint ← required text b fs "endpoint";
    model ← defaulted (optional text) None b fs "model"; deployment ← defaulted (optional text) None b fs "deployment";
    region ← defaulted (optional text) None b fs "region"; adapter ← defaulted (optional adapter_codec) None b fs "external_adapter";
    capacity ← required double b fs "capacity_units"; auth ← defaulted auth_codec NoAuth b fs "auth";
    hosts ← defaulted text_set ∅ b fs "allowed_hosts"; safety ← defaulted double default_safety b fs "initial_safety_factor";
    Some (mkPoolConfig kind endpoint model deployment region adapter capacity auth hosts safety)).

Definition tenant_codec : Codec TenantPolicy := struct ["weight"; "guaranteed_share"; "max_share"; "max_concurrency"]
  (fun t => [("weight", encode u32 (tenant_weight t)); ("guaranteed_share", encode double (guaranteed_share t));
             ("max_share", encode double (max_share t)); ("max_concurrency", encode usize (tenant_max_concurrency t))])
  (fun b fs =>
    weight ← defaulted u32 one b fs "weight"; share ← defaulted double f_zero b fs "guaranteed_share";
    most ← defaulted double one_f64 b fs "max_share"; limit ← defaulted usize default_concurrency b fs "max_concurrency";
    Some (mkTenantPolicy weight share most limit)).

Definition application_codec : Codec ApplicationPolicy := struct ["tenant"; "allowed_classes"; "weight"; "max_concurrency"; "permitted_pools"]
  (fun a => [("tenant", encode text (app_tenant a)); ("allowed_classes", encode text_set (allowed_classes a)); ("weight", encode u32 (app_weight a));
             ("max_concurrency", encode usize (app_max_concurrency a)); ("permitted_pools", encode text_set (permitted_pools a))])
  (fun b fs =>
    tenant ← required text b fs "tenant"; classes ← required text_set b fs "allowed_classes"; weight ← defaulted u32 one b fs "weight";
    limit ← defaulted usize default_concurrency b fs "max_concurrency"; pools ← defaulted text_set ∅ b fs "permitted_pools";
    Some (mkApplicationPolicy tenant classes weight limit pools)).

Definition mapping_codec : Codec IdentityMapping := struct ["principal"; "tenant"; "application"]
  (fun m => [("principal", encode text (map_principal m)); ("tenant", encode text (map_tenant m)); ("application", encode text (map_application m))])
  (fun b fs =>
    principal ← required text b fs "principal"; tenant ← required text b fs "tenant"; application ← required text b fs "application";
    Some (mkIdentityMapping principal tenant application)).

Definition policies_codec : Codec Policies := struct ["tenants"; "applications"; "api_keys"]
  (fun p => [("tenants", encode (text_map tenant_codec) (tenants p)); ("applications", encode (text_map application_codec) (applications p));
             ("api_keys", encode (text_map mapping_codec) (api_keys p))])
  (fun b fs =>
    tenants ← defaulted (text_map tenant_codec) ∅ b fs "tenants"; applications ← defaulted (text_map application_codec) ∅ b fs "applications";
    keys ← defaulted (text_map mapping_codec) ∅ b fs "api_keys"; Some (mkPolicies tenants applications keys)).

Definition oidc_codec : Codec OidcConfig := struct
  ["issuer"; "audience"; "jwks_url"; "principal_claim"; "tenant_claim"; "application_claim"; "required"]
  (fun o => [("issuer", encode text (issuer o)); ("audience", encode text (audience o)); ("jwks_url", encode (optional text) (jwks_url o));
             ("principal_claim", encode text (principal_claim o)); ("tenant_claim", encode text (tenant_claim o));
             ("application_claim", encode text (application_claim o)); ("required", encode flag (oidc_required o))])
  (fun b fs =>
    issuer ← required text b fs "issuer"; audience ← required text b fs "audience"; jwks ← defaulted (optional text) None b fs "jwks_url";
    principal ← defaulted text default_subject_claim b fs "principal_claim"; tenant ← defaulted text default_tenant_claim b fs "tenant_claim";
    application ← defaulted text default_application_claim b fs "application_claim"; req ← defaulted flag false b fs "required";
    Some (mkOidcConfig issuer audience jwks principal tenant application req)).

Definition headers_codec : Codec TrustedIdentityHeaders := struct ["principal"; "tenant"; "application"; "client_cert_san"]
  (fun h => [("principal", encode text (principal_header h)); ("tenant", encode text (tenant_header h));
             ("application", encode text (application_header h)); ("client_cert_san", encode text (client_cert_san h))])
  (fun b fs =>
    principal ← defaulted text default_principal_header b fs "principal"; tenant ← defaulted text default_tenant_header b fs "tenant";
    application ← defaulted text default_application_header b fs "application";
    san ← defaulted text default_client_san_header b fs "client_cert_san"; Some (mkTrustedIdentityHeaders principal tenant application san)).

Definition identity_codec : Codec IdentityConfig := struct
  ["oidc"; "trusted_proxy_cidrs"; "trusted_headers"; "mtls_san_mappings"; "mtls_certificate_sha256_mappings"]
  (fun i => [("oidc", encode (optional oidc_codec) (oidc i)); ("trusted_proxy_cidrs", encode (listed text) (trusted_proxy_cidrs i));
             ("trusted_headers", encode headers_codec (trusted_headers i)); ("mtls_san_mappings", encode (text_map mapping_codec) (mtls_san_mappings i));
             ("mtls_certificate_sha256_mappings", encode (text_map mapping_codec) (mtls_certificate_sha256_mappings i))])
  (fun b fs =>
    oidc ← defaulted (optional oidc_codec) None b fs "oidc"; cidrs ← defaulted (listed text) [] b fs "trusted_proxy_cidrs";
    headers ← defaulted headers_codec default_trusted_headers b fs "trusted_headers"; sans ← defaulted (text_map mapping_codec) ∅ b fs "mtls_san_mappings";
    certificates ← defaulted (text_map mapping_codec) ∅ b fs "mtls_certificate_sha256_mappings";
    Some (mkIdentityConfig oidc cidrs headers sans certificates)).

Definition limits_codec : Codec Limits := struct
  ["total_queue_depth"; "total_queue_bytes"; "decision_history"; "expected_replicas"; "allow_unsafe_uncoordinated_ha"]
  (fun l => [("total_queue_depth", encode usize (total_queue_depth l)); ("total_queue_bytes", encode usize (total_queue_bytes l));
             ("decision_history", encode usize (decision_history l)); ("expected_replicas", encode usize (expected_replicas l));
             ("allow_unsafe_uncoordinated_ha", encode flag (allow_unsafe_uncoordinated_ha l))])
  (fun b fs =>
    depth ← defaulted usize default_queue_depth b fs "total_queue_depth"; bytes ← defaulted usize default_queue_bytes b fs "total_queue_bytes";
    history ← defaulted usize default_decisions b fs "decision_history"; replicas ← defaulted usize default_replicas b fs "expected_replicas";
    unsafe ← defaulted flag false b fs "allow_unsafe_uncoordinated_ha"; Some (mkLimits depth bytes history replicas unsafe)).

Definition config_codec : Codec Config := struct
  ["apiVersion"; "kind"; "mode"; "server"; "admin"; "coordinator"; "service_classes"; "pools"; "policies"; "identity"; "limits"]
  (fun c => [("apiVersion", encode text (api_version c)); ("kind", encode text (kind c)); ("mode", encode mode_codec (mode c));
             ("server", encode server_codec (server c)); ("admin", encode admin_codec (admin c));
             ("coordinator", encode coordinator_codec (coordinator c)); ("service_classes", encode (text_map class_codec) (service_classes c));
             ("pools", encode (text_map pool_codec) (pools c)); ("policies", encode policies_codec (policies c));
             ("identity", encode identity_codec (identity_config c)); ("limits", encode limits_codec (limits c))])
  (fun b fs =>
    version ← required text b fs "apiVersion"; kind ← required text b fs "kind"; mode ← defaulted mode_codec Shadow b fs "mode";
    server ← required server_codec b fs "server"; admin ← required admin_codec b fs "admin";
    coordinator ← defaulted coordinator_codec Memory b fs "coordinator"; classes ← required (text_map class_codec) b fs "service_classes";
    pools ← required (text_map pool_codec) b fs "pools"; policies ← defaulted policies_codec default_policies b fs "policies";
    identity ← defaulted identity_codec default_identity b fs "identity"; limits ← defaulted limits_codec default_limits b fs "limits";
    Some (mkConfig version kind mode server admin coordinator classes pools policies identity limits)).
End codecs.
