(* ===== verification/ConfigSerdeThms.v ===== *)
(** * What the configuration's documents promise

    Reading a written configuration gives it back; no setting of a file is
    dropped on the way in, the fields beside the tag of a unit variant apart;
    and the comparison of two configurations as JSON values, which the reload
    makes, is equality. *)

From stdpp Require Import base gmap strings list sorting.
From Stdlib Require Import ZArith Lia String Ascii SpecFloat.
From S2P Require Import Prelude Rounding F64 F64Facts F64Text Core Config Serde ConfigSerde Admission.

Open Scope string_scope.
Open Scope Z_scope.

(** ** No setting is dropped *)

Create HintDb codecs.

(** The fields of a struct, one after the other. *)
Ltac keep_fields :=
  let E := fresh "E" in let d := fresh "d" in let He := fresh "He" in
  intros ? ? E; repeat (apply bind_Some in E as (? & ? & E)); injection E as <-;
  repeat (apply Forall_cons_2; [intros d He | ]); [.. | apply Forall_nil_2];
  (eexists; split; cycle 1;
   [first [eapply required_kept; [ | | exact He]; [ | eassumption]; apply _ | eapply defaulted_kept; [ | | exact He]; [ | eassumption]; apply _]
   | repeat first [apply list_elem_of_here | apply list_elem_of_further]]).

Section keeps.
Context {SC : Scalars} {TF : TextForms}.

#[export] Instance tls_keeps : Keeps tls_codec.
Proof. apply struct_keeps. intros b. keep_fields. Qed.
#[export] Instance server_keeps : Keeps server_codec.
Proof. apply struct_keeps. intros b. keep_fields. Qed.
#[export] Instance admin_keeps : Keeps admin_codec.
Proof. apply struct_keeps. intros b. keep_fields. Qed.
#[export] Instance class_keeps : Keeps class_codec.
Proof. apply struct_keeps. intros b. keep_fields. Qed.
#[export] Instance tenant_keeps : Keeps tenant_codec.
Proof. apply struct_keeps. intros b. keep_fields. Qed.
#[export] Instance application_keeps : Keeps application_codec.
Proof. apply struct_keeps. intros b. keep_fields. Qed.
#[export] Instance mapping_keeps : Keeps mapping_codec.
Proof. apply struct_keeps. intros b. keep_fields. Qed.
#[export] Instance policies_keeps : Keeps policies_codec.
Proof. apply struct_keeps. intros b. keep_fields. Qed.
#[export] Instance oidc_keeps : Keeps oidc_codec.
Proof. apply struct_keeps. intros b. keep_fields. Qed.
#[export] Instance headers_keeps : Keeps headers_codec.
Proof. apply struct_keeps. intros b. keep_fields. Qed.
#[export] Instance identity_keeps : Keeps identity_codec.
Proof. apply struct_keeps. intros b. keep_fields. Qed.
#[export] Instance limits_keeps : Keeps limits_codec.
Proof. apply struct_keeps. intros b. keep_fields. Qed.

#[export] Instance coordinator_keeps : Keeps coordinator_codec.
Proof.
  apply tagged_keeps. intros v fields a. repeat case_match; try done; try (intros [= <-]; by left).
  intros E. right. revert E. apply (variant_keeps _ (fun a => snd (coordinator_fields a))). keep_fields.
Qed.

#[export] Instance adapter_keeps : Keeps adapter_codec.
Proof.
  apply tagged_keeps. intros v fields a. repeat case_match; try done;
    (intros E; right; revert E; apply (variant_keeps _ (fun a => snd (adapter_fields a))); keep_fields).
Qed.

#[export] Instance auth_keeps : Keeps auth_codec.
Proof.
  apply tagged_keeps. intros v fields a. repeat case_match; try done; try (intros [= <-]; by left);
    (intros E; right; revert E; apply (variant_keeps _ (fun a => snd (auth_fields a))); keep_fields).
Qed.

#[export] Instance pool_keeps : Keeps pool_codec.
Proof. apply struct_keeps. intros b. keep_fields. Qed.
#[export] Instance config_keeps : Keeps config_codec.
Proof. apply struct_keeps. intros b. keep_fields. Qed.
End keeps.

(** ** Reading undoes writing *)

(** The ranges of the types. *)
Section typed.
Context {TF : TextForms}.

Definition server_typed (s : ServerConfig) : Prop :=
  addr_ok (server_listen s) /\ in_u64 (max_body_bytes s) /\ in_u64 (spool_threshold_bytes s) /\ duration_ok (config_reload_interval s).
Definition admin_typed (a : AdminConfig) : Prop := addr_ok (admin_listen a).
Definition coordinator_typed (c : CoordinatorConfig) : Prop := match c with Memory => True | Valkey _ t => duration_ok t end.
Definition class_typed (c : ServiceClassConfig) : Prop :=
  in_u32 (class_weight c) /\ duration_ok (default_deadline c) /\ duration_ok (max_queue c) /\ in_u64 (max_queued c).
#[export] Instance class_typed_dec c : Decision (class_typed c). Proof. unfold class_typed. apply _. Defined.
Definition pool_finite (p : PoolConfig) : Prop := is_finite (capacity_units p) = true /\ is_finite (initial_safety_factor p) = true.
Definition tenant_typed (t : TenantPolicy) : Prop :=
  (in_u32 (tenant_weight t) /\ in_u64 (tenant_max_concurrency t)) /\ is_finite (guaranteed_share t) = true /\ is_finite (max_share t) = true.
Definition application_typed (a : ApplicationPolicy) : Prop := in_u32 (app_weight a) /\ in_u64 (app_max_concurrency a).
#[export] Instance application_typed_dec a : Decision (application_typed a). Proof. unfold application_typed. apply _. Defined.
Definition policies_typed (p : Policies) : Prop :=
  map_Forall (fun _ => tenant_typed) (tenants p) /\ map_Forall (fun _ => application_typed) (applications p).
Definition limits_typed (l : Limits) : Prop :=
  in_u64 (total_queue_depth l) /\ in_u64 (total_queue_bytes l) /\ in_u64 (decision_history l) /\ in_u64 (expected_replicas l).
Definition config_typed (c : Config) : Prop :=
  server_typed (server c) /\ admin_typed (admin c) /\ coordinator_typed (coordinator c) /\
  map_Forall (fun _ => class_typed) (service_classes c) /\ map_Forall (fun _ => pool_finite) (pools c) /\
  policies_typed (policies c) /\ limits_typed (limits c).

(** The ranges alone: what the types of the source guarantee. *)
Definition in_range (c : Config) : Prop :=
  server_typed (server c) /\ admin_typed (admin c) /\ coordinator_typed (coordinator c) /\
  map_Forall (fun _ => class_typed) (service_classes c) /\
  map_Forall (fun _ t => in_u32 (tenant_weight t) /\ in_u64 (tenant_max_concurrency t)) (tenants (policies c)) /\
  map_Forall (fun _ => application_typed) (applications (policies c)) /\ limits_typed (limits c).
End typed.

Lemma any_all {A} (l : list A) : Forall any l.
Proof. by apply Forall_forall. Qed.
Lemma any_map {A} (m : gmap string A) : map_Forall (fun _ => any) m.
Proof. done. Qed.
Lemma any_some {A} (o : option A) : when_some any o.
Proof. done. Qed.
#[export] Hint Resolve any_all any_map any_some : codecs.
#[export] Hint Extern 0 (any _) => exact I : codecs.

(** Each field is read from where it was written. *)
Ltac read_fields :=
  cbn [entry String.eqb Ascii.eqb Bool.eqb andb mbind option_bind fst snd required defaulted]; unfold required, defaulted;
  cbn [entry String.eqb Ascii.eqb Bool.eqb andb mbind option_bind fst snd];
  repeat (rewrite faithful by (done || eauto with codecs); cbn [mbind option_bind]).

Section faithful.
Context {SC : Scalars} {TF : TextForms} {SL : ScalarLaws} {TL : TextLaws}.

#[export] Instance duration_faithful : Faithful duration duration_ok.
Proof. apply textual_faithful, duration_text. Qed.
#[export] Instance address_faithful : Faithful address addr_ok.
Proof. apply textual_faithful, addr_text. Qed.
#[export] Instance mode_faithful : Faithful mode_codec any.
Proof. apply variants_faithful; [by intros [] [] | intros []; set_solver]. Qed.
#[export] Instance provider_faithful : Faithful provider_codec any.
Proof. apply variants_faithful; [by intros [] [] | intros []; set_solver]. Qed.

#[export] Instance tls_faithful : Faithful tls_codec any.
Proof. apply struct_faithful; [done|]. intros b [] _. read_fields. done. Qed.
#[export] Instance server_faithful : Faithful server_codec server_typed.
Proof. apply struct_faithful; [done|]. intros b [] (? & ? & ? & ?). read_fields. done. Qed.
#[export] Instance admin_faithful : Faithful admin_codec admin_typed.
Proof. apply struct_faithful; [done|]. intros b [] ?. read_fields. done. Qed.
#[export] Instance coordinator_faithful : Faithful coordinator_codec coordinator_typed.
Proof.
  apply tagged_faithful; intros [|u t]; cbn [coordinator_typed coordinator_fields fst snd]; try done.
  - intros _. by repeat apply Forall_cons_2; [.. | apply Forall_nil_2].
  - intros H. unfold variant. read_fields. done.
Qed.
#[export] Instance class_faithful : Faithful class_codec class_typed.
Proof. apply struct_faithful; [done|]. intros b [] (? & ? & ? & ?). read_fields. done. Qed.
#[export] Instance adapter_faithful : Faithful adapter_codec any.
Proof.
  apply tagged_faithful; intros []; intros _; cbn [adapter_fields fst snd]; try (by repeat apply Forall_cons_2; [.. | apply Forall_nil_2]);
    unfold variant; read_fields; done.
Qed.
#[export] Instance auth_faithful : Faithful auth_codec any.
Proof.
  apply tagged_faithful; intros []; intros _; cbn [auth_fields fst snd]; try done; try (by repeat apply Forall_cons_2; [.. | apply Forall_nil_2]);
    unfold variant; read_fields; done.
Qed.
#[export] Instance pool_faithful : Faithful pool_codec pool_finite.
Proof. apply struct_faithful; [done|]. intros b [] [? ?]. read_fields. done. Qed.
#[export] Instance tenant_faithful : Faithful tenant_codec tenant_typed.
Proof. apply struct_faithful; [done|]. intros b [] ([? ?] & ? & ?). read_fields. done. Qed.
#[export] Instance application_faithful : Faithful application_codec application_typed.
Proof. apply struct_faithful; [done|]. intros b [] [? ?]. read_fields. done. Qed.
#[export] Instance mapping_faithful : Faithful mapping_codec any.
Proof. apply struct_faithful; [done|]. intros b [] _. read_fields. done. Qed.
#[export] Instance policies_faithful : Faithful policies_codec policies_typed.
Proof. apply struct_faithful; [done|]. intros b [] [? ?]. read_fields. done. Qed.
#[export] Instance oidc_faithful : Faithful oidc_codec any.
Proof. apply struct_faithful; [done|]. intros b [] _. read_fields. done. Qed.
#[export] Instance headers_faithful : Faithful headers_codec any.
Proof. apply struct_faithful; [done|]. intros b [] _. read_fields. done. Qed.
#[export] Instance identity_faithful : Faithful identity_codec any.
Proof. apply struct_faithful; [done|]. intros b [] _. read_fields. done. Qed.
#[export] Instance limits_faithful : Faithful limits_codec limits_typed.
Proof. apply struct_faithful; [done|]. intros b [] (? & ? & ? & ?). read_fields. done. Qed.
#[export] Instance config_faithful : Faithful config_codec config_typed.
Proof. apply struct_faithful; [done|]. intros b [] (? & ? & ? & ? & ? & ? & ?). read_fields. done. Qed.
End faithful.

(** ** Validated configurations *)

Lemma f_in_finite lo hi x : is_finite lo = true -> is_finite hi = true -> f_in lo hi x = true -> is_finite x = true.
Proof.
  intros Fl Fh. unfold f_in, f_le. destruct x as [|[]| |]; cbn [is_finite]; try done.
  - destruct lo as [| | |[]]; try done; cbn; by intros [= ]%andb_true_iff.
  - destruct hi as [| | |[]]; try done; rewrite andb_true_iff; intros [_ E]; by cbn in E.
  - rewrite andb_true_iff. intros [_ E]. by destruct hi.
Qed.

Lemma validated_typed `{TextForms} parse_cidr parse_url c : well_formed parse_cidr parse_url c -> in_range c -> config_typed c.
Proof.
  intros [_ _ _ _ _ _ HC HS _ _ _ _ _ _] (H1 & H2 & H3 & H4 & H5 & H6 & H7). split_and!; try done.
  - intros n p Hp. destruct (HC n p Hp) as (F & _ & I). split; [done|]. by apply f_in_finite in I.
  - split; [|done]. intros n t Ht. destruct (HS n t Ht) as [I1 I2]. specialize (H5 n t Ht). cbn beta in H5.
    assert (F : is_finite (guaranteed_share t) = true) by (by apply f_in_finite in I1). split_and!; try done; try apply H5. by apply f_in_finite in I2.
Qed.

(** C19: A configuration that passes validation survives being written and read:
    in any format whose scalars can be read back, deserializing its document
    gives the same configuration, every map, set, option and default included. *)
Theorem validated_roundtrip {SC : Scalars} {TF : TextForms} {SL : ScalarLaws} {TL : TextLaws} parse_cidr parse_url c :
  validate parse_cidr parse_url c = Ok tt -> in_range c -> decode config_codec false (encode config_codec c) = Some c.
Proof. intros HV HR. apply validate_ok_iff in HV. apply faithful. by apply (validated_typed parse_cidr parse_url). Qed.


(** A section that is there but empty is the same as one that is left out: the
    [Default] of a struct agrees with the defaults of its fields. *)
Lemma empty_is_default {SC : Scalars} {TF : TextForms} b :
  decode limits_codec b (Mapping []) = Some default_limits /\ decode policies_codec b (Mapping []) = Some default_policies /\
  decode identity_codec b (Mapping []) = Some default_identity /\ decode headers_codec b (Mapping []) = Some default_trusted_headers.
Proof. done. Qed.

(** A field next to the tag of a variant without fields is accepted, whatever it
    is. *)
Lemma unit_variant_ignores {SC : Scalars} {TF : TextForms} {SL : ScalarLaws} b name d : name <> "type" ->
  decode auth_codec b (Mapping [("type", encode text "ambient"); (name, d)]) = Some Ambient /\
  decode coordinator_codec b (Mapping [("type", encode text "memory"); (name, d)]) = Some Memory.
Proof.
  intros N. unfold auth_codec, coordinator_codec, tagged. cbn [decode].
  split; rewrite (filter_cons_True _ ("type", _)), (filter_cons_False _ (name, _)) by done;
    change (filter _ (@nil (string * Doc))) with (@nil (string * Doc)); cbn iota beta; rewrite (faithful true) by exact I; reflexivity.
Qed.
