(* ===== verification/ReloadCompare.v ===== *)
(** * The comparison of two configurations ([ensure_reload_compatible])

    The source serializes six parts of both configurations with
    [serde_json::to_value] and compares the values; [Admission] compares the
    parts.  The two agree: serialization to JSON loses nothing of a validated
    configuration, and equal numbers in it are the same doubles. *)

From stdpp Require Import base gmap strings list sorting.
From Stdlib Require Import ZArith Lia String Ascii SpecFloat.
From S2P Require Import Prelude Rounding F64 F64Facts F64Text Json Core Config Serde ConfigSerde ConfigSerdeThms Admission.

Open Scope string_scope.
Open Scope Z_scope.

(** ** JSON scalars *)

Inductive JsonScalar : Type :=
| JNull
| JBool (b : bool)
| JNumber (n : Number)
| JText (s : string).

(** [serde_json]'s numbers: an integer may be read as a double, and a double
    that is not finite is written as [null]. *)
Definition number_f64 (n : Number) : f64 := match n with PosInt n | NegInt n => f_of_Z n | Float x => x end.

#[export] Instance json_scalars : Scalars := {|
  Scalar := JsonScalar;
  write_null := JNull;
  is_null s := match s with JNull => true | _ => false end;
  write_text := JText;
  read_text _ s := match s with JText t => Some t | _ => None end;
  write_u64 n := JNumber (PosInt n);
  read_u64 s := match s with JNumber (PosInt n) => if (0 <=? n) && (n <? 2 ^ 64) then Some n else None | _ => None end;
  write_f64 x := if is_finite x then JNumber (Float x) else JNull;
  read_f64 s := match s with JNumber n => Some (number_f64 n) | _ => None end;
  write_bool := JBool;
  read_bool s := match s with JBool b => Some b | _ => None end
|}.

#[export] Instance json_scalar_laws : ScalarLaws.
Proof.
  constructor; try done.
  - intros n [L U]. cbn -[Z.pow]. by rewrite (proj2 (Z.leb_le _ _) L), (proj2 (Z.ltb_lt _ _) U).
  - intros [| |[n|n|x]|] m; cbn -[Z.pow]; try done. destruct ((0 <=? n) && (n <? 2 ^ 64)) eqn:E; [|done]. intros [= <-].
    apply andb_true_iff in E as [?%Z.leb_le ?%Z.ltb_lt]. by split.
  - intros x F. cbn. by rewrite F.
Qed.

(** [PartialEq] of [serde_json::Value]; objects are ordered maps, and the entries
    of both sides come in the order of the fields. *)
Definition number_eqb (a b : Number) : bool :=
  match a, b with
  | PosInt n, PosInt m | NegInt n, NegInt m => n =? m
  | Float x, Float y => f_eq x y
  | _, _ => false
  end.
Definition scalar_eqb (a b : JsonScalar) : bool :=
  match a, b with
  | JNull, JNull => true
  | JBool x, JBool y => Bool.eqb x y
  | JNumber n, JNumber m => number_eqb n m
  | JText s, JText t => String.eqb s t
  | _, _ => false
  end.
Fixpoint doc_eqb (d e : Doc) : bool :=
  match d, e with
  | Leaf s, Leaf t => scalar_eqb s t
  | Seq l, Seq l' =>
      (fix go l l' := match l, l' with [], [] => true | x :: l, y :: l' => doc_eqb x y && go l l' | _, _ => false end) l l'
  | Mapping l, Mapping l' =>
      (fix go (l l' : list (string * Doc)) :=
         match l, l' with
         | [], [] => true
         | (k, x) :: l, (k', y) :: l' => String.eqb k k' && doc_eqb x y && go l l'
         | _, _ => false
         end) l l'
  | _, _ => false
  end.

(** ** The comparison *)

Section compare.
Context {TF : TextForms}.

(** The tuple [ensure_reload_compatible] serializes. *)
Definition key_json (c : Config) : Doc :=
  Seq [encode address (server_listen (server c)); encode (optional tls_codec) (tls (server c)); encode address (admin_listen (admin c));
       encode coordinator_codec (coordinator c); encode (text_map pool_codec) (pools c); encode (optional oidc_codec) (oidc (identity_config c))].

(** Its comparison of the two values. *)
Definition json_compatible (current new : Config) : bool := doc_eqb (key_json current) (key_json new).

End compare.

(** ** Equal values are the same *)

(** A double that equals only itself. *)
Definition plain_double (x : f64) : Prop := fin x /\ ext x <> 0.

Lemma f_eq_plain x y : plain_double x -> plain_double y -> f_eq x y = true <-> x = y.
Proof.
  intros [Fx Zx] [Fy Zy]. pose proof (fin_num x Fx) as [Vx Nx]. pose proof (fin_num y Fy) as [Vy Ny].
  unfold f_eq, SFeqb. rewrite f_cmp_ext by done. destruct (Z.compare_spec (ext x) (ext y)) as [E | L | L].
  - split; [intros _ | done]. destruct Fx as [_ Fx], Fy as [_ Fy]. destruct x, y; try done. by apply ext_inj.
  - split; [done | intros ->; lia].
  - split; [done | intros ->; lia].
Qed.

Inductive plain : Doc -> Prop :=
| plain_leaf s : (forall x, s = JNumber (Float x) -> plain_double x) -> plain (Leaf s)
| plain_seq l : Forall plain l -> plain (Seq l)
| plain_mapping fields : Forall (fun f => plain f.2) fields -> plain (Mapping fields).

Lemma scalar_eqb_iff s t : plain (Leaf s) -> plain (Leaf t) -> scalar_eqb s t = true <-> s = t.
Proof.
  intros Ps Pt. inversion Ps as [? Hs | |]; inversion Pt as [? Ht | |]; subst.
  destruct s as [| |[n|n|x]|], t as [| |[m|m|y]|]; cbn; try (split; done).
  - rewrite eqb_true_iff. split; [by intros -> | by intros [= ->]].
  - rewrite Z.eqb_eq. split; [by intros -> | by intros [= ->]].
  - rewrite Z.eqb_eq. split; [by intros -> | by intros [= ->]].
  - rewrite f_eq_plain by auto. split; [by intros -> | by intros [= ->]].
  - rewrite String.eqb_eq. split; [by intros -> | by intros [= ->]].
Qed.

Lemma doc_eqb_iff d e : plain d -> plain e -> doc_eqb d e = true <-> d = e.
Proof.
  revert e. induction d as [s | l IH | l IH] using doc_ind; intros [t | l' | l'] Pd Pe; cbn [doc_eqb]; try (split; done).
  - rewrite scalar_eqb_iff by done. split; [by intros -> | by intros [= ->]].
  - inversion Pd as [|? Hd |]; inversion Pe as [|? He |]; subst. transitivity (l = l'); [|split; [by intros -> | by intros [= ->]]].
    clear Pd Pe. revert l' He. induction IH as [|d l Id _ IH]; intros [|e l'] He; try (split; done).
    apply Forall_cons in Hd as [Hd Hl], He as [He Hl']. rewrite andb_true_iff, Id, (IH Hl l' Hl') by done. split; [by intros [-> ->] | by intros [= -> ->]].
  - inversion Pd as [| |? Hd]; inversion Pe as [| |? He]; subst. transitivity (l = l'); [|split; [by intros -> | by intros [= ->]]].
    clear Pd Pe. revert l' He. induction IH as [|[k d] l Id _ IH]; intros [|[k' e] l'] He; try (split; done).
    apply Forall_cons in Hd as [Hd Hl], He as [He Hl']. cbn in Id, Hd, He. rewrite !andb_true_iff, String.eqb_eq, Id, (IH Hl l' Hl') by done.
    split; [by intros [[-> ->] ->] | by intros [= -> -> ->]].
Qed.

(** ** The parts compared *)

Class Plain {A} (c : Codec A) (ok : A -> Prop) : Prop := encode_plain a : ok a -> plain (encode c a).

Ltac plain_fields :=
  apply plain_mapping; repeat apply Forall_cons_2; [.. | apply Forall_nil_2]; cbn [snd]; eapply encode_plain; (done || eauto with codecs).

#[local] Instance text_plain : Plain text any.
Proof. by constructor. Qed.
#[local] Instance flag_plain : Plain flag any.
Proof. by constructor. Qed.
#[local] Instance textual_plain {A} (show : A -> string) parse : Plain (textual show parse) any.
Proof. by constructor. Qed.
#[local] Instance double_plain : Plain double plain_double.
Proof. intros x [[V F] N]. cbn. rewrite F. constructor. by intros y [= <-]. Qed.
#[local] Instance optional_plain {A} (c : Codec A) ok `{!Plain c ok} : Plain (optional c) (when_some ok).
Proof. intros [a|] H; cbn; [by apply (encode_plain a), H | by constructor]. Qed.
#[local] Instance listed_plain {A} (c : Codec A) ok `{!Plain c ok} : Plain (listed c) (Forall ok).
Proof. intros l H. constructor. apply Forall_fmap. by eapply Forall_impl; [exact H|]. Qed.
#[local] Instance text_set_plain : Plain text_set any.
Proof. intros s _. apply (encode_plain (c := listed text)). by apply Forall_forall. Qed.
#[local] Instance text_map_plain {A} (c : Codec A) ok `{!Plain c ok} : Plain (text_map c) (map_Forall (fun _ => ok)).
Proof.
  intros m H. constructor. apply Forall_fmap, Forall_forall. intros [k a] Hk%elem_of_btree_iter. cbn. by apply (encode_plain a), (H k a).
Qed.

Section parts.
Context {TF : TextForms}.

#[local] Instance tls_plain : Plain tls_codec any.
Proof. intros [] _. plain_fields. Qed.
#[local] Instance oidc_plain : Plain oidc_codec any.
Proof. intros [] _. plain_fields. Qed.
#[local] Instance coordinator_plain : Plain coordinator_codec any.
Proof. intros [] _; plain_fields. Qed.
#[local] Instance adapter_plain : Plain adapter_codec any.
Proof. intros [] _; plain_fields. Qed.
#[local] Instance auth_plain : Plain auth_codec any.
Proof. intros [] _; plain_fields. Qed.
#[local] Instance pool_plain : Plain pool_codec (fun p => plain_double (capacity_units p) /\ plain_double (initial_safety_factor p)).
Proof. intros [] [? ?]. plain_fields. Qed.

(** The doubles of the pools are doubles. *)
Definition pool_doubles (c : Config) : Prop := map_Forall (fun _ p => valid (capacity_units p) /\ valid (initial_safety_factor p)) (pools c).

Lemma validated_plain parse_cidr parse_url c : well_formed parse_cidr parse_url c -> pool_doubles c ->
  map_Forall (fun _ p => plain_double (capacity_units p) /\ plain_double (initial_safety_factor p)) (pools c).
Proof.
  intros WF HD n p Hp. destruct (HD n p Hp) as [Vc Vs]. destruct (wf_capacity _ _ _ WF n p Hp) as (F & L & I). pose proof ONE_pos.
  split; (split; [split; [done|]|]); [done | | by apply f_in_finite in I |].
  - rewrite le_num in L by (by split; [|destruct (capacity_units p)]). apply Z.leb_gt in L. change (ext f_zero) with 0 in L. lia.
  - apply f_in_spec in I as (_ & _ & _ & B); [|done..]. rewrite ext_f_one in B. lia.
Qed.

Lemma key_plain parse_cidr parse_url c : well_formed parse_cidr parse_url c -> pool_doubles c -> plain (key_json c).
Proof.
  intros WF HD. pose proof (validated_plain _ _ c WF HD). constructor.
  repeat apply Forall_cons_2; [.. | apply Forall_nil_2]; eapply encode_plain; (done || eauto with codecs).
Qed.

Let part (i : nat) (d : Doc) : Doc := match d with Seq l => nth i l d | _ => d end.

Lemma key_json_inj `{!TextLaws} c c' : config_typed c -> config_typed c' -> key_json c = key_json c' -> reload_key c = reload_key c'.
Proof.
  intros ((S1 & _) & A1 & C1 & _ & P1 & _) ((S2 & _) & A2 & C2 & _ & P2 & _) E.
  assert (EP : forall i, part i (key_json c) = part i (key_json c')) by (intros i; by rewrite E). unfold reload_key.
  rewrite (encode_inj address addr_ok _ _ S1 S2 (EP 0%nat)), (encode_inj (optional tls_codec) _ _ _ (any_some _) (any_some _) (EP 1%nat)),
    (encode_inj address addr_ok _ _ A1 A2 (EP 2%nat)), (encode_inj coordinator_codec _ _ _ C1 C2 (EP 3%nat)),
    (encode_inj (text_map pool_codec) _ _ _ P1 P2 (EP 4%nat)), (encode_inj (optional oidc_codec) _ _ _ (any_some _) (any_some _) (EP 5%nat)).
  done.
Qed.

Lemma key_json_of_key c c' : reload_key c = reload_key c' -> key_json c = key_json c'.
Proof. unfold reload_key, key_json. by intros [= -> -> -> -> -> ->]. Qed.

(** C21: The comparison of the JSON values of two validated configurations, which
    decides whether a reload is applied, is equality of the listeners, TLS
    files, coordinator, pools and OIDC settings: a difference in any of them is
    seen, and equal ones are never taken for different. *)
Theorem reload_comparison_exact `{!TextLaws} parse_cidr parse_url current new :
  validate parse_cidr parse_url current = Ok tt -> validate parse_cidr parse_url new = Ok tt ->
  in_range current -> in_range new -> pool_doubles current -> pool_doubles new ->
  is_ok (ensure_reload_compatible current new) = json_compatible current new.
Proof.
  intros V1 V2 R1 R2 D1 D2. apply validate_ok_iff in V1, V2. unfold ensure_reload_compatible, json_compatible.
  pose proof (doc_eqb_iff _ _ (key_plain _ _ _ V1 D1) (key_plain _ _ _ V2 D2)) as HE. case_bool_decide as K; cbn [is_ok].
  - symmetry. by apply HE, key_json_of_key.
  - symmetry. apply not_true_iff_false. rewrite HE. intros E. apply K. by apply key_json_inj; [eapply validated_typed..|].
Qed.
End parts.

(** ** Witnesses *)

(** Text forms for the example. *)
Definition ex_addresses : list SocketAddr := [mkSocketAddr "127.0.0.1" 8080; mkSocketAddr "127.0.0.1" 9090].
Definition ex_show_addr (a : SocketAddr) : string := ip a +:+ ":" +:+ decimal (port a).
Definition ex_parse_duration (s : string) : option Duration :=
  match take_digits 0 0 s with (n, S _, EmptyString) => Some n | _ => None end.

#[local] Instance ex_forms : TextForms := {|
  show_duration := decimal;
  parse_duration := ex_parse_duration;
  show_addr := ex_show_addr;
  parse_addr s := head (filter (fun a => ex_show_addr a = s) ex_addresses);
  addr_ok a := a ∈ ex_addresses;
  temp_dir := "/tmp"
|}.

#[local] Instance ex_forms_laws : TextLaws.
Proof.
  constructor.
  - intros d [Hd _]. cbn. unfold ex_parse_duration, decimal. destruct (take_decimal d EmptyString Hd I) as [n ->]. done.
  - intros a Ha. cbn in Ha. unfold ex_addresses in Ha. rewrite !elem_of_cons, elem_of_nil in Ha. by destruct Ha as [-> | [-> | []]].
Qed.

Lemma ex_in_range : in_range ex_config.
Proof.
  split; [split_and!; [by left | done..]|]. split; [by right; left|]. split; [done|].
  split_and!; [ | | | by split_and!]; apply (bool_decide_eq_true_1 _); vm_compute; reflexivity.
Qed.

Lemma ex_pool_doubles : pool_doubles ex_config.
Proof. apply map_Forall_singleton. by split. Qed.

(** The same with another listener. *)
Definition ex_moved : Config :=
  mkConfig (api_version ex_config) (kind ex_config) (mode ex_config)
    (mkServerConfig (mkSocketAddr "127.0.0.1" 9090) None 1000 100 "/tmp" (from_secs 2)) (admin ex_config) (coordinator ex_config)
    (service_classes ex_config) (pools ex_config) (policies ex_config) (identity_config ex_config) (limits ex_config).

Lemma ex_moved_in_range : in_range ex_moved.
Proof. destruct ex_in_range as (_ & H). split; [|exact H]. split_and!; [by right; left | done..]. Qed.

Lemma reload_comparison_exact_witness : is_ok (ensure_reload_compatible ex_config ex_moved) = json_compatible ex_config ex_moved.
Proof.
  apply (reload_comparison_exact (fun _ => Ok tt) (fun _ => Err "no url"));
    [vm_compute; reflexivity | vm_compute; reflexivity | exact ex_in_range | exact ex_moved_in_range | exact ex_pool_doubles | exact ex_pool_doubles].
Defined.

Lemma validated_roundtrip_witness : decode config_codec false (encode config_codec ex_config) = Some ex_config.
Proof. apply (validated_roundtrip (fun _ => Ok tt) (fun _ => Err "no url")); [vm_compute; reflexivity | exact ex_in_range]. Defined.

