(* ===== verification/Proxy.v ===== *)
(** * The proxy's request path (crates/proxy)

    [App] is the shared state behind [AppState].  The handler of a request is
    split where it waits: [handle_start] (from the first check to a response,
    an immediate admission or an enqueued request), [insert_pending] (the
    registration of the queued request, a separate critical section),
    [receive]/[expire] (the end of the wait), [activate] (the guard and the
    decision record), and the two ways a guard ends, [complete] and
    [drop_guard].  [dispatcher_tick] is one iteration of the dispatcher loop.

    A one-shot channel is a number: its receiver is alive while the number is
    in [receivers]; a delivered value waits in [delivered].

    Parameters of the handler stand for the code outside the crate: the
    provider's estimate and dispatch, identity resolution (see [Identity]),
    spooling of the body, UUID parsing. *)

From stdpp Require Import base gmap strings countable sorting pretty list.
From Stdlib Require Import ZArith Lia SpecFloat Ascii.
From S2P Require Import Prelude Rounding F64 F64Facts Core Scheduler SchedulerInv Capacity Coordinator Config Admission.

Open Scope Z_scope.

(** ** State *)

Record Metrics : Type := mkMetrics {
  m_requests : Z;
  m_admitted : Z;
  m_queued : Z;
  m_rejected : Z;
  m_shadow_would_queue : Z;
  m_provider_throttles : Z;
  m_active : Z
}.

Record PoolRuntime : Type := mkPoolRuntime { pr_capacity : CapacityModel; pr_limit : f64 }.

Section proxy.
Context {K : Type} `{Coordinator K} {HO : HashOrder}.
(** [Uuid::parse_str] and [Uuid]'s [Display]. *)
Context (parse_uuid : string -> option Uuid) (uuid_to_string : Uuid -> string).

Record App : Type := mkApp {
  app_config : Config;
  app_pools : gmap string PoolRuntime;
  sched_config : SchedulerConfig;
  app_scheduler : Inner;
  app_pending : gmap Uuid Pending;
  app_decisions : list DecisionRecord;
  draining : bool;
  app_metrics : Metrics;
  coord : K;
  app_lease_ttl : Duration;
  app_concurrency : ConcurrencyState;
  receivers : gset N;
  delivered : gmap N AdmissionLeases
}.

(** The state [AppState::build] puts together from a configuration and the
    connected coordinator (the providers themselves are external). *)
Definition build (config : Config) (k : K) : App := {|
  app_config := config;
  app_pools := (fun p => mkPoolRuntime (new_model (capacity_units p) (initial_safety_factor p)) (capacity_units p)) <$> pools config;
  sched_config := {| max_depth := total_queue_depth (limits config); max_bytes := total_queue_bytes (limits config);
                     aging_half_life := aging_half_life SchedulerConfig_default;
                     deadline_window := deadline_window SchedulerConfig_default;
                     quantum := quantum SchedulerConfig_default |};
  app_scheduler := new_inner;
  app_pending := ∅;
  app_decisions := [];
  draining := false;
  app_metrics := mkMetrics 0 0 0 0 0 0 0;
  coord := k;
  app_lease_ttl := match coordinator config with Memory => from_secs 300 | Valkey _ lease_ttl => lease_ttl end;
  app_concurrency := no_concurrency;
  receivers := ∅;
  delivered := ∅
|}.

(** The loop over the pools in [AppState::build]: an external pool without
    adapter is an [expect] that fails; [connect] opens the provider. *)
Fixpoint open_pools (connect : string -> PoolConfig -> result string unit) (l : list (string * PoolConfig))
    (acc : gmap string PoolRuntime) : outcome (result string (gmap string PoolRuntime)) :=
  match l with
  | [] => Returns (Ok acc)
  | (name, p) :: rest =>
      if bool_decide (provider p = ExternalGrpc) && bool_decide (external_adapter p = None) then Panics
      else match connect name p with
           | Err e => Returns (Err e)
           | Ok _ => open_pools connect rest
                       (<[name := mkPoolRuntime (new_model (capacity_units p) (initial_safety_factor p)) (capacity_units p)]> acc)
           end
  end.

(** [AppState::build]: identity, coordinator and providers in this order. *)
Definition build_state (identity_new : Config -> result string unit) (connect_coordinator : CoordinatorConfig -> result string K)
    (connect : string -> PoolConfig -> result string unit) (config : Config) : outcome (result string App) :=
  match identity_new config with
  | Err e => Returns (Err ("identity initialization failed: " +:+ e))
  | Ok _ =>
      match connect_coordinator (coordinator config) with
      | Err e => Returns (Err e)
      | Ok k =>
          match open_pools connect (btree_iter string_le (pools config)) ∅ with
          | Panics => Panics
          | Returns (Err e) => Returns (Err e)
          | Returns (Ok opened) =>
              let a := build config k in
              Returns (Ok (mkApp (app_config a) opened (sched_config a) (app_scheduler a) (app_pending a) (app_decisions a)
                             (draining a) (app_metrics a) (coord a) (app_lease_ttl a) (app_concurrency a) (receivers a) (delivered a)))
          end
      end
  end.

(** Field updates. *)
Definition set_metrics (a : App) (m : Metrics) : App :=
  mkApp (app_config a) (app_pools a) (sched_config a) (app_scheduler a) (app_pending a) (app_decisions a) (draining a) m
    (coord a) (app_lease_ttl a) (app_concurrency a) (receivers a) (delivered a).
Definition set_scheduler (a : App) (s : Inner) : App :=
  mkApp (app_config a) (app_pools a) (sched_config a) s (app_pending a) (app_decisions a) (draining a) (app_metrics a)
    (coord a) (app_lease_ttl a) (app_concurrency a) (receivers a) (delivered a).
Definition set_pending (a : App) (p : gmap Uuid Pending) : App :=
  mkApp (app_config a) (app_pools a) (sched_config a) (app_scheduler a) p (app_decisions a) (draining a) (app_metrics a)
    (coord a) (app_lease_ttl a) (app_concurrency a) (receivers a) (delivered a).
Definition set_decisions (a : App) (d : list DecisionRecord) : App :=
  mkApp (app_config a) (app_pools a) (sched_config a) (app_scheduler a) (app_pending a) d (draining a) (app_metrics a)
    (coord a) (app_lease_ttl a) (app_concurrency a) (receivers a) (delivered a).
Definition set_coord (a : App) (k : K) : App :=
  mkApp (app_config a) (app_pools a) (sched_config a) (app_scheduler a) (app_pending a) (app_decisions a) (draining a)
    (app_metrics a) k (app_lease_ttl a) (app_concurrency a) (receivers a) (delivered a).
Definition set_concurrency (a : App) (c : ConcurrencyState) : App :=
  mkApp (app_config a) (app_pools a) (sched_config a) (app_scheduler a) (app_pending a) (app_decisions a) (draining a)
    (app_metrics a) (coord a) (app_lease_ttl a) c (receivers a) (delivered a).
Definition set_channels (a : App) (r : gset N) (d : gmap N AdmissionLeases) : App :=
  mkApp (app_config a) (app_pools a) (sched_config a) (app_scheduler a) (app_pending a) (app_decisions a) (draining a)
    (app_metrics a) (coord a) (app_lease_ttl a) (app_concurrency a) r d.
Definition set_pools (a : App) (p : gmap string PoolRuntime) : App :=
  mkApp (app_config a) p (sched_config a) (app_scheduler a) (app_pending a) (app_decisions a) (draining a)
    (app_metrics a) (coord a) (app_lease_ttl a) (app_concurrency a) (receivers a) (delivered a).
Definition begin_drain (a : App) : App :=
  mkApp (app_config a) (app_pools a) (sched_config a) (app_scheduler a) (app_pending a) (app_decisions a) true
    (app_metrics a) (coord a) (app_lease_ttl a) (app_concurrency a) (receivers a) (delivered a).

(** Counter updates ([fetch_add(1)] and [fetch_sub(1)] wrap). *)
Definition count_request (a : App) : App := let m := app_metrics a in
  set_metrics a (mkMetrics (wadd (m_requests m) 1) (m_admitted m) (m_queued m) (m_rejected m) (m_shadow_would_queue m) (m_provider_throttles m) (m_active m)).
Definition count_queued (a : App) : App := let m := app_metrics a in
  set_metrics a (mkMetrics (m_requests m) (m_admitted m) (wadd (m_queued m) 1) (m_rejected m) (m_shadow_would_queue m) (m_provider_throttles m) (m_active m)).
Definition count_rejected (a : App) : App := let m := app_metrics a in
  set_metrics a (mkMetrics (m_requests m) (m_admitted m) (m_queued m) (wadd (m_rejected m) 1) (m_shadow_would_queue m) (m_provider_throttles m) (m_active m)).
Definition count_shadow (a : App) : App := let m := app_metrics a in
  set_metrics a (mkMetrics (m_requests m) (m_admitted m) (m_queued m) (m_rejected m) (wadd (m_shadow_would_queue m) 1) (m_provider_throttles m) (m_active m)).
Definition count_throttle (a : App) : App := let m := app_metrics a in
  set_metrics a (mkMetrics (m_requests m) (m_admitted m) (m_queued m) (m_rejected m) (m_shadow_would_queue m) (wadd (m_provider_throttles m) 1) (m_active m)).
Definition count_admitted (a : App) : App := let m := app_metrics a in
  set_metrics a (mkMetrics (m_requests m) (wadd (m_admitted m) 1) (m_queued m) (m_rejected m) (m_shadow_would_queue m) (m_provider_throttles m) (wadd (m_active m) 1)).
Definition uncount_active (a : App) : App := let m := app_metrics a in
  set_metrics a (mkMetrics (m_requests m) (m_admitted m) (m_queued m) (m_rejected m) (m_shadow_would_queue m) (m_provider_throttles m) (wsub (m_active m) 1)).

(** Run a method of one pool's ledger. *)
Definition on_pool (a : App) (pool : string) (f : CapacityModel -> CapacityModel) : App :=
  match app_pools a !! pool with
  | Some p => set_pools a (<[pool := mkPoolRuntime (f (pr_capacity p)) (pr_limit p)]> (app_pools a))
  | None => a
  end.

(** ** Responses *)

(** [problem]: a JSON error with an optional [retry-after] header. *)
Record Response : Type := mkResponse {
  resp_status : Z;
  resp_code : string;
  resp_message : string;
  resp_retry_after : option Z
}.
Definition problem (status : Z) (code detail : string) (retry : option Z) : Response := mkResponse status code detail retry.

(** [AppState::record] on the shared history. *)
Definition record_decision (a : App) (r : DecisionRecord) (max : Z) : App := set_decisions a (record (app_decisions a) r max).

(** The [Display] of the two error types. *)
Definition scheduler_error_text (e : SchedulerError) : string :=
  match e with
  | DepthLimit => "queue depth limit reached"
  | ByteLimit => "queue byte limit reached"
  | Duplicate id => "request " +:+ uuid_to_string id +:+ " is already queued"
  end.

Definition coordinator_error_text (e : CoordinatorError) : string :=
  match e with
  | InvalidUnits => "coordinator rejected invalid work units"
  | Coordinator.Clock => "system clock precedes Unix epoch"
  | Redis detail => "Valkey operation failed: " +:+ detail
  | Unhealthy pong => "coordinator is unhealthy: " +:+ pong
  end.

(** [reject_and_record]. *)
Definition reject_and_record (a : App) (config : Config) (request : AdmissionRequest) (reason : string) : App * Response :=
  (record_decision (count_rejected a)
     {| rec_request_id := req_id request; rec_effective_class := class_to_string (effective_class request);
        rec_tenant := tenant (identity request); rec_application := application (identity request);
        rec_pool := pool request; rec_estimated_work_units := req_units request;
        rec_outcome := "rejected: " +:+ reason; rec_queue_age_ms := 0 |}
     (decision_history (limits config)),
   problem 429 "qos_rejected" reason (Some (Z.max (deadline request / 1000000000) 1))).

(** ** The guard of an active request *)

Record Guard : Type := mkGuard {
  g_pool : string;
  g_leases : option AdmissionLeases;
  g_identity : IdentityContext;
  g_estimate : WorkEstimate;
  g_class : string;
  concurrency_entered : bool;
  counted_active : bool
}.

(** [ActiveAdmissionGuard::release_local]. *)
Definition release_local (a : App) (g : Guard) : App * Guard :=
  let a := if concurrency_entered g then set_concurrency a (leave (app_concurrency a) (g_identity g)) else a in
  let a := if counted_active g then uncount_active a else a in
  (a, mkGuard (g_pool g) (g_leases g) (g_identity g) (g_estimate g) (g_class g) false false).

Definition take_leases (g : Guard) : Guard :=
  mkGuard (g_pool g) None (g_identity g) (g_estimate g) (g_class g) (concurrency_entered g) (counted_active g).

(** The environments of the three releases. *)
Record ReleaseEnvs : Type := mkReleaseEnvs { re1 : Env; re2 : Env; re3 : Env }.

Definition release_leases (a : App) (envs : ReleaseEnvs) (leases : AdmissionLeases) : App :=
  set_coord a (release_distributed (coord a) (re1 envs) (re2 envs) (re3 envs) leases).

(** [Drop for ActiveAdmissionGuard], with the spawned release run. *)
Definition drop_guard (a : App) (g : Guard) (envs : ReleaseEnvs) : App * Guard :=
  let a := match g_leases g with
           | Some leases =>
               release_leases (on_pool a (g_pool g) (fun m =>
                 (release m (lease_id (capacity_lease leases)) (normalized_units (g_estimate g)) None false).1)) envs leases
           | None => a
           end in
  release_local a (take_leases g).

(** [ActiveAdmissionGuard::complete]; the guard is then dropped. *)
Definition complete (a : App) (g : Guard) (actual : option WorkEstimate) (throttled : bool) (envs : ReleaseEnvs) : App * Guard :=
  let a := match g_leases g with
           | Some leases =>
               on_pool (release_leases a envs leases) (g_pool g) (fun m =>
                 (release m (lease_id (capacity_lease leases)) (normalized_units (g_estimate g))
                    (normalized_units <$> actual) throttled).1)
           | None => a
           end in
  let '(a, g) := release_local a (take_leases g) in
  drop_guard a g envs.

(** ** The request handler *)

(** A spooled or in-memory body, by its length. *)
Record Incoming : Type := mkIncoming {
  in_fresh : Uuid; (** [Uuid::new_v4()] *)
  in_headers : gmap string string; (** header values that are text *)
  in_body : option Z; (** length of the body, if it could be read *)
  in_identity : result string IdentityContext; (** [IdentityResolver::resolve] *)
  in_estimate : string -> result string WorkEstimate; (** [provider.estimate], by pool *)
  in_stored : result string unit (** [StoredBody::store] *)
}.

Record Ticket : Type := mkTicket {
  tk_request : AdmissionRequest;
  tk_channel : N;
  tk_body : Z;
  tk_class_weight : Z;
  tk_tenant_weight : Z;
  tk_app_weight : Z
}.

(** A request that may go ahead. *)
Record Permit : Type := mkPermit {
  ad_request : AdmissionRequest;
  ad_leases : option AdmissionLeases;
  ad_entered : bool;
  ad_outcome : string;
  ad_queue_age : Z
}.

Inductive Stage : Type :=
| Respond (r : Response)
| Wait (t : Ticket)
| Go (ad : Permit).

(** [deadline] and [queueable] as the headers ask for them. *)
Definition requested_deadline (headers : gmap string string) (class : ServiceClassConfig) : Duration :=
  Z.min (from_option from_millis (default_deadline class) (headers !! HEADER_DEADLINE_MS ≫= parse_u64)) (max_queue class).

Definition requested_queueable (headers : gmap string string) (effective : ServiceClass) : bool :=
  match headers !! HEADER_QUEUEABLE with
  | Some v => eq_ignore_ascii_case v "true"
  | None => negb (bool_decide (effective = Realtime))
  end.

Definition requested_service_class (headers : gmap string string) : ServiceClass :=
  match headers !! HEADER_CLASS with
  | Some v => match class_from_str v with Ok c => c | Err _ => Standard end
  | None => Standard
  end.

(** [app_policy.and_then(first permitted pool).or_else(first pool)]. *)
Definition choose_pool (config : Config) (app : option ApplicationPolicy) : option string :=
  match app ≫= (fun p => head (btree_set_iter (permitted_pools p))) with
  | Some name => Some name
  | None => fst <$> head (btree_iter string_le (pools config))
  end.

(** The admission of a request whose class, pool and estimate are known: lines
    830 to 895 of the handler. *)
Definition admit_request (a : App) (config : Config) (app : option ApplicationPolicy) (pool : PoolRuntime) (class : ServiceClassConfig)
    (admission : AdmissionRequest) (body : Z) (envs : ReserveEnvs) (now : Z) (channel : N) : App * Stage :=
  let who := identity admission in
  let charged := charged_units (pr_capacity pool) (normalized_units (estimate admission)) in
  let '(cs, entered) := try_enter (app_concurrency a) who config in
  let a := set_concurrency a cs in
  let '(a, immediate) :=
    if entered then
      let '(k, reservation) := reserve_distributed (coord a) envs (app_lease_ttl a) (app_pending a) admission config (pr_limit pool) charged in
      let a := set_coord a k in
      match reservation with
      | Ok (Some leases) => (a, Ok (Some leases))
      | Ok None => (set_concurrency a (leave (app_concurrency a) who), Ok None)
      | Err e => (set_concurrency a (leave (app_concurrency a) who), Err e)
      end
    else (a, Ok None) in
  match immediate with
  | Err e => (a, Respond (problem 503 "coordinator_unavailable"
                            ("capacity coordinator failed closed: " +:+ coordinator_error_text e) (Some 1)))
  | Ok (Some leases) =>
      (on_pool a (Core.pool admission) (fun m => track_distributed m (lease_id (capacity_lease leases)) charged),
       Go (mkPermit admission (Some leases) true "admitted" 0))
  | Ok None =>
      if bool_decide (mode config = Shadow) then
        let a := count_shadow a in
        (set_concurrency a (force_enter (app_concurrency a) who), Go (mkPermit admission None true "shadow_would_queue" 0))
      else if negb (queueable admission) then
        let '(a, r) := reject_and_record a config admission "capacity unavailable and request is not queueable" in (a, Respond r)
      else
        let tw := from_option tenant_weight 1 (tenants (policies config) !! tenant who) in
        let aw := from_option app_weight 1 app in
        let '(s, queued) := enqueue (sched_config a) now (app_scheduler a) admission body (class_weight class) tw aw in
        match queued with
        | Err e => let '(a, r) := reject_and_record a config admission (scheduler_error_text e) in (a, Respond r)
        | Ok _ =>
            (set_channels (count_queued (set_scheduler a s)) ({[ channel ]} ∪ receivers a) (delivered a),
             Wait (mkTicket admission channel body (class_weight class) tw aw))
        end
  end.

Definition body_too_large (config : Config) : Response :=
  problem 413 "body_too_large"
    ("request body exceeds configured limit of " +:+ pretty (max_body_bytes (server config)) +:+ " bytes") None.

(** [proxy_handler] up to the first wait. *)
Definition handle_start (a : App) (inc : Incoming) (envs : ReserveEnvs) (now : Z) (channel : N) :
    outcome (App * Stage) :=
  if draining a then Returns (a, Respond (problem 503 "draining" "InferQoS is draining and is not accepting new work" (Some 1)))
  else
    let a := count_request a in
    let config := app_config a in
    match in_body inc with
    | None => Returns (a, Respond (body_too_large config))
    | Some body =>
        if max_body_bytes (server config) <? body
        then Returns (a, Respond (body_too_large config))
        else
          let request_id := default (in_fresh inc) (in_headers inc !! HEADER_REQUEST_ID ≫= parse_uuid) in
          match in_identity inc with
          | Err e => Returns (a, Respond (problem 401 "authentication_failed" e None))
          | Ok who =>
              let requested := requested_service_class (in_headers inc) in
              let '(effective, app) := effective_class_of config who requested in
              match choose_pool config app with
              | None => Panics
              | Some pool_name =>
                  match app_pools a !! pool_name with
                  | None => Returns (a, Respond (problem 503 "pool_unavailable" "configured pool is unavailable" (Some 1)))
                  | Some pool =>
                      match in_estimate inc pool_name with
                      | Err e => Returns (a, Respond (problem 400 "estimate_failed" e None))
                      | Ok est =>
                          match in_stored inc with
                          | Err e => Returns (a, Respond (problem 507 "spool_failed" ("cannot securely spool bounded request body: " +:+ e) None))
                          | Ok _ =>
                              match service_classes config !! class_to_string effective with
                              | None => Panics
                              | Some class =>
                                  let admission := {| req_id := request_id; identity := who; requested_class := requested;
                                                      effective_class := effective; Core.pool := pool_name; estimate := est;
                                                      deadline := requested_deadline (in_headers inc) class;
                                                      queueable := requested_queueable (in_headers inc) effective |} in
                                  Returns (admit_request a config app pool class admission body envs now channel)
                              end
                          end
                      end
                  end
              end
          end
    end.

(** [state.0.pending.lock().insert(request_id, Pending { .. })]. *)
Definition insert_pending (a : App) (t : Ticket) (now : Instant) : App :=
  set_pending a (<[req_id (tk_request t) := mkPending (tk_channel t) (tk_request t) (tk_body t) (tk_class_weight t)
                                              (tk_tenant_weight t) (tk_app_weight t) now]> (app_pending a)).

(** The wait ends with the leases the dispatcher sent. *)
Definition receive (a : App) (t : Ticket) (age_ms : Z) : option (App * Stage) :=
  leases ← delivered a !! tk_channel t;
  Some (set_channels a (receivers a ∖ {[ tk_channel t ]}) (delete (tk_channel t) (delivered a)),
        Go (mkPermit (tk_request t) (Some leases) true "queued_then_admitted" age_ms)).

(** The wait ends at the deadline, or because the sender is gone; [config] is
    the handler's copy of the configuration. *)
Definition expire (a : App) (config : Config) (t : Ticket) : App * Stage :=
  let a := set_channels a (receivers a ∖ {[ tk_channel t ]}) (delivered a) in
  let a := set_scheduler a (cancel (app_scheduler a) (req_id (tk_request t))).1 in
  let a := set_pending a (delete (req_id (tk_request t)) (app_pending a)) in
  let '(a, r) := reject_and_record a config (tk_request t) "queue deadline expired" in
  (a, Respond r).

(** The client goes away while its request waits: the handler is dropped, its
    queue entries stay. *)
Definition abandon (a : App) (t : Ticket) : App :=
  set_channels a (receivers a ∖ {[ tk_channel t ]}) (delivered a).

(** Lines 940 to 965: counters, guard and decision record of an admitted request. *)
Definition activate (a : App) (config : Config) (ad : Permit) : App * Guard :=
  let request := ad_request ad in
  let g := mkGuard (Core.pool request) (ad_leases ad) (identity request) (estimate request)
             (class_to_string (effective_class request)) (ad_entered ad) true in
  (record_decision (count_admitted a)
     {| rec_request_id := req_id request; rec_effective_class := class_to_string (effective_class request);
        rec_tenant := tenant (identity request); rec_application := application (identity request);
        rec_pool := Core.pool request; rec_estimated_work_units := req_units request;
        rec_outcome := ad_outcome ad; rec_queue_age_ms := ad_queue_age ad |}
     (decision_history (limits config)), g).

(** A tick of the renewal timer while the response streams: the three leases in
    order, failures are logged. *)
Definition renew_leases (a : App) (g : Guard) (envs : ReleaseEnvs) : App :=
  match g_leases g with
  | None => a
  | Some leases =>
      let k1 := (c_renew (coord a) (re1 envs) (capacity_lease leases) (app_lease_ttl a)).1 in
      let k2 := (c_renew k1 (re2 envs) (tenant_slot leases) (app_lease_ttl a)).1 in
      set_coord a (c_renew k2 (re3 envs) (application_slot leases) (app_lease_ttl a)).1
  end.

(** ** The dispatcher *)

(** Put a request that cannot run yet back, unless its deadline has passed. *)
Definition requeue (a : App) (req_id' : Uuid) (p : Pending) (now : Z) (elapsed : Duration) : App :=
  if deadline (pending_request p) <=? elapsed then count_rejected a
  else
    let s := (enqueue (sched_config a) now (app_scheduler a) (pending_request p) (pending_body_bytes p)
                (pending_class_weight p) (pending_tenant_weight p) (pending_app_weight p)).1 in
    let a := set_scheduler a s in
    set_pending a (<[req_id' := p]> (app_pending a)).

(** The loop's exit: draining and nothing pending. *)
Definition dispatcher_done (a : App) : bool := draining a && bool_decide (app_pending a = ∅).

(** One iteration of the dispatcher loop after [tick.tick()] and the exit check. *)
Definition dispatcher_tick (a : App) (envs : ReserveEnvs) (undo : ReleaseEnvs) (now : Z) (clock : Instant) : outcome App :=
  match pop_next (sched_config a) now (app_scheduler a) with
  | Panics => Panics
  | Returns (s, None) => Returns (set_scheduler a s)
  | Returns (s, Some req) =>
      let a := set_scheduler a s in
      match app_pending a !! req_id req with
      | None => Returns a
      | Some p =>
          let a := set_pending a (delete (req_id req) (app_pending a)) in
          match app_pools a !! Core.pool req with
          | None => Returns a
          | Some pool =>
              let config := app_config a in
              let elapsed := clock - queued_at p in
              let '(cs, entered) := try_enter (app_concurrency a) (identity req) config in
              let a := set_concurrency a cs in
              if negb entered then Returns (requeue a (req_id req) p now elapsed)
              else
                let charged := charged_units (pr_capacity pool) (normalized_units (estimate req)) in
                let '(k, reservation) := reserve_distributed (coord a) envs (app_lease_ttl a) (app_pending a) req config (pr_limit pool) charged in
                let a := set_coord a k in
                match reservation with
                | Ok (Some leases) =>
                    let id := lease_id (capacity_lease leases) in
                    let a := on_pool a (Core.pool req) (fun m => track_distributed m id charged) in
                    if bool_decide (sender p ∈ receivers a)
                    then Returns (set_channels a (receivers a) (<[sender p := leases]> (delivered a)))
                    else
                      let a := release_leases a undo leases in
                      let a := on_pool a (Core.pool req) (fun m => (release m id (normalized_units (estimate req)) None false).1) in
                      Returns (set_concurrency a (leave (app_concurrency a) (identity req)))
                | _ =>
                    Returns (requeue (set_concurrency a (leave (app_concurrency a) (identity req))) (req_id req) p now elapsed)
                end
          end
      end
  end.
End proxy.
Arguments App K : clear implicits.
