(* ===== verification/ProxyHttp.v ===== *)
(** * Bodies, headers and the management plane of the proxy (crates/proxy)

    [StoredBody] (spooling of request bodies), the response header filter, the
    readiness check, the authentication of the management plane and the label
    escaping of the metrics page. *)

From stdpp Require Import base gmap strings countable list.
From Stdlib Require Import ZArith Lia Ascii.
From S2P Require Import Prelude Web Core Coordinator Config Proxy.

Open Scope Z_scope.

(** ** Stored bodies *)

(** The spool directory: files by path. *)
Abbreviation Files := (gmap string (list ascii)).

Inductive StoredBody : Type :=
| InMemoryBody (body : Bytes)
| Spool (path : string) (len : Z).

Inductive IoError : Type :=
| IoFailed (detail : string)
| LengthChanged.

(** [StoredBody::store]: [tempfile_in] chooses a new path, or an I/O call fails. *)
Definition store (files : Files) (body : Bytes) (threshold : Z) (tempfile : result string string) :
    Files * result IoError StoredBody :=
  if Z.of_nat (length body) <=? threshold then (files, Ok (InMemoryBody body))
  else match tempfile with
       | Err e => (files, Err (IoFailed e))
       | Ok path => (<[path := body]> files, Ok (Spool path (Z.of_nat (length body))))
       end.

(** [StoredBody::len]. *)
Definition stored_len (b : StoredBody) : Z :=
  match b with InMemoryBody body => Z.of_nat (length body) | Spool _ len => len end.

(** [StoredBody::load]. *)
Definition load (files : Files) (b : StoredBody) : result IoError Bytes :=
  match b with
  | InMemoryBody body => Ok body
  | Spool path len =>
      match files !! path with
      | None => Err (IoFailed "not found")
      | Some body => if Z.of_nat (length body) =? len then Ok body else Err LengthChanged
      end
  end.

(** ** Response headers *)

Definition HOP_BY_HOP : list string :=
  ["connection"; "keep-alive"; "proxy-authenticate"; "proxy-authorization"; "te"; "trailer"; "transfer-encoding";
   "upgrade"; "set-cookie"]%string.

(** [response_header_safe]. *)
Definition response_header_safe (name : string) : bool := negb (bool_decide (name ∈ HOP_BY_HOP)).

(** Lines 1040 to 1050: what the client gets of the upstream's headers. *)
Definition client_headers (upstream : list (string * string)) (request_id : string) : list (string * string) :=
  header_insert
    (foldl (fun out h => if response_header_safe h.1 then header_append out h.1 h.2 else out) [] upstream)
    HEADER_REQUEST_ID request_id.

(** ** Dispatch *)

(** What the upstream answers: status and headers; the body streams. *)
Record Upstream : Type := mkUpstream { up_status : Z; up_headers : list (string * string) }.

(** The end of the handler, from the stored body to the streaming response. *)
Inductive Finish : Type :=
| FinishProblem (r : Response)
| Streaming (status : Z) (headers : list (string * string)) (throttled : bool).

Section dispatch.
Context {K : Type} `{Coordinator K} {HO : HashOrder} (uuid_to_string : Uuid -> string).

(** A problem drops the guard; a response hands it to the streaming task. *)
Definition dispatch (a : App K) (g : Guard) (request_id : Uuid) (loaded : result string unit)
    (upstream : result string Upstream) (envs : ReleaseEnvs) : App K * option Guard * Finish :=
  match loaded with
  | Err e => ((drop_guard a g envs).1, None,
              FinishProblem (problem 500 "spool_read_failed" ("queued request body could not be read safely: " +:+ e) None))
  | Ok _ =>
      match upstream with
      | Err e => ((drop_guard a g envs).1, None, FinishProblem (problem 502 "upstream_error" e None))
      | Ok response =>
          let throttled := up_status response =? 429 in
          let a := if throttled then count_throttle a else a in
          (a, Some g, Streaming (up_status response) (client_headers (up_headers response) (uuid_to_string request_id)) throttled)
      end
  end.
End dispatch.

(** ** Readiness *)

(** [ready]: [health] is what each provider reports. *)
Definition ready (draining : bool) (coordinator_health : result CoordinatorError unit) (health : list (option bool)) :
    result Response Z :=
  if draining then Err (problem 503 "draining" "instance is draining" None)
  else match coordinator_health with
       | Err _ => Err (problem 503 "coordinator_unavailable" "the configured capacity coordinator is unavailable" (Some 1))
       | Ok _ =>
           let usable := Z.of_nat (length (filter (fun h => h = Some true) health)) in
           if usable =? 0
           then Err (problem 503 "no_usable_pool" "no configured inference capacity pool is currently usable" (Some 1))
           else Ok usable
       end.

(** ** Authentication of the management plane *)

Definition SECURITY_HEADERS : list (string * string) :=
  [("content-security-policy", "default-src 'self'; script-src 'self'; style-src 'self'; frame-ancestors 'none'");
   ("x-content-type-options", "nosniff"); ("x-frame-options", "DENY"); ("referrer-policy", "no-referrer")]%string.

(** [admin_security]: a refusal, or the handler's response headers with the
    security headers set. *)
Definition admin_security (token_env : option string) (env : string -> option string) (path : string)
    (authorization : option string) (next : list (string * string)) : result Response (list (string * string)) :=
  let health := String.eqb path "/health/live" || String.eqb path "/health/ready" in
  let forward := Ok (foldl (fun h kv => header_insert h kv.1 kv.2) next SECURITY_HEADERS) in
  match token_env with
  | Some environment =>
      if health then forward
      else match env environment with
           | None => Err (problem 503 "admin_auth_unavailable"
                            "configured admin bearer token environment variable is not set" None)
           | Some expected =>
               match authorization ≫= strip_prefix "Bearer " with
               | Some value => if String.eqb expected value then forward
                               else Err (problem 401 "admin_auth_required" "a valid admin bearer token is required" None)
               | None => Err (problem 401 "admin_auth_required" "a valid admin bearer token is required" None)
               end
           end
  | None => forward
  end.

(** ** Metric labels *)

(** [str::replace] of one character. *)
Fixpoint replace_char (c : ascii) (by_ : string) (s : string) : string :=
  match s with
  | EmptyString => EmptyString
  | String x rest => if Ascii.eqb x c then by_ +:+ replace_char c by_ rest else String x (replace_char c by_ rest)
  end.

(** [prometheus_escape]. *)
Definition prometheus_escape (value : string) : string :=
  replace_char NEWLINE (String BACKSLASH "n")
    (replace_char QUOTE (String BACKSLASH (String QUOTE EmptyString))
       (replace_char BACKSLASH (String BACKSLASH (String BACKSLASH EmptyString)) value)).

(** How a reader of the exposition format undoes the escapes. *)
Fixpoint unescape (s : string) : string :=
  match s with
  | EmptyString => EmptyString
  | String x rest =>
      if Ascii.eqb x BACKSLASH then
        match rest with
        | String y rest' => String (if Ascii.eqb y "n" then NEWLINE else y) (unescape rest')
        | EmptyString => String x EmptyString
        end
      else String x (unescape rest)
  end.

(** ** The properties *)

Lemma replace_char_app c b s1 s2 : replace_char c b (s1 +:+ s2) = replace_char c b s1 +:+ replace_char c b s2.
Proof.
  induction s1 as [|x s1 IH]; [done|]. change (String x s1 +:+ s2) with (String x (s1 +:+ s2)). cbn [replace_char].
  rewrite IH. destruct (Ascii.eqb x c); [by rewrite app_assoc_s | done].
Qed.

(** The three passes together escape one character at a time. *)
Lemma prometheus_escape_cons x s : prometheus_escape (String x s) =
  (if Ascii.eqb x BACKSLASH then String BACKSLASH (String BACKSLASH EmptyString)
   else if Ascii.eqb x QUOTE then String BACKSLASH (String QUOTE EmptyString)
   else if Ascii.eqb x NEWLINE then String BACKSLASH "n" else String x EmptyString) +:+ prometheus_escape s.
Proof.
  unfold prometheus_escape. cbn [replace_char]. destruct (Ascii.eqb_spec x BACKSLASH) as [-> | H1].
  - rewrite !replace_char_app. reflexivity.
  - cbn [replace_char]. destruct (Ascii.eqb_spec x QUOTE) as [-> | H2].
    + rewrite replace_char_app. reflexivity.
    + cbn [replace_char]. destruct (Ascii.eqb_spec x NEWLINE) as [-> | H3]; reflexivity.
Qed.

(** Escaped labels read back as the original text. *)
Lemma prometheus_escape_unescape s : unescape (prometheus_escape s) = s.
Proof.
  induction s as [|x s IH]; [done|]. rewrite prometheus_escape_cons.
  destruct (Ascii.eqb_spec x BACKSLASH) as [-> | H1].
  - change (String BACKSLASH (unescape (prometheus_escape s)) = String BACKSLASH s). by rewrite IH.
  - destruct (Ascii.eqb_spec x QUOTE) as [-> | H2].
    + change (String QUOTE (unescape (prometheus_escape s)) = String QUOTE s). by rewrite IH.
    + destruct (Ascii.eqb_spec x NEWLINE) as [-> | H3].
      * change (String NEWLINE (unescape (prometheus_escape s)) = String NEWLINE s). by rewrite IH.
      * change (String x EmptyString +:+ prometheus_escape s) with (String x (prometheus_escape s)). cbn [unescape].
        rewrite (proj2 (Ascii.eqb_neq x BACKSLASH) H1). by rewrite IH.
Qed.

(** A stored body loads as it was stored, unless the file changed; a file of
    another length is reported. *)
Lemma store_load files body threshold tempfile files' b :
  store files body threshold tempfile = (files', Ok b) ->
  stored_len b = Z.of_nat (length body) /\ load files' b = Ok body /\
  (forall files'' path len, b = Spool path len -> forall body', files'' !! path = Some body' ->
     length body' <> length body -> load files'' b = Err LengthChanged).
Proof.
  unfold store. destruct (Z.leb_spec (Z.of_nat (length body)) threshold); [by intros [= <- <-]|].
  destruct tempfile as [path|e]; [|done]. intros [= <- <-]. cbn [stored_len load]. rewrite lookup_insert_eq, Z.eqb_refl.
  split_and!; [done | done |]. intros files'' path' len [= <- <-] body' E Hne. rewrite E.
  destruct (Z.eqb_spec (Z.of_nat (length body')) (Z.of_nat (length body))); [lia | done].
Qed.

Lemma foldl_append_filter (l out : list (string * string)) :
  foldl (fun out h => if response_header_safe h.1 then header_append out h.1 h.2 else out) out l =
  out ++ filter (fun h => response_header_safe h.1 = true) l.
Proof.
  revert out. induction l as [|[n v] l IH]; intros out; cbn [foldl]; [by rewrite app_nil_r|].
  rewrite IH, filter_cons. cbn [fst snd]. unfold header_append.
  destruct (response_header_safe n); [by rewrite decide_True, <- app_assoc | by rewrite decide_False].
Qed.

(** The client never receives hop-by-hop headers or cookies of the upstream:
    the headers of a response are the upstream's safe ones in their order,
    without the request id header, followed by the proxy's request id, which
    therefore occurs exactly once. *)
Theorem client_headers_filtered upstream request_id :
  client_headers upstream request_id =
    filter (fun h => response_header_safe h.1 = true /\ h.1 <> HEADER_REQUEST_ID) upstream ++ [(HEADER_REQUEST_ID, request_id)] /\
  Forall (fun h => h.1 ∉ HOP_BY_HOP) (client_headers upstream request_id).
Proof.
  assert (E : client_headers upstream request_id =
    filter (fun h => response_header_safe h.1 = true /\ h.1 <> HEADER_REQUEST_ID) upstream ++ [(HEADER_REQUEST_ID, request_id)]).
  { unfold client_headers, header_insert. rewrite foldl_append_filter. change ([] ++ ?l) with l.
    rewrite list_filter_filter. f_equal.
    apply list_filter_iff. intros x. tauto. }
  split; [exact E|]. rewrite E. apply Forall_app. split.
  - apply Forall_forall. intros h [[Hs _] _]%list_elem_of_filter. unfold response_header_safe in Hs.
    by apply negb_true_iff, bool_decide_eq_false in Hs.
  - constructor; [|done]. cbn [fst]. unfold HOP_BY_HOP, HEADER_REQUEST_ID. rewrite !elem_of_cons, elem_of_nil. naive_solver.
Qed.

Lemma strip_prefix_spec p s r : strip_prefix p s = Some r <-> s = p +:+ r.
Proof.
  revert s. induction p as [|a p IH]; intros s; cbn [strip_prefix].
  - split; [by intros [= <-] | by intros ->].
  - change (String a p +:+ r) with (String a (p +:+ r)). destruct s as [|b s]; [split; done|].
    destruct (Ascii.eqb_spec a b) as [-> | Hne]; [rewrite IH; split; [by intros -> | by intros [= ->]] | split; [done | intros [= ->]; done]].
Qed.

(** The management plane is authenticated and fails closed: when a bearer
    token is configured, a request for anything but the two health pages gets
    through exactly when the token's environment variable is set and the
    authorization header is [Bearer] followed by its value; and every response
    that gets through carries the security headers. *)
Theorem admin_requires_token environment env path authorization next :
  path <> "/health/live"%string -> path <> "/health/ready"%string ->
  (is_ok (admin_security (Some environment) env path authorization next) = true <->
   exists token, env environment = Some token /\ authorization = Some ("Bearer " +:+ token)) /\
  (forall headers, admin_security (Some environment) env path authorization next = Ok headers ->
     forall h, h ∈ SECURITY_HEADERS -> h ∈ headers).
Proof.
  intros H1 H2. unfold admin_security. rewrite (proj2 (String.eqb_neq _ _) H1), (proj2 (String.eqb_neq _ _) H2). cbn [orb].
  assert (HS : forall h, h ∈ SECURITY_HEADERS -> h ∈ foldl (fun h kv => header_insert h kv.1 kv.2) next SECURITY_HEADERS).
  { intros h Hh. unfold SECURITY_HEADERS in Hh |- *. cbn [foldl fst snd]. unfold header_insert.
    rewrite !elem_of_cons, elem_of_nil in Hh.
    destruct Hh as [-> | [-> | [-> | [-> | []]]]]; repeat (rewrite elem_of_app, list_elem_of_filter, list_elem_of_singleton);
      cbn [fst]; naive_solver. }
  destruct (env environment) as [expected|] eqn:EE.
  - destruct authorization as [auth|]; cbn [mbind option_bind].
    + destruct (strip_prefix "Bearer " auth) as [v|] eqn:ES.
      * apply strip_prefix_spec in ES as ->. destruct (String.eqb_spec expected v) as [-> | Hne]; cbn [is_ok].
        -- split; [split; [intros _; by exists v | done]|]. by intros headers [= <-].
        -- split; [|done]. split; [done|]. intros (t & [= <-] & [= E]). exfalso. by apply Hne, (inj (String.append "Bearer ")).
      * split; [|done]. split; [done|]. intros (t & [= <-] & [= ->]).
        assert (strip_prefix "Bearer " ("Bearer " +:+ expected) = Some expected) by (by apply strip_prefix_spec). congruence.
    + split; [|done]. split; [done | by intros (t & _ & [=])].
  - split; [|done]. split; [done | by intros (t & [=] & _)].
Qed.

Lemma admin_requires_token_witness :
  (is_ok (admin_security (Some "TOKEN"%string) (fun _ => Some "secret"%string) "/metrics" (Some "Bearer secret"%string) []) = true <->
   exists token, Some "secret"%string = Some token /\ Some "Bearer secret"%string = Some ("Bearer " +:+ token)) /\
  (forall headers, admin_security (Some "TOKEN"%string) (fun _ => Some "secret"%string) "/metrics" (Some "Bearer secret"%string) [] = Ok headers ->
     forall h, h ∈ SECURITY_HEADERS -> h ∈ headers).
Proof. apply (admin_requires_token "TOKEN" (fun _ => Some "secret"%string) "/metrics"); done. Defined.
