(* ===== verification/ProxySystem.v ===== *)
(** * The proxy as a concurrent system (crates/proxy)

    A proxy with any number of requests in flight: the shared [App] together
    with the handlers that are waiting or streaming.  [sstep] interleaves the
    pieces of the handler, the dispatcher, the configuration reload and the
    drain switch in any order.

    Three parts of the state exist only for the proofs: [owner] remembers the
    request behind every channel ever created, [used] the lease ids handed out.
    The steps that create them ask for a channel, a request id and a lease id
    that are new ([oneshot::channel], [Uuid::new_v4], unique client ids). *)

From stdpp Require Import base gmap strings countable sorting list.
From Stdlib Require Import ZArith Lia SpecFloat.
From S2P Require Import Prelude Rounding F64 F64Facts Core Scheduler SchedulerInv Capacity Coordinator Config Admission Proxy ProxyHttp.

Open Scope Z_scope.

Section system.
Context {K : Type} `{Coordinator K} {HO : HashOrder}.
Context (parse_uuid : string -> option Uuid) (uuid_to_string : Uuid -> string).
Context (parse_cidr : string -> result string unit) (parse_url : string -> result string Url).

Record Sys : Type := mkSys {
  sys_app : App K;
  owner : gmap N AdmissionRequest;
  used : gset Uuid;
  enqueued : list Ticket; (** in the scheduler, not yet in [pending] *)
  waiting : list Ticket;
  guards : list Guard
}.

Definition set_config (a : App K) (c : Config) : App K :=
  mkApp c (app_pools a) (sched_config a) (app_scheduler a) (app_pending a) (app_decisions a) (draining a)
    (app_metrics a) (coord a) (app_lease_ttl a) (app_concurrency a) (receivers a) (delivered a).

(** A channel and a request id that no queued request has had, a new lease id. *)
Definition fresh_channel (s : Sys) (channel : N) : Prop := owner s !! channel = None.
Definition fresh_request (s : Sys) (r : AdmissionRequest) : Prop :=
  forall c r', owner s !! c = Some r' -> req_id r' <> req_id r.
Definition fresh_lease (s : Sys) (envs : ReserveEnvs) : Prop := env_id (env_capacity envs) ∉ used s.
Definition take_lease (s : Sys) (envs : ReserveEnvs) : gset Uuid := {[ env_id (env_capacity envs) ]} ∪ used s.
Definition typed_body (inc : Incoming) : Prop := forall n, in_body inc = Some n -> 0 <= n.

Inductive sstep (s : Sys) : Sys -> Prop :=
| sys_respond inc envs now ch a' r :
    fresh_lease s envs ->
    handle_start parse_uuid uuid_to_string (sys_app s) inc envs now ch = Returns (a', Respond r) ->
    sstep s (mkSys a' (owner s) (take_lease s envs) (enqueued s) (waiting s) (guards s))
| sys_enqueue inc envs now ch a' t :
    fresh_lease s envs -> fresh_channel s ch -> fresh_request s (tk_request t) -> typed_body inc ->
    handle_start parse_uuid uuid_to_string (sys_app s) inc envs now ch = Returns (a', Wait t) ->
    sstep s (mkSys a' (<[ch := tk_request t]> (owner s)) (take_lease s envs) (t :: enqueued s) (waiting s) (guards s))
| sys_go inc envs now ch a' ad a'' g :
    fresh_lease s envs ->
    handle_start parse_uuid uuid_to_string (sys_app s) inc envs now ch = Returns (a', Go ad) ->
    activate a' (app_config (sys_app s)) ad = (a'', g) ->
    sstep s (mkSys a'' (owner s) (take_lease s envs) (enqueued s) (waiting s) (g :: guards s))
| sys_insert t rest now :
    enqueued s ≡ₚ t :: rest ->
    sstep s (mkSys (insert_pending (sys_app s) t now) (owner s) (used s) rest (t :: waiting s) (guards s))
| sys_tick envs undo now clock a' :
    fresh_lease s envs ->
    dispatcher_done (sys_app s) = false ->
    dispatcher_tick (sys_app s) envs undo now clock = Returns a' ->
    sstep s (mkSys a' (owner s) (take_lease s envs) (enqueued s) (waiting s) (guards s))
| sys_receive t rest age a' ad config a'' g :
    waiting s ≡ₚ t :: rest -> receive (sys_app s) t age = Some (a', Go ad) -> activate a' config ad = (a'', g) ->
    sstep s (mkSys a'' (owner s) (used s) (enqueued s) rest (g :: guards s))
| sys_expire t rest config :
    waiting s ≡ₚ t :: rest ->
    sstep s (mkSys (expire (sys_app s) config t).1 (owner s) (used s) (enqueued s) rest (guards s))
| sys_abandon t rest :
    waiting s ≡ₚ t :: rest ->
    sstep s (mkSys (abandon (sys_app s) t) (owner s) (used s) (enqueued s) rest (guards s))
| sys_dispatch g rest id loaded upstream envs a' kept f :
    guards s ≡ₚ g :: rest -> dispatch uuid_to_string (sys_app s) g id loaded upstream envs = (a', kept, f) ->
    sstep s (mkSys a' (owner s) (used s) (enqueued s) (waiting s) (option_list kept ++ rest))
| sys_renew g envs :
    g ∈ guards s ->
    sstep s (mkSys (renew_leases (sys_app s) g envs) (owner s) (used s) (enqueued s) (waiting s) (guards s))
| sys_complete g rest actual throttled envs :
    guards s ≡ₚ g :: rest ->
    sstep s (mkSys (complete (sys_app s) g actual throttled envs).1 (owner s) (used s) (enqueued s) (waiting s) rest)
| sys_drop g rest envs :
    guards s ≡ₚ g :: rest ->
    sstep s (mkSys (drop_guard (sys_app s) g envs).1 (owner s) (used s) (enqueued s) (waiting s) rest)
| sys_reload replace_identity parse_yaml env file :
    let parsed := from_path parse_cidr parse_url parse_yaml env file in
    sstep s (mkSys (set_config (sys_app s) (reload replace_identity (app_config (sys_app s)) parsed).1)
               (owner s) (used s) (enqueued s) (waiting s) (guards s))
| sys_drain :
    sstep s (mkSys (begin_drain (sys_app s)) (owner s) (used s) (enqueued s) (waiting s) (guards s)).

Definition start (config : Config) (k : K) : Sys := mkSys (build config k) ∅ ∅ [] [] [].

(** What [Config::from_path] and the types of its fields give. *)
Definition startable (config : Config) : Prop :=
  validate parse_cidr parse_url config = Ok tt /\
  0 <= total_queue_depth (limits config) <= USIZE_MAX /\ 0 <= total_queue_bytes (limits config) < USIZE_MAX.

(** [n] steps from the start. *)
Definition runs (config : Config) (k : K) (n : nat) : Sys -> Prop := nsteps sstep n (start config k).

(** ** What is in flight *)

(** The identity that occupies a concurrency slot and the capacity lease it
    holds, by pool and id. *)
Abbreviation Holder := (IdentityContext * option (string * Uuid))%type.

Definition guard_holder (g : Guard) : Holder :=
  (g_identity g, (fun l => (g_pool g, lease_id (capacity_lease l))) <$> g_leases g).

Definition nobody : IdentityContext := mkIdentity EmptyString EmptyString EmptyString false.

Definition delivered_holder (own : gmap N AdmissionRequest) (d : N * AdmissionLeases) : Holder :=
  (from_option identity nobody (own !! d.1), Some (from_option Core.pool EmptyString (own !! d.1), lease_id (capacity_lease d.2))).

Definition holders (s : Sys) : list Holder :=
  (guard_holder <$> guards s) ++ (delivered_holder (owner s) <$> map_to_list (delivered (sys_app s))).

(** The ledgers of the pools hold exactly the given reservations. *)
Definition ledger (pools : gmap string PoolRuntime) (l : list (string * Uuid)) : Prop :=
  forall p id, (exists pr, pools !! p = Some pr /\ is_Some (reservations (state (pr_capacity pr)) !! id)) <-> (p, id) ∈ l.

Record accounts (cs : ConcurrencyState) (pools : gmap string PoolRuntime) (ids : gset Uuid) (l : list Holder) : Prop := {
  ac_conc : inside_counts cs l.*1;
  ac_ledger : ledger pools (omap snd l);
  ac_nodup : NoDup (omap snd l);
  ac_used : forall p id, (p, id) ∈ omap snd l -> id ∈ ids
}.

(** Queue entries belong to known requests. *)
Record linked (own : gmap N AdmissionRequest) (items : list Queued) (pending : gmap Uuid Pending)
    (deliv : gmap N AdmissionLeases) (enq wait : list Ticket) : Prop := {
  lk_ids : forall c1 c2 r1 r2, own !! c1 = Some r1 -> own !! c2 = Some r2 -> req_id r1 = req_id r2 -> c1 = c2;
  lk_items : forall it, it ∈ items -> exists c, own !! c = Some (request it);
  lk_pending : forall i p, pending !! i = Some p ->
    own !! sender p = Some (pending_request p) /\ req_id (pending_request p) = i /\ deliv !! sender p = None /\
    0 <= pending_body_bytes p;
  lk_tickets : forall t, t ∈ enq ++ wait -> own !! tk_channel t = Some (tk_request t) /\ 0 <= tk_body t;
  lk_enq : forall t, t ∈ enq -> deliv !! tk_channel t = None /\ pending !! req_id (tk_request t) = None;
  lk_nodup : NoDup (tk_channel <$> enq ++ wait);
  lk_deliv : forall c l, deliv !! c = Some l -> is_Some (own !! c)
}.

Record sys_inv (n : Z) (s : Sys) : Prop := {
  si_config : validate parse_cidr parse_url (app_config (sys_app s)) = Ok tt;
  si_sched : wf_config (sched_config (sys_app s));
  si_inner : Inv (sched_config (sys_app s)) (app_scheduler (sys_app s));
  si_linked : linked (owner s) (all_items (queues (app_scheduler (sys_app s)))) (app_pending (sys_app s))
                (delivered (sys_app s)) (enqueued s) (waiting s);
  si_accounts : accounts (app_concurrency (sys_app s)) (app_pools (sys_app s)) (used s) (holders s);
  si_guards : Forall (fun g => concurrency_entered g = true /\ counted_active g = true) (guards s);
  si_active : m_active (app_metrics (sys_app s)) = Z.of_nat (length (guards s));
  si_size : Z.of_nat (length (holders s)) <= n
}.
End system.
Arguments Sys K : clear implicits.

(** ** Accounting *)

Lemma inside_counts_perm cs l l' : l ≡ₚ l' -> inside_counts cs l -> inside_counts cs l'.
Proof.
  intros HP [H1 H2]. split; intros k; [rewrite (H1 k), (count_perm k (tenant <$> l) (tenant <$> l')) by (by rewrite HP)
    | rewrite (H2 k), (count_perm k (application <$> l) (application <$> l')) by (by rewrite HP)]; done.
Qed.

#[export] Instance inside_counts_proper cs : Proper ((≡ₚ) ==> iff) (inside_counts cs).
Proof. intros l l' HP. split; apply inside_counts_perm; [done | by symmetry]. Qed.

Lemma omap_Permutation {A B} (f : A -> option B) l l' : l ≡ₚ l' -> omap f l ≡ₚ omap f l'.
Proof.
  induction 1 as [|x l l' _ IH|x y l|l l' l'' _ IH1 _ IH2]; cbn; [done | destruct (f x); by rewrite ?IH
    | destruct (f x), (f y); auto using Permutation_swap | by rewrite IH1].
Qed.

#[export] Instance ledger_proper pools : Proper ((≡ₚ) ==> iff) (ledger pools).
Proof. intros l l' HP. split; intros HL p id; specialize (HL p id); [rewrite <- HP | rewrite HP]; done. Qed.

(** One pool's ledger under a change that touches a single reservation. *)
Section one_pool.
Context (pools : gmap string PoolRuntime) (p : string) (pr : PoolRuntime) (id : Uuid) (l : list (string * Uuid)).
Hypothesis Hp : pools !! p = Some pr.
Hypothesis HL : ledger pools l.
Local Abbreviation res m := (reservations (state m)).

Lemma ledger_insert m c : res m = <[id := c]> (res (pr_capacity pr)) ->
  ledger (<[p := mkPoolRuntime m (pr_limit pr)]> pools) ((p, id) :: l).
Proof.
  intros E q j. rewrite elem_of_cons, <- (HL q j). destruct (decide (q = p)) as [-> | Hq].
  - rewrite lookup_insert_eq, Hp. split.
    + intros (x & [= <-] & Hr). cbn [pr_capacity] in Hr. rewrite E in Hr.
      destruct (decide (j = id)) as [-> |]; [by left|]. rewrite lookup_insert_ne in Hr by done. right. eauto.
    + intros [[= ->] | (x & [= <-] & Hr)]; (eexists; split; [done|]); cbn [pr_capacity]; rewrite E.
      * by rewrite lookup_insert_eq.
      * rewrite lookup_insert_is_Some. destruct (decide (id = j)); auto.
  - rewrite lookup_insert_ne by done. split; [by right | intros [[= ] | ]; [by subst | done]].
Qed.

Lemma ledger_delete m l' : res m = delete id (res (pr_capacity pr)) -> l ≡ₚ (p, id) :: l' -> NoDup l ->
  ledger (<[p := mkPoolRuntime m (pr_limit pr)]> pools) l'.
Proof.
  intros E HP HN. assert (HN' : NoDup ((p, id) :: l')) by (by rewrite <- HP). apply NoDup_cons in HN' as [Hni _].
  intros q j. specialize (HL q j). rewrite HP, elem_of_cons in HL. destruct (decide (q = p)) as [-> | Hq].
  - rewrite lookup_insert_eq. rewrite Hp in HL. destruct (decide (j = id)) as [-> | Hj].
    + split; [|done]. intros (x & [= <-] & Hr). cbn [pr_capacity] in Hr. rewrite E, lookup_delete_eq in Hr. by destruct Hr.
    + split.
      * intros (x & [= <-] & Hr). cbn [pr_capacity] in Hr. rewrite E, lookup_delete_ne in Hr by done.
        destruct (proj1 HL) as [[= ]|]; [by eauto | done | done].
      * intros Hl. destruct (proj2 HL (or_intror Hl)) as (x & [= <-] & Hr). eexists. split; [done|]. cbn [pr_capacity].
        by rewrite E, lookup_delete_ne.
  - rewrite lookup_insert_ne by done. rewrite HL. split; [intros [[= ] | ]; [by subst | done] | by right].
Qed.
End one_pool.

Section accounting.
Context (cs : ConcurrencyState) (pools : gmap string PoolRuntime) (ids : gset Uuid).

Lemma accounts_perm l l' : l ≡ₚ l' -> accounts cs pools ids l -> accounts cs pools ids l'.
Proof.
  intros HP []. pose proof (omap_Permutation snd _ _ HP) as HO'. split.
  - by rewrite <- HP.
  - by rewrite <- HO'.
  - by rewrite <- HO'.
  - intros p id. rewrite <- HO'. eauto.
Qed.

Lemma accounts_used ids' l : ids ⊆ ids' -> accounts cs pools ids l -> accounts cs pools ids' l.
Proof. intros Hs []. split; eauto. Qed.

Lemma count_length k l : count k l <= Z.of_nat (length l).
Proof. unfold count. pose proof (length_filter (fun x => x = k) l). lia. Qed.

Lemma accounts_enter l i : Z.of_nat (length l) < U64_MAX -> accounts cs pools ids l ->
  accounts (force_enter cs i) pools ids ((i, None) :: l).
Proof.
  intros HB []. split; [|done..]. cbn. apply enter_counts; [done|..];
    (eapply Z.le_lt_trans; [apply count_length|]); by rewrite !length_fmap.
Qed.

Lemma accounts_leave l l' i : l ≡ₚ (i, None) :: l' -> accounts cs pools ids l -> accounts (leave cs i) pools ids l'.
Proof.
  intros HP HA%(accounts_perm _ _ HP). destruct HA. split; [|done..]. by eapply leave_counts.
Qed.

Lemma accounts_track l i p pr id c : accounts cs pools ids ((i, None) :: l) -> pools !! p = Some pr -> id ∉ ids ->
  accounts cs (<[p := mkPoolRuntime (track_distributed (pr_capacity pr) id c) (pr_limit pr)]> pools) ({[ id ]} ∪ ids)
    ((i, Some (p, id)) :: l).
Proof.
  intros [] Hp Hi. split; cbn; [done | by eapply ledger_insert | |].
  - constructor; [|done]. intros Hl. by eapply Hi, ac_used0.
  - intros q j. rewrite elem_of_cons. intros [[= -> ->] | Hl]; [set_solver|]. apply ac_used0 in Hl. set_solver.
Qed.

Lemma accounts_release l i p pr id w actual b : accounts cs pools ids ((i, Some (p, id)) :: l) -> pools !! p = Some pr ->
  accounts cs (<[p := mkPoolRuntime (release (pr_capacity pr) id w actual b).1 (pr_limit pr)]> pools) ids ((i, None) :: l).
Proof.
  intros [] Hp. cbn in *. split; cbn; [done | | by eapply NoDup_cons_1_2 | intros; eapply ac_used0; by right].
  assert (Hr : is_Some (reservations (state (pr_capacity pr)) !! id)).
  { destruct (proj2 (ac_ledger0 p id)) as (x & Hx & ?); [by left|]. rewrite Hp in Hx. by injection Hx as <-. }
  eapply ledger_delete; [done | done | | reflexivity | done].
  destruct (release (pr_capacity pr) id w actual b) as [m' x] eqn:E.
  apply release_cases in E as [(En & _) | (c & _ & _ & _ & _ & Ed & _)]; [by rewrite En in Hr; destruct Hr | done].
Qed.
End accounting.
