(* ===== verification/ProxyInv.v ===== *)
(** * The steps of the proxy keep its invariant

    What each piece of the handler and of the dispatcher does to the queues, to
    the concurrency counters and to the capacity ledgers, and from it that
    every step of [sstep] preserves [sys_inv]. *)

From stdpp Require Import base gmap strings countable sorting list.
From Stdlib Require Import ZArith Lia SpecFloat.
From S2P Require Import Prelude Rounding F64 F64Facts Core Scheduler SchedulerInv Capacity Coordinator Config Admission Proxy ProxyHttp ProxySystem.

Open Scope Z_scope.

Section pieces.
Context {K : Type} `{CoordinatorLaws K} {HO : HashOrder}.
Implicit Types (a : App K) (l : list (IdentityContext * option (string * Uuid))).

Lemma reserve_lease_id k envs ttl pending r config limit charged k' leases :
  reserve_distributed k envs ttl pending r config limit charged = (k', Ok (Some leases)) ->
  lease_id (capacity_lease leases) = env_id (env_capacity envs).
Proof.
  unfold reserve_distributed. repeat case_match; intros E; simplify_eq/=.
  match goal with X : c_reserve_scoped _ _ _ _ _ _ _ _ = _ |- _ => apply reserve_scoped_granted in X as (_ & E & _) end.
  exact E.
Qed.

Lemma try_enter_cases cs i config cs' b : try_enter cs i config = (cs', b) -> cs' = if b then force_enter cs i else cs.
Proof. unfold try_enter. destruct (_ || _); by intros [= <- <-]. Qed.

Lemma on_pool_some a p f pr : app_pools a !! p = Some pr ->
  on_pool a p f = set_pools a (<[p := mkPoolRuntime (f (pr_capacity pr)) (pr_limit pr)]> (app_pools a)).
Proof. intros E. unfold on_pool. by rewrite E. Qed.

(** The fields that admission itself leaves alone. *)
Definition frame a a' : Prop :=
  app_config a' = app_config a /\ sched_config a' = sched_config a /\ app_pending a' = app_pending a /\
  delivered a' = delivered a /\ m_active (app_metrics a') = m_active (app_metrics a).

Definition app_accounts a (ids : gset Uuid) l : Prop := accounts (app_concurrency a) (app_pools a) ids l.

(** Entering and leaving again changes nothing. *)
Lemma accounts_enter_leave cs pools ids l i : Z.of_nat (length l) < U64_MAX -> accounts cs pools ids l ->
  accounts (leave (force_enter cs i) i) pools ids l.
Proof. intros HB HA. eapply accounts_leave; [reflexivity | by apply accounts_enter]. Qed.

Lemma accounts_more cs pools ids id l : accounts cs pools ids l -> accounts cs pools ({[ id ]} ∪ ids) l.
Proof. apply accounts_used. set_solver. Qed.

(** What the first part of the handler did, by its result. *)
Definition started a (r : AdmissionRequest) (body : Z) (now : Z) (ch : N) (ids : gset Uuid) l a' (stage : Stage) : Prop :=
  match stage with
  | Respond _ => app_scheduler a' = app_scheduler a /\ app_accounts a' ids l
  | Wait t => tk_request t = r /\ tk_channel t = ch /\ tk_body t = body /\ app_accounts a' ids l /\
      exists cw tw aw d, enqueue (sched_config a) now (app_scheduler a) r body cw tw aw = (app_scheduler a', Ok d)
  | Go ad => app_scheduler a' = app_scheduler a /\ ad_request ad = r /\ ad_entered ad = true /\
      app_accounts a' ids ((identity r, (fun x => (Core.pool r, lease_id (capacity_lease x))) <$> ad_leases ad) :: l)
  end.

Section starting.
Context (parse_uuid : string -> option Uuid) (uuid_to_string : Uuid -> string).

Lemma admit_request_spec a config app pool class r body envs now ch ids l a' stage :
  app_pools a !! Core.pool r = Some pool -> env_id (env_capacity envs) ∉ ids -> Z.of_nat (length l) < U64_MAX ->
  app_accounts a ids l ->
  admit_request uuid_to_string a config app pool class r body envs now ch = (a', stage) ->
  frame a a' /\ started a r body now ch ({[ env_id (env_capacity envs) ]} ∪ ids) l a' stage.
Proof.
  intros Hp Hid HB HA. unfold admit_request. destruct (try_enter _ _ _) as [cs b] eqn:ET. apply try_enter_cases in ET.
  set (imm := if b then _ else _). set (id := env_id _) in *.
  assert (HI : match imm with
    | (a1, Ok (Some leases)) => a1 = set_coord (set_concurrency a (force_enter (app_concurrency a) (identity r))) (coord a1) /\
        lease_id (capacity_lease leases) = id
    | (a1, _) => frame a a1 /\ app_scheduler a1 = app_scheduler a /\ app_accounts a1 ids l
    end).
  { subst imm cs. destruct b.
    - cbn [coord set_concurrency app_lease_ttl app_pending]. destruct (reserve_distributed _ _ _ _ _ _ _ _) as [k [[x|]|e]] eqn:ER.
      + split; [done|]. by eapply reserve_lease_id.
      + split; [done|]. split; [done|]. by apply accounts_enter_leave.
      + split; [done|]. split; [done|]. by apply accounts_enter_leave.
    - split; [done|]. by split; [|destruct a]. }
  destruct imm as [a1 [[leases|]|e]]; cbn beta iota zeta.
  - destruct HI as [E <-]. intros [= <- <-]. rewrite (on_pool_some _ _ _ pool) by (by rewrite E). rewrite E.
    split; [done|]. split_and!; [done..|]. cbn. apply accounts_track; [by apply accounts_enter | done | done].
  - destruct HI as (F & Es & HA1). apply (accounts_more _ _ _ id) in HA1. case_bool_decide.
    { intros [= <- <-]. split; [exact F|]. split_and!; [done..|]. by apply accounts_enter. }
    destruct (negb _). { intros [= <- <-]. split; [exact F|]. by split. }
    destruct F as (F1 & F2 & F3 & F4 & F5). rewrite F2, Es.
    destruct (enqueue _ _ _ _ _ _ _ _) as [s [d|e]] eqn:EQ; intros [= <- <-]; split; [done | | done | done].
    split_and!; [done..|]. cbn. eauto.
  - destruct HI as (F & Es & HA1). intros [= <- <-]. split; [done|]. split; [done|]. by apply accounts_more.
Qed.

(** The handler up to its first wait: it either answers at once or admits. *)
Definition handled a (inc : Incoming) (now : Z) (ch : N) (ids : gset Uuid) l a' (stage : Stage) : Prop :=
  frame a a' /\
  ((exists resp, stage = Respond resp /\ app_scheduler a' = app_scheduler a /\ app_accounts a' ids l) \/
   exists r body, in_body inc = Some body /\ started a r body now ch ids l a' stage).

Lemma handle_start_spec a inc envs now ch ids l a' stage :
  env_id (env_capacity envs) ∉ ids -> Z.of_nat (length l) < U64_MAX -> app_accounts a ids l ->
  handle_start parse_uuid uuid_to_string a inc envs now ch = Returns (a', stage) ->
  handled a inc now ch ({[ env_id (env_capacity envs) ]} ∪ ids) l a' stage.
Proof.
  intros Hid HB HA. pose proof (accounts_more _ _ _ (env_id (env_capacity envs)) _ HA) as HA'.
  set (ids' := _ ∪ ids) in *.
  assert (HR : forall a1 resp, a1 = a \/ a1 = count_request a -> handled a inc now ch ids' l a1 (Respond resp)).
  { intros a1 resp [-> | ->]; (split; [done|]); left; eauto. }
  unfold handle_start. destruct (draining a); [intros [= <- <-]; apply HR; auto|].
  destruct (in_body inc) as [body|] eqn:EB; [|intros [= <- <-]; apply HR; auto].
  destruct (_ <? body); [intros [= <- <-]; apply HR; auto|].
  destruct (in_identity inc) as [who|e]; [|intros [= <- <-]; apply HR; auto].
  destruct (effective_class_of _ _ _) as [eff app]. destruct (choose_pool _ _) as [pn|]; [|done].
  destruct (app_pools _ !! pn) as [pool|] eqn:EP; [|intros [= <- <-]; apply HR; auto].
  destruct (in_estimate inc pn) as [est|]; [|intros [= <- <-]; apply HR; auto].
  destruct (in_stored inc); [|intros [= <- <-]; apply HR; auto]. destruct (service_classes _ !! _) as [class|]; [|done].
  intros [= E].
  match type of E with admit_request _ _ _ _ _ _ ?r _ _ _ _ = _ =>
    destruct (admit_request_spec (count_request a) _ _ _ _ r _ _ _ _ ids l a' stage EP Hid HB HA E) as [F S] end.
  split; [done|]. right. do 2 eexists. split; [done|]. exact S.
Qed.
End starting.

(** One dispatcher iteration, by what happens to the request it pops. *)
Inductive ticked a (ids : gset Uuid) l a' : Prop :=
| ticked_idle : app_scheduler a' = app_scheduler a -> app_pending a' = app_pending a -> delivered a' = delivered a ->
    app_accounts a' ids l -> ticked a ids l a'
| ticked_gone it : all_items (queues (app_scheduler a)) ≡ₚ it :: all_items (queues (app_scheduler a')) ->
    app_pending a' = delete (item_id it) (app_pending a) -> delivered a' = delivered a -> app_accounts a' ids l ->
    ticked a ids l a'
| ticked_back it p : app_pending a !! item_id it = Some p ->
    (forall i, i ∈ all_items (queues (app_scheduler a')) -> i ∈ all_items (queues (app_scheduler a)) \/ request i = pending_request p) ->
    app_pending a' = app_pending a -> delivered a' = delivered a -> app_accounts a' ids l ->
    ticked a ids l a'
| ticked_sent it p leases : it ∈ all_items (queues (app_scheduler a)) -> app_pending a !! item_id it = Some p ->
    all_items (queues (app_scheduler a)) ≡ₚ it :: all_items (queues (app_scheduler a')) ->
    app_pending a' = delete (item_id it) (app_pending a) -> delivered a' = <[sender p := leases]> (delivered a) ->
    app_accounts a' ids ((identity (request it), Some (Core.pool (request it), lease_id (capacity_lease leases))) :: l) ->
    ticked a ids l a'.

Definition tick_frame a a' : Prop :=
  app_config a' = app_config a /\ sched_config a' = sched_config a /\ m_active (app_metrics a') = m_active (app_metrics a).

Lemma enqueue_sub config now s r body cw tw aw s' out i : enqueue config now s r body cw tw aw = (s', out) ->
  i ∈ all_items (queues s') -> i ∈ all_items (queues s) \/ request i = r.
Proof.
  intros E Hi. apply enqueue_cases in E as [(_ & _ & Eq & _) | (_ & -> & _)]; [|by left].
  rewrite Eq, (enqueue_items now s r body) in Hi by done. apply elem_of_cons in Hi as [-> | Hi]; [by right | by left].
Qed.

(** Requeueing drops an expired request and puts any other back. *)
Lemma requeue_spec a id p now elapsed ids l :
  wf_config (sched_config a) -> Inv (sched_config a) (app_scheduler a) -> 0 <= pending_body_bytes p ->
  app_accounts a ids l ->
  let a' := requeue a id p now elapsed in
  tick_frame a a' /\ Inv (sched_config a) (app_scheduler a') /\ delivered a' = delivered a /\ app_accounts a' ids l /\
  ((app_scheduler a' = app_scheduler a /\ app_pending a' = app_pending a) \/
   (app_pending a' = <[id := p]> (app_pending a) /\
    forall i, i ∈ all_items (queues (app_scheduler a')) -> i ∈ all_items (queues (app_scheduler a)) \/ request i = pending_request p)).
Proof.
  intros HW HI HB HA. unfold requeue. destruct (_ <=? elapsed); cbv zeta.
  - split_and!; [done..|]. by left.
  - destruct (enqueue _ _ _ _ _ _ _ _) as [s out] eqn:E. cbn. split_and!; [done.. | by eapply enqueue_Inv | done | done |].
    right. split; [done|]. intros i. by apply (enqueue_sub _ _ _ _ _ _ _ _ _ _ i E).
Qed.

(** A popped request that is put back or dropped as expired. *)
Lemma requeue_ticked a a1 it p now elapsed ids l :
  wf_config (sched_config a) -> Inv (sched_config a) (app_scheduler a1) -> tick_frame a a1 -> delivered a1 = delivered a ->
  all_items (queues (app_scheduler a)) ≡ₚ it :: all_items (queues (app_scheduler a1)) ->
  app_pending a !! item_id it = Some p -> 0 <= pending_body_bytes p ->
  app_pending a1 = delete (item_id it) (app_pending a) -> app_accounts a1 ids l ->
  let a' := requeue a1 (item_id it) p now elapsed in
  tick_frame a a' /\ Inv (sched_config a) (app_scheduler a') /\ ticked a ids l a'.
Proof.
  intros HW HI (F1 & F2 & F3) HD HP Ep Hb E1 HA. rewrite <- F2 in HW, HI.
  destruct (requeue_spec a1 (item_id it) p now elapsed ids l HW HI Hb HA) as ((G1 & G2 & G3) & HI' & HD' & HA' & HC).
  cbv zeta. rewrite <- F2. split; [unfold tick_frame; split_and!; congruence|]. split; [done|]. destruct HC as [[Es Eq] | [Eq Hs]].
  - eapply ticked_gone; [by rewrite Es | congruence | congruence | done].
  - eapply ticked_back; [exact Ep | | rewrite Eq, E1, insert_delete_id; done | congruence | done].
    intros i Hi. apply Hs in Hi as [Hi | Hi]; [left | by right]. rewrite HP. by right.
Qed.

Lemma tick_spec a envs undo now clock ids l a' :
  wf_config (sched_config a) -> Inv (sched_config a) (app_scheduler a) ->
  (forall i p, app_pending a !! i = Some p -> 0 <= pending_body_bytes p) ->
  env_id (env_capacity envs) ∉ ids -> Z.of_nat (length l) < U64_MAX -> app_accounts a ids l ->
  dispatcher_tick a envs undo now clock = Returns a' ->
  tick_frame a a' /\ Inv (sched_config a) (app_scheduler a') /\ ticked a ({[ env_id (env_capacity envs) ]} ∪ ids) l a'.
Proof.
  intros HW HI HP Hid HB HA. pose proof (accounts_more _ _ _ (env_id (env_capacity envs)) _ HA) as HA'.
  unfold dispatcher_tick. destruct (pop_cases (sched_config a) now (app_scheduler a) (inv_queues _ _ HI)) as
    [(_ & ->) | (k & q & it & rest & s1 & _ & _ & _ & EP & _ & HS)].
  { intros [= <-]. split_and!; [done.. | done |]. by apply ticked_idle. }
  pose proof (pop_Inv _ _ _ _ _ HW HI EP) as HI1. rewrite EP. destruct HS as [HS _ _ _ _ _].
  cbn [app_pending set_scheduler app_pools set_pending]. change (req_id (request it)) with (item_id it).
  destruct (app_pending a !! item_id it) as [p|] eqn:EPp.
  2: { intros [= <-]. split_and!; [done.. |]. eapply ticked_gone; [done | by rewrite delete_id | done | done]. }
  set (a1 := set_pending (set_scheduler a s1) (delete (item_id it) (app_pending a))).
  assert (Hb : 0 <= pending_body_bytes p) by eauto.
  destruct (app_pools a !! Core.pool (request it)) as [pool|] eqn:EPool.
  2: { intros [= <-]. split_and!; [done.. |]. by eapply ticked_gone. }
  destruct (try_enter _ _ _) as [cs b] eqn:ET. apply try_enter_cases in ET. subst cs. cbv zeta. destruct b; cbn [negb].
  2: { intros [= <-]. by apply (requeue_ticked a). }
  cbn [coord set_concurrency app_lease_ttl app_pending app_concurrency].
  set (i := identity (request it)) in *. pose proof (accounts_enter_leave _ _ _ _ i HB HA') as HEL.
  destruct (reserve_distributed _ _ _ _ _ _ _ _) as [k' [[leases|]|e]] eqn:ER.
  - pose proof (reserve_lease_id _ _ _ _ _ _ _ _ _ _ ER) as EL.
    rewrite (on_pool_some _ _ _ pool) by done. rewrite <- EL in Hid |- *.
    pose proof (accounts_track _ _ _ _ _ (Core.pool (request it)) pool (lease_id (capacity_lease leases))
      (charged_units (pr_capacity pool) (normalized_units (estimate (request it))))
      (accounts_enter _ _ _ _ i HB HA) EPool Hid) as HT.
    case_bool_decide.
    + intros [= <-]. split_and!; [done.. |]. eapply ticked_sent; [|exact EPp | done | done | done | exact HT].
      rewrite HS. by left.
    + intros [= <-]. unfold release_leases. rewrite (on_pool_some _ _ _ _ (lookup_insert_eq _ _ _)).
      split_and!; [done.. |]. eapply ticked_gone; [done.. |].
      exact (accounts_leave _ _ _ _ _ i (reflexivity _)
               (accounts_release _ _ _ _ _ _ _ _ _ _ _ HT (lookup_insert_eq _ _ _))).
  - intros [= <-]. by apply (requeue_ticked a).
  - intros [= <-]. by apply (requeue_ticked a).
Qed.

(** ** Guards *)

Definition inert (g : Guard) : Prop := g_leases g = None /\ concurrency_entered g = false /\ counted_active g = false.

(** Nothing but counters, ledgers and leases changes when a guard ends. *)
Definition guard_frame a a' : Prop :=
  app_config a' = app_config a /\ sched_config a' = sched_config a /\ app_scheduler a' = app_scheduler a /\
  app_pending a' = app_pending a /\ delivered a' = delivered a /\
  m_active (app_metrics a') = wsub (m_active (app_metrics a)) 1.

(** The ledger entry of a guard's capacity lease goes away. *)
Lemma return_lease a ids l g leases f :
  g_leases g = Some leases -> app_accounts a ids (guard_holder g :: l) ->
  (exists w actual b, forall m, f m = (release m (lease_id (capacity_lease leases)) w actual b).1) ->
  let a' := on_pool a (g_pool g) f in
  a' = set_pools a (app_pools a') /\ app_accounts a' ids ((g_identity g, None) :: l).
Proof.
  intros El HA (w & actual & b & Ef). unfold guard_holder in HA. rewrite El in HA. cbn in HA.
  destruct (proj2 (ac_ledger _ _ _ _ HA (g_pool g) (lease_id (capacity_lease leases)))) as (pr & Hp & _); [by left|].
  cbv zeta. rewrite (on_pool_some _ _ _ _ Hp), Ef. split; [done|]. by apply (accounts_release _ _ _ _ _ _ _ _ _ _ _ HA Hp).
Qed.

(** Leaving the counters, once. *)
Lemma release_local_spec a g ids l : concurrency_entered g = true -> counted_active g = true -> g_leases g = None ->
  app_accounts a ids ((g_identity g, None) :: l) ->
  guard_frame a (release_local a g).1 /\ app_accounts (release_local a g).1 ids l /\ inert (release_local a g).2 /\
  coord (release_local a g).1 = coord a.
Proof.
  intros E1 E2 E3 HA. unfold release_local. rewrite E1, E2. split_and!; [done | | done | done].
  by apply (accounts_leave _ _ _ _ _ (g_identity g) (reflexivity _)).
Qed.

Lemma inert_drop a g envs : inert g -> drop_guard a g envs = (a, g).
Proof. intros (E1 & E2 & E3). destruct g. cbn in *. by subst. Qed.

Lemma inert_complete a g actual b envs : inert g -> complete a g actual b envs = (a, g).
Proof. intros (E1 & E2 & E3). destruct g. cbn in *. by subst. Qed.

Lemma drop_spec a g envs ids l : concurrency_entered g = true -> counted_active g = true ->
  app_accounts a ids (guard_holder g :: l) ->
  guard_frame a (drop_guard a g envs).1 /\ app_accounts (drop_guard a g envs).1 ids l /\ inert (drop_guard a g envs).2.
Proof.
  intros E1 E2 HA. unfold drop_guard. destruct (g_leases g) as [leases|] eqn:El.
  - set (f := fun m => _).
    destruct (return_lease a ids l g leases f El HA) as [Ea HA1]; [by do 3 eexists|]. cbv zeta in Ea, HA1.
    set (a1 := on_pool a (g_pool g) f) in *.
    destruct (release_local_spec (release_leases a1 envs leases) (take_leases g) ids l E1 E2 eq_refl HA1) as (F & HA2 & HI & _).
    split_and!; [|done..]. by rewrite Ea in F |- *.
  - unfold guard_holder in HA. rewrite El in HA.
    destruct (release_local_spec a (take_leases g) ids l E1 E2 eq_refl HA) as (F & HA2 & HI & _). done.
Qed.

Lemma complete_spec a g actual b envs ids l : concurrency_entered g = true -> counted_active g = true ->
  app_accounts a ids (guard_holder g :: l) ->
  guard_frame a (complete a g actual b envs).1 /\ app_accounts (complete a g actual b envs).1 ids l /\
  inert (complete a g actual b envs).2.
Proof.
  intros E1 E2 HA. unfold complete. destruct (g_leases g) as [leases|] eqn:El.
  - set (f := fun m => _).
    destruct (return_lease (release_leases a envs leases) ids l g leases f El HA) as [Ea HA1]; [by do 3 eexists|].
    cbv zeta in Ea, HA1. set (a1 := on_pool _ (g_pool g) f) in *.
    destruct (release_local_spec a1 (take_leases g) ids l E1 E2 eq_refl HA1) as (F & HA2 & HI & _).
    destruct (release_local a1 (take_leases g)) as [a2 g2]. rewrite inert_drop by done. split_and!; [|done..].
    by rewrite Ea in F.
  - unfold guard_holder in HA. rewrite El in HA.
    destruct (release_local_spec a (take_leases g) ids l E1 E2 eq_refl HA) as (F & HA2 & HI & _).
    destruct (release_local a (take_leases g)) as [a2 g2]. by rewrite inert_drop.
Qed.
End pieces.

(** ** Queue entries and their owners *)

Section links.
Context (own : gmap N AdmissionRequest) (items : list Queued) (pending : gmap Uuid Pending)
        (deliv : gmap N AdmissionLeases) (enq wait : list Ticket).
Hypothesis HL : linked own items pending deliv enq wait.

(** Entries may disappear, and known requests may come back. *)
Lemma linked_shrink items' pending' wait' :
  (forall it, it ∈ items' -> it ∈ items \/ exists c, own !! c = Some (request it)) ->
  (forall i p, pending' !! i = Some p -> pending !! i = Some p) ->
  wait' ⊆+ wait -> linked own items' pending' deliv enq wait'.
Proof.
  intros Hi Hp Hw. assert (Hs : enq ++ wait' ⊆+ enq ++ wait) by (by apply submseteq_app).
  destruct HL as [H1 H2 H3 H4 H5 H6 H7]. split; [done | | by eauto | | | | done].
  - intros it Hit. destruct (Hi it Hit); eauto.
  - intros t Ht. apply H4. by eapply elem_of_submseteq.
  - intros t Ht. destruct (H5 t Ht) as [E1 E2]. split; [done|]. destruct (pending' !! _) eqn:E; [|done].
    apply Hp in E. congruence.
  - apply submseteq_Permutation in Hs as [k Hk]. rewrite Hk, fmap_app, NoDup_app in H6. apply H6.
Qed.

Lemma linked_perm enq' : enq ≡ₚ enq' -> linked own items pending deliv enq' wait.
Proof.
  intros HP. destruct HL as [H1 H2 H3 H4 H5 H6 H7]. split; [done | done | done | | | | done].
  - intros t. rewrite <- HP. apply H4.
  - intros t. rewrite <- HP. apply H5.
  - by rewrite <- HP.
Qed.

(** A new request is enqueued. *)
Lemma linked_enqueue items' t :
  own !! tk_channel t = None -> (forall c r, own !! c = Some r -> req_id r <> req_id (tk_request t)) -> 0 <= tk_body t ->
  (forall it, it ∈ items' -> it ∈ items \/ request it = tk_request t) ->
  linked (<[tk_channel t := tk_request t]> own) items' pending deliv (t :: enq) wait.
Proof.
  intros Hc Hid Hb Hi. destruct HL as [H1 H2 H3 H4 H5 H6 H7].
  assert (Hk : forall c r, own !! c = Some r -> <[tk_channel t := tk_request t]> own !! c = Some r).
  { intros c r Hr. rewrite lookup_insert_ne; [done | congruence]. }
  assert (Hd : deliv !! tk_channel t = None).
  { destruct (deliv !! tk_channel t) eqn:E; [|done]. apply H7 in E as [? E]. congruence. }
  split.
  - intros c1 c2 r1 r2. rewrite !lookup_insert_Some. intros [[<- <-] | [N1 E1]] [[<- <-] | [N2 E2]] E; [done | | | by eauto].
    + by destruct (Hid _ _ E2).
    + by destruct (Hid _ _ E1).
  - intros it Hit. destruct (Hi it Hit) as [Ho | ->]; [destruct (H2 it Ho) as [c Ec]; eauto|].
    exists (tk_channel t). by rewrite lookup_insert_eq.
  - intros i p Hp. destruct (H3 i p Hp) as (E1 & E2 & E3 & E4). eauto.
  - intros x Hx. cbn in Hx. apply elem_of_cons in Hx as [-> | Hx]; [by rewrite lookup_insert_eq|].
    destruct (H4 x Hx) as [E1 E2]. eauto.
  - intros x Hx. apply elem_of_cons in Hx as [-> | Hx]; [split; [done|] | by auto].
    destruct (pending !! req_id (tk_request t)) as [p|] eqn:E; [|done]. destruct (H3 _ _ E) as (E1 & E2 & _).
    by destruct (Hid _ _ E1).
  - cbn. constructor; [|done]. intros (x & Ex & Hx)%list_elem_of_fmap. apply H4 in Hx as [Hx _]. congruence.
  - intros c l Hl. destruct (H7 c l Hl) as [r Hr]. eauto.
Qed.

(** The enqueued request is registered. *)
Lemma linked_insert t rest p :
  enq ≡ₚ t :: rest -> sender p = tk_channel t -> pending_request p = tk_request t -> pending_body_bytes p = tk_body t ->
  linked own items (<[req_id (tk_request t) := p]> pending) deliv rest (t :: wait).
Proof.
  intros HP Es Er Eb. destruct HL as [H1 H2 H3 H4 H5 H6 H7].
  assert (Ht : t ∈ enq) by (rewrite HP; by left). destruct (H4 t) as [Eo Hb]; [set_solver|]. destruct (H5 t Ht) as [Ed En].
  assert (HP' : rest ++ t :: wait ≡ₚ enq ++ wait) by (rewrite HP; cbn; by rewrite <- Permutation_middle).
  split; [done | done | | | | | done].
  - intros i q. rewrite lookup_insert_Some. intros [[<- <-] | [_ Hq]]; [|by auto]. rewrite Es, Er, Eb. done.
  - intros x. rewrite HP'. apply H4.
  - intros x Hx. assert (Hxe : x ∈ enq) by (rewrite HP; by right). destruct (H5 x Hxe) as [Xd Xn]. split; [done|].
    rewrite lookup_insert_ne; [done|]. intros E. destruct (H4 x) as [Xo _]; [set_solver|].
    pose proof (H1 _ _ _ _ Eo Xo E) as Ec. rewrite <- HP', fmap_app, fmap_cons in H6.
    rewrite NoDup_app in H6. destruct H6 as (_ & H6 & _). apply (H6 (tk_channel x)).
    + apply list_elem_of_fmap. eauto.
    + rewrite <- Ec. by left.
  - by rewrite HP'.
Qed.

(** The leases for a popped request are delivered. *)
Lemma linked_send items' it p leases :
  items ≡ₚ it :: items' -> pending !! item_id it = Some p ->
  pending_request p = request it /\ deliv !! sender p = None /\ own !! sender p = Some (request it) /\
  linked own items' (delete (item_id it) pending) (<[sender p := leases]> deliv) enq wait.
Proof.
  intros HP Hp. destruct HL as [H1 H2 H3 H4 H5 H6 H7]. destruct (H3 _ _ Hp) as (Eo & Ei & Ed & Eb).
  destruct (H2 it) as [c Ec]; [rewrite HP; by left|]. pose proof (H1 _ _ _ _ Eo Ec Ei) as Es. subst c.
  rewrite Ec in Eo. injection Eo as Eo. split_and!; [done | done | done |]. split; [done | | | done | | done |].
  - intros i Hi. apply H2. rewrite HP. by right.
  - intros i q. rewrite lookup_delete_Some. intros [Hne Hq]. destruct (H3 i q Hq) as (Qo & Qi & Qd & Qb).
    split_and!; [done | done | | done]. rewrite lookup_insert_ne; [done|]. intros E. rewrite <- E in Qo.
    rewrite Ec in Qo. injection Qo as Qo. apply Hne. rewrite <- Qi, <- Qo. done.
  - intros t Ht. destruct (H5 t Ht) as [Td Tn]. rewrite lookup_delete_None, lookup_insert_ne; [auto|].
    intros E. destruct (H4 t) as [To _]; [set_solver|]. rewrite <- E, Ec in To. injection To as To.
    rewrite <- To in Tn. change (pending !! item_id it = None) in Tn. congruence.
  - intros c l. rewrite lookup_insert_Some. intros [[<- _] | [_ Hc]]; eauto.
Qed.

(** The handler takes them. *)
Lemma linked_take wait' c :
  wait' ⊆+ wait -> linked own items pending (delete c deliv) enq wait'.
Proof.
  intros Hw. destruct (linked_shrink items pending wait') as [H1 H2 H3 H4 H5 H6 H7]; [by left | done | done |].
  split; [done | done | | done | | done |].
  - intros i p Hp. destruct (H3 i p Hp) as (E1 & E2 & E3 & E4). rewrite lookup_delete_None. auto.
  - intros t Ht. rewrite lookup_delete_None. destruct (H5 t Ht). auto.
  - intros x l. rewrite lookup_delete_Some. intros [_ Hx]. eauto.
Qed.
End links.
