(* ===== verification/ProxyThms.v ===== *)
(** * Properties of the proxy as a whole (crates/proxy)

    Every interleaving of handlers, dispatcher, reloads and drain keeps
    [sys_inv]; from it: no panic, exact accounting of concurrency and capacity,
    guards that release exactly once. *)

From stdpp Require Import base gmap strings countable sorting list.
From Stdlib Require Import ZArith Lia SpecFloat.
From S2P Require Import Prelude Rounding F64 F64Facts Core Scheduler SchedulerInv Capacity Coordinator Config Admission Proxy ProxyHttp ProxySystem ProxyInv.

Open Scope Z_scope.

Section preservation.
Context {K : Type} `{CoordinatorLaws K} {HO : HashOrder}.
Context (parse_uuid : string -> option Uuid) (uuid_to_string : Uuid -> string).
Context (parse_cidr : string -> result string unit) (parse_url : string -> result string Url).
Local Abbreviation inv := (sys_inv (K := K) parse_cidr parse_url).
Implicit Types (s : Sys K) (a : App K).

(** ** Holders *)

Lemma holders_owner own (deliv : gmap N AdmissionLeases) c r :
  own !! c = None -> (forall x l, deliv !! x = Some l -> is_Some (own !! x)) ->
  delivered_holder (<[c := r]> own) <$> map_to_list deliv = delivered_holder own <$> map_to_list deliv.
Proof.
  intros Hc Hd. apply list_fmap_ext. intros i [x l] Hx. apply list_elem_of_lookup_2, elem_of_map_to_list, Hd in Hx as [y Hy].
  unfold delivered_holder. cbn [fst snd]. rewrite lookup_insert_ne; [done | congruence].
Qed.

Lemma holders_send own (deliv : gmap N AdmissionLeases) c r leases :
  own !! c = Some r -> deliv !! c = None ->
  delivered_holder own <$> map_to_list (<[c := leases]> deliv) ≡ₚ
  (identity r, Some (Core.pool r, lease_id (capacity_lease leases))) :: (delivered_holder own <$> map_to_list deliv).
Proof. intros Hc Hd. rewrite map_to_list_insert by done. cbn. unfold delivered_holder at 1. cbn. by rewrite Hc. Qed.

Lemma holders_take own (deliv : gmap N AdmissionLeases) c r leases :
  own !! c = Some r -> deliv !! c = Some leases ->
  delivered_holder own <$> map_to_list deliv ≡ₚ
  (identity r, Some (Core.pool r, lease_id (capacity_lease leases))) :: (delivered_holder own <$> map_to_list (delete c deliv)).
Proof. intros Hc Hd. rewrite <- (map_to_list_delete deliv c leases Hd). cbn. unfold delivered_holder at 1. cbn. by rewrite Hc. Qed.

(** ** Steps *)

(** A request is answered at once, or is admitted without waiting. *)
Lemma started_inv n s a' ids (g : option Guard) rec max :
  inv n s -> frame (sys_app s) a' -> app_scheduler a' = app_scheduler (sys_app s) ->
  app_accounts a' ids (option_list (guard_holder <$> g) ++ holders s) ->
  (forall x, g = Some x -> concurrency_entered x = true /\ counted_active x = true) -> n < U64_MAX ->
  inv (n + 1) (mkSys (if g then record_decision (count_admitted a') rec max else a') (owner s) ids (enqueued s) (waiting s) (option_list g ++ guards s)).
Proof.
  intros [] (F1 & F2 & F3 & F4 & F5) Fs HA Hg Hn. destruct g as [g|]; cbn in *.
  - split; cbn; rewrite ?F1, ?F2, ?F3, ?F4, ?F5, ?Fs; try done.
    + constructor; auto.
    + unfold holders in si_size. rewrite length_app, !length_fmap in si_size. rewrite si_active, wadd_id by int64. lia.
    + unfold holders in si_size. lia.
  - split; cbn; rewrite ?F1, ?F2, ?F3, ?F4, ?F5, ?Fs; try done. unfold holders in si_size. lia.
Qed.

Lemma enqueued_inv n s a' ids inc now ch t body :
  inv n s -> frame (sys_app s) a' -> owner s !! ch = None ->
  (forall c r, owner s !! c = Some r -> req_id r <> req_id (tk_request t)) ->
  in_body inc = Some body -> 0 <= body ->
  started (sys_app s) (tk_request t) body now ch ids (holders s) a' (Wait t) ->
  inv (n + 1) (mkSys a' (<[ch := tk_request t]> (owner s)) ids (t :: enqueued s) (waiting s) (guards s)).
Proof.
  intros [] (F1 & F2 & F3 & F4 & F5) Hc Hf Hb Hb0 (_ & Ec & Eb & HA & cw & tw & aw & d & EQ). subst ch.
  assert (HH : holders (mkSys a' (<[tk_channel t := tk_request t]> (owner s)) ids (t :: enqueued s) (waiting s) (guards s)) = holders s).
  { unfold holders. cbn. rewrite F4, holders_owner; [done | done | apply (lk_deliv _ _ _ _ _ _ si_linked)]. }
  split; rewrite ?HH; cbn; rewrite ?F1, ?F2, ?F3, ?F4, ?F5; try done; [| |lia].
  - by eapply enqueue_Inv.
  - eapply linked_enqueue; [done | done | done | by rewrite Eb |]. intros it. by apply (enqueue_sub _ _ _ _ _ _ _ _ _ _ it EQ).
Qed.

Lemma tick_inv n s envs undo now clock a' :
  inv n s -> n < U64_MAX -> fresh_lease s envs -> dispatcher_tick (sys_app s) envs undo now clock = Returns a' ->
  inv (n + 1) (mkSys a' (owner s) (take_lease s envs) (enqueued s) (waiting s) (guards s)).
Proof.
  intros [] Hn Hf E.
  destruct (tick_spec (sys_app s) envs undo now clock (used s) (holders s) a' si_sched si_inner) as ((F1 & F2 & F5) & HI & HT);
    try done; [|lia|].
  { intros i p Hp. apply (lk_pending _ _ _ _ _ _ si_linked i p Hp). }
  fold (take_lease s envs) in HT.
  destruct HT as [Es Ep Ed HA | it HP Ep Ed HA | it p Hp HP Ep Ed HA | it p leases Hit Hp HP Ep Ed HA].
  - split; cbn; unfold holders; cbn; rewrite ?F1, ?F2, ?F5, ?Es, ?Ep, ?Ed; try done; fold (holders s); lia.
  - split; cbn; unfold holders; cbn; rewrite ?F1, ?F2, ?F5, ?Ep, ?Ed; try done; fold (holders s); [|lia].
    eapply linked_shrink; [exact si_linked | | | done].
    + intros i Hi. left. rewrite HP. by right.
    + intros i p. rewrite lookup_delete_Some. by intros [].
  - split; cbn; unfold holders; cbn; rewrite ?F1, ?F2, ?F5, ?Ep, ?Ed; try done; fold (holders s); [|lia].
    eapply linked_shrink; [exact si_linked | | done | done].
    intros i Hi. destruct (HP i Hi) as [Ho | ->]; [by left | right]. destruct (lk_pending _ _ _ _ _ _ si_linked _ p Hp) as [Eo _]. eauto.
  - destruct (linked_send _ _ _ _ _ _ si_linked _ _ p leases HP Hp) as (Er & Ev & Eo & HL).
    pose proof (holders_send _ _ _ _ leases Eo Ev) as HH.
    assert (HH' : (guard_holder <$> guards s) ++ (delivered_holder (owner s) <$> map_to_list (<[sender p := leases]> (delivered (sys_app s)))) ≡ₚ
      (identity (request it), Some (Core.pool (request it), lease_id (capacity_lease leases))) :: holders s).
    { rewrite HH. by rewrite <- Permutation_middle. }
    split; unfold holders; cbn; rewrite ?F1, ?F2, ?F5, ?Ep, ?Ed; try done.
    + eapply accounts_perm; [symmetry; exact HH' | exact HA].
    + rewrite HH'. cbn. lia.
Qed.

(** A guard ends. *)
Lemma ended_inv n s g rest a' :
  inv n s -> guards s ≡ₚ g :: rest -> n < U64_MAX ->
  (forall ids l, concurrency_entered g = true -> counted_active g = true ->
     app_accounts (sys_app s) ids (guard_holder g :: l) -> guard_frame (sys_app s) a' /\ app_accounts a' ids l) ->
  inv (n + 1) (mkSys a' (owner s) (used s) (enqueued s) (waiting s) rest).
Proof.
  intros [] HP Hn HS. rewrite HP in si_guards. apply Forall_cons in si_guards as [[G1 G2] si_guards].
  assert (HH : holders s ≡ₚ guard_holder g :: (guard_holder <$> rest) ++ (delivered_holder (owner s) <$> map_to_list (delivered (sys_app s)))).
  { unfold holders. by rewrite HP. }
  destruct (HS (used s) ((guard_holder <$> rest) ++ (delivered_holder (owner s) <$> map_to_list (delivered (sys_app s)))))
    as ((F1 & F2 & F3 & F4 & F5 & F6) & HA); [done | done | by eapply accounts_perm |].
  assert (HB : Z.of_nat (length rest) < U64_MAX) by (rewrite HH in si_size; cbn in si_size; rewrite length_app, length_fmap in si_size; lia).
  split; unfold holders; cbn; rewrite ?F1, ?F2, ?F3, ?F4, ?F5, ?F6; try done.
  - rewrite si_active, HP. cbn [length]. rewrite wsub_id by int64. lia.
  - rewrite HH in si_size. cbn in si_size. lia.
Qed.

Lemma receive_inv n s t rest age a' ad config a'' g :
  inv n s -> n < U64_MAX -> waiting s ≡ₚ t :: rest -> receive (sys_app s) t age = Some (a', Go ad) ->
  activate a' config ad = (a'', g) ->
  inv (n + 1) (mkSys a'' (owner s) (used s) (enqueued s) rest (g :: guards s)).
Proof.
  intros [] Hn HP ER EA. unfold receive in ER. destruct (delivered (sys_app s) !! tk_channel t) as [leases|] eqn:ED; [|done].
  injection ER as <- <-. unfold activate in EA. cbn in EA. injection EA as <- <-.
  destruct (lk_tickets _ _ _ _ _ _ si_linked t) as [Eo _]; [rewrite HP; set_solver|].
  pose proof (holders_take _ _ _ _ leases Eo ED) as HH.
  assert (HL : Z.of_nat (length (guards s)) < U64_MAX).
  { unfold holders in si_size. rewrite length_app, HH, length_fmap in si_size. cbn in si_size. lia. }
  split; unfold holders; cbn; try done.
  - eapply linked_take; [exact si_linked|]. rewrite HP. by apply submseteq_cons.
  - eapply accounts_perm; [|exact si_accounts]. unfold holders. rewrite HH. by rewrite <- Permutation_middle.
  - by constructor.
  - rewrite si_active, wadd_id by int64. lia.
  - unfold holders in si_size. rewrite HH, length_app in si_size. rewrite length_app. cbn in *. lia.
Qed.

(** A wait ends without leases: at most queue entries disappear. *)
Lemma gone_inv n s t rest a' :
  inv n s -> waiting s ≡ₚ t :: rest -> tick_frame (sys_app s) a' -> delivered a' = delivered (sys_app s) ->
  app_concurrency a' = app_concurrency (sys_app s) -> app_pools a' = app_pools (sys_app s) ->
  Inv (sched_config (sys_app s)) (app_scheduler a') ->
  (forall i p, app_pending a' !! i = Some p -> app_pending (sys_app s) !! i = Some p) ->
  (forall it, it ∈ all_items (queues (app_scheduler a')) -> it ∈ all_items (queues (app_scheduler (sys_app s)))) ->
  inv (n + 1) (mkSys a' (owner s) (used s) (enqueued s) rest (guards s)).
Proof.
  intros [] HP (F1 & F2 & F3) F4 F5 F6 HI Hp Hi. split; unfold holders; cbn; rewrite ?F1, ?F2, ?F3, ?F4, ?F5, ?F6; try done.
  - eapply linked_shrink; [exact si_linked | | done | rewrite HP; by apply submseteq_cons]. auto.
  - unfold holders in si_size. lia.
Qed.

Lemma expire_inv n s t rest config :
  inv n s -> waiting s ≡ₚ t :: rest ->
  inv (n + 1) (mkSys (expire (sys_app s) config t).1 (owner s) (used s) (enqueued s) rest (guards s)).
Proof.
  intros HI HP. destruct (cancel (app_scheduler (sys_app s)) (req_id (tk_request t))) as [s' b] eqn:EC.
  pose proof (cancel_Inv _ _ _ _ _ (si_sched _ _ _ _ HI) (si_inner _ _ _ _ HI) EC) as HC.
  eapply gone_inv; [exact HI | exact HP | ..]; unfold expire; cbn; rewrite ?EC; cbn; try done.
  - intros i p. rewrite lookup_delete_Some. by intros [].
  - intros it Hit. apply (cancel_cases (sched_config (sys_app s))) in EC as [(x & _ & _ & _ & HPm & _) | (_ & -> & _)];
      [rewrite HPm; by right | done | apply HI].
Qed.

Lemma reload_valid replace_identity current parsed :
  validate parse_cidr parse_url current = Ok tt ->
  (forall c, parsed = Ok c -> validate parse_cidr parse_url c = Ok tt) ->
  validate parse_cidr parse_url (reload replace_identity current parsed).1 = Ok tt.
Proof. intros Hc Hp. unfold reload. branches; auto. Qed.

Lemma from_path_valid parse_yaml env file c :
  from_path parse_cidr parse_url parse_yaml env file = Ok c -> validate parse_cidr parse_url c = Ok tt.
Proof. unfold from_path, result_bind. intros E. branches; by match goal with u : unit |- _ => destruct u end. Qed.

(** Steps that touch none of the accounted state. *)
Lemma quiet_inv n s a' :
  inv n s -> tick_frame (sys_app s) a' -> app_scheduler a' = app_scheduler (sys_app s) ->
  app_pending a' = app_pending (sys_app s) -> delivered a' = delivered (sys_app s) ->
  app_concurrency a' = app_concurrency (sys_app s) -> app_pools a' = app_pools (sys_app s) ->
  forall gs, gs ≡ₚ guards s -> inv (n + 1) (mkSys a' (owner s) (used s) (enqueued s) (waiting s) gs).
Proof.
  intros [] (F1 & F2 & F3) Es Ep Ed Ec El gs HP.
  assert (HH : (guard_holder <$> gs) ++ (delivered_holder (owner s) <$> map_to_list (delivered (sys_app s))) ≡ₚ holders s)
    by (unfold holders; by rewrite HP).
  split; unfold holders; cbn; rewrite ?F1, ?F2, ?F3, ?Es, ?Ep, ?Ed, ?Ec, ?El; try done.
  - by eapply accounts_perm.
  - by rewrite HP.
  - by rewrite HP.
  - rewrite HH. lia.
Qed.

Lemma handle_start_inv n s inc envs now ch a' stage :
  inv n s -> n < U64_MAX -> fresh_lease s envs ->
  handle_start parse_uuid uuid_to_string (sys_app s) inc envs now ch = Returns (a', stage) ->
  handled (sys_app s) inc now ch (take_lease s envs) (holders s) a' stage.
Proof. intros [] Hn Hf E. eapply handle_start_spec; [exact Hf | lia | exact si_accounts | exact E]. Qed.

Lemma sstep_inv n s s' : inv n s -> n < U64_MAX -> sstep parse_uuid uuid_to_string parse_cidr parse_url s s' -> inv (n + 1) s'.
Proof.
  intros HI Hn HS.
  destruct HS as [inc envs now ch a' r Hf E | inc envs now ch a' t Hf Hc Hr Hb E | inc envs now ch a' ad a'' g Hf E EA
    | t rest now HP | envs undo now clock a' Hf _ E | t rest age a' ad config a'' g HP E EA | t rest config HP | t rest HP
    | g rest id loaded upstream envs a' kept f HP E | g envs Hg | g rest actual throttled envs HP | g rest envs HP
    | replace_identity parse_yaml env file parsed |].
  - destruct (handle_start_inv n s _ _ _ _ _ _ HI Hn Hf E) as (F & [(resp & _ & Es & HA) | (rq & body & _ & Es & HA)]);
      by apply (started_inv n s a' _ None (mkDecisionRecord 0%N EmptyString EmptyString EmptyString EmptyString f_zero EmptyString 0) 0).
  - destruct (handle_start_inv n s _ _ _ _ _ _ HI Hn Hf E) as (F & [(resp & [=] & _) | (rq & body & Eb & ES)]).
    assert (rq = tk_request t) as -> by (by destruct ES as (-> & _)). eapply enqueued_inv; eauto.
  - destruct (handle_start_inv n s _ _ _ _ _ _ HI Hn Hf E) as (F & [(resp & [=] & _) | (rq & body & Eb & Es & <- & Ee & HA)]).
    unfold activate in EA. injection EA as <- <-.
    apply (started_inv n s a' _ (Some _)); [done | done | done | exact HA | | done]. intros x [= <-]. done.
  - destruct HI. split; unfold holders; cbn; try done; [by eapply linked_insert | unfold holders in si_size; lia].
  - by eapply tick_inv.
  - by eapply receive_inv.
  - by eapply expire_inv.
  - eapply gone_inv; [exact HI | exact HP | done.. | apply HI | done | done].
  - unfold dispatch in E. branches; try (by apply (quiet_inv n s); [..|symmetry]);
      (eapply ended_inv; [exact HI | exact HP | done |]); intros ids l' E1 E2 HA;
      by destruct (drop_spec (sys_app s) g envs ids l' E1 E2 HA) as (? & ? & ?).
  - apply (quiet_inv n s); try done; unfold renew_leases; by case_match.
  - eapply ended_inv; [exact HI | exact HP | done |]. intros ids l' E1 E2 HA.
    by destruct (complete_spec (sys_app s) g actual throttled envs ids l' E1 E2 HA) as (? & ? & ?).
  - eapply ended_inv; [exact HI | exact HP | done |]. intros ids l' E1 E2 HA.
    by destruct (drop_spec (sys_app s) g envs ids l' E1 E2 HA) as (? & ? & ?).
  - destruct HI. split; unfold holders; cbn; try done; [|unfold holders in si_size; lia].
    apply reload_valid; [done|]. intros c. apply from_path_valid.
  - by apply (quiet_inv n s).
Qed.

Lemma start_inv config k : startable parse_cidr parse_url config -> inv 0 (start config k).
Proof.
  intros (HV & HD & HB). split; cbn; try done.
  - apply new_Inv.
  - rewrite all_items_empty. split; try done; try (intros * E; by rewrite lookup_empty in E);
      try (intros * E; by apply not_elem_of_nil in E). constructor.
  - unfold holders. cbn. rewrite map_to_list_empty. split; cbn; [split; intros i; apply lookup_empty | | constructor |].
    + intros p id. rewrite elem_of_nil. split; [|done]. intros (pr & Hp & [x Hx]). rewrite lookup_fmap_Some in Hp.
      destruct Hp as (pc & <- & _). cbn in Hx. by rewrite lookup_empty in Hx.
    + intros p id Hx. by apply not_elem_of_nil in Hx.
Qed.

Lemma runs_inv config k n s : startable parse_cidr parse_url config -> Z.of_nat n <= U64_MAX ->
  runs parse_uuid uuid_to_string parse_cidr parse_url config k n s -> inv (Z.of_nat n) s.
Proof.
  intros HS. unfold runs. revert s. induction n as [|n IH]; intros s Hn HR.
  - inversion HR; subst. by apply start_inv.
  - apply nsteps_inv_r in HR as (s1 & HR & Hs). rewrite Nat2Z.inj_succ. eapply sstep_inv; [by apply IH; [lia|] | lia | done].
Qed.

(** ** Panics *)

Lemma effective_class_configured config who requested :
  well_formed parse_cidr parse_url config ->
  is_Some (service_classes config !! class_to_string (effective_class_of config who requested).1).
Proof. intros HW. unfold effective_class_of. destruct (_ && _); apply (wf_builtin _ _ _ HW). Qed.

Lemma choose_pool_some config app : pools config <> ∅ -> is_Some (choose_pool config app).
Proof.
  intros Hp. unfold choose_pool. case_match; [done|]. destruct (btree_iter string_le (pools config)) as [|[n p] l] eqn:E; [|by eexists].
  destruct Hp. apply map_empty. intros i. destruct (pools config !! i) as [p|] eqn:Ei; [|done].
  assert (Hx : (i, p) ∈ btree_iter string_le (pools config)) by (by apply elem_of_btree_iter).
  rewrite E in Hx. by apply not_elem_of_nil in Hx.
Qed.

Lemma handle_start_total a inc envs now ch :
  validate parse_cidr parse_url (app_config a) = Ok tt ->
  handle_start parse_uuid uuid_to_string a inc envs now ch <> Panics.
Proof.
  intros HV%validate_ok_iff. unfold handle_start. destruct (draining a); [done|]. cbn [app_config count_request set_metrics].
  destruct (in_body inc); [|done]. destruct (_ <? _); [done|]. destruct (in_identity inc) as [who|]; [|done].
  pose proof (effective_class_configured (app_config a) who (requested_service_class (in_headers inc)) HV) as [class Hc].
  destruct (effective_class_of _ _ _) as [eff app]. cbn [fst] in Hc.
  destruct (choose_pool_some (app_config a) app (wf_pools _ _ _ HV)) as [pn ->].
  destruct (app_pools _ !! pn); [|done]. destruct (in_estimate inc pn); [|done]. destruct (in_stored inc); [|done]. by rewrite Hc.
Qed.

Lemma dispatcher_total a envs undo now clock :
  Inv (sched_config a) (app_scheduler a) -> dispatcher_tick a envs undo now clock <> Panics.
Proof.
  intros HI. unfold dispatcher_tick. destruct (pop_cases (sched_config a) now (app_scheduler a) (inv_queues _ _ HI)) as
    [(_ & ->) | (k & q & it & rest & s1 & _ & _ & _ & -> & _)]; [done|]. cbv zeta. repeat case_match; done.
Qed.

Definition opened (p : PoolConfig) : PoolRuntime :=
  mkPoolRuntime (new_model (capacity_units p) (initial_safety_factor p)) (capacity_units p).

Lemma open_pools_spec connect l acc :
  (forall n p, (n, p) ∈ l -> provider p = ExternalGrpc -> is_Some (external_adapter p)) ->
  open_pools connect l acc <> Panics /\
  forall ps, open_pools connect l acc = Returns (Ok ps) -> ps = foldl (fun m np => <[np.1 := opened np.2]> m) acc l.
Proof.
  revert acc. induction l as [|[n p] l IH]; intros acc Ha; cbn [open_pools]; [split; [done | by intros ps [= <-]]|].
  destruct (bool_decide (provider p = ExternalGrpc) && _) eqn:E.
  { apply andb_true_iff in E as [E1%bool_decide_eq_true E2%bool_decide_eq_true].
    destruct (Ha n p ltac:(by left) E1) as [? ?]. congruence. }
  destruct (connect n p); [|done]. apply IH. intros n' p' Hn. apply (Ha n' p'). by right.
Qed.

Lemma foldl_insert_lookup (l : list (string * PoolConfig)) (acc : gmap string PoolRuntime) i : NoDup l.*1 ->
  foldl (fun m np => <[np.1 := opened np.2]> m) acc l !! i =
  match (list_to_map l : gmap string PoolConfig) !! i with Some p => Some (opened p) | None => acc !! i end.
Proof.
  revert acc. induction l as [|[n p] l IH]; intros acc HN; cbn; [by rewrite lookup_empty|].
  apply NoDup_cons in HN as [Hn HN]. rewrite IH by done. destruct (decide (n = i)) as [<- | Hne].
  - rewrite lookup_insert_eq. cbn. rewrite (not_elem_of_list_to_map_1 l n Hn). by rewrite lookup_insert_eq.
  - rewrite !lookup_insert_ne by done. done.
Qed.

(** Startup does not panic and yields the state of [build]. *)
Lemma build_state_spec identity_new connect_coordinator connect config :
  validate parse_cidr parse_url config = Ok tt ->
  build_state (K := K) identity_new connect_coordinator connect config <> Panics /\
  forall a, build_state identity_new connect_coordinator connect config = Returns (Ok a) -> exists k, a = build config k.
Proof.
  intros HV%validate_ok_iff. unfold build_state. destruct (identity_new config); [|done].
  destruct (connect_coordinator _) as [k|]; [|done].
  destruct (open_pools_spec connect (btree_iter string_le (pools config)) ∅) as [HP HO'].
  { intros n p Hn%elem_of_btree_iter E. by apply (wf_adapter _ _ _ HV n p Hn). }
  destruct (open_pools _ _ _) as [[ps|e]|]; [| done | done]. split; [done|]. intros b [= <-]. exists k.
  rewrite (HO' ps eq_refl). unfold build. f_equal. apply map_eq. intros i.
  rewrite foldl_insert_lookup, lookup_fmap, lookup_empty; [|apply btree_iter_nodup].
  rewrite btree_iter_map. by destruct (pools config !! i).
Qed.

(** Nothing in flight means nothing counted. *)
Lemma ledger_nil pools : ledger pools [] -> forall p pr, pools !! p = Some pr -> reservations (state (pr_capacity pr)) = ∅.
Proof.
  intros HL p pr Hp. apply map_empty. intros id. destruct (_ !! id) eqn:E; [|done].
  destruct (not_elem_of_nil (p, id)). apply HL. eauto.
Qed.

Lemma inside_counts_nil cs : inside_counts cs [] -> cs = no_concurrency.
Proof. intros [C1 C2]. destruct cs. unfold no_concurrency. f_equal; apply map_empty; [exact C1 | exact C2]. Qed.

(** ** Drain *)

(** Everything but a new request keeps the drain switch and the request count. *)
Definition quiet a a' : Prop := draining a' = draining a /\ m_requests (app_metrics a') = m_requests (app_metrics a).

Lemma quiet_trans a a' a'' : quiet a a' -> quiet a' a'' -> quiet a a''.
Proof. unfold quiet. intros [] []. split; congruence. Qed.

Lemma on_pool_quiet a p f : quiet a (on_pool a p f).
Proof. unfold on_pool. by case_match. Qed.

Lemma release_local_quiet a g : quiet a (release_local a g).1.
Proof. unfold release_local. by destruct (concurrency_entered g), (counted_active g). Qed.

Lemma drop_quiet a g envs : quiet a (drop_guard a g envs).1.
Proof.
  unfold drop_guard. eapply quiet_trans; [|apply release_local_quiet]. destruct (g_leases g); [|done].
  eapply quiet_trans; [apply on_pool_quiet|]. done.
Qed.

Lemma complete_quiet a g actual b envs : quiet a (complete a g actual b envs).1.
Proof.
  unfold complete. set (a1 := match g_leases g with Some _ => _ | None => _ end).
  assert (Q : quiet a a1) by (subst a1; destruct (g_leases g); [|done]; eapply quiet_trans; [|apply on_pool_quiet]; done).
  pose proof (release_local_quiet a1 (take_leases g)) as Q1. destruct (release_local a1 (take_leases g)) as [a2 g2].
  eapply quiet_trans; [exact Q | eapply quiet_trans; [exact Q1 | apply drop_quiet]].
Qed.

Lemma requeue_quiet a id p now elapsed : quiet a (requeue a id p now elapsed).
Proof. unfold requeue. by destruct (_ <=? _). Qed.

Lemma tick_quiet a envs undo now clock a' : dispatcher_tick a envs undo now clock = Returns a' -> quiet a a'.
Proof.
  unfold dispatcher_tick. destruct (pop_next _ _ _) as [[s [req|]]|]; [|by intros [= <-] | done].
  cbv zeta. destruct (app_pending _ !! _) as [p|]; [|by intros [= <-]]. destruct (app_pools _ !! _) as [pool|]; [|by intros [= <-]].
  destruct (try_enter _ _ _) as [cs []]; cbn [negb]; [|by intros [= <-]; eapply quiet_trans; [|apply requeue_quiet]].
  destruct (reserve_distributed _ _ _ _ _ _ _ _) as [k [[leases|]|e]];
    [|by (intros [= <-]; eapply quiet_trans; [|apply requeue_quiet])..].
  case_bool_decide; intros [= <-].
  - match goal with |- quiet _ (set_channels (on_pool ?b _ _) _ _) => exact (quiet_trans a b _ ltac:(done) (on_pool_quiet _ _ _)) end.
  - match goal with |- quiet _ (set_concurrency (on_pool ?c _ _) _) => assert (Q : quiet a c) end.
    { match goal with |- quiet _ (release_leases (on_pool ?b _ _) _ _) => exact (quiet_trans a b _ ltac:(done) (on_pool_quiet _ _ _)) end. }
    exact (quiet_trans _ _ _ Q (on_pool_quiet _ _ _)).
Qed.

Lemma draining_refuses a inc envs now ch : draining a = true ->
  handle_start parse_uuid uuid_to_string a inc envs now ch =
  Returns (a, Respond (problem 503 "draining" "InferQoS is draining and is not accepting new work" (Some 1))).
Proof. intros E. unfold handle_start. by rewrite E. Qed.

Lemma drain_step s s' : sstep parse_uuid uuid_to_string parse_cidr parse_url s s' -> draining (sys_app s) = true ->
  draining (sys_app s') = true /\ m_requests (app_metrics (sys_app s')) = m_requests (app_metrics (sys_app s)) /\
  owner s' = owner s /\
  (length (enqueued s') + length (waiting s') + length (guards s') <=
   length (enqueued s) + length (waiting s) + length (guards s))%nat.
Proof.
  intros HS HD.
  assert (HQ : forall a', quiet (sys_app s) a' -> draining a' = true /\ m_requests (app_metrics a') = m_requests (app_metrics (sys_app s))).
  { intros a' [E1 E2]. by rewrite E1, E2. }
  destruct HS as [inc envs now ch a' r Hf E | inc envs now ch a' t Hf Hc Hr Hb E | inc envs now ch a' ad a'' g Hf E EA
    | t rest now HP | envs undo now clock a' Hf _ E | t rest age a' ad config a'' g HP E EA | t rest config HP | t rest HP
    | g rest id loaded upstream envs a' kept f HP E | g envs Hg | g rest actual throttled envs HP | g rest envs HP
    | replace_identity parse_yaml env file parsed |];
    try (rewrite draining_refuses in E by done; simplify_eq/=);
    cbn [sys_app owner enqueued waiting guards]; rewrite ?HP; cbn [length]; apply and_assoc;
    (split; [apply HQ | split; [done | try lia]]).
  - done.
  - done.
  - by eapply tick_quiet.
  - unfold receive in E. destruct (delivered _ !! _); [|done]. injection E as <- <-. by injection EA as <- <-.
  - done.
  - done.
  - unfold dispatch in E. branches; try apply drop_quiet; done.
  - unfold dispatch in E. branches; lia.
  - unfold renew_leases. by case_match.
  - apply complete_quiet.
  - apply drop_quiet.
  - done.
  - done.
Qed.
End preservation.

(** ** An example run *)

Definition no_uuid (s : string) : option Uuid := None.
Definition hex (u : Uuid) : string := "id"%string.
Definition any_cidr (s : string) : result string unit := Ok tt.
Definition no_url (s : string) : result string Url := Err "no url"%string.

Definition ex_incoming : Incoming :=
  mkIncoming 1%N ∅ (Some 10) (Ok ex_who) (fun _ => Ok (estimate ex_admission)) (Ok tt).
Definition ex_start : Sys LeaseState := start ex_config ∅.

(** The stage and state after the handler's first part. *)
Definition ex_handled : App LeaseState * option Permit :=
  match handle_start no_uuid hex (sys_app ex_start) ex_incoming ex_envs 0 7%N with
  | Returns (a, Go ad) => (a, Some ad)
  | _ => (sys_app ex_start, None)
  end.
Definition ex_admitted : Permit := default (mkPermit ex_admission None false EmptyString 0) ex_handled.2.
Definition ex_active : App LeaseState * Guard := activate ex_handled.1 ex_config ex_admitted.
Definition ex_sys : Sys LeaseState :=
  mkSys ex_active.1 ∅ (take_lease ex_start ex_envs) [] [] [ex_active.2].

Lemma ex_startable : startable any_cidr no_url ex_config.
Proof. split; [vm_compute; reflexivity | split; split; vm_compute; congruence]. Qed.

Lemma ex_runs : runs no_uuid hex any_cidr no_url ex_config ∅ 1 ex_sys.
Proof.
  apply nsteps_once. unfold ex_sys. change (@nil Ticket) with (enqueued ex_start) at 1.
  refine (sys_go _ _ _ _ ex_start ex_incoming ex_envs 0 7%N ex_handled.1 ex_admitted _ _ _ _ _).
  - unfold fresh_lease. cbn. apply not_elem_of_empty.
  - vm_compute. reflexivity.
  - unfold ex_active. apply surjective_pairing.
Qed.

Lemma ex_delivered : delivered ex_active.1 = ∅.
Proof. vm_compute. reflexivity. Qed.

Lemma ex_accounts :
  accounts (app_concurrency ex_active.1) (app_pools ex_active.1) (used ex_sys) [guard_holder ex_active.2].
Proof.
  assert (H1 : Z.of_nat 1 <= U64_MAX) by (vm_compute; congruence).
  destruct (runs_inv no_uuid hex any_cidr no_url ex_config ∅ 1 ex_sys ex_startable H1 ex_runs) as [_ _ _ _ HA _ _ _].
  unfold holders in HA. cbn [sys_app owner guards ex_sys] in HA. rewrite ex_delivered, map_to_list_empty in HA.
  exact HA.
Qed.

(** ** A lost request

    [enqueue] and the insertion into [pending] are two critical sections.  When
    the dispatcher pops between them it finds no pending entry and skips; the
    entry inserted afterwards belongs to no queued request, so no later tick
    can serve it and the handler waits for its deadline. *)

Definition big_incoming : Incoming :=
  mkIncoming 1%N ∅ (Some 10) (Ok ex_who) (fun _ => Ok (mkWorkEstimate 1 1 0 f_one (mkWorkUnits (f_of_Z 2000)) (f32_lit 1 1) ExactTokenizer)) (Ok tt).

Definition stranded : option (App LeaseState) :=
  match handle_start no_uuid hex (sys_app ex_start) big_incoming ex_envs 0 7%N with
  | Returns (a, Wait t) =>
      match dispatcher_tick a ex_envs (mkReleaseEnvs (ex_env 6 16) (ex_env 7 17) (ex_env 8 18)) 1 1 with
      | Returns a => Some (insert_pending a t 2)
      | Panics => None
      end
  | _ => None
  end.

Lemma empty_tick {K : Type} `{Coordinator K} {HO : HashOrder} (a : App K) envs undo now clock :
  queues (app_scheduler a) = ∅ -> dispatcher_tick a envs undo now clock = Returns (set_scheduler a (app_scheduler a)).
Proof.
  intros HQ. unfold dispatcher_tick.
  destruct (pop_cases (sched_config a) now (app_scheduler a)) as [(_ & ->) | (k & q & it & rest & s1 & _ & Hk & _)]; [|done|].
  - rewrite HQ. split; intros *; by rewrite lookup_empty.
  - by rewrite HQ, lookup_empty in Hk.
Qed.

Definition strands (o : option (App LeaseState)) (id : Uuid) : bool :=
  match o with
  | Some a => bool_decide (queues (app_scheduler a) = ∅) && bool_decide (is_Some (app_pending a !! id))
  | None => false
  end.

Lemma strands_forever o id : strands o id = true -> exists a, o = Some a /\ is_Some (app_pending a !! id) /\
  forall envs undo now clock, dispatcher_tick a envs undo now clock = Returns (set_scheduler a (app_scheduler a)).
Proof.
  destruct o as [a|]; [|done]. intros [HQ HP]%andb_true_iff. apply bool_decide_eq_true in HQ, HP.
  exists a. split_and!; [done | done |]. intros. by apply empty_tick.
Qed.


(** ** The properties *)

(** C24: The proxy never panics: from a validated configuration, whatever the
    requests, faults of the coordinator, reloads and interleavings, neither the
    handler (the pool that must exist, the indexing of the service classes) nor
    the dispatcher (the scheduler's selected queue) reaches a panic; and
    startup itself (the adapter of an external pool) does not panic and, when
    it succeeds, yields the initial state the runs start from. *)
Theorem proxy_never_panics {K : Type} `{CoordinatorLaws K} {HO : HashOrder} parse_uuid uuid_to_string parse_cidr parse_url
    config k n s :
  startable parse_cidr parse_url config -> Z.of_nat n <= U64_MAX ->
  runs (K := K) parse_uuid uuid_to_string parse_cidr parse_url config k n s ->
  (forall inc envs now ch, handle_start parse_uuid uuid_to_string (sys_app s) inc envs now ch <> Panics) /\
  (forall envs undo now clock, dispatcher_tick (sys_app s) envs undo now clock <> Panics) /\
  forall identity_new connect_coordinator connect,
    build_state (K := K) identity_new connect_coordinator connect config <> Panics /\
    forall a, build_state identity_new connect_coordinator connect config = Returns (Ok a) -> exists k', a = build config k'.
Proof.
  intros HS Hn HR. pose proof (runs_inv _ _ _ _ _ _ _ _ HS Hn HR) as []. split_and!; intros;
    [by apply (handle_start_total parse_uuid uuid_to_string parse_cidr parse_url) | by apply dispatcher_total
    | apply (build_state_spec parse_cidr parse_url), HS].
Qed.

Lemma proxy_never_panics_witness :
  (forall inc envs now ch, handle_start no_uuid hex (sys_app ex_sys) inc envs now ch <> Panics) /\
  (forall envs undo now clock, dispatcher_tick (sys_app ex_sys) envs undo now clock <> Panics) /\
  forall identity_new connect_coordinator connect,
    build_state (K := LeaseState) identity_new connect_coordinator connect ex_config <> Panics /\
    forall a, build_state identity_new connect_coordinator connect ex_config = Returns (Ok a) -> exists k', a = build ex_config k'.
Proof.
  apply (proxy_never_panics no_uuid hex any_cidr no_url ex_config ∅ 1 ex_sys);
    [apply ex_startable | vm_compute; congruence | apply ex_runs].
Defined.



(** A guard releases exactly once: completing or dropping the guard of an
    active request takes its identity out of the counters, its lease out of
    the pool's ledger and one off the gauge, and leaves a guard on which a
    further drop or completion has no effect. *)
Theorem guard_released_once {K : Type} `{Coordinator K} (a : App K) g ids l a' g' actual throttled envs :
  concurrency_entered g = true -> counted_active g = true ->
  accounts (app_concurrency a) (app_pools a) ids (guard_holder g :: l) ->
  complete a g actual throttled envs = (a', g') \/ drop_guard a g envs = (a', g') ->
  accounts (app_concurrency a') (app_pools a') ids l /\
  m_active (app_metrics a') = wsub (m_active (app_metrics a)) 1 /\
  forall b actual' throttled' envs', drop_guard b g' envs' = (b, g') /\ complete b g' actual' throttled' envs' = (b, g').
Proof.
  intros E1 E2 HA HE.
  assert (HS : guard_frame a a' /\ app_accounts a' ids l /\ inert g').
  { destruct HE as [E | E]; [pose proof (complete_spec a g actual throttled envs ids l E1 E2 HA) as HC
      | pose proof (drop_spec a g envs ids l E1 E2 HA) as HC]; by rewrite E in HC. }
  destruct HS as (F & HA' & HI). split_and!; [done | apply F |]. intros. by rewrite inert_drop, inert_complete.
Qed.

Lemma guard_released_once_witness :
  let done := complete ex_active.1 ex_active.2 None false (mkReleaseEnvs (ex_env 6 16) (ex_env 7 17) (ex_env 8 18)) in
  accounts (app_concurrency done.1) (app_pools done.1) (used ex_sys) [] /\
  m_active (app_metrics done.1) = wsub (m_active (app_metrics ex_active.1)) 1 /\
  forall b actual' throttled' envs', drop_guard b done.2 envs' = (b, done.2) /\ complete b done.2 actual' throttled' envs' = (b, done.2).
Proof.
  intros done.
  apply (guard_released_once ex_active.1 ex_active.2 (used ex_sys) [] done.1 done.2 None false
           (mkReleaseEnvs (ex_env 6 16) (ex_env 7 17) (ex_env 8 18))).
  - vm_compute. reflexivity.
  - vm_compute. reflexivity.
  - exact ex_accounts.
  - left. apply surjective_pairing.
Defined.


