(* ===== verification/Tasks.v ===== *)
(** * The background tasks of the proxy (crates/proxy)

    [proxy_handler] leaves a task behind that relays the response and renews the
    leases meanwhile, and [start_config_reload] one that watches the
    configuration file.  Each is the loop of the source over what it observes in
    its turns. *)

From stdpp Require Import base gmap strings countable sorting list.
From Stdlib Require Import ZArith Lia SpecFloat.
From S2P Require Import Prelude Rounding F64 F64Facts Core Scheduler SchedulerInv Capacity Coordinator Config Admission Proxy ProxyHttp ProxySystem ProxyInv ProxyThms Web.

Open Scope Z_scope.

(** ** Relaying a response *)

(** One turn of the [select]: the adapter's channel yields a message or is
    closed, and [send] to the client succeeds or not; or the renewal timer
    fires. *)
Inductive Turn : Type :=
| FromUpstream (item : option (result CoreError Bytes)) (sent : bool)
| RenewalDue (envs : ReleaseEnvs).

(** The period of the renewal timer. *)
Definition renew_interval (lease_ttl : Duration) : Duration := Z.max (lease_ttl / 3) (from_secs 1).

Section relay.
Context {K : Type} `{Coordinator K} {HO : HashOrder}.
Implicit Types (a : App K) (g : Guard).

(** The loop: the state, what the client got, and whether it ended.  The timer's
    branch is off without leases. *)
Fixpoint relay_loop a g (turns : list Turn) (out : list (result CoreError Bytes)) : App K * list (result CoreError Bytes) * bool :=
  match turns with
  | [] => (a, out, false)
  | FromUpstream None _ :: _ => (a, out, true)
  | FromUpstream (Some item) sent :: rest => if sent then relay_loop a g rest (out ++ [item]) else (a, out, true)
  | RenewalDue envs :: rest => relay_loop (renew_leases a g envs) g rest out
  end.

(** The whole task: after the loop the guard completes with the usage seen last. *)
Definition relay_task a g (turns : list Turn) (usage : option WorkEstimate) (throttled : bool) (envs : ReleaseEnvs) :
    App K * list (result CoreError Bytes) * bool :=
  let '(a, out, ended) := relay_loop a g turns [] in
  (if ended then (complete a g usage throttled envs).1 else a, out, ended).

(** ** What the client gets *)

(** The messages the adapter sends before it closes its channel, and how many of
    them the client took. *)
Fixpoint sent_upstream (turns : list Turn) : list (result CoreError Bytes) :=
  match turns with
  | [] => []
  | FromUpstream None _ :: _ => []
  | FromUpstream (Some item) _ :: rest => item :: sent_upstream rest
  | RenewalDue _ :: rest => sent_upstream rest
  end.
Definition hangs_up (t : Turn) : bool := match t with FromUpstream (Some _) false => true | _ => false end.
Definition closes (t : Turn) : bool := match t with FromUpstream None _ => true | _ => false end.

Lemma relay_loop_out a g turns out : exists taken,
  (relay_loop a g turns out).1.2 = out ++ taken /\ taken `prefix_of` sent_upstream turns /\
  (existsb hangs_up turns = false -> taken = sent_upstream turns).
Proof.
  revert a out. induction turns as [|[[item|] [|]|envs] turns IH]; intros a out; cbn [relay_loop sent_upstream existsb hangs_up orb].
  - exists []. by rewrite app_nil_r.
  - destruct (IH a (out ++ [item])) as (taken & E & P & F). exists (item :: taken). rewrite E, <- app_assoc. split_and!; [done | by apply prefix_cons |].
    intros HN. by rewrite (F HN).
  - exists []. rewrite app_nil_r. split_and!; [done | apply prefix_nil | done].
  - exists []. by rewrite app_nil_r.
  - exists []. by rewrite app_nil_r.
  - apply IH.
Qed.

Lemma relay_loop_ends a g turns out : (relay_loop a g turns out).2 = existsb (fun t => hangs_up t || closes t) turns.
Proof. revert a out. induction turns as [|[[item|] [|]|envs] turns IH]; intros a out; cbn; try done; apply IH. Qed.

(** ** The task as steps of the system *)

Context (parse_uuid : string -> option Uuid) (uuid_to_string : Uuid -> string)
  (parse_cidr : string -> result string unit) (parse_url : string -> result string Url).
Local Abbreviation steps := (sstep parse_uuid uuid_to_string parse_cidr parse_url).

(** The same system with another state of the proxy and other guards. *)
Definition with_app (s : Sys K) a (gs : list Guard) : Sys K := mkSys a (owner s) (used s) (enqueued s) (waiting s) gs.

Lemma relay_loop_steps g turns : forall (s : Sys K) out, g ∈ guards s ->
  rtc steps s (with_app s (relay_loop (sys_app s) g turns out).1.1 (guards s)).
Proof.
  induction turns as [|[[item|] [|]|envs] turns IH]; intros s out Hg; cbn [relay_loop]; try (by destruct s).
  - by apply IH.
  - etransitivity; [apply rtc_once, (sys_renew _ _ _ _ s g envs Hg)|]. apply (IH (with_app s (renew_leases (sys_app s) g envs) (guards s)) out Hg).
Qed.

(** C23: The task that relays a response: whatever the order of messages,
    renewals and failures, the client gets the adapter's messages in order, all
    of them unless it hangs up; the task ends exactly when the adapter closes
    its channel or the client hangs up; and then the system has made ordinary
    steps only, the last of which completed the request: its guard is gone. *)
Theorem relay_task_refines (s : Sys K) g rest turns usage throttled envs :
  guards s ≡ₚ g :: rest ->
  let '(a', out, ended) := relay_task (sys_app s) g turns usage throttled envs in
  out `prefix_of` sent_upstream turns /\ (existsb hangs_up turns = false -> out = sent_upstream turns) /\
  ended = existsb (fun t => hangs_up t || closes t) turns /\
  rtc steps s (with_app s a' (if ended then rest else guards s)).
Proof.
  intros HG. unfold relay_task. assert (Hg : g ∈ guards s) by (rewrite HG; left).
  pose proof (relay_loop_steps g turns s [] Hg) as HS. destruct (relay_loop_out (sys_app s) g turns []) as (taken & EO & EP & EH).
  pose proof (relay_loop_ends (sys_app s) g turns []) as EE.
  destruct (relay_loop (sys_app s) g turns []) as [[a out] ended]. cbn [fst snd app] in *. subst out. split_and!; [done | done | done |].
  destruct ended; [|done]. etransitivity; [exact HS|]. apply rtc_once.
  exact (sys_complete parse_uuid uuid_to_string parse_cidr parse_url (with_app s a (guards s)) g rest usage throttled envs HG).
Qed.
End relay.

(** ** A lease that is renewed in time *)

Section lease.
Context {HO : HashOrder} (l : Lease) (ttl : Duration).

(** The coordinator while the request of lease [l] streams: [at_ t s] when [l]
    was granted or last renewed at [t].  Other callers reserve, release their
    own leases and renew, all before [t + ttl]; the task renews [l]. *)
Inductive streaming : Instant -> LeaseState -> Prop :=
| stream_granted s env pool limit units s' :
    in_memory_reserve s env pool limit units ttl = (s', Ok (Some l)) -> streaming (env_now env) s'
| stream_granted_scoped s env pool scope limit scope_limit units s' :
    in_memory_reserve_scoped s env pool scope limit scope_limit units ttl = (s', Ok (Some l)) -> streaming (env_now env) s'
| stream_reserve t s env pool limit units ttl' s' r :
    streaming t s -> env_now env < t + ttl -> env_id env <> lease_id l ->
    in_memory_reserve s env pool limit units ttl' = (s', r) -> streaming t s'
| stream_reserve_scoped t s env pool scope limit scope_limit units ttl' s' r :
    streaming t s -> env_now env < t + ttl -> env_id env <> lease_id l ->
    in_memory_reserve_scoped s env pool scope limit scope_limit units ttl' = (s', r) -> streaming t s'
| stream_release t s other s' r :
    streaming t s -> lease_id other <> lease_id l -> in_memory_release s other = (s', r) -> streaming t s'
| stream_renew_other t s env other ttl' s' r :
    streaming t s -> lease_id other <> lease_id l -> in_memory_renew s env other ttl' = (s', r) -> streaming t s'
| stream_renew t s env s' r :
    streaming t s -> in_memory_renew s env l ttl = (s', r) -> streaming (env_now env) s'.

Definition holds (t : Instant) (s : LeaseState) : Prop :=
  exists m e, s !! lease_pool l = Some m /\ m !! lease_id l = Some e /\ expiry e = t + ttl /\ amount e = lease_units l.

Lemma holds_purge t s now pool m' : holds t s -> now < t + ttl ->
  (forall i, m' !! i = retain_live now (default ∅ (s !! pool)) !! i \/ i <> lease_id l) -> holds t (<[pool := m']> s).
Proof.
  intros (m & e & Hm & He & Ht & Ha) Hn HI. destruct (decide (pool = lease_pool l)) as [-> | Hp].
  - exists m', e. rewrite lookup_insert_eq. split_and!; try done. destruct (HI (lease_id l)) as [-> | []]; [|done].
    apply retain_live_lookup. rewrite Hm. cbn. split; [done | lia].
  - exists m, e. by rewrite lookup_insert_ne.
Qed.

Lemma streaming_holds t s : streaming t s -> holds t s.
Proof.
  induction 1 as [s env pool limit units s' E | s env pool scope limit slimit units s' E
    | t s env pool limit units ttl' s' r HS IH Hn Hi E | t s env pool scope limit slimit units ttl' s' r HS IH Hn Hi E
    | t s other s' r HS IH Hi E | t s env other ttl' s' r HS IH Hi E | t s env s' r HS IH E].
  - apply in_memory_reserve_cases in E as [(_ & [=] & _) | (_ & _ & [(_ & _ & [=]) | (_ & -> & [= El])])].
    unfold holds. rewrite El. eexists _, _. cbn. rewrite lookup_insert_eq. split; [done|]. by rewrite lookup_insert_eq.
  - apply in_memory_reserve_scoped_cases in E as [(_ & [=] & _) | (_ & [(_ & _ & [=]) | (_ & _ & -> & [= El])])].
    unfold holds. rewrite El. eexists _, _. cbn. rewrite lookup_insert_eq. split; [done|]. by rewrite lookup_insert_eq.
  - apply in_memory_reserve_cases in E as [(-> & _) | (_ & _ & [(_ & -> & _) | (_ & -> & _)])]; [done | |];
      (eapply holds_purge; [done | exact Hn |]); intros i; [by left|]. destruct (decide (i = lease_id l)) as [-> |]; [left | by right].
    by apply lookup_insert_ne.
  - apply in_memory_reserve_scoped_cases in E as [(-> & _) | (_ & [(_ & -> & _) | (_ & _ & -> & _)])]; [done | |];
      (eapply holds_purge; [done | exact Hn |]); intros i; [by left|]. destruct (decide (i = lease_id l)) as [-> |]; [left | by right].
    by apply lookup_insert_ne.
  - destruct IH as (m & e & Hm & He & Ht). unfold in_memory_release in E. injection E as <- _.
    destruct (s !! lease_pool other) as [p|] eqn:Ep; [|by exists m, e].
    destruct (decide (lease_pool other = lease_pool l)) as [Eq | Hp].
    + rewrite Eq in *. rewrite Hm in Ep. injection Ep as <-. eexists _, e. rewrite lookup_insert_eq. split; [done|]. by rewrite lookup_delete_ne.
    + exists m, e. by rewrite lookup_insert_ne.
  - destruct IH as (m & e & Hm & He & Ht). unfold in_memory_renew in E. destruct (s !! lease_pool other) as [p|] eqn:Ep;
      [|injection E as <- _; by exists m, e]. destruct (p !! lease_id other) as [x|] eqn:Ex; [|injection E as <- _; by exists m, e].
    injection E as <- _. destruct (decide (lease_pool other = lease_pool l)) as [Eq | Hp].
    + rewrite Eq in *. rewrite Hm in Ep. injection Ep as <-. eexists _, e. rewrite lookup_insert_eq. split; [done|]. by rewrite lookup_insert_ne.
    + exists m, e. by rewrite lookup_insert_ne.
  - destruct IH as (m & e & Hm & He & Ht & Ha). unfold in_memory_renew in E. rewrite Hm, He in E. injection E as <- _.
    eexists _, _. rewrite lookup_insert_eq. split; [done|]. rewrite lookup_insert_eq. by split_and!.
Qed.
End lease.

(** While a response streams, its lease counts: as long as it was granted or
    renewed less than the time to live ago, every reservation of the pool, by
    anyone and in any order with the other calls, finds it live with its units.
    The timer leaves room for that exactly when the time to live is longer than
    a second. *)
Theorem streaming_lease_counts {HO : HashOrder} l ttl t s now :
  streaming l ttl t s -> now < t + ttl ->
  (exists e, retain_live now (default ∅ (s !! lease_pool l)) !! lease_id l = Some e /\ amount e = lease_units l) /\
  (renew_interval ttl < ttl <-> from_secs 1 < ttl).
Proof.
  intros (m & e & Hm & He & Ht & Ha)%streaming_holds Hn. split.
  - exists e. rewrite Hm. cbn [default]. split; [|done]. apply retain_live_lookup. split; [done | lia].
  - unfold renew_interval, from_secs. pose proof (Z.mul_div_le ttl 3 ltac:(lia)). lia.
Qed.

(** With a time to live of at most a second the lease is over before the timer
    fires for the second time: the next reservation of the pool does not see
    it. *)
Lemma short_lease_lapses {HO : HashOrder} l ttl t s : streaming l ttl t s -> ttl <= from_secs 1 ->
  retain_live (t + renew_interval ttl) (default ∅ (s !! lease_pool l)) !! lease_id l = None.
Proof.
  intros (m & e & Hm & He & Ht & _)%streaming_holds Hl. apply eq_None_not_Some. intros [x Hx]. apply retain_live_lookup in Hx as [Hx Hlt].
  rewrite Hm in Hx. cbn in Hx. rewrite He in Hx. injection Hx as <-. unfold renew_interval in Hlt. lia.
Qed.

(** ** Watching the configuration file *)

(** [last] and the configuration in force. *)
Record Watch : Type := mkWatch { last : option string; in_force : Config }.

(** One turn: the drain flag, what the task reads, and what [Config::from_path]
    finds, which reads the file again. *)
Record Look : Type := mkLook { look_draining : bool; look_raw : option string; look_file : read_result }.

Definition reload_interval (config_reload_interval : Duration) : Duration := Z.max config_reload_interval (from_millis 250).

Section watch.
Context (parse_cidr : string -> result string unit) (parse_url : string -> result string Url)
  (parse_yaml : string -> option Config) (env : string -> option string) (replace_identity : Config -> bool).
Local Abbreviation parse := (from_path parse_cidr parse_url parse_yaml env).

(** The text [last] starts from is what the task reads first. *)
Definition watch_start (config : Config) (raw : option string) : Watch := mkWatch raw config.

Definition watch_turn (w : Watch) (l : Look) : option Watch :=
  if look_draining l then None
  else Some match look_raw l with
            | None => w
            | Some raw =>
                if bool_decide (last w = Some raw) then w
                else match reload replace_identity (in_force w) (parse (look_file l)) with
                     | (new, true) => mkWatch (Some raw) new
                     | (_, false) => w
                     end
            end.

(** The loop, [None] once it has ended. *)
Fixpoint watch_loop (w : Watch) (looks : list Look) : option Watch :=
  match looks with
  | [] => Some w
  | l :: rest => match watch_turn w l with None => None | Some w => watch_loop w rest end
  end.

(** The parts that need a restart never change. *)
Lemma watch_turn_key w l w' : watch_turn w l = Some w' -> reload_key (in_force w') = reload_key (in_force w).
Proof.
  unfold watch_turn. destruct (look_draining l); [done|]. intros [= <-]. destruct (look_raw l) as [raw|]; [|done]. case_bool_decide; [done|].
  destruct (reload _ _ _) as [new []] eqn:E; [|done]. cbn [in_force]. unfold reload in E. destruct (parse _) as [c|]; [|done].
  unfold ensure_reload_compatible in E. case_bool_decide as K; [|done]. destruct (replace_identity c); [|done]. by injection E as <-.
Qed.

Lemma watch_loop_key looks : forall w w', watch_loop w looks = Some w' -> reload_key (in_force w') = reload_key (in_force w).
Proof.
  induction looks as [|l looks IH]; intros w w'; cbn [watch_loop]; [by intros [= <-]|].
  destruct (watch_turn w l) as [w1|] eqn:E; [|done]. intros H1%IH. rewrite H1. by apply watch_turn_key in E.
Qed.

(** A file that holds still. *)
Definition settled (text : string) (l : Look) : Prop := l = mkLook false (Some text) (ReadOk text).

Lemma settled_stays text w looks : last w = Some text -> Forall (settled text) looks -> watch_loop w looks = Some w.
Proof.
  intros E. induction 1 as [|l looks -> _ IH]; [done|]. cbn [watch_loop]. unfold watch_turn. cbn [look_draining look_raw].
  by rewrite bool_decide_true.
Qed.

Lemma settled_applies text w new : last w <> Some text -> parse (ReadOk text) = Ok new -> reload_key new = reload_key (in_force w) ->
  replace_identity new = true -> watch_turn w (mkLook false (Some text) (ReadOk text)) = Some (mkWatch (Some text) new).
Proof.
  intros N E K R. unfold watch_turn. cbn [look_draining look_raw look_file]. rewrite bool_decide_false by done.
  unfold reload. rewrite E. unfold ensure_reload_compatible. by rewrite bool_decide_true, R.
Qed.

(** A text that is rejected changes nothing, and is read again at every turn. *)
Lemma settled_rejected text w :
  (forall new, parse (ReadOk text) = Ok new -> reload_key new <> reload_key (in_force w) \/ replace_identity new = false) ->
  watch_turn w (mkLook false (Some text) (ReadOk text)) = Some w.
Proof.
  intros HR. unfold watch_turn. cbn [look_draining look_raw look_file]. case_bool_decide; [done|]. unfold reload.
  destruct (parse (ReadOk text)) as [new|]; [|done]. unfold ensure_reload_compatible. case_bool_decide as K; [|done].
  destruct (HR new eq_refl) as [N | ->]; [by destruct N | done].
Qed.

(** C22: Edits of the configuration file arrive: after any history of turns, with
    any contents, read errors and rejected versions, once the file holds still
    with a valid text that differs from the last one applied and keeps the parts
    that need a restart, its configuration is in force after one turn, and
    stays in force. *)
Theorem reload_converges config raw before w text new after :
  watch_loop (watch_start config raw) before = Some w -> last w <> Some text ->
  parse (ReadOk text) = Ok new -> reload_key new = reload_key config -> replace_identity new = true ->
  Forall (settled text) after -> (0 < length after)%nat ->
  watch_loop w after = Some (mkWatch (Some text) new).
Proof.
  intros HB N E K R HA HL. destruct HA as [|l after -> HA]; [cbn in HL; lia|]. apply watch_loop_key in HB. cbn [watch_loop].
  rewrite (settled_applies text w new) by (done || by rewrite HB). by apply (settled_stays text).
Qed.

(** An edit made between the start of the process, which parsed the file before,
    and the first read of the task is taken for the text in force: it is not
    applied, however long the file holds still. *)
Lemma early_edit_lost config text looks : Forall (settled text) looks ->
  watch_loop (watch_start config (Some text)) looks = Some (mkWatch (Some text) config).
Proof. by apply (settled_stays text (mkWatch (Some text) config)). Qed.
End watch.

(** ** The dispatcher *)

(** What one turn of the dispatcher's loop observes. *)
Record DispatcherTurn : Type := mkDispatcherTurn {
  turn_envs : ReserveEnvs;
  turn_undo : ReleaseEnvs;
  turn_now : Z; (** the scheduler's clock *)
  turn_clock : Instant
}.

Section dispatcher.
Context {K : Type} `{Coordinator K} {HO : HashOrder}.
Implicit Types (a : App K).

(** The loop of [start_dispatcher], and whether it ended. *)
Fixpoint dispatcher_loop a (turns : list DispatcherTurn) : outcome (App K * bool) :=
  match turns with
  | [] => Returns (a, false)
  | t :: rest =>
      if dispatcher_done a then Returns (a, true)
      else match dispatcher_tick a (turn_envs t) (turn_undo t) (turn_now t) (turn_clock t) with
           | Panics => Panics
           | Returns a' => dispatcher_loop a' rest
           end
  end.

(** The deadline of every pending request has passed. *)
Definition overdue a (clock : Instant) : Prop :=
  forall i p, app_pending a !! i = Some p -> deadline (pending_request p) <= clock - queued_at p.

Definition queued_items a : list Queued := all_items (queues (app_scheduler a)).

Lemma requeue_overdue a id p now elapsed : deadline (pending_request p) <= elapsed -> requeue a id p now elapsed = count_rejected a.
Proof. intros Hd. unfold requeue. by rewrite (proj2 (Z.leb_le _ _) Hd). Qed.

(** What a turn leaves of the queue. *)
Definition queue_part a : SchedulerConfig * Inner * gmap Uuid Pending := (sched_config a, app_scheduler a, app_pending a).

Lemma on_pool_queue a p f : queue_part (on_pool a p f) = queue_part a.
Proof. unfold on_pool. by case_match. Qed.

Lemma queue_part_tick (a a' : App K) c s m : queue_part a' = (c, s, m) ->
  c = sched_config a -> Inv c s -> m ⊆ app_pending a -> length (all_items (queues s)) = pred (length (queued_items a)) ->
  sched_config a' = sched_config a /\ Inv (sched_config a) (app_scheduler a') /\ app_pending a' ⊆ app_pending a /\
  length (queued_items a') = pred (length (queued_items a)).
Proof. intros [= E1 E2 E3] -> HI HM HL. unfold queued_items at 1. by rewrite E1, E2, E3. Qed.

(** A turn with overdue requests takes one out of the queue for good. *)
Lemma tick_overdue a t : wf_config (sched_config a) -> Inv (sched_config a) (app_scheduler a) -> overdue a (turn_clock t) ->
  exists a', dispatcher_tick a (turn_envs t) (turn_undo t) (turn_now t) (turn_clock t) = Returns a' /\
    sched_config a' = sched_config a /\ Inv (sched_config a) (app_scheduler a') /\ app_pending a' ⊆ app_pending a /\
    length (queued_items a') = pred (length (queued_items a)).
Proof.
  intros HW HI HO'. unfold dispatcher_tick. destruct (pop_cases (sched_config a) (turn_now t) (app_scheduler a) (inv_queues _ _ HI)) as
    [(EQ & ->) | (k & q & it & rest & s1 & _ & _ & _ & EP & _ & HS)].
  { eexists. split; [done|]. cbn. split_and!; try done. unfold queued_items. cbn. by rewrite EQ. }
  pose proof (pop_Inv _ _ _ _ _ HW HI EP) as HI1. rewrite EP. destruct HS as [HS _ _ _ _ _].
  assert (HL : length (all_items (queues s1)) = pred (length (queued_items a))) by (unfold queued_items; by rewrite HS).
  cbn [app_pending set_scheduler app_pools set_pending].
  destruct (app_pending a !! req_id (request it)) as [p|] eqn:EPp; [|by eexists].
  pose proof (HO' _ _ EPp) as Hd. assert (HD : delete (req_id (request it)) (app_pending a) ⊆ app_pending a) by apply delete_subseteq.
  destruct (app_pools a !! Core.pool (request it)) as [pool|]; [|by eexists].
  destruct (try_enter _ _ _) as [cs b]. destruct b; cbn [negb]; [|rewrite (requeue_overdue _ _ _ _ _ Hd); by eexists].
  destruct (reserve_distributed _ _ _ _ _ _ _ _) as [k' [[leases|]|e]].
  - case_bool_decide; (eexists; split; [done|]); (eapply queue_part_tick; [|reflexivity | exact HI1 | exact HD | exact HL]).
    + exact (on_pool_queue _ _ _).
    + etransitivity; [exact (on_pool_queue _ _ _)|]. exact (on_pool_queue _ _ _).
  - rewrite (requeue_overdue _ _ _ _ _ Hd). by eexists.
  - rewrite (requeue_overdue _ _ _ _ _ Hd). by eexists.
Qed.

Lemma loop_overdue turns : forall a, wf_config (sched_config a) -> Inv (sched_config a) (app_scheduler a) ->
  Forall (fun t => overdue a (turn_clock t)) turns -> depth (app_scheduler a) <= Z.of_nat (length turns) ->
  exists a' ended, dispatcher_loop a turns = Returns (a', ended) /\ (ended = true \/ depth (app_scheduler a') = 0).
Proof.
  induction turns as [|t turns IH]; intros a HW HI HF HL; cbn [dispatcher_loop].
  { exists a, false. split; [done|]. right. rewrite (inv_depth _ _ HI) in *. cbn in HL. lia. }
  destruct (dispatcher_done a); [by exists a, true; auto|]. apply Forall_cons in HF as [Ht HF].
  destruct (tick_overdue a t HW HI Ht) as (a' & -> & EC & HI' & HP & HN). apply IH.
  - by rewrite EC.
  - by rewrite EC.
  - eapply Forall_impl; [exact HF|]. intros t' Ho i p Hp. apply (Ho i p). by eapply lookup_weaken.
  - rewrite (inv_depth _ _ HI') . rewrite (inv_depth _ _ HI) in HL. unfold queued_items in HN. cbn [length] in HL. lia.
Qed.
End dispatcher.

(** C39: No request is put back for ever: in every reachable state, once the
    deadlines of the pending requests have passed, the dispatcher's loop does
    not panic, and after as many turns as there are requests in the scheduler it
    has ended or the scheduler is empty, whatever the coordinator answers. *)
Theorem dispatcher_empties_queue {K : Type} `{CoordinatorLaws K} {HO : HashOrder} parse_uuid uuid_to_string parse_cidr parse_url
    config k n s turns :
  startable parse_cidr parse_url config -> Z.of_nat n <= U64_MAX ->
  runs (K := K) parse_uuid uuid_to_string parse_cidr parse_url config k n s ->
  Forall (fun t => overdue (sys_app s) (turn_clock t)) turns -> depth (app_scheduler (sys_app s)) <= Z.of_nat (length turns) ->
  exists a' ended, dispatcher_loop (sys_app s) turns = Returns (a', ended) /\ (ended = true \/ depth (app_scheduler a') = 0).
Proof. intros HS Hn HR HF HL. pose proof (runs_inv _ _ _ _ _ _ _ _ HS Hn HR) as []. by apply loop_overdue. Qed.

(** ** Witnesses *)

Definition ex_renewal : ReleaseEnvs := mkReleaseEnvs (ex_env 1 5) (ex_env 1 6) (ex_env 1 7).
Definition ex_turns : list Turn := [RenewalDue ex_renewal; FromUpstream (Some (Ok [])) true; FromUpstream None true].

Lemma relay_task_refines_witness :
  let '(a', out, ended) := relay_task (sys_app ex_sys) ex_active.2 ex_turns None false ex_renewal in
  out `prefix_of` sent_upstream ex_turns /\ (existsb hangs_up ex_turns = false -> out = sent_upstream ex_turns) /\
  ended = existsb (fun t => hangs_up t || closes t) ex_turns /\
  rtc (sstep no_uuid hex any_cidr no_url) ex_sys (with_app ex_sys a' (if ended then [] else guards ex_sys)).
Proof. apply (relay_task_refines no_uuid hex any_cidr no_url ex_sys ex_active.2 [] ex_turns None false ex_renewal). reflexivity. Defined.

Definition ex_lease : Lease := mkLease 1%N ex_pool f_one 15 None.

Lemma ex_streaming : streaming ex_lease 10 14 (in_memory_renew ex_s1 (ex_env 14 9) ex_lease 10).1.
Proof.
  refine (stream_renew ex_lease 10 5 ex_s1 (ex_env 14 9) _ (Ok true) _ _); [|vm_compute; reflexivity].
  refine (stream_granted ex_lease 10 ∅ (ex_env 5 1) ex_pool (f_of_Z 2) f_one ex_s1 _). vm_compute. reflexivity.
Qed.

Lemma streaming_lease_counts_witness :
  (exists e, retain_live 20 (default ∅ ((in_memory_renew ex_s1 (ex_env 14 9) ex_lease 10).1 !! ex_pool)) !! 1%N = Some e /\ amount e = f_one) /\
  (renew_interval 10 < 10 <-> from_secs 1 < 10).
Proof. apply (streaming_lease_counts ex_lease 10 14 _ 20 ex_streaming). lia. Defined.

Lemma reload_converges_witness :
  watch_loop any_cidr no_url (fun _ => Some ex_config) (fun _ => None) (fun _ => true) (watch_start ex_config None)
    [mkLook false (Some "x"%string) (ReadOk "x")] = Some (mkWatch (Some "x"%string) ex_config).
Proof.
  apply (reload_converges any_cidr no_url (fun _ => Some ex_config) (fun _ => None) (fun _ => true) ex_config None []
    (watch_start ex_config None) "x" ex_config [mkLook false (Some "x"%string) (ReadOk "x")]).
  - reflexivity.
  - done.
  - vm_compute. reflexivity.
  - reflexivity.
  - reflexivity.
  - by apply Forall_singleton.
  - cbn. lia.
Defined.

(** A request that waits. *)
Definition ex_wait : App LeaseState * Ticket :=
  match handle_start no_uuid hex (sys_app ex_start) big_incoming ex_envs 0 7%N with
  | Returns (a, Wait t) => (a, t)
  | _ => (sys_app ex_start, mkTicket ex_admission 0%N 0 0 0 0)
  end.
Definition ex_enqueued : Sys LeaseState :=
  mkSys ex_wait.1 (<[7%N := tk_request ex_wait.2]> ∅) (take_lease ex_start ex_envs) [ex_wait.2] [] [].
Definition ex_queued : Sys LeaseState :=
  mkSys (insert_pending ex_wait.1 ex_wait.2 1) (owner ex_enqueued) (used ex_enqueued) [] [ex_wait.2] [].

Lemma ex_queued_runs : runs no_uuid hex any_cidr no_url ex_config ∅ 2 ex_queued.
Proof.
  refine (nsteps_l _ _ _ ex_enqueued _ _ _); [|apply nsteps_once].
  - refine (sys_enqueue _ _ _ _ ex_start big_incoming ex_envs 0 7%N ex_wait.1 ex_wait.2 _ _ _ _ _).
    + unfold fresh_lease. cbn. apply not_elem_of_empty.
    + done.
    + intros c r E. exfalso. rewrite (lookup_empty c : owner ex_start !! c = None) in E. discriminate E.
    + by intros n [= <-].
    + vm_compute. reflexivity.
  - exact (sys_insert _ _ _ _ ex_enqueued ex_wait.2 [] 1 (reflexivity _)).
Qed.

Definition ex_late : DispatcherTurn := mkDispatcherTurn ex_envs ex_renewal 1 (from_secs 1000000).

Lemma dispatcher_empties_queue_witness :
  exists a' ended, dispatcher_loop (sys_app ex_queued) [ex_late] = Returns (a', ended) /\ (ended = true \/ depth (app_scheduler a') = 0).
Proof.
  apply (dispatcher_empties_queue no_uuid hex any_cidr no_url ex_config ∅ 2 ex_queued [ex_late]).
  - apply ex_startable.
  - vm_compute. congruence.
  - apply ex_queued_runs.
  - apply Forall_singleton. refine (bool_decide_eq_true_1
      (map_Forall (fun _ p => deadline (pending_request p) <= turn_clock ex_late - queued_at p) (app_pending (sys_app ex_queued))) _).
    vm_compute. reflexivity.
  - vm_compute. congruence.
Defined.
