(* ===== verification/Admin.v ===== *)
(** * The management plane of the proxy (crates/proxy)

    The routes of [admin_router] with their handlers: health, status, capacity,
    queues, decisions, the dashboard, and the metrics page in the Prometheus
    text format; [admin_request] is the router behind [admin_security].  JSON
    pages are values, their serialization is a library's.  [read_page] is a
    reader of the metrics page. *)

From stdpp Require Import base gmap strings countable sorting list.
From Stdlib Require Import ZArith Lia SpecFloat Ascii.
From S2P Require Import Prelude Rounding F64 F64Facts F64Text Web Json Core Scheduler Capacity Coordinator Config Admission Proxy ProxyHttp ProxySystem.

Open Scope Z_scope.

(** ** JSON pages *)

Definition json_text (s : string) : Value := Str (String.list_ascii_of_string s).
Definition json_u64 (n : Z) : Value := Num (PosInt n).
(** [serde_json] writes doubles that are not finite as null. *)
Definition json_f64 (x : f64) : Value := if is_finite x then Num (Float x) else Null.

(** The derived [Serialize] of the three records. *)
Definition snapshot_json (s : QueueSnapshot) : Value :=
  Obj [("depth", json_u64 (snap_depth s)); ("bytes", json_u64 (snap_bytes s)); ("active_queues", json_u64 (active_queues s))]%string.

Definition capacity_json (s : CapacityStatus) : Value :=
  Obj [("configured_units", json_f64 (configured_units s)); ("reserved_units", json_f64 (reserved_units s));
       ("safety_factor", json_f64 (safety_factor s)); ("estimate_error_ewma", json_f64 (estimate_error_ewma s));
       ("throttle_ewma", json_f64 (throttle_ewma s)); ("confidence", json_f64 (status_confidence s));
       ("observations", json_u64 (status_observations s))]%string.

Section pages.
Context {K : Type} `{Coordinator K} {HO : HashOrder} (uuid_to_string : Uuid -> string).
Implicit Types (a : App K).

Definition decision_json (r : DecisionRecord) : Value :=
  Obj [("request_id", json_text (uuid_to_string (rec_request_id r))); ("effective_class", json_text (rec_effective_class r));
       ("tenant", json_text (rec_tenant r)); ("application", json_text (rec_application r)); ("pool", json_text (rec_pool r));
       ("estimated_work_units", json_f64 (rec_estimated_work_units r)); ("outcome", json_text (rec_outcome r));
       ("queue_age_ms", json_u64 (rec_queue_age_ms r))]%string.

(** What a page needs besides the state. *)
Record AdminEnv : Type := mkAdminEnv {
  version : string; (** [CARGO_PKG_VERSION] *)
  uptime_seconds : Z;
  coordinator_health : result CoordinatorError unit;
  provider_health : list (option bool);
  dashboard_html : string;
  dashboard_script : string;
  dashboard_style : string
}.

Definition live : Value := Obj [("status", json_text "live")]%string.

Definition status_page (env : AdminEnv) a : Value :=
  let m := app_metrics a in
  Obj [("version", json_text (version env));
       ("mode", json_text (match mode (app_config a) with Enforce => "enforce" | Shadow => "shadow" end));
       ("draining", Boolean (draining a));
       ("uptime_seconds", json_u64 (uptime_seconds env));
       ("active", json_u64 (m_active m));
       ("queue", snapshot_json (snapshot (app_scheduler a)));
       ("counters", Obj [("requests", json_u64 (m_requests m)); ("admitted", json_u64 (m_admitted m)); ("queued", json_u64 (m_queued m));
                         ("rejected", json_u64 (m_rejected m)); ("shadow_would_queue", json_u64 (m_shadow_would_queue m));
                         ("provider_throttles", json_u64 (m_provider_throttles m))])]%string.

Definition capacity_page a : Value :=
  Obj ((fun '(name, p) => (name, capacity_json (status (pr_capacity p)))) <$> btree_iter string_le (app_pools a)).

Definition queues_page a : Value := snapshot_json (snapshot (app_scheduler a)).

Definition decisions_page a : Value := Arr (decision_json <$> app_decisions a).

(** ** The metrics page *)

Definition line (s : string) : string := s +:+ String NEWLINE EmptyString.

(** A metric without labels: its type and its value. *)
Definition plain_metric (kind name : string) (value : Z) : string :=
  line ("# TYPE " +:+ name +:+ " " +:+ kind) +:+ line (name +:+ " " +:+ decimal value).

Definition pool_metric (name pool : string) (value : f64) : string :=
  line (name +:+ "{pool=" +:+ quoted pool +:+ "} " +:+ f_display value).

Definition pool_metrics (np : string * PoolRuntime) : string :=
  let name := prometheus_escape np.1 in
  let s := status (pr_capacity np.2) in
  pool_metric "inferqos_capacity_configured_units" name (configured_units s) +:+
  pool_metric "inferqos_capacity_reserved_units" name (reserved_units s) +:+
  pool_metric "inferqos_capacity_safety_factor" name (safety_factor s) +:+
  pool_metric "inferqos_capacity_confidence" name (status_confidence s).

Fixpoint text_concat (l : list string) : string := match l with [] => EmptyString | s :: l => s +:+ text_concat l end.

(** [metrics]. *)
Definition metrics a : string :=
  let m := app_metrics a in
  plain_metric "counter" "inferqos_requests_total" (m_requests m) +:+
  plain_metric "counter" "inferqos_admitted_total" (m_admitted m) +:+
  plain_metric "counter" "inferqos_queued_total" (m_queued m) +:+
  plain_metric "counter" "inferqos_rejected_total" (m_rejected m) +:+
  plain_metric "counter" "inferqos_shadow_would_queue_total" (m_shadow_would_queue m) +:+
  plain_metric "counter" "inferqos_provider_throttles_total" (m_provider_throttles m) +:+
  plain_metric "gauge" "inferqos_active_requests" (m_active m) +:+
  plain_metric "gauge" "inferqos_queue_depth" (snap_depth (snapshot (app_scheduler a))) +:+
  line "# TYPE inferqos_capacity_configured_units gauge" +:+
  line "# TYPE inferqos_capacity_reserved_units gauge" +:+
  line "# TYPE inferqos_capacity_safety_factor gauge" +:+
  line "# TYPE inferqos_capacity_confidence gauge" +:+
  text_concat (pool_metrics <$> hash_iter (app_pools a)).

(** ** The router *)

Inductive Page : Type :=
| JsonPage (v : Value)
| TextPage (s : string)
| HtmlPage (s : string)
| Asset (content_type s : string)
| NotFound
| MethodNotAllowed.

(** A response: a problem, or a page with its headers. *)
Abbreviation Reply := (result Response (list (string * string) * Page)).

Definition plain_page (p : Page) : Reply := Ok ([], p).
Definition asset (content_type s : string) : Reply :=
  Ok ([("content-type", content_type); ("cache-control", "no-store")]%string, Asset content_type s).

Definition ready_page (env : AdminEnv) a : Reply :=
  match ready (draining a) (coordinator_health env) (provider_health env) with
  | Err r => Err r
  | Ok usable => plain_page (JsonPage (Obj [("status", json_text "ready"); ("pools", json_u64 (Z.of_nat (size (app_pools a))));
                                            ("usable_pools", json_u64 usable)]%string))
  end.

(** The handlers of [admin_router], by path. *)
Definition admin_routes (env : AdminEnv) a : list (string * Reply) :=
  [("/health/live", plain_page (JsonPage live));
   ("/health/ready", ready_page env a);
   ("/metrics", plain_page (TextPage (metrics a)));
   ("/api/v1/status", plain_page (JsonPage (status_page env a)));
   ("/api/v1/capacity", plain_page (JsonPage (capacity_page a)));
   ("/api/v1/queues", plain_page (JsonPage (queues_page a)));
   ("/api/v1/decisions", plain_page (JsonPage (decisions_page a)));
   ("/ui", plain_page (HtmlPage (dashboard_html env)));
   ("/ui/app.js", asset "text/javascript; charset=utf-8" (dashboard_script env));
   ("/ui/style.css", asset "text/css; charset=utf-8" (dashboard_style env))]%string.

Definition admin_route (env : AdminEnv) a (method path : string) : Reply :=
  match head (filter (fun r => r.1 = path) (admin_routes env a)) with
  | None => plain_page NotFound
  | Some (_, reply) => if String.eqb method "GET" then reply else plain_page MethodNotAllowed
  end.

(** The router behind [admin_security]; a problem of a handler also gets the
    security headers. *)
Definition admin_request (env : AdminEnv) (vars : string -> option string) a (method path : string) (authorization : option string) :
    result Response (list (string * string) * result Response Page) :=
  let reply := admin_route env a method path in
  match admin_security (bearer_token_env (admin (app_config a))) vars path authorization
          (match reply with Ok (headers, _) => headers | Err _ => [] end) with
  | Err r => Err r
  | Ok headers => Ok (headers, match reply with Ok (_, page) => Ok page | Err r => Err r end)
  end.
End pages.

(** ** A reader of the metrics page *)

Inductive Sample : Type :=
| Count (name : string) (n : Z)
| Gauge (name pool : string) (x : f64).

Fixpoint page_lines (s : string) : list string :=
  match s with
  | EmptyString => []
  | String c rest =>
      if Ascii.eqb c NEWLINE then EmptyString :: page_lines rest
      else match page_lines rest with [] => [String c EmptyString] | l :: ls => String c l :: ls end
  end.

Definition is_comment (s : string) : bool := match s with String "#" _ => true | _ => false end.

(** The text up to a blank or an opening brace. *)
Definition name_end (c : ascii) : bool := Ascii.eqb c " " || Ascii.eqb c "{".
Fixpoint take_name (s : string) : string * string :=
  match s with
  | EmptyString => (EmptyString, EmptyString)
  | String c rest => if name_end c then (EmptyString, s) else let '(name, rest) := take_name rest in (String c name, rest)
  end.

(** The text up to a quote that is not escaped, without its escapes. *)
Fixpoint read_label (s : string) : option (string * string) :=
  match s with
  | EmptyString => None
  | String x rest =>
      if Ascii.eqb x QUOTE then Some (EmptyString, rest)
      else if Ascii.eqb x BACKSLASH then
        match rest with
        | String y rest' => '(l, t) ← read_label rest'; Some (String (if Ascii.eqb y "n" then NEWLINE else y) l, t)
        | EmptyString => None
        end
      else '(l, t) ← read_label rest; Some (String x l, t)
  end.

Definition read_line (l : string) : option Sample :=
  let '(name, rest) := take_name l in
  match rest with
  | String " " value => match read_number value with Some (n, O) => Some (Count name n) | _ => None end
  | _ =>
      labels ← strip_prefix ("{pool=" +:+ String QUOTE EmptyString) rest;
      '(pool, rest) ← read_label labels;
      value ← strip_prefix "} " rest;
      Gauge name pool <$> parse_f64 value
  end.

Definition read_page (s : string) : option (list Sample) := mapM read_line (filter (fun l => is_comment l = false) (page_lines s)).

(** What the page says. *)
Definition pool_samples (np : string * PoolRuntime) : list Sample :=
  let s := status (pr_capacity np.2) in
  [Gauge "inferqos_capacity_configured_units" np.1 (configured_units s); Gauge "inferqos_capacity_reserved_units" np.1 (reserved_units s);
   Gauge "inferqos_capacity_safety_factor" np.1 (safety_factor s); Gauge "inferqos_capacity_confidence" np.1 (status_confidence s)].

Definition samples_of {K} `{Coordinator K} {HO : HashOrder} (a : App K) : list Sample :=
  let m := app_metrics a in
  [Count "inferqos_requests_total" (m_requests m); Count "inferqos_admitted_total" (m_admitted m);
   Count "inferqos_queued_total" (m_queued m); Count "inferqos_rejected_total" (m_rejected m);
   Count "inferqos_shadow_would_queue_total" (m_shadow_would_queue m);
   Count "inferqos_provider_throttles_total" (m_provider_throttles m);
   Count "inferqos_active_requests" (m_active m); Count "inferqos_queue_depth" (depth (app_scheduler a))] ++
  (hash_iter (app_pools a) ≫= pool_samples).

(** ** Characters *)

Fixpoint all_chars (P : ascii -> bool) (s : string) : bool :=
  match s with EmptyString => true | String c rest => P c && all_chars P rest end.
Definition not_newline (c : ascii) : bool := negb (Ascii.eqb c NEWLINE).

Lemma all_chars_app P s t : all_chars P (s +:+ t) = all_chars P s && all_chars P t.
Proof. induction s as [|c s IH]; [done|]. change (String c s +:+ t) with (String c (s +:+ t)). cbn. by rewrite IH, andb_assoc. Qed.

Lemma text_app_nil s : s +:+ EmptyString = s.
Proof. induction s as [|c s IH]; [done|]. change (String c (s +:+ EmptyString) = String c s). by rewrite IH. Qed.

Lemma digits_n_chars P k n s : (forall d, 0 <= d <= 9 -> P (digit_char d) = true) -> all_chars P s = true -> all_chars P (digits_n k n s) = true.
Proof.
  intros HP. revert n s. induction k as [|k IH]; intros n s Hs; [done|]. cbn [digits_n]. apply IH. cbn [all_chars]. rewrite Hs, HP; [done|].
  pose proof (Z.mod_pos_bound n 10). lia.
Qed.

Lemma digit_not_newline d : 0 <= d <= 9 -> not_newline (digit_char d) = true.
Proof.
  intros Hd. assert (E : d = 0 \/ d = 1 \/ d = 2 \/ d = 3 \/ d = 4 \/ d = 5 \/ d = 6 \/ d = 7 \/ d = 8 \/ d = 9) by lia.
  by repeat destruct E as [-> | E]; subst.
Qed.

Lemma decimal_no_newline n s : all_chars not_newline s = true -> all_chars not_newline (decimal_before n s) = true.
Proof. apply digits_n_chars, digit_not_newline. Qed.

Lemma display_no_newline x : all_chars not_newline (f_display x) = true.
Proof.
  assert (S1 : forall s t, all_chars not_newline t = true -> all_chars not_newline (signed_text s t) = true) by (by intros []).
  destruct x as [[]|[]| |s m e]; try reflexivity. unfold f_display. destruct (shortest _) as [c p]. apply S1.
  unfold decimal_text. case_match; apply decimal_no_newline; [done|]. cbn. apply digits_n_chars; [apply digit_not_newline | done].
Qed.

Lemma escape_no_newline s : all_chars not_newline (prometheus_escape s) = true.
Proof.
  induction s as [|x s IH]; [done|]. rewrite prometheus_escape_cons, all_chars_app, IH, andb_true_r.
  destruct (Ascii.eqb x BACKSLASH); [done|]. destruct (Ascii.eqb x QUOTE); [done|]. destruct (Ascii.eqb x NEWLINE) eqn:E; [done|].
  cbn. unfold not_newline. by rewrite E.
Qed.

(** ** Reading back what was written *)

Lemma page_lines_line l rest : all_chars not_newline l = true -> page_lines (line l +:+ rest) = l :: page_lines rest.
Proof.
  unfold line. rewrite app_assoc_s. change (String NEWLINE EmptyString +:+ rest) with (String NEWLINE rest).
  induction l as [|c l IH]; [done|]. change (String c l +:+ ?t) with (String c (l +:+ t)). cbn [all_chars page_lines].
  unfold not_newline at 1. intros [Hc Hl]%andb_prop. rewrite IH by done. by apply negb_true_iff in Hc as ->.
Qed.

Lemma read_page_line l rest : all_chars not_newline l = true ->
  read_page (line l +:+ rest) = if is_comment l then read_page rest else x ← read_line l; xs ← read_page rest; Some (x :: xs).
Proof.
  intros Hl. unfold read_page. rewrite page_lines_line by done. rewrite filter_cons. by destruct (is_comment l).
Qed.

Lemma take_name_app name c rest : all_chars (fun c => negb (name_end c)) name = true -> name_end c = true ->
  take_name (name +:+ String c rest) = (name, String c rest).
Proof.
  induction name as [|x name IH]; intros Hn Hc; [change (take_name (String c rest) = (EmptyString, String c rest)); cbn [take_name]; by rewrite Hc|].
  change (String x name +:+ ?t) with (String x (name +:+ t)). cbn [all_chars take_name] in Hn |- *. apply andb_prop in Hn as [Hx Hn].
  rewrite IH by done. by apply negb_true_iff in Hx as ->.
Qed.

Lemma read_label_escape s t : read_label (prometheus_escape s +:+ String QUOTE t) = Some (s, t).
Proof.
  induction s as [|x s IH]; [done|]. rewrite prometheus_escape_cons, app_assoc_s.
  destruct (Ascii.eqb_spec x BACKSLASH) as [-> | H1].
  - change (read_label (String BACKSLASH (String BACKSLASH (prometheus_escape s +:+ String QUOTE t))) = Some (String BACKSLASH s, t)).
    cbn [read_label]. by rewrite IH.
  - destruct (Ascii.eqb_spec x QUOTE) as [-> | H2].
    + change (read_label (String BACKSLASH (String QUOTE (prometheus_escape s +:+ String QUOTE t))) = Some (String QUOTE s, t)).
      cbn [read_label]. by rewrite IH.
    + destruct (Ascii.eqb_spec x NEWLINE) as [-> | H3].
      * change (read_label (String BACKSLASH (String "n" (prometheus_escape s +:+ String QUOTE t))) = Some (String NEWLINE s, t)).
        cbn [read_label]. by rewrite IH.
      * change (read_label (String x (prometheus_escape s +:+ String QUOTE t)) = Some (String x s, t)). cbn [read_label].
        rewrite (proj2 (Ascii.eqb_neq x BACKSLASH) H1), (proj2 (Ascii.eqb_neq x QUOTE) H2). by rewrite IH.
Qed.

Definition metric_name (name : string) : bool :=
  all_chars (fun c => negb (name_end c)) name && all_chars not_newline name && negb (is_comment name) && negb (String.eqb name EmptyString).

Lemma metric_name_spec name : metric_name name = true -> all_chars (fun c => negb (name_end c)) name = true /\
  all_chars not_newline name = true /\ forall t, is_comment (name +:+ t) = false.
Proof.
  unfold metric_name. intros [[[H1 H2]%andb_prop H3]%andb_prop H4]%andb_prop. split_and!; [done | done |]. intros t.
  destruct name as [|c name]; [done|]. change (String c name +:+ t) with (String c (name +:+ t)).
  apply negb_true_iff in H3. cbn in H3 |- *. by destruct c as [[] [] [] [] [] [] [] []].
Qed.

Lemma read_plain kind name v rest : metric_name name = true -> all_chars not_newline kind = true -> 0 <= v ->
  read_page (plain_metric kind name v +:+ rest) = xs ← read_page rest; Some (Count name v :: xs).
Proof.
  intros (H1 & H2 & H3)%metric_name_spec Hk Hv. unfold plain_metric. rewrite app_assoc_s, read_page_line.
  2: { rewrite !all_chars_app, H2, Hk. done. }
  change (is_comment ("# TYPE " +:+ _)) with true. cbn match. rewrite read_page_line.
  2: { rewrite !all_chars_app, H2. cbn. by apply decimal_no_newline. }
  rewrite H3. unfold read_line. change (" " +:+ decimal v) with (String " " (decimal v)). rewrite take_name_app by done.
  unfold read_number, decimal. destruct (take_decimal v EmptyString Hv I) as [count ->]. done.
Qed.

Lemma read_pool name pool x rest : metric_name name = true -> valid x ->
  read_page (pool_metric name (prometheus_escape pool) x +:+ rest) = xs ← read_page rest; Some (Gauge name pool x :: xs).
Proof.
  intros (H1 & H2 & H3)%metric_name_spec Hx. unfold pool_metric, quoted. rewrite read_page_line.
  2: { rewrite !all_chars_app, H2. cbn. rewrite !all_chars_app. rewrite escape_no_newline. cbn. rewrite display_no_newline. done. }
  rewrite H3. unfold read_line.
  change ("{pool=" +:+ ?t) with (String "{" ("pool=" +:+ t)). rewrite take_name_app by done.
  match goal with |- context [strip_prefix ?p ?s] =>
    replace (strip_prefix p s) with (Some (prometheus_escape pool +:+ String QUOTE ("} " +:+ f_display x))) end.
  - cbn [mbind option_bind]. rewrite read_label_escape. cbn [mbind option_bind].
    replace (strip_prefix "} " ("} " +:+ f_display x)) with (Some (f_display x)) by done. cbn [mbind option_bind]. rewrite display_roundtrip by done. done.
  - change (String QUOTE (prometheus_escape pool +:+ String QUOTE EmptyString) +:+ ?t)
      with (String QUOTE ((prometheus_escape pool +:+ String QUOTE EmptyString) +:+ t)). by rewrite app_assoc_s.
Qed.

Definition doubles (m : CapacityModel) : Prop :=
  let s := status m in valid (configured_units s) /\ valid (reserved_units s) /\ valid (safety_factor s) /\ valid (status_confidence s).

Lemma read_pools l rest xs : Forall (fun np : string * PoolRuntime => doubles (pr_capacity np.2)) l -> read_page rest = Some xs ->
  read_page (text_concat (pool_metrics <$> l) +:+ rest) = Some ((l ≫= pool_samples) ++ xs).
Proof.
  intros HD HR. induction HD as [|[n p] l (V1 & V2 & V3 & V4) _ IH]; [done|].
  cbn [fmap list_fmap text_concat]. unfold pool_metrics at 1. cbn [fst snd]. rewrite !app_assoc_s, !read_pool by done.
  rewrite IH. done.
Qed.

(** C37: The metrics page is readable: whatever the names of the pools are, a
    reader of the text format gets back exactly the samples the page was made
    of.  A pool's name cannot add a line, a sample or a label, and every number
    reads back as the same integer or the same double. *)
Theorem metrics_readable {K : Type} `{Coordinator K} {HO : HashOrder} (a : App K) :
  (let m := app_metrics a in Forall (Z.le 0) [m_requests m; m_admitted m; m_queued m; m_rejected m; m_shadow_would_queue m;
     m_provider_throttles m; m_active m; depth (app_scheduler a)]) ->
  (forall name p, app_pools a !! name = Some p -> doubles (pr_capacity p)) ->
  read_page (metrics a) = Some (samples_of a).
Proof.
  intros HC HD. cbv zeta in HC. repeat (apply Forall_cons in HC as [? HC]).
  assert (HP : Forall (fun np : string * PoolRuntime => doubles (pr_capacity np.2)) (hash_iter (app_pools a))).
  { apply Forall_forall. intros [n p] Hn. rewrite hash_iter_perm in Hn. apply elem_of_map_to_list in Hn. by eapply HD. }
  unfold metrics, samples_of. rewrite !read_plain by done. rewrite !read_page_line by done.
  pose proof (read_pools _ EmptyString [] HP eq_refl) as HR. rewrite app_nil_r in HR.
  rewrite text_app_nil in HR. rewrite HR. done.
Qed.

(** A pool whose name tries to leave its label. *)
Definition hostile_name : string := String "a" (String QUOTE ("} 1" +:+ String NEWLINE (String BACKSLASH "x 2"))).
Definition ex_admin_app : App LeaseState :=
  set_pools (build ex_config ∅) {[ hostile_name := mkPoolRuntime (new_model (f_lit 1 10) (f_lit 115 100)) (f_lit 1 10) ]}.

Lemma metrics_readable_witness : read_page (metrics ex_admin_app) = Some (samples_of ex_admin_app).
Proof.
  apply (metrics_readable ex_admin_app).
  - repeat constructor; vm_compute; congruence.
  - intros name p Hp. unfold ex_admin_app in Hp. cbn in Hp. apply lookup_singleton_Some in Hp as [_ <-]. split_and!; vm_compute; reflexivity.
Defined.

(** ** Who sees what *)

(** Without the token nothing shows: when a bearer token is configured, the
    answer to a request that does not present it is the same whatever the state
    of the proxy and its surroundings, for every page but the two health
    pages. *)
Theorem admin_reveals_nothing {K : Type} `{Coordinator K} {HO : HashOrder} uuid_to_string env env' vars (a a' : App K)
    environment method path authorization :
  bearer_token_env (admin (app_config a)) = Some environment -> bearer_token_env (admin (app_config a')) = Some environment ->
  path <> "/health/live"%string -> path <> "/health/ready"%string ->
  (forall token, vars environment = Some token -> authorization <> Some ("Bearer " +:+ token)) ->
  admin_request uuid_to_string env vars a method path authorization = admin_request uuid_to_string env' vars a' method path authorization /\
  is_ok (admin_request uuid_to_string env vars a method path authorization) = false.
Proof.
  intros E E' H1 H2 HN. unfold admin_request, admin_security. rewrite E, E', (proj2 (String.eqb_neq _ _) H1), (proj2 (String.eqb_neq _ _) H2).
  cbn [orb]. destruct (vars environment) as [token|]; [|done]. specialize (HN token eq_refl).
  destruct (authorization ≫= strip_prefix "Bearer ") as [value|] eqn:EA; [|done].
  destruct (String.eqb_spec token value) as [<- | _]; [|done]. destruct HN.
  destruct authorization as [auth|]; [|done]. change (strip_prefix "Bearer " auth = Some token) in EA. by apply strip_prefix_spec in EA as ->.
Qed.

(** The same proxy with another management configuration. *)
Definition with_admin {K} `{Coordinator K} (a : App K) (adm : AdminConfig) : App K :=
  let c := app_config a in
  set_config a (mkConfig (api_version c) (kind c) (mode c) (server c) adm (coordinator c) (service_classes c) (pools c) (policies c)
                  (identity_config c) (limits c)).

Definition ex_decision : DecisionRecord := mkDecisionRecord 7%N "standard" "acme" "chat" "main" (f_of_Z 12) "admitted" 0.
Definition ex_admin_env : AdminEnv := mkAdminEnv "0.2.1" 5 (Ok tt) [Some true] "<html>" "js" "css".
Definition ex_hex (id : Uuid) : string := decimal (Z.of_N id).
Definition ex_closed (d : list DecisionRecord) : App LeaseState :=
  set_decisions (with_admin ex_admin_app (mkAdminConfig (mkSocketAddr "127.0.0.1" 9090) (Some "TOKEN"%string) false)) d.

Lemma admin_reveals_nothing_witness :
  let ask a := admin_request ex_hex ex_admin_env (fun _ => Some "secret"%string) a "GET" "/api/v1/decisions" (Some "Bearer guess"%string) in
  ask (ex_closed [ex_decision]) = ask (ex_closed []) /\ is_ok (ask (ex_closed [ex_decision])) = false.
Proof.
  intros ask. apply (admin_reveals_nothing ex_hex ex_admin_env ex_admin_env (fun _ => Some "secret"%string) (ex_closed [ex_decision])
    (ex_closed []) "TOKEN" "GET" "/api/v1/decisions" (Some "Bearer guess"%string)); try done. by intros token [= <-].
Defined.

(** [admin.expose_decisions] has no effect: whatever it is set to, every
    page is the same, and the decision history is served in full. *)
Theorem expose_decisions_ignored {K : Type} `{Coordinator K} {HO : HashOrder} uuid_to_string env vars (a : App K) method path authorization exposed :
  let adm := admin (app_config a) in
  admin_request uuid_to_string env vars (with_admin a (mkAdminConfig (admin_listen adm) (bearer_token_env adm) exposed)) method path authorization =
  admin_request uuid_to_string env vars a method path authorization /\
  admin_request uuid_to_string env vars (with_admin a (mkAdminConfig (admin_listen adm) None false)) "GET" "/api/v1/decisions" authorization =
  Ok (SECURITY_HEADERS, Ok (JsonPage (Arr (decision_json uuid_to_string <$> app_decisions a)))).
Proof. split; reflexivity. Qed.

(** A history that is switched off stays as it was. *)
Lemma history_survives_disabling {A} (d rs : list A) : foldl (fun d r => record d r 0) d rs = d.
Proof. induction rs as [|r rs IH]; [done | exact IH]. Qed.
