(* ===== verification/Identity.v ===== *)
(** * Identity resolution (crates/identity)

    [resolve] decides who a request comes from: verified client certificates
    first, then the forwarded headers of a trusted proxy, then bearer tokens
    (OIDC or API keys), then the anonymous identity.  [verify] is the OIDC
    verifier.

    CIDR parsing and matching (ipnet), token decoding (jsonwebtoken) and the
    JWKS fetch are parameters; the process environment is a function. *)

From stdpp Require Import base gmap strings countable sorting list.
From Stdlib Require Import ZArith Lia Ascii.
From S2P Require Import Web Prelude Core Config ProxyHttp.

Open Scope Z_scope.

Inductive IdentityError : Type :=
| Configuration (detail : string)
| Jwks (detail : string)
| Required
| InvalidToken
| MissingClaim (claim : string).

Definition Headers : Type := gmap string string.

(** [header]: the value, if it is text and not empty. *)
Definition header (headers : gmap string string) (name : string) : option string :=
  match headers !! name with
  | Some v => if String.eqb v EmptyString then None else Some v
  | None => None
  end.

(** [mapped]. *)
Definition mapped (m : IdentityMapping) : IdentityContext :=
  {| principal := map_principal m; tenant := map_tenant m; application := map_application m; trusted := true |}.

(** [secure_url]. *)
Definition secure_url (parse_url : string -> result string Url) (value label : string) : result IdentityError Url :=
  match parse_url value with
  | Err e => Err (Configuration ("invalid " +:+ label +:+ " URL: " +:+ e))
  | Ok url =>
      if negb (String.eqb (scheme url) "https") && negb (bool_decide (host_str url = Some "localhost"%string))
      then Err (Configuration (label +:+ " URL must use HTTPS except localhost tests"))
      else Ok url
  end.

(** ** OIDC *)

(** An async operation that returns, or that waits for a lock it holds itself. *)
Inductive completion (A : Type) : Type :=
| Completes (a : A)
| Blocks.
Arguments Completes {A} a.
Arguments Blocks {A}.

Inductive Algorithm : Type := RS256 | RS384 | RS512 | ES256 | ES384 | HS256 | HS384 | HS512 | PS256 | PS384 | PS512 | EdDSA.

Definition algorithm_accepted (a : Algorithm) : bool :=
  match a with RS256 | RS384 | RS512 | ES256 | ES384 => true | _ => false end.

Record TokenHeader : Type := mkTokenHeader { alg : Algorithm; kid : option string }.

Section oidc.
Context {Key : Type}.
(** [decode_header] and [decode] of jsonwebtoken; the latter checks signature,
    audience, issuer, expiry and not-before and returns the string claims. *)
Context (decode_header : string -> option TokenHeader)
        (decode : string -> Key -> string -> string -> option (gmap string string)).

Record OidcVerifier : Type := mkOidcVerifier { verifier_config : OidcConfig; keys : gmap string Key }.

(** [OidcVerifier::refresh]: [fetched] is the JWKS the server returned, as the
    pairs of key id and decoded key, a document that is too large, or a failure. *)
Inductive fetch_result : Type :=
| Fetched (set : list (option string * option Key))
| FetchTooLarge
| FetchFailed (detail : string).

Fixpoint collect_keys (set : list (option string * option Key)) (acc : gmap string Key) : result IdentityError (gmap string Key) :=
  match set with
  | [] => Ok acc
  | (None, _) :: rest => collect_keys rest acc
  | (Some _, None) :: _ => Err (Jwks "invalid key")
  | (Some k, Some key) :: rest => collect_keys rest (<[k := key]> acc)
  end.

(** [read_held]: the caller holds a read guard of [keys], so the final
    [self.keys.write().await] waits for the caller itself. *)
Definition refresh (read_held : bool) (v : OidcVerifier) (fetched : fetch_result) :
    completion (OidcVerifier * result IdentityError unit) :=
  match fetched with
  | FetchFailed e => Completes (v, Err (Jwks e))
  | FetchTooLarge => Completes (v, Err (Jwks "JWKS document exceeds 1 MiB"))
  | Fetched set =>
      match collect_keys set ∅ with
      | Err e => Completes (v, Err e)
      | Ok ks => if bool_decide (ks = ∅) then Completes (v, Err (Jwks "JWKS has no keyed signing keys"))
                 else if read_held then Blocks
                 else Completes (mkOidcVerifier (verifier_config v) ks, Ok tt)
      end
  end.

(** [OidcVerifier::new]: the explicit JWKS URL or the one the discovery
    document names, then the first [refresh].  [join] is [Url::join], [discover]
    the request for the discovery document. *)
Definition oidc_new (parse_url : string -> result string Url) (join : Url -> string -> result string Url)
    (discover : Url -> result string string) (fetch : Url -> fetch_result) (config : OidcConfig) :
    completion (result IdentityError OidcVerifier) :=
  let url := match jwks_url config with
             | Some explicit => secure_url parse_url explicit "JWKS"
             | None =>
                 let? issuer := secure_url parse_url (issuer config) "OIDC issuer" in
                 let? discovery := match join issuer ".well-known/openid-configuration" with
                                   | Ok u => Ok u | Err e => Err (Configuration e) end in
                 let? uri := match discover discovery with Ok u => Ok u | Err e => Err (Jwks e) end in
                 secure_url parse_url uri "discovered JWKS"
             end in
  match url with
  | Err e => Completes (Err e)
  | Ok u =>
      match refresh false (mkOidcVerifier config ∅) (fetch u) with
      | Blocks => Blocks
      | Completes (v, r) => Completes (let? _ := r in Ok v)
      end
  end.

Definition claim (claims : gmap string string) (name : string) : result IdentityError string :=
  match claims !! name with
  | Some v => if String.eqb v EmptyString then Err (MissingClaim name) else Ok v
  | None => Err (MissingClaim name)
  end.

(** [OidcVerifier::verify].  The scrutinee of [match self.keys.read().await.get(..)]
    keeps its read guard until the match ends, so it is held during [refresh]. *)
Definition verify (v : OidcVerifier) (token : string) (fetched : fetch_result) :
    completion (OidcVerifier * result IdentityError IdentityContext) :=
  match decode_header token with
  | None => Completes (v, Err InvalidToken)
  | Some h =>
      if negb (algorithm_accepted (alg h)) then Completes (v, Err InvalidToken)
      else match kid h with
      | None => Completes (v, Err InvalidToken)
      | Some k =>
          let key := match keys v !! k with
                     | Some key => Completes (v, Ok key)
                     | None =>
                         match refresh true v fetched with
                         | Blocks => Blocks
                         | Completes (v', Err e) => Completes (v', Err e)
                         | Completes (v', Ok _) =>
                             Completes (v', match keys v' !! k with Some key => Ok key | None => Err InvalidToken end)
                         end
                     end in
          match key with
          | Blocks => Blocks
          | Completes (v, Err e) => Completes (v, Err e)
          | Completes (v, Ok key) =>
              let c := verifier_config v in
              match decode token key (audience c) (issuer c) with
              | None => Completes (v, Err InvalidToken)
              | Some claims =>
                  Completes (v, let? p := claim claims (principal_claim c) in
                                let? t := claim claims (tenant_claim c) in
                                let? a := claim claims (application_claim c) in
                                Ok {| principal := p; tenant := t; application := a; trusted := true |})
              end
          end
      end
  end.

(** ** The resolver *)

Context {Net Addr : Type} (contains : Net -> Addr -> bool) (parse_net : string -> result string Net)
        (env : string -> option string).

Record IdentityResolver : Type := mkIdentityResolver {
  resolver_config : Config;
  trusted_proxies : list Net;
  verifier : option OidcVerifier
}.

(** [parse_proxies]. *)
Fixpoint parse_cidrs (cidrs : list string) : result IdentityError (list Net) :=
  match cidrs with
  | [] => Ok []
  | c :: rest =>
      match parse_net c with
      | Err e => Err (Configuration ("invalid trusted proxy CIDR " +:+ c +:+ ": " +:+ e))
      | Ok n => let? ns := parse_cidrs rest in Ok (n :: ns)
      end
  end.
Definition parse_proxies (config : Config) : result IdentityError (list Net) :=
  parse_cidrs (trusted_proxy_cidrs (identity_config config)).

(** [IdentityResolver::new]; [new_verifier] is [OidcVerifier::new], see [oidc_new]. *)
Definition resolver_new (new_verifier : OidcConfig -> completion (result IdentityError OidcVerifier)) (config : Config) :
    completion (result IdentityError IdentityResolver) :=
  match parse_proxies config with
  | Err e => Completes (Err e)
  | Ok nets =>
      match oidc (identity_config config) with
      | None => Completes (Ok (mkIdentityResolver config nets None))
      | Some o => match new_verifier o with
                  | Blocks => Blocks
                  | Completes r => Completes (let? v := r in Ok (mkIdentityResolver config nets (Some v)))
                  end
      end
  end.

(** [IdentityResolver::replace_config]. *)
Definition replace_config (r : IdentityResolver) (config : Config) : IdentityResolver * result IdentityError unit :=
  match parse_proxies config with
  | Err e => (r, Err e)
  | Ok nets => (mkIdentityResolver config nets (verifier r), Ok tt)
  end.

(** [token.matches('.').count()]. *)
Definition dots (token : string) : nat := length (filter (fun c => c = "."%char) (String.list_ascii_of_string token)).

(** The API key loop: the first environment variable whose value is the token. *)
Fixpoint api_key (keys : list (string * IdentityMapping)) (token : string) : option IdentityContext :=
  match keys with
  | [] => None
  | (environment, m) :: rest =>
      match env environment with
      | Some expected => if String.eqb expected token then Some (mapped m) else api_key rest token
      | None => api_key rest token
      end
  end.

(** The certificate loop. *)
Fixpoint by_certificate (config : Config) (fingerprints : list string) : option IdentityContext :=
  match fingerprints with
  | [] => None
  | f :: rest =>
      match mtls_certificate_sha256_mappings (identity_config config) !! f with
      | Some m => Some (mapped m)
      | None => by_certificate config rest
      end
  end.

(** The identity a trusted proxy forwards. *)
Definition by_proxy (config : Config) (headers : gmap string string) : option IdentityContext :=
  let names := trusted_headers (identity_config config) in
  match header headers (client_cert_san names) ≫= (fun san => mtls_san_mappings (identity_config config) !! san) with
  | Some m => Some (mapped m)
  | None =>
      match header headers (principal_header names), header headers (tenant_header names), header headers (application_header names) with
      | Some p, Some t, Some a => Some {| principal := p; tenant := t; application := a; trusted := true |}
      | _, _, _ => None
      end
  end.

Definition anonymous : IdentityContext :=
  {| principal := "anonymous"; tenant := "default"; application := "default"; trusted := false |}.

Definition from_proxy (r : IdentityResolver) (remote : option Addr) : bool :=
  match remote with Some ip => existsb (fun n => contains n ip) (trusted_proxies r) | None => false end.

(** The bearer token of the request, and what it proves. *)
Definition bearer (headers : gmap string string) : option string := headers !! "authorization"%string ≫= strip_prefix "Bearer ".

Definition by_bearer (r : IdentityResolver) (headers : gmap string string) (fetched : fetch_result) :
    completion (IdentityResolver * option (result IdentityError IdentityContext)) :=
  match bearer headers with
  | None => Completes (r, None)
  | Some token =>
      match (if (dots token =? 2)%nat then verifier r else None) with
      | Some v =>
          match verify v token fetched with
          | Blocks => Blocks
          | Completes (v', out) => Completes (mkIdentityResolver (resolver_config r) (trusted_proxies r) (Some v'), Some out)
          end
      | None => Completes (r, Ok <$> api_key (btree_iter string_le (api_keys (policies (resolver_config r)))) token)
      end
  end.

(** [IdentityResolver::resolve]. *)
Definition resolve (r : IdentityResolver) (headers : gmap string string) (remote : option Addr) (fingerprints : list string)
    (fetched : fetch_result) : completion (IdentityResolver * result IdentityError IdentityContext) :=
  let config := resolver_config r in
  match by_certificate config fingerprints with
  | Some who => Completes (r, Ok who)
  | None =>
      match (if from_proxy r remote then by_proxy config headers else None) with
      | Some who => Completes (r, Ok who)
      | None =>
          match by_bearer r headers fetched with
          | Blocks => Blocks
          | Completes (r', Some out) => Completes (r', out)
          | Completes (r', None) =>
              Completes (r', if from_option oidc_required false (oidc (identity_config config)) then Err Required else Ok anonymous)
          end
      end
  end.
End oidc.

(** ** Proofs of identity *)

Section proofs.
Context {Key Net Addr : Type}.
Context (decode_header : string -> option TokenHeader)
        (decode : string -> Key -> string -> string -> option (gmap string string)).
Context (contains : Net -> Addr -> bool) (parse_net : string -> result string Net) (env : string -> option string).
Implicit Types (r : IdentityResolver (Key := Key) (Net := Net)) (v : OidcVerifier (Key := Key)).

(** A token that the verifier accepts: an asymmetric signature by a key the
    verifier holds, and the three claims of the identity, none empty. *)
Definition token_proves v (token : string) (who : IdentityContext) : Prop :=
  exists h k key claims,
    decode_header token = Some h /\ algorithm_accepted (alg h) = true /\ kid h = Some k /\ keys v !! k = Some key /\
    decode token key (audience (verifier_config v)) (issuer (verifier_config v)) = Some claims /\
    claims !! principal_claim (verifier_config v) = Some (principal who) /\
    claims !! tenant_claim (verifier_config v) = Some (tenant who) /\
    claims !! application_claim (verifier_config v) = Some (application who) /\
    principal who <> EmptyString /\ tenant who <> EmptyString /\ application who <> EmptyString.

Lemma claim_ok claims name x : claim claims name = Ok x -> claims !! name = Some x /\ x <> EmptyString.
Proof.
  unfold claim. destruct (claims !! name) as [y|]; [|done]. destruct (String.eqb_spec y EmptyString); [done|].
  by intros [= <-].
Qed.

(** A refresh that completes while the keys are read has changed nothing. *)
Lemma refresh_held v fetched v' out : refresh true v fetched = Completes (v', out) -> v' = v /\ exists e, out = Err e.
Proof. unfold refresh. repeat case_match; intros; simplify_eq; eauto. Qed.

Lemma collect_keys_ok set acc ks : collect_keys (Key := Key) set acc = Ok ks ->
  forall k key, ks !! k = Some key -> acc !! k = Some key \/ (Some k, Some key) ∈ set.
Proof.
  revert acc. induction set as [|[[k|] [key|]] set IH]; intros acc; cbn [collect_keys]; try done.
  - intros [= <-]. by left.
  - intros E j y Hj. destruct (IH _ E j y Hj) as [Ha | Hs]; [|right; by right].
    apply lookup_insert_Some in Ha as [[<- <-] | [_ Ha]]; [right; by left | by left].
  - intros E j y Hj. destruct (IH _ E j y Hj); [by left | right; by right].
  - intros E j y Hj. destruct (IH _ E j y Hj); [by left | right; by right].
Qed.

Lemma verify_ok v token fetched v' who : verify decode_header decode v token fetched = Completes (v', Ok who) ->
  v' = v /\ trusted who = true /\ token_proves v token who.
Proof.
  unfold verify. destruct (decode_header token) as [h|] eqn:EH; [|done].
  destruct (algorithm_accepted (alg h)) eqn:EA; [|done]. cbn [negb]. destruct (kid h) as [k|] eqn:EK; [|done].
  destruct (keys v !! k) as [key|] eqn:Ek.
  2: { destruct (refresh true v fetched) as [[v1 [u|e]]|] eqn:ER; [|done..]. apply refresh_held in ER as (_ & e & [=]). }
  destruct (decode _ _ _ _) as [claims|] eqn:ED; [|done]. intros [= <- E]. unfold result_bind in E.
  destruct (claim claims (principal_claim _)) as [p|] eqn:E1; [|done]. destruct (claim claims (tenant_claim _)) as [t|] eqn:E2; [|done].
  destruct (claim claims (application_claim _)) as [a|] eqn:E3; [|done]. injection E as <-.
  apply claim_ok in E1 as [], E2 as [], E3 as []. split_and!; [done | done |]. exists h, k, key, claims. by split_and!.
Qed.

Lemma api_key_ok l token who : api_key env l token = Some who ->
  exists e m, (e, m) ∈ l /\ env e = Some token /\ who = mapped m.
Proof.
  induction l as [|[e m] l IH]; cbn [api_key]; [done|]. destruct (env e) as [x|] eqn:E.
  - destruct (String.eqb_spec x token) as [-> |]; [intros [= <-]; exists e, m; split_and!; [by left | done | done]|].
    intros (e' & m' & ? & ?)%IH. exists e', m'. split; [by right | done].
  - intros (e' & m' & ? & ?)%IH. exists e', m'. split; [by right | done].
Qed.

Lemma by_certificate_ok config fps who : by_certificate config fps = Some who ->
  exists f m, f ∈ fps /\ mtls_certificate_sha256_mappings (identity_config config) !! f = Some m /\ who = mapped m.
Proof.
  induction fps as [|f fps IH]; cbn [by_certificate]; [done|]. destruct (_ !! f) as [m|] eqn:E.
  - intros [= <-]. exists f, m. split_and!; [by left | done | done].
  - intros (f' & m' & ? & ?)%IH. exists f', m'. split; [by right | done].
Qed.

(** The evidence behind a trusted identity. *)
Inductive evidence r (headers : gmap string string) (remote : option Addr) (fps : list string) r' (who : IdentityContext) : Prop :=
| ev_certificate f m : f ∈ fps -> mtls_certificate_sha256_mappings (identity_config (resolver_config r)) !! f = Some m ->
    who = mapped m -> evidence r headers remote fps r' who
| ev_proxy ip net : remote = Some ip -> net ∈ trusted_proxies r -> contains net ip = true ->
    by_proxy (resolver_config r) headers = Some who -> evidence r headers remote fps r' who
| ev_token token v : bearer headers = Some token -> verifier r' = Some v -> token_proves v token who ->
    evidence r headers remote fps r' who
| ev_api_key token e m : bearer headers = Some token -> api_keys (policies (resolver_config r)) !! e = Some m ->
    env e = Some token -> who = mapped m -> evidence r headers remote fps r' who.

Lemma from_proxy_true r remote : from_proxy contains r remote = true ->
  exists ip net, remote = Some ip /\ net ∈ trusted_proxies r /\ contains net ip = true.
Proof.
  unfold from_proxy. destruct remote as [ip|]; [|done]. intros (net & Hn & Hc)%existsb_exists.
  exists ip, net. split_and!; [done | by apply list_elem_of_In | done].
Qed.

Lemma resolve_cases r headers remote fps fetched r' who :
  resolve decode_header decode contains env r headers remote fps fetched = Completes (r', Ok who) ->
  (trusted who = true /\ evidence r headers remote fps r' who) \/
  (who = anonymous /\ from_option oidc_required false (oidc (identity_config (resolver_config r))) = false).
Proof.
  unfold resolve. destruct (by_certificate _ fps) as [w|] eqn:EC.
  { intros [= <- <-]. left. apply by_certificate_ok in EC as (f & m & H1 & H2 & ->). split; [done | by eapply ev_certificate]. }
  destruct (if from_proxy contains r remote then _ else _) as [w|] eqn:EP.
  { intros [= <- <-]. destruct (from_proxy contains r remote) eqn:EF; [|done]. apply from_proxy_true in EF as (ip & net & ? & ? & ?).
    left. split; [|by eapply ev_proxy]. unfold by_proxy in EP. repeat case_match; by simplify_eq/=. }
  unfold by_bearer. destruct (bearer headers) as [token|] eqn:EB.
  2: { destruct (from_option _ _ _); [done|]. intros [= <- <-]. by right. }
  destruct (if (dots token =? 2)%nat then verifier r else None) as [v|].
  { destruct (verify _ _ v token fetched) as [[v' [w|e]]|] eqn:EV; [|done..]. intros [= <- <-].
    apply verify_ok in EV as (-> & ? & ?). left. split; [done | by eapply ev_token]. }
  destruct (api_key _ _ token) as [w|] eqn:EK; cbn.
  - intros [= <- <-]. apply api_key_ok in EK as (e & m & He & Hm & ->). apply elem_of_btree_iter in He.
    left. split; [done | by eapply ev_api_key].
  - destruct (from_option _ _ _); [done|]. intros [= <- <-]. by right.
Qed.
End proofs.

(** ** Signing keys *)

Section rotation.
Context {Key : Type} (decode_header : string -> option TokenHeader)
        (decode : string -> Key -> string -> string -> option (gmap string string)).

(** Key rotation: for a token with an accepted algorithm whose key id the
    verifier does not know, when the server answers with usable keys, [verify]
    never returns: it waits for the write lock while it holds the read guard. *)
Theorem unknown_key_blocks (v : OidcVerifier) token h k set ks :
  decode_header token = Some h -> algorithm_accepted (alg h) = true -> kid h = Some k -> keys v !! k = None ->
  collect_keys set ∅ = Ok ks -> ks <> ∅ ->
  verify decode_header decode v token (Fetched (Key := Key) set) = Blocks.
Proof.
  intros E1 E2 E3 E4 E5 E6. unfold verify, refresh. rewrite E1, E2. cbn [negb]. rewrite E3, E4, E5.
  by rewrite bool_decide_eq_false_2.
Qed.
End rotation.

Lemma unknown_key_blocks_witness :
  verify (fun _ => Some (mkTokenHeader RS256 (Some "k2"%string))) (fun _ _ _ _ => None)
    (mkOidcVerifier (mkOidcConfig "https://id" "inferqos" None "sub" "tid" "app" true) {[ "k1"%string := 1%nat ]}) "a.b.c"
    (Fetched [(Some "k2"%string, Some 2%nat)]) = Blocks.
Proof.
  refine (unknown_key_blocks (fun _ => Some (mkTokenHeader RS256 (Some "k2"%string))) (fun _ _ _ _ => None) _ "a.b.c"
    (mkTokenHeader RS256 (Some "k2"%string)) "k2" [(Some "k2"%string, Some 2%nat)] {[ "k2"%string := 2%nat ]} _ _ _ _ _ _);
    [reflexivity | reflexivity | reflexivity | reflexivity | vm_compute; reflexivity | ].
  intros E. apply (f_equal (fun m : gmap string nat => m !! "k2"%string)) in E. vm_compute in E. discriminate.
Defined.

(** ** The properties *)

Definition ex_token_header (s : string) : option TokenHeader := Some (mkTokenHeader RS256 (Some "k1"%string)).
Definition ex_decode (token : string) (key : nat) (aud iss : string) : option (gmap string string) :=
  if (key =? 1)%nat then Some (list_to_map [("sub", "u"); ("tid", "acme"); ("app", "chat")]%string) else None.
Definition ex_oidc : OidcConfig := mkOidcConfig "https://id" "inferqos" None "sub" "tid" "app" true.
Definition ex_resolver : IdentityResolver (Key := nat) (Net := nat) :=
  mkIdentityResolver ex_config [10%nat] (Some (mkOidcVerifier ex_oidc {[ "k1"%string := 1%nat ]})).
Definition ex_headers : gmap string string := {[ "authorization"%string := "Bearer a.b.c"%string ]}.
Definition ex_resolve (headers : gmap string string) (remote : option nat) :=
  resolve ex_token_header ex_decode Nat.eqb (fun _ => None) ex_resolver headers remote [] (FetchFailed "offline").

(** C27: A trusted identity has a proof: whenever resolution returns a trusted
    identity, it is the mapping of one of the connection's verified
    certificates, or what a peer inside a trusted network forwarded, or the
    claims of a bearer token signed with an accepted algorithm by a key of the
    configured issuer, or the mapping of an API key equal to the bearer token;
    an identity without a proof is the anonymous one. *)
Theorem trusted_needs_evidence {Key Net Addr : Type} decode_header decode contains env
    (r : IdentityResolver (Key := Key) (Net := Net)) headers (remote : option Addr) fps fetched r' who :
  resolve decode_header decode contains env r headers remote fps fetched = Completes (r', Ok who) ->
  (trusted who = true /\ evidence decode_header decode contains env r headers remote fps r' who) \/ who = anonymous.
Proof. intros E. apply resolve_cases in E as [E | [-> _]]; auto. Qed.

Lemma trusted_needs_evidence_witness :
  (true = true /\ evidence ex_token_header ex_decode Nat.eqb (fun _ => None) ex_resolver ex_headers (Some 3%nat) [] ex_resolver
     (mkIdentity "u" "acme" "chat" true)) \/ mkIdentity "u" "acme" "chat" true = anonymous.
Proof.
  apply (trusted_needs_evidence ex_token_header ex_decode Nat.eqb (fun _ => None) ex_resolver ex_headers (Some 3%nat) []
           (FetchFailed "offline") ex_resolver (mkIdentity "u" "acme" "chat" true)).
  vm_compute. reflexivity.
Defined.

(** C28: Forwarded headers cannot forge an identity: for a peer outside the
    trusted networks, two requests over the same connection with the same
    authorization header resolve alike, whatever their other headers say. *)
Theorem headers_cannot_forge {Key Net Addr : Type} decode_header decode contains env
    (r : IdentityResolver (Key := Key) (Net := Net)) h1 h2 (remote : option Addr) fps fetched :
  (forall ip net, remote = Some ip -> net ∈ trusted_proxies r -> contains net ip = false) ->
  h1 !! "authorization"%string = h2 !! "authorization"%string ->
  resolve decode_header decode contains env r h1 remote fps fetched =
  resolve decode_header decode contains env r h2 remote fps fetched.
Proof.
  intros HN HE. unfold resolve.
  destruct (from_proxy contains r remote) eqn:EF; [|unfold by_bearer, bearer; by rewrite HE].
  apply from_proxy_true in EF as (ip & net & Hr & Hn & Hc). rewrite (HN _ _ Hr Hn) in Hc. done.
Qed.

Lemma headers_cannot_forge_witness :
  ex_resolve ex_headers (Some 3%nat) = ex_resolve (<["t"%string := "evil"%string]> ex_headers) (Some 3%nat).
Proof.
  apply (headers_cannot_forge ex_token_header ex_decode Nat.eqb (fun _ => None) ex_resolver ex_headers
           (<["t"%string := "evil"%string]> ex_headers) (Some 3%nat) [] (FetchFailed "offline")).
  - intros ip net [= <-] Hn. apply list_elem_of_singleton in Hn. subst net. reflexivity.
  - reflexivity.
Defined.

(** Required authentication fails closed: when the configuration requires
    OIDC, every identity that resolution returns is trusted; nothing falls
    back to the anonymous identity. *)
Theorem required_fails_closed {Key Net Addr : Type} decode_header decode contains env
    (r : IdentityResolver (Key := Key) (Net := Net)) headers (remote : option Addr) fps fetched r' who o :
  oidc (identity_config (resolver_config r)) = Some o -> oidc_required o = true ->
  resolve decode_header decode contains env r headers remote fps fetched = Completes (r', Ok who) -> trusted who = true.
Proof.
  intros Eo Er E. apply resolve_cases in E as [[E _] | [_ E]]; [done|]. rewrite Eo in E. cbn in E. congruence.
Qed.

Definition ex_required : Config := mkConfig (api_version ex_config) (kind ex_config) (mode ex_config) (server ex_config) (admin ex_config)
  (coordinator ex_config) (service_classes ex_config) (pools ex_config) (policies ex_config)
  (mkIdentityConfig (Some ex_oidc) [] (mkTrustedIdentityHeaders "p" "t" "a" "s") ∅ ∅) (limits ex_config).
Definition ex_strict : IdentityResolver (Key := nat) (Net := nat) :=
  mkIdentityResolver ex_required [] (verifier ex_resolver).

Lemma required_fails_closed_witness : trusted (mkIdentity "u" "acme" "chat" true) = true.
Proof.
  apply (required_fails_closed ex_token_header ex_decode Nat.eqb (fun _ => None) ex_strict ex_headers (Some 3%nat) []
           (FetchFailed "offline") ex_strict (mkIdentity "u" "acme" "chat" true) ex_oidc);
    [reflexivity | reflexivity | vm_compute; reflexivity].
Defined.
