(* ===== verification/DurableQueue.v ===== *)
(** * Durable queues (crates/durable-queue)

    The trait as the class [DurableQueue], with its three implementations: the
    in-memory queue, NATS JetStream and Azure Service Bus.  A method takes the
    queue's state and what the outside answers during the call, and returns the
    new state, the requests it sent, and its result.

    The brokers, the tokens, [Url] and [serde_json] are outside the
    repository: brokers and tokens are the answers in a call's environment, the
    other two are the classes [UrlLib] and [SerdeJson].

    [SettlingQueue] states what an adapter with a table of open deliveries
    promises; both network adapters are instances, and the theorem about the
    deliveries they settle is proved once, against it. *)

From stdpp Require Import base gmap strings countable list.
From Stdlib Require Import ZArith Lia Ascii.
From S2P Require Import Prelude Web Core.

Open Scope Z_scope.

Definition DEFAULT_MAX_JOB_BYTES : Z := 16 * 1024 * 1024.

Record DurableJob : Type := mkDurableJob { id : Uuid; metadata : Bytes; payload : Bytes }.
Record WireJob : Type := mkWireJob { wire_id : Uuid; wire_metadata : Bytes; wire_payload : Bytes }.

(** [impl From<&DurableJob> for WireJob] and [impl From<WireJob> for DurableJob]. *)
Definition to_wire (job : DurableJob) : WireJob := mkWireJob (id job) (metadata job) (payload job).
Definition of_wire (job : WireJob) : DurableJob := mkDurableJob (wire_id job) (wire_metadata job) (wire_payload job).

Inductive QueueError : Type :=
| Unavailable (error : string)
| Authentication (error : string)
| Protocol (error : string)
| TooLarge (actual limit : Z)
| UnknownDelivery (delivery : Uuid).

Definition unavailable {A} (r : result string A) : result QueueError A :=
  match r with Ok a => Ok a | Err e => Err (Unavailable e) end.
Definition protocol {A} (r : result string A) : result QueueError A :=
  match r with Ok a => Ok a | Err e => Err (Protocol e) end.

Definition job_bytes (job : DurableJob) : Z := sat_add (byte_len (metadata job)) (byte_len (payload job)).

(** [ensure_size]. *)
Definition ensure_size (job : DurableJob) (limit : Z) : result QueueError unit :=
  let actual := job_bytes job in
  if limit <? actual then Err (TooLarge actual limit) else Ok tt.

(** ** The trait *)

(** [Q]: the state; [E]: the outside during one call; [X]: requests to it. *)
Class DurableQueue (Q E X : Type) : Type := {
  publish : Q -> E -> DurableJob -> Q * list X * result QueueError unit;
  receive : Q -> E -> Q * list X * result QueueError (option DurableJob);
  acknowledge : Q -> E -> Uuid -> Q * list X * result QueueError unit
}.

(** ** The wire format *)

(** [serde_json::to_vec] and [from_slice] at [WireJob]. *)
Class SerdeJson : Type := {
  to_vec : WireJob -> result string Bytes;
  from_slice : Bytes -> result string WireJob
}.

(** A byte as an element of a JSON array: its decimal digits, and the comma or
    bracket after it. *)
Definition element_text (c : ascii) : Z :=
  if byte_val c <? 10 then 2 else if byte_val c <? 100 then 3 else 4.
Definition array_text (b : Bytes) : Z := zsum element_text b.

(** Serialisation of this type does not fail, is undone by deserialisation,
    and writes [Vec<u8>] as an array of decimal numbers. *)
Class SerdeJsonLaws `{SerdeJson} : Prop := {
  to_vec_from_slice : forall w, exists body, to_vec w = Ok body /\ from_slice body = Ok w;
  to_vec_size : forall w body, to_vec w = Ok body ->
    array_text (wire_metadata w) + array_text (wire_payload w) <= byte_len body
}.

(** ** The in-memory queue *)

Record InMemoryDurableQueue : Type := mkInMemoryDurableQueue {
  jobs : list DurableJob;
  in_flight : gmap Uuid DurableJob
}.

Definition memory_default : InMemoryDurableQueue := mkInMemoryDurableQueue [] ∅.

Definition memory_publish (q : InMemoryDurableQueue) (job : DurableJob) : InMemoryDurableQueue * result QueueError unit :=
  match ensure_size job DEFAULT_MAX_JOB_BYTES with
  | Err e => (q, Err e)
  | Ok _ => (mkInMemoryDurableQueue (jobs q ++ [job]) (in_flight q), Ok tt)
  end.

Definition memory_receive (q : InMemoryDurableQueue) : InMemoryDurableQueue * result QueueError (option DurableJob) :=
  match jobs q with
  | [] => (q, Ok None)
  | job :: rest => (mkInMemoryDurableQueue rest (<[id job := job]> (in_flight q)), Ok (Some job))
  end.

Definition memory_acknowledge (q : InMemoryDurableQueue) (i : Uuid) : InMemoryDurableQueue * result QueueError unit :=
  match in_flight q !! i with
  | None => (q, Err (UnknownDelivery i))
  | Some _ => (mkInMemoryDurableQueue (jobs q) (delete i (in_flight q)), Ok tt)
  end.

#[export] Instance MemoryQueue : DurableQueue InMemoryDurableQueue unit Empty_set := {
  publish q _ job := let '(q', r) := memory_publish q job in (q', [], r);
  receive q _ := let '(q', r) := memory_receive q in (q', [], r);
  acknowledge q _ i := let '(q', r) := memory_acknowledge q i in (q', [], r)
}.

(** ** NATS JetStream *)

Section nats.
Context `{SerdeJson} {Acker : Type} (uuid_to_string : Uuid -> string).

Record NatsJetStreamQueue : Type := mkNats {
  nats_subject : string;
  acknowledgements : gmap Uuid Acker;
  nats_max : Z
}.

Record StreamConfig : Type := mkStreamConfig {
  stream_name : string;
  stream_subjects : list string;
  work_queue : bool (** [RetentionPolicy::WorkQueue] *)
}.
Record ConsumerConfig : Type := mkConsumerConfig {
  durable_name : option string;
  filter_subject : string;
  ack_explicit : bool; (** [AckPolicy::Explicit] *)
  max_deliver : Z
}.

Inductive NatsRequest : Type :=
| NatsConnect (server : string)
| GetOrCreateStream (config : StreamConfig)
| GetOrCreateConsumer (name : string) (config : ConsumerConfig)
| SendPublish (subject message_id : string) (body : Bytes)
| Fetch (max_messages : Z) (expires : Duration)
| DoubleAck (acker : Acker).

Record Message : Type := mkMessage { message_payload : Bytes; message_acker : Acker }.

Record NatsEnv : Type := mkNatsEnv {
  published : result string (result string unit); (** sent, then acknowledged by the stream *)
  fetched : result string (option (result string Message)); (** the pull request, then the first message *)
  acked : result string unit
}.

(** [NatsJetStreamQueue::connect_with_options]. *)
Definition nats_connect (connected stream consumer : result string unit) (server stream_name' subject durable_consumer : string)
    (max_job_bytes : option Z) : list NatsRequest * result QueueError NatsJetStreamQueue :=
  let r1 := NatsConnect server in
  match connected with
  | Err e => ([r1], Err (Unavailable e))
  | Ok _ =>
      let r2 := GetOrCreateStream (mkStreamConfig stream_name' [subject] true) in
      match stream with
      | Err e => ([r1; r2], Err (Unavailable e))
      | Ok _ =>
          let r3 := GetOrCreateConsumer durable_consumer (mkConsumerConfig (Some durable_consumer) subject true 10) in
          match consumer with
          | Err e => ([r1; r2; r3], Err (Unavailable e))
          | Ok _ => ([r1; r2; r3], Ok (mkNats subject ∅ (default DEFAULT_MAX_JOB_BYTES max_job_bytes)))
          end
      end
  end.

Definition nats_publish (q : NatsJetStreamQueue) (e : NatsEnv) (job : DurableJob) :
    NatsJetStreamQueue * list NatsRequest * result QueueError unit :=
  match ensure_size job (nats_max q) with
  | Err e => (q, [], Err e)
  | Ok _ =>
      match protocol (to_vec (to_wire job)) with
      | Err e => (q, [], Err e)
      | Ok body =>
          (q, [SendPublish (nats_subject q) (uuid_to_string (id job)) body],
           match published e with Err e => Err (Unavailable e) | Ok ack => unavailable ack end)
      end
  end.

Definition nats_receive (q : NatsJetStreamQueue) (e : NatsEnv) :
    NatsJetStreamQueue * list NatsRequest * result QueueError (option DurableJob) :=
  let sent := [Fetch 1 (from_secs 1)] in
  match fetched e with
  | Err e => (q, sent, Err (Unavailable e))
  | Ok None => (q, sent, Ok None)
  | Ok (Some (Err e)) => (q, sent, Err (Unavailable e))
  | Ok (Some (Ok message)) =>
      if sat_mul (nats_max q) 2 <? byte_len (message_payload message)
      then (q, sent, Err (TooLarge (byte_len (message_payload message)) (nats_max q)))
      else match protocol (from_slice (message_payload message)) with
           | Err e => (q, sent, Err e)
           | Ok wire =>
               let job := of_wire wire in
               match ensure_size job (nats_max q) with
               | Err e => (q, sent, Err e)
               | Ok _ => (mkNats (nats_subject q) (<[id job := message_acker message]> (acknowledgements q)) (nats_max q),
                          sent, Ok (Some job))
               end
           end
  end.

Definition nats_acknowledge (q : NatsJetStreamQueue) (e : NatsEnv) (i : Uuid) :
    NatsJetStreamQueue * list NatsRequest * result QueueError unit :=
  match acknowledgements q !! i with
  | None => (q, [], Err (UnknownDelivery i))
  | Some acker =>
      (mkNats (nats_subject q) (delete i (acknowledgements q)) (nats_max q), [DoubleAck acker], unavailable (acked e))
  end.

#[export] Instance NatsQueue : DurableQueue NatsJetStreamQueue NatsEnv NatsRequest := {
  publish := nats_publish; receive := nats_receive; acknowledge := nats_acknowledge
}.
End nats.
Arguments NatsJetStreamQueue : clear implicits.
Arguments NatsRequest : clear implicits.
Arguments NatsEnv : clear implicits.
Arguments Message : clear implicits.

(** ** Azure Service Bus *)

(** [EnvironmentBearerToken::token]. *)
Definition environment_token (env : string -> option string) (variable : string) (scopes : list string) : result QueueError string :=
  match env variable with
  | Some token => Ok token
  | None => Err (Authentication ("token environment variable " +:+ (variable +:+ " is not set")))
  end.

Section azure.
Context `{SerdeJson} {UL : UrlLib} (uuid_to_string : Uuid -> string) (status_text : Z -> string).

Record AzureServiceBusQueue : Type := mkAzure {
  endpoint : url;
  queue_name : string;
  settlements : gmap Uuid url;
  azure_max : Z
}.

Inductive Method : Type := POST | DELETE.
Record HttpRequest : Type := mkHttpRequest {
  http_method : Method;
  http_url : url;
  http_headers : list (string * string);
  http_body : option Bytes
}.

(** What the adapter reads of a response. *)
Record HttpResponse : Type := mkHttpResponse {
  http_status : Z;
  content_length : option Z;
  location : option string; (** the header, when it is text *)
  http_bytes : result string Bytes
}.

Record AzureEnv : Type := mkAzureEnv {
  token : list string -> result QueueError string; (** [BearerTokenProvider::token] *)
  sent : result string HttpResponse
}.

(** [AzureServiceBusQueue::new]; [client] is whether the HTTP client could be built. *)
Definition azure_new (client : result string unit) (namespace_endpoint queue : string) (max_job_bytes : option Z) :
    result QueueError AzureServiceBusQueue :=
  match parse_url namespace_endpoint with
  | Err e => Err (Protocol ("invalid Service Bus endpoint: " +:+ e))
  | Ok endpoint =>
      if negb (String.eqb (url_scheme endpoint) "https") then Err (Protocol "Azure Service Bus endpoint must use HTTPS")
      else let? _ := unavailable client in
           Ok (mkAzure endpoint queue ∅ (default DEFAULT_MAX_JOB_BYTES max_job_bytes))
  end.

Definition messages_url (q : AzureServiceBusQueue) (suffix : string) : result QueueError url :=
  protocol (url_join (endpoint q) (queue_name q +:+ ("/messages" +:+ suffix))).

Definition bearer (e : AzureEnv) : result QueueError string :=
  match token e ["https://servicebus.azure.net/.default"%string] with
  | Ok token => Ok ("Bearer " +:+ token)
  | Err e => Err e
  end.

(** [Response::error_for_status]. *)
Definition error_for_status (r : HttpResponse) : result QueueError HttpResponse :=
  if status_is_error (http_status r) then Err (Unavailable (status_text (http_status r))) else Ok r.

Definition azure_publish (q : AzureServiceBusQueue) (e : AzureEnv) (job : DurableJob) :
    AzureServiceBusQueue * list HttpRequest * result QueueError unit :=
  match let? _ := ensure_size job (azure_max q) in
        let? body := protocol (to_vec (to_wire job)) in
        let? target := messages_url q EmptyString in
        let? authorization := bearer e in
        Ok (mkHttpRequest POST target
              [("authorization", authorization); ("content-type", "application/json");
               ("brokerproperties", "{" +:+ (quoted "MessageId" +:+ (":" +:+ (quoted (uuid_to_string (id job)) +:+ "}"))))]%string
              (Some body))
  with
  | Err e => (q, [], Err e)
  | Ok request =>
      (q, [request],
       let? response := unavailable (sent e) in
       let? _ := error_for_status response in Ok tt)
  end.

(** Lines 357 to 393 of [receive]: the job and its settlement URL in a response. *)
Definition azure_delivery (q : AzureServiceBusQueue) (response : HttpResponse) : result QueueError (option (DurableJob * url)) :=
  if (http_status response =? 204) || (http_status response =? 404) then Ok None
  else
    let? response := error_for_status response in
    let limit := sat_mul (azure_max q) 2 in
    if from_option (fun size => limit <? size) false (content_length response)
    then Err (TooLarge (default U64_MAX (content_length response)) (azure_max q))
    else match location response with
         | None => Err (Protocol "peek-lock response has no Location header")
         | Some settlement =>
             let? settlement := protocol (url_join (endpoint q) settlement) in
             if negb (bool_decide (url_host settlement = url_host (endpoint q)))
             then Err (Protocol "Service Bus settlement URL changed host")
             else
               let? bytes := unavailable (http_bytes response) in
               if limit <? byte_len bytes then Err (TooLarge (byte_len bytes) (azure_max q))
               else
                 let? wire := protocol (from_slice bytes) in
                 let job := of_wire wire in
                 let? _ := ensure_size job (azure_max q) in
                 Ok (Some (job, settlement))
         end.

Definition azure_receive (q : AzureServiceBusQueue) (e : AzureEnv) :
    AzureServiceBusQueue * list HttpRequest * result QueueError (option DurableJob) :=
  match let? target := messages_url q "/head?timeout=1" in
        let? authorization := bearer e in
        Ok (mkHttpRequest POST target [("authorization"%string, authorization)] None)
  with
  | Err e => (q, [], Err e)
  | Ok request =>
      match let? response := unavailable (sent e) in azure_delivery q response with
      | Err e => (q, [request], Err e)
      | Ok None => (q, [request], Ok None)
      | Ok (Some (job, settlement)) =>
          (mkAzure (endpoint q) (queue_name q) (<[id job := settlement]> (settlements q)) (azure_max q),
           [request], Ok (Some job))
      end
  end.

(** The settlement is removed first, whatever becomes of the request. *)
Definition azure_acknowledge (q : AzureServiceBusQueue) (e : AzureEnv) (i : Uuid) :
    AzureServiceBusQueue * list HttpRequest * result QueueError unit :=
  match settlements q !! i with
  | None => (q, [], Err (UnknownDelivery i))
  | Some settlement =>
      let q' := mkAzure (endpoint q) (queue_name q) (delete i (settlements q)) (azure_max q) in
      match bearer e with
      | Err e => (q', [], Err e)
      | Ok authorization =>
          (q', [mkHttpRequest DELETE settlement [("authorization"%string, authorization)] None],
           let? response := unavailable (sent e) in
           let? _ := error_for_status response in Ok tt)
      end
  end.

#[export] Instance AzureQueue : DurableQueue AzureServiceBusQueue AzureEnv HttpRequest := {
  publish := azure_publish; receive := azure_receive; acknowledge := azure_acknowledge
}.
End azure.
