(* ===== verification/DurableThms.v ===== *)
(** * What the durable queues promise

    The in-memory queue neither loses, duplicates nor reorders jobs.  The
    network adapters settle only deliveries they have handed out, each at most
    once ([SettlingQueue] is the interface, [settles_only_delivered] the
    theorem); what they publish is what they receive, unless its text form
    exceeds the limit of the receiving side. *)

From stdpp Require Import base gmap strings countable list.
From Stdlib Require Import ZArith Lia Ascii.
From S2P Require Import Prelude Web Core DurableQueue.

Open Scope Z_scope.

Inductive Op : Type :=
| Publish (job : DurableJob)
| Receive
| Acknowledge (i : Uuid).

(** ** The in-memory queue *)

(** What a sequence of calls has published, delivered and settled. *)
Record Ledger : Type := mkLedger { pub : list DurableJob; del : list DurableJob; ack : list Uuid }.

Definition memory_step (q : InMemoryDurableQueue) (l : Ledger) (op : Op) : InMemoryDurableQueue * Ledger :=
  match op with
  | Publish job => let '(q', r) := memory_publish q job in (q', if is_ok r then mkLedger (pub l ++ [job]) (del l) (ack l) else l)
  | Receive => let '(q', r) := memory_receive q in
               (q', match r with Ok (Some job) => mkLedger (pub l) (del l ++ [job]) (ack l) | _ => l end)
  | Acknowledge i => let '(q', r) := memory_acknowledge q i in (q', if is_ok r then mkLedger (pub l) (del l) (ack l ++ [i]) else l)
  end.

Definition memory_run (ops : list Op) : InMemoryDurableQueue * Ledger :=
  foldl (fun s op => memory_step s.1 s.2 op) (memory_default, mkLedger [] [] []) ops.

Definition open_ids (q : InMemoryDurableQueue) : list Uuid := (map_to_list (in_flight q)).*1.

Record memory_inv (q : InMemoryDurableQueue) (l : Ledger) : Prop := {
  inv_order : pub l = del l ++ jobs q;
  inv_size : Forall (fun job => job_bytes job <= DEFAULT_MAX_JOB_BYTES) (pub l);
  inv_open : ack l ++ open_ids q ⊆+ id <$> del l;
  inv_all : NoDup (id <$> pub l) -> ack l ++ open_ids q ≡ₚ id <$> del l;
  inv_key : map_Forall (fun i job => id job = i /\ job ∈ del l) (in_flight q)
}.

Lemma ensure_size_ok job limit u : ensure_size job limit = Ok u -> job_bytes job <= limit.
Proof. unfold ensure_size. destruct (Z.ltb_spec limit (job_bytes job)); [done | lia]. Qed.

Lemma open_insert_sub {V} (m : gmap Uuid V) i v : (map_to_list (<[i := v]> m)).*1 ⊆+ i :: (map_to_list m).*1.
Proof.
  rewrite <- insert_delete_eq, map_to_list_insert by apply lookup_delete_eq. cbn. apply submseteq_skip.
  destruct (m !! i) as [w|] eqn:E.
  - etrans; [|apply Permutation_submseteq, fmap_Permutation, (map_to_list_delete _ _ _ E)]. cbn. by apply submseteq_cons.
  - by rewrite delete_id.
Qed.

Lemma open_delete {V} (m : gmap Uuid V) i v : m !! i = Some v -> (map_to_list m).*1 ≡ₚ i :: (map_to_list (delete i m)).*1.
Proof. intros E. by rewrite <- (map_to_list_delete _ _ _ E). Qed.

Lemma memory_step_inv q l op q' l' : memory_step q l op = (q', l') -> memory_inv q l -> memory_inv q' l'.
Proof.
  intros E [Ho Hs Hsub Hall Hk]. destruct op as [job | | i]; cbn in E.
  - unfold memory_publish in E. destruct (ensure_size _ _) eqn:Es; cbn in E; simplify_eq; [|done].
    apply ensure_size_ok in Es. split; cbn; [by rewrite Ho, app_assoc | apply Forall_app; split; [done | by constructor] | exact Hsub | | done].
    intros N. apply Hall. rewrite fmap_app in N. by apply NoDup_app in N as [? _].
  - unfold memory_receive in E. destruct (jobs q) as [|job rest] eqn:Ej; cbn in E; simplify_eq; [split; [by rewrite Ej | done..]|].
    assert (F : id <$> del l ++ [job] ≡ₚ id job :: (id <$> del l)) by (rewrite fmap_app; cbn; by rewrite Permutation_app_comm).
    split; cbn; [by rewrite Ho, <- app_assoc | done | | |].
    + rewrite F. etrans; [apply submseteq_app; [done | apply open_insert_sub]|].
      rewrite <- Permutation_middle. by apply submseteq_skip.
    + intros N. rewrite F, <- (Hall N). unfold open_ids. cbn. rewrite map_to_list_insert; [cbn; by rewrite <- Permutation_middle|].
      apply eq_None_not_Some. intros [j Hj]. apply Hk in Hj as [Hi Hd]. rewrite Ho, fmap_app in N.
      apply NoDup_app in N as (_ & N & _). apply (N (id job)); [|cbn; left]. rewrite <- Hi. by apply list_elem_of_fmap_2.
    + apply map_Forall_insert_2; [set_solver|]. eapply map_Forall_impl; [exact Hk|]. cbn. set_solver.
  - unfold memory_acknowledge in E. destruct (in_flight q !! i) as [j|] eqn:Ei; cbn in E; simplify_eq; [|by split].
    assert (P : (ack l ++ [i]) ++ (map_to_list (delete i (in_flight q))).*1 ≡ₚ ack l ++ open_ids q).
    { rewrite <- app_assoc. cbn. apply Permutation_app_head. symmetry. by eapply open_delete. }
    split; cbn; [done | done | by unfold open_ids; cbn; rewrite P | by intros N; unfold open_ids; cbn; rewrite P; apply Hall|].
    by apply map_Forall_delete.
Qed.

Lemma memory_run_inv ops : memory_inv (memory_run ops).1 (memory_run ops).2.
Proof.
  unfold memory_run. set (s := (memory_default, mkLedger [] [] [])).
  assert (I : memory_inv s.1 s.2) by (split; [done | by apply Forall_nil | done | done | apply map_Forall_empty]).
  clearbody s. revert s I. induction ops as [|op ops IH]; intros s I; [done|].
  cbn [foldl]. apply IH. destruct (memory_step s.1 s.2 op) as [q' l'] eqn:E. by eapply memory_step_inv.
Qed.

(** C29: The in-memory durable queue conserves jobs.  After any sequence of
    calls the accepted jobs are exactly the delivered ones followed by the
    waiting ones, in order of publication; each is within the size limit; the
    settled and the open deliveries are among the delivered ones; and when job
    ids are distinct, every accepted job is settled, open or waiting, exactly
    once. *)
Theorem memory_conserves_jobs ops :
  let '(q, l) := memory_run ops in
  pub l = del l ++ jobs q /\
  Forall (fun job => job_bytes job <= DEFAULT_MAX_JOB_BYTES) (pub l) /\
  ack l ++ open_ids q ⊆+ id <$> del l /\
  (NoDup (id <$> pub l) -> id <$> pub l ≡ₚ ack l ++ open_ids q ++ (id <$> jobs q)).
Proof.
  destruct (memory_run ops) as [q l] eqn:E. pose proof (memory_run_inv ops) as [Ho Hs Hsub Hall _]. rewrite E in *. cbn in *.
  repeat split; [done..|]. intros N. rewrite Ho, fmap_app, app_assoc. by rewrite (Hall N).
Qed.

(** ** Settling queues *)

(** An adapter that keeps a table of open deliveries, a handle [H] of the
    broker for each.  [offered q e job h]: during a call with the outside [e]
    the broker offers [job] under [h]. *)
Class SettlingQueue (Q E X H : Type) `{DurableQueue Q E X} : Type := {
  outstanding : Q -> gmap Uuid H;
  size_limit : Q -> Z;
  settles : X -> option H;
  offered : Q -> E -> DurableJob -> H -> Prop
}.

(** The deliveries a call's requests settle. *)
Definition settled `{SettlingQueue Q E X H} (requests : list X) : list H := omap settles requests.

Class SettlingLaws (Q E X H : Type) `{SettlingQueue Q E X H} : Prop := {
  publish_law q e job q' requests r : publish q e job = (q', requests, r) ->
    outstanding q' = outstanding q /\ size_limit q' = size_limit q /\ settled requests = [] /\
    (is_ok r = true -> job_bytes job <= size_limit q);
  receive_law q e q' requests r : receive q e = (q', requests, r) ->
    size_limit q' = size_limit q /\ settled requests = [] /\
    match r with
    | Ok (Some job) => exists h, offered q e job h /\ outstanding q' = <[id job := h]> (outstanding q) /\ job_bytes job <= size_limit q
    | _ => outstanding q' = outstanding q
    end;
  acknowledge_law q e i q' requests r : acknowledge q e i = (q', requests, r) ->
    size_limit q' = size_limit q /\
    match outstanding q !! i with
    | None => q' = q /\ requests = [] /\ r = Err (UnknownDelivery i)
    | Some h => outstanding q' = delete i (outstanding q) /\ (settled requests = [h] \/ settled requests = [] /\ is_ok r = false)
    end
}.

Section settling.
Context {Q E X H : Type} `{SettlingLaws Q E X H}.

Record Delivery : Type := mkDelivery { d_job : DurableJob; d_handle : H }.
Definition d_key (d : Delivery) : Uuid * H := (id (d_job d), d_handle d).

(** A run: calls with the outside during each, the deliveries handed to the
    caller and the settlements sent to the broker. *)
Inductive run : Q -> list (Op * E) -> Q -> list Delivery -> list (Uuid * H) -> Prop :=
| run_nil q : run q [] q [] []
| run_publish q e job q1 requests r calls q2 ds ss :
    publish q e job = (q1, requests, r) -> run q1 calls q2 ds ss ->
    run q ((Publish job, e) :: calls) q2 ds ss
| run_receive q e q1 requests r calls q2 ds ss :
    receive q e = (q1, requests, r) -> run q1 calls q2 ds ss ->
    run q ((Receive, e) :: calls) q2
      (match r with
       | Ok (Some job) => match outstanding q1 !! id job with Some h => [mkDelivery job h] | None => [] end
       | _ => []
       end ++ ds) ss
| run_acknowledge q e i q1 requests r calls q2 ds ss :
    acknowledge q e i = (q1, requests, r) -> run q1 calls q2 ds ss ->
    run q ((Acknowledge i, e) :: calls) q2 ds (((i,.) <$> settled requests) ++ ss).

Lemma run_settles q calls q' ds ss : run q calls q' ds ss ->
  ss ++ map_to_list (outstanding q') ⊆+ map_to_list (outstanding q) ++ (d_key <$> ds) /\
  size_limit q' = size_limit q /\
  Forall (fun d => job_bytes (d_job d) <= size_limit q /\
                   exists q0 e, (Receive, e) ∈ calls /\ offered q0 e (d_job d) (d_handle d)) ds.
Proof.
  induction 1 as [q | q e job q1 requests r calls q2 ds ss Hp R (S & L & F) | q e q1 requests r calls q2 ds ss Hr R (S & L & F)
    | q e i q1 requests r calls q2 ds ss Ha R (S & L & F)].
  - repeat split; [by rewrite app_nil_r | constructor].
  - apply publish_law in Hp as (Ho & Hl & _). rewrite Ho in S. rewrite Hl in L, F. repeat split; [done..|].
    eapply Forall_impl; [exact F|]. intros d (B & q0 & e0 & Hin & O). split; [done|]. exists q0, e0. split; [by right | done].
  - apply receive_law in Hr as (Hl & _ & Hr). rewrite Hl in L, F.
    assert (F' : Forall (fun d => job_bytes (d_job d) <= size_limit q /\
      exists q0 e0, (Receive, e0) ∈ (Receive, e) :: calls /\ offered q0 e0 (d_job d) (d_handle d)) ds).
    { eapply Forall_impl; [exact F|]. intros d (B & q0 & e0 & Hin & O). split; [done|]. exists q0, e0. split; [by right | done]. }
    destruct r as [[job|]|]; [|rewrite Hr in S; by repeat split..].
    destruct Hr as (h & O & Ho & B). rewrite Ho, lookup_insert_eq in *. repeat split; [|done|].
    + etrans; [exact S|]. cbn. rewrite <- Permutation_middle, app_comm_cons.
      apply submseteq_app; [|done]. rewrite <- insert_delete_eq, map_to_list_insert by apply lookup_delete_eq.
      apply submseteq_skip, map_to_list_submseteq, delete_subseteq.
    + constructor; [|done]. split; [done|]. exists q, e. split; [left | done].
  - apply acknowledge_law in Ha as (Hl & Ha). rewrite Hl in L, F. repeat split; [|done|].
    + destruct (outstanding q !! i) as [h|] eqn:Eo; [|by destruct Ha as (-> & -> & _)].
      destruct Ha as (Ho & Hs). rewrite <- (map_to_list_delete _ _ _ Eo), <- Ho. cbn.
      destruct Hs as [-> | [-> _]]; cbn; [by apply submseteq_skip | by apply submseteq_cons].
    + eapply Forall_impl; [exact F|]. intros d (B & q0 & e0 & Hin & O). split; [done|]. exists q0, e0. split; [by right | done].
Qed.

(** C30: At-least-once delivery is never cut short.  Whatever the broker, the
    network and the callers do, every settlement an adapter sends is for a
    delivery it handed to a caller under that job id, and each delivery is
    settled at most once; handed-out jobs were offered by the broker and are
    within the size limit. *)
Theorem settles_only_delivered q calls q' ds ss :
  outstanding q = ∅ -> run q calls q' ds ss ->
  ss ++ map_to_list (outstanding q') ⊆+ d_key <$> ds /\
  Forall (fun d => job_bytes (d_job d) <= size_limit q /\
                   exists q0 e, (Receive, e) ∈ calls /\ offered q0 e (d_job d) (d_handle d)) ds.
Proof. intros Ho R. destruct (run_settles _ _ _ _ _ R) as (S & _ & F). rewrite Ho, map_to_list_empty in S. done. Qed.
End settling.

(** ** The two network adapters *)

Section nats_laws.
Context `{SerdeJson} {Acker : Type} (uuid_to_string : Uuid -> string).

#[export] Instance NatsSettling : @SettlingQueue (NatsJetStreamQueue Acker) (NatsEnv Acker) (NatsRequest Acker) Acker
    (NatsQueue uuid_to_string) := {
  outstanding := acknowledgements;
  size_limit := nats_max;
  settles x := match x with DoubleAck a => Some a | _ => None end;
  offered _ e job h := exists m, fetched e = Ok (Some (Ok m)) /\ message_acker m = h /\ from_slice (message_payload m) = Ok (to_wire job)
}.

#[export] Instance NatsLaws : @SettlingLaws _ _ _ _ _ NatsSettling.
Proof.
  split; cbn.
  - unfold nats_publish. intros q e job q' requests r E. destruct (ensure_size _ _) eqn:Es; simplify_eq; [|done].
    apply ensure_size_ok in Es. by destruct (protocol _); simplify_eq.
  - unfold nats_receive. intros q e q' requests r E.
    destruct (fetched e) as [[[m|]|]|] eqn:Ef; simplify_eq; try done.
    destruct (_ <? _); simplify_eq; [done|]. destruct (from_slice _) as [wire|] eqn:Ew; cbn in E; simplify_eq; [|done].
    destruct (ensure_size _ _) eqn:Es; simplify_eq; [|done]. apply ensure_size_ok in Es.
    repeat split. eexists. split; [|done]. exists m. split_and!; [done | done |]. rewrite Ew. by destruct wire.
  - unfold nats_acknowledge. intros q e i q' requests r E.
    destruct (acknowledgements q !! i) as [a|]; simplify_eq; [|done]. cbn. split; [done|]. split; [done|]. by left.
Qed.
End nats_laws.

Section azure_laws.
Context `{SerdeJson} {UL : UrlLib} (uuid_to_string : Uuid -> string) (status_text : Z -> string).

(** A delivery's handle is a settlement URL on the host of the endpoint. *)
#[export] Instance AzureSettling : @SettlingQueue AzureServiceBusQueue AzureEnv HttpRequest url
    (AzureQueue uuid_to_string status_text) := {
  outstanding := settlements;
  size_limit := azure_max;
  settles x := match http_method x with DELETE => Some (http_url x) | POST => None end;
  offered q e job h := exists r body l, sent e = Ok r /\ http_bytes r = Ok body /\ from_slice body = Ok (to_wire job) /\
    location r = Some l /\ url_join (endpoint q) l = Ok h /\ url_host h = url_host (endpoint q)
}.

Lemma azure_delivery_ok q r job h : azure_delivery status_text q r = Ok (Some (job, h)) ->
  job_bytes job <= azure_max q /\
  exists body l, http_bytes r = Ok body /\ from_slice body = Ok (to_wire job) /\
    location r = Some l /\ url_join (endpoint q) l = Ok h /\ url_host h = url_host (endpoint q).
Proof.
  unfold azure_delivery, error_for_status. destruct (_ || _); [done|]. destruct (status_is_error _); [done|]. cbn.
  destruct (from_option _ _ _); [done|]. destruct (location r) as [l|] eqn:El; [|done].
  destruct (url_join _ l) as [u|] eqn:Eu; [|done]. cbn. destruct (bool_decide_reflect (url_host u = url_host (endpoint q))) as [Hh|]; [|done].
  cbn. destruct (http_bytes r) as [b|] eqn:Eb; [|done]. cbn. destruct (_ <? _); [done|].
  destruct (from_slice b) as [w|] eqn:Ew; [|done]. cbn. destruct (ensure_size _ _) eqn:Es; [|done]. cbn. intros [= <- <-].
  apply ensure_size_ok in Es. split; [done|]. exists b, l. split_and!; [done | rewrite Ew; by destruct w | done..].
Qed.

#[export] Instance AzureLaws : @SettlingLaws _ _ _ _ _ AzureSettling.
Proof.
  split; cbn.
  - unfold azure_publish. intros q e job q' requests r E. destruct (ensure_size _ _) eqn:Es; cbn in E; simplify_eq; [|done].
    apply ensure_size_ok in Es. destruct (protocol _); cbn in E; simplify_eq; [|done].
    destruct (messages_url _ _); cbn in E; simplify_eq; [|done]. by destruct (bearer _); cbn in E; simplify_eq.
  - unfold azure_receive. intros q e q' requests r E.
    destruct (messages_url _ _); cbn in E; simplify_eq; [|done]. destruct (bearer _); cbn in E; simplify_eq; [|done].
    destruct (sent e) as [res|] eqn:Er; cbn in E; simplify_eq; [|done].
    destruct (azure_delivery _ _ _) as [[[job h]|]|] eqn:Ed; simplify_eq; [|done..].
    apply azure_delivery_ok in Ed as (B & body & l & D). repeat split. exists h. split; [|done]. by exists res, body, l.
  - unfold azure_acknowledge. intros q e i q' requests r E.
    destruct (settlements q !! i) as [h|]; simplify_eq; [|done].
    destruct (bearer e); simplify_eq; cbn; split; try done; split; try done; [by left | by right].
Qed.
End azure_laws.

(** ** Round trips *)

Section round_trip.
Context `{SJ : SerdeJson} {SL : SerdeJsonLaws} {Acker : Type} {UL : UrlLib}.
Context (uuid_to_string : Uuid -> string) (status_text : Z -> string).

Lemma ensure_size_fits job limit : job_bytes job <= limit -> ensure_size job limit = Ok tt.
Proof. unfold ensure_size. destruct (Z.ltb_spec limit (job_bytes job)); [lia | done]. Qed.

Lemma of_to_wire job : of_wire (to_wire job) = job.
Proof. by destruct job. Qed.

(** What a receiver with limit [max] makes of a body. *)
Definition received (max : Z) (job : DurableJob) (body : Bytes) : result QueueError (option DurableJob) :=
  if sat_mul max 2 <? byte_len body then Err (TooLarge (byte_len body) max) else Ok (Some job).

Lemma nats_receives q e m job : fetched e = Ok (Some (Ok m)) -> from_slice (message_payload m) = Ok (to_wire job) ->
  job_bytes job <= nats_max q -> (nats_receive (Acker := Acker) q e).2 = received (nats_max q) job (message_payload m).
Proof.
  intros Ef Es B. unfold nats_receive, received. rewrite Ef, Es. destruct (_ <? _); [done|]. cbn [protocol].
  by rewrite of_to_wire, (ensure_size_fits _ _ B).
Qed.

(** A peek-lock response that carries [body]. *)
Definition carries (q : AzureServiceBusQueue) (r : HttpResponse) (body : Bytes) : Prop :=
  http_status r = 201 /\ (content_length r = None \/ content_length r = Some (byte_len body)) /\ http_bytes r = Ok body /\
  exists l u, location r = Some l /\ url_join (endpoint q) l = Ok u /\ url_host u = url_host (endpoint q).

Lemma azure_receives q e r body job target authorization :
  messages_url q "/head?timeout=1" = Ok target -> bearer e = Ok authorization ->
  sent e = Ok r -> carries q r body -> from_slice body = Ok (to_wire job) -> job_bytes job <= azure_max q ->
  (azure_receive status_text q e).2 = received (azure_max q) job body.
Proof.
  intros Et Ea Er (St & Len & Eb & l & u & El & Eu & Hh) Es B. unfold azure_receive. rewrite Et, Ea. cbn. rewrite Er. cbn.
  unfold azure_delivery, error_for_status, received. rewrite St. cbn. rewrite El, Eu. cbn. rewrite bool_decide_true by done. cbn.
  rewrite Eb. cbn. rewrite Es. cbn. rewrite of_to_wire, (ensure_size_fits _ _ B).
  destruct Len as [-> | ->]; cbn; by destruct (_ <? _).
Qed.

(** C31: What is published is what is received.  A job within the limit is sent
    under its id by either adapter, as a body that any adapter with the same
    limit turns back into the same job, exactly when the body is at most twice
    the limit long; a longer one is refused. *)
Theorem published_job_received job body :
  to_vec (to_wire job) = Ok body ->
  (forall (q q' : NatsJetStreamQueue Acker) e e' m, job_bytes job <= nats_max q -> nats_max q' = nats_max q ->
     (nats_publish uuid_to_string q e job).1.2 = [SendPublish (nats_subject q) (uuid_to_string (id job)) body] /\
     (fetched e' = Ok (Some (Ok m)) -> message_payload m = body -> (nats_receive q' e').2 = received (nats_max q) job body)) /\
  (forall q q' e e' r t1 t2 a1 a2, job_bytes job <= azure_max q -> azure_max q' = azure_max q ->
     messages_url q EmptyString = Ok t1 -> bearer e = Ok a1 -> messages_url q' "/head?timeout=1" = Ok t2 -> bearer e' = Ok a2 ->
     (http_body <$> (azure_publish uuid_to_string status_text q e job).1.2) = [Some body] /\
     (sent e' = Ok r -> carries q' r body -> (azure_receive status_text q' e').2 = received (azure_max q) job body)).
Proof.
  intros Ev. destruct (to_vec_from_slice (to_wire job)) as (b & Eb & Es). assert (b = body) as -> by congruence. split.
  - intros q q' e e' m B Em. split.
    + unfold nats_publish. by rewrite (ensure_size_fits _ _ B), Ev.
    + intros Ef <-. rewrite <- Em in B |- *. by apply nats_receives.
  - intros q q' e e' r t1 t2 a1 a2 B Em Et Ea Et' Ea'. split.
    + unfold azure_publish. rewrite (ensure_size_fits _ _ B), Ev. cbn. rewrite Et, Ea. done.
    + intros Er Hc. rewrite <- Em in B |- *. by eapply azure_receives.
Qed.

(** ** The text form of a full job *)

Definition full_job (i : Uuid) (max : Z) : DurableJob := mkDurableJob i [] (replicate (Z.to_nat max) (ascii_of_N 255)).

Lemma full_job_bytes i max : 0 <= max <= U64_MAX -> job_bytes (full_job i max) = max.
Proof. intros M. unfold job_bytes, full_job, byte_len, sat_add. cbn [metadata payload length]. rewrite length_replicate. int64. Qed.

Lemma array_text_replicate n : array_text (replicate n (ascii_of_N 255)) = 4 * Z.of_nat n.
Proof. unfold array_text. induction n as [|n IH]; [done|]. cbn [replicate zsum]. rewrite IH. change (element_text _) with 4. lia. Qed.

Lemma full_job_too_large i max body : 1 <= max -> to_vec (to_wire (full_job i max)) = Ok body -> sat_mul max 2 < byte_len body.
Proof.
  intros M E. apply to_vec_size in E. cbn in E. rewrite array_text_replicate in E. unfold sat_mul. cbn in E. lia.
Qed.

(** Jobs the size check accepts may be undeliverable.  Bytes travel as
    decimal numbers, up to four characters each, while the receiving side
    allows two: for every limit there is a job of exactly that size which both
    adapters publish and which neither ever delivers. *)
Theorem full_job_undeliverable i max : 1 <= max <= USIZE_MAX ->
  (forall (q : NatsJetStreamQueue Acker) e, nats_max q = max -> published e = Ok (Ok tt) ->
     exists body, nats_publish uuid_to_string q e (full_job i max) = (q, [SendPublish (nats_subject q) (uuid_to_string i) body], Ok tt) /\
     forall (q' : NatsJetStreamQueue Acker) e' m, nats_max q' = max -> fetched e' = Ok (Some (Ok m)) -> message_payload m = body ->
       nats_receive q' e' = (q', [Fetch 1 (from_secs 1)], Err (TooLarge (byte_len body) max))) /\
  (forall q e t a r, azure_max q = max -> messages_url q EmptyString = Ok t -> bearer e = Ok a -> sent e = Ok r -> http_status r = 201 ->
     exists body, http_body <$> (azure_publish uuid_to_string status_text q e (full_job i max)).1.2 = [Some body] /\
     (azure_publish uuid_to_string status_text q e (full_job i max)).2 = Ok tt /\
     forall q' e' r', azure_max q' = max -> sent e' = Ok r' -> carries q' r' body ->
       is_ok (azure_receive status_text q' e').2 = false /\ settlements (azure_receive status_text q' e').1.1 = settlements q').
Proof.
  intros M. destruct (to_vec_from_slice (to_wire (full_job i max))) as (body & Ev & Es).
  assert (B : job_bytes (full_job i max) <= max) by (rewrite full_job_bytes; int64).
  assert (T : (sat_mul max 2 <? byte_len body) = true) by (apply Z.ltb_lt; eapply full_job_too_large; [lia | exact Ev]). split.
  - intros q e Eq Ep. exists body. subst max. split.
    + unfold nats_publish. rewrite (ensure_size_fits _ _ B), Ev. cbn. by rewrite Ep.
    + intros q' e' m Eq' Ef Em. unfold nats_receive. by rewrite Ef, Em, Eq', T.
  - intros q e t a r Eq Et Ea Er St. exists body. unfold azure_publish. rewrite Eq, (ensure_size_fits _ _ B), Ev. cbn. rewrite Et, Ea, Er.
    unfold error_for_status. cbn. rewrite St. split; [done|]. split; [done|].
    intros q' e' r' Eq' Er' (St' & Len & Eb & l & u & El & Eu & Hh). unfold azure_receive.
    destruct (messages_url q' _); cbn [result_bind]; [|done]. destruct (bearer e'); cbn [result_bind]; [|done]. rewrite Er'.
    cbn [result_bind unavailable]. unfold azure_delivery, error_for_status. rewrite St', Eq'. cbn. rewrite El, Eu. cbn.
    rewrite bool_decide_true by done. cbn. rewrite Eb. cbn. rewrite T. destruct Len as [-> | ->]; cbn; rewrite ?T; done.
Qed.
End round_trip.

(** ** A codec for evaluation *)

(** Four characters per byte, and the id in binary. *)
Fixpoint cells (b : Bytes) : Bytes :=
  match b with [] => ["."%char] | c :: rest => ","%char :: c :: "0"%char :: "0"%char :: cells rest end.
Fixpoint of_cells (b : Bytes) : option (Bytes * Bytes) :=
  match b with
  | "."%char :: rest => Some ([], rest)
  | ","%char :: c :: _ :: _ :: rest => match of_cells rest with Some (l, r) => Some (c :: l, r) | None => None end
  | _ => None
  end.
Fixpoint bits (p : positive) : Bytes :=
  match p with xH => ["."%char] | xO p => "0"%char :: bits p | xI p => "1"%char :: bits p end.
Fixpoint of_bits (b : Bytes) : option (positive * Bytes) :=
  match b with
  | "."%char :: rest => Some (xH, rest)
  | "0"%char :: rest => match of_bits rest with Some (p, r) => Some (xO p, r) | None => None end
  | "1"%char :: rest => match of_bits rest with Some (p, r) => Some (xI p, r) | None => None end
  | _ => None
  end.

Definition plain_json : SerdeJson := {|
  to_vec w := Ok (bits (N.succ_pos (wire_id w)) ++ cells (wire_metadata w) ++ cells (wire_payload w));
  from_slice b :=
    match of_bits b with
    | Some (p, b) =>
        match of_cells b with
        | Some (m, b) => match of_cells b with Some (l, []) => Ok (mkWireJob (Pos.pred_N p) m l) | _ => Err "payload"%string end
        | None => Err "metadata"%string
        end
    | None => Err "id"%string
    end
|}.

Lemma of_cells_cells b rest : of_cells (cells b ++ rest) = Some (b, rest).
Proof. induction b as [|c b IH]; cbn; [done | by rewrite IH]. Qed.

Lemma of_bits_bits p rest : of_bits (bits p ++ rest) = Some (p, rest).
Proof. induction p as [p IH|p IH|]; cbn; [by rewrite IH.. | done]. Qed.

Lemma array_text_cells b : array_text b <= byte_len (cells b).
Proof.
  unfold array_text, byte_len. induction b as [|c b IH]; cbn [zsum cells length]; [lia|].
  assert (element_text c <= 4) by (unfold element_text; repeat case_match; lia). lia.
Qed.

Lemma plain_json_laws : @SerdeJsonLaws plain_json.
Proof.
  split.
  - intros [i m l]. eexists. split; [done|]. cbn. rewrite of_bits_bits, of_cells_cells.
    rewrite <- (app_nil_r (cells l)), of_cells_cells. by rewrite N.pos_pred_succ.
  - intros [i m l] body [= <-]. cbn [wire_id wire_metadata wire_payload]. rewrite !byte_len_app. pose proof (array_text_cells m). pose proof (array_text_cells l).
    pose proof (byte_len_nonneg (bits (N.succ_pos i))). lia.
Qed.

Definition sample_job : DurableJob := mkDurableJob 7%N [] ["x"%char].
Definition sample_body : Bytes := bits 8 ++ cells [] ++ cells ["x"%char].
Definition sample_nats (max : Z) : NatsJetStreamQueue N := mkNats "jobs" ∅ max.
Definition sample_env (body : Bytes) : NatsEnv N := mkNatsEnv (Ok (Ok tt)) (Ok (Some (Ok (mkMessage body 3%N)))) (Ok tt).

Lemma settles_only_delivered_witness :
  [(7%N, 3%N)] ++ map_to_list (∅ : gmap Uuid N) ⊆+ d_key <$> [mkDelivery sample_job 3%N].
Proof.
  pose (S := @NatsSettling plain_json N (fun _ => "id"%string)).
  apply (@settles_only_delivered _ _ _ _ _ S (@NatsLaws plain_json N (fun _ => "id"%string)) (sample_nats 100)
    [(Receive, sample_env sample_body); (Acknowledge 7%N, sample_env sample_body)] (sample_nats 100)); [reflexivity|].
  pose (q1 := mkNats "jobs" (<[7%N := 3%N]> ∅) 100).
  refine (@run_receive _ _ _ _ _ S (sample_nats 100) (sample_env sample_body) q1 [Fetch 1 (from_secs 1)] (Ok (Some sample_job))
    _ _ [] _ _ _); [vm_compute; reflexivity|].
  refine (@run_acknowledge _ _ _ _ _ S q1 (sample_env sample_body) 7%N (sample_nats 100) [DoubleAck 3%N] (Ok tt) _ _ [] [] _ _);
    [vm_compute; reflexivity|].
  apply (@run_nil _ _ _ _ _ S).
Defined.

Lemma published_job_received_witness :
  (nats_receive (H := plain_json) (sample_nats 100) (sample_env sample_body)).2 = Ok (Some sample_job).
Proof.
  refine (proj2 (proj1 (@published_job_received plain_json plain_json_laws N plain_urls (fun _ => "id"%string) (fun _ => "error"%string)
    sample_job sample_body eq_refl) (sample_nats 100) (sample_nats 100) (sample_env []) (sample_env sample_body)
    (mkMessage sample_body 3%N) _ eq_refl) eq_refl eq_refl).
  vm_compute. congruence.
Defined.

Lemma full_job_undeliverable_witness : exists body,
  (nats_publish (H := plain_json) (fun _ => "id"%string) (sample_nats 9) (sample_env []) (full_job 7%N 9)).2 = Ok tt /\
  (nats_receive (H := plain_json) (sample_nats 9) (sample_env body)).2 = Err (TooLarge (byte_len body) 9).
Proof.
  destruct (proj1 (@full_job_undeliverable plain_json plain_json_laws N plain_urls (fun _ => "id"%string) (fun _ => "error"%string)
    7%N 9 ltac:(vm_compute; split; congruence)) (sample_nats 9) (sample_env []) eq_refl eq_refl) as (body & E1 & E2).
  exists body. split; [by rewrite E1|]. by rewrite (E2 (sample_nats 9) (sample_env body) _ eq_refl eq_refl eq_refl).
Defined.
