(* ===== verification/Adapter.v ===== *)
(** * The provider adapter trait (crates/core)

    [ProviderAdapter] with the request and response types of its methods, and
    [AdapterLaws]: what the proxy may rely on whichever adapter a pool has. *)

From stdpp Require Import base list strings.
From Stdlib Require Import ZArith Lia SpecFloat.
From S2P Require Import Prelude Web F64 F64Facts Core.

Open Scope Z_scope.

Record ProxyRequest : Type := mkProxyRequest {
  method : string;
  uri : string; (** [Uri::to_string] *)
  path_and_query : option string; (** [Uri::path_and_query] *)
  headers : list (string * string);
  body : Bytes
}.

(** [ProviderResponse]: the channel of the body as the messages sent into it,
    the watch of the usage as the values it takes, one after the other. *)
Record ProviderResponse : Type := mkProviderResponse {
  resp_status : Z;
  resp_headers : list (string * string);
  resp_body : list (result CoreError Bytes);
  resp_usage : list (option WorkEstimate)
}.

(** [E]: what the outside does during a call. *)
Class ProviderAdapter (P E : Type) : Type := {
  adapter_name : P -> string;
  adapter_estimate : P -> E -> ProxyRequest -> result CoreError WorkEstimate;
  adapter_dispatch : P -> E -> ProxyRequest -> result CoreError ProviderResponse;
  adapter_health : P -> E -> result CoreError UpstreamHealth
}.

(** An estimate the ledger and the scheduler can charge: a finite, non-negative
    amount, as [WorkUnits::new] demands. *)
Definition sound (e : WorkEstimate) : Prop := nn (wu (normalized_units e)) /\ is_finite (wu (normalized_units e)) = true.

Class AdapterLaws (P E : Type) `{ProviderAdapter P E} : Type := {
  adapter_ok : P -> Prop; (** the adapter has been built by its constructor *)
  env_ok : E -> Prop; (** the doubles that arrive are doubles *)
  estimate_sound : forall p e r est, adapter_ok p -> env_ok e -> adapter_estimate p e r = Ok est -> sound est;
  usage_sound : forall p e r resp, adapter_ok p -> env_ok e -> adapter_dispatch p e r = Ok resp ->
    Forall (fun u => forall est, u = Some est -> sound est) (resp_usage resp)
}.

Lemma finite_not_negative e : valid (wu (normalized_units e)) -> is_finite (wu (normalized_units e)) = true ->
  f_lt (wu (normalized_units e)) f_zero = false -> sound e.
Proof.
  intros V F L. assert (N : num (wu (normalized_units e))) by (apply fin_num; by split).
  rewrite lt_num in L by (done || by split). apply Z.ltb_ge in L. change (ext f_zero) with 0 in L. by repeat split; try apply N.
Qed.

Lemma sound_new e : sound e -> WorkUnits_new (wu (normalized_units e)) = Ok (normalized_units e).
Proof.
  intros [N F]. unfold WorkUnits_new, f_ge. rewrite F. cbn [andb].
  change (SpecFloat.SFleb f_zero (wu (normalized_units e))) with (f_le f_zero (wu (normalized_units e))).
  rewrite le_num by (try apply N; by split). destruct N as [_ N]. change (ext f_zero) with 0.
  apply Z.leb_le in N as ->. by destruct (normalized_units e).
Qed.

(** ** The check of the provider SDK (crates/provider-sdk) *)

(** [(0.0..=1.0).contains] of an [f32]. *)
Definition f32_in_unit (x : f32) : bool := SpecFloat.SFleb (S754_zero false) x && SpecFloat.SFleb x (f32_lit 1 1).

(** [validate_estimate]. *)
Definition validate_estimate (e : WorkEstimate) : result CoreError unit :=
  if negb (is_finite (wu (normalized_units e))) || f_lt (wu (normalized_units e)) f_zero then Err (InvalidWork (wu (normalized_units e)))
  else if negb (f32_in_unit (confidence e)) then Err (Provider "estimate confidence must be in [0,1]")
  else if input_tokens e <? cached_input_tokens e then Err (Provider "cached input cannot exceed input tokens")
  else Ok tt.

(** The amount an accepted estimate charges is one [WorkUnits::new] accepts. *)
Lemma validate_estimate_ok e : valid (wu (normalized_units e)) -> validate_estimate e = Ok tt ->
  sound e /\ f32_in_unit (confidence e) = true /\ cached_input_tokens e <= input_tokens e.
Proof.
  intros V. unfold validate_estimate. destruct (is_finite _) eqn:F; cbn; [|done]. destruct (f_lt _ _) eqn:L; [done|].
  destruct (f32_in_unit _); cbn; [|done]. destruct (Z.ltb_spec (input_tokens e) (cached_input_tokens e)); [done|]. intros _.
  split_and!; [|done | lia]. apply finite_not_negative; done.
Qed.
