(* ===== verification/Providers.v ===== *)
(** * The built-in HTTP provider adapter (crates/providers)

    [HttpProvider]: its construction from a pool's configuration, the estimate
    of a request, the outbound request with its credentials, the relay of the
    response, and the usage read from it.

    JSON parsing, URLs, header syntax, credential libraries and the network are
    outside the repository: [JsonLib], [UrlLib], [HttpLib], and the records
    [CloudEnv] and [HttpEnv] of what they answer during a call. *)

From stdpp Require Import base gmap strings list.
From Stdlib Require Import ZArith Lia Ascii String.
From S2P Require Import Prelude Web Text Json F64 F64Facts Core Config Adapter.

Open Scope Z_scope.

Inductive ResolvedAuth : Type :=
| AuthNone
| AuthHeader (name value : string)
| AuthBearer (value : string)
| AuthAzure
| AuthAws (region : string)
| AuthGoogle.

(** [is_forwardable]. *)
Definition NOT_FORWARDED : list string :=
  ["connection"; "keep-alive"; "proxy-authenticate"; "proxy-authorization"; "te"; "trailer"; "transfer-encoding"; "upgrade";
   "host"; "authorization"; "api-key"; HEADER_CLASS; HEADER_DEADLINE_MS; HEADER_TENANT; HEADER_APPLICATION; HEADER_QUEUEABLE]%string.
Definition is_forwardable (name : string) : bool := negb (bool_decide (name ∈ NOT_FORWARDED)).

(** ** Estimates *)

(** [count], the text of a value added to a [usize]. *)
Fixpoint count (v : Value) (n : Z) : Z :=
  match v with
  | Str s => wadd n (byte_len s)
  | Arr a => fold_left (fun n x => count x n) a n
  | Obj o => fold_left (fun n f => count f.2 n) o n
  | _ => n
  end.

(** The input and output tokens of a request: lines 226 to 245. *)
Definition input_of (parsed : Value) : Z :=
  let text_bytes :=
    match or_else (get parsed "input") (get parsed "messages") with
    | Some v => count v 0
    | None => count parsed 0
    end in
  Z.max (text_bytes / 4) 1.
Definition output_of (parsed : Value) : Z :=
  default 512 (or_else (get parsed "max_output_tokens") (get parsed "max_tokens") ≫= as_u64).

(** [HttpProvider::estimate]. *)
Definition http_estimate `{JsonLib} (coefficient : f64) (request : ProxyRequest) : WorkEstimate :=
  let parsed := default Null (json_from_slice (body request)) in
  let input := input_of parsed in
  let output := output_of parsed in
  let units := f_mul (f_of_Z (wadd input output)) coefficient in
  {| input_tokens := input; output_tokens := output; cached_input_tokens := 0; provider_cost_coefficient := coefficient;
     normalized_units := mkWorkUnits units; confidence := f32_lit 55 100; source := Approximation |}.

(** ** Usage *)

(** [from_value] of [parse_usage]. *)
Definition usage_from_value (value : Value) (coefficient : f64) : option WorkEstimate :=
  usage ← or_else (get value "usage") (get value "response" ≫= fun r => get r "usage");
  input ← or_else (get usage "input_tokens") (get usage "prompt_tokens") ≫= as_u64;
  let output := default 0 (or_else (get usage "output_tokens") (get usage "completion_tokens") ≫= as_u64) in
  let cached := default 0 ((or_else (get usage "input_tokens_details") (get usage "prompt_tokens_details")
                              ≫= fun details => get details "cached_tokens") ≫= as_u64) in
  let normalized := f_mul (f_of_Z (sat_add (sat_sub input cached) output)) coefficient in
  Some {| input_tokens := input; output_tokens := output; cached_input_tokens := cached; provider_cost_coefficient := coefficient;
          normalized_units := mkWorkUnits normalized; confidence := f32_lit 1 1; source := ProviderMetadata |}.

Definition DATA : Bytes := list_ascii_of_string "data:".
Definition DONE : Bytes := list_ascii_of_string "[DONE]".

(** The closure of [find_map]: the usage in one line of an event stream. *)
Definition usage_of_line `{JsonLib} (coefficient : f64) (line : Bytes) : option WorkEstimate :=
  rest ← strip_bytes DATA line;
  let json := trim rest in
  if bool_decide (json = DONE) then None
  else json_from_slice json ≫= fun value => usage_from_value value coefficient.

(** [Iterator::find_map]. *)
Fixpoint find_map {A B} (f : A -> option B) (l : list A) : option B :=
  match l with [] => None | x :: rest => match f x with Some y => Some y | None => find_map f rest end end.

(** [parse_usage]. *)
Definition parse_usage `{JsonLib} (body : Bytes) (coefficient : f64) : option WorkEstimate :=
  match json_from_slice body ≫= fun value => usage_from_value value coefficient with
  | Some usage => Some usage
  | None => text ← from_utf8 body; find_map (usage_of_line coefficient) (rev (lines text))
  end.

(** ** The response's body *)

Definition METADATA_MAX : Z := 1024 * 1024.

Definition keep_metadata (metadata bytes : Bytes) : Bytes :=
  if sat_add (byte_len metadata) (byte_len bytes) <=? METADATA_MAX then metadata ++ bytes else metadata.

(** The spawned task: what it sends on while the client takes [room] messages,
    and the bytes it keeps for the usage. *)
Fixpoint relay (room : nat) (metadata : Bytes) (chunks : list (result string Bytes)) {struct chunks} :
    list (result CoreError Bytes) * Bytes :=
  match chunks with
  | [] => ([], metadata)
  | Ok bytes :: rest =>
      let metadata := keep_metadata metadata bytes in
      match room with
      | O => ([], metadata)
      | S room => let '(sent, metadata) := relay room metadata rest in (Ok bytes :: sent, metadata)
      end
  | Err e :: _ => (match room with O => [] | S _ => [Err (Provider e)] end, metadata)
  end.

(** ** The adapter *)

Section http.
Context `{JL : JsonLib} {UL : UrlLib} {HL : HttpLib}.

Record HttpProvider : Type := mkHttpProvider {
  name : string;
  up_endpoint : url;
  up_auth : ResolvedAuth;
  up_allowed_hosts : gset string;
  coefficient : f64
}.

(** What the credential libraries answer while credentials are resolved. *)
Record CloudEnv : Type := mkCloudEnv {
  cloud_auth : bool; (** the feature is compiled in *)
  workload_identity : result string unit;
  managed_identity : result string unit;
  aws_provider : bool;
  aws_region : option string;
  google_build : result string unit
}.

(** [ambient_auth], with and without the feature. *)
Definition ambient_auth (env : string -> option string) (cloud : CloudEnv) (provider : ProviderKind) (region : option string) :
    result CoreError ResolvedAuth :=
  if negb (cloud_auth cloud) then
    Err (Provider "this binary was built without the cloud-auth feature; install an official release or rebuild with --features cloud-auth")
  else match provider with
  | AzureOpenai =>
      match env "AZURE_FEDERATED_TOKEN_FILE" with
      | Some _ => match workload_identity cloud with
                  | Ok _ => Ok AuthAzure
                  | Err e => Err (Provider ("Azure workload identity is unavailable: " +:+ e))
                  end
      | None => match managed_identity cloud with
                | Ok _ => Ok AuthAzure
                | Err e => Err (Provider ("Azure managed identity is unavailable: " +:+ e))
                end
      end
  | AwsBedrock =>
      if negb (aws_provider cloud) then Err (Provider "AWS default credential chain produced no provider")
      else match or_else region (aws_region cloud) with
           | Some region => Ok (AuthAws region)
           | None => Err (Provider "AWS Bedrock requires pool.region or an AWS default region")
           end
  | GcpVertex =>
      match google_build cloud with
      | Ok _ => Ok AuthGoogle
      | Err e => Err (Provider ("Google ADC is unavailable: " +:+ e))
      end
  | _ => Err (Provider "ambient auth is only available for Azure OpenAI, AWS Bedrock, and GCP Vertex")
  end.

(** [resolve_auth]; [from_header] is its closure. *)
Definition from_header (env : string -> option string) (header variable : string) (bearer : bool) : result CoreError ResolvedAuth :=
  match env variable with
  | None => Err (Provider ("authentication environment variable " +:+ (variable +:+ " is not set")))
  | Some value =>
      if bearer then
        match header_value ("Bearer " +:+ value) with
        | Some encoded => Ok (AuthBearer encoded)
        | None => Err (Provider (variable +:+ " contains invalid header bytes"))
        end
      else match header_name header with
           | None => Err (Provider "invalid auth header name")
           | Some name =>
               match header_value value with
               | Some value => Ok (AuthHeader name value)
               | None => Err (Provider (variable +:+ " contains invalid header bytes"))
               end
           end
  end.

Definition resolve_auth (env : string -> option string) (cloud : CloudEnv) (auth : AuthConfig) (provider : ProviderKind)
    (region : option string) : result CoreError ResolvedAuth :=
  match auth with
  | NoAuth => Ok AuthNone
  | ApiKey variable header => from_header env header variable false
  | Bearer variable => from_header env "authorization" variable true
  | Ambient => ambient_auth env cloud provider region
  end.

Definition is_fake (k : ProviderKind) : bool := match k with Fake => true | _ => false end.
Definition is_external (k : ProviderKind) : bool := match k with ExternalGrpc => true | _ => false end.

Definition host_allowed (hosts : gset string) (u : url) : bool :=
  match url_host u with Some h => bool_decide (h ∈ hosts) | None => false end.

(** The names of the providers; the last is [unreachable!]. *)
Definition provider_name (k : ProviderKind) : outcome string :=
  match k with
  | AzureOpenai => Returns "azure-openai"%string
  | AwsBedrock => Returns "aws-bedrock"%string
  | GcpVertex => Returns "gcp-vertex"%string
  | OpenaiCompatible => Returns "openai-compatible"%string
  | Fake => Returns "fake"%string
  | ExternalGrpc => Panics
  end.

(** [HttpProvider::from_config]; [client] is whether the HTTP client could be built. *)
Definition from_config (env : string -> option string) (cloud : CloudEnv) (client : result string unit) (config : PoolConfig) :
    outcome (result CoreError HttpProvider) :=
  if is_external (provider config) then
    Returns (Err (Provider "external-grpc pools must be constructed by the provider protocol runtime"))
  else match parse_url (Config.endpoint config) with
  | Err e => Returns (Err (Provider ("invalid upstream endpoint: " +:+ e)))
  | Ok endpoint =>
      if negb (String.eqb (url_scheme endpoint) "https") && negb (is_fake (provider config))
         && negb (bool_decide (url_host endpoint = Some "127.0.0.1"%string))
         && negb (bool_decide (url_host endpoint = Some "localhost"%string))
      then Returns (Err (Provider "upstream must use HTTPS except for loopback development endpoints"))
      else if negb (bool_decide (Config.allowed_hosts config = ∅)) && negb (host_allowed (Config.allowed_hosts config) endpoint)
      then Returns (Err (Provider ("upstream host " +:+ (default "<none>"%string (url_host endpoint) +:+ " is not in allowed_hosts"))))
      else match provider_name (provider config) with
           | Panics => Panics
           | Returns name =>
               Returns (
                 let? auth := resolve_auth env cloud (Config.auth config) (provider config) (Config.region config) in
                 match client with
                 | Err e => Err (Provider e)
                 | Ok _ => Ok (mkHttpProvider name endpoint auth (Config.allowed_hosts config) f_one)
                 end)
           end
  end.

(** [str::trim_start_matches('/')]. *)
Fixpoint trim_start_slash (s : string) : string :=
  match s with String c rest => if Ascii.eqb c "/" then trim_start_slash rest else s | EmptyString => s end.

(** [HttpProvider::target]. *)
Definition target (p : HttpProvider) (path : string) : result CoreError url :=
  match url_join (up_endpoint p) (trim_start_slash path) with
  | Err e => Err (Provider ("cannot join upstream URL: " +:+ e))
  | Ok u =>
      if negb (bool_decide (url_host u = url_host (up_endpoint p))) then Err (Provider "dynamic upstream host changes are forbidden")
      else if negb (bool_decide (up_allowed_hosts p = ∅)) && negb (host_allowed (up_allowed_hosts p) u)
      then Err (Provider "resolved upstream is outside allowed_hosts")
      else Ok u
  end.

Record Outbound : Type := mkOutbound {
  out_method : string;
  out_url : url;
  out_headers : list (string * string);
  out_body : Bytes
}.

Definition set_header (r : Outbound) (name value : string) : Outbound :=
  mkOutbound (out_method r) (out_url r) (header_insert (out_headers r) name value) (out_body r).

(** What a request hands to the signer. *)
Record Signable : Type := mkSignable {
  sig_method : string;
  sig_url : string;
  sig_headers : list (string * string);
  sig_body : Bytes
}.

(** What the outside answers while a request is dispatched. *)
Record HttpEnv : Type := mkHttpEnv {
  built : result string unit; (** [RequestBuilder::build] *)
  azure_token : list string -> result string string;
  google_headers : result string (option (list (string * string)));
  aws_credentials : result string unit;
  aws_params : string -> string -> result string unit; (** region and service name *)
  aws_signable : Signable -> result string unit;
  aws_sign : Signable -> result string (list (string * string) * list (string * string));
  executed : Outbound -> result string (Z * list (string * string) * list (result string Bytes));
  client_room : nat; (** messages the client takes before it goes away *)
  head : url -> result string Z;
  status_text : Z -> string
}.

(** Sets the signer's headers one by one. *)
Fixpoint set_signed (r : Outbound) (l : list (string * string)) : result CoreError Outbound :=
  match l with
  | [] => Ok r
  | (n, v) :: rest =>
      match header_name n with
      | None => Err (Provider "AWS signer returned an invalid header name")
      | Some name =>
          match header_value v with
          | None => Err (Provider "AWS signer returned invalid header bytes")
          | Some value => set_signed (set_header r name value) rest
          end
      end
  end.

(** [sign_aws]. *)
Definition sign_aws (e : HttpEnv) (r : Outbound) (region : string) : result CoreError Outbound :=
  match aws_credentials e with
  | Err m => Err (Provider ("AWS default credential chain failed: " +:+ m))
  | Ok _ =>
      match aws_params e region "bedrock" with
      | Err m => Err (Provider ("AWS signing configuration failed: " +:+ m))
      | Ok _ =>
          let header_values := omap (fun h => (fun v => (h.1, v)) <$> header_str h.2) (out_headers r) in
          let signable := mkSignable (out_method r) (url_text (out_url r)) header_values (out_body r) in
          match aws_signable e signable with
          | Err m => Err (Provider ("AWS request cannot be signed: " +:+ m))
          | Ok _ =>
              match aws_sign e signable with
              | Err m => Err (Provider ("AWS SigV4 signing failed: " +:+ m))
              | Ok (hs, params) =>
                  let? r := set_signed r hs in
                  Ok (mkOutbound (out_method r)
                        (fold_left (fun u p => url_append_pair u p.1 p.2) params (out_url r)) (out_headers r) (out_body r))
              end
          end
      end
  end.

(** [apply_auth]. *)
Definition apply_auth (e : HttpEnv) (auth : ResolvedAuth) (r : Outbound) : result CoreError Outbound :=
  match auth with
  | AuthNone => Ok r
  | AuthHeader name value => Ok (set_header r name value)
  | AuthBearer value => Ok (set_header r "authorization" value)
  | AuthAzure =>
      match azure_token e ["https://cognitiveservices.azure.com/.default"%string] with
      | Err m => Err (Provider ("Azure managed identity token acquisition failed: " +:+ m))
      | Ok token =>
          match header_value ("Bearer " +:+ token) with
          | None => Err (Provider "Azure token contains invalid header bytes")
          | Some value => Ok (set_header r "authorization" value)
          end
      end
  | AuthGoogle =>
      match google_headers e with
      | Err m => Err (Provider ("Google ADC token acquisition failed: " +:+ m))
      | Ok None => Err (Provider "Google ADC unexpectedly returned no headers without an entity tag")
      | Ok (Some data) => Ok (fold_left (fun r h => set_header r h.1 h.2) data r)
      end
  | AuthAws region => sign_aws e r region
  end.

(** The request [dispatch] sends: lines 258 to 269. *)
Definition outbound (p : HttpProvider) (e : HttpEnv) (request : ProxyRequest) : result CoreError Outbound :=
  let? u := target p (default "/"%string (path_and_query request)) in
  let hs := fold_left (fun out h => if is_forwardable h.1 then header_append out h.1 h.2 else out) (headers request) [] in
  match built e with
  | Err m => Err (Provider m)
  | Ok _ => apply_auth e (up_auth p) (mkOutbound (method request) u hs (body request))
  end.

(** [HttpProvider::dispatch]. *)
Definition http_dispatch (p : HttpProvider) (e : HttpEnv) (request : ProxyRequest) : result CoreError ProviderResponse :=
  let? out := outbound p e request in
  match executed e out with
  | Err m => Err (Provider m)
  | Ok (status, hs, chunks) =>
      let '(sent, metadata) := relay (client_room e) [] chunks in
      Ok (mkProviderResponse status hs sent [parse_usage metadata (coefficient p)])
  end.

(** [HttpProvider::health]. *)
Definition http_health (p : HttpProvider) (e : HttpEnv) : result CoreError UpstreamHealth :=
  match head e (url_set_path (up_endpoint p) "/") with
  | Ok status => Ok (mkUpstreamHealth (status <? 500) ("HTTP " +:+ status_text e status))
  | Err m => Ok (mkUpstreamHealth false m)
  end.

#[export] Instance HttpAdapter : ProviderAdapter HttpProvider HttpEnv := {
  adapter_name := name;
  adapter_estimate p _ request := Ok (http_estimate (coefficient p) request);
  adapter_dispatch := http_dispatch;
  adapter_health := http_health
}.
End http.
