(* ===== verification/ProvidersThms.v ===== *)
(** * What the HTTP provider adapter promises

    Estimates and usages are amounts the ledger can charge (and when they are
    not what the request asks for); the outbound request goes to the configured
    host with the configured credentials; the relay keeps the response intact;
    the usage is the last one the provider reported. *)

From stdpp Require Import base gmap strings list.
From Stdlib Require Import ZArith Lia Ascii String.
From S2P Require Import Prelude Web Text Json Rounding F64 F64Facts Core Config Adapter Providers.

Open Scope Z_scope.

(** ** Estimates *)

(** Every integer in the value is a [u64]. *)
Fixpoint value_ok (v : Value) : Prop :=
  match v with
  | Num (PosInt n) => u64 n
  | Arr l => (fix go l := match l with [] => True | x :: l => value_ok x /\ go l end) l
  | Obj fields => (fix go l := match l with [] => True | (_, x) :: l => value_ok x /\ go l end) fields
  | _ => True
  end.

(** A parser's values have [u64] integers, and no more text than the input. *)
Class JsonLaws `{JsonLib} : Prop := {
  parsed_ok : forall b v, json_from_slice b = Some v -> value_ok v /\ text_size v <= byte_len b
}.

Lemma get_ok v key w : value_ok v -> get v key = Some w -> value_ok w.
Proof.
  destruct v as [| | | | | fields]; cbn; try done. induction fields as [|[k x] fields IH]; [done|]. intros [Hx Hf].
  rewrite filter_cons. destruct (decide _); [by intros [= <-] | by apply IH].
Qed.

Lemma as_u64_ok v n : value_ok v -> as_u64 v = Some n -> u64 n.
Proof. destruct v as [| |[]| | |]; cbn; try done. by intros ? [= <-]. Qed.

Lemma get_else_ok v k1 k2 w : value_ok v -> or_else (get v k1) (get v k2) = Some w -> value_ok w.
Proof. intros Hv. destruct (get v k1) eqn:E; [intros [= <-] | intros E2]; by eapply get_ok. Qed.

Lemma u64_of_get v k1 k2 d : value_ok v -> u64 d -> u64 (default d (or_else (get v k1) (get v k2) ≫= as_u64)).
Proof.
  intros Hv Hd. destruct (or_else _ _) as [w|] eqn:E; [|done]. cbn. destruct (as_u64 w) eqn:Eu; [|done].
  eapply as_u64_ok; [|done]. by eapply get_else_ok.
Qed.

Lemma wadd_wrap a b c : wadd (wadd a b) c = wadd a (b + c).
Proof. unfold wadd, wrap64. rewrite Zplus_mod_idemp_l. f_equal. lia. Qed.

Lemma count_spec v n : wadd (count v n) 0 = wadd n (text_size v).
Proof.
  revert n. induction v as [| | m | s | l IH | l IH] using value_ind; intros n; cbn [count text_size]; try done.
  - rewrite wadd_wrap. f_equal. lia.
  - revert n. induction IH as [|x l Hx _ IH]; intros n; cbn [fold_left zsum]; [done|].
    by rewrite IH, <- wadd_wrap, <- Hx, wadd_wrap.
  - revert n. induction IH as [|x l Hx _ IH]; intros n; cbn [fold_left zsum]; [done|].
    by rewrite IH, <- wadd_wrap, <- Hx, wadd_wrap.
Qed.

Lemma count_u64 v n : u64 n -> u64 (count v n).
Proof.
  revert n. induction v as [| | m | s | l IH | l IH] using value_ind; intros n Hn; cbn [count]; try done.
  - unfold wadd, wrap64. pose proof (Z.mod_pos_bound (n + byte_len s) (2 ^ 64) ltac:(lia)). int64.
  - revert n Hn. induction IH as [|x l Hx _ IH]; intros n Hn; cbn [fold_left]; auto.
  - revert n Hn. induction IH as [|x l Hx _ IH]; intros n Hn; cbn [fold_left]; auto.
Qed.

(** Where the text of a value fits a [usize], [count] is its size. *)
Lemma count_is_text_size v : text_size v <= U64_MAX -> count v 0 = text_size v.
Proof.
  intros B. pose proof (text_size_nonneg v). pose proof (count_u64 v 0 ltac:(int64)).
  pose proof (count_spec v 0) as E. rewrite !wadd_id in E by int64. lia.
Qed.

Lemma wadd_u64 a b : u64 (wadd a b).
Proof. unfold wadd, wrap64. pose proof (Z.mod_pos_bound (a + b) (2 ^ 64) ltac:(lia)). int64. Qed.

Lemma of_u64_sound n : u64 n ->
  let x := f_mul (f_of_Z n) f_one in nn x /\ is_finite x = true /\ ext x = rnd (n * ONE) 1.
Proof. intros Hn. destruct (u64_nn n Hn) as (N & F & <-). by apply f_mul_one. Qed.

Lemma http_estimate_sound `{JsonLib} r : sound (http_estimate f_one r).
Proof. unfold sound. cbn. edestruct of_u64_sound as (N & F & _); [|split; [exact N | exact F]]. apply wadd_u64. Qed.

Lemma usage_from_value_sound v u : value_ok v -> usage_from_value v f_one = Some u -> sound u.
Proof.
  intros Hv. unfold usage_from_value. destruct (or_else (get v "usage") _) as [w|] eqn:Ew; cbn; [|done].
  assert (Hw : value_ok w).
  { unfold or_else in Ew. destruct (get v "usage") eqn:E1; [by simplify_eq; eapply get_ok|].
    destruct (get v "response") eqn:E2; cbn in Ew; [|done]. eapply get_ok; [|done]. by eapply get_ok. }
  destruct (or_else (get w "input_tokens") _) as [x|] eqn:Ex; cbn; [|done]. destruct (as_u64 x) as [input|] eqn:Ei; cbn; [|done].
  intros [= <-]. pose proof (as_u64_ok _ _ (get_else_ok _ _ _ _ Hw Ex) Ei) as Hi.
  pose proof (u64_of_get w "output_tokens" "completion_tokens" 0 Hw ltac:(int64)) as Ho.
  assert (Hc : u64 (default 0 ((or_else (get w "input_tokens_details") (get w "prompt_tokens_details")
    ≫= fun details => get details "cached_tokens") ≫= as_u64))).
  { destruct (or_else (get w "input_tokens_details") _) as [d|] eqn:Ed; cbn; [|int64].
    destruct (get d "cached_tokens") as [y|] eqn:Ey; cbn; [|int64]. destruct (as_u64 y) eqn:Eu; cbn; [|int64].
    eapply as_u64_ok; [|done]. eapply get_ok; [|done]. by eapply get_else_ok. }
  unfold sound. cbn [normalized_units wu]. edestruct of_u64_sound as (N & F & _); [|split; [exact N | exact F]].
  unfold sat_add, sat_sub. int64.
Qed.

Lemma find_map_some {A B} (f : A -> option B) l y : find_map f l = Some y -> exists x, x ∈ l /\ f x = Some y.
Proof.
  induction l as [|x l IH]; cbn; [done|]. destruct (f x) eqn:E.
  - intros [= <-]. exists x. split; [left | done].
  - intros H. destruct (IH H) as (z & ? & ?). exists z. split; [by right | done].
Qed.

Lemma usage_of_value_sound `{JsonLaws} b u : (json_from_slice b ≫= fun v => usage_from_value v f_one) = Some u -> sound u.
Proof. destruct (json_from_slice b) as [v|] eqn:E; cbn; [|done]. apply parsed_ok in E as [Hv _]. by apply usage_from_value_sound. Qed.

Lemma parse_usage_sound `{JsonLaws} b u : parse_usage b f_one = Some u -> sound u.
Proof.
  unfold parse_usage. destruct (json_from_slice b ≫= _) eqn:E; [intros [= <-]; by eapply usage_of_value_sound|].
  destruct (from_utf8 b); cbn; [|done]. intros (line & _ & Hl)%find_map_some. unfold usage_of_line in Hl.
  destruct (strip_bytes DATA line); cbn in Hl; [|done]. case_bool_decide; [done|]. by eapply usage_of_value_sound.
Qed.

Section adapter.
Context `{JL : JsonLib} {JW : JsonLaws} {UL : UrlLib} {HL : HttpLib}.

Lemma http_usage_sound p (e : HttpEnv) r resp : coefficient p = f_one -> True -> http_dispatch p e r = Ok resp ->
  Forall (fun u => forall est, u = Some est -> sound est) (resp_usage resp).
Proof.
  unfold http_dispatch. intros -> _ E. destruct (outbound p e r) as [out|]; cbn in E; [|done].
  destruct (executed e out) as [[[status hs] chunks]|]; [|done]. destruct (relay _ _ _) as [sent m]. injection E as <-.
  constructor; [|constructor]. intros est Hu. by eapply parse_usage_sound.
Qed.

Lemma http_estimate_ok p (e : HttpEnv) r est : coefficient p = f_one -> True -> Ok (E := CoreError) (http_estimate (coefficient p) r) = Ok est -> sound est.
Proof. intros -> _ [= <-]. apply http_estimate_sound. Qed.

#[export] Instance HttpAdapterLaws : AdapterLaws HttpProvider HttpEnv := {
  adapter_ok p := coefficient p = f_one;
  env_ok _ := True;
  estimate_sound := http_estimate_ok;
  usage_sound := http_usage_sound
}.

(** What [from_config] has checked. *)
Lemma from_config_ok env cloud client config r : from_config env cloud client config = r ->
  exists res, r = Returns res /\ forall p, res = Ok p ->
    coefficient p = f_one /\ up_allowed_hosts p = Config.allowed_hosts config /\
    parse_url (Config.endpoint config) = Ok (up_endpoint p) /\
    resolve_auth env cloud (Config.auth config) (provider config) (Config.region config) = Ok (up_auth p) /\
    (url_scheme (up_endpoint p) = "https"%string \/ provider config = Fake \/
     url_host (up_endpoint p) = Some "127.0.0.1"%string \/ url_host (up_endpoint p) = Some "localhost"%string) /\
    (Config.allowed_hosts config <> ∅ -> exists h, url_host (up_endpoint p) = Some h /\ h ∈ Config.allowed_hosts config).
Proof.
  unfold from_config. intros <-. destruct (is_external (provider config)) eqn:Ex; [by eexists|].
  destruct (parse_url _) as [ep|]; [|by eexists].
  destruct (negb (String.eqb (url_scheme ep) "https") && _ && _ && _) eqn:C1; [by eexists|].
  destruct (negb (bool_decide (Config.allowed_hosts config = ∅)) && _) eqn:C2; [by eexists|].
  destruct (provider_name _) as [n|] eqn:En; [|by destruct (provider config)].
  eexists. split; [done|]. intros p Hp. destruct (resolve_auth _ _ _ _ _) as [au|] eqn:Ea; cbn in Hp; [|done].
  destruct client; [|done]. injection Hp as <-. cbn. split_and!; [done..| |].
  - apply andb_false_iff in C1 as [[[C|C]%andb_false_iff|C]%andb_false_iff|C]; apply negb_false_iff in C.
    + left. by apply String.eqb_eq.
    + right. left. by destruct (provider config).
    + do 2 right. left. by apply bool_decide_eq_true in C.
    + do 3 right. by apply bool_decide_eq_true in C.
  - intros NE. rewrite bool_decide_false in C2 by done. cbn in C2. apply negb_false_iff in C2. unfold host_allowed in C2.
    destruct (url_host ep) as [h|]; [|done]. exists h. split; [done|]. by apply bool_decide_eq_true in C2.
Qed.


(** ** The estimate is the requested work *)

Lemma input_of_bound v : 1 <= input_of v /\ (text_size v <= U64_MAX -> input_of v <= Z.max 1 (text_size v / 4)).
Proof.
  unfold input_of. split; [lia|]. intros B. apply Z.max_lub; [|lia]. etrans; [|apply Z.le_max_r]. apply Z.div_le_mono; [lia|].
  destruct (or_else _ _) as [w|] eqn:E; [|rewrite count_is_text_size; lia].
  assert (text_size w <= text_size v).
  { unfold or_else in E. destruct (get v "input") eqn:E1; [simplify_eq; by eapply get_text_size | by eapply get_text_size]. }
  rewrite count_is_text_size; lia.
Qed.

(** The estimate of a request is its input tokens, a quarter of its text and
    at least one, plus the output tokens it asks for, rounded to a double, as
    long as that sum fits 64 bits; the input is never more than a quarter of
    the body. *)
Theorem estimate_is_requested_work request v :
  json_from_slice (body request) = Some v -> byte_len (body request) <= U64_MAX ->
  input_of v + output_of v <= U64_MAX ->
  ext (wu (normalized_units (http_estimate f_one request))) = rnd ((input_of v + output_of v) * ONE) 1 /\
  1 <= input_of v <= Z.max 1 (byte_len (body request) / 4).
Proof.
  intros Ev B S. destruct (parsed_ok _ _ Ev) as [Hv Ht]. destruct (input_of_bound v) as [L U].
  assert (Ho : u64 (output_of v)) by (apply u64_of_get; [done | int64]).
  unfold http_estimate. rewrite Ev. cbn [normalized_units wu default]. unfold from_option, id. split.
  - rewrite wadd_id by int64. by destruct (of_u64_sound (input_of v + output_of v)) as (_ & _ & ->); [int64|].
  - split; [done|]. etrans; [apply U; lia|]. apply Z.max_le_compat_l, Z.div_le_mono; lia.
Qed.

(** The sum wraps: a request that asks for the largest number of output
    tokens is charged one unit less than its input, nothing at all for a text
    of at most seven bytes. *)
Theorem estimate_wraps request v :
  json_from_slice (body request) = Some v -> byte_len (body request) <= U64_MAX -> output_of v = U64_MAX ->
  ext (wu (normalized_units (http_estimate f_one request))) = rnd ((input_of v - 1) * ONE) 1 /\
  (text_size v < 8 -> ext (wu (normalized_units (http_estimate f_one request))) = 0).
Proof.
  intros Ev B So. destruct (parsed_ok _ _ Ev) as [Hv Ht]. destruct (input_of_bound v) as [L U]. specialize (U ltac:(lia)).
  assert (Hi : input_of v <= U64_MAX).
  { etrans; [exact U|]. apply Z.max_lub; [int64|]. apply Z.div_le_upper_bound; int64. }
  assert (E : ext (wu (normalized_units (http_estimate f_one request))) = rnd ((input_of v - 1) * ONE) 1).
  { unfold http_estimate. rewrite Ev. cbn [normalized_units wu default]. unfold from_option, id. rewrite So.
    replace (wadd (input_of v) U64_MAX) with (input_of v - 1).
    - by destruct (of_u64_sound (input_of v - 1)) as (_ & _ & ->); [int64|].
    - unfold wadd, wrap64. replace (input_of v + U64_MAX) with (input_of v - 1 + 1 * 2 ^ 64) by int64.
      rewrite Z_mod_plus_full, Z.mod_small; int64. }
  split; [exact E|]. intros T. rewrite E.
  assert (text_size v / 4 <= 1) by (apply Z.lt_succ_r, Z.div_lt_upper_bound; lia).
  replace (input_of v - 1) with 0 by lia. by rewrite Z.mul_0_l, rnd_0 by lia.
Qed.
End adapter.

(** ** Outbound requests *)

Section outbound.
Context `{JL : JsonLib} {UL : UrlLib} {UW : UrlLaws} {HL : HttpLib}.

Lemma target_ok p path u : target p path = Ok u ->
  url_host u = url_host (up_endpoint p) /\
  (up_allowed_hosts p <> ∅ -> exists h, url_host u = Some h /\ h ∈ up_allowed_hosts p).
Proof.
  unfold target. destruct (url_join _ _) as [v|]; [|done]. destruct (bool_decide_reflect (url_host v = url_host (up_endpoint p))) as [Hh|]; [|done].
  cbn [negb]. destruct (negb (bool_decide (up_allowed_hosts p = ∅)) && _) eqn:C; [done|]. intros [= <-]. split; [done|].
  intros NE. rewrite bool_decide_false in C by done. cbn in C. apply negb_false_iff in C. unfold host_allowed in C.
  destruct (url_host v) as [h|]; [|done]. exists h. split; [done|]. by apply bool_decide_eq_true in C.
Qed.

Lemma forwarded_spec hs out :
  fold_left (fun out h => if is_forwardable h.1 then header_append out h.1 h.2 else out) hs out =
  out ++ filter (fun h => is_forwardable h.1 = true) hs.
Proof.
  revert out. induction hs as [|[n v] hs IH]; intros out; cbn [fold_left]; [by rewrite app_nil_r|].
  rewrite IH, filter_cons. cbn [fst snd]. unfold header_append.
  destruct (is_forwardable n); [by rewrite decide_True, <- app_assoc | by rewrite decide_False].
Qed.

(** The credentials the configured method attaches to a request. *)
Definition credentials (e : HttpEnv) (auth : ResolvedAuth) (r : Outbound) : list (string * string) :=
  match auth with
  | AuthNone => []
  | AuthHeader name value => [(name, value)]
  | AuthBearer value => [("authorization"%string, value)]
  | AuthAzure => match azure_token e ["https://cognitiveservices.azure.com/.default"%string] with
                 | Ok token => match header_value ("Bearer " +:+ token) with Some v => [("authorization"%string, v)] | None => [] end
                 | Err _ => []
                 end
  | AuthGoogle => match google_headers e with Ok (Some data) => data | _ => [] end
  | AuthAws _ =>
      let signable := mkSignable (out_method r) (url_text (out_url r))
                        (omap (fun h => (fun v => (h.1, v)) <$> header_str h.2) (out_headers r)) (out_body r) in
      match aws_sign e signable with
      | Ok (hs, _) => omap (fun h => name ← header_name h.1; value ← header_value h.2; Some (name, value)) hs
      | Err _ => []
      end
  end.

Lemma header_insert_fold l r h :
  h ∈ out_headers (fold_left (fun r h => set_header r h.1 h.2) l r) -> h ∈ out_headers r \/ h ∈ l.
Proof.
  revert r. induction l as [|[n v] l IH]; intros r; cbn; [by left|]. intros [H|H]%IH; [|right; by right].
  unfold set_header, header_insert in H. cbn in H. apply elem_of_app in H as [[_ H]%list_elem_of_filter | H]; [by left|].
  apply list_elem_of_singleton in H as ->. right. left.
Qed.

Lemma set_signed_spec l r r' : set_signed r l = Ok r' ->
  r' = fold_left (fun r h => set_header r h.1 h.2) (omap (fun h => name ← header_name h.1; value ← header_value h.2; Some (name, value)) l) r.
Proof.
  revert r. induction l as [|[n v] l IH]; intros r; cbn; [by intros [= ->]|].
  destruct (header_name n) as [n'|]; cbn; [|done]. destruct (header_value v) as [v'|]; cbn; [|done]. apply IH.
Qed.

Lemma fold_set_header l r : let r' := fold_left (fun r h => set_header r h.1 h.2) l r in
  out_url r' = out_url r /\ out_method r' = out_method r /\ out_body r' = out_body r.
Proof. revert r. induction l as [|h l IH]; intros r; cbn; [done|]. by destruct (IH (set_header r h.1 h.2)) as (-> & -> & ->). Qed.

Lemma append_pairs_host ps u : url_host (fold_left (fun u p => url_append_pair u p.1 p.2) ps u) = url_host u.
Proof. revert u. induction ps as [|p ps IH]; intros u; cbn; [done|]. by rewrite IH, url_host_append_pair. Qed.

(** [apply_auth] sets the credentials' headers and changes nothing else but
    the query of the URL. *)
Lemma apply_auth_ok e auth r r' : apply_auth e auth r = Ok r' ->
  out_headers r' = out_headers (fold_left (fun r h => set_header r h.1 h.2) (credentials e auth r) r) /\
  url_host (out_url r') = url_host (out_url r) /\ out_method r' = out_method r /\ out_body r' = out_body r.
Proof.
  destruct auth as [|n v|v| |region|]; cbn; try (by intros [= <-]).
  - destruct (azure_token _ _); [|done]. destruct (header_value _); [|done]. by intros [= <-].
  - unfold sign_aws. destruct (aws_credentials _); [|done]. destruct (aws_params _ _ _); [|done]. destruct (aws_signable _ _); [|done].
    destruct (aws_sign _ _) as [[hs ps]|]; [|done]. destruct (set_signed r hs) as [r1|] eqn:E; cbn; [|done]. intros [= <-]. cbn.
    apply set_signed_spec in E as ->. rewrite append_pairs_host.
    destruct (fold_set_header (omap (fun h => name ← header_name h.1; value ← header_value h.2; Some (name, value)) hs) r) as (-> & -> & ->). done.
  - destruct (google_headers e) as [[data|]|]; try done. intros [= <-].
    destruct (fold_set_header data r) as (-> & -> & ->). done.
Qed.

End outbound.

(** ** Responses *)

(** What a client that stays sees: the chunks up to the first failure. *)
Fixpoint delivered (chunks : list (result string Bytes)) : list (result CoreError Bytes) :=
  match chunks with
  | [] => []
  | Ok b :: rest => Ok b :: delivered rest
  | Err e :: _ => [Err (Provider e)]
  end.

Lemma keep_metadata_bound m b : byte_len m <= METADATA_MAX -> byte_len (keep_metadata m b) <= METADATA_MAX.
Proof.
  unfold keep_metadata. destruct (Z.leb_spec (sat_add (byte_len m) (byte_len b)) METADATA_MAX) as [L|]; [|done]. intros _.
  rewrite byte_len_app. unfold sat_add in L. change METADATA_MAX with 1048576 in *. int64.
Qed.

Lemma relay_spec room m chunks :
  (relay room m chunks).1 = take room (delivered chunks) /\
  (byte_len m <= METADATA_MAX -> byte_len (relay room m chunks).2 <= METADATA_MAX).
Proof.
  revert room m. induction chunks as [|[b|e] chunks IH]; intros room m; cbn.
  - by rewrite take_nil.
  - destruct room as [|room]; cbn; [split; [done | apply keep_metadata_bound]|].
    destruct (IH room (keep_metadata m b)) as [E B]. destruct (relay room _ chunks) as [sent m'] eqn:Er. cbn in *.
    split; [by rewrite E | intros; apply B; by apply keep_metadata_bound].
  - split; [|done]. destruct room; cbn; [done | by rewrite take_nil].
Qed.

Lemma relay_keeps_all room bs m : (List.length bs <= room)%nat -> byte_len m + byte_len (List.concat bs) <= METADATA_MAX ->
  relay room m (Ok <$> bs) = (Ok <$> bs, m ++ List.concat bs).
Proof.
  revert room m. induction bs as [|b bs IH]; intros room m L S; cbn; [by rewrite app_nil_r|].
  destruct room as [|room]; [cbn in L; lia|]. cbn in S. rewrite byte_len_app in S. pose proof (byte_len_nonneg (List.concat bs)).
  assert (K : keep_metadata m b = m ++ b).
  { unfold keep_metadata. replace (_ <=? _) with true; [done|]. symmetry. apply Z.leb_le. unfold sat_add. lia. }
  rewrite K, IH; [by rewrite <- app_assoc | cbn in L; lia | rewrite byte_len_app; lia].
Qed.

Lemma find_map_rev {A B} (f : A -> option B) l : find_map f (rev l) = last (omap f l).
Proof.
  induction l as [|x l IH] using rev_ind; [done|]. rewrite rev_app_distr, omap_app. cbn.
  destruct (f x); cbn; [by rewrite last_snoc | by rewrite app_nil_r].
Qed.

Lemma parse_usage_stream `{JsonLib} c ls :
  (json_from_slice (unlines ls) ≫= fun v => usage_from_value v c) = None -> utf8_valid (unlines ls) = true ->
  Forall (fun l => NEWLINE ∉ l /\ strip_cr l = l) ls ->
  parse_usage (unlines ls) c = last (omap (usage_of_line c) ls).
Proof. intros E U F. unfold parse_usage, from_utf8. rewrite E, U. cbn. by rewrite lines_unlines, find_map_rev. Qed.

(** The relay is faithful: a client that takes [room] messages gets exactly
    the first that many of the upstream's chunks, up to its first failure, in
    order and unchanged, and at most one mebibyte is kept for the usage, however
    long the response. *)
Theorem relay_is_faithful room chunks :
  (relay room [] chunks).1 = take room (delivered chunks) /\ byte_len (relay room [] chunks).2 <= METADATA_MAX.
Proof. destruct (relay_spec room [] chunks) as [E B]. split; [done|]. apply B. unfold byte_len, METADATA_MAX. cbn. lia. Qed.


(** ** Examples *)

Definition bytes (s : string) : Bytes := list_ascii_of_string s.

(** A parser that knows two documents. *)
Definition greedy_text : Bytes := bytes "{'messages':[],'max_tokens':18446744073709551615}".
Definition modest_text : Bytes := bytes "{'input':'hello world','max_tokens':100}".
Definition usage_text : Bytes := bytes "{'usage':{'input_tokens':100,'output_tokens':20}}".
Definition sample_json : JsonLib := {| json_from_slice b :=
  if bool_decide (b = greedy_text) then
    Some (Obj [("messages"%string, Arr []); ("max_tokens"%string, Num (PosInt U64_MAX))])
  else if bool_decide (b = modest_text) then
    Some (Obj [("input"%string, Str (bytes "hello world")); ("max_tokens"%string, Num (PosInt 100))])
  else if bool_decide (b = usage_text) then
    Some (Obj [("usage"%string, Obj [("input_tokens"%string, Num (PosInt 100)); ("output_tokens"%string, Num (PosInt 20))])])
  else None |}.

Lemma sample_json_laws : @JsonLaws sample_json.
Proof.
  split. intros b v. cbn. do 3 (case_bool_decide; [intros [= <-]; subst b; split; [cbn; repeat split; int64 | vm_compute; congruence]|]).
  done.
Qed.

Definition post (b : Bytes) (hs : list (string * string)) : ProxyRequest := mkProxyRequest "POST" "http://proxy/v1/responses" (Some "/v1/responses"%string) hs b.
Definition sample_provider : @HttpProvider plain_urls :=
  mkHttpProvider (UL := plain_urls) "openai-compatible" (mkPlainUrl "https" "api.example" "/") (AuthHeader "x-api-key" "secret") {["api.example"%string]} f_one.
Definition stream_lines : list Bytes := [DATA ++ usage_text; DATA ++ bytes " [DONE]"].
Definition sample_http : @HttpEnv plain_urls := {|
  built := Ok tt; azure_token := fun _ => Err "none"%string; google_headers := Err "none"%string; aws_credentials := Err "none"%string;
  aws_params := fun _ _ => Err "none"%string; aws_signable := fun _ => Err "none"%string; aws_sign := fun _ => Err "none"%string;
  executed := fun _ => Ok (200, [], Ok <$> [firstn 20 (unlines stream_lines); skipn 20 (unlines stream_lines)]);
  client_room := 5; Providers.head := fun _ => Ok 200; status_text := fun _ => "200 OK"%string
|}.
Definition sample_out : result CoreError (@Outbound plain_urls) :=
  @outbound plain_urls plain_http sample_provider sample_http
    (post modest_text [("authorization"%string, "mine"%string); ("accept"%string, "*/*"%string)]).

Lemma estimate_is_requested_work_witness :
  ext (wu (normalized_units (@http_estimate sample_json f_one (post modest_text [])))) = rnd ((2 + 100) * ONE) 1.
Proof.
  apply (@estimate_is_requested_work sample_json sample_json_laws (post modest_text [])
    (Obj [("input"%string, Str (bytes "hello world")); ("max_tokens"%string, Num (PosInt 100))]));
    [vm_compute; reflexivity | vm_compute; congruence | vm_compute; congruence].
Defined.

Lemma estimate_wraps_witness : ext (wu (normalized_units (@http_estimate sample_json f_one (post greedy_text [])))) = 0.
Proof.
  apply (@estimate_wraps sample_json sample_json_laws (post greedy_text [])
    (Obj [("messages"%string, Arr []); ("max_tokens"%string, Num (PosInt U64_MAX))]));
    [vm_compute; reflexivity | vm_compute; congruence | vm_compute; reflexivity | vm_compute; congruence].
Defined.



Definition sample_pool : PoolConfig :=
  mkPoolConfig OpenaiCompatible "https://api.example/" None None None None (f_of_Z 100) (ApiKey "KEY" "X-Api-Key") ∅ f_one.
Definition sample_cloud : CloudEnv := mkCloudEnv false (Err "none"%string) (Err "none"%string) false None (Err "none"%string).

