(* ===== verification/ProxyTelemetry.v ===== *)
(** * The measurements of the proxy (crates/proxy, crates/telemetry)

    What each piece of the request path hands to [RuntimeMetrics], next to the
    piece's effect on the state: [tstep] is [sstep] with the measurements made.
    The theorems relate what a metrics backend adds up to the state of the
    proxy. *)

From stdpp Require Import base gmap strings countable sorting list.
From Stdlib Require Import ZArith Lia SpecFloat.
From S2P Require Import Prelude Rounding F64 F64Facts Core Scheduler SchedulerInv Capacity Coordinator Config Admission Adapter Providers Telemetry Proxy ProxyHttp ProxySystem ProxyInv ProxyThms.

Open Scope Z_scope.

Section otel.
Context {K : Type} `{CoordinatorLaws K} {HO : HashOrder}.
Context (parse_uuid : string -> option Uuid) (uuid_to_string : Uuid -> string).
Context (parse_cidr : string -> result string unit) (parse_url : string -> result string Url).
(** The provider of a pool. *)
Context (kind_of : string -> ProviderKind).
Implicit Types (s : Sys K) (a : App K) (g : Guard) (ms log : list Measurement).

(** [ProviderAdapter::name] of the provider [AppState::build] makes. *)
Definition adapter_name_of (k : ProviderKind) : string :=
  match provider_name k with Returns n => n | Panics => "external-grpc" end.

(** ** The pieces *)

(** The coordinator's failure of an immediate reservation. *)
Definition admit_otel a (config : Config) (pool : PoolRuntime) (admission : AdmissionRequest) (envs : ReserveEnvs) : list Measurement :=
  let '(_, entered) := try_enter (app_concurrency a) (identity admission) config in
  if entered then
    match (reserve_distributed (coord a) envs (app_lease_ttl a) (app_pending a) admission config (pr_limit pool)
             (charged_units (pr_capacity pool) (normalized_units (estimate admission)))).2 with
    | Err _ => otel_coordinator_failure
    | Ok _ => []
    end
  else [].

(** [proxy_handler] up to the first wait: a request is measured once it has an
    estimate. *)
Definition start_otel a (inc : Incoming) (envs : ReserveEnvs) : list Measurement :=
  let config := app_config a in
  if draining a then []
  else match in_body inc, in_identity inc with
  | Some body, Ok who =>
      if max_body_bytes (server config) <? body then []
      else
        let requested := requested_service_class (in_headers inc) in
        let '(effective, app) := effective_class_of config who requested in
        match choose_pool config app with
        | None => []
        | Some pool_name =>
            match app_pools a !! pool_name, in_estimate inc pool_name with
            | Some pool, Ok est =>
                otel_request (class_to_string effective) (wu (normalized_units est)) ++
                match in_stored inc, service_classes config !! class_to_string effective with
                | Ok _, Some class =>
                    admit_otel a config pool
                      {| req_id := default (in_fresh inc) (in_headers inc !! HEADER_REQUEST_ID ≫= parse_uuid);
                         identity := who; requested_class := requested; effective_class := effective;
                         Core.pool := pool_name; estimate := est; deadline := requested_deadline (in_headers inc) class;
                         queueable := requested_queueable (in_headers inc) effective |} envs
                | _, _ => []
                end
            | _, _ => []
            end
        end
  | _, _ => []
  end.

(** Lines 930 to 942: an admitted request; [seconds] is the time since the
    handler began. *)
Definition activate_otel (ad : Permit) (seconds : f64) : list Measurement :=
  let class := class_to_string (effective_class (ad_request ad)) in
  otel_admission seconds class ++
  (if 0 <? ad_queue_age ad then otel_queue (f_div (f_of_Z (ad_queue_age ad)) (f_of_Z 1000)) class else []) ++
  otel_active 1 class.

(** [ActiveAdmissionGuard::release_local], [complete] (with the drop that
    follows) and [drop]. *)
Definition release_otel g : list Measurement := if counted_active g then otel_active (-1) (g_class g) else [].

Definition complete_otel g (actual : option WorkEstimate) : list Measurement :=
  match g_leases g, actual with
  | Some _, Some act => otel_reconciliation (wu (normalized_units (g_estimate g))) (wu (normalized_units act)) (g_class g)
  | _, _ => []
  end ++ release_otel g.

Definition dispatch_otel g (loaded : result string unit) (upstream : result string Upstream) : list Measurement :=
  match loaded, upstream with
  | Ok _, Ok response => if up_status response =? 429 then otel_throttle (adapter_name_of (kind_of (g_pool g))) else []
  | _, _ => release_otel g
  end.

(** ** Steps with their measurements *)

Local Abbreviation handle := (handle_start parse_uuid uuid_to_string).

Inductive tstep s : list Measurement -> Sys K -> Prop :=
| t_respond inc envs now ch a' r :
    fresh_lease s envs -> handle (sys_app s) inc envs now ch = Returns (a', Respond r) ->
    tstep s (start_otel (sys_app s) inc envs) (mkSys a' (owner s) (take_lease s envs) (enqueued s) (waiting s) (guards s))
| t_enqueue inc envs now ch a' t :
    fresh_lease s envs -> fresh_channel s ch -> fresh_request s (tk_request t) -> typed_body inc ->
    handle (sys_app s) inc envs now ch = Returns (a', Wait t) ->
    tstep s (start_otel (sys_app s) inc envs)
      (mkSys a' (<[ch := tk_request t]> (owner s)) (take_lease s envs) (t :: enqueued s) (waiting s) (guards s))
| t_go inc envs now ch a' ad a'' g seconds :
    fresh_lease s envs -> handle (sys_app s) inc envs now ch = Returns (a', Go ad) ->
    activate a' (app_config (sys_app s)) ad = (a'', g) ->
    tstep s (start_otel (sys_app s) inc envs ++ activate_otel ad seconds)
      (mkSys a'' (owner s) (take_lease s envs) (enqueued s) (waiting s) (g :: guards s))
| t_insert t rest now :
    enqueued s ≡ₚ t :: rest ->
    tstep s [] (mkSys (insert_pending (sys_app s) t now) (owner s) (used s) rest (t :: waiting s) (guards s))
| t_tick envs undo now clock a' :
    fresh_lease s envs -> dispatcher_done (sys_app s) = false ->
    dispatcher_tick (sys_app s) envs undo now clock = Returns a' ->
    tstep s [] (mkSys a' (owner s) (take_lease s envs) (enqueued s) (waiting s) (guards s))
| t_receive t rest age a' ad config a'' g seconds :
    waiting s ≡ₚ t :: rest -> receive (sys_app s) t age = Some (a', Go ad) -> activate a' config ad = (a'', g) ->
    tstep s (activate_otel ad seconds) (mkSys a'' (owner s) (used s) (enqueued s) rest (g :: guards s))
| t_expire t rest config :
    waiting s ≡ₚ t :: rest ->
    tstep s [] (mkSys (expire (sys_app s) config t).1 (owner s) (used s) (enqueued s) rest (guards s))
| t_abandon t rest :
    waiting s ≡ₚ t :: rest ->
    tstep s [] (mkSys (abandon (sys_app s) t) (owner s) (used s) (enqueued s) rest (guards s))
| t_dispatch g rest id loaded upstream envs a' kept f :
    guards s ≡ₚ g :: rest -> dispatch uuid_to_string (sys_app s) g id loaded upstream envs = (a', kept, f) ->
    tstep s (dispatch_otel g loaded upstream) (mkSys a' (owner s) (used s) (enqueued s) (waiting s) (option_list kept ++ rest))
| t_renew g envs :
    g ∈ guards s ->
    tstep s [] (mkSys (renew_leases (sys_app s) g envs) (owner s) (used s) (enqueued s) (waiting s) (guards s))
| t_complete g rest actual throttled envs :
    guards s ≡ₚ g :: rest ->
    tstep s (complete_otel g actual)
      (mkSys (complete (sys_app s) g actual throttled envs).1 (owner s) (used s) (enqueued s) (waiting s) rest)
| t_drop g rest envs :
    guards s ≡ₚ g :: rest ->
    tstep s (release_otel g) (mkSys (drop_guard (sys_app s) g envs).1 (owner s) (used s) (enqueued s) (waiting s) rest)
| t_reload replace_identity parse_yaml env file :
    let parsed := from_path parse_cidr parse_url parse_yaml env file in
    tstep s [] (mkSys (set_config (sys_app s) (reload replace_identity (app_config (sys_app s)) parsed).1)
                  (owner s) (used s) (enqueued s) (waiting s) (guards s))
| t_drain :
    tstep s [] (mkSys (begin_drain (sys_app s)) (owner s) (used s) (enqueued s) (waiting s) (guards s)).

Local Abbreviation step := (sstep parse_uuid uuid_to_string parse_cidr parse_url).

(** The measurements do not influence the proxy: [tstep] takes exactly the steps
    of [sstep]. *)
Lemma tstep_sstep s s' : step s s' <-> exists ms, tstep s ms s'.
Proof.
  split.
  - destruct 1; eexists; [eapply t_respond | eapply t_enqueue | eapply t_go with (seconds := f_zero) | eapply t_insert | eapply t_tick
      | eapply t_receive with (seconds := f_zero) | eapply t_expire | eapply t_abandon | eapply t_dispatch | eapply t_renew
      | eapply t_complete | eapply t_drop | eapply t_reload | eapply t_drain]; eassumption.
  - intros [ms []]; [eapply sys_respond | eapply sys_enqueue | eapply sys_go | eapply sys_insert | eapply sys_tick
      | eapply sys_receive | eapply sys_expire | eapply sys_abandon | eapply sys_dispatch | eapply sys_renew
      | eapply sys_complete | eapply sys_drop | eapply sys_reload | eapply sys_drain]; eassumption.
Qed.

(** [n] steps from the start, with the log of all measurements. *)
Inductive truns (config : Config) (k : K) : nat -> list Measurement -> Sys K -> Prop :=
| truns_start : truns config k 0 [] (start config k)
| truns_step n log s ms s' : truns config k n log s -> tstep s ms s' -> truns config k (S n) (log ++ ms) s'.

Lemma truns_runs config k n log s : truns config k n log s -> runs parse_uuid uuid_to_string parse_cidr parse_url config k n s.
Proof.
  induction 1 as [|n log s ms s' _ IH HT]; [constructor|]. eapply nsteps_r; [exact IH|]. apply tstep_sstep. by exists ms.
Qed.

(** ** Counting *)

(** The requests in flight whose class is selected. *)
Definition in_flight (select : Labels -> bool) (gs : list Guard) : Z :=
  zsum (fun g => if select (class_labels (g_class g)) then 1 else 0) gs.

#[local] Instance in_flight_perm select : Proper ((≡ₚ) ==> (=)) (in_flight select).
Proof. exact (zsum_perm _). Qed.

Lemma in_flight_cons select g gs :
  in_flight select (g :: gs) = (if select (class_labels (g_class g)) then 1 else 0) + in_flight select gs.
Proof. done. Qed.

Lemma in_flight_any gs : in_flight any_label gs = Z.of_nat (length gs).
Proof. induction gs as [|g gs IH]; [done|]. rewrite in_flight_cons, IH. cbn [any_label length]. lia. Qed.

(** What measurements add to the active gauge, to the throttles, to the
    admissions and to the requests. *)
Record tally ms (active : (Labels -> bool) -> Z) (throttles admissions requests : Z) : Prop := mkTally {
  tl_active : forall select, counter Active select ms = active select;
  tl_throttles : counter Throttles any_label ms = throttles;
  tl_admissions : samples AdmissionLatency ms = admissions;
  tl_requests : counter Requests any_label ms = requests
}.

Local Abbreviation class_delta d c := (fun select : Labels -> bool => if select (class_labels c) then d else 0).
Local Abbreviation no_delta := (fun _ : Labels -> bool => 0).

Ltac by_select := intros select; cbn; match goal with |- context [select ?l] => by destruct (select l) end.

Lemma tally_app ms1 ms2 f1 f2 t1 t2 (n1 n2 : Z) r1 r2 : tally ms1 f1 t1 n1 r1 -> tally ms2 f2 t2 n2 r2 ->
  tally (ms1 ++ ms2) (fun select => f1 select + f2 select) (t1 + t2) (n1 + n2) (r1 + r2).
Proof. intros [A1 B1 C1 D1] [A2 B2 C2 D2]. split; intros; rewrite ?counter_app, ?samples_app, ?A1, ?A2; lia. Qed.

Lemma tally_nil : tally [] no_delta 0 0 0.
Proof. done. Qed.

(** A request that has only been received moves nothing but the requests. *)
Lemma start_tally a inc envs : exists r, tally (start_otel a inc envs) no_delta 0 0 r /\ 0 <= r <= if draining a then 0 else 1.
Proof.
  exists (counter Requests any_label (start_otel a inc envs)). unfold start_otel, admit_otel.
  repeat case_match; (split; [done | first [change (0 <= 1 <= 1) | change (0 <= 0 <= 1) | change (0 <= 0 <= 0)]; lia]).
Qed.

Lemma activate_tally ad seconds :
  tally (activate_otel ad seconds) (class_delta 1 (class_to_string (effective_class (ad_request ad)))) 0 1 0.
Proof. unfold activate_otel. destruct (0 <? _); split; try done; by_select. Qed.

Lemma release_tally g : counted_active g = true -> tally (release_otel g) (class_delta (-1) (g_class g)) 0 0 0.
Proof. intros E. unfold release_otel. rewrite E. split; try done. by_select. Qed.

Lemma complete_tally g actual : counted_active g = true -> tally (complete_otel g actual) (class_delta (-1) (g_class g)) 0 0 0.
Proof.
  intros E. pose proof (release_tally g E) as R. unfold complete_otel. destruct (g_leases g), actual as [act|]; try exact R.
  assert (R0 : tally (otel_reconciliation (wu (normalized_units (g_estimate g))) (wu (normalized_units act)) (g_class g)) no_delta 0 0 0)
    by (unfold otel_reconciliation; case_match; done).
  exact (tally_app _ _ _ _ _ _ _ _ _ _ R0 R).
Qed.

(** ** The counters of the management plane *)

Abbreviation admitted_of a := (m_admitted (app_metrics a)).
Abbreviation throttles_of a := (m_provider_throttles (app_metrics a)).
Abbreviation requests_of a := (m_requests (app_metrics a)).

(** The counters these steps leave alone. *)
Definition same_counters a a' : Prop :=
  admitted_of a' = admitted_of a /\ throttles_of a' = throttles_of a /\ requests_of a' = requests_of a.

Lemma on_pool_metrics a p f : app_metrics (on_pool a p f) = app_metrics a.
Proof. unfold on_pool. by case_match. Qed.

Lemma release_local_counters a g : same_counters a (release_local a g).1.
Proof. unfold release_local. by repeat case_match. Qed.

Lemma drop_counters a g envs : same_counters a (drop_guard a g envs).1.
Proof.
  unfold drop_guard. match goal with |- same_counters _ (release_local ?x ?y).1 => destruct (release_local_counters x y) as (E1 & E2 & E3) end.
  unfold same_counters. rewrite E1, E2, E3. case_match; [|done]. cbn. by rewrite on_pool_metrics.
Qed.

Lemma complete_counters a g actual b envs : same_counters a (complete a g actual b envs).1.
Proof.
  unfold complete. match goal with |- context [release_local ?x ?y] => pose proof (release_local_counters x y) as (E1 & E2 & E3);
    destruct (release_local x y) as [a1 g1] end.
  destruct (drop_counters a1 g1 envs) as (D1 & D2 & D3). unfold same_counters. rewrite D1, D2, D3. cbn in E1, E2, E3. rewrite E1, E2, E3.
  case_match; [|done]. by rewrite on_pool_metrics.
Qed.

Lemma requeue_counters a id p now elapsed : same_counters a (requeue a id p now elapsed).
Proof. unfold requeue. by case_match. Qed.

Lemma tick_counters a envs undo now clock a' : dispatcher_tick a envs undo now clock = Returns a' -> same_counters a a'.
Proof.
  unfold dispatcher_tick. intros E. repeat case_match; simplify_eq; try done; rewrite ?on_pool_metrics;
    try (match goal with |- same_counters _ (requeue ?x ?i ?p ?n ?e) =>
      destruct (requeue_counters x i p n e) as (R1 & R2 & R3); unfold same_counters; rewrite R1, R2, R3 end);
    unfold same_counters, release_leases; cbn; rewrite ?on_pool_metrics; cbn; by rewrite ?on_pool_metrics.
Qed.

Lemma admit_counters a config app pool class r body envs now ch :
  same_counters a (admit_request uuid_to_string a config app pool class r body envs now ch).1.
Proof.
  unfold admit_request, same_counters, reject_and_record. repeat case_match; simplify_eq/=; by rewrite ?on_pool_metrics.
Qed.

Lemma handle_counters a inc envs now ch a' stage : handle a inc envs now ch = Returns (a', stage) ->
  admitted_of a' = admitted_of a /\ throttles_of a' = throttles_of a /\
  requests_of a' = if draining a then requests_of a else wadd (requests_of a) 1.
Proof.
  unfold handle_start. destruct (draining a); [by intros [= <- <-]|]. intros E.
  repeat case_match; simplify_eq; try done.
  match goal with E : admit_request _ ?x ?c ?ap ?p ?cl ?r ?b ?e ?n ?h = _ |- _ =>
    pose proof (admit_counters x c ap p cl r b e n h) as C; rewrite E in C end. exact C.
Qed.

(** ** Every step *)

(** A counter that a step leaves alone or increments. *)
Definition bumped (before after d : Z) : Prop := d = 0 /\ after = before \/ d = 1 /\ after = wadd before 1.

Lemma bumped_0 x : bumped x x 0.
Proof. by left. Qed.
Lemma bumped_1 x : bumped x (wadd x 1) 1.
Proof. by right. Qed.

Record step_tally s ms s' : Prop := mkStepTally {
  st_active : forall select, counter Active select ms = in_flight select (guards s') - in_flight select (guards s);
  st_throttles : bumped (throttles_of (sys_app s)) (throttles_of (sys_app s')) (counter Throttles any_label ms);
  st_admitted : bumped (admitted_of (sys_app s)) (admitted_of (sys_app s')) (samples AdmissionLatency ms);
  st_requests : exists d, bumped (requests_of (sys_app s)) (requests_of (sys_app s')) d /\ 0 <= counter Requests any_label ms <= d
}.

(** Steps whose counters agree with the tally of their measurements. *)
Lemma tallied s s' ms active t n r d :
  tally ms active t n r -> (forall select, active select = in_flight select (guards s') - in_flight select (guards s)) ->
  bumped (throttles_of (sys_app s)) (throttles_of (sys_app s')) t ->
  bumped (admitted_of (sys_app s)) (admitted_of (sys_app s')) n ->
  bumped (requests_of (sys_app s)) (requests_of (sys_app s')) d -> 0 <= r <= d ->
  step_tally s ms s'.
Proof. intros [A B C D] E H1 H2 H3 H4. split; [intros; by rewrite A | by rewrite B | by rewrite C |]. exists d. rewrite D. auto. Qed.

(** The same for a guard that ends. *)
Lemma ended_tally s g rest ms a' (own : gmap N AdmissionRequest) : guards s ≡ₚ g :: rest -> tally ms (class_delta (-1) (g_class g)) 0 0 0 ->
  same_counters (sys_app s) a' -> step_tally s ms (mkSys a' own (used s) (enqueued s) (waiting s) rest).
Proof.
  intros HP HT (E1 & E2 & E3). eapply (tallied s _ ms _ 0 0 0 0 HT); cbn [sys_app guards]; rewrite ?E1, ?E2, ?E3; try apply bumped_0; [|lia].
  intros select. rewrite HP, in_flight_cons. destruct (select _); lia.
Qed.

Lemma quiet_tally s a' own ids enq wait gs : gs ≡ₚ guards s -> same_counters (sys_app s) a' ->
  step_tally s [] (mkSys a' own ids enq wait gs).
Proof.
  intros HP (E1 & E2 & E3). eapply (tallied s _ [] _ 0 0 0 0 tally_nil); cbn [sys_app guards]; rewrite ?E1, ?E2, ?E3; try apply bumped_0; [|lia].
  intros select. rewrite HP. lia.
Qed.

Lemma started_tally s a' own ids enq inc envs now ch stage : handle (sys_app s) inc envs now ch = Returns (a', stage) ->
  step_tally s (start_otel (sys_app s) inc envs) (mkSys a' own ids enq (waiting s) (guards s)).
Proof.
  intros (E1 & E2 & E3)%handle_counters. destruct (start_tally (sys_app s) inc envs) as (r & HT & Hr).
  eapply (tallied s _ _ _ 0 0 r (if draining (sys_app s) then 0 else 1) HT); cbn [sys_app guards]; rewrite ?E1, ?E2, ?E3;
    try apply bumped_0; [lia | destruct (draining _); [apply bumped_0 | apply bumped_1] | done].
Qed.

(** A permit that turns into a guard, after measurements that moved nothing but
    the requests. *)
Lemma activated_tally s ms r d a' config ad a'' g seconds own ids enq wait :
  tally ms no_delta 0 0 r -> 0 <= r <= d -> bumped (requests_of (sys_app s)) (requests_of a') d ->
  admitted_of a' = admitted_of (sys_app s) -> throttles_of a' = throttles_of (sys_app s) ->
  activate a' config ad = (a'', g) ->
  step_tally s (ms ++ activate_otel ad seconds) (mkSys a'' own ids enq wait (g :: guards s)).
Proof.
  intros HT Hr HB E1 E2. unfold activate. intros [= <- <-].
  eapply (tallied s _ _ _ _ _ _ d (tally_app _ _ _ _ _ _ _ _ _ _ HT (activate_tally ad seconds))); cbn [sys_app guards]; rewrite ?in_flight_cons;
    [intros select; rewrite in_flight_cons; cbn; destruct (select _); lia | cbn; rewrite ?E1, ?E2..]; [apply bumped_0 | apply bumped_1 | done | lia].
Qed.

Lemma tstep_tally s ms s' : Forall (fun g => counted_active g = true) (guards s) -> tstep s ms s' -> step_tally s ms s'.
Proof.
  intros HG. destruct 1 as [inc envs now ch a' r Hf E | inc envs now ch a' t Hf Hc Hr Hb E | inc envs now ch a' ad a'' g seconds Hf E EA
    | t rest now HP | envs undo now clock a' Hf _ E | t rest age a' ad config a'' g seconds HP E EA | t rest config HP | t rest HP
    | g rest id loaded upstream envs a' kept f HP E | g envs Hg | g rest actual throttled envs HP | g rest envs HP
    | replace_identity parse_yaml env file parsed |].
  - by eapply started_tally.
  - by eapply started_tally.
  - pose proof (handle_counters _ _ _ _ _ _ _ E) as (E1 & E2 & E3). destruct (start_tally (sys_app s) inc envs) as (r & HT & Hr).
    eapply activated_tally; [exact HT | exact Hr | rewrite E3 | done..]. destruct (draining _); [apply bumped_0 | apply bumped_1].
  - by apply quiet_tally.
  - apply quiet_tally; [done | by eapply tick_counters].
  - eapply (activated_tally s [] 0 0 a'); [apply tally_nil | lia | | | | exact EA]; unfold receive in E;
      destruct (delivered (sys_app s) !! tk_channel t); simplify_eq/=; [apply bumped_0 | done..].
  - by apply quiet_tally.
  - by apply quiet_tally.
  - rewrite HP in HG. apply Forall_cons in HG as [HG _]. unfold dispatch in E. unfold dispatch_otel.
    destruct loaded; [destruct upstream as [response|e]|]; simplify_eq/=;
      [| apply (ended_tally s g); [done | by apply release_tally | apply drop_counters]..].
    destruct (up_status response =? 429).
    + eapply (tallied s _ _ no_delta 1 0 0 0); cbn [sys_app guards]; try apply bumped_0; [done | | apply bumped_1 | lia].
      intros select. rewrite HP. cbn. lia.
    + by apply quiet_tally.
  - apply quiet_tally; [done|]. unfold renew_leases. by case_match.
  - rewrite HP in HG. apply Forall_cons in HG as [HG _].
    apply (ended_tally s g); [done | by apply complete_tally | apply complete_counters].
  - rewrite HP in HG. apply Forall_cons in HG as [HG _]. apply (ended_tally s g); [done | by apply release_tally | apply drop_counters].
  - by apply quiet_tally.
  - by apply quiet_tally.
Qed.

(** ** Labels *)

Definition PROVIDER_NAMES : list string :=
  adapter_name_of <$> [AzureOpenai; AwsBedrock; GcpVertex; OpenaiCompatible; Fake; ExternalGrpc].

Definition of_class (c : string) : Prop := exists k, c = class_to_string k.
Definition known_labels ms : Prop := Forall (fun m => m_labels m ∈ label_sets PROVIDER_NAMES) ms.

Lemma class_labels_known c : of_class c -> class_labels c ∈ label_sets PROVIDER_NAMES.
Proof. intros [k ->]. right. apply elem_of_app. left. apply (list_elem_of_fmap_2 (class_labels ∘ class_to_string)). destruct k; set_solver. Qed.

Lemma provider_labels_known k : provider_labels (adapter_name_of k) ∈ label_sets PROVIDER_NAMES.
Proof. right. apply elem_of_app. right. do 2 apply list_elem_of_fmap_2. destruct k; set_solver. Qed.

Ltac each_known := repeat first [apply Forall_nil_2 | apply Forall_cons_2].

Lemma start_known a inc envs : known_labels (start_otel a inc envs).
Proof.
  unfold start_otel, admit_otel, known_labels. repeat case_match; cbn [app otel_request otel_coordinator_failure];
    each_known; first [apply class_labels_known; by eexists | by left].
Qed.

Lemma activate_known ad seconds : known_labels (activate_otel ad seconds).
Proof.
  unfold activate_otel, known_labels. case_match; each_known; cbn; apply class_labels_known; by eexists.
Qed.

Lemma release_known g : of_class (g_class g) -> known_labels (release_otel g).
Proof. intros C. unfold release_otel. case_match; each_known. by apply class_labels_known. Qed.

Lemma complete_known g actual : of_class (g_class g) -> known_labels (complete_otel g actual).
Proof.
  intros C. unfold complete_otel. apply Forall_app. split; [|by apply release_known].
  unfold otel_reconciliation. repeat case_match; each_known; by apply class_labels_known.
Qed.

Lemma tstep_known s ms s' : Forall (fun g => of_class (g_class g)) (guards s) -> tstep s ms s' ->
  known_labels ms /\ Forall (fun g => of_class (g_class g)) (guards s').
Proof.
  intros HG. assert (HR : forall g rest, guards s ≡ₚ g :: rest -> of_class (g_class g) /\ Forall (fun g => of_class (g_class g)) rest)
    by (intros g rest HP; rewrite HP in HG; by apply Forall_cons in HG).
  assert (HA : forall (a : App K) config ad a' g, activate a config ad = (a', g) -> of_class (g_class g))
    by (intros a config ad a' g; unfold activate; intros [= _ <-]; by eexists).
  destruct 1; cbn [guards]; try (split; [|done]); try (by constructor); try apply start_known.
  - split; [apply Forall_app; split; [apply start_known | apply activate_known] | constructor; eauto].
  - split; [apply activate_known | constructor; eauto].
  - destruct (HR _ _ H1) as [Hg Hr]. unfold dispatch in H2. unfold dispatch_otel. branches; split; try done;
      try (by apply release_known); try (by constructor). each_known. apply provider_labels_known.
  - destruct (HR _ _ H1). split; [by apply complete_known | done].
  - destruct (HR _ _ H1). split; [by apply release_known | done].
Qed.

(** ** Runs *)

Lemma bumped_le before after d x n : bumped before after d -> before = x -> 0 <= x <= n -> n < U64_MAX ->
  after = x + d /\ 0 <= x + d <= n + 1.
Proof. intros [[-> ->] | [-> ->]] -> Hx Hn; [lia|]. rewrite wadd_id by int64. lia. Qed.

Lemma bumped_range before after d n : bumped before after d -> 0 <= before <= n -> n < U64_MAX -> after = before + d /\ 0 <= d <= 1.
Proof. intros [[-> ->] | [-> ->]] Hx Hn; [lia|]. rewrite wadd_id by int64. lia. Qed.

Record log_inv (n : Z) log s : Prop := mkLogInv {
  li_active : forall select, counter Active select log = in_flight select (guards s);
  li_throttles : throttles_of (sys_app s) = counter Throttles any_label log /\ 0 <= counter Throttles any_label log <= n;
  li_admitted : admitted_of (sys_app s) = samples AdmissionLatency log /\ 0 <= samples AdmissionLatency log <= n;
  li_requests : 0 <= counter Requests any_label log <= requests_of (sys_app s) /\ requests_of (sys_app s) <= n
}.

Lemma log_inv_step n log s ms s' : log_inv n log s -> n < U64_MAX -> step_tally s ms s' -> log_inv (n + 1) (log ++ ms) s'.
Proof.
  intros [A [T1 T2] [D1 D2] R] Hn [A' T' D' (d & R' & L)]. split; rewrite ?counter_app, ?samples_app.
  - intros select. rewrite counter_app, A, A'. lia.
  - by eapply bumped_le.
  - by eapply bumped_le.
  - destruct (bumped_range _ _ _ n R') as [-> Hd]; lia.
Qed.

Lemma truns_log_inv config k n log s : startable parse_cidr parse_url config -> Z.of_nat n <= U64_MAX ->
  truns config k n log s -> log_inv (Z.of_nat n) log s.
Proof.
  intros HS Hn HT. induction HT as [|n log s ms s' HT IH Hs].
  - by split.
  - assert (Hn' : Z.of_nat n <= U64_MAX) by lia.
    rewrite Nat2Z.inj_succ. apply (log_inv_step _ _ s); [by apply IH | lia |]. apply tstep_tally; [|done].
    pose proof (runs_inv _ _ _ _ _ _ _ _ HS Hn' (truns_runs _ _ _ _ _ HT)) as [_ _ _ _ _ HG _ _].
    eapply Forall_impl; [exact HG|]. by intros ? [].
Qed.

(** C36: Two metric systems, one proxy: under every interleaving, what an
    OpenTelemetry backend adds up agrees with the state and with the counters
    of the management plane.  For every selection of labels, so for each
    service class, the active gauge is the number of requests in flight of the
    selected classes; its total is the gauge of the metrics page; throttles and
    admissions are the page's; requests are at most the page's, which counts
    them before they are estimated. *)
Theorem telemetry_agrees config k n log s :
  startable parse_cidr parse_url config -> Z.of_nat n <= U64_MAX -> truns config k n log s ->
  (forall select, counter Active select log = in_flight select (guards s)) /\
  counter Active any_label log = m_active (app_metrics (sys_app s)) /\
  counter Throttles any_label log = m_provider_throttles (app_metrics (sys_app s)) /\
  samples AdmissionLatency log = m_admitted (app_metrics (sys_app s)) /\
  counter Requests any_label log <= m_requests (app_metrics (sys_app s)).
Proof.
  intros HS Hn HT. destruct (truns_log_inv config k n log s HS Hn HT) as [A [T _] [D _] R].
  pose proof (runs_inv _ _ _ _ _ _ _ _ HS Hn (truns_runs _ _ _ _ _ HT)) as [_ _ _ _ _ _ HA _].
  split_and!; [done | | done | done | lia]. by rewrite HA, A, in_flight_any.
Qed.

(** Telemetry has bounded cardinality: whatever clients, tenants,
    applications and pools there are, the labels of every measurement the proxy
    ever makes are one of twelve sets. *)
Theorem telemetry_labels_bounded config k n log s : truns config k n log s ->
  Forall (fun m => m_labels m ∈ label_sets PROVIDER_NAMES) log /\ length (label_sets PROVIDER_NAMES) = 12%nat.
Proof.
  intros HT. split; [|done].
  assert (HK : known_labels log /\ Forall (fun g => of_class (g_class g)) (guards s)); [|apply HK].
  induction HT as [|n log s ms s' HT [HK HG] Hs]; [split; apply Forall_nil_2|].
  destruct (tstep_known s ms s' HG Hs). split; [by apply Forall_app | done].
Qed.
End otel.

(** The measurements of a finished request are numbers, and its relative error
    is at least -1, when the adapter's amounts are sound. *)
Lemma reconciliation_range est act class x : sound est -> sound act ->
  mkMeasurement EstimationError (RecordF64 x) (class_labels class) ∈
    otel_reconciliation (wu (normalized_units est)) (wu (normalized_units act)) class ->
  num x /\ - ONE <= ext x.
Proof.
  intros [Ne Fe] [Na Fa]. unfold otel_reconciliation. rewrite elem_of_cons. destruct (f_gt _ _) eqn:P; [|set_solver].
  intros [[=] | [[= ->] | []%not_elem_of_nil]%elem_of_cons].
  by destruct (relative_error_range _ _ Ne Fe Na Fa P) as (? & ? & _).
Qed.

(** ** A run with one admitted request *)

Definition ex_kind (_ : string) : ProviderKind := Fake.
Definition ex_log : list Measurement := start_otel no_uuid (sys_app ex_start) ex_incoming ex_envs ++ activate_otel ex_admitted f_one.

Lemma ex_truns : truns no_uuid hex any_cidr no_url ex_kind ex_config ∅ 1 ex_log ex_sys.
Proof.
  refine (truns_step _ _ _ _ _ _ _ 0 [] ex_start ex_log ex_sys _ _); [apply truns_start|].
  refine (t_go _ _ _ _ _ ex_start ex_incoming ex_envs 0 7%N ex_handled.1 ex_admitted _ _ f_one _ _ _).
  - unfold fresh_lease. cbn. apply not_elem_of_empty.
  - vm_compute. reflexivity.
  - unfold ex_active. apply surjective_pairing.
Qed.

Lemma telemetry_agrees_witness :
  (forall select, counter Active select ex_log = in_flight select (guards ex_sys)) /\
  counter Active any_label ex_log = m_active (app_metrics (sys_app ex_sys)) /\
  counter Throttles any_label ex_log = m_provider_throttles (app_metrics (sys_app ex_sys)) /\
  samples AdmissionLatency ex_log = m_admitted (app_metrics (sys_app ex_sys)) /\
  counter Requests any_label ex_log <= m_requests (app_metrics (sys_app ex_sys)).
Proof.
  apply (telemetry_agrees no_uuid hex any_cidr no_url ex_kind ex_config ∅ 1 ex_log ex_sys);
    [apply ex_startable | vm_compute; congruence | apply ex_truns].
Defined.

Lemma telemetry_labels_bounded_witness :
  Forall (fun m => m_labels m ∈ label_sets PROVIDER_NAMES) ex_log /\ length (label_sets PROVIDER_NAMES) = 12%nat.
Proof. apply (telemetry_labels_bounded no_uuid hex any_cidr no_url ex_kind ex_config ∅ 1 ex_log ex_sys), ex_truns. Defined.

Example ex_gauge : counter Active (labelled (class_labels "standard")) ex_log = 1.
Proof. vm_compute. reflexivity. Qed.
