(* ===== verification/Protocol.v ===== *)
(** * External providers over gRPC (crates/provider-protocol)

    [ExternalProviderClient]: the rules of its connections, the translation of
    requests and estimates, and the relay of a response stream; the example
    adapter of the crate as a server to run it against.  It is a second
    instance of [ProviderAdapter] and [AdapterLaws].

    The messages are the records generated from the crate's protocol file; the
    transport is the record [GrpcEnv] of what the other side answers. *)

From stdpp Require Import base gmap strings countable list.
From Stdlib Require Import ZArith Lia SpecFloat.
From S2P Require Import Prelude Web Json F64 F64Facts Core Adapter.

Open Scope Z_scope.

(** ** Messages *)

Record WireEstimate : Type := mkWireEstimate {
  w_input : Z;
  w_output : Z;
  w_cached : Z;
  w_units : f64;
  w_confidence : f32;
  w_source : string;
  w_coefficient : f64
}.
Record EstimateRequest : Type := mkEstimateRequest {
  er_method : string; er_path : string; er_headers : gmap string string; er_body : Bytes
}.
Record DispatchRequest : Type := mkDispatchRequest {
  dr_request_id : string; dr_method : string; dr_path : string; dr_headers : gmap string string; dr_body : Bytes
}.
Record DispatchResponse : Type := mkDispatchResponse {
  c_status : Z; (** a [u32] *)
  c_headers : gmap string string;
  c_data : Bytes;
  c_end : bool;
  c_usage : option WireEstimate
}.
Record HealthResponse : Type := mkHealthResponse { h_healthy : bool; h_detail : string }.

Definition protocol {A} (r : result string A) : result CoreError A :=
  match r with Ok a => Ok a | Err e => Err (Provider e) end.

(** [from_wire]. *)
Definition from_wire (v : WireEstimate) : result CoreError WorkEstimate :=
  if negb (is_finite (w_units v)) || f_lt (w_units v) f_zero || negb (f32_in_unit (w_confidence v))
  then Err (Provider "external adapter returned an invalid work estimate")
  else
    let source :=
      if String.eqb (w_source v) "exact_tokenizer" then ExactTokenizer
      else if String.eqb (w_source v) "compatible_tokenizer" then CompatibleTokenizer
      else if String.eqb (w_source v) "trusted_client" then TrustedClient
      else if String.eqb (w_source v) "provider_metadata" then ProviderMetadata
      else Approximation in
    Ok {| input_tokens := w_input v; output_tokens := w_output v; cached_input_tokens := w_cached v;
          provider_cost_coefficient := w_coefficient v; normalized_units := mkWorkUnits (w_units v);
          confidence := w_confidence v; source := source |}.

(** ** Connections *)

Inductive AdapterEndpoint : Type :=
| UnixSocket (path : string)
| TlsEndpoint (uri domain ca_pem : string) (client_cert_pem client_key_pem : option string)
| LoopbackEndpoint (uri : string).

Record TlsConfig : Type := mkTlsConfig {
  domain_name : string;
  ca_certificate : Bytes;
  identity_pem : option (Bytes * Bytes)
}.

(** How the channel reaches the adapter. *)
Inductive Channel : Type :=
| OverUnix (path : string)
| Plaintext (uri : string)
| OverTls (uri : string) (config : TlsConfig).

Record ConnectEnv : Type := mkConnectEnv {
  unix : bool; (** the platform has Unix sockets *)
  uri_host : string -> result string (option string); (** [Uri::from_str], then [Uri::host] *)
  read_file : string -> result string Bytes;
  from_shared : string -> result string unit; (** [Endpoint::from_shared] *)
  tls_accepted : TlsConfig -> result string unit; (** [Endpoint::tls_config] *)
  connected : Channel -> result string unit
}.

Definition LOOPBACK : list string := ["localhost"; "127.0.0.1"; "::1"]%string.

(** [ExternalProviderClient::connect] and [connect_unix]. *)
Definition connect (e : ConnectEnv) (endpoint : AdapterEndpoint) : result CoreError Channel :=
  match endpoint with
  | UnixSocket path =>
      if negb (unix e) then Err (Provider "Unix-socket external adapters are not supported on this platform; use loopback or TLS")
      else let? _ := protocol (connected e (OverUnix path)) in Ok (OverUnix path)
  | LoopbackEndpoint uri =>
      let? host := protocol (uri_host e uri) in
      match host with
      | None => Err (Provider "adapter URI has no host")
      | Some host =>
          if negb (bool_decide (host ∈ LOOPBACK)) then Err (Provider "plaintext external adapters are restricted to loopback")
          else
            let? _ := protocol (from_shared e uri) in
            let? _ := protocol (connected e (Plaintext uri)) in
            Ok (Plaintext uri)
      end
  | TlsEndpoint uri domain ca_pem cert key =>
      if negb (Bool.eqb (bool_decide (is_Some cert)) (bool_decide (is_Some key)))
      then Err (Provider "external adapter mTLS requires both client certificate and key")
      else
        let? ca := protocol (read_file e ca_pem) in
        let? identity :=
          match cert, key with
          | Some cert, Some key =>
              let? c := protocol (read_file e cert) in
              let? k := protocol (read_file e key) in
              Ok (Some (c, k))
          | _, _ => Ok None
          end in
        let config := mkTlsConfig domain ca identity in
        let? _ := protocol (from_shared e uri) in
        let? _ := protocol (tls_accepted e config) in
        let? _ := protocol (connected e (OverTls uri config)) in
        Ok (OverTls uri config)
  end.

(** ** The client *)

Definition UNSAFE_HEADERS : list string := ["authorization"; "api-key"; "cookie"; "set-cookie"]%string.

Section client.
Context {HL : HttpLib} {HO : HashOrder}.

(** [safe_headers]: of several values of a name the last stays. *)
Definition safe_headers (headers : list (string * string)) : gmap string string :=
  fold_left (fun m h => match header_str h.2 with Some v => <[h.1 := v]> m | None => m end)
    (filter (fun h => h.1 ∉ UNSAFE_HEADERS) headers) ∅.

(** [header_map], in the order of the [HashMap]. *)
Fixpoint collect_headers (l : list (string * string)) : result CoreError (list (string * string)) :=
  match l with
  | [] => Ok []
  | (n, v) :: rest =>
      match header_name n with
      | None => Err (Provider "invalid HTTP header name")
      | Some name =>
          match header_value v with
          | None => Err (Provider "failed to parse header value")
          | Some value => let? rest := collect_headers rest in Ok ((name, value) :: rest)
          end
      end
  end.
Definition header_map (values : gmap string string) : result CoreError (list (string * string)) := collect_headers (hash_iter values).

(** [StatusCode::from_u16] of the status cast to a [u16]. *)
Definition status_of (status : Z) : result CoreError Z :=
  let code := status mod 2 ^ 16 in
  if (100 <=? code) && (code <=? 999) then Ok code else Err (Provider "invalid status code").

(** The loop of the spawned task: what it sends while the client takes [room]
    messages, and the usages it publishes.  A failed stream ends it like a
    finished one. *)
Fixpoint relay_chunks (room : nat) (stream : list (result string DispatchResponse)) {struct stream} :
    list (result CoreError Bytes) * list (option WorkEstimate) :=
  match stream with
  | Ok chunk :: rest =>
      let usage := match c_usage chunk with
                   | Some v => match from_wire v with Ok u => [Some u] | Err _ => [] end
                   | None => []
                   end in
      match c_data chunk, room with
      | [], _ => if c_end chunk then ([], usage)
                 else let '(sent, us) := relay_chunks room rest in (sent, usage ++ us)
      | _ :: _, O => ([], usage)
      | data, S room => if c_end chunk then ([Ok data], usage)
                        else let '(sent, us) := relay_chunks room rest in (Ok data :: sent, usage ++ us)
      end
  | _ => ([], [])
  end.

(** The spawned task from the first message on. *)
Definition relay_external (room : nat) (first : DispatchResponse) (stream : list (result string DispatchResponse)) :
    list (result CoreError Bytes) * list (option WorkEstimate) :=
  match c_data first, room with
  | [], _ => relay_chunks room stream
  | _ :: _, O => ([], [])
  | data, S room => let '(sent, us) := relay_chunks room stream in (Ok data :: sent, us)
  end.

Record GrpcEnv : Type := mkGrpcEnv {
  rpc_estimate : EstimateRequest -> result string WireEstimate;
  rpc_dispatch : DispatchRequest -> result string (list (result string DispatchResponse));
  rpc_health : result string HealthResponse;
  grpc_room : nat
}.

Definition external_estimate (e : GrpcEnv) (request : ProxyRequest) : result CoreError WorkEstimate :=
  let? response := protocol (rpc_estimate e (mkEstimateRequest (method request) (uri request) (safe_headers (headers request)) (body request))) in
  from_wire response.

Definition external_dispatch (e : GrpcEnv) (request : ProxyRequest) : result CoreError ProviderResponse :=
  let request_id := default EmptyString (header_get (headers request) "x-inferqos-request-id" ≫= header_str) in
  let? stream := protocol (rpc_dispatch e
    (mkDispatchRequest request_id (method request) (uri request) (safe_headers (headers request)) (body request))) in
  match stream with
  | [] => Err (Provider "external adapter returned an empty stream")
  | Err m :: _ => Err (Provider m)
  | Ok first :: rest =>
      let? status := status_of (c_status first) in
      let? hs := header_map (c_headers first) in
      let? usage := match c_usage first with
                    | Some v => let? u := from_wire v in Ok (Some u)
                    | None => Ok None
                    end in
      let '(sent, us) := relay_external (grpc_room e) first rest in
      Ok (mkProviderResponse status hs sent (usage :: us))
  end.

Definition external_health (e : GrpcEnv) : result CoreError UpstreamHealth :=
  let? response := protocol (rpc_health e) in Ok (mkUpstreamHealth (h_healthy response) (h_detail response)).

#[export] Instance ExternalAdapter : ProviderAdapter Channel GrpcEnv := {
  adapter_name _ := "external-grpc"%string;
  adapter_estimate _ := external_estimate;
  adapter_dispatch _ := external_dispatch;
  adapter_health _ := external_health
}.
End client.

(** ** The example adapter (bin/example_adapter.rs) *)

Section example.
Context (json_text : Value -> Bytes). (** [Value::to_string] *)

Definition example_estimate (r : EstimateRequest) : WireEstimate :=
  let input := Z.max (byte_len (er_body r) / 4) 1 in
  mkWireEstimate input 32 0 (f_of_Z (wadd input 32)) (f32_lit 1 2) "approximation" f_one.

Definition example_body (request_id : string) : Value :=
  Obj [("id", Str (String.list_ascii_of_string request_id)); ("object", Str (String.list_ascii_of_string "chat.completion"));
       ("choices", Arr [Obj [("message", Obj [("role", Str (String.list_ascii_of_string "assistant"));
                                              ("content", Str (String.list_ascii_of_string "external provider protocol is live"))])]]);
       ("usage", Obj [("prompt_tokens", Num (PosInt 8)); ("completion_tokens", Num (PosInt 6)); ("total_tokens", Num (PosInt 14))])]%string.

Definition example_dispatch (r : DispatchRequest) : list (result string DispatchResponse) :=
  [Ok (mkDispatchResponse 200 {["content-type"%string := "application/json"%string]} (json_text (example_body (dr_request_id r))) true
         (Some (mkWireEstimate 8 6 0 (f_of_Z 14) (f32_lit 1 1) "provider_metadata" f_one)))].

Definition example_health : HealthResponse := mkHealthResponse true "example adapter ready".

(** The client of the example adapter. *)
Definition example_env (room : nat) : GrpcEnv :=
  mkGrpcEnv (fun r => Ok (example_estimate r)) (fun r => Ok (example_dispatch r)) (Ok example_health) room.
End example.

(** ** Properties *)

Lemma from_wire_ok v est : from_wire v = Ok est ->
  wu (normalized_units est) = w_units v /\ is_finite (w_units v) = true /\ f_lt (w_units v) f_zero = false /\
  f32_in_unit (w_confidence v) = true /\ input_tokens est = w_input v /\ cached_input_tokens est = w_cached v /\ confidence est = w_confidence v.
Proof.
  unfold from_wire. destruct (is_finite _) eqn:F; cbn; [|done]. destruct (f_lt _ _) eqn:L; cbn; [done|].
  destruct (f32_in_unit _) eqn:C; cbn; [|done]. intros [= <-]. done.
Qed.

Lemma from_wire_sound v est : valid (w_units v) -> from_wire v = Ok est -> sound est.
Proof. intros V (E & F & L & _)%from_wire_ok. apply finite_not_negative; by rewrite E. Qed.

(** Every double in an adapter's answers is a double. *)
Definition wire_ok (e : GrpcEnv) : Prop :=
  (forall r v, rpc_estimate e r = Ok v -> valid (w_units v)) /\
  (forall r stream, rpc_dispatch e r = Ok stream ->
     Forall (fun m => forall c v, m = Ok c -> c_usage c = Some v -> valid (w_units v)) stream).

Lemma relay_chunks_sound room stream :
  Forall (fun m => forall c v, m = Ok c -> c_usage c = Some v -> valid (w_units v)) stream ->
  Forall (fun u => forall est, u = Some est -> sound est) (relay_chunks room stream).2.
Proof.
  intros HV. revert room. induction HV as [|m stream Hm HV IH]; intros room; [by apply Forall_nil|]. cbn.
  destruct m as [chunk|]; [|by apply Forall_nil].
  set (usage := match c_usage chunk with Some v => _ | None => _ end).
  assert (HU : Forall (fun u => forall est, u = Some est -> sound est) usage).
  { subst usage. destruct (c_usage chunk) as [v|] eqn:E; [|by apply Forall_nil]. destruct (from_wire v) as [u|] eqn:Ew; [|by apply Forall_nil].
    apply Forall_singleton. intros est [= <-]. eapply from_wire_sound; [|done]. by eapply Hm. }
  destruct (c_data chunk) as [|b data], room as [|room]; try done; destruct (c_end chunk); try done;
    match goal with |- context [relay_chunks ?n stream] => specialize (IH n); destruct (relay_chunks n stream) as [sent us] end;
    cbn in *; by apply Forall_app.
Qed.

Section laws.
Context {HL : HttpLib} {HO : HashOrder}.

Lemma external_estimate_sound (p : Channel) e r est : True -> wire_ok e -> external_estimate e r = Ok est -> sound est.
Proof.
  intros _ [V _]. unfold external_estimate. destruct (rpc_estimate e _) as [v|] eqn:E; cbn; [|done]. by apply from_wire_sound, (V _ _ E).
Qed.

Lemma external_usage_sound (p : Channel) e r resp : True -> wire_ok e -> external_dispatch e r = Ok resp ->
  Forall (fun u => forall est, u = Some est -> sound est) (resp_usage resp).
Proof.
  intros _ [_ V]. unfold external_dispatch. destruct (rpc_dispatch e _) as [stream|] eqn:E; cbn; [|done]. apply V in E.
  destruct stream as [|[first|] rest]; [done| |done]. apply Forall_cons in E as [Hf Hr].
  destruct (status_of _); cbn; [|done]. destruct (header_map _); cbn; [|done].
  destruct (match c_usage first with Some v => _ | None => _ end) as [u|] eqn:Eu; cbn; [|done].
  destruct (relay_external _ _ _) as [sent us] eqn:Er. intros [= <-]. cbn. apply Forall_cons. split.
  - intros est ->. destruct (c_usage first) as [v|] eqn:Ec; [|done]. destruct (from_wire v) as [u'|] eqn:Ew; cbn in Eu; simplify_eq.
    eapply from_wire_sound; [|done]. by eapply Hf.
  - unfold relay_external in Er. destruct (c_data first) as [|b data], (grpc_room e) as [|room]; simplify_eq; try by apply Forall_nil.
    + pose proof (relay_chunks_sound 0 rest Hr) as R. by rewrite Er in R.
    + pose proof (relay_chunks_sound (S room) rest Hr) as R. by rewrite Er in R.
    + pose proof (relay_chunks_sound room rest Hr) as R. destruct (relay_chunks room rest). by simplify_eq.
Qed.

#[export] Instance ExternalAdapterLaws : AdapterLaws Channel GrpcEnv := {
  adapter_ok _ := True; env_ok := wire_ok;
  estimate_sound := external_estimate_sound; usage_sound := external_usage_sound
}.

(** ** Connections *)

(** Plaintext connections to an external adapter stay on the machine, and
    certificates are used as configured: a connection in the clear goes to a
    loopback host or a Unix socket; one over TLS checks the server against the
    configured authority and domain, and presents a client certificate exactly
    when both its files are given; one of the two alone is refused. *)
Theorem connect_is_secure e endpoint ch : connect e endpoint = Ok ch ->
  match ch with
  | OverUnix path => endpoint = UnixSocket path /\ unix e = true
  | Plaintext u => endpoint = LoopbackEndpoint u /\ exists h, uri_host e u = Ok (Some h) /\ h ∈ LOOPBACK
  | OverTls u config =>
      exists ca cert key, endpoint = TlsEndpoint u (domain_name config) ca cert key /\
        read_file e ca = Ok (ca_certificate config) /\
        match cert, key with
        | Some c, Some k => exists cb kb, identity_pem config = Some (cb, kb) /\ read_file e c = Ok cb /\ read_file e k = Ok kb
        | None, None => identity_pem config = None
        | _, _ => False
        end
  end.
Proof.
  destruct endpoint as [path | u domain ca cert key | u]; cbn.
  - destruct (unix e); cbn; [|done]. destruct (connected e _); cbn; [|done]. by intros [= <-].
  - destruct (read_file e ca) as [cab|] eqn:Eca; cbn; [|by destruct (negb _)].
    destruct cert as [c|], key as [k|]; cbn; try done.
    + destruct (read_file e c) as [cb|] eqn:Ec; cbn; [|done]. destruct (read_file e k) as [kb|] eqn:Ek; cbn; [|done].
      destruct (from_shared e u); cbn; [|done]. destruct (tls_accepted e _); cbn; [|done]. destruct (connected e _); cbn; [|done].
      intros [= <-]. exists ca, (Some c), (Some k). cbn. split_and!; [done..|]. by exists cb, kb.
    + destruct (from_shared e u); cbn; [|done]. destruct (tls_accepted e _); cbn; [|done]. destruct (connected e _); cbn; [|done].
      intros [= <-]. by exists ca, None, None.
  - destruct (uri_host e u) as [[h|]|] eqn:Eh; cbn; try done. destruct (bool_decide_reflect (h ∈ LOOPBACK)) as [Hl|]; cbn; [|done].
    destruct (from_shared e u); cbn; [|done]. destruct (connected e _); cbn; [|done]. intros [= <-]. split; [done|]. by exists h.
Qed.

(** ** Streams *)

Lemma relay_chunks_error room s m t : relay_chunks room (s ++ Err m :: t) = relay_chunks room s.
Proof.
  revert room. induction s as [|[chunk|] s IH]; intros room; [done| |done]. cbn.
  destruct (c_data chunk), room; try done; by rewrite IH.
Qed.

Lemma relay_external_error room first s m t : relay_external room first (s ++ Err m :: t) = relay_external room first s.
Proof. unfold relay_external. destruct (c_data first), room; rewrite ?relay_chunks_error; done. Qed.

(** A response stream that breaks off is not told from one that ends: after
    the first message, a transport failure leaves the client with the same
    response, status and usage as a complete stream. *)
Theorem broken_stream_looks_complete e request first s m t :
  let answers stream := mkGrpcEnv (rpc_estimate e) (fun _ => Ok stream) (rpc_health e) (grpc_room e) in
  external_dispatch (answers (Ok first :: s ++ Err m :: t)) request = external_dispatch (answers (Ok first :: s)) request.
Proof. unfold external_dispatch. cbn. by rewrite relay_external_error. Qed.

(** ** Headers *)

Lemma safe_fold_lookup (l : list (string * string)) (m : gmap string string) n v :
  fold_left (fun m h => match header_str h.2 with Some v => <[h.1 := v]> m | None => m end) l m !! n = Some v ->
  (exists raw, (n, raw) ∈ l /\ header_str raw = Some v) \/ m !! n = Some v.
Proof.
  revert m. induction l as [|[k raw] l IH]; intros m; cbn; [by right|]. intros [(raw' & Hin & Hs) | Hm]%IH.
  - left. exists raw'. split; [by right | done].
  - destruct (header_str raw) as [w|] eqn:Ew; [|by right]. destruct (decide (k = n)) as [-> | Hk].
    + rewrite lookup_insert_eq in Hm. simplify_eq. left. exists raw. split; [left | done].
    + rewrite lookup_insert_ne in Hm by done. by right.
Qed.

Lemma safe_headers_ok hs n v : safe_headers hs !! n = Some v ->
  n ∉ UNSAFE_HEADERS /\ exists raw, (n, raw) ∈ hs /\ header_str raw = Some v.
Proof.
  unfold safe_headers. intros [(raw & Hin & Hs) | Hm]%safe_fold_lookup; [|by rewrite lookup_empty in Hm].
  apply list_elem_of_filter in Hin as [Hu Hin]. split; [exact Hu|]. by exists raw.
Qed.

(** What an accepted estimate has: exactly the conditions of the SDK's check,
    but for the cached tokens. *)
Lemma from_wire_validates v est : valid (w_units v) -> from_wire v = Ok est ->
  (validate_estimate est = Ok tt <-> w_cached v <= w_input v).
Proof.
  intros V (E & F & L & C & Ei & Ec & Ek)%from_wire_ok. unfold validate_estimate. rewrite E, F, L, Ek, C, Ei, Ec. cbn.
  destruct (Z.ltb_spec (w_input v) (w_cached v)); split; (done || lia).
Qed.

(** The example adapter conforms to the protocol: through the client, the
    estimate of every request passes the SDK's check and is its input, a quarter
    of the body and at least one, plus 32 units; every request is answered with
    status 200, one body and a usage of 14 units. *)
Theorem example_adapter_conforms (json_text : Value -> Bytes) room request :
  (forall i, json_text (example_body i) <> []) -> byte_len (body request) < 2 ^ 53 ->
  (exists est, external_estimate (example_env json_text (S room)) request = Ok est /\ validate_estimate est = Ok tt /\
     input_tokens est = Z.max (byte_len (body request) / 4) 1 /\
     ext (wu (normalized_units est)) = (Z.max (byte_len (body request) / 4) 1 + 32) * ONE) /\
  forall name, header_name "content-type" = Some name -> header_value "application/json" = Some "application/json"%string ->
  exists resp u id, external_dispatch (example_env json_text (S room)) request = Ok resp /\
     resp_status resp = 200 /\ resp_headers resp = [(name, "application/json"%string)] /\
     resp_body resp = [Ok (json_text (example_body id))] /\ resp_usage resp = [Some u] /\ ext (wu (normalized_units u)) = 14 * ONE.
Proof.
  intros NE B. split.
  - unfold external_estimate. cbn [example_env rpc_estimate protocol result_bind]. unfold example_estimate. cbn [er_body].
    set (input := Z.max (byte_len (body request) / 4) 1).
    assert (I : 1 <= input <= 2 ^ 53 - 32).
    { subst input. pose proof (byte_len_nonneg (body request)). split; [lia|]. apply Z.max_lub; [|lia].
      assert (byte_len (body request) / 4 < 2 ^ 51); [|lia]. apply Z.div_lt_upper_bound; lia. }
    rewrite wadd_id by int64. destruct (f_of_Z_exact (input + 32)) as (N & F & X); [unfold Rounding.PREC; lia|].
    assert (L : f_lt (f_of_Z (input + 32)) f_zero = false).
    { rewrite lt_num by (apply N || by split). rewrite X. change (ext f_zero) with 0. apply Z.ltb_ge. pose proof ONE_pos. nia. }
    assert (W : exists est, from_wire (mkWireEstimate input 32 0 (f_of_Z (input + 32)) (f32_lit 1 2) "approximation" f_one) = Ok est).
    { unfold from_wire. cbn [w_units w_confidence]. rewrite F, L. eexists. reflexivity. }
    destruct W as [est W]. rewrite W. exists est. split; [done|]. pose proof (from_wire_ok _ _ W) as (E & _ & _ & _ & Ei & _).
    split_and!; [|by rewrite Ei | by rewrite E].
    eapply from_wire_validates; [|exact W |]; [apply N | cbn; lia].
  - intros name Hn Hv. unfold external_dispatch. cbn.
    set (i := default EmptyString _). assert (HM : header_map {["content-type"%string := "application/json"%string]} = Ok [(name, "application/json"%string)]).
    { unfold header_map. pose proof (hash_iter_perm ({["content-type"%string := "application/json"%string]} : gmap string string)) as P.
      rewrite map_to_list_singleton in P. apply Permutation_singleton_r in P. rewrite P. cbn. by rewrite Hn, Hv. }
    rewrite HM. cbn. destruct (from_wire (mkWireEstimate 8 6 0 _ _ _ _)) as [u|] eqn:Eu; [|by vm_compute in Eu].
    cbn. unfold relay_external. cbn. destruct (json_text (example_body i)) as [|b data] eqn:Ej; [by destruct (NE i)|].
    eexists _, u, i. split_and!; try done; [by rewrite Ej|]. apply from_wire_ok in Eu as (-> & _). by vm_compute.
Qed.
End laws.

(** ** Examples *)

Definition sample_connect : ConnectEnv := {|
  unix := true; uri_host := fun _ => Ok (Some "127.0.0.1"%string); read_file := fun _ => Ok []; from_shared := fun _ => Ok tt;
  tls_accepted := fun _ => Ok tt; connected := fun _ => Ok tt
|}.

Lemma connect_is_secure_witness :
  LoopbackEndpoint "http://127.0.0.1:50051" = LoopbackEndpoint "http://127.0.0.1:50051" /\
  exists h, uri_host sample_connect "http://127.0.0.1:50051" = Ok (Some h) /\ h ∈ LOOPBACK.
Proof.
  apply (connect_is_secure sample_connect (LoopbackEndpoint "http://127.0.0.1:50051") (Plaintext "http://127.0.0.1:50051")).
  vm_compute. reflexivity.
Defined.

Definition sample_request : ProxyRequest :=
  mkProxyRequest "POST" "http://proxy/v1/responses" None [("authorization"%string, "mine"%string)] (String.list_ascii_of_string "hello").

Lemma example_adapter_conforms_witness :
  exists est, @external_estimate plain_http (example_env (fun _ => String.list_ascii_of_string "{}") 1) sample_request = Ok est /\
    validate_estimate est = Ok tt /\ input_tokens est = 1 /\ ext (wu (normalized_units est)) = (1 + 32) * ONE.
Proof.
  apply (@example_adapter_conforms plain_http insertion_order (fun _ => String.list_ascii_of_string "{}") 0 sample_request);
    [intros i; vm_compute; congruence | vm_compute; congruence].
Defined.
