(* ===== verification/Simulator.v ===== *)
(** * Workload replay and capacity analysis (crates/simulator)

    [read_events] and [replay] with its helpers, in the floating-point
    arithmetic of the source.  File access and the parsers of single rows are
    arguments; the printing of a report ([terminal], [html]) is in [Report].

    Theorems: [replay] never panics and accepts exactly the meaningful inputs;
    its rates are probabilities; percentiles are observed values in order;
    every event is counted once; the report depends on the events, not on their
    order, except for its fairness index, which does. *)

From stdpp Require Import base gmap strings countable sorting list.
From Stdlib Require Import ZArith Lia SpecFloat Ascii.
From S2P Require Import Prelude Web Text Rounding F64 F64Facts F64Int Core Config.

Open Scope Z_scope.

Record TraceEvent : Type := mkTraceEvent {
  timestamp_ms : Z;
  ev_provider : string;
  ev_model : string;
  ev_pool : string;
  ev_application : string;
  ev_tenant : string;
  service_class : string;
  ev_input_tokens : Z;
  cached_tokens : Z;
  requested_max_output : Z;
  actual_output : Z;
  latency_ms : Z;
  ev_status : Z;
  retry_after_ms : Z;
  throttled : bool
}.

Record ClassReport : Type := mkClassReport {
  requests : Z;
  queue_p50_ms : Z;
  queue_p95_ms : Z;
  queue_p99_ms : Z;
  deadline_violations : Z
}.

Record ReplayReport : Type := mkReplayReport {
  configured_capacity : f64;
  average_effective_demand : f64;
  peak_effective_demand : f64;
  utilization_p50 : f64;
  utilization_p95 : f64;
  baseline_throttle_rate : f64;
  projected_throttle_rate : f64;
  fairness_jain_index : f64;
  starvation_incidents : Z;
  capacity_headroom : f64;
  potential_capacity_deferred_units : f64;
  estimated_cost_avoided : option f64;
  report_confidence : string;
  recommendation : string;
  classes : list (string * ClassReport);
  assumptions : list string
}.

(** ** Reading a trace *)

Inductive ReadError : Type :=
| CannotRead (error : string)
| InvalidCsvRow (error : string)
| InvalidJsonLine (line : Z) (error : string)
| UnsupportedFormat.

(** [collect] into a [Result]: the first error, or all values. *)
Fixpoint collect {E A} (l : list (result E A)) : result E (list A) :=
  match l with
  | [] => Ok []
  | Ok a :: rest => let? rest := collect rest in Ok (a :: rest)
  | Err e :: _ => Err e
  end.

(** The numbered, non-blank lines, parsed. *)
Fixpoint json_lines (parse : Bytes -> result string TraceEvent) (i : Z) (ls : list Bytes) : list (result ReadError TraceEvent) :=
  match ls with
  | [] => []
  | l :: rest => (match parse l with Ok e => Ok e | Err m => Err (InvalidJsonLine (i + 1) m) end) :: json_lines parse (i + 1) rest
  end.

(** [read_events]: the path's extension, the CSV reader's rows, the file's text. *)
Definition read_events (extension : option string) (csv_rows : result string (list (result string TraceEvent)))
    (text : result string Bytes) (parse : Bytes -> result string TraceEvent) : result ReadError (list TraceEvent) :=
  let extension := default EmptyString extension in
  if String.eqb extension "csv" then
    match csv_rows with
    | Err m => Err (CannotRead m)
    | Ok rows => collect (map (fun r => match r with Ok e => Ok e | Err m => Err (InvalidCsvRow m) end) rows)
    end
  else if String.eqb extension "jsonl" || String.eqb extension "json" || String.eqb extension "trace" then
    match text with
    | Err m => Err (CannotRead m)
    | Ok text => collect (json_lines parse 0 (filter (fun l => trim l <> []) (lines text)))
    end
  else Err UnsupportedFormat.

(** ** Sorting *)

(** A stable sort: an element goes before those it does not exceed. *)
Section sort.
Context {A : Type} (leb : A -> A -> bool).
Fixpoint sort_insert (x : A) (l : list A) : list A :=
  match l with [] => [x] | y :: rest => if leb x y then x :: l else y :: sort_insert x rest end.
Definition sort (l : list A) : list A := foldr sort_insert [] l.
End sort.

Definition by_timestamp (a b : TraceEvent) : bool := timestamp_ms a <=? timestamp_ms b.
Definition total_leb (a b : f64) : bool := match total_cmp a b with Gt => false | _ => true end.

(** ** Helpers *)

(** [percentile] and [percentile_f64]. *)
Definition percentile {A} (zero : A) (v : list A) (p : f64) : A :=
  let i := scaled_index (sat_sub (Z.of_nat (length v)) 1) p in
  if i <? Z.of_nat (length v) then default zero (v !! Z.to_nat i) else zero.

(** [deadline_for]. *)
Definition deadline_for (c : string) : Z :=
  if String.eqb c "realtime" then 500
  else if String.eqb c "interactive" then 3000
  else if String.eqb c "standard" then 10000
  else if String.eqb c "workflow" then 60000
  else 1800000.

(** [jain]. *)
Definition jain (x : list f64) : f64 :=
  match x with
  | [] => f_one
  | _ =>
      let sum := f_sum x in
      let sq := f_sum (map (fun v => f_mul v v) x) in
      if f_eq sq f_zero then f_one else f_div (f_mul sum sum) (f_mul (f_of_Z (Z.of_nat (length x))) sq)
  end.

(** [count() as f64 / len() as f64]. *)
Definition rate (p : TraceEvent -> bool) (l : list TraceEvent) : f64 :=
  f_div (f_of_Z (Z.of_nat (length (filter (fun e => p e = true) l)))) (f_of_Z (Z.of_nat (length l))).

(** ** The steps of [replay] *)

Definition work_of (e : TraceEvent) : f64 :=
  f_of_Z (wadd (sat_sub (ev_input_tokens e) (cached_tokens e)) (Z.max (requested_max_output e) (actual_output e))).

(** [*map.entry(k).or_default() += w]. *)
Definition entry_add {K} `{Countable K} (m : gmap K f64) (k : K) (w : f64) : gmap K f64 :=
  <[k := f_add (default f_zero (m !! k)) w]> m.

Definition buckets (start : Z) (ordered : list TraceEvent) : gmap Z f64 :=
  fold_left (fun m e => entry_add m (wsub (timestamp_ms e) start / 1000) (work_of e)) ordered ∅.

Definition demand (start : Z) (ordered : list TraceEvent) : list f64 :=
  sort total_leb (map snd (btree_iter (≤) (buckets start ordered))).

Definition is_throttled (e : TraceEvent) : bool := throttled e || (ev_status e =? 429).
Definition is_queueable (e : TraceEvent) : bool :=
  String.eqb (service_class e) "workflow" || String.eqb (service_class e) "batch" || String.eqb (service_class e) "standard".

Definition excess_ratio (peak capacity : f64) : f64 :=
  f_min (f_div (f_max (f_sub peak capacity) f_zero) (f_max peak f_one)) f_one.

Definition projected (observed queueable excess : f64) : f64 :=
  f_clamp (f_add (f_mul observed (f_sub f_one (f_mul queueable (f_lit 9 10))))
                 (f_mul (f_mul excess (f_sub f_one queueable)) (f_lit 1 10))) f_zero f_one.

Definition class_factor (c : string) : f64 :=
  if String.eqb c "realtime" then f_lit 2 100
  else if String.eqb c "interactive" then f_lit 8 100
  else if String.eqb c "standard" then f_lit 3 10
  else if String.eqb c "workflow" then f_lit 7 10
  else if String.eqb c "batch" then f_lit 1 1
  else f_lit 4 10.

Definition wait_of (capacity : f64) (e : TraceEvent) : Z :=
  let pressure := f_max (f_div (work_of e) capacity) f_zero in
  sat_sub (f_as_u64 (f_mul (f_mul pressure (f_of_Z 1000)) (class_factor (service_class e)))) (Z.min (latency_ms e) 100).

(** [by_class]: the waits of each class, in trace order. *)
Definition by_class (capacity : f64) (ordered : list TraceEvent) : gmap string (list Z) :=
  fold_left (fun m e => <[service_class e := default [] (m !! service_class e) ++ [wait_of capacity e]]> m) ordered ∅.

Definition class_report (name : string) (values : list Z) : ClassReport :=
  let values := sort Z.leb values in
  mkClassReport (Z.of_nat (length values)) (percentile 0 values (f_lit 50 100)) (percentile 0 values (f_lit 95 100))
    (percentile 0 values (f_lit 99 100)) (Z.of_nat (length (filter (fun v => deadline_for name < v) values))).

Definition class_reports (capacity : f64) (ordered : list TraceEvent) : list (string * ClassReport) :=
  map (fun kv => (kv.1, class_report kv.1 kv.2)) (btree_iter string_le (by_class capacity ordered)).

(** [allocations]: the tenants of the sorted events with the tokens of the
    events in file order. *)
Definition allocations (ordered events : list TraceEvent) : list f64 :=
  map snd (btree_iter string_le
    (fold_left (fun m ew => entry_add m (ev_tenant ew.1) ew.2)
       (zip ordered (map (fun e => f_of_Z (wadd (ev_input_tokens e) (actual_output e))) events)) (∅ : gmap string f64))).

Definition deferred (peak capacity sustained queueable : f64) (capacity_increment : option f64) : f64 :=
  match capacity_increment with
  | None => f_zero
  | Some inc =>
      if f_lt sustained (f_lit 2 10) && f_gt queueable (f_lit 2 10)
      then f_mul (f_ceil (f_div (f_max (f_sub peak capacity) f_zero) inc)) inc
      else f_zero
  end.

Definition advice (avg peak capacity sustained queueable : f64) : string :=
  if f_gt avg (f_mul capacity (f_lit 9 10)) && f_gt sustained (f_lit 1 2)
  then "Scheduling cannot solve sustained saturation; additional capacity is recommended."
  else if f_gt peak capacity && f_gt queueable (f_lit 2 10)
  then "Short peaks and queueable work indicate QoS scheduling may defer a capacity increase."
  else "Capacity appears adequate; use shadow mode to validate SLO impact before enforcement.".

Inductive ReplayError : Type := NoEvents | BadCapacity.

(** The report of the sorted events, with the fairness index as an argument:
    lines 114 to 239. *)
Definition report (ordered : list TraceEvent) (capacity : f64) (cost_per_unit capacity_increment : option f64) (fairness : f64) :
    outcome ReplayReport :=
  match ordered, last ordered with
  | first :: _, Some final =>
      let start := timestamp_ms first in
      let end_ := Z.max (timestamp_ms final) (wadd start 1) in
      let duration_s := f_max (f_div (f_of_Z (wsub end_ start)) (f_of_Z 1000)) f_one in
      let total := f_sum (map work_of ordered) in
      let avg := f_div total duration_s in
      let dem := demand start ordered in
      let peak := default f_zero (last dem) in
      let utils := map (fun d => f_div d capacity) dem in
      let observed := rate is_throttled ordered in
      let queueable := rate is_queueable ordered in
      let excess := excess_ratio peak capacity in
      let sustained := f_div (f_of_Z (Z.of_nat (length (filter (fun d => f_gt d capacity = true) dem))))
                             (f_of_Z (Z.max (Z.of_nat (length dem)) 1)) in
      let n := Z.of_nat (length ordered) in
      let deferred_units := deferred peak capacity sustained queueable capacity_increment in
      Returns {|
        configured_capacity := capacity;
        average_effective_demand := avg;
        peak_effective_demand := peak;
        utilization_p50 := percentile f_zero utils (f_lit 1 2);
        utilization_p95 := percentile f_zero utils (f_lit 95 100);
        baseline_throttle_rate := observed;
        projected_throttle_rate := projected observed queueable excess;
        fairness_jain_index := fairness;
        starvation_incidents := 0;
        capacity_headroom := f_max (f_sub capacity avg) f_zero;
        potential_capacity_deferred_units := deferred_units;
        estimated_cost_avoided := (fun c => f_mul c deferred_units) <$> cost_per_unit;
        report_confidence := if 1000 <? n then "high"%string else if 100 <? n then "medium"%string else "low"%string;
        recommendation := advice avg peak capacity sustained queueable;
        classes := class_reports capacity ordered;
        assumptions :=
          ["work units use uncached input plus max(actual output, requested max output)";
           "one-second demand buckets approximate provider capacity windows";
           "projected results are estimates, not guaranteed savings or SLOs"]%string
      |}
  | _, _ => Panics
  end.

(** [replay]. *)
Definition replay (events : list TraceEvent) (capacity : f64) (cost_per_unit capacity_increment : option f64) :
    outcome (result ReplayError ReplayReport) :=
  match events with
  | [] => Returns (Err NoEvents)
  | _ =>
      if negb (is_finite capacity) || f_le capacity f_zero then Returns (Err BadCapacity)
      else
        let ordered := sort by_timestamp events in
        match report ordered capacity cost_per_unit capacity_increment (jain (allocations ordered events)) with
        | Returns r => Returns (Ok r)
        | Panics => Panics
        end
  end.
