(* ===== verification/SimulatorThms.v ===== *)
(** * What the replay promises

    See [Simulator].  Exact statements about sums ask for traces whose work is
    below [2^53] tokens, where doubles are exact. *)

From stdpp Require Import base gmap strings countable sorting list.
From Stdlib Require Import ZArith Lia SpecFloat.
From S2P Require Import Prelude Web Text Rounding F64 F64Facts F64Int Core Config Simulator.

Open Scope Z_scope.

(** ** Sorting *)

Section sort.
Context {A : Type} (leb : A -> A -> bool).

Lemma sort_insert_perm x l : sort_insert leb x l ≡ₚ x :: l.
Proof. induction l as [|y l IH]; cbn; [done|]. destruct (leb x y); [done|]. rewrite IH. apply Permutation_swap. Qed.

Lemma sort_perm l : sort leb l ≡ₚ l.
Proof. induction l as [|x l IH]; [done|]. cbn. by rewrite sort_insert_perm, IH. Qed.

Hypothesis leb_total : forall x y, leb x y = false -> leb y x = true.
Hypothesis leb_trans : forall x y z, leb x y = true -> leb y z = true -> leb x z = true.

Lemma sort_insert_sorted x l : StronglySorted (fun a b => leb a b = true) l -> StronglySorted (fun a b => leb a b = true) (sort_insert leb x l).
Proof.
  induction 1 as [|y l S IH F]; cbn; [repeat constructor|]. destruct (leb x y) eqn:E.
  - constructor; [by constructor|]. constructor; [done|]. eapply Forall_impl; [exact F|]. cbn. intros z. by apply leb_trans.
  - constructor; [done|]. rewrite Forall_forall in F |- *. intros z. rewrite sort_insert_perm.
    intros [-> | Hz]%elem_of_cons; [by apply leb_total | by apply F].
Qed.

Lemma sort_sorted l : StronglySorted (fun a b => leb a b = true) (sort leb l).
Proof. induction l; [constructor | by apply sort_insert_sorted]. Qed.
End sort.

Lemma sorted_impl {A} (R R' : A -> A -> Prop) l : (forall a b, R a b -> R' a b) -> StronglySorted R l -> StronglySorted R' l.
Proof. intros H. induction 1 as [|x l S IH F]; constructor; [done|]. eapply Forall_impl; [exact F|]. cbn. auto. Qed.

(** Lists sorted by a key without ties are determined by their elements. *)
Lemma sorted_unique {A} (key : A -> Z) (l1 l2 : list A) : l1 ≡ₚ l2 -> NoDup (key <$> l1) ->
  StronglySorted (fun a b => key a <= key b) l1 -> StronglySorted (fun a b => key a <= key b) l2 -> l1 = l2.
Proof.
  revert l2. induction l1 as [|x l1 IH]; intros l2 P N S1 S2; [by apply Permutation_nil_l in P|].
  destruct l2 as [|y l2]; [symmetry in P; by apply Permutation_nil_cons in P|].
  apply StronglySorted_inv in S1 as [S1 F1]. apply StronglySorted_inv in S2 as [S2 F2]. rewrite Forall_forall in F1, F2.
  assert (y = x) as ->.
  { assert (Hy : y ∈ x :: l1) by (rewrite P; left). assert (Hx : x ∈ y :: l2) by (rewrite <- P; left).
    apply elem_of_cons in Hy as [-> | Hy]; [done|]. apply elem_of_cons in Hx as [-> | Hx]; [done|].
    pose proof (F1 _ Hy). pose proof (F2 _ Hx). cbn in N. apply NoDup_cons in N as [N _]. exfalso. apply N.
    replace (key x) with (key y) by lia. by apply list_elem_of_fmap_2. }
  f_equal. apply IH; [by apply Permutation_cons_inv in P | by apply NoDup_cons in N as [_ N] | done | done].
Qed.

Lemma by_timestamp_sorted l : StronglySorted (fun a b => timestamp_ms a <= timestamp_ms b) (sort by_timestamp l).
Proof.
  eapply sorted_impl; [|apply sort_sorted]; unfold by_timestamp.
  - intros a b. cbn. by rewrite Z.leb_le.
  - intros x y. rewrite Z.leb_gt, Z.leb_le. lia.
  - intros x y z. rewrite !Z.leb_le. lia.
Qed.

Lemma sort_by_timestamp_unique l1 l2 : l1 ≡ₚ l2 -> NoDup (timestamp_ms <$> l1) -> sort by_timestamp l1 = sort by_timestamp l2.
Proof.
  intros P N. apply (sorted_unique timestamp_ms); [by rewrite !sort_perm | by rewrite sort_perm | apply by_timestamp_sorted..].
Qed.

(** ** Totality *)

Lemma report_returns ordered capacity cost inc fairness : ordered <> [] ->
  exists r, report ordered capacity cost inc fairness = Returns r /\ fairness_jain_index r = fairness.
Proof.
  intros NE. unfold report. destruct ordered as [|e l]; [done|]. destruct (last (e :: l)) eqn:E; [|by apply last_None in E].
  eexists. split; reflexivity.
Qed.

Lemma sort_nonempty {A} (leb : A -> A -> bool) l : l <> [] -> sort leb l <> [].
Proof. intros NE E. pose proof (sort_perm leb l) as P. rewrite E in P. by apply Permutation_nil_l in P. Qed.

(** Replaying a trace never panics, whatever the trace holds, and is
    refused exactly when there are no events or the capacity is not a positive,
    finite number. *)
Theorem replay_total events capacity cost inc :
  exists res, replay events capacity cost inc = Returns res /\
  (is_ok res = true <-> events <> [] /\ is_finite capacity = true /\ f_le capacity f_zero = false).
Proof.
  unfold replay. destruct events as [|e l]; [exists (Err NoEvents); split; [done|]; cbn; intuition done|].
  destruct (is_finite capacity) eqn:F; cbn [negb orb]; [|eexists; split; [done|]; cbn; intuition done].
  destruct (f_le capacity f_zero) eqn:L; [eexists; split; [done|]; cbn; intuition done|].
  destruct (report_returns (sort by_timestamp (e :: l)) capacity cost inc
    (jain (allocations (sort by_timestamp (e :: l)) (e :: l)))) as (r & -> & _); [by apply sort_nonempty|].
  exists (Ok r). split; [done|]. cbn. intuition done.
Qed.

(** ** Order of the trace *)

Definition set_fairness (r : ReplayReport) (f : f64) : ReplayReport :=
  {| configured_capacity := configured_capacity r; average_effective_demand := average_effective_demand r;
     peak_effective_demand := peak_effective_demand r; utilization_p50 := utilization_p50 r; utilization_p95 := utilization_p95 r;
     baseline_throttle_rate := baseline_throttle_rate r; projected_throttle_rate := projected_throttle_rate r;
     fairness_jain_index := f; starvation_incidents := starvation_incidents r; capacity_headroom := capacity_headroom r;
     potential_capacity_deferred_units := potential_capacity_deferred_units r; estimated_cost_avoided := estimated_cost_avoided r;
     report_confidence := report_confidence r; recommendation := recommendation r; classes := classes r; assumptions := assumptions r |}.

Lemma report_fairness ordered capacity cost inc f f' r : report ordered capacity cost inc f = Returns r ->
  report ordered capacity cost inc f' = Returns (set_fairness r f').
Proof. unfold report. destruct ordered; [done|]. destruct (last _); [|done]. by intros [= <-]. Qed.

(** The report does not depend on the order of the file: for events with
    distinct timestamps, any other order gives the same report, but for the
    fairness index. *)
Theorem replay_order_independent events events' capacity cost inc r :
  events ≡ₚ events' -> NoDup (timestamp_ms <$> events) ->
  replay events capacity cost inc = Returns (Ok r) ->
  exists f, replay events' capacity cost inc = Returns (Ok (set_fairness r f)).
Proof.
  intros P N. unfold replay. destruct events as [|e l]; [done|].
  destruct events' as [|e' l']; [symmetry in P; by apply Permutation_nil_cons in P|].
  destruct (_ || _); [done|]. rewrite (sort_by_timestamp_unique _ _ P N).
  destruct (report _ _ _ _ (jain (allocations _ (e :: l)))) as [r'|] eqn:E; [|done]. intros [= <-].
  exists (jain (allocations (sort by_timestamp (e' :: l')) (e' :: l'))). by rewrite (report_fairness _ _ _ _ _ _ _ E).
Qed.

Definition sample_event (second : Z) (tenant : string) (tokens : Z) : TraceEvent :=
  mkTraceEvent (second * 1000) "fake" "model" "pool" "app" tenant "interactive" tokens 0 100 100 10 200 0 false.
Definition sample_trace : list TraceEvent := [sample_event 0 "b" 200; sample_event 1 "a" 0; sample_event 2 "a" 0].
Definition sample_shuffled : list TraceEvent := [sample_event 1 "a" 0; sample_event 2 "a" 0; sample_event 0 "b" 200].

Lemma sample_shuffled_perm : sample_trace ≡ₚ sample_shuffled.
Proof. unfold sample_trace, sample_shuffled. apply (Permutation_app_comm [_] [_; _]). Qed.

Lemma sample_distinct : NoDup (timestamp_ms <$> sample_trace).
Proof. apply (bool_decide_unpack _). vm_compute. exact I. Qed.

Lemma sample_indices :
  match replay sample_trace (f_of_Z 100) None None, replay sample_shuffled (f_of_Z 100) None None with
  | Returns (Ok r), Returns (Ok r') => f_lt (fairness_jain_index r') (fairness_jain_index r)
  | _, _ => false
  end = true.
Proof. vm_compute. reflexivity. Qed.

(** The fairness index does depend on the order of the file: tokens are
    credited by position, so in a trace that is not sorted by time a tenant is
    credited with the tokens of another, and the same events give different
    indices. *)
Theorem fairness_depends_on_order : exists events events' r r',
  events ≡ₚ events' /\ NoDup (timestamp_ms <$> events) /\
  replay events (f_of_Z 100) None None = Returns (Ok r) /\ replay events' (f_of_Z 100) None None = Returns (Ok r') /\
  f_lt (fairness_jain_index r') (fairness_jain_index r) = true.
Proof.
  pose proof sample_indices as H.
  destruct (replay sample_trace (f_of_Z 100) None None) as [[r|]|] eqn:E; [|discriminate H..].
  destruct (replay sample_shuffled (f_of_Z 100) None None) as [[r'|]|] eqn:E'; [|discriminate H..].
  exists sample_trace, sample_shuffled, r, r'.
  exact (conj sample_shuffled_perm (conj sample_distinct (conj E (conj E' H)))).
Qed.

Lemma replay_order_independent_witness :
  exists r f, replay sample_shuffled (f_of_Z 100) None None = Returns (Ok (set_fairness r f)).
Proof.
  pose proof sample_indices as H.
  destruct (replay sample_trace (f_of_Z 100) None None) as [[r|]|] eqn:E; [|discriminate H..].
  exists r. exact (replay_order_independent sample_trace sample_shuffled (f_of_Z 100) None None r sample_shuffled_perm sample_distinct E).
Defined.

(** ** Numbers between zero and one *)

Definition in_unit (x : f64) : Prop := nn x /\ ext x <= ONE.

Lemma in_unit_finite x : in_unit x -> is_finite x = true.
Proof. intros [N L]. eapply (small_finite x 0); [done | lia | lia]. Qed.

Lemma in_unit_mul x y : in_unit x -> in_unit y -> in_unit (f_mul x y).
Proof.
  intros Hx Hy. pose proof (in_unit_finite _ Hx) as Fx. pose proof (in_unit_finite _ Hy) as Fy. destruct Hx as [Nx Lx], Hy as [Ny Ly].
  split; [by apply f_mul_nn|]. pose proof (f_mul_le_l x y Nx Ny Fx Ly). lia.
Qed.

Lemma in_unit_sub x : in_unit x -> in_unit (f_sub f_one x).
Proof.
  intros Hx. pose proof (in_unit_finite _ Hx) as Fx. destruct Hx as [[[V N] P] L].
  pose proof (f_sub_spec f_one x eq_refl V eq_refl Fx) as HS. rewrite ext_f_one in HS.
  destruct (is_sum_between _ _ f_zero f_one HS) as (F & E & B); [by split | by split | rewrite ext_f_one; change (ext f_zero) with 0; lia|].
  rewrite ext_f_one in B. change (ext f_zero) with 0 in B. split; [split; [by apply fin_num | lia] | lia].
Qed.

Lemma in_unit_lit n d : 0 <= n <= d -> 0 < d <= 2 ^ PREC -> in_unit (f_lit n d).
Proof.
  intros Hn Hd. unfold f_lit. destruct (f_of_Z_exact n ltac:(lia)) as (Nn & Fn & En). destruct (f_of_Z_exact d ltac:(lia)) as (Nd & Fd & Ed).
  pose proof ONE_pos. destruct (f_div_nn _ _ Nn Nd Fn Fd) as [N E]; [rewrite Ed; nia|]. split; [done|]. rewrite E. fold ONE.
  etrans; [apply Z.le_min_r|]. apply rnd_le_representable; [rewrite En; nia | rewrite Ed; nia | lia | |rewrite En, Ed; nia].
  rewrite <- (Z.mul_1_l ONE). apply (pow2_ONE_representable 0). lia.
Qed.

(** A share of a list. *)
Lemma in_unit_share k n : 0 <= k <= n -> 0 < n <= U64_MAX -> in_unit (f_div (f_of_Z k) (f_of_Z n)).
Proof.
  intros Hk Hn. destruct (u64_nn k ltac:(int64)) as (Nk & Fk & Ek). destruct (u64_nn n ltac:(int64)) as (Nn & Fn & En). pose proof ONE_pos.
  assert (P : 0 < ext (f_of_Z n)).
  { rewrite En. apply Z.lt_le_trans with (1 * ONE); [lia|]. rewrite <- (rnd_int 1) by (unfold PREC; lia). apply rnd_mono; nia. }
  assert (L : ext (f_of_Z k) <= ext (f_of_Z n)) by (rewrite Ek, En; apply rnd_mono; nia).
  destruct (f_div_nn _ _ Nk Nn Fk Fn P) as [N E]. split; [done|]. rewrite E. fold ONE. etrans; [apply Z.le_min_r|].
  apply rnd_le_representable; [destruct Nk; nia | lia | lia | |nia]. rewrite <- (Z.mul_1_l ONE). apply (pow2_ONE_representable 0). lia.
Qed.

Lemma rate_in_unit p l : l <> [] -> Z.of_nat (length l) <= U64_MAX -> in_unit (rate p l).
Proof.
  intros NE L. unfold rate. apply in_unit_share; [|destruct l; [done | cbn in *; lia]].
  pose proof (length_filter (fun e => p e = true) l). lia.
Qed.

(** The projection is a number between zero and one whenever its inputs are. *)
Lemma projected_in_unit observed queueable excess : in_unit observed -> in_unit queueable -> in_unit excess ->
  in_unit (projected observed queueable excess).
Proof.
  intros Ho Hq He. unfold projected.
  assert (L9 : in_unit (f_lit 9 10)) by (apply in_unit_lit; unfold PREC; lia).
  assert (L1 : in_unit (f_lit 1 10)) by (apply in_unit_lit; unfold PREC; lia).
  destruct (f_add_nn (f_mul observed (f_sub f_one (f_mul queueable (f_lit 9 10))))
    (f_mul (f_mul excess (f_sub f_one queueable)) (f_lit 1 10))) as [N _];
    [by apply in_unit_mul, in_unit_sub, in_unit_mul | by apply in_unit_mul; [apply in_unit_mul, in_unit_sub|]|].
  assert (Z0 : num f_zero) by (by split). assert (O1 : num f_one) by (apply fin_num, f_one_fin). pose proof ONE_pos.
  destruct (f_clamp_num _ f_zero f_one (proj1 N) Z0 O1) as [Nc Ec]; [rewrite ext_f_one; change (ext f_zero) with 0; lia|].
  rewrite ext_f_one in Ec. change (ext f_zero) with 0 in Ec. split; [split; [done|]|]; lia.
Qed.

Lemma excess_in_unit peak capacity : nn peak -> is_finite peak = true -> valid capacity -> is_finite capacity = true ->
  f_le capacity f_zero = false -> in_unit (excess_ratio peak capacity).
Proof.
  intros Np Fp Vc Fc Lc. unfold excess_ratio. pose proof ONE_pos.
  assert (Nc : num capacity) by (apply fin_num; by split). rewrite le_num in Lc by (done || by split).
  apply Z.leb_gt in Lc. change (ext f_zero) with 0 in Lc.
  assert (Z0 : num f_zero) by (by split). assert (O1 : num f_one) by (apply fin_num, f_one_fin).
  assert (Fo : fin (f_opp capacity)) by (split; [destruct capacity; exact Vc | destruct capacity; exact Fc]).
  pose proof (f_sub_spec peak capacity (proj1 (proj1 Np)) Vc Fp Fc) as HS. destruct Np as [Np Pp].
  destruct (is_sum_between _ _ (f_opp capacity) peak HS Fo ltac:(split; [apply Np | done])) as (Fs & _ & Bs); [rewrite ext_opp; lia|].
  destruct (f_max_num _ f_zero (fin_num _ Fs) Z0) as [Na Ea]. destruct (f_max_num peak f_one Np O1) as [Nb Eb].
  change (ext f_zero) with 0 in Ea. rewrite ext_f_one in Eb. pose proof (num_fin_iff peak Np) as Hfin. apply Hfin in Fp.
  assert (Fa : is_finite (f_max (f_sub peak capacity) f_zero) = true) by (apply num_fin_iff; [done|]; pose proof FMAX_pos; lia).
  assert (HO : ONE < FMAX) by (unfold ONE, FMAX, BIAS; apply Z.pow_lt_mono_r; lia).
  assert (Fb : is_finite (f_max peak f_one) = true) by (apply num_fin_iff; [done|]; lia).
  destruct (f_div_nn (f_max (f_sub peak capacity) f_zero) (f_max peak f_one)) as [Nd _]; [split; [done | lia].. | done | done | lia|].
  destruct (f_min_num _ f_one (proj1 Nd) O1) as [Nm Em]. rewrite ext_f_one in Em. destruct Nd as [_ Pd]. split; [split; [done|]|]; lia.
Qed.

(** ** Percentiles *)

Lemma percentile_elem {A} (zero : A) v p : v <> [] -> Z.of_nat (length v) <= 2 ^ 52 -> in_unit p ->
  exists i, v !! i = Some (percentile zero v p) /\ Z.of_nat i = scaled_index (Z.of_nat (length v) - 1) p.
Proof.
  intros NE L [Np Lp]. unfold percentile. assert (P : 0 < Z.of_nat (length v)) by (destruct v; [done | cbn; lia]).
  assert (E : sat_sub (Z.of_nat (length v)) 1 = Z.of_nat (length v) - 1) by (unfold sat_sub; lia). rewrite E.
  destruct (scaled_index_spec (Z.of_nat (length v) - 1) p ltac:(lia) Np Lp) as (_ & _ & B).
  set (i := scaled_index _ p) in *. replace (i <? Z.of_nat (length v)) with true by (symmetry; apply Z.ltb_lt; lia).
  destruct (lookup_lt_is_Some_2 v (Z.to_nat i) ltac:(lia)) as [x Hx]. exists (Z.to_nat i). rewrite Hx. split; [done | lia].
Qed.

Lemma sorted_lookup_le (l : list Z) i j x y : StronglySorted (fun a b => (a <=? b) = true) l ->
  (i <= j)%nat -> l !! i = Some x -> l !! j = Some y -> x <= y.
Proof.
  intros S. revert i j. induction S as [|z l S IH F]; intros i j L Hi Hj; [done|].
  destruct i as [|i], j as [|j]; cbn in Hi, Hj; simplify_eq; [lia | | lia | apply (IH i j); [lia | done..]].
  rewrite Forall_forall in F. apply Z.leb_le, F. by eapply list_elem_of_lookup_2.
Qed.

Lemma percentile_mono (v : list Z) p q : v <> [] -> Z.of_nat (length v) <= 2 ^ 52 -> in_unit p -> in_unit q -> ext p <= ext q ->
  StronglySorted (fun a b => (a <=? b) = true) v -> percentile 0 v p <= percentile 0 v q.
Proof.
  intros NE L Hp Hq Lpq S. destruct (percentile_elem 0 v p NE L Hp) as (i & Hi & Ei). destruct (percentile_elem 0 v q NE L Hq) as (j & Hj & Ej).
  refine (sorted_lookup_le v i j _ _ S _ Hi Hj). assert (Z.of_nat i <= Z.of_nat j); [|lia]. rewrite Ei, Ej.
  apply scaled_index_mono; [destruct v; [done | cbn in *; lia] | apply Hp | apply Hq | split; [done | apply Hq]].
Qed.

(** ** Classes *)

Definition waits (capacity : f64) (c : string) (l : list TraceEvent) : list Z :=
  wait_of capacity <$> filter (fun e => service_class e = c) l.

(** The body of the loop that fills [by_class]. *)
Abbreviation push_wait := (fun capacity m e => <[service_class e := default [] (m !! service_class e) ++ [wait_of capacity e]]> m).

Lemma by_class_fold capacity l (m : gmap string (list Z)) : map_Forall (fun _ v => v <> []) m ->
  let m' := fold_left (push_wait capacity) l m in
  map_Forall (fun _ v => v <> []) m' /\ forall c, default [] (m' !! c) = default [] (m !! c) ++ waits capacity c l.
Proof.
  revert m. induction l as [|e l IH]; intros m NE; cbn [fold_left]; [split; [done|]; intros c; by rewrite app_nil_r|].
  destruct (IH (push_wait capacity m e)) as [H1 H2].
  { apply map_Forall_insert_2; [|done]. by destruct (default [] _). }
  split; [done|]. intros c. rewrite H2. unfold waits. rewrite filter_cons. destruct (decide (service_class e = c)) as [<- | Nc].
  - rewrite lookup_insert_eq. cbn. by rewrite <- app_assoc.
  - by rewrite lookup_insert_ne.
Qed.

Lemma by_class_lookup capacity l c v : by_class capacity l !! c = Some v -> v = waits capacity c l /\ v <> [].
Proof.
  intros E. destruct (by_class_fold capacity l ∅ (map_Forall_empty _)) as [H1 H2]. fold (by_class capacity l) in H1, H2.
  split; [|by apply (H1 c)]. specialize (H2 c). by rewrite E, lookup_empty in H2.
Qed.

(** Adding to an entry of a map adds to the sum over the map. *)
Lemma zsum_insert {K V} `{Countable K} (f : V -> Z) (m : gmap K V) k v :
  zsum (fun kv => f kv.2) (map_to_list (<[k := v]> m)) = zsum (fun kv => f kv.2) (map_to_list m) + f v - from_option f 0 (m !! k).
Proof.
  destruct (m !! k) as [w|] eqn:E; cbn.
  - rewrite <- (map_to_list_delete m _ _ E), <- insert_delete_eq, map_to_list_insert by apply lookup_delete_eq. cbn. lia.
  - rewrite map_to_list_insert by done. cbn. lia.
Qed.

Lemma by_class_total capacity l : zsum (fun kv => Z.of_nat (length kv.2)) (map_to_list (by_class capacity l)) = Z.of_nat (length l).
Proof.
  unfold by_class. assert (G : forall m : gmap string (list Z),
    zsum (fun kv => Z.of_nat (length kv.2)) (map_to_list (fold_left (push_wait capacity) l m)) =
    zsum (fun kv => Z.of_nat (length kv.2)) (map_to_list m) + Z.of_nat (length l)).
  { induction l as [|e l IH]; intros m; cbn; [lia|]. rewrite IH, (zsum_insert (fun v => Z.of_nat (length v))), length_app.
    destruct (m !! service_class e); cbn; lia. }
  rewrite G, map_to_list_empty. cbn. lia.
Qed.

Lemma Zleb_total x y : (x <=? y) = false -> (y <=? x) = true.
Proof. rewrite Z.leb_gt, Z.leb_le. lia. Qed.
Lemma Zleb_trans x y z : (x <=? y) = true -> (y <=? z) = true -> (x <=? z) = true.
Proof. rewrite !Z.leb_le. lia. Qed.

Lemma class_report_ok name values : values <> [] -> Z.of_nat (length values) <= 2 ^ 52 ->
  let r := class_report name values in
  requests r = Z.of_nat (length values) /\ queue_p50_ms r <= queue_p95_ms r <= queue_p99_ms r /\
  queue_p50_ms r ∈ values /\ queue_p95_ms r ∈ values /\ queue_p99_ms r ∈ values /\
  deadline_violations r = Z.of_nat (length (filter (fun v => deadline_for name < v) values)).
Proof.
  intros NE L. unfold class_report. cbn zeta. cbn [requests queue_p50_ms queue_p95_ms queue_p99_ms deadline_violations].
  pose proof (sort_perm Z.leb values) as P. set (s := sort Z.leb values) in *.
  assert (NE' : s <> []) by (by apply sort_nonempty). assert (L' : Z.of_nat (length s) <= 2 ^ 52) by (by rewrite P).
  assert (S : StronglySorted (fun a b => (a <=? b) = true) s) by (apply sort_sorted; [apply Zleb_total | apply Zleb_trans]).
  assert (U50 : in_unit (f_lit 50 100)) by (apply in_unit_lit; unfold PREC; lia).
  assert (U95 : in_unit (f_lit 95 100)) by (apply in_unit_lit; unfold PREC; lia).
  assert (U99 : in_unit (f_lit 99 100)) by (apply in_unit_lit; unfold PREC; lia).
  assert (El : forall p, in_unit p -> percentile 0 s p ∈ values).
  { intros p Hp. destruct (percentile_elem 0 s p NE' L' Hp) as (i & Hi & _). rewrite <- P. by eapply list_elem_of_lookup_2. }
  split_and!; [by rewrite P | | | by apply El.. | by rewrite P].
  - apply (percentile_mono s _ _ NE' L' U50 U95); [|exact S]. apply Z.leb_le. vm_compute. reflexivity.
  - apply (percentile_mono s _ _ NE' L' U95 U99); [|exact S]. apply Z.leb_le. vm_compute. reflexivity.
Qed.

(** C35: The report by class is exact: there is one entry per class of the trace,
    every event is counted in exactly one, the three percentiles are waits of
    events of the class, in ascending order, and the deadline violations are the
    waits beyond the class's deadline. *)
Theorem classes_are_exact events capacity cost inc r :
  Z.of_nat (length events) <= 2 ^ 52 -> replay events capacity cost inc = Returns (Ok r) ->
  NoDup (classes r).*1 /\ zsum (fun c => requests c.2) (classes r) = Z.of_nat (length events) /\
  Forall (fun c => exists ws, ws ≡ₚ waits capacity c.1 events /\
    requests c.2 = Z.of_nat (length ws) /\ 0 < requests c.2 /\
    queue_p50_ms c.2 <= queue_p95_ms c.2 <= queue_p99_ms c.2 /\
    queue_p50_ms c.2 ∈ ws /\ queue_p95_ms c.2 ∈ ws /\ queue_p99_ms c.2 ∈ ws /\
    deadline_violations c.2 = Z.of_nat (length (filter (fun v => deadline_for c.1 < v) ws))) (classes r).
Proof.
  intros L E. set (ordered := sort by_timestamp events). assert (P : ordered ≡ₚ events) by apply sort_perm.
  assert (C : classes r = class_reports capacity ordered).
  { unfold replay in E. destruct events; [done|]. destruct (_ || _); [done|]. unfold report in E.
    fold ordered in E. destruct ordered; [done|]. destruct (last _); [|done]. by injection E as <-. }
  rewrite C. unfold class_reports. assert (K : (map (fun kv => (kv.1, class_report kv.1 kv.2)) (btree_iter string_le (by_class capacity ordered))).*1
    = (btree_iter string_le (by_class capacity ordered)).*1) by (rewrite <- list_fmap_compose; by apply list_fmap_ext).
  assert (Hkv : forall kv, kv ∈ btree_iter string_le (by_class capacity ordered) -> kv.2 = waits capacity kv.1 ordered /\ kv.2 <> []).
  { intros [c v] Hin%elem_of_btree_iter. by apply by_class_lookup. }
  assert (Lw : forall c, Z.of_nat (length (waits capacity c ordered)) <= 2 ^ 52).
  { intros c. unfold waits. rewrite length_fmap. pose proof (length_filter (fun e => service_class e = c) ordered). rewrite P in *. lia. }
  split_and!; [rewrite K; apply btree_iter_nodup | |].
  - rewrite <- P, <- (by_class_total capacity ordered), <- (btree_iter_perm string_le).
    clear K. revert Hkv. induction (btree_iter string_le (by_class capacity ordered)) as [|[c v] l IH]; intros Hkv; [done|]. cbn [map zsum fst snd].
    rewrite IH by (intros; apply Hkv; by right). destruct (Hkv (c, v) ltac:(left)) as [Ev Nv]. cbn in Ev, Nv.
    destruct (class_report_ok c v Nv) as [-> _]; [rewrite Ev; apply Lw | done].
  - apply Forall_forall. intros [c rep] ([c' v] & [= -> ->] & Hin)%list_elem_of_fmap. destruct (Hkv _ Hin) as [Ev Nv]. cbn in *.
    exists v. destruct (class_report_ok c' v Nv) as (R & B & R50 & R95 & R99 & D); [rewrite Ev; apply Lw|].
    split_and!; try done; [rewrite Ev; unfold waits; by rewrite P | change (0 < requests (class_report c' v)); rewrite R; destruct v; [done | cbn; lia] | apply B..].
Qed.

(** ** Demand *)

Definition raw_work (e : TraceEvent) : Z := wadd (sat_sub (ev_input_tokens e) (cached_tokens e)) (Z.max (requested_max_output e) (actual_output e)).
Definition second_of (start : Z) (e : TraceEvent) : Z := wsub (timestamp_ms e) start / 1000.
Definition load (start : Z) (events : list TraceEvent) (k : Z) : Z := zsum raw_work (filter (fun e => second_of start e = k) events).

Lemma raw_work_nonneg e : 0 <= raw_work e.
Proof. unfold raw_work, wadd, wrap64. apply Z.mod_pos_bound. lia. Qed.

Lemma zsum_raw_nonneg l : 0 <= zsum raw_work l.
Proof. apply zsum_nonneg, Forall_forall. intros. apply raw_work_nonneg. Qed.

Lemma work_of_whole e : raw_work e <= 2 ^ PREC -> whole (work_of e) /\ ext (work_of e) = raw_work e * ONE.
Proof.
  intros L. pose proof (raw_work_nonneg e). change (work_of e) with (f_of_Z (raw_work e)).
  destruct (f_of_Z_exact (raw_work e)) as (N & _ & E); [lia|]. pose proof ONE_pos. split; [split; [done|] | done]. rewrite E. apply Z.mod_mul. lia.
Qed.

Abbreviation add_work := (fun start m e => entry_add m (second_of start e) (work_of e)).

(** The exact content of a bucket. *)
Definition held (m : gmap Z f64) (k : Z) : Z := from_option ext 0 (m !! k).

Lemma buckets_fold start l (m : gmap Z f64) (S : Z -> Z) : map_Forall (fun _ => whole) m ->
  (forall k, 0 <= S k /\ held m k = S k * ONE) -> (forall k, S k + zsum raw_work l <= 2 ^ PREC) ->
  let m' := fold_left (add_work start) l m in
  map_Forall (fun _ => whole) m' /\ (forall k, held m' k = (S k + load start l k) * ONE).
Proof.
  revert m S. induction l as [|e l IH]; intros m S HW HS HB; cbn [fold_left].
  { split; [done|]. intros k. cbn. rewrite Z.add_0_r. apply HS. }
  pose proof (raw_work_nonneg e) as Pe. pose proof (zsum_raw_nonneg l) as Pl. cbn [zsum] in HB. set (k0 := second_of start e).
  destruct (work_of_whole e) as [We Ee]; [destruct (HS k0); specialize (HB k0); lia|].
  assert (Wo : whole (default f_zero (m !! k0)) /\ ext (default f_zero (m !! k0)) = S k0 * ONE).
  { destruct (HS k0) as [_ H0]. unfold held in H0. destruct (m !! k0) as [x|] eqn:Ex; cbn in *; [split; [by apply (HW k0) | done]|].
    split; [split; [split; [by split | cbn; lia] | done] | done]. }
  destruct Wo as [Wo Eo]. pose proof ONE_pos. destruct (f_add_whole _ _ Wo We) as (_ & H1 & _).
  destruct H1 as [Wn En]; [rewrite Eo, Ee; destruct (HS k0); specialize (HB k0); nia|]. rewrite Eo, Ee in En.
  destruct (IH (entry_add m k0 (work_of e)) (fun k => S k + if decide (k0 = k) then raw_work e else 0)) as (I1 & I2).
  - apply map_Forall_insert_2; done.
  - intros k. destruct (HS k) as [P0 E0]. unfold held, entry_add. destruct (decide (k0 = k)) as [<- | Nk].
    + rewrite lookup_insert_eq. cbn. rewrite En. split; [lia | ring].
    + rewrite lookup_insert_ne by done. fold (held m k). rewrite E0. split; [lia | ring].
  - intros k. specialize (HB k). destruct (decide _); lia.
  - split; [done|]. intros k. rewrite I2. unfold load. rewrite filter_cons. fold k0. destruct (decide (k0 = k)); cbn [zsum]; ring.
Qed.

Lemma buckets_exact start l : zsum raw_work l <= 2 ^ PREC ->
  map_Forall (fun _ => whole) (buckets start l) /\ (forall k, held (buckets start l) k = load start l k * ONE) /\
  (l <> [] -> buckets start l <> ∅).
Proof.
  intros B. destruct (buckets_fold start l ∅ (fun _ => 0) (map_Forall_empty _)) as (H1 & H2).
  - intros k. unfold held. rewrite lookup_empty. cbn. lia.
  - intros k. lia.
  - split_and!; [exact H1 | exact H2|]. intros NE. unfold buckets. destruct l as [|e l] using rev_ind; [done|].
    rewrite fold_left_app. cbn. apply insert_non_empty.
Qed.

Lemma total_leb_le x y : num x -> num y -> total_leb x y = true -> ext x <= ext y.
Proof.
  intros Hx Hy. unfold total_leb. destruct (Z.le_gt_cases (ext x) (ext y)) as [L|G]; [done|].
  rewrite total_cmp_sym, (total_cmp_lt y x) by (done || lia). done.
Qed.
Lemma total_leb_total x y : total_leb x y = false -> total_leb y x = true.
Proof. unfold total_leb. rewrite (total_cmp_sym x y). by destruct (total_cmp x y). Qed.
Lemma total_leb_trans x y z : total_leb x y = true -> total_leb y z = true -> total_leb x z = true.
Proof.
  unfold total_leb. intros H1 H2. pose proof (total_cmp_trans x y z). destruct (total_cmp x y), (total_cmp y z), (total_cmp x z); try done;
    exfalso; by (apply H; [done | done |]).
Qed.

(** The last of a sorted list is the greatest. *)
Lemma last_greatest l x d : Forall num l -> StronglySorted (fun a b => total_leb a b = true) l -> last l = Some x -> d ∈ l -> ext d <= ext x.
Proof.
  intros HN S E Hd. destruct l as [|y l] using rev_ind; [done|]. clear IHl. rewrite last_snoc in E. injection E as ->.
  apply Forall_app in HN as [HN Hx]. apply Forall_cons_1 in Hx as [Hx _]. apply elem_of_app in Hd as [Hd | ->%list_elem_of_singleton]; [|lia].
  apply total_leb_le; [by rewrite Forall_forall in HN; apply HN | done|].
  clear HN. induction l as [|z l IH]; [by apply not_elem_of_nil in Hd|]. cbn in S. apply StronglySorted_inv in S as [S F].
  apply elem_of_cons in Hd as [-> | Hd]; [|by apply IH]. rewrite Forall_forall in F. apply F. set_solver.
Qed.

Lemma load_le start l k : load start l k <= zsum raw_work l.
Proof.
  unfold load. induction l as [|e l IH]; [done|]. rewrite filter_cons. pose proof (raw_work_nonneg e).
  destruct (decide _); cbn [zsum]; lia.
Qed.

Lemma demand_spec start l : l <> [] -> zsum raw_work l <= 2 ^ PREC ->
  exists peak, last (demand start l) = Some peak /\ whole peak /\ ext peak <= 2 ^ PREC * ONE /\
  (exists k, ext peak = load start l k * ONE) /\ (forall k, load start l k * ONE <= ext peak).
Proof.
  intros NE B. destruct (buckets_exact start l B) as (HW & HE & HN). specialize (HN NE). pose proof ONE_pos.
  assert (Hin : forall d, d ∈ demand start l <-> exists k, buckets start l !! k = Some d).
  { intros d. unfold demand. rewrite sort_perm, list_elem_of_fmap. split.
    - intros ([k d'] & -> & Hin%elem_of_btree_iter). by exists k.
    - intros [k Hk]. exists (k, d). split; [done | by apply elem_of_btree_iter]. }
  assert (Hw : forall d, d ∈ demand start l -> whole d) by (intros d [k Hk]%Hin; by apply (HW k)).
  assert (Hd : forall d k, buckets start l !! k = Some d -> ext d = load start l k * ONE).
  { intros d k Hk. specialize (HE k). unfold held in HE. by rewrite Hk in HE. }
  destruct (last (demand start l)) as [peak|] eqn:E.
  - exists peak. destruct (proj1 (Hin peak)) as [k Hk]; [by apply last_Some_elem_of|].
    pose proof (load_le start l k). pose proof (Hd _ _ Hk).
    split_and!; [done | by apply (HW k) | nia | by exists k |].
    intros k'. specialize (HE k'). unfold held in HE. destruct (buckets start l !! k') as [d|] eqn:Ek; cbn in HE.
    + rewrite <- HE. apply (last_greatest (demand start l)); [| |done | apply Hin; by exists k'].
      * apply Forall_forall. intros x Hx. apply (Hw x Hx).
      * apply sort_sorted; [apply total_leb_total | apply total_leb_trans].
    + rewrite <- HE. by apply (HW k).
  - exfalso. apply last_None in E. apply HN, map_empty. intros k. apply eq_None_not_Some. intros [d Hk].
    apply (not_elem_of_nil (A := f64) d). rewrite <- E. apply Hin. by exists k.
Qed.

(** The parts of an accepted replay. *)
Lemma replay_ok events capacity cost inc r : replay events capacity cost inc = Returns (Ok r) ->
  exists first, head (sort by_timestamp events) = Some first /\ is_finite capacity = true /\ f_le capacity f_zero = false /\
    let ordered := sort by_timestamp events in
    let peak := default f_zero (last (demand (timestamp_ms first) ordered)) in
    peak_effective_demand r = peak /\ baseline_throttle_rate r = rate is_throttled ordered /\
    projected_throttle_rate r = projected (rate is_throttled ordered) (rate is_queueable ordered) (excess_ratio peak capacity).
Proof.
  unfold replay. destruct events as [|e l]; [done|]. destruct (is_finite capacity); cbn [negb orb]; [|done].
  destruct (f_le capacity f_zero); [done|]. unfold report. destruct (sort by_timestamp (e :: l)) as [|first rest]; [done|].
  destruct (last (first :: rest)); [|done]. intros [= <-]. by exists first.
Qed.

(** The peak of a report is the largest demand of any second: with the
    seconds counted from the earliest event, no second of the trace has more
    work than the peak, and one has exactly that much. *)
Theorem peak_is_busiest_second events capacity cost inc r :
  zsum raw_work events <= 2 ^ PREC -> replay events capacity cost inc = Returns (Ok r) ->
  exists first, first ∈ events /\ (forall e, e ∈ events -> timestamp_ms first <= timestamp_ms e) /\
    let peak := ext (peak_effective_demand r) in
    (exists k, peak = load (timestamp_ms first) events k * ONE) /\ (forall k, load (timestamp_ms first) events k * ONE <= peak).
Proof.
  intros B E. destruct (replay_ok _ _ _ _ _ E) as (first & Hf & _ & _ & Hp & _). pose proof (sort_perm by_timestamp events) as P.
  pose proof (by_timestamp_sorted events) as S. destruct (sort by_timestamp events) as [|f ordered]; [done|]. injection Hf as ->.
  assert (HL : forall k, load (timestamp_ms first) (first :: ordered) k = load (timestamp_ms first) events k) by (intros k; unfold load; by rewrite P).
  destruct (demand_spec (timestamp_ms first) (first :: ordered)) as (peak & Ep & _ & _ & [k Hk] & Hm); [done | by rewrite P|].
  rewrite Ep in Hp. cbn [default from_option id] in Hp. exists first. cbn zeta. rewrite Hp. split_and!.
  - rewrite <- P. left.
  - intros e. rewrite <- P. apply StronglySorted_inv in S as [_ F]. rewrite Forall_forall in F.
    intros [-> | He]%elem_of_cons; [lia | by apply F].
  - exists k. by rewrite <- HL.
  - intros k'. rewrite <- HL. apply Hm.
Qed.

(** The rates of a report are probabilities: the observed and the projected
    throttling are numbers between zero and one, for every trace and
    capacity. *)
Theorem rates_are_probabilities events capacity cost inc r :
  valid capacity -> Z.of_nat (length events) <= U64_MAX -> zsum raw_work events <= 2 ^ PREC ->
  replay events capacity cost inc = Returns (Ok r) ->
  in_unit (baseline_throttle_rate r) /\ in_unit (projected_throttle_rate r).
Proof.
  intros V L B E. destruct (replay_ok _ _ _ _ _ E) as (first & Hf & Fc & Lc & _ & Eb & Ep). pose proof (sort_perm by_timestamp events) as P.
  assert (NE : sort by_timestamp events <> []) by (by destruct (sort by_timestamp events)).
  destruct (demand_spec (timestamp_ms first) (sort by_timestamp events) NE ltac:(by rewrite P)) as (peak & El & [Np _] & Lp & _).
  rewrite El in Ep. cbn [default from_option id] in Ep.
  assert (R : forall p, in_unit (rate p (sort by_timestamp events))) by (intros p; apply rate_in_unit; [done | by rewrite P]).
  rewrite Eb, Ep. split; [apply R|]. apply projected_in_unit; [apply R.. |].
  apply excess_in_unit; try done. eapply (small_finite peak PREC); [done | unfold PREC; lia | done].
Qed.

Lemma peak_is_busiest_second_witness : exists r first, replay sample_trace (f_of_Z 100) None None = Returns (Ok r) /\
  first ∈ sample_trace /\ forall k, load (timestamp_ms first) sample_trace k * ONE <= ext (peak_effective_demand r).
Proof.
  pose proof sample_indices as H.
  destruct (replay sample_trace (f_of_Z 100) None None) as [[r|]|] eqn:E; [|discriminate H..]. clear H.
  destruct (peak_is_busiest_second sample_trace (f_of_Z 100) None None r) as (first & H1 & _ & _ & H2);
    [apply Z.leb_le; vm_compute; reflexivity | exact E|].
  exists r, first. exact (conj eq_refl (conj H1 H2)).
Defined.

Lemma rates_are_probabilities_witness : exists r, replay sample_trace (f_of_Z 100) None None = Returns (Ok r) /\
  in_unit (baseline_throttle_rate r) /\ in_unit (projected_throttle_rate r).
Proof.
  pose proof sample_indices as H.
  destruct (replay sample_trace (f_of_Z 100) None None) as [[r|]|] eqn:E; [|discriminate H..]. clear H.
  exists r. split; [reflexivity|].
  apply (rates_are_probabilities sample_trace (f_of_Z 100) None None r);
    [vm_compute; reflexivity | apply Z.leb_le; vm_compute; reflexivity | apply Z.leb_le; vm_compute; reflexivity | exact E].
Defined.

Lemma classes_are_exact_witness : exists r, replay sample_trace (f_of_Z 100) None None = Returns (Ok r) /\
  zsum (fun c => requests c.2) (classes r) = 3.
Proof.
  pose proof sample_indices as H.
  destruct (replay sample_trace (f_of_Z 100) None None) as [[r|]|] eqn:E; [|discriminate H..]. clear H.
  exists r. split; [reflexivity|].
  apply (classes_are_exact sample_trace (f_of_Z 100) None None r); [apply Z.leb_le; vm_compute; reflexivity | exact E].
Defined.
