(* ===== verification/TraceSerde.v ===== *)
(** * The rows of a trace (crates/simulator)

    The derived [Serialize] and [Deserialize] of [TraceEvent], which reads a line
    of JSON or a row of CSV: every field but the time stamp has a default, and
    unknown fields are skipped. *)

From stdpp Require Import base gmap strings list sorting.
From Stdlib Require Import ZArith Lia String Ascii.
From S2P Require Import Prelude F64 Core Config Serde ConfigSerde ConfigSerdeThms Simulator.

Open Scope string_scope.
Open Scope Z_scope.

Definition default_name : string := "default".
Definition default_class : string := "standard".

Section trace.
Context {SC : Scalars}.

Definition u16 : Codec Z := number (2 ^ 16).

Definition TRACE_FIELDS : list string :=
  ["timestamp_ms"; "provider"; "model"; "pool"; "application"; "tenant"; "service_class"; "input_tokens"; "cached_tokens";
   "requested_max_output"; "actual_output"; "latency_ms"; "status"; "retry_after_ms"; "throttled"].

Definition trace_codec : Codec TraceEvent := lenient TRACE_FIELDS
  (fun e => [("timestamp_ms", encode usize (timestamp_ms e)); ("provider", encode text (ev_provider e)); ("model", encode text (ev_model e));
             ("pool", encode text (ev_pool e)); ("application", encode text (ev_application e)); ("tenant", encode text (ev_tenant e));
             ("service_class", encode text (service_class e)); ("input_tokens", encode usize (ev_input_tokens e));
             ("cached_tokens", encode usize (cached_tokens e)); ("requested_max_output", encode usize (requested_max_output e));
             ("actual_output", encode usize (actual_output e)); ("latency_ms", encode usize (latency_ms e)); ("status", encode u16 (ev_status e));
             ("retry_after_ms", encode usize (retry_after_ms e)); ("throttled", encode flag (throttled e))])
  (fun b fs =>
    time ← required usize b fs "timestamp_ms"; provider ← defaulted text "" b fs "provider"; model ← defaulted text "" b fs "model";
    pool ← defaulted text "" b fs "pool"; application ← defaulted text default_name b fs "application";
    tenant ← defaulted text default_name b fs "tenant"; class ← defaulted text default_class b fs "service_class";
    input ← defaulted usize 0 b fs "input_tokens"; cached ← defaulted usize 0 b fs "cached_tokens";
    requested ← defaulted usize 0 b fs "requested_max_output"; actual ← defaulted usize 0 b fs "actual_output";
    latency ← defaulted usize 0 b fs "latency_ms"; status ← defaulted u16 0 b fs "status";
    retry ← defaulted usize 0 b fs "retry_after_ms"; throttled ← defaulted flag false b fs "throttled";
    Some (mkTraceEvent time provider model pool application tenant class input cached requested actual latency status retry throttled)).

(** The ranges of the fields. *)
Definition event_typed (e : TraceEvent) : Prop :=
  in_u64 (timestamp_ms e) /\ in_u64 (ev_input_tokens e) /\ in_u64 (cached_tokens e) /\ in_u64 (requested_max_output e) /\
  in_u64 (actual_output e) /\ in_u64 (latency_ms e) /\ (in_u64 (ev_status e) /\ ev_status e < 2 ^ 16) /\ in_u64 (retry_after_ms e).

(** An event that is written is read back. *)
#[export] Instance trace_faithful {SL : ScalarLaws} : Faithful trace_codec event_typed.
Proof. apply lenient_faithful; [done|]. intros b [] (? & ? & ? & ? & ? & ? & ? & ?). unfold u16. read_fields. done. Qed.

(** A row needs its time stamp only. *)
Lemma trace_minimal {SL : ScalarLaws} b t : in_u64 t ->
  decode trace_codec b (Mapping [("timestamp_ms", encode usize t)]) =
  Some (mkTraceEvent t "" "" "" "default" "default" "standard" 0 0 0 0 0 0 0 false).
Proof.
  intros Ht. unfold trace_codec, lenient. cbn [decode]. change (known_once _ _) with true. cbv iota. unfold required, defaulted.
  cbn [entry String.eqb Ascii.eqb Bool.eqb andb mbind option_bind]. by rewrite faithful.
Qed.

(** A misspelt optional field is dropped without an error, and its default
    used. *)
Lemma trace_skips_unknown {SL : ScalarLaws} b t d : in_u64 t ->
  decode trace_codec b (Mapping [("timestamp_ms", encode usize t); ("serviceClass", d)]) =
  decode trace_codec b (Mapping [("timestamp_ms", encode usize t)]).
Proof. reflexivity. Qed.
End trace.
