(* ===== verification/Report.v ===== *)
(** * Reports of a replay as text, JSON and HTML (crates/simulator)

    [terminal] and [html].  The serializer of [serde_json] is the class
    [JsonText]; what the page relies on, and does not get, is in
    [JsonTextLaws]: text is copied, and only quotes, backslashes and control
    characters are escaped. *)

From stdpp Require Import base gmap strings countable sorting list.
From Stdlib Require Import ZArith Lia SpecFloat Ascii.
From S2P Require Import Prelude Rounding F64 F64Facts F64Text Web Json Core Config Capacity Coordinator Scheduler Admission Proxy ProxyHttp ProxySystem Admin Simulator SimulatorThms.

Open Scope Z_scope.

(** ** [terminal] *)

(** The characters of a text: its bytes but the continuation bytes of UTF-8. *)
Fixpoint char_count (s : string) : Z :=
  match s with
  | EmptyString => 0
  | String c rest => (if (128 <=? byte_val c) && (byte_val c <? 192) then 0 else 1) + char_count rest
  end.

Fixpoint blanks (n : nat) : string := match n with O => EmptyString | S n => String " " (blanks n) end.

(** [{:n}] and [{:>n}]. *)
Definition pad_right (n : Z) (s : string) : string := s +:+ blanks (Z.to_nat (n - char_count s)).
Definition pad_left (n : Z) (s : string) : string := blanks (Z.to_nat (n - char_count s)) +:+ s.

Definition percent (x : f64) : f64 := f_mul x (f_of_Z 100).

Definition class_line (cr : string * ClassReport) : string :=
  let '(c, r) := cr in
  line (pad_right 12 c +:+ " queue p50/p95/p99 " +:+ pad_left 6 (decimal (queue_p50_ms r)) +:+ "/" +:+ pad_left 6 (decimal (queue_p95_ms r))
        +:+ "/" +:+ pad_left 6 (decimal (queue_p99_ms r)) +:+ " ms; deadline violations " +:+ decimal (deadline_violations r)).

Definition terminal (r : ReplayReport) : string :=
  line ("Capacity configured          " +:+ f_fixed 1 (configured_capacity r) +:+ " units") +:+
  line ("Average effective demand     " +:+ f_fixed 1 (average_effective_demand r) +:+ " units/s") +:+
  line ("Peak effective demand        " +:+ f_fixed 1 (peak_effective_demand r) +:+ " units/s") +:+
  line ("Observed throttling          " +:+ f_fixed 2 (percent (baseline_throttle_rate r)) +:+ "%") +:+
  line ("Projected throttling         " +:+ f_fixed 2 (percent (projected_throttle_rate r)) +:+ "%") +:+
  line ("Fairness (Jain index)        " +:+ f_fixed 3 (fairness_jain_index r)) +:+
  line ("Capacity headroom            " +:+ f_fixed 1 (capacity_headroom r) +:+ " units") +:+
  line ("Potential capacity deferred  " +:+ f_fixed 1 (potential_capacity_deferred_units r) +:+ " units") +:+
  line ("Confidence                   " +:+ report_confidence r) +:+
  line EmptyString +:+
  line (recommendation r) +:+
  text_concat (class_line <$> classes r).

(** ** JSON *)

(** The derived [Serialize] of the two records. *)
Definition class_json (r : ClassReport) : Value :=
  Obj [("requests", json_u64 (requests r)); ("queue_p50_ms", json_u64 (queue_p50_ms r)); ("queue_p95_ms", json_u64 (queue_p95_ms r));
       ("queue_p99_ms", json_u64 (queue_p99_ms r)); ("deadline_violations", json_u64 (deadline_violations r))]%string.

Definition report_json (r : ReplayReport) : Value :=
  Obj [("configured_capacity", json_f64 (configured_capacity r));
       ("average_effective_demand", json_f64 (average_effective_demand r));
       ("peak_effective_demand", json_f64 (peak_effective_demand r));
       ("utilization_p50", json_f64 (utilization_p50 r));
       ("utilization_p95", json_f64 (utilization_p95 r));
       ("baseline_throttle_rate", json_f64 (baseline_throttle_rate r));
       ("projected_throttle_rate", json_f64 (projected_throttle_rate r));
       ("fairness_jain_index", json_f64 (fairness_jain_index r));
       ("starvation_incidents", json_u64 (starvation_incidents r));
       ("capacity_headroom", json_f64 (capacity_headroom r));
       ("potential_capacity_deferred_units", json_f64 (potential_capacity_deferred_units r));
       ("estimated_cost_avoided", from_option json_f64 Null (estimated_cost_avoided r));
       ("confidence", json_text (report_confidence r));
       ("recommendation", json_text (recommendation r));
       ("classes", Obj ((fun cr => (cr.1, class_json cr.2)) <$> classes r));
       ("assumptions", Arr (json_text <$> assumptions r))]%string.

(** [serde_json::to_string] of a value. *)
Class JsonText : Type := { to_json : Value -> string }.

(** The keys of the objects in a value. *)
Fixpoint keys_in (v : Value) : list string :=
  match v with
  | Arr l => l ≫= keys_in
  | Obj fields => fields ≫= (fun f => f.1 :: keys_in f.2)
  | _ => []
  end.

(** Characters that JSON text holds as they are. *)
Definition json_plain_char (c : ascii) : bool := (32 <=? byte_val c) && negb (Ascii.eqb c QUOTE) && negb (Ascii.eqb c BACKSLASH).
Definition json_plain : string -> bool := all_chars json_plain_char.

Class JsonTextLaws `{JsonText} : Prop := {
  json_key_verbatim : forall v k, k ∈ keys_in v -> json_plain k = true -> exists pre post, to_json v = pre +:+ quoted k +:+ post
}.

(** ** [html] *)

Definition HTML_HEAD : string :=
  "<!doctype html><meta charset=utf-8><title>InferQoS replay</title><style>body{font:16px system-ui;max-width:900px;margin:48px auto;color:#18212f}pre{padding:24px;background:#f4f6f8;border-radius:12px;white-space:pre-wrap}</style><h1>InferQoS replay report</h1><p>Metadata-only projection. No prompts or completions were required.</p><pre id=r></pre><script>".

(** The script that fills the page. *)
Definition page_script (data : string) : string := "r.textContent=JSON.stringify(" +:+ data +:+ ",null,2)".

Definition html `{JsonText} (r : ReplayReport) : string := HTML_HEAD +:+ page_script (to_json (report_json r)) +:+ "</script>".

(** What a browser takes as the first script of a page: the text from the first
    [<script>] to the next [</script>]. *)
Definition first_script (page : string) : option string :=
  '(_, rest) ← split_on "<script>" page; fst <$> split_on "</script>" rest.

(** ** The page and its data *)

Lemma length_text (s t : string) : String.length (s +:+ t) = (String.length s + String.length t)%nat.
Proof. apply length_app_s. Qed.

Lemma split_on_first sep x y : exists p q, split_on sep (x +:+ (sep +:+ y)) = Some (p, q) /\ (String.length p <= String.length x)%nat.
Proof.
  assert (HS : forall s r, strip_prefix sep s = Some r -> split_on sep s = Some (EmptyString, r))
    by (intros s r E; destruct s; cbn [split_on]; by rewrite E).
  induction x as [|c x (p & q & E & L)].
  - exists EmptyString, y. split; [|done]. apply HS. by apply strip_prefix_spec.
  - change (String c x +:+ ?t) with (String c (x +:+ t)). destruct (strip_prefix sep (String c (x +:+ (sep +:+ y)))) as [r|] eqn:ES.
    + exists EmptyString, r. split; [by apply HS | cbn; lia].
    + exists (String c p), q. cbn [split_on String.length]. rewrite ES, E. split; [done | lia].
Qed.

Lemma class_reported events capacity cost inc r e : replay events capacity cost inc = Returns (Ok r) -> e ∈ events ->
  service_class e ∈ (classes r).*1.
Proof.
  unfold replay. intros E He. destruct events as [|e0 l]; [done|]. destruct (_ || _); [done|].
  set (ordered := sort by_timestamp (e0 :: l)) in *. assert (Ho : e ∈ ordered) by (unfold ordered; by rewrite sort_perm). clearbody ordered.
  destruct (report _ _ _ _ _) as [r'|] eqn:ER; [|done]. injection E as <-. unfold report in ER.
  destruct ordered as [|first rest] eqn:EO; [done|]. destruct (last _); [|done]. injection ER as <-. cbn [classes].
  unfold class_reports. rewrite <- EO in *. clear EO. apply list_elem_of_fmap.
  destruct (by_class_fold capacity ordered ∅ (map_Forall_empty _)) as [_ HW]. specialize (HW (service_class e)).
  fold (by_class capacity ordered) in HW. rewrite lookup_empty in HW. cbn in HW.
  destruct (by_class capacity ordered !! service_class e) as [v|] eqn:EV.
  - exists (service_class e, class_report (service_class e) v). split; [done|].
    apply list_elem_of_fmap. exists (service_class e, v). split; [done|]. by apply elem_of_btree_iter.
  - cbn in HW. assert (Hw : wait_of capacity e ∈ waits capacity (service_class e) ordered)
      by (unfold waits; apply list_elem_of_fmap_2, list_elem_of_filter; done).
    rewrite <- HW in Hw. by apply not_elem_of_nil in Hw.
Qed.

(** A trace can put markup into the HTML report: when the service class of
    an event contains the end tag of the script, what a browser takes as the
    script of the page ends inside the data, before the script the page means;
    the text of the trace after the tag is read as HTML. *)
Theorem report_script_ends_in_data `{JsonTextLaws} events capacity cost inc r e u w :
  replay events capacity cost inc = Returns (Ok r) -> e ∈ events ->
  service_class e = u +:+ "</script>" +:+ w -> json_plain (service_class e) = true ->
  exists t, first_script (html r) = Some t /\ (String.length t < String.length (page_script (to_json (report_json r))))%nat.
Proof.
  intros ER He EC HP. pose proof (class_reported _ _ _ _ _ _ ER He) as [[c cr] [Ec Hc]]%list_elem_of_fmap. cbn [fst] in Ec. rewrite Ec in EC, HP.
  destruct (json_key_verbatim (report_json r) c) as (pre & post & EJ); [|done|].
  { unfold report_json. cbn [keys_in]. apply list_elem_of_bind. exists ("classes"%string, Obj ((fun cr => (cr.1, class_json cr.2)) <$> classes r)).
    split; [|do 14 right; by left]. right. cbn [keys_in snd]. apply list_elem_of_bind.
    exists (c, class_json cr). split; [by left|]. apply list_elem_of_fmap. by exists (c, cr). }
  rewrite EC in EJ. unfold html, first_script.
  replace (split_on "<script>" (HTML_HEAD +:+ page_script (to_json (report_json r)) +:+ "</script>"))
    with (Some (String.substring 0 (String.length HTML_HEAD - 8) HTML_HEAD, page_script (to_json (report_json r)) +:+ "</script>")) by reflexivity.
  cbn [mbind option_bind].
  set (x := "r.textContent=JSON.stringify(" +:+ pre +:+ String QUOTE u).
  set (y := (w +:+ String QUOTE EmptyString) +:+ post +:+ ",null,2)" +:+ "</script>").
  assert (EP : page_script (to_json (report_json r)) +:+ "</script>" = x +:+ ("</script>" +:+ y)).
  { rewrite EJ. unfold x, y, page_script, quoted. rewrite !app_assoc_s. do 2 f_equal.
    change (String QUOTE ?a +:+ ?b) with (String QUOTE (a +:+ b)). by rewrite !app_assoc_s. }
  destruct (split_on_first "</script>" x y) as (p & q & Es & L). rewrite EP, Es. exists p. split; [done|].
  eapply Nat.le_lt_trans; [exact L|]. unfold x, page_script. rewrite EJ. unfold quoted. rewrite !length_text. cbn [String.length].
  rewrite !length_text. cbn. lia.
Qed.

(** ** A serializer *)

Definition json_escape_char (c : ascii) : string :=
  if Ascii.eqb c QUOTE then String BACKSLASH (String QUOTE EmptyString)
  else if Ascii.eqb c BACKSLASH then String BACKSLASH (String BACKSLASH EmptyString)
  else if byte_val c <? 32 then String BACKSLASH ("u00" +:+ digits_n 2 (byte_val c / 16 * 10 + byte_val c mod 16) EmptyString)
  else String c EmptyString.
Fixpoint json_escape (s : string) : string :=
  match s with EmptyString => EmptyString | String c rest => json_escape_char c +:+ json_escape rest end.

Fixpoint joined (l : list string) : string :=
  match l with [] => EmptyString | [s] => s | s :: l => s +:+ "," +:+ joined l end.

Fixpoint compact (v : Value) : string :=
  match v with
  | Null => "null"
  | Boolean b => if b then "true" else "false"
  | Num (PosInt n) => decimal n
  | Num (NegInt n) => "-" +:+ decimal (- n)
  | Num (Float x) => f_display x
  | Str s => quoted (json_escape (String.string_of_list_ascii s))
  | Arr l => "[" +:+ joined (map compact l) +:+ "]"
  | Obj fields => "{" +:+ joined (map (fun f => quoted (json_escape f.1) +:+ ":" +:+ compact f.2) fields) +:+ "}"
  end.

Definition compact_text : JsonText := {| to_json := compact |}.

Definition within (s t : string) : Prop := exists pre post, t = pre +:+ s +:+ post.

Lemma within_refl s : within s s.
Proof. exists EmptyString, EmptyString. change (s = s +:+ EmptyString). by rewrite text_app_nil. Qed.

Lemma within_app_l s t t' : within s t -> within s (t +:+ t').
Proof. intros (pre & post & ->). exists pre, (post +:+ t'). by rewrite !app_assoc_s. Qed.

Lemma within_app_r s t t' : within s t' -> within s (t +:+ t').
Proof. intros (pre & post & ->). exists (t +:+ pre), post. by rewrite !app_assoc_s. Qed.

Lemma within_joined s t l : t ∈ l -> within s t -> within s (joined l).
Proof.
  intros Ht Hs. induction l as [|x l IH]; [by apply not_elem_of_nil in Ht|]. apply elem_of_cons in Ht as [<- | Ht].
  - destruct l; [done|]. by apply within_app_l.
  - destruct l as [|z l]; [by apply not_elem_of_nil in Ht|]. do 2 apply within_app_r. by apply IH.
Qed.

Lemma json_escape_plain s : json_plain s = true -> json_escape s = s.
Proof.
  unfold json_plain. induction s as [|c s IH]; [done|]. cbn [all_chars json_escape]. intros [[[H1 H2]%andb_prop H3]%andb_prop Hs]%andb_prop.
  rewrite IH by done. unfold json_escape_char. apply negb_true_iff in H2 as ->. apply negb_true_iff in H3 as ->.
  apply Z.leb_le in H1. destruct (Z.ltb_spec (byte_val c) 32); [lia | done].
Qed.

Lemma compact_text_laws : @JsonTextLaws compact_text.
Proof.
  split. intros v k Hk HP. change (within (quoted k) (compact v)).
  induction v as [| | | | l IH | l IH] using value_ind; cbn [keys_in] in Hk; try (by apply not_elem_of_nil in Hk).
  - apply list_elem_of_bind in Hk as (v & Hk & Hv). rewrite Forall_forall in IH. cbn [compact]. apply within_app_r, within_app_l.
    eapply within_joined; [apply list_elem_of_fmap_2, Hv | by apply IH].
  - apply list_elem_of_bind in Hk as ([k' v] & Hk & Hv). rewrite Forall_forall in IH. cbn [compact]. apply within_app_r, within_app_l.
    eapply within_joined; [exact (list_elem_of_fmap_2 (fun f : string * Value => quoted (json_escape f.1) +:+ ":" +:+ compact f.2) l (k', v) Hv)|].
    cbn [fst snd] in *. apply elem_of_cons in Hk as [-> | Hk].
    + apply within_app_l. rewrite json_escape_plain by done. apply within_refl.
    + do 2 apply within_app_r. exact (IH (k', v) Hv Hk).
Qed.

Definition hostile_event : TraceEvent :=
  mkTraceEvent 0 "" "" "" "app" "tenant" "</script><b>" 100 0 10 10 5 200 0 false.
Definition hostile_trace : list TraceEvent := [hostile_event; mkTraceEvent 1500 "" "" "" "app" "tenant" "batch" 300 0 10 10 5 429 0 false].

Lemma report_script_ends_in_data_witness :
  match replay hostile_trace (f_of_Z 250) None None with
  | Returns (Ok r) => exists t, first_script (@html compact_text r) = Some t /\
      (String.length t < String.length (page_script (compact (report_json r))))%nat
  | _ => False
  end.
Proof.
  assert (E : match replay hostile_trace (f_of_Z 250) None None with Returns (Ok _) => true | _ => false end = true) by (vm_compute; reflexivity).
  destruct (replay hostile_trace (f_of_Z 250) None None) as [[r|]|] eqn:ER; [|discriminate E..].
  apply (@report_script_ends_in_data compact_text compact_text_laws hostile_trace (f_of_Z 250) None None r hostile_event "" "<b>");
    [exact ER | left | reflexivity | reflexivity].
Defined.

Example terminal_ex :
  match replay hostile_trace (f_of_Z 250) None None with
  | Returns (Ok r) => map (String.substring 0 40) (page_lines (terminal r)) =
      ["Capacity configured          250.0 units"; "Average effective demand     280.0 units"; "Peak effective demand        310.0 units";
       "Observed throttling          50.00%"; "Projected throttling         28.47%"; "Fairness (Jain index)        1.000";
       "Capacity headroom            0.0 units"; "Potential capacity deferred  0.0 units"; "Confidence                   low"; "";
       "Short peaks and queueable work indicate "; "</script><b> queue p50/p95/p99    171/  "; "batch        queue p50/p95/p99   1235/  "]%string
  | _ => False
  end.
Proof. vm_compute. reflexivity. Qed.
