(* ===== verification/Cli.v ===== *)
(** * The command line (crates/cli)

    The commands with logic of their own: [serve] (the mode override, the TLS
    set-up, the wait for active requests when draining), the fingerprints of
    client certificates, [init], [doctor], [policy test], [replay],
    [benchmark], [deploy] and [diagnostics].  What they read (files, installed
    tools, exit codes, name resolution) are arguments; a command that runs
    other programs returns the list of those it ran.  Output and the remaining
    commands are in [Commands]. *)

From stdpp Require Import base gmap strings countable sorting list pretty.
From Stdlib Require Import ZArith Lia Ascii String.
From S2P Require Import Prelude Web Json F64 Core Config Scheduler Admission Simulator.

Open Scope string_scope.
Open Scope Z_scope.

(** ** Serving *)

(** The configuration [serve] runs with: [inferqos shadow] overrides the mode. *)
Definition serve_config (config : Config) (mode_override : option Mode) : Config :=
  match mode_override with
  | None => config
  | Some m =>
      mkConfig (api_version config) (kind config) m (server config) (admin config) (coordinator config) (service_classes config)
        (pools config) (policies config) (identity_config config) (limits config)
  end.

(** The wait for active requests: [clock i] and [active i] are what the [i]-th
    evaluation of the condition reads.  The number of sleeps. *)
Fixpoint drain_wait (fuel : nat) (deadline : Instant) (clock : nat -> Instant) (active : nat -> Z) (i : nat) : option nat :=
  if (0 <? active i) && (clock i <? deadline) then
    match fuel with O => None | S fuel => drain_wait fuel deadline clock active (S i) end
  else Some i.

(** The deadline of the wait: 30 seconds, in nanoseconds, after the start. *)
Definition DRAIN_TIMEOUT : Duration := from_secs 30.
Definition DRAIN_SLEEP : Duration := from_millis 50.

(** [load_mtls_config]: files, PEM parsing, the trust store's count of added and
    ignored certificates, the verifier and the pair of certificate and key. *)
Record TlsFiles : Type := mkTlsFiles {
  read : string -> result string Bytes;
  pem_certs : Bytes -> result string (list Bytes);
  pem_key : Bytes -> result string Bytes;
  add_parsable : list Bytes -> nat * nat;
  verifier : list Bytes -> result string unit;
  single_cert : list Bytes -> Bytes -> result string unit
}.
Record MtlsServer : Type := mkMtlsServer { server_certs : list Bytes; server_key : Bytes; client_roots : list Bytes }.

Definition context {A} (message : string) (r : result string A) : result string A :=
  match r with Ok a => Ok a | Err _ => Err message end.

Definition load_mtls_config (f : TlsFiles) (t : ServerTlsConfig) : result string MtlsServer :=
  let? cert_pem := context ("cannot read server TLS certificate " +:+ cert_file t) (read f (cert_file t)) in
  let? key_pem := context ("cannot read server TLS private key " +:+ key_file t) (read f (key_file t)) in
  let? ca_pem := context ("cannot read mTLS client CA " +:+ client_ca_file t) (read f (client_ca_file t)) in
  let? certs := pem_certs f cert_pem in
  let? key := context "server TLS private key file contains no supported private key" (pem_key f key_pem) in
  let? roots := pem_certs f ca_pem in
  let '(added, ignored) := add_parsable f roots in
  if (added =? 0)%nat || (0 <? ignored)%nat
  then Err "mTLS client CA contains no usable certificates or contains malformed certificates"
  else
    let? _ := context "cannot build mTLS client verifier" (verifier f roots) in
    let? _ := context "server TLS certificate and private key do not match" (single_cert f certs key) in
    Ok (mkMtlsServer certs key roots).

(** ** Client certificates *)

(** One digit of [{:02x}]. *)
Definition hex_digit (n : Z) : ascii := ascii_of_N (Z.to_N (if n <? 10 then 48 + n else 87 + n)).
Definition hex_byte (c : ascii) : list ascii := [hex_digit (byte_val c / 16); hex_digit (byte_val c mod 16)].

(** The text of a digest. *)
Definition fingerprint (digest : Bytes) : string := string_of_list_ascii (flat_map hex_byte digest).

(** [MtlsAcceptor::accept]: the fingerprints of the peer's certificates, if it
    presented any; [VerifiedCertificateService::call] attaches them to every
    request of the connection. *)
Definition accept_fingerprints (sha256 : Bytes -> Bytes) (peer_certificates : option (list Bytes)) : list string :=
  map (fun certificate => fingerprint (sha256 certificate)) (default [] peer_certificates).

(** ** [init] *)

(** [str::replace]. *)
Fixpoint replace_all (fuel : nat) (pattern by_ s : string) : string :=
  match fuel with
  | O => s
  | S fuel =>
      match strip_prefix pattern s with
      | Some rest => by_ +:+ replace_all fuel pattern by_ rest
      | None => match s with EmptyString => EmptyString | String c rest => String c (replace_all fuel pattern by_ rest) end
      end
  end.

Definition EXAMPLE : string := "apiVersion: inferqos.io/v1alpha1
kind: InferQoSConfig
mode: MODE
server:
  listen: 0.0.0.0:8080
  max_body_bytes: 16777216
  spool_threshold_bytes: 262144
admin:
  listen: 127.0.0.1:9090
  expose_decisions: false
coordinator:
  type: memory
service_classes:
  realtime: { weight: 100, default_deadline: 500ms, max_queue: 100ms, max_queued: 100 }
  interactive: { weight: 50, default_deadline: 3s, max_queue: 3s, max_queued: 1000 }
  standard: { weight: 20, default_deadline: 10s, max_queue: 10s, max_queued: 3000 }
  workflow: { weight: 10, default_deadline: 30s, max_queue: 60s, max_queued: 3000 }
  batch: { weight: 1, default_deadline: 30m, max_queue: 30m, max_queued: 3000 }
pools:
  primary:
    provider: openai-compatible
    endpoint: ${INFERQOS_UPSTREAM}
    model: null
    deployment: null
    capacity_units: 50000
    auth: { type: bearer, env: INFERQOS_UPSTREAM_API_KEY }
    allowed_hosts: []
    initial_safety_factor: 1.15
policies:
  tenants:
    default: { weight: 1, guaranteed_share: 0.0, max_share: 1.0, max_concurrency: 100 }
  applications: {}
  api_keys: {}
limits:
  total_queue_depth: 10000
  total_queue_bytes: 268435456
  decision_history: 2048
  expected_replicas: 1
  allow_unsafe_uncoordinated_ha: false
".

(** [init]: the files afterwards. *)
Definition init (files : gmap string string) (path : string) (enforce : bool) (written : result string unit) :
    gmap string string * result string unit :=
  match files !! path with
  | Some _ => (files, Err (path +:+ " already exists; refusing to overwrite it"))
  | None =>
      let text := replace_all (String.length EXAMPLE) "MODE" (if enforce then "enforce" else "shadow") EXAMPLE in
      match written with
      | Err _ => (files, Err ("cannot write " +:+ path))
      | Ok _ => (<[path := text]> files, Ok tt)
      end
  end.

(** ** [doctor], [policy test], [replay] *)

Inductive DeployTarget : Type := Auto | Docker | Aca | Kubernetes | Ecs | CloudRun | Systemd.

Definition target_name (t : DeployTarget) : string :=
  match t with
  | Auto => "auto" | Docker => "docker" | Aca => "aca" | Kubernetes => "kubernetes" | Ecs => "ecs"
  | CloudRun => "cloud-run" | Systemd => "systemd"
  end.

(** The tool [doctor] looks for. *)
Definition required_tool (t : DeployTarget) : string :=
  match t with
  | Docker => "docker" | Aca => "az" | Kubernetes => "helm" | Ecs => "aws" | CloudRun => "gcloud" | Systemd => "systemctl" | Auto => "docker"
  end.

Section doctor.
Context {UL : UrlLib} (port : url -> Z) (lookup_host : string -> Z -> result string (list string)) (which : string -> bool).

(** The checks of one pool; [port] is [port_or_known_default], 443 when unknown. *)
Definition doctor_pool (name : string) (p : PoolConfig) : result string unit :=
  match parse_url (Config.endpoint p) with
  | Err _ => Err ("pool " +:+ name +:+ " has invalid endpoint")
  | Ok parsed =>
      match url_host parsed with
      | None => Err "endpoint has no host"
      | Some host =>
          match lookup_host host (port parsed) with
          | Err _ => Err ("DNS failed for pool " +:+ name +:+ " host " +:+ host)
          | Ok [] => Err ("DNS returned no addresses for pool " +:+ name +:+ " host " +:+ host)
          | Ok _ => Ok tt
          end
      end
  end.

Fixpoint doctor_pools (l : list (string * PoolConfig)) : result string unit :=
  match l with [] => Ok tt | (n, p) :: rest => let? _ := doctor_pool n p in doctor_pools rest end.

Definition doctor (loaded : result string Config) (target : option DeployTarget) : result string unit :=
  let? config := loaded in
  let? _ := doctor_pools (btree_iter string_le (pools config)) in
  match target with
  | None => Ok tt
  | Some t => if which (required_tool t) then Ok tt
              else Err ("deployment target requires '" +:+ required_tool t +:+ "', but it is not on PATH")
  end.
End doctor.

(** [policy test]: the effective class it reports. *)
Definition policy_test (loaded : result string Config) (application' tenant' : string) (class : ServiceClass) :
    result string ServiceClass :=
  let? c := loaded in
  match applications (policies c) !! application' with
  | None => Err ("application " +:+ application' +:+ " is not configured")
  | Some app =>
      let allowed := bool_decide (app_tenant app = tenant') && bool_decide (class_to_string class ∈ allowed_classes app) in
      Ok (if allowed then class else Standard)
  end.

(** [replay]: what is reported. *)
Definition cli_replay (events : result ReadError (list TraceEvent)) (capacity : f64) (cost increment : option f64) :
    outcome (option ReplayReport) :=
  match events with
  | Err _ => Returns None
  | Ok events => match replay events capacity cost increment with
                 | Panics => Panics
                 | Returns (Ok r) => Returns (Some r)
                 | Returns (Err _) => Returns None
                 end
  end.

(** ** [benchmark] *)

Definition bench_request (i : Z) (fresh : Uuid) : AdmissionRequest := {|
  req_id := fresh;
  identity := {| principal := "bench"; tenant := "tenant-" +:+ pretty (i mod 100); application := "bench"; trusted := true |};
  requested_class := Standard;
  effective_class := Standard;
  Core.pool := "primary";
  estimate := {| input_tokens := 100; output_tokens := 100; cached_input_tokens := 0; provider_cost_coefficient := f_one;
                 normalized_units := mkWorkUnits (f_of_Z 200); confidence := f32_lit 1 1; source := ExactTokenizer |};
  deadline := from_secs 10;
  queueable := true
|}.

(** The loop over the fresh identifiers of the requests, on a clock that stands
    still. *)
Fixpoint bench_loop (s : Inner) (i : Z) (fresh : list Uuid) : outcome (result SchedulerError Inner) :=
  match fresh with
  | [] => Returns (Ok s)
  | u :: rest =>
      match enqueue SchedulerConfig_default 0 s (bench_request i u) 0 20 1 1 with
      | (_, Err e) => Returns (Err e)
      | (s1, Ok _) =>
          match pop_next SchedulerConfig_default 0 s1 with
          | Panics => Panics
          | Returns (s2, _) => bench_loop s2 (i + 1) rest
          end
      end
  end.

(** [benchmark]: the mean is [elapsed / n as u32], which panics on a zero divisor. *)
Definition benchmark (n : Z) (fresh : list Uuid) (elapsed' : Duration) : outcome (result SchedulerError Duration) :=
  match bench_loop new_inner 0 fresh with
  | Panics => Panics
  | Returns (Err e) => Returns (Err e)
  | Returns (Ok _) => if n mod 2 ^ 32 =? 0 then Panics else Returns (Ok (elapsed' / (n mod 2 ^ 32)))
  end.

(** ** [deploy] *)

Record DeployArgs : Type := mkDeployArgs {
  da_target : DeployTarget;
  dry_run : bool;
  da_config : string;
  image : string;
  da_name : string;
  resource_group : option string;
  da_region : option string;
  project : option string;
  vpc_id : option string;
  subnets : list string;
  config_secret : option string
}.

Record DeployEnv : Type := mkDeployEnv {
  config_loads : result string unit; (** [Config::from_path] *)
  installed : string -> bool; (** [which] *)
  canonicalize : string -> result string string;
  current_exe : result string string;
  run_status : string -> list string -> result string (option string) (** [Command::status]: the exit status unless it is success *)
}.

(** [str::rsplit_once] at a colon. *)
Fixpoint rsplit_colon (s : string) : option (string * string) :=
  match s with
  | EmptyString => None
  | String c rest =>
      match rsplit_colon rest with
      | Some (a, b) => Some (String c a, b)
      | None => if Ascii.eqb c ":" then Some (EmptyString, rest) else None
      end
  end.

Definition image_parts (image : string) : string * string := default (image, "latest") (rsplit_colon image).

(** [Vec::join] with a comma. *)
Fixpoint join_comma (l : list string) : string :=
  match l with [] => EmptyString | [x] => x | x :: rest => x +:+ "," +:+ join_comma rest end.

(** The closure [required]. *)
Definition required (t : DeployTarget) (value : option string) (flag : string) : result string string :=
  match value with Some v => Ok v | None => Err (target_name t +:+ " deployment requires " +:+ flag) end.

(** The command of a target: lines 481 to 616. *)
Definition deploy_command (e : DeployEnv) (o : DeployArgs) (t : DeployTarget) (config : string) :
    outcome (result string (string * list string)) :=
  match t with
  | Docker =>
      Returns (Ok ("docker",
        ["run"; "-d"; "--name"; da_name o; "--restart"; "unless-stopped"; "--read-only"; "--security-opt"; "no-new-privileges:true";
         "--tmpfs"; "/tmp:rw,noexec,nosuid,size=64m"; "-p"; "8080:8080"; "-p"; "127.0.0.1:9090:9090"; "-v";
         config +:+ ":/etc/inferqos/inferqos.yaml:ro"; image o; "serve"; "--config"; "/etc/inferqos/inferqos.yaml"]))
  | Kubernetes =>
      let '(repository, tag) := image_parts (image o) in
      Returns (Ok ("helm",
        ["upgrade"; "--install"; "inferqos"; "deploy/kubernetes/helm"; "--namespace"; "inferqos"; "--create-namespace"; "--set-string";
         "image.repository=" +:+ repository +:+ ",image.tag=" +:+ tag; "--set-file"; "config=" +:+ config]))
  | Aca =>
      Returns (
        let? rg := required t (resource_group o) "--resource-group" in
        Ok ("az", ["deployment"; "group"; "create"; "--resource-group"; rg; "--name"; da_name o; "--template-file";
                   "deploy/azure/container-apps/main.bicep"; "--parameters"; "configYaml=@" +:+ config; "image=" +:+ image o]))
  | Ecs =>
      Returns (
        let? region := required t (da_region o) "--region" in
        let? vpc := required t (vpc_id o) "--vpc-id" in
        let? nets := match subnets o with
                     | [] => Err "ecs deployment requires --subnets subnet-a,subnet-b"
                     | l => Ok (join_comma l)
                     end in
        let? secret := required t (config_secret o) "--config-secret" in
        Ok ("aws", ["cloudformation"; "deploy"; "--template-file"; "deploy/aws/ecs/template.yaml"; "--stack-name"; da_name o;
                    "--capabilities"; "CAPABILITY_NAMED_IAM"; "--region"; region; "--parameter-overrides"; "Image=" +:+ image o;
                    "VpcId=" +:+ vpc; "Subnets=" +:+ nets; "ConfigSecretArn=" +:+ secret]))
  | CloudRun =>
      Returns (
        let? proj := required t (project o) "--project" in
        let? region := required t (da_region o) "--region" in
        let? secret := required t (config_secret o) "--config-secret" in
        Ok ("gcloud", ["run"; "deploy"; da_name o; "--image"; image o; "--project"; proj; "--region"; region; "--ingress"; "internal";
                       "--no-allow-unauthenticated"; "--min"; "2"; "--max"; "10"; "--concurrency"; "50"; "--port"; "8080";
                       "--set-secrets"; "INFERQOS_CONFIG_YAML=" +:+ secret +:+ ":latest"; "--args";
                       "serve,--config,/etc/inferqos/runtime.yaml"]))
  | Systemd =>
      Returns (
        let? exe := context "cannot locate the running InferQoS binary" (current_exe e) in
        Ok ("sudo", ["bash"; "deploy/systemd/install.sh"; exe; config]))
  | Auto => Panics
  end.

(** The check of the target's credentials: lines 624 to 631. *)
Definition auth_check (t : DeployTarget) : option (string * list string) :=
  match t with
  | Docker => Some ("docker", ["info"])
  | Aca => Some ("az", ["account"; "show"; "--output"; "none"])
  | Kubernetes => Some ("kubectl", ["cluster-info"])
  | Ecs => Some ("aws", ["sts"; "get-caller-identity"; "--output"; "json"])
  | CloudRun => Some ("gcloud", ["auth"; "print-access-token"])
  | Systemd | Auto => None
  end.

(** Lines 632 to 646: the programs run, and the verdict. *)
Definition run_auth_check (e : DeployEnv) (t : DeployTarget) : list (string * list string) * result string unit :=
  match auth_check t with
  | None => ([], Ok tt)
  | Some (tool, args) =>
      if negb (installed e tool) then ([], Err ("deployment target requires '" +:+ tool +:+ "', but it is not on PATH"))
      else ([(tool, args)],
            match run_status e tool args with
            | Err _ => Err ("could not execute " +:+ tool +:+ " authentication check")
            | Ok None => Ok tt
            | Ok (Some _) => Err (tool +:+ " authentication or target connectivity check failed; authenticate normally, then run inferqos doctor --target " +:+ target_name t)
            end)
  end.

Definition choose_target (e : DeployEnv) (t : DeployTarget) : result string DeployTarget :=
  match t with
  | Auto => if installed e "docker" then Ok Docker
            else Err "auto detection found no safe target; install Docker or select --target explicitly"
  | t => Ok t
  end.

(** [deploy]: the programs it ran, and its result. *)
Definition deploy (e : DeployEnv) (o : DeployArgs) : outcome (list (string * list string) * result string unit) :=
  match let? _ := context "deployment configuration is invalid" (config_loads e) in
        let? t := choose_target e (da_target o) in
        let? config := context ("cannot resolve deployment config " +:+ da_config o) (canonicalize e (da_config o)) in
        Ok (t, config)
  with
  | Err m => Returns ([], Err m)
  | Ok (t, config) =>
      match deploy_command e o t config with
      | Panics => Panics
      | Returns (Err m) => Returns ([], Err m)
      | Returns (Ok (cmd, args)) =>
          if dry_run o then Returns ([], Ok tt)
          else if negb (installed e cmd) then Returns ([], Err ("required deployment command '" +:+ cmd +:+ "' is not installed"))
          else
            let '(ran, verdict) := run_auth_check e t in
            match verdict with
            | Err m => Returns (ran, Err m)
            | Ok _ =>
                Returns ((ran ++ [(cmd, args)])%list,
                  match run_status e cmd args with
                  | Err _ => Err ("failed to start " +:+ cmd)
                  | Ok None => Ok tt
                  | Ok (Some status) => Err ("deployment command exited with " +:+ status +:+ "; run 'inferqos doctor --target " +:+ target_name t +:+ "' for prerequisites")
                  end)
            end
      end
  end.

(** ** [diagnostics collect] *)

Definition text (s : string) : Value := Str (list_ascii_of_string s).

Section diagnostics.
Context {UL : UrlLib} (version : string) (addr_text : SocketAddr -> string) (provider_text : ProviderKind -> string).

Definition mode_text (m : Mode) : string := match m with Config.Shadow => "shadow" | Enforce => "enforce" end.

Definition pool_summary (np : string * PoolConfig) : Value :=
  Obj [("name", text np.1); ("provider", text (provider_text (provider np.2))); ("capacity_units", Num (Float (capacity_units np.2)));
       ("endpoint_host", match parse_url (Config.endpoint np.2) with
                         | Ok u => match url_host u with Some h => text h | None => Null end
                         | Err _ => Null
                         end)].

(** The bundle that is written. *)
Definition diagnostics (c : Config) : Value :=
  Obj [("version", text version); ("mode", text (mode_text (mode c))); ("server", text (addr_text (server_listen (server c))));
       ("admin", text (addr_text (admin_listen (admin c)))); ("pools", Arr (map pool_summary (btree_iter string_le (pools c))));
       ("note", text "Secrets, request bodies, prompts, completions, and tokens are intentionally excluded.")].
End diagnostics.
