(* ===== verification/CliThms.v ===== *)
(** * What the commands promise

    Draining ends; certificate fingerprints match exactly the lower-case
    entries of the configuration; [policy test] agrees with the proxy;
    [benchmark] fails only on its own division; [deploy] runs nothing
    unchecked; [inferqos shadow] holds until the first reload. *)

From stdpp Require Import base gmap strings countable sorting list pretty.
From Stdlib Require Import ZArith Lia Ascii String.
From S2P Require Import Prelude Web Json F64 F64Facts Core Config Scheduler SchedulerInv SchedulerThms Admission Simulator SimulatorThms Cli.

Open Scope string_scope.
Open Scope Z_scope.

(** ** Replacing text

    The length of the text is enough fuel for [replace_all]: more does not
    change the result, because every turn takes at least one character. *)

Lemma strip_prefix_length p s rest : strip_prefix p s = Some rest ->
  String.length s = (String.length p + String.length rest)%nat.
Proof.
  revert s. induction p as [|a p IH]; intros [|b s]; cbn; intros H; simplify_eq; [done..|].
  destruct (Ascii.eqb a b); [|done]. by rewrite (IH _ H).
Qed.

Lemma replace_all_fuel pattern by_ n m s : pattern <> "" -> (String.length s <= n)%nat -> (n <= m)%nat ->
  replace_all n pattern by_ s = replace_all m pattern by_ s.
Proof.
  intros P. revert m s. induction n as [|n IH]; intros [|m] s L M; [done| |lia|]; cbn [replace_all].
  - destruct s as [|c s]; [|cbn in L; lia]. by destruct pattern.
  - destruct (strip_prefix pattern s) as [rest|] eqn:E.
    + apply strip_prefix_length in E. destruct pattern as [|c pattern]; [done|].
      cbn in E. rewrite (IH m); [done|lia..].
    + destruct s as [|c s]; [done|]. cbn in L. rewrite (IH m); [done|lia..].
Qed.

(** ** Draining *)

Section drain.
Context (start : Instant) (clock : nat -> Instant) (active : nat -> Z).
Hypothesis clock_start : start <= clock 0%nat.
Hypothesis clock_sleeps : forall i, clock i + DRAIN_SLEEP <= clock (S i).

Lemma clock_lower i : start + Z.of_nat i * DRAIN_SLEEP <= clock i.
Proof. induction i as [|i IH]; [lia|]. specialize (clock_sleeps i). unfold DRAIN_SLEEP in *. cbn in *. lia. Qed.

Lemma drain_from fuel i : (600 <= i + fuel)%nat ->
  exists n, drain_wait fuel (start + DRAIN_TIMEOUT) clock active i = Some n /\ (i <= n)%nat /\ (n <= Nat.max i 600)%nat /\
    (active n <= 0 \/ start + DRAIN_TIMEOUT <= clock n) /\
    forall j, (i <= j < n)%nat -> 0 < active j /\ clock j < start + DRAIN_TIMEOUT.
Proof.
  revert i. induction fuel as [|fuel IH]; intros i L; cbn [drain_wait];
    destruct (Z.ltb_spec 0 (active i)); destruct (Z.ltb_spec (clock i) (start + DRAIN_TIMEOUT)); cbn [andb];
    try (exists i; split_and!; [done | lia | lia | lia | lia]).
  - exfalso. pose proof (clock_lower i) as C. unfold DRAIN_SLEEP, DRAIN_TIMEOUT, from_millis, from_secs in *. lia.
  - destruct (IH (S i) ltac:(lia)) as (n & E & L1 & L2 & D & J). exists n. split_and!; [done | lia | | done |].
    + destruct (Nat.le_gt_cases (S i) 600); [lia|]. exfalso. pose proof (clock_lower i) as C.
      unfold DRAIN_SLEEP, DRAIN_TIMEOUT, from_millis, from_secs in *. lia.
    + intros j Hj. destruct (decide (j = i)) as [-> | ?]; [done|]. apply J. lia.
Qed.
End drain.

(** A draining process always ends its wait: with a clock that advances by
    at least the sleep of each turn, the loop stops after at most 600 turns,
    because no request is active any more or because 30 seconds have passed;
    until then there are active requests at every turn. *)
Theorem drain_terminates start clock active :
  start <= clock 0%nat -> (forall i, clock i + DRAIN_SLEEP <= clock (S i)) ->
  exists n, drain_wait 600 (start + DRAIN_TIMEOUT) clock active 0 = Some n /\ (n <= 600)%nat /\
    (active n <= 0 \/ start + DRAIN_TIMEOUT <= clock n) /\ forall j, (j < n)%nat -> 0 < active j.
Proof.
  intros H1 H2. destruct (drain_from start clock active H1 H2 600 0 ltac:(lia)) as (n & E & _ & L & D & J).
  exists n. split_and!; [done | lia | done |]. intros j Hj. apply J. lia.
Qed.

Lemma drain_terminates_witness : exists n,
  drain_wait 600 (0 + DRAIN_TIMEOUT) (fun i => Z.of_nat i * DRAIN_SLEEP) (fun i => 3 - Z.of_nat i) 0 = Some n /\ (n <= 600)%nat /\
    (3 - Z.of_nat n <= 0 \/ 0 + DRAIN_TIMEOUT <= Z.of_nat n * DRAIN_SLEEP) /\ forall j, (j < n)%nat -> 0 < 3 - Z.of_nat j.
Proof.
  apply (drain_terminates 0 (fun i => Z.of_nat i * DRAIN_SLEEP) (fun i => 3 - Z.of_nat i)); [cbn; lia|].
  intros i. rewrite Nat2Z.inj_succ. lia.
Defined.

(** ** Fingerprints *)

Definition is_lower_hex (c : ascii) : bool := is_ascii_hexdigit c && Ascii.eqb (ascii_lower c) c.

Lemma hex_digit_ok n : 0 <= n < 16 -> is_lower_hex (hex_digit n) = true.
Proof.
  intros H. assert (E : n ∈ map Z.of_nat (List.seq 0 16)) by (apply list_elem_of_fmap; exists (Z.to_nat n); rewrite elem_of_seq; lia).
  assert (F : forallb (fun k => is_lower_hex (hex_digit k)) (map Z.of_nat (List.seq 0 16)) = true) by (vm_compute; reflexivity).
  rewrite forallb_forall in F. apply F. by apply list_elem_of_In.
Qed.

Lemma hex_digit_onto c : is_lower_hex c = true -> exists n, 0 <= n < 16 /\ hex_digit n = c.
Proof.
  intros H. unfold is_lower_hex, is_ascii_hexdigit, ascii_lower in H. set (n := Z.of_N (N_of_ascii c)).
  assert (E : c = ascii_of_N (Z.to_N n)) by (subst n; by rewrite N2Z.id, ascii_N_embedding).
  assert (R : 48 <= n <= 57 \/ 97 <= n <= 102).
  { apply andb_true_iff in H as [H1 H2]. repeat (apply orb_true_iff in H1 as [H1 | H1]); apply andb_true_iff in H1 as [A B];
      apply N.leb_le in A, B; subst n; [lia | | lia]. exfalso.
    destruct ((65 <=? N_of_ascii c)%N && (N_of_ascii c <=? 90)%N) eqn:U; [|apply andb_false_iff in U as [U|U]; apply N.leb_gt in U; lia].
    apply Ascii.eqb_eq in H2. apply (f_equal N_of_ascii) in H2. rewrite N_ascii_embedding in H2 by lia. lia. }
  destruct R as [R | R].
  - exists (n - 48). split; [lia|]. unfold hex_digit. replace (n - 48 <? 10) with true by (symmetry; apply Z.ltb_lt; lia).
    rewrite E. do 2 f_equal. lia.
  - exists (n - 87). split; [lia|]. unfold hex_digit. replace (n - 87 <? 10) with false by (symmetry; apply Z.ltb_ge; lia).
    rewrite E. do 2 f_equal. lia.
Qed.

Lemma hex_bytes_lower d : Forall (fun c => is_lower_hex c = true) (flat_map hex_byte d).
Proof.
  induction d as [|c d IH]; cbn [flat_map]; [by apply Forall_nil|]. pose proof (byte_val_range c).
  apply Forall_app. split; [|done]. repeat apply Forall_cons_2; [apply hex_digit_ok | apply hex_digit_ok | by apply Forall_nil].
  - split; [apply Z.div_pos; lia | apply Z.div_lt_upper_bound; lia].
  - apply Z.mod_pos_bound. lia.
Qed.

(** Every even number of lower-case hexadecimal digits is the text of some bytes. *)
Lemma hex_bytes_onto n l : List.length l = (2 * n)%nat -> Forall (fun c => is_lower_hex c = true) l ->
  exists d, List.length d = n /\ flat_map hex_byte d = l.
Proof.
  revert l. induction n as [|n IH]; intros l L F; [destruct l; [by exists [] | done]|].
  destruct l as [|c1 [|c2 l]]; [cbn in L; lia..|]. apply Forall_cons in F as [F1 F]. apply Forall_cons in F as [F2 F].
  destruct (hex_digit_onto c1 F1) as (h & Hh & <-), (hex_digit_onto c2 F2) as (o & Ho & <-).
  destruct (IH l ltac:(cbn in L; lia) F) as (d & Ld & Ed). exists (ascii_of_N (Z.to_N (16 * h + o)) :: d).
  split; [by cbn; rewrite Ld|]. cbn [flat_map]. rewrite Ed. unfold hex_byte, byte_val.
  rewrite N_ascii_embedding, Z2N.id by lia.
  replace ((16 * h + o) / 16) with h by (rewrite Z.mul_comm, Z.div_add_l, Z.div_small by lia; lia).
  replace ((16 * h + o) mod 16) with o by (rewrite Z.add_comm, Z.mul_comm, Z_mod_plus_full, Z.mod_small by lia; lia). done.
Qed.

Lemma to_lower_id s : to_lower s = s <-> Forall (fun c => ascii_lower c = c) (list_ascii_of_string s).
Proof.
  induction s as [|c s IH]; cbn [to_lower list_ascii_of_string]; [split; [by intros; apply Forall_nil | done]|].
  rewrite Forall_cons, <- IH. split; [by intros [= -> ->] | by intros [-> ->]].
Qed.

Lemma length_list_ascii s : List.length (list_ascii_of_string s) = String.length s.
Proof. induction s as [|c s IH]; cbn; [done | by rewrite IH]. Qed.

(** The fingerprints of client certificates match exactly the lower-case
    keys of the configuration: of the keys that validation accepts, 64
    hexadecimal digits, those with a capital letter match no certificate, and
    every other is the fingerprint of some digest of 32 bytes. *)
Theorem fingerprint_matches key :
  String.length key = 64%nat -> all_chars is_ascii_hexdigit key = true ->
  ((exists digest, List.length digest = 32%nat /\ fingerprint digest = key) <-> to_lower key = key).
Proof.
  intros L H. rewrite to_lower_id. split.
  - intros (d & _ & <-). unfold fingerprint. rewrite list_ascii_of_string_of_list_ascii.
    eapply Forall_impl; [apply hex_bytes_lower|]. cbn. intros c [_ E]%andb_true_iff. by apply Ascii.eqb_eq.
  - intros F. destruct (hex_bytes_onto 32 (list_ascii_of_string key)) as (d & Ld & Ed).
    + by rewrite length_list_ascii, L.
    + unfold all_chars in H. rewrite forallb_forall in H. rewrite Forall_forall in F |- *. intros c Hc. unfold is_lower_hex.
      rewrite H by (by apply list_elem_of_In). rewrite (F c Hc), Ascii.eqb_refl. done.
    + exists d. split; [done|]. unfold fingerprint. rewrite Ed. apply string_of_list_ascii_of_string.
Qed.

Definition lower_key : string := "0123456789abcdef0123456789abcdef0123456789abcdef0123456789abcdef".
Lemma fingerprint_matches_witness : exists digest, List.length digest = 32%nat /\ fingerprint digest = lower_key.
Proof. apply (fingerprint_matches lower_key); vm_compute; reflexivity. Defined.

(** ** Policies *)

(** [inferqos policy test] answers what the proxy does: for a configured
    application it reports the class a trusted request of that tenant and
    application runs in. *)
Theorem policy_agrees_with_proxy c who class reported :
  trusted who = true -> policy_test (Ok c) (application who) (tenant who) class = Ok reported ->
  (effective_class_of c who class).1 = reported.
Proof.
  intros T. unfold policy_test, effective_class_of. cbn [result_bind]. destruct (applications (policies c) !! application who) as [app|]; [|done].
  rewrite T. cbn [andb]. intros [= <-]. by destruct (bool_decide (app_tenant app = tenant who) && _).
Qed.

Lemma policy_agrees_with_proxy_witness : (effective_class_of ex_config ex_who Interactive).1 = Interactive.
Proof. apply (policy_agrees_with_proxy ex_config ex_who Interactive Interactive); [reflexivity | vm_compute; reflexivity]. Defined.

(** ** The shadow override *)

(** The mode of [inferqos shadow] lasts until the file changes: the first
    reload applies the mode of the file, so that a process started in shadow
    mode begins to enforce when any other setting is edited. *)
Theorem shadow_ends_at_reload replace_identity file edited :
  mode edited = Enforce -> reload_key file = reload_key edited -> replace_identity edited = true ->
  mode (serve_config file (Some Config.Shadow)) = Config.Shadow /\
  mode (reload replace_identity (serve_config file (Some Config.Shadow)) (Ok edited)).1 = Enforce.
Proof.
  intros M K R. split; [done|]. unfold reload, ensure_reload_compatible. change (reload_key (serve_config file (Some Config.Shadow))) with (reload_key file).
  rewrite bool_decide_true by done. by rewrite R.
Qed.

Lemma shadow_ends_at_reload_witness :
  mode (serve_config ex_config (Some Config.Shadow)) = Config.Shadow /\
  mode (reload (fun _ => true) (serve_config ex_config (Some Config.Shadow)) (Ok (serve_config ex_config (Some Enforce)))).1 = Enforce.
Proof. apply (shadow_ends_at_reload (fun _ => true) ex_config (serve_config ex_config (Some Enforce))); reflexivity. Defined.

(** ** Benchmark *)

(** A scheduler with nothing queued. *)
Definition idle (s : Inner) : Prop := Inv SchedulerConfig_default s /\ all_items (queues s) = [].

Lemma idle_counts s : idle s -> depth s = 0 /\ bytes s = 0 /\ forall u, index s !! u = None.
Proof.
  intros [HI E]. pose proof (inv_depth _ _ HI) as D. pose proof (inv_bytes _ _ HI) as B. rewrite E in D, B.
  split_and!; [done | done|]. intros u. apply (inv_index_None _ _ HI). rewrite E. cbn. apply not_elem_of_nil.
Qed.

(** One turn of the loop: the request is accepted, served, and gone. *)
Lemma bench_turn s i u : idle s -> exists s1 d s2 r,
  enqueue SchedulerConfig_default 0 s (bench_request i u) 0 20 1 1 = (s1, Ok d) /\
  pop_next SchedulerConfig_default 0 s1 = Returns (s2, Some r) /\ r = bench_request i u /\ idle s2.
Proof.
  intros H. pose proof H as [HI E]. destruct (idle_counts s H) as (D & B & X).
  destruct (enqueue SchedulerConfig_default 0 s (bench_request i u) 0 20 1 1) as [s1 out] eqn:Ee.
  assert (HI1 : Inv SchedulerConfig_default s1) by (eapply enqueue_Inv; [apply wf_default | exact HI | | exact Ee]; int64).
  destruct (enqueue_cases _ _ _ _ _ _ _ _ _ _ Ee) as [(_ & -> & Hq & _) | (NA & _)].
  2: { exfalso. apply NA. split_and!; [rewrite D; cbn; lia | rewrite B; vm_compute; congruence | apply X]. }
  assert (E1 : all_items (queues s1) ≡ₚ [new_item 0 s (bench_request i u) 0]) by (rewrite Hq, enqueue_items by done; by rewrite E).
  destruct (pop_cases SchedulerConfig_default 0 s1 (inv_queues _ _ HI1)) as
    [(Hq1 & _) | (k & q & it & rest & s2 & _ & _ & _ & Ep & _ & HS)].
  { rewrite Hq1, all_items_empty in E1. by apply Permutation_nil_cons in E1. }
  pose proof (step_items _ _ _ HS) as Ei. rewrite E1 in Ei.
  assert (it = new_item 0 s (bench_request i u) 0 /\ all_items (queues s2) = []) as [-> E2].
  { apply Permutation_singleton_l in Ei. by injection Ei. }
  exists s1, (wadd (depth s) 1), s2, (bench_request i u). split_and!; [done | done | done |]. split; [|done].
  eapply pop_Inv; [apply wf_default | exact HI1 | exact Ep].
Qed.

Lemma bench_loop_ok fresh s i : idle s -> exists s', bench_loop s i fresh = Returns (Ok s') /\ idle s'.
Proof.
  revert s i. induction fresh as [|u fresh IH]; intros s i H; cbn [bench_loop]; [by exists s|].
  destruct (bench_turn s i u H) as (s1 & d & s2 & r & -> & -> & _ & H2). by apply IH.
Qed.

(** The benchmark never fails in the scheduler: each of its requests is
    accepted and served at once, however many there are.  It panics exactly
    when the number of decisions, cut to 32 bits, is zero, as with
    [--decisions 0]. *)
Theorem benchmark_outcome n fresh elapsed' :
  benchmark n fresh elapsed' = if n mod 2 ^ 32 =? 0 then Panics else Returns (Ok (elapsed' / (n mod 2 ^ 32))).
Proof.
  unfold benchmark. destruct (bench_loop_ok fresh new_inner 0) as (s & -> & _); [|done].
  split; [apply new_Inv | apply all_items_empty].
Qed.

(** ** Deployment *)

(** A deployment runs nothing unchecked.  [deploy] never panics; a dry run
    executes no program; otherwise what it executes is the credential check of
    the target and then, only if the configuration is valid, the tools are
    installed and the check succeeded, the deployment command; and it reports
    success only if that command did succeed. *)
Theorem deploy_runs_checked e o :
  exists ran res, deploy e o = Returns (ran, res) /\
  (dry_run o = true -> ran = []) /\
  (ran = [] \/ exists t config cmd args, config_loads e = Ok tt /\ choose_target e (da_target o) = Ok t /\
     canonicalize e (da_config o) = Ok config /\ deploy_command e o t config = Returns (Ok (cmd, args)) /\ installed e cmd = true /\
     (ran = (run_auth_check e t).1 \/
      ran = ((run_auth_check e t).1 ++ [(cmd, args)])%list /\ (run_auth_check e t).2 = Ok tt)) /\
  (res = Ok tt -> dry_run o = false -> exists cmd args, last ran = Some (cmd, args) /\ run_status e cmd args = Ok None).
Proof.
  unfold deploy. destruct (config_loads e) as [[]|]; cbn [context result_bind]; [|by eexists _, _; split_and!; [done | | left |]].
  destruct (choose_target e (da_target o)) as [t|] eqn:Et; cbn [context result_bind]; [|by eexists _, _; split_and!; [done | | left |]].
  destruct (canonicalize e (da_config o)) as [config|] eqn:Ec; cbn [context result_bind]; [|by eexists _, _; split_and!; [done | | left |]].
  assert (NP : deploy_command e o t config <> Panics).
  { destruct t; cbn; try done; [|by destruct (image_parts _)]. unfold choose_target in Et. by destruct (da_target o), (installed e "docker"). }
  destruct (deploy_command e o t config) as [[[cmd args]|]|] eqn:Ed; [|by eexists _, _; split_and!; [done | | left |] | done].
  destruct (dry_run o) eqn:Dr; [by eexists _, _; split_and!; [done | | left |]|].
  destruct (installed e cmd) eqn:Ei; cbn [negb]; [|by eexists _, _; split_and!; [done | | left |]].
  destruct (run_auth_check e t) as [ran verdict] eqn:Er. destruct verdict as [[]|m].
  - eexists _, _. split_and!; [done | done | right; exists t, config, cmd, args; split_and!; [done..|]; right; by rewrite Er |].
    intros Hr _. exists cmd, args. split; [apply last_snoc|]. by destruct (run_status e cmd args) as [[]|].
  - eexists _, _. split_and!; [done | done | right; exists t, config, cmd, args; split_and!; [done..|]; left; by rewrite Er | done].
Qed.

(** An image reference is split at its last colon, which is right for
    [repository:tag] and wrong for a registry with a port. *)
Definition no_colon (s : string) : bool := forallb (fun c => negb (Ascii.eqb c ":")) (list_ascii_of_string s).

Lemma rsplit_none b : no_colon b = true -> rsplit_colon b = None.
Proof.
  unfold no_colon. induction b as [|c b IH]; cbn [list_ascii_of_string forallb rsplit_colon]; [done|].
  intros [H1 H2]%andb_true_iff. rewrite (IH H2). by apply negb_true_iff in H1 as ->.
Qed.

Lemma image_parts_tagged repository tag : no_colon tag = true -> image_parts (repository +:+ String ":" tag) = (repository, tag).
Proof.
  intros H. unfold image_parts. assert (E : rsplit_colon (repository +:+ String ":" tag) = Some (repository, tag)); [|by rewrite E].
  induction repository as [|c r IH]; [change (EmptyString +:+ ?x) with x; cbn [rsplit_colon]; by rewrite (rsplit_none _ H)|].
  change (String c r +:+ ?x) with (String c (r +:+ x)). cbn [rsplit_colon]. by rewrite IH.
Qed.

Lemma image_parts_registry_port : image_parts "registry.local:5000/inferqos" = ("registry.local", "5000/inferqos").
Proof. reflexivity. Qed.

(** ** Initial configuration *)

(** [init] never replaces a file, and writes the example in the chosen mode. *)
Lemma init_keeps_files files path enforce written files' res : init files path enforce written = (files', res) ->
  (is_Some (files !! path) -> files' = files /\ is_ok res = false) /\ (forall p, p <> path -> files' !! p = files !! p).
Proof.
  unfold init. destruct (files !! path) eqn:E; [by intros [= <- <-]|].
  destruct written; intros [= <- <-]; (split; [by intros [? ?] | intros p Hp; rewrite ?lookup_insert_ne; done]).
Qed.
