(* ===== verification/Mtls.v ===== *)
(** * Client certificates from the connection to the identity (crates/cli, proxy)

    [MtlsAcceptor] computes the fingerprints of what the client presented,
    [VerifiedCertificateService] attaches them to every request of the
    connection, and the request handler hands them to the identity resolver. *)

From stdpp Require Import base gmap strings list.
From Stdlib Require Import ZArith Lia Ascii.
From S2P Require Import Prelude Web Core Config Identity Cli.

Open Scope Z_scope.

Record VerifiedClientCertificate : Type := mkVerifiedClientCertificate { sha256_fingerprints : list string }.

(** What the handler looks up in a request's extensions. *)
Record Extensions {Addr : Type} : Type := mkExtensions {
  ext_peer : option Addr; (** [ConnectInfo] *)
  ext_certificate : option VerifiedClientCertificate
}.
Arguments Extensions : clear implicits.
Arguments mkExtensions {Addr}.

Section mtls.
Context {Addr : Type} (sha256 : Bytes -> Bytes).

(** [MtlsAcceptor::accept]: [handshake] is the inner acceptor's result with the
    certificates the peer sent, in its order. *)
Definition mtls_accept (handshake : result string (option (list Bytes))) : result string VerifiedClientCertificate :=
  match handshake with
  | Err e => Err e
  | Ok peer_certificates => Ok (mkVerifiedClientCertificate (accept_fingerprints sha256 peer_certificates))
  end.

(** [VerifiedCertificateService::call]: whatever the request carried is
    replaced. *)
Definition certificate_call (certificate : VerifiedClientCertificate) (e : Extensions Addr) : Extensions Addr :=
  mkExtensions (ext_peer e) (Some certificate).

(** The handler's fingerprints. *)
Definition mtls_fingerprints (e : Extensions Addr) : list string :=
  match ext_certificate e with Some c => sha256_fingerprints c | None => [] end.
End mtls.

(** ** The identity of a connection *)

Lemma by_certificate_first config fps :
  by_certificate config fps = mapped <$> head (omap (fun f => mtls_certificate_sha256_mappings (identity_config config) !! f) fps).
Proof. induction fps as [|f fps IH]; [done|]. cbn. by destruct (_ !! f). Qed.

Section connection.
Context {Key Net Addr : Type} (decode_header : string -> option TokenHeader)
  (decode : string -> Key -> string -> string -> option (gmap string string)) (contains : Net -> Addr -> bool)
  (env : string -> option string) (sha256 : Bytes -> Bytes) (r : IdentityResolver (Key := Key) (Net := Net)).

(** A request of a connection on which the client sent [certs]. *)
Definition connection_identity (certs : list Bytes) (e : Extensions Addr) (headers : gmap string string) fetched :=
  match mtls_accept sha256 (Ok (Some certs)) with
  | Ok c => Some (resolve decode_header decode contains env r headers (ext_peer e) (mtls_fingerprints (certificate_call c e)) fetched)
  | Err _ => None
  end.

Definition mapping_of (cert : Bytes) : option IdentityMapping :=
  mtls_certificate_sha256_mappings (identity_config (resolver_config r)) !! fingerprint (sha256 cert).

(** The identity of a connection is that of the first certificate in what the
    client sent which has a mapping, whatever the headers, the peer address and
    the request's own extensions say. *)
Lemma connection_identity_first certs e headers fetched m :
  head (omap mapping_of certs) = Some m -> connection_identity certs e headers fetched = Some (Completes (r, Ok (mapped m))).
Proof.
  intros E. unfold connection_identity, mtls_accept, accept_fingerprints, mtls_fingerprints, certificate_call. cbn [default ext_certificate sha256_fingerprints].
  f_equal. unfold resolve. rewrite by_certificate_first.
  assert (EO : omap (fun f => mtls_certificate_sha256_mappings (identity_config (resolver_config r)) !! f) (map (fun c => fingerprint (sha256 c)) certs)
    = omap mapping_of certs).
  { clear E. induction certs as [|c certs IH]; [done|]. cbn. rewrite IH. reflexivity. }
  unfold id. by rewrite EO, E.
Qed.

(** A client whose own certificate has no mapping gets the identity of any
    certificate it sends along, although it proved possession of the first one
    only. *)
Lemma borrowed_certificate own borrowed e headers fetched m :
  mapping_of own = None -> mapping_of borrowed = Some m ->
  connection_identity [own; borrowed] e headers fetched = Some (Completes (r, Ok (mapped m))) /\ trusted (mapped m) = true.
Proof. intros N E. split; [|done]. apply connection_identity_first. cbn. by rewrite N, E. Qed.
End connection.
