(* ===== verification/Commands.v ===== *)
(** * The process: [main] and the commands around it (crates/cli)

    [main] with its dispatch, [serve] from loading the configuration to the end
    of draining, and the commands that read a file or a management page and
    print: [validate], [capacity status], [analyze] and [replay], [upgrade],
    [version], [explain], [diagnostics collect].  A command is what it prints
    and writes, and its result; the rest of the world is a record. *)

From stdpp Require Import base gmap strings countable sorting list.
From Stdlib Require Import ZArith Lia Ascii String.
From S2P Require Import Prelude Web Json F64 F64Text Core Config Scheduler Capacity Coordinator Admission Telemetry Proxy ProxyHttp ProxySystem Admin Simulator SimulatorThms Report Cli.

Open Scope string_scope.
Open Scope Z_scope.

(** ** Arguments *)

Record ReplayArgs : Type := mkReplayArgs {
  ra_input : string;
  ra_capacity : f64;
  cost_per_capacity_unit : option f64;
  capacity_increment : option f64;
  ra_json : option string;
  ra_html : option string
}.

Inductive Commands : Type :=
| CServe (config : string)
| CInit (output : string) (enforce : bool)
| CValidate (config : string)
| CDoctor (config : string) (target : option DeployTarget)
| CPolicyTest (config application tenant : string) (class : ServiceClass)
| CCapacityStatus (admin : string)
| CAnalyze (args : ReplayArgs)
| CReplay (args : ReplayArgs)
| CShadow (config : string)
| CBenchmark (decisions : Z)
| CDeploy (args : DeployArgs)
| CUpgrade (check : bool)
| CVersion
| CExplain (request_id : Uuid) (admin : string)
| CDiagnosticsCollect (config output : string).

(** The defaults of the arguments. *)
Definition DEFAULT_CONFIG : string := "inferqos.yaml".
Definition DEFAULT_ADMIN : string := "http://127.0.0.1:9090".
Definition DEFAULT_DECISIONS : Z := 100000.
Definition DEFAULT_IMAGE : string := "ghcr.io/dlamaro96/inferqos:latest".
Definition DEFAULT_BUNDLE : string := "inferqos-diagnostics.json".

(** ** Effects *)

(** [Print] is text on the standard output, [WriteFile] a file replaced,
    [Execute] another program run. *)
Inductive Effect : Type :=
| Print (text : string)
| WriteFile (path text : string)
| Execute (program : string) (args : list string).

(** What a command did, and how it ended. *)
Abbreviation Run A := (list Effect * result string A)%type.

Definition run_bind {A B} (r : Run A) (k : A -> Run B) : Run B :=
  match r with
  | (sofar, Ok a) => let '(more, res) := k a in ((sofar ++ more)%list, res)
  | (sofar, Err e) => (sofar, Err e)
  end.
Definition fallible {A} (r : result string A) : Run A := ([], r).
Definition print (text : string) : Run unit := ([Print text], Ok tt).
(** [println!]. *)
Definition println (text : string) : Run unit := print (line text).

Notation "'do' x := r 'in' k" := (run_bind r (fun x => k))
  (at level 10, x name, r at level 100, k at level 200) : inferqos_scope.

(** ** The world *)

(** An answer over HTTP: the status and the body as JSON. *)
Record HttpAnswer : Type := mkHttpAnswer { http_status : Z; http_json : result string Value }.

Record World : Type := mkWorld {
  load_config : string -> result string Config; (** [Config::from_path] *)
  files : gmap string string; (** the files [init] may find *)
  http_get : string -> result string HttpAnswer;
  status_text : Z -> string; (** [Display] of a status *)
  status_error : Z -> string; (** the error of [error_for_status] *)
  not_a_list : string; (** the error of decoding a [Vec] from another value *)
  trace_events : string -> result ReadError (list TraceEvent); (** [read_events] *)
  may_write : string -> result string unit;
  pkg_version : string; (** [CARGO_PKG_VERSION] *)
  git_sha : option string;
  build_target : option string;
  arch : string
}.

Section commands.
Context {UL : UrlLib} {JT : JsonText} (pretty_json : Value -> string) (uuid_text : Uuid -> string)
  (addr_text : SocketAddr -> string) (provider_text : ProviderKind -> string) (w : World).

(** [std::fs::write]. *)
Definition write (path text : string) : Run unit :=
  match may_write w path with Ok _ => ([WriteFile path text], Ok tt) | Err e => ([], Err e) end.
Definition in_context {A} (message : string) (r : Run A) : Run A := (r.1, context message r.2).

(** [str::trim_end_matches('/')]. *)
Fixpoint trim_slashes (s : string) : string :=
  match s with
  | EmptyString => EmptyString
  | String c rest =>
      match trim_slashes rest with
      | EmptyString => if Ascii.eqb c "/" then EmptyString else String c EmptyString
      | trimmed => String c trimmed
      end
  end.

(** [Value]'s indexing and [as_str]. *)
Definition index (v : Value) (key : string) : Value := default Null (get v key).
Definition as_str (v : Value) : option string := match v with Str s => Some (string_of_list_ascii s) | _ => None end.

Definition is_success (status : Z) : bool := (200 <=? status) && (status <=? 299).

(** [Response::error_for_status]. *)
Definition error_for_status (a : HttpAnswer) : result string HttpAnswer :=
  if status_is_error (http_status a) then Err (status_error w (http_status a)) else Ok a.

Definition cli_validate (validate : Config -> result string unit) (path : string) : Run unit :=
  do config := fallible (load_config w path) in
  do _ := fallible (validate config) in
  println (path +:+ " is valid (" +:+ api_version config +:+ ", " +:+ decimal (Z.of_nat (size (pools config))) +:+ " pool(s), "
         +:+ decimal (Z.of_nat (size (applications (policies config)))) +:+ " application policies)").

Definition cli_capacity (admin : string) : Run unit :=
  do answer := fallible (context "cannot reach InferQoS admin API" (http_get w (trim_slashes admin +:+ "/api/v1/capacity"))) in
  if negb (is_success (http_status answer)) then fallible (Err ("admin API returned " +:+ status_text w (http_status answer)))
  else do value := fallible (http_json answer) in println (pretty_json value).

(** ** [analyze] and [replay] *)

Definition read_error_text (path : string) (e : ReadError) : string :=
  match e with
  | CannotRead _ => "cannot read " +:+ path
  | InvalidCsvRow _ => "invalid CSV trace row"
  | InvalidJsonLine n _ => "invalid JSON on line " +:+ decimal n
  | UnsupportedFormat => "unsupported trace format; use .jsonl, .trace, .json, or .csv"
  end.

Definition replay_error_text (e : ReplayError) : string :=
  match e with NoEvents => "trace contains no events" | BadCapacity => "capacity must be positive" end.

Definition write_report (path : option string) (text : string) : Run unit :=
  match path with Some p => in_context ("cannot write " +:+ p) (write p text) | None => fallible (Ok tt) end.

Definition cli_replay_run (args : ReplayArgs) : outcome (Run unit) :=
  match trace_events w (ra_input args) with
  | Err e => Returns (fallible (Err (read_error_text (ra_input args) e)))
  | Ok events =>
      match replay events (ra_capacity args) (cost_per_capacity_unit args) (capacity_increment args) with
      | Panics => Panics
      | Returns (Err e) => Returns (fallible (Err (replay_error_text e)))
      | Returns (Ok report) =>
          Returns (do _ := print (terminal report) in
                   do _ := write_report (ra_json args) (pretty_json (report_json report)) in
                   write_report (ra_html args) (html report))
      end
  end.

Definition RELEASES : string := "https://api.github.com/repos/dlamaro96/inferqos/releases/latest".

Definition upgrade (check : bool) : Run unit :=
  do response := fallible (context "cannot query GitHub Releases" (http_get w RELEASES)) in
  if http_status response =? 404 then fallible (Err "no published InferQoS release exists yet")
  else
    do response := fallible (error_for_status response) in
    do json := fallible (http_json response) in
    match as_str (index json "tag_name") with
    | None => fallible (Err "release has no tag")
    | Some tag =>
        do _ := println ("Current: v" +:+ pkg_version w +:+ String NEWLINE ("Latest:  " +:+ tag)) in
        if check then fallible (Ok tt)
        else println ("Run the verified installer for " +:+ tag +:+ "; it validates SHA256 checksums before replacing the binary.")
    end.

Definition cli_version : Run unit :=
  println ("inferqos " +:+ pkg_version w +:+ String NEWLINE ("git_sha " +:+ default "unknown" (git_sha w)) +:+
         String NEWLINE ("build_target " +:+ default (arch w) (build_target w)) +:+ String NEWLINE "features default").

(** The body of the decisions page as a list of values. *)
Definition as_list (v : Value) : result string (list Value) := match v with Arr l => Ok l | _ => Err (not_a_list w) end.

Definition explain (id : Uuid) (admin : string) : Run unit :=
  do answer := fallible (http_get w (trim_slashes admin +:+ "/api/v1/decisions")) in
  do answer := fallible (error_for_status answer) in
  do body := fallible (http_json answer) in
  do values := fallible (as_list body) in
  match head (filter (fun v => as_str (index v "request_id") = Some (uuid_text id)) values) with
  | None => fallible (Err ("request " +:+ uuid_text id +:+ " is not in the bounded decision history"))
  | Some found => println (pretty_json found)
  end.

Definition diagnostics_collect (config output : string) : Run unit :=
  do c := fallible (load_config w config) in
  do _ := write output (pretty_json (diagnostics (pkg_version w) addr_text provider_text c)) in
  println ("Wrote sanitized diagnostic bundle to " +:+ output).

(** ** [init], [doctor], [policy test], [benchmark], [deploy] *)

Definition cli_init (path : string) (enforce : bool) : Run unit :=
  let '(after, res) := init (files w) path enforce (may_write w path) in
  do _ := ([], res) in
  do _ := (WriteFile path <$> option_list (after !! path), Ok tt) in
  println ("Wrote " +:+ path +:+ " in " +:+ (if enforce then "enforce" else "shadow") +:+ " mode. Set INFERQOS_UPSTREAM, then run:" +:+
         String NEWLINE ("  inferqos validate --config " +:+ path) +:+ String NEWLINE ("  inferqos serve --config " +:+ path)).

(** A check mark. *)
Definition CHECK : string := String (ascii_of_nat 226) (String (ascii_of_nat 156) (String (ascii_of_nat 147) " ")).

Context (port : url -> Z) (lookup_host : string -> Z -> result string (list string)) (which : string -> bool).

Fixpoint cli_doctor_pools (l : list (string * PoolConfig)) : Run unit :=
  match l with
  | [] => fallible (Ok tt)
  | (n, p) :: rest =>
      do _ := fallible (doctor_pool port lookup_host n p) in
      do _ := println (CHECK +:+ "pool " +:+ n +:+ ": DNS and endpoint syntax valid") in
      cli_doctor_pools rest
  end.

Definition cli_doctor (path : string) (target : option DeployTarget) : Run unit :=
  do config := fallible (load_config w path) in
  do _ := println (CHECK +:+ "configuration is valid") in
  do _ := cli_doctor_pools (btree_iter string_le (pools config)) in
  do _ := match target with
          | None => fallible (Ok tt)
          | Some t => if which (required_tool t) then println (CHECK +:+ "deployment prerequisite found: " +:+ required_tool t)
                      else fallible (Err ("deployment target requires '" +:+ required_tool t +:+ "', but it is not on PATH"))
          end in
  println "Doctor completed without exposing credentials or sending request bodies.".

Definition cli_policy (path application' tenant' : string) (class : ServiceClass) : Run unit :=
  do effective := fallible (policy_test (load_config w path) application' tenant' class) in
  let allowed := match load_config w path with
                 | Ok c => match applications (policies c) !! application' with
                           | Some app => bool_decide (app_tenant app = tenant') && bool_decide (class_to_string class ∈ allowed_classes app)
                           | None => false
                           end
                 | Err _ => false
                 end in
  println (text_concat (line <$>
    ["requested_class=" +:+ class_to_string class; "tenant=" +:+ tenant'; "application=" +:+ application';
     "effective_class=" +:+ class_to_string effective]) +:+
     "reason=" +:+ (if allowed then "entitlement permits requested class"
                    else "request is downgraded because identity or class entitlement does not match")).

(** [duration_debug] is [Debug] of a [Duration]. *)
Definition cli_benchmark (duration_debug : Duration -> string) (n : Z) (fresh : list Uuid) (elapsed' : Duration)
    (error_text : SchedulerError -> string) : outcome (Run unit) :=
  match benchmark n fresh elapsed' with
  | Panics => Panics
  | Returns (Err e) => Returns (fallible (Err (error_text e)))
  | Returns (Ok mean) => Returns (println (decimal n +:+ " scheduler decisions in " +:+ duration_debug elapsed' +:+ "; mean " +:+ duration_debug mean))
  end.

(** [Vec::join] with a blank. *)
Fixpoint join_blank (l : list string) : string :=
  match l with [] => EmptyString | [x] => x | x :: rest => x +:+ " " +:+ join_blank rest end.

(** The line [deploy] prints before it runs anything. *)
Definition will_run (e : DeployEnv) (o : DeployArgs) : list Effect :=
  match choose_target e (da_target o), canonicalize e (da_config o) with
  | Ok t, Ok config =>
      match deploy_command e o t config with
      | Returns (Ok (cmd, args)) => [Print (line ("Will run: " +:+ cmd +:+ " " +:+ join_blank args))]
      | _ => []
      end
  | _, _ => []
  end.

Definition DEPLOYED : string :=
  "Deployment completed. Admin access remains private by default. Verify /health/ready from the target network, then point a client base URL at the data-plane endpoint.".

Definition cli_deploy (e : DeployEnv) (o : DeployArgs) : outcome (Run unit) :=
  match deploy e o with
  | Panics => Panics
  | Returns (ran, res) =>
      Returns ((match config_loads e with Ok _ => will_run e o | Err _ => [] end ++ map (fun p => Execute p.1 p.2) ran ++
                match res with Ok _ => if dry_run o then [] else [Print (line DEPLOYED)] | Err _ => [] end)%list, res)
  end.

(** ** [serve] *)

(** How the two servers end: a failure, or the end of one of them or a signal. *)
Inductive Stop : Type :=
| DataFailed
| AdminFailed
| Stopped.

(** What [serve] needs besides the configuration: building the state, binding
    the listeners, the TLS files, and what happens then. *)
Record Host : Type := mkHost {
  build_app : Config -> result string unit;
  bind : SocketAddr -> result string unit;
  tls_files : TlsFiles;
  stop : Stop;
  stopped_at : Instant;
  clock : nat -> Instant;
  active_at : nat -> Z
}.

Definition mode_debug (m : Mode) : string := match m with Config.Shadow => "Shadow" | Enforce => "Enforce" end.

Definition banner (config : Config) : string :=
  let data := addr_text (server_listen (server config)) in
  let admin := addr_text (admin_listen (Config.admin config)) in
  text_concat (line <$>
    ["InferQoS ready"; ""; "Proxy:      http://" +:+ data; "Admin:      http://" +:+ admin; "Dashboard:  http://" +:+ admin +:+ "/ui";
     "Mode:       " +:+ mode_debug (mode config); "Pools:      " +:+ decimal (Z.of_nat (size (pools config))) +:+ " configured"; "";
     "Next:"; "  inferqos doctor"; "  inferqos capacity status"]).

(** The data plane's listener: TLS is loaded and bound by the server itself. *)
Definition open_data (h : Host) (config : Config) : result string unit :=
  match tls (server config) with
  | Some t => let? _ := load_mtls_config (tls_files h) t in Ok tt
  | None => context ("cannot bind proxy at " +:+ addr_text (server_listen (server config))) (bind h (server_listen (server config)))
  end.

(** [serve]: the number of turns it waited for active requests, [None] when the
    wait does not end. *)
Definition serve (h : Host) (path : string) (mode_override : option Mode) : Run (option nat) :=
  do loaded := fallible (load_config w path) in
  let config := serve_config loaded mode_override in
  do _ := fallible (build_app h config) in
  do _ := fallible (context ("cannot bind admin at " +:+ addr_text (admin_listen (Config.admin config))) (bind h (admin_listen (Config.admin config)))) in
  do _ := print (banner config) in
  do _ := fallible (open_data h config) in
  match stop h with
  | DataFailed => fallible (Err (match tls (server config) with Some _ => "mTLS proxy server failed" | None => "proxy server failed" end))
  | AdminFailed => fallible (Err "admin server failed")
  | Stopped => fallible (Ok (drain_wait 600 (stopped_at h + DRAIN_TIMEOUT) (clock h) (active_at h) 0))
  end.

(** ** [main] *)

(** What the commands that start something need. *)
Record Surroundings : Type := mkSurroundings {
  host : Host;
  validator : Config -> result string unit; (** [Config::validate] *)
  bench_ids : Z -> list Uuid;
  bench_elapsed : Duration;
  duration_debug : Duration -> string;
  scheduler_error : SchedulerError -> string;
  deploy_env : DeployEnv
}.

Definition serve_run (h : Host) (path : string) (mode_override : option Mode) : Run unit :=
  do _ := serve h path mode_override in fallible (Ok tt).

(** The dispatch of [main]. *)
Definition run_command (x : Surroundings) (c : Commands) : outcome (Run unit) :=
  match c with
  | CServe config => Returns (serve_run (host x) config None)
  | CShadow config => Returns (serve_run (host x) config (Some Config.Shadow))
  | CInit output enforce => Returns (cli_init output enforce)
  | CValidate config => Returns (cli_validate (validator x) config)
  | CDoctor config target => Returns (cli_doctor config target)
  | CPolicyTest config application tenant class => Returns (cli_policy config application tenant class)
  | CCapacityStatus admin => Returns (cli_capacity admin)
  | CAnalyze args | CReplay args => cli_replay_run args
  | CBenchmark decisions => cli_benchmark (duration_debug x) decisions (bench_ids x decisions) (bench_elapsed x) (scheduler_error x)
  | CDeploy args => cli_deploy (deploy_env x) args
  | CUpgrade check => Returns (upgrade check)
  | CVersion => Returns cli_version
  | CExplain id admin => Returns (explain id admin)
  | CDiagnosticsCollect config output => Returns (diagnostics_collect config output)
  end.

(** [main]: telemetry is initialized before the command and shut down after it.
    The providers that were shut down come last. *)
Definition main (x : Surroundings) (telemetry : result TelemetryError TelemetryGuard) (c : Commands) : outcome (Run unit * list string) :=
  match telemetry with
  | Err (Configuration e) => Returns (fallible (Err ("telemetry configuration failed: " +:+ e)), [])
  | Ok guard => match run_command x c with Panics => Panics | Returns r => Returns (r, shutdown guard) end
  end.
End commands.
