(* ===== verification/CommandsThms.v ===== *)
(** * What the process promises

    The effects of a command, the bundle of [diagnostics collect] and what it
    does not depend on, [explain] against the proxy's management plane, the end
    of [serve]. *)

From stdpp Require Import base gmap strings countable sorting list.
From Stdlib Require Import ZArith Lia Ascii String.
From S2P Require Import Prelude Web Json F64 F64Text Core Config Scheduler Capacity Coordinator Admission Telemetry Proxy ProxyHttp ProxySystem Admin Simulator SimulatorThms Report Cli CliThms Commands.

Open Scope string_scope.
Open Scope Z_scope.

(** ** Effects *)

(** The files a command is told to write. *)
Definition outputs (c : Commands) : list string :=
  match c with
  | CInit output _ => [output]
  | CAnalyze args | CReplay args => (option_list (ra_json args) ++ option_list (ra_html args))%list
  | CDiagnosticsCollect _ output => [output]
  | _ => []
  end.

Definition permitted (c : Commands) (e : Effect) : Prop :=
  match e with
  | Print _ => True
  | WriteFile path _ => path ∈ outputs c
  | Execute _ _ => exists args, c = CDeploy args /\ dry_run args = false
  end.

Lemma Returns_inj {A} (a b : A) : Returns a = Returns b -> a = b.
Proof. by intros [= ->]. Qed.

Lemma run_bind_ok {A B} (a : A) (k : A -> Run B) : run_bind (fallible (Ok a)) k = k a.
Proof. cbn. by destruct (k a). Qed.

Create HintDb effects.

Section effects.
Context (P : Effect -> Prop).

Lemma bind_effects {A B} (r : Run A) (k : A -> Run B) : Forall P r.1 -> (forall a, Forall P (k a).1) -> Forall P (run_bind r k).1.
Proof.
  destruct r as [sofar [a|e]]; cbn; [|auto]. intros Hd Hk. specialize (Hk a). destruct (k a). cbn in *. by apply Forall_app.
Qed.

Lemma fallible_effects {A} (r : result string A) : Forall P (fallible r).1.
Proof. apply Forall_nil_2. Qed.
End effects.
#[export] Hint Resolve bind_effects fallible_effects : effects.

Section permitted.
Context {UL : UrlLib} {JT : JsonText} (pretty_json : Value -> string) (uuid_text : Uuid -> string)
  (addr_text : SocketAddr -> string) (provider_text : ProviderKind -> string) (w : World)
  (port : url -> Z) (lookup_host : string -> Z -> result string (list string)) (which : string -> bool).
Implicit Types (c : Commands).

Lemma print_effects c t : Forall (permitted c) (print t).1.
Proof. by apply Forall_singleton. Qed.
#[local] Hint Resolve print_effects : effects.

Lemma write_effects c path t : path ∈ outputs c -> Forall (permitted c) (write w path t).1.
Proof. intros H. unfold write. destruct (may_write w path); [by apply Forall_singleton | apply Forall_nil_2]. Qed.

Lemma write_report_effects c path t : (forall p, path = Some p -> p ∈ outputs c) -> Forall (permitted c) (write_report w path t).1.
Proof. intros H. destruct path as [p|]; [by apply write_effects, H | apply Forall_nil_2]. Qed.
#[local] Hint Resolve write_effects write_report_effects : effects.

(** Follow the control flow of a command. *)
Ltac effects := repeat first [apply bind_effects; [|intros] | apply fallible_effects | apply print_effects | case_match].

Lemma replay_effects c args r : outputs c = (option_list (ra_json args) ++ option_list (ra_html args))%list ->
  cli_replay_run pretty_json w args = Returns r -> Forall (permitted c) r.1.
Proof.
  intros EO. unfold cli_replay_run. repeat case_match; intros E; try done; apply Returns_inj in E as <-; effects; apply write_report_effects; intros p Ep; rewrite EO, Ep; set_solver.
Qed.

Lemma doctor_pools_effects c l : Forall (permitted c) (cli_doctor_pools port lookup_host l).1.
Proof. induction l as [|[n p] l IH]; [apply Forall_nil_2|]. cbn [cli_doctor_pools]. effects. done. Qed.

Lemma deploy_effects e o r : cli_deploy e o = Returns r -> Forall (permitted (CDeploy o)) r.1.
Proof.
  unfold cli_deploy. destruct (deploy e o) as [[ran res]|] eqn:ED; [|done]. intros [= <-]. cbn [fst]. rewrite !Forall_app. split_and!.
  - destruct (config_loads e); [|apply Forall_nil_2]. unfold will_run. repeat case_match; try apply Forall_nil_2. by apply Forall_singleton.
  - apply Forall_map, Forall_forall. intros [p args] Hp. exists o. split; [done|].
    destruct (dry_run o) eqn:DR; [|done]. exfalso. unfold deploy in ED. rewrite DR in ED. repeat case_match; simplify_eq; by apply not_elem_of_nil in Hp.
  - repeat case_match; try apply Forall_nil_2. by apply Forall_singleton.
Qed.

Lemma serve_effects c h path m : Forall (permitted c) (serve addr_text w h path m).1.
Proof. unfold serve. effects. Qed.

End permitted.

(** ** [diagnostics collect] *)

(** The order of text is total. *)
Lemma string_le_iff a b : string_le a b <-> strings.String.le a b.
Proof. unfold string_le, strings.String.le, String.leb. by destruct (String.compare a b). Qed.

#[local] Instance entry_le_trans {V} : Transitive (entry_le (V := V) string_le).
Proof. intros x y z. unfold entry_le. rewrite !string_le_iff. by intros ->. Qed.
#[local] Instance entry_le_total {V} : Total (entry_le (V := V) string_le).
Proof. intros x y. unfold entry_le. rewrite !string_le_iff. apply (total strings.String.le). Qed.

Section summary.
Context {V W : Type} (f : string * V -> W).
Let keyed (np : string * V) : string * W := (np.1, f np).

Lemma keyed_sorted (m : gmap string V) : StronglySorted (entry_le string_le) (keyed <$> btree_iter string_le m).
Proof.
  assert (S : StronglySorted (entry_le string_le) (btree_iter string_le m)) by (apply StronglySorted_merge_sort; apply _).
  induction S as [|x l _ IH F]; [constructor|]. cbn. constructor; [done|]. apply Forall_fmap. eapply Forall_impl; [exact F|]. done.
Qed.

Lemma keyed_elem (m : gmap string V) k y : (k, y) ∈ keyed <$> btree_iter string_le m <-> exists v, m !! k = Some v /\ y = f (k, v).
Proof.
  rewrite list_elem_of_fmap. split.
  - intros ([k' v] & [= -> ->] & Hin%elem_of_btree_iter). eauto.
  - intros (v & Hk & ->). exists (k, v). split; [done|]. by apply elem_of_btree_iter.
Qed.

Lemma keyed_nodup (m : gmap string V) : NoDup (keyed <$> btree_iter string_le m).
Proof.
  eapply (NoDup_fmap_1 fst). rewrite <- list_fmap_compose. change (fst ∘ keyed) with (fst : string * V -> string). apply btree_iter_nodup.
Qed.

(** What is listed of the entries of a map, in order, is a function of what is
    listed of each entry. *)
Lemma btree_iter_summary (m m' : gmap string V) :
  (forall k, (fun v => f (k, v)) <$> m !! k = (fun v => f (k, v)) <$> m' !! k) -> f <$> btree_iter string_le m = f <$> btree_iter string_le m'.
Proof.
  intros E. assert (EK : keyed <$> btree_iter string_le m = keyed <$> btree_iter string_le m').
  { assert (El : forall x, x ∈ keyed <$> btree_iter string_le m <-> x ∈ keyed <$> btree_iter string_le m').
    { intros [k y]. rewrite !keyed_elem. specialize (E k). destruct (m !! k), (m' !! k); naive_solver. }
    eapply (StronglySorted_unique_strong (entry_le string_le)); [| apply keyed_sorted.. | apply NoDup_Permutation; [apply keyed_nodup.. | exact El]].
    intros [k1 y1] [k2 y2] H1 H2. unfold entry_le. cbn [fst]. rewrite !string_le_iff. intros L1 L2.
    assert (k1 = k2) as -> by (by apply (anti_symm strings.String.le)).
    apply El, keyed_elem in H1 as (v1 & E1 & ->). apply keyed_elem in H2 as (v2 & E2 & ->). congruence. }
  apply (f_equal (fmap snd)) in EK. by rewrite <- !list_fmap_compose in EK.
Qed.
End summary.

(** Two configurations that differ only in what a diagnostic bundle must not
    show: the same mode and listeners, and pools of the same names, kinds,
    capacities and hosts.  Credentials, identity settings, policies, keys, and
    everything but the host of an endpoint may differ. *)
Definition endpoint_host {UL : UrlLib} (p : PoolConfig) : option string :=
  match parse_url (Config.endpoint p) with Ok u => url_host u | Err _ => None end.

Record public_eq {UL : UrlLib} (c c' : Config) : Prop := {
  pe_mode : mode c = mode c';
  pe_server : server_listen (server c) = server_listen (server c');
  pe_admin : admin_listen (Config.admin c) = admin_listen (Config.admin c');
  pe_pools : forall name, (fun p => (provider p, capacity_units p, endpoint_host p)) <$> pools c !! name =
                          (fun p => (provider p, capacity_units p, endpoint_host p)) <$> pools c' !! name
}.

#[export] Instance public_eq_equivalence {UL : UrlLib} : Equivalence (public_eq (UL := UL)).
Proof.
  split; [done | |].
  - intros c c' []. split; done.
  - intros c1 c2 c3 [A1 A2 A3 A4] [B1 B2 B3 B4]. split; [congruence.. |]. intros name. by rewrite A4.
Qed.

Definition public_summary {UL : UrlLib} (provider_text : ProviderKind -> string) (name : string)
    (s : ProviderKind * f64 * option string) : Value :=
  let '(k, units, host) := s in
  Obj [("name", text name); ("provider", text (provider_text k)); ("capacity_units", Num (Float units)); ("endpoint_host", from_option text Null host)].

Lemma pool_summary_public {UL : UrlLib} provider_text name p :
  pool_summary provider_text (name, p) = public_summary provider_text name (provider p, capacity_units p, endpoint_host p).
Proof. unfold pool_summary, public_summary, endpoint_host. cbn. repeat case_match; simplify_eq/=; done. Qed.

#[export] Instance diagnostics_proper {UL : UrlLib} version addr_text provider_text :
  Proper (public_eq ==> (=)) (diagnostics version addr_text provider_text).
Proof.
  intros c c' [E1 E2 E3 E4]. unfold diagnostics. rewrite E1, E2, E3.
  assert (EP : map (pool_summary provider_text) (btree_iter string_le (pools c)) = map (pool_summary provider_text) (btree_iter string_le (pools c'))).
  { apply btree_iter_summary. intros name. specialize (E4 name). destruct (pools c !! name) as [p|], (pools c' !! name) as [p'|]; try done.
    cbn in *. rewrite !pool_summary_public. congruence. }
  by rewrite EP.
Qed.

Section bundle.
Context {UL : UrlLib} {JT : JsonText} (pretty_json : Value -> string) (addr_text : SocketAddr -> string) (provider_text : ProviderKind -> string).

(** A diagnostic bundle reveals no secret: two configurations that agree on
    mode, listeners and the names, kinds, capacities and hosts of their pools
    give the same bundle, byte for byte, whatever their credentials, identity
    settings, policies, API keys and the rest of their endpoints (user, path,
    query) are. *)
Theorem diagnostics_reveal_nothing w w' path output c c' :
  load_config w path = Ok c -> load_config w' path = Ok c' -> public_eq c c' ->
  may_write w output = may_write w' output -> pkg_version w = pkg_version w' ->
  diagnostics_collect pretty_json addr_text provider_text w path output = diagnostics_collect pretty_json addr_text provider_text w' path output.
Proof.
  intros E1 E2 HP EW EV. unfold diagnostics_collect. rewrite E1, E2. cbn. unfold write. rewrite EW, EV.
  by rewrite (diagnostics_proper (pkg_version w') addr_text provider_text c c' HP).
Qed.
End bundle.

(** ** [explain] *)

Section explain.
Context {JT : JsonText} (pretty_json : Value -> string) (uuid_text : Uuid -> string).
Hypothesis uuid_text_inj : forall a b, uuid_text a = uuid_text b -> a = b.

Lemma decision_request_id r : as_str (index (decision_json uuid_text r) "request_id") = Some (uuid_text (rec_request_id r)).
Proof.
  change (as_str (json_text (uuid_text (rec_request_id r))) = Some (uuid_text (rec_request_id r))).
  unfold as_str, json_text. by rewrite string_of_list_ascii_of_string.
Qed.

Lemma filter_decisions id (l : list DecisionRecord) :
  filter (fun v => as_str (index v "request_id") = Some (uuid_text id)) (decision_json uuid_text <$> l) =
  decision_json uuid_text <$> filter (fun r => rec_request_id r = id) l.
Proof.
  induction l as [|r l IH]; [done|]. cbn [fmap list_fmap]. rewrite !filter_cons, IH. rewrite decision_request_id.
  destruct (decide (rec_request_id r = id)) as [-> | N].
  - by rewrite decide_True.
  - rewrite decide_False; [done|]. intros [= E]. by apply N, uuid_text_inj.
Qed.

(** [explain] agrees with the proxy: asked through the management plane, it
    prints the oldest record of the request in the proxy's history, and fails
    exactly when the history holds none. *)
Theorem explain_finds_decision {K : Type} `{Coordinator K} {HO : HashOrder} (a : App K) env vars w admin id page headers authorization :
  admin_request uuid_text env vars a "GET" "/api/v1/decisions" authorization = Ok (headers, Ok (JsonPage page)) ->
  http_get w (trim_slashes admin +:+ "/api/v1/decisions") = Ok (mkHttpAnswer 200 (Ok page)) ->
  explain pretty_json uuid_text w id admin =
    match head (filter (fun r => rec_request_id r = id) (app_decisions a)) with
    | Some r => ([Print (line (pretty_json (decision_json uuid_text r)))], Ok tt)
    | None => ([], Err ("request " +:+ uuid_text id +:+ " is not in the bounded decision history"))
    end.
Proof.
  intros EA EG. assert (EP : page = decisions_page uuid_text a).
  { unfold admin_request in EA. cbn in EA. destruct (admin_security _ _ _ _ _); [|done]. by injection EA as _ <-. }
  subst page. unfold explain. rewrite EG, run_bind_ok. change (error_for_status w (mkHttpAnswer 200 ?j)) with (@Ok string _ (mkHttpAnswer 200 j)).
  rewrite run_bind_ok. cbn [http_json]. rewrite run_bind_ok. cbn [as_list decisions_page]. rewrite run_bind_ok, filter_decisions.
  by destruct (filter _ (app_decisions a)).
Qed.
End explain.

(** ** [doctor] and [serve] *)

Lemma bind_result {A B} (r : Run A) (k : A -> Run B) :
  (run_bind r k).2 = match r.2 with Ok a => (k a).2 | Err e => Err e end.
Proof. destruct r as [eff [a|e]]; cbn; [|done]. by destruct (k a). Qed.

Lemma doctor_result {UL : UrlLib} w port lookup_host which path target :
  (cli_doctor w port lookup_host which path target).2 = doctor port lookup_host which (load_config w path) target.
Proof.
  unfold cli_doctor, doctor. rewrite bind_result. cbn [fallible snd]. destruct (load_config w path) as [config|]; [|done].
  rewrite bind_result. cbn [println print snd]. rewrite bind_result.
  assert (EP : forall l, (cli_doctor_pools port lookup_host l).2 = doctor_pools port lookup_host l).
  { induction l as [|[n p] l IH]; [done|]. cbn [cli_doctor_pools doctor_pools]. rewrite bind_result. cbn [fallible snd].
    destruct (doctor_pool port lookup_host n p); [|done]. by rewrite bind_result. }
  rewrite EP. cbn [result_bind]. destruct (doctor_pools _ _ _); [|done]. rewrite bind_result. destruct target as [t|]; [|done].
  by destruct (which (required_tool t)).
Qed.

(** A server that stops ends its wait, and had bound its listeners. *)
Lemma serve_ends {UL : UrlLib} addr_text w h path m eff n :
  stopped_at h <= clock h 0%nat -> (forall i, clock h i + DRAIN_SLEEP <= clock h (S i)) ->
  serve addr_text w h path m = (eff, Ok n) ->
  stop h = Stopped /\ exists k, n = Some k /\ (k <= 600)%nat /\ (active_at h k <= 0 \/ stopped_at h + DRAIN_TIMEOUT <= clock h k) /\
  exists config, load_config w path = Ok config /\ is_ok (bind h (admin_listen (Config.admin config))) = true /\
    (tls (server config) = None -> is_ok (bind h (server_listen (server config))) = true).
Proof.
  intros H1 H2 E. destruct (drain_from (stopped_at h) (clock h) (active_at h) H1 H2 600 0 ltac:(lia)) as (k & EK & _ & L & D & _).
  apply (f_equal snd) in E. cbn [snd] in E. unfold serve in E. rewrite bind_result in E. cbn [fallible snd] in E.
  destruct (load_config w path) as [config|] eqn:EC; [|done]. rewrite bind_result in E. cbn [fallible snd] in E.
  destruct (build_app h _); [|done]. rewrite bind_result in E. cbn [fallible snd] in E.
  assert (EA : admin_listen (Config.admin (serve_config config m)) = admin_listen (Config.admin config)) by (by destruct m).
  assert (ES : server (serve_config config m) = server config) by (by destruct m).
  rewrite EA in E. destruct (bind h (admin_listen (Config.admin config))) eqn:EB; [|done]. cbn [context] in E.
  rewrite !bind_result in E. cbn [println print fallible snd] in E. destruct (open_data addr_text h (serve_config config m)) eqn:EO; [|done].
  destruct (stop h); [done | done |]. cbn [fallible snd] in E. injection E as <-. split; [done|]. exists k. split_and!; [done | lia | done |].
  exists config. rewrite EB. split_and!; [done | done |]. intros ET. unfold open_data in EO. rewrite ES, ET in EO.
  by destruct (bind h (server_listen (server config))).
Qed.

(** The banner announces a proxy whose listener is not bound. *)
Lemma ready_before_bound {UL : UrlLib} addr_text w h path m config :
  load_config w path = Ok config -> build_app h (serve_config config m) = Ok tt -> bind h (admin_listen (Config.admin config)) = Ok tt ->
  tls (server config) = None -> is_ok (bind h (server_listen (server config))) = false ->
  serve addr_text w h path m = ([Print (banner addr_text (serve_config config m))],
    Err ("cannot bind proxy at " +:+ addr_text (server_listen (server config)))).
Proof.
  intros EL EB EA ET ED. assert (ES : server (serve_config config m) = server config) by (by destruct m).
  assert (EM : admin_listen (Config.admin (serve_config config m)) = admin_listen (Config.admin config)) by (by destruct m).
  unfold serve. rewrite EL, run_bind_ok, EB, run_bind_ok, EM, EA. cbn [context]. rewrite run_bind_ok. unfold open_data. rewrite ES, ET.
  destruct (bind h (server_listen (server config))); [done|]. cbn [context]. reflexivity.
Qed.

(** ** Witnesses *)

Definition ex_decisions_page : Value := decisions_page ex_hex (ex_closed [ex_decision]).

Definition ex_world (config : Config) : World := {|
  load_config := fun _ => Ok config;
  files := ∅;
  http_get := fun _ => Ok (mkHttpAnswer 200 (Ok ex_decisions_page));
  status_text := decimal;
  status_error := decimal;
  not_a_list := "not a list";
  trace_events := fun _ => Ok hostile_trace;
  may_write := fun _ => Ok tt;
  pkg_version := "0.2.1";
  git_sha := None;
  build_target := None;
  arch := "x86_64"
|}.

Definition ex_addr (a : SocketAddr) : string := "addr".
Definition ex_provider (k : ProviderKind) : string := "provider".

(** The same pool with another credential and another path. *)
Definition with_endpoint (c : Config) (endpoint : string) (auth : AuthConfig) : Config :=
  mkConfig (api_version c) (kind c) (mode c) (server c) (Config.admin c) (coordinator c) (service_classes c)
    {[ "main" := mkPoolConfig Fake endpoint None None None None (f_of_Z 1000) auth ∅ (f_lit 115 100) ]}
    (policies c) (identity_config c) (limits c).

Definition ex_host : Host := mkHost (fun _ => Ok tt) (fun _ => Ok tt)
  (mkTlsFiles (fun _ => Err "none") (fun _ => Err "none") (fun _ => Err "none") (fun _ => (0, 0)%nat) (fun _ => Ok tt) (fun _ _ => Ok tt))
  Stopped 0 (fun i => Z.of_nat i * DRAIN_SLEEP) (fun i => 2 - Z.of_nat i).

Definition ex_surroundings : Surroundings := mkSurroundings ex_host (fun _ => Ok tt) (fun _ => []) 0 decimal (fun _ => "error")
  (mkDeployEnv (Ok tt) (fun _ => true) Ok (Ok "/bin/inferqos") (fun _ _ => Ok None)).


Lemma diagnostics_reveal_nothing_witness :
  let bundle c := @diagnostics_collect plain_urls compact ex_addr ex_provider (ex_world c) "c" "o" in
  bundle (with_endpoint ex_config "https://host/v1?key=secret" (Bearer "A")) = bundle (with_endpoint ex_config "https://host/v2" NoAuth).
Proof.
  intros bundle.
  apply (@diagnostics_reveal_nothing plain_urls compact ex_addr ex_provider
    (ex_world (with_endpoint ex_config "https://host/v1?key=secret" (Bearer "A"))) (ex_world (with_endpoint ex_config "https://host/v2" NoAuth)) "c" "o"
    (with_endpoint ex_config "https://host/v1?key=secret" (Bearer "A")) (with_endpoint ex_config "https://host/v2" NoAuth)); try reflexivity.
  split; try reflexivity. intros name. unfold with_endpoint. cbn [pools]. destruct (decide (name = "main")) as [-> | N].
  - rewrite !lookup_singleton_eq. vm_compute. reflexivity.
  - by rewrite !lookup_singleton_ne.
Defined.

Lemma ex_hex_inj a b : ex_hex a = ex_hex b -> a = b.
Proof. intros E%decimal_inj; lia. Qed.

Lemma explain_finds_decision_witness :
  explain compact ex_hex (ex_world ex_config) 7%N "http://127.0.0.1:9090/" = ([Print (line (compact (decision_json ex_hex ex_decision)))], Ok tt).
Proof.
  refine (explain_finds_decision compact ex_hex ex_hex_inj (ex_closed [ex_decision]) ex_admin_env (fun _ => Some "secret") (ex_world ex_config)
    "http://127.0.0.1:9090/" 7%N ex_decisions_page SECURITY_HEADERS (Some "Bearer secret") _ _); reflexivity.
Defined.
