(* ===== verification/FakeProvider.v ===== *)
(** * The fake provider (crates/fake-provider)

    The development server: a request is counted, may be refused, and otherwise
    holds one of a fixed number of permits until its answer, or the stream of
    its answer, is over.  [infer_start] is the handler up to the permit,
    [infer_answer] the rest; a request in flight is one that holds a permit. *)

From stdpp Require Import base list strings pretty relations.
From Stdlib Require Import ZArith Lia Ascii String.
From S2P Require Import Prelude Web Json Core.

Open Scope string_scope.
Open Scope Z_scope.

Record FakeApp : Type := mkFakeApp {
  permits : Z; (** what the semaphore has left *)
  latency : Duration;
  chunks : Z;
  fake_requests : Z;
  throttles : Z;
  failure_every : Z
}.

(** The state [main] starts with. *)
Definition fake_new (concurrency latency_ms chunks failure_every : Z) : FakeApp :=
  mkFakeApp concurrency (from_millis latency_ms) chunks 0 0 failure_every.

(** The arguments and their defaults; [main] builds the state from them. *)
Record Args : Type := mkArgs {
  arg_listen : string;
  arg_concurrency : Z;
  arg_latency_ms : Z;
  arg_chunks : Z;
  arg_failure_every : Z
}.
Definition DEFAULT_ARGS : Args := mkArgs "127.0.0.1:18080" 8 50 12 0.
Definition fake_main (a : Args) : FakeApp := fake_new (arg_concurrency a) (arg_latency_ms a) (arg_chunks a) (arg_failure_every a).

(** [metrics]. *)
Definition fake_metrics (app : FakeApp) : string :=
  "fake_provider_requests_total " +:+ pretty (fake_requests app) +:+
  String NEWLINE ("fake_provider_throttles_total " +:+ pretty (throttles app) +:+ String NEWLINE EmptyString).

(** The router: two pages for [GET], every other path is an inference. *)
Inductive Route : Type := FixedPage (text : string) | WrongMethod | Infer.
Definition fake_route (app : FakeApp) (method path : string) : Route :=
  let page text := if String.eqb method "GET" then FixedPage text else WrongMethod in
  if String.eqb path "/health" then page "ok" else if String.eqb path "/metrics" then page (fake_metrics app) else Infer.

Inductive FakeReply : Type :=
| Throttle (message : string) (** 429 with [retry-after: 1] *)
| InjectedFailure (** 503 *)
| PayloadTooLarge (** 413 *)
| Disconnect (** 200, a partial body, then a reset *)
| Malformed (after : Duration)
| Completion (after : Duration)
| EventStream (delay : Duration) (events : list string).

(** The handler up to the permit: the new state, and a reply or the permit. *)
Definition infer_start (app : FakeApp) (mode : string) : FakeApp * option FakeReply :=
  let sequence := wadd (fake_requests app) 1 in
  let counted t p := mkFakeApp p (latency app) (chunks app) sequence t (failure_every app) in
  if String.eqb mode "throttle" then
    (counted (wadd (throttles app) 1) (permits app), Some (Throttle "forced deterministic throttle"))
  else if (0 <? failure_every app) && (sequence mod failure_every app =? 0) then
    (counted (throttles app) (permits app), Some InjectedFailure)
  else if permits app =? 0 then
    (counted (wadd (throttles app) 1) (permits app), Some (Throttle "deterministic fake provider is saturated"))
  else (counted (throttles app) (permits app - 1), None).

(** The text of the [i]-th event of a stream of [n]. *)
Definition event_text (n i : Z) : string :=
  (if i + 1 =? n then "data: [DONE]"
   else "data: {" +:+ quoted "id" +:+ ":" +:+ quoted "fake" +:+ "," +:+ quoted "choices" +:+ ":[{" +:+ quoted "delta" +:+ ":{"
        +:+ quoted "content" +:+ ":" +:+ quoted ("chunk-" +:+ pretty i +:+ " ") +:+ "}}]}")
  +:+ String NEWLINE (String NEWLINE EmptyString).

(** [stream::unfold] from event [i] on, [rest] events before the end. *)
Fixpoint events_from (n i : Z) (rest : nat) : list string :=
  match rest with O => [] | S rest => event_text n i :: events_from n (i + 1) rest end.
Definition event_stream (n : Z) : list string := events_from n 0 (Z.to_nat n).

(** [Value::as_bool]. *)
Definition as_bool (v : Value) : option bool := match v with Boolean b => Some b | _ => None end.

(** The handler from the permit on; the body is what [to_bytes] made of it. *)
Definition infer_answer `{JsonLib} (app : FakeApp) (mode : string) (body : option Bytes) : FakeReply :=
  match body with
  | None => PayloadTooLarge
  | Some body =>
      let streaming := default false ((json_from_slice body ≫= fun v => get v "stream") ≫= as_bool) in
      let delay := if String.eqb mode "slow" then latency app * 20 else latency app in
      if String.eqb mode "disconnect" then Disconnect
      else if String.eqb mode "malformed" then Malformed delay
      else if negb streaming then Completion delay
      else EventStream delay (event_stream (chunks app))
  end.

(** The permit is dropped with the answer. *)
Definition infer_finish (app : FakeApp) : FakeApp :=
  mkFakeApp (permits app + 1) (latency app) (chunks app) (fake_requests app) (throttles app) (failure_every app).

(** ** Any number of requests at once *)

(** The server with the number of requests in flight. *)
Inductive fstep : FakeApp * Z -> FakeApp * Z -> Prop :=
| fstep_refused app n mode app' reply : infer_start app mode = (app', Some reply) -> fstep (app, n) (app', n)
| fstep_started app n mode app' : infer_start app mode = (app', None) -> fstep (app, n) (app', n + 1)
| fstep_finished app n : 0 < n -> fstep (app, n) (infer_finish app, n - 1).

Lemma fstep_permits s s' : fstep s s' -> 0 <= s.2 -> 0 <= permits s.1 ->
  permits s'.1 + s'.2 = permits s.1 + s.2 /\ 0 <= s'.2 /\ 0 <= permits s'.1.
Proof.
  intros H Hn Hp. destruct H as [app n mode app' reply E | app n mode app' E | app n Hn']; cbn in *; [| |lia];
    unfold infer_start in E; destruct (String.eqb mode "throttle"); simplify_eq/=; try lia;
    destruct (_ && _); simplify_eq/=; try lia; destruct (Z.eqb_spec (permits app) 0); simplify_eq/=; lia.
Qed.

(** The fake provider has the capacity it claims: whatever the requests, never
    more than the configured number hold a permit. *)
Lemma fake_capacity concurrency latency_ms n failure_every s :
  0 <= concurrency -> rtc fstep (fake_new concurrency latency_ms n failure_every, 0) s ->
  permits s.1 + s.2 = concurrency /\ 0 <= s.2 <= concurrency.
Proof.
  intros C R. assert (G : forall a b, rtc fstep a b -> 0 <= a.2 -> 0 <= permits a.1 ->
    permits b.1 + b.2 = permits a.1 + a.2 /\ 0 <= b.2 /\ 0 <= permits b.1).
  { induction 1 as [a | a b c H _ IH]; intros H1 H2; [lia|]. destruct (fstep_permits a b H H1 H2) as (E & P & Q).
    destruct (IH P Q). lia. }
  destruct (G _ _ R) as (E & P & Q); cbn in *; lia.
Qed.

(** A stream has as many events as configured, the last is the end mark. *)
Lemma event_stream_spec n : 0 < n ->
  Z.of_nat (List.length (event_stream n)) = n /\
  last (event_stream n) = Some ("data: [DONE]" +:+ String NEWLINE (String NEWLINE EmptyString)).
Proof.
  assert (L : forall rest i, List.length (events_from n i rest) = rest) by (induction rest; intros i; cbn; congruence).
  assert (G : forall rest i, i + Z.of_nat (S rest) = n -> last (events_from n i (S rest)) = Some (event_text n (n - 1))).
  { induction rest as [|rest IH]; intros i E; [cbn; do 2 f_equal; lia|]. change (events_from n i (S (S rest))) with (event_text n i :: events_from n (i + 1) (S rest)). by rewrite last_cons, (IH (i + 1)) by lia. }
  intros P. unfold event_stream. rewrite L. split; [lia|]. replace (Z.to_nat n) with (S (Z.to_nat (n - 1))) by lia.
  rewrite G by lia. unfold event_text. by rewrite Z.sub_add, Z.eqb_refl.
Qed.
